(* ===== verification/_CoqProject ===== *)
-Q . S2P
Prelude.v
Text.v
Types.v
Rng.v
Store.v
Storage.v
Disk.v
Config.v
Http.v
Node.v
NodeSteps.v
NodeLife.v
NodeInv.v
NodeThm.v
Width.v
Crash.v
Kv.v
Api.v
Sim.v
Lin.v
Elections.v
Cluster.v
Runs.v
Raft.v
LogRepr.v
Refine.v
Safety.v
Serve.v
Reads.v
Writes.v
History.v
Jepsen.v
Drive.v
Replicate.v
Elect.v
Available.v
Main.v
