(* ===== verification/Prelude.v ===== *)
(** * rustkv: a verification development

    rustkv (src/) is a replicated key-value store: a Raft consensus core
    with persistence, log compaction, single-server membership changes,
    PreVote, CheckQuorum and linearizable reads, a key-value state machine
    with exactly-once sessions on top, and an HTTP front end. This library
    models the program in Rocq and proves the properties that make it
    correct.

    ** How the program is put together

    One Raft node is one event loop (src/src/raft/node.rs). It owns a
    [Storage] (src/src/raft/storage.rs: hard state, snapshot, log, each in a
    file), a state machine (src/src/store.rs behind the trait
    [StateMachine]), timers drawn from a SplitMix64 generator
    (src/src/rng.rs), and talks to its peers with four RPCs
    (src/src/raft/rpc.rs) through a transport. Clients reach it through
    src/src/kv.rs and src/src/api.rs.

    ** Which file models what

    - [Prelude] (this file): machine integers, [Result], the fail-stop state
      monad [M] in which handlers are written (a panic is [None]), weakest
      preconditions and the tactics that walk a handler.
    - [Text]: the operations of Rust's [str] the program parses with.
    - [Types]: src/src/raft/types.rs and src/src/raft/rpc.rs; the interface
      [StateMachine] the core calls, and what it relies on
      ([StateMachineLaws]).
    - [Rng]: src/src/rng.rs, at machine width.
    - [Store]: src/src/store.rs: the session window as a 64-bit word, the
      store's operations, its instance of [StateMachine] with the laws.
    - [Storage]: the in-memory mirror of src/src/raft/storage.rs with the
      error of every mutation.
    - [Disk]: the files behind it: the file-system steps of every mutation,
      crashes between and inside them, [Storage::open] and its repair.
    - [Config]: src/src/config.rs: the environment variables and the peer map.
    - [Http]: src/src/raft/transport/http.rs: reading a response from the
      reads it arrives in (a length no buffer can have is a panic), the
      connection pool, one RPC with its retry.
    - [Node]: src/src/raft/node.rs, every handler as a program of [M]. The
      state is [RaftNode], field by field; [n_effects] collects what the
      outside sees, in order: storages made durable, RPCs, answers, watch
      updates. [loop_step] is one iteration of [RaftNode::run].
    - [NodeSteps]: what every iteration does on any input: the durable term
      and vote only move forward, commit only grows, the storage is the last
      one written.
    - [NodeLife]: iterations, crashes at any point of one (inside an append
      too), restarts; the exact vote and pre-vote rules; one vote per term.
    - [NodeInv]: the node's invariant and that every handler keeps it without
      panicking.
    - [NodeThm]: the theorems on one node that follow, on a concrete node.
    - [Width]: when the node's unbounded numbers agree with the code's [u64].
    - [Crash]: an iteration run against the files of [Disk]; every crash in
      it, except one inside an [install_snapshot] over a divergent log, is a
      crash step of [NodeLife].
    - [Kv]: src/src/kv.rs: proposals, linearizable reads, their deadline and
      the reading of the core's answers.
    - [Api]: src/src/api.rs: every HTTP handler from the parsed request to
      status, [Location] and body.
    - [Sim]: src/src/raft/transport/sim.rs: the seeded network and the
      safety observer.
    - [Lin]: src/tests/common/lin.rs, the linearizability checker of the
      fault-injection tests.
    - [Elections]: per handler, that tallies and mandates are backed by
      durable votes while the membership is static.
    - [Cluster]: members, joiners and a network that loses, delays, reorders
      and duplicates; what stays put in a static cluster.
    - [Runs]: an executable scheduler for [Cluster] and concrete runs, one
      in which a node joins, takes over and removes another.
    - [Raft]: the protocol with everything local removed, and its invariant:
      logs from index 1, votes and acknowledgements as facts that stay true,
      one growing log per leader. The configuration of a node is the last
      one in its log ([conf]); a leader adds another only if majorities
      overlap and something of its own term that covers the one before is
      committed ([lawful]). [Authored] says what a leader may write in a step,
      for those who need to know where an entry comes from.
    - [LogRepr]: which whole log a storage (snapshot and suffix) stands for,
      and which configuration.
    - [Refine]: every handler, effect by effect, takes only steps of [Raft];
      a proposal on a followed channel ([Tracked]) is acknowledged only when
      the entry it made is committed.
    - [Safety]: the worlds of [Cluster] refine [Raft]; the safety theorems.
    - [Serve]: per handler, that heartbeat numbers cover what was sent, that
      acknowledgements came back from the network, and that a granted read
      was registered, confirmed by a majority of the members then in force
      and applied.
    - [Reads]: linearizable reads over the worlds of [Cluster].
    - [Writes]: acknowledged writes, and reads after them.
    - [History]: whole runs with everything clients see of them, and their
      linearization.
    - [Jepsen]: what the clients of src/tests/jepsen.rs record of a run of
      stores, and why [Lin]'s checker accepts it.
    - [Drive]: schedules as a means to get somewhere: an iteration can always
      be taken, and [eventually] composes schedules of a group of nodes.
    - [Replicate]: what the replication handlers do exactly when leader and
      follower talk; the measure under which they reach agreement.
    - [Elect]: a group of nodes drives one of its own to leadership.
    - [Available]: a command handed to a leader is committed and answered.
    - [Main]: src/src/main.rs: from the configuration to a running node, and
      the task that follows the membership.

    ** What the theorems show

    - Cluster level, for fresh members and joiners, over all changes of
      the configuration that clients ask for, crashes inside handlers,
      restarts and all message schedules: Election Safety
      ([election_safety]), the refinement of the abstract protocol
      ([cluster_refines_raft]), Log Matching ([log_matching]), Leader
      Completeness ([leader_completeness]), State Machine Safety
      ([state_machine_safety]), that no node ever panics
      ([cluster_never_panics]) and that the simulation's safety observer
      stays silent ([observer_silent]).
      With the gates on changes off, as a test can set them, two nodes can
      lead one term ([gates_needed]).
    - What the cluster's clients may rely on, over the same runs: everything
      clients see of a run is explained by one order of the writes that
      respects real time ([history_linearizable]); with stores for state
      machines, the histories the tests record are accepted by their checker
      ([recorded_history_accepted]); an
      acknowledged write keeps its place in what every node applies and in
      the log of every later leader ([acknowledged_write_durable]), a
      granted read is served from a state with everything committed before
      it was asked for ([linearizable_read]), in particular with every write
      acknowledged before ([read_after_write]).
    - Progress, in clusters whose members do not change: a follower is brought up to date in a
      number of round trips linear in the leader's log
      ([replication_terminates]); whatever led to the present state, any
      majority on its own can elect a leader ([majority_elects]), a leader
      with a majority behind it gets commands committed and acknowledged
      ([leader_commits]), so that any command but a configuration change can
      still be written ([majority_available]). These say that a schedule exists from every
      reachable world; that a fair run takes it is left to timers and network.
    - Node level: no handler panics, the invariant is kept and the numbers
      stay within 64 bits where there was room for one more
      ([iteration_in_u64]); the commit index follows the quorum rule
      ([commit_rule]); a restart rebuilds state machine and membership
      ([restart_rebuilds]); admitted configuration changes keep majorities
      overlapping ([config_change_majorities_overlap]); votes
      ([one_vote_per_term], [request_vote_exact], [pre_vote_exact]).
    - Storage: a contract per mutation; after a crash at any point of one
      the directory opens, to the state before or after it, or, inside an
      [install_snapshot] over a divergent log, to a half-installed one
      ([crash_safe]); the round trip through the files
      ([restart_roundtrip]); and that a crash of a node anywhere else in its
      file-system steps is one the cluster theorems cover
      ([disk_crash_covered]).
    - Store: exactly-once application ([store_refines_dedup],
      [retry_is_noop]).
    - Clients: what a reply to a write says about the log
      ([propose_truthful]), when a read is granted ([read_grant_rule]), the
      session headers of the API, what a PUT proposes and what each of its
      statuses means ([session_headers_exact], [put_statuses]), the admin
      endpoints ([admin_single_server]).
    - Transport: what is read of a response, whether the connection is
      reused and what is left unread ([framing_exact]); a pooled connection has one user
      ([pool_exclusive]), what is retried ([post_json_policy]).
    - Simulation: the observer reports a violation exactly when two requests
      contradict each other ([observer_exact]); runs are a function of the
      seed ([sends_reproducible]); the tests' linearizability checker accepts
      exactly the linearizable histories ([checker_exact]).
    - Configuration and start: the peer map's round trip, the cluster and the
      addresses a set of environments boots ([boot_cluster]), that the address book follows the
      membership ([follow_membership_books]).
    - Generator: bounds and period.
    - Five theorems show behaviour the documentation excludes:
      [superseded_write_commits] (a write answered as superseded commits
      later), [superseded_history_rejected] (the tests record it as failed,
      and their checker then rejects a correct run), [install_crash_then_append_corrupts] and
      [install_crash_keeps_divergent_suffix] (a crash inside
      [install_snapshot]), [departed_address_pooled] (a forgotten peer's
      connection returns to the pool).

    ** Bounds, fuel, parameters

    Terms, indexes and sequence numbers are unbounded [N] where the code has
    [u64], whose [+ 1] panics or wraps at the end of the range. They are
    incremented by one and do not get there in a run of feasible length, but
    a peer that sends a term of 2^64 - 1 takes a node there: the theorems on
    nodes and clusters say nothing of the code from then on.
    [iteration_in_u64] states the room an iteration needs. The generator and the session bitmap, where the width
    matters, are kept at 64 bits. Instants and durations are nanoseconds in
    [N]. The fuel of [apply_loop] is the number of entries between applied
    and commit index: [apply_loop_spec] shows that it is exactly enough; that
    of [search] in [Lin] is one more than the number of operations, enough
    for its depth ([search_spec]). JSON values are the parameter [SerdeJson]; the encoders are
    parameters with their round-trip laws ([KvCodec], [DiskCodec]), the
    decoders and header rules of the HTTP crates the class [ApiCodec], each
    instantiated concretely where a theorem needs it.

    ** What is not modelled

    Tracing output, the [RaftHandle] channel plumbing, lock poisoning. Syncs:
    what a completed file-system step wrote is taken to be on the disk, file
    and directory syncs are steps without effect, so neither an fsync that
    does not reach the disk nor one missing from the code would show. Axum's routing and extractors, the
    JSON text itself, sockets, listeners and signals; the texts of [Display]
    for errors; of the tests, the nemesis (a schedule of the cluster model),
    the clients that retry with a token and the white-box checks. The [select!] of the loop picks in a fixed order among ready
    inputs; the model lets any enabled input come next. A crash inside
    [install_snapshot] over a divergent log is no step of [Cluster]: [Disk]
    shows what it leaves. The safety theorems on [Cluster] hold with the
    gates of [validate_config_change] on, as they are outside tests
    ([c_test_disable_reconfig_gates]). *)
From Stdlib Require Export NArith.
From stdpp Require Export base sorting numbers strings gmap fin_maps list_numbers.
From stdpp Require Export list.

#[export] Set Default Goal Selector "!".

(** ** Machine integers

    The Rust code keeps every counter in a [u64]; the development keeps them
    in [N] and writes the width out where wrap-around or shifting out of the
    word matters. *)
Declare Scope rustkv_scope.
Delimit Scope rustkv_scope with rustkv.

Definition u64_modulus : N := 2 ^ 64.
Definition u64 (x : N) : Prop := (x < u64_modulus)%N.
Definition wrapping_add (x y : N) : N := ((x + y) mod u64_modulus)%N.
Definition wrapping_mul (x y : N) : N := ((x * y) mod u64_modulus)%N.

(** [u64::checked_sub]. *)
Definition checked_sub (x y : N) : option N :=
  if decide (y ≤ x)%N then Some (x - y)%N else None.

(** Side conditions [u64 _]. *)
Create HintDb u64.

Notation "x '+w' y" := (wrapping_add x y) (at level 50, left associativity) : rustkv_scope.
Notation "x '*w' y" := (wrapping_mul x y) (at level 40, left associativity) : rustkv_scope.

(** ** Results and the fail-stop state monad

    [Result] is Rust's [Result]. Code that can panic (every [expect],
    [assert!] and out-of-range slice of the source) runs in [M S], a state
    monad whose [None] is the panic: the process is gone, and so is its
    volatile state. *)
Inductive Result (A E : Type) : Type :=
| Ok (a : A)
| Err (e : E).
Arguments Ok {A E} _.
Arguments Err {A E} _.

Definition result_is_ok {A E} (r : Result A E) : bool :=
  match r with Ok _ => true | Err _ => false end.

Definition M (S A : Type) : Type := S → option (A * S).

#[export] Instance M_ret S : MRet (M S) := λ A a s, Some (a, s).
#[export] Instance M_bind S : MBind (M S) := λ A B f m s,
  match m s with
  | Some (a, s') => f a s'
  | None => None
  end.

Section monad.
Context {S : Type}.

Definition get : M S S := λ s, Some (s, s).
Definition gets {A} (f : S → A) : M S A := λ s, Some (f s, s).
Definition modify (f : S → S) : M S () := λ s, Some ((), f s).
Definition panic {A} : M S A := λ _, None.

(** [assert!] *)
Definition assert_ (b : bool) : M S () := if b then mret () else panic.

(** [Option::expect] / [Result::expect] *)
Definition expect {A} (o : option A) : M S A :=
  match o with Some a => mret a | None => panic end.
Definition expect_ok {A E} (r : Result A E) : M S A :=
  match r with Ok a => mret a | Err _ => panic end.

Definition when (b : bool) (m : M S ()) : M S () := if b then m else mret ().

(** [for x in l { f(x) }] *)
Fixpoint for_each {A} (l : list A) (f : A → M S ()) : M S () :=
  match l with
  | [] => mret ()
  | x :: l => f x ;; for_each l f
  end.
End monad.

(** ** Weakest preconditions

    [wpp P m Q s]: running [m] from [s] either panics, and then [P] must
    hold, or returns with [Q]. [P := False] is total correctness (the code
    does not panic); [P := True] is partial correctness (whenever the code
    returns, [Q] holds). *)
Definition wpp {S A} (P : Prop) (m : M S A) (Q : A → S → Prop) (s : S) : Prop :=
  match m s with
  | Some (a, s') => Q a s'
  | None => P
  end.
Abbreviation wp := (wpp False).
Abbreviation wlp := (wpp True).

Section wp.
Context {S : Type} (P : Prop).

Lemma wpp_ret {A} (a : A) Q (s : S) : Q a s → wpp P (mret a) Q s.
Proof. done. Qed.
Lemma wpp_bind {A B} (m : M S A) (f : A → M S B) Q s :
  wpp P m (λ a, wpp P (f a) Q) s → wpp P (m ≫= f) Q s.
Proof. unfold wpp, mbind, M_bind. by destruct (m s) as [[a s']|]. Qed.
Lemma wpp_assoc {A B C} (m : M S A) (f : A → M S B) (g : B → M S C) Q s :
  wpp P ((m ≫= f) ≫= g) Q s → wpp P (m ≫= λ a, f a ≫= g) Q s.
Proof. unfold wpp, mbind, M_bind. by destruct (m s) as [[a s']|]. Qed.
Lemma wpp_gets {A} (f : S → A) Q s : Q (f s) s → wpp P (gets f) Q s.
Proof. done. Qed.
Lemma wpp_get Q (s : S) : Q s s → wpp P get Q s.
Proof. done. Qed.
Lemma wpp_modify f Q (s : S) : Q () (f s) → wpp P (modify f) Q s.
Proof. done. Qed.
Lemma wpp_panic {A} Q (s : S) : P → wpp P (panic (A:=A)) Q s.
Proof. done. Qed.
Lemma wpp_assert b Q (s : S) :
  (b = true → Q () s) → (b = false → P) → wpp P (assert_ b) Q s.
Proof. destruct b; simpl; intros H1 H2; [by apply H1|by apply H2]. Qed.
Lemma wpp_expect {A} (o : option A) Q (s : S) :
  (∀ a, o = Some a → Q a s) → (o = None → P) → wpp P (expect o) Q s.
Proof. destruct o; simpl; intros H1 H2; [by apply H1|by apply H2]. Qed.
Lemma wpp_expect_ok {A E} (r : Result A E) Q (s : S) :
  (∀ a, r = Ok a → Q a s) → (∀ e, r = Err e → P) → wpp P (expect_ok r) Q s.
Proof. destruct r; simpl; intros H1 H2; [by apply H1|by eapply H2]. Qed.
Lemma wpp_when b m Q (s : S) :
  (b = true → wpp P m Q s) → (b = false → Q () s) → wpp P (when b m) Q s.
Proof. destruct b; simpl; intros H1 H2; [by apply H1|by apply H2]. Qed.

Lemma wpp_mono {A} (m : M S A) (Q Q' : A → S → Prop) s :
  wpp P m Q s → (∀ a s', Q a s' → Q' a s') → wpp P m Q' s.
Proof. unfold wpp. destruct (m s) as [[a s']|]; eauto. Qed.

Lemma wlp_true {A} (m : M S A) s : wlp m (λ _ _, True) s.
Proof. unfold wpp. by destruct (m s) as [[a s']|]. Qed.

(** A total specification is a partial one. *)
Lemma wp_weaken {A} (m : M S A) (Q : A → S → Prop) s : wp m Q s → wpp P m Q s.
Proof. unfold wpp. by destruct (m s) as [[a s']|]. Qed.

(** A total and a partial specification of the same program. *)
Lemma wp_and_wlp {A} (m : M S A) (Q Q' : A → S → Prop) s :
  wp m Q s → wlp m Q' s → wp m (λ a s', Q a s' ∧ Q' a s') s.
Proof. unfold wpp. by destruct (m s) as [[a s']|]. Qed.

(** A loop keeps what its body keeps. *)
Lemma wpp_for_each {A} (l : list A) (f : A → M S ()) (I : S → Prop) s :
  I s → (∀ x s, x ∈ l → I s → wpp P (f x) (λ _, I) s) →
  wpp P (for_each l f) (λ _, I) s.
Proof.
  revert s. induction l as [|x l IH]; intros s Hs Hf; simpl; [done|].
  apply wpp_bind. eapply wpp_mono; [apply Hf; [set_solver|done]|].
  intros [] s' Hs'. apply IH; [done|]. intros y s'' ? ?. apply Hf; [set_solver|done].
Qed.
End wp.

(** Computing a monadic program that is applied to a known state. *)
Ltac unfold_M := cbv [mbind M_bind mret M_ret gets get modify assert_ expect expect_ok when] in *.

(** The tactic that walks a handler: one step per monadic operation. *)
Ltac wp_step :=
  match goal with
  | |- wpp _ (mret _) _ _ => apply wpp_ret
  | |- wpp _ (_ ≫= _) _ _ => apply wpp_bind
  | |- wpp _ panic _ _ => apply wpp_panic
  | |- wpp _ get _ _ => apply wpp_get
  | |- wpp _ (gets _) _ _ => apply wpp_gets
  | |- wpp _ (modify _) _ _ => apply wpp_modify
  | |- wpp _ (assert_ _) _ _ => apply wpp_assert; intros
  | |- wpp _ (expect _) _ _ => apply wpp_expect; intros
  | |- wpp _ (expect_ok _) _ _ => apply wpp_expect_ok; intros
  | |- wpp _ (when _ _) _ _ => apply wpp_when; intros
  end.
Ltac wp_steps := repeat (wp_step; simpl).

(** ** Arithmetic modulo a constant *)
Lemma mod_add_cancel_l m c a b :
  m ≠ 0%N → ((c + a) mod m = (c + b) mod m ↔ a mod m = b mod m)%N.
Proof.
  intros Hm. split; intros H.
  - apply (f_equal (λ z, (z + (m - c mod m)) mod m)%N) in H.
    rewrite !N.Div0.add_mod_idemp_l in H.
    pose proof (N.mod_lt c m Hm). pose proof (N.div_mod' c m).
    assert (∀ z, c + z + (m - c mod m) = z + (c / m + 1) * m)%N as E by (intros; lia).
    by rewrite !E, !N.Div0.mod_add in H.
  - by rewrite <-N.Div0.add_mod_idemp_r, H, N.Div0.add_mod_idemp_r.
Qed.

(** ** Filters that keep all, or nothing *)
Section filters.
Context {A : Type} (P : A → Prop) `{!∀ x, Decision (P x)}.

Lemma filter_all (l : list A) : (∀ x, x ∈ l → P x) → filter P l = l.
Proof.
  induction l as [|x l IH]; intros HP; [done|].
  rewrite filter_cons_True by set_solver. f_equal. apply IH. set_solver.
Qed.
Lemma filter_none (l : list A) : (∀ x, x ∈ l → ¬ P x) → filter P l = [].
Proof.
  induction l as [|x l IH]; intros HP; [done|].
  rewrite filter_cons_False by set_solver. apply IH. set_solver.
Qed.
End filters.

(** [iter().filter(f).count()] *)
Definition count_if {A} (f : A → bool) (l : list A) : nat :=
  length (filter (λ x, f x = true) l).

(** ** Majorities *)
Definition quorum (ids Q : gset N) : Prop := Q ⊆ ids ∧ (size ids / 2 + 1 ≤ size Q)%nat.

(** Two majorities share a member. *)
Lemma quorums_meet (ids Q1 Q2 : gset N) : quorum ids Q1 → quorum ids Q2 → ∃ v, v ∈ Q1 ∧ v ∈ Q2.
Proof.
  intros [H1 S1] [H2 S2]. destruct (decide (Q1 ∩ Q2 = ∅)) as [Hd|Hne].
  - exfalso. assert (size (Q1 ∪ Q2) = size Q1 + size Q2)%nat by (apply size_union; set_solver).
    assert (size (Q1 ∪ Q2) ≤ size ids)%nat by (apply subseteq_size; set_solver).
    pose proof (Nat.div_mod_eq (size ids) 2). pose proof (Nat.mod_upper_bound (size ids) 2). lia.
  - apply set_choose_L in Hne as [v Hv]. exists v. set_solver.
Qed.
