(* ===== verification/Text.v ===== *)
(** * Text: the string operations the program uses

    Rust strings are UTF-8 byte sequences; here they are lists of [ascii]
    bytes. This file has the operations of Rust's standard library that
    src/src/config.rs, src/src/api.rs and src/src/raft/transport/http.rs call
    ([str::parse] for unsigned integers, [trim], [split], [split_once],
    decimal formatting, [to_ascii_lowercase], substring search), with the
    lemmas their clients share. *)
From Stdlib Require Export Ascii.
From S2P Require Import Prelude.
Open Scope N_scope.

Abbreviation str := (list ascii).
Definition lit (s : string) : str := String.list_ascii_of_string s.
Definition to_string (s : str) : string := String.string_of_list_ascii s.

Lemma to_string_lit s : to_string (lit s) = s.
Proof. apply String.string_of_list_ascii_of_string. Qed.
Lemma lit_to_string s : lit (to_string s) = s.
Proof. apply String.list_ascii_of_string_of_list_ascii. Qed.

#[export] Instance ascii_eq_dec : EqDecision ascii := ascii_dec.

Definition code (c : ascii) : N := N_of_ascii c.
Definition chr (n : N) : ascii := ascii_of_N n.

(** ** Unsigned integers *)
Definition digit_of (c : ascii) : option N :=
  if bool_decide (48 ≤ code c) && bool_decide (code c ≤ 57) then Some (code c - 48) else None.

(** The digit loop: [checked_mul] by 10, then [checked_add]. *)
Fixpoint parse_digits (modulus acc : N) (s : str) : option N :=
  match s with
  | [] => Some acc
  | c :: s =>
      d ← digit_of c;
      if bool_decide (acc * 10 < modulus) && bool_decide (acc * 10 + d < modulus)
      then parse_digits modulus (acc * 10 + d) s else None
  end.

(** [str::parse] at an unsigned integer type of [modulus] values: an optional
    plus sign, at least one digit, no overflow. *)
Definition parse_uint (modulus : N) (s : str) : option N :=
  let digits := match s with c :: s' => if bool_decide (c = "+"%char) then s' else s | [] => [] end in
  match digits with [] => None | _ => parse_digits modulus 0 digits end.
Definition parse_u64 (s : str) : option N := parse_uint u64_modulus s.
Definition parse_u16 (s : str) : option N := parse_uint (2 ^ 16) s.

(** [Display] of an unsigned integer. *)
Definition digit_char (d : N) : ascii := chr (d + 48).
Fixpoint print_digits (fuel : nat) (n : N) : str :=
  match fuel with
  | O => []
  | S fuel => if bool_decide (n < 10) then [digit_char n]
              else print_digits fuel (n / 10) ++ [digit_char (n mod 10)]
  end.
(** A decimal digit takes more than a bit, so the fuel is enough. *)
Definition print_uint (n : N) : str := print_digits (S (N.to_nat (N.log2 n))) n.

(** ** Splitting and trimming *)
Fixpoint split_on (sep : ascii) (s : str) : list str :=
  match s with
  | [] => [[]]
  | c :: s =>
      if bool_decide (c = sep) then [] :: split_on sep s
      else match split_on sep s with
           | w :: ws => (c :: w) :: ws
           | [] => [[c]]
           end
  end.

Fixpoint split_once (sep : ascii) (s : str) : option (str * str) :=
  match s with
  | [] => None
  | c :: s =>
      if bool_decide (c = sep) then Some ([], s)
      else '(a, b) ← split_once sep s; Some (c :: a, b)
  end.

(** The UTF-8 encodings of the Unicode white-space characters, by length. *)
Definition ws1 (a : N) : bool := (bool_decide (9 ≤ a) && bool_decide (a ≤ 13)) || bool_decide (a = 32).
Definition ws2 (a b : N) : bool := bool_decide (a = 0xC2) && (bool_decide (b = 0x85) || bool_decide (b = 0xA0)).
Definition ws3 (a b c : N) : bool :=
  (bool_decide (a = 0xE1) && bool_decide (b = 0x9A) && bool_decide (c = 0x80)) ||
  (bool_decide (a = 0xE2) && bool_decide (b = 0x80) &&
     ((bool_decide (0x80 ≤ c) && bool_decide (c ≤ 0x8A)) || bool_decide (c = 0xA8) ||
      bool_decide (c = 0xA9) || bool_decide (c = 0xAF))) ||
  (bool_decide (a = 0xE2) && bool_decide (b = 0x81) && bool_decide (c = 0x9F)) ||
  (bool_decide (a = 0xE3) && bool_decide (b = 0x80) && bool_decide (c = 0x80)).

Fixpoint trim_start (s : str) : str :=
  match s with
  | [] => []
  | a :: s1 =>
      if ws1 (code a) then trim_start s1
      else match s1 with
           | [] => s
           | b :: s2 =>
               if ws2 (code a) (code b) then trim_start s2
               else match s2 with
                    | [] => s
                    | c :: s3 => if ws3 (code a) (code b) (code c) then trim_start s3 else s
                    end
           end
  end.

(** [trim_end] on the reversed string: the last character is read backwards. *)
Fixpoint trim_end_rev (s : str) : str :=
  match s with
  | [] => []
  | a :: s1 =>
      if ws1 (code a) then trim_end_rev s1
      else match s1 with
           | [] => s
           | b :: s2 =>
               if ws2 (code b) (code a) then trim_end_rev s2
               else match s2 with
                    | [] => s
                    | c :: s3 => if ws3 (code c) (code b) (code a) then trim_end_rev s3 else s
                    end
           end
  end.
Definition trim (s : str) : str := reverse (trim_end_rev (reverse (trim_start s))).

(** ** ASCII case, prefixes, substrings *)
Definition lower (c : ascii) : ascii :=
  if bool_decide (65 ≤ code c) && bool_decide (code c ≤ 90) then chr (code c + 32) else c.
Definition to_ascii_lowercase (s : str) : str := lower <$> s.

Fixpoint strip_prefix (p s : str) : option str :=
  match p, s with
  | [], _ => Some s
  | a :: p, b :: s => if bool_decide (a = b) then strip_prefix p s else None
  | _ :: _, [] => None
  end.

(** The first position of [p] in [s]. *)
Fixpoint find_sub (p s : str) : option nat :=
  match strip_prefix p s with
  | Some _ => Some O
  | None => match s with [] => None | _ :: s => S <$> find_sub p s end
  end.
Definition contains_sub (p s : str) : bool := match find_sub p s with Some _ => true | None => false end.

(** * Lemmas *)

(** ** Decimal numbers *)
Lemma code_chr n : n < 256 → code (chr n) = n.
Proof. apply N_ascii_embedding. Qed.

Lemma digit_of_char d : d < 10 → digit_of (digit_char d) = Some d.
Proof.
  intros Hd. unfold digit_of, digit_char. rewrite code_chr by lia.
  rewrite !bool_decide_eq_true_2 by lia. simpl. f_equal. lia.
Qed.

Lemma digit_of_bound c d : digit_of c = Some d → d < 10.
Proof.
  unfold digit_of. destruct (bool_decide _) eqn:H1; simpl; [|done].
  destruct (bool_decide (code c ≤ 57)) eqn:H2; [|done].
  apply bool_decide_eq_true in H1, H2. intros [= <-]. lia.
Qed.

(** The value of a digit string, without bounds. *)
Fixpoint digits_value (acc : N) (s : str) : option N :=
  match s with
  | [] => Some acc
  | c :: s => d ← digit_of c; digits_value (acc * 10 + d) s
  end.

Lemma digits_value_ge acc s v : digits_value acc s = Some v → acc ≤ v.
Proof.
  revert acc. induction s as [|c s IH]; intros acc; simpl; [intros [= ->]; lia|].
  destruct (digit_of c); simpl; [|done]. intros ?%IH. lia.
Qed.

(** The overflow checks of the loop amount to one on the result. *)
Lemma parse_digits_value modulus acc s v :
  acc < modulus →
  parse_digits modulus acc s = Some v ↔ digits_value acc s = Some v ∧ v < modulus.
Proof.
  revert acc. induction s as [|c s IH]; intros acc Hacc; simpl.
  { split; [by intros [= <-]|by intros [[= <-] _]]. }
  destruct (digit_of c) as [d|] eqn:Hd; simpl; [|naive_solver].
  destruct (decide (acc * 10 + d < modulus)) as [Hlt|Hge].
  - rewrite !bool_decide_eq_true_2 by lia. simpl. by apply IH.
  - rewrite (bool_decide_eq_false_2 (acc * 10 + d < modulus)), andb_false_r by done.
    split; [done|]. intros [Hv%digits_value_ge Hm]. lia.
Qed.

Lemma digits_value_app acc s1 s2 :
  digits_value acc (s1 ++ s2) = digits_value acc s1 ≫= λ a, digits_value a s2.
Proof.
  revert acc. induction s1 as [|c s1 IH]; intros acc; simpl; [done|].
  destruct (digit_of c); simpl; [apply IH|done].
Qed.

Lemma print_digits_value fuel n :
  (N.to_nat (N.log2 n) < fuel)%nat → digits_value 0 (print_digits fuel n) = Some n.
Proof.
  revert n. induction fuel as [|fuel IH]; intros n Hf; [lia|]. simpl. case_bool_decide as Hn.
  - simpl. by rewrite digit_of_char.
  - assert (n mod 10 < 10) as Hm by (apply N.mod_lt; done).
    rewrite digits_value_app, IH.
    + simpl. rewrite digit_of_char by done. simpl. f_equal. pose proof (N.div_mod' n 10). lia.
    + assert (N.log2 (n / 10) < N.log2 n); [|lia].
      assert (n / 10 ≤ n / 2) as Hle by (apply N.div_le_compat_l; lia).
      apply N.log2_le_mono in Hle. rewrite <-N.div2_div, N.div2_spec, N.log2_shiftr in Hle.
      assert (0 < N.log2 n) by (apply N.log2_pos; lia). lia.
Qed.

Lemma print_digits_digits fuel n c : c ∈ print_digits fuel n → ∃ d, d < 10 ∧ c = digit_char d.
Proof.
  revert n. induction fuel as [|fuel IH]; intros n; simpl; [by intros ?%elem_of_nil|].
  case_bool_decide as Hn.
  - intros ->%list_elem_of_singleton. eauto.
  - intros [?| ->%list_elem_of_singleton]%elem_of_app; [eauto|].
    exists (n mod 10). split; [by apply N.mod_lt|done].
Qed.
Lemma print_uint_nonempty n : print_uint n ≠ [].
Proof.
  unfold print_uint. simpl. case_bool_decide; [done|]. by destruct (print_digits _ _).
Qed.

(** Printing and parsing back. *)
Lemma parse_print_uint modulus n : n < modulus → parse_uint modulus (print_uint n) = Some n.
Proof.
  intros Hn. unfold parse_uint.
  assert (parse_digits modulus 0 (print_uint n) = Some n) as Hp.
  { apply parse_digits_value; [lia|]. split; [|done]. apply print_digits_value. lia. }
  pose proof (print_uint_nonempty n) as Hne.
  pose proof (print_digits_digits (S (N.to_nat (N.log2 n))) n) as Hd. fold (print_uint n) in Hd.
  destruct (print_uint n) as [|c s]; [done|].
  destruct (Hd c) as (d & Hlt & ->); [left|].
  rewrite bool_decide_eq_false_2; [done|]. intros Heq.
  apply (f_equal code) in Heq. unfold digit_char in Heq. rewrite code_chr in Heq by lia.
  change (code "+"%char) with 43 in Heq. lia.
Qed.

(** What [parse] accepts, exactly. *)
Lemma parse_uint_spec modulus s v :
  0 < modulus →
  parse_uint modulus s = Some v ↔
  v < modulus ∧ ∃ ds, ds ≠ [] ∧ digits_value 0 ds = Some v ∧ (s = ds ∨ s = "+"%char :: ds).
Proof.
  intros Hm. unfold parse_uint. destruct s as [|c s].
  { split; [done|]. intros (_ & ds & Hne & _ & [E|E]); [by subst ds|done]. }
  case_bool_decide as Hc.
  - subst c. destruct s as [|c s].
    + split; [done|]. intros (_ & ds & Hne & Hv & [<-|[= <-]]); [|done]. vm_compute in Hv. done.
    + rewrite parse_digits_value by done. split.
      * intros [Hv Hlt]. split; [done|]. exists (c :: s). split; [done|]. by split; [|right].
      * intros (Hlt & ds & Hne & Hv & [<-|[= <-]]); [|done]. vm_compute in Hv. done.
  - rewrite parse_digits_value by done. split.
    + intros [Hv Hlt]. split; [done|]. exists (c :: s). split; [done|]. by split; [|left].
    + intros (Hlt & ds & Hne & Hv & [<-|[= Hp _]]); [done|]. by subst c.
Qed.

(** ** Splitting *)
Lemma split_on_none sep s : sep ∉ s → split_on sep s = [s].
Proof.
  induction s as [|c s IH]; intros Hn; simpl; [done|].
  apply not_elem_of_cons in Hn as [Hne Hn]. rewrite bool_decide_eq_false_2 by done. by rewrite IH.
Qed.

Lemma split_on_app sep s1 s2 :
  sep ∉ s1 → split_on sep (s1 ++ sep :: s2) = s1 :: split_on sep s2.
Proof.
  induction s1 as [|c s1 IH]; intros Hn; simpl; [by rewrite bool_decide_eq_true_2|].
  apply not_elem_of_cons in Hn as [Hne Hn]. rewrite bool_decide_eq_false_2 by done. by rewrite IH.
Qed.

Lemma split_once_app sep a b : sep ∉ a → split_once sep (a ++ sep :: b) = Some (a, b).
Proof.
  induction a as [|c a IH]; intros Hn; simpl; [by rewrite bool_decide_eq_true_2|].
  apply not_elem_of_cons in Hn as [Hne Hn]. rewrite bool_decide_eq_false_2 by done. by rewrite IH.
Qed.

(** ** Prefixes and substrings *)
Lemma strip_prefix_Some p s r : strip_prefix p s = Some r ↔ s = p ++ r.
Proof.
  revert s. induction p as [|a p IH]; intros s; simpl; [naive_solver|].
  destruct s as [|b s]; [naive_solver|]. case_bool_decide as Hab; [subst; rewrite IH; naive_solver|naive_solver].
Qed.

Lemma strip_prefix_None p s : strip_prefix p s = None ↔ ¬ p `prefix_of` s.
Proof.
  destruct (strip_prefix p s) as [r|] eqn:Hs.
  - apply strip_prefix_Some in Hs as ->. split; [done|]. intros Hn. destruct Hn. by apply prefix_app_r.
  - split; [|done]. intros _ [r ->]. assert (strip_prefix p (p ++ r) = Some r) by (by apply strip_prefix_Some).
    congruence.
Qed.

(** [find_sub] returns the first occurrence. *)
Lemma find_sub_Some p s k :
  find_sub p s = Some k ↔
  (∃ a b, s = a ++ p ++ b ∧ length a = k) ∧
  ∀ j, (j < k)%nat → ¬ p `prefix_of` drop j s.
Proof.
  revert k. induction s as [|c s IH]; intros k; simpl.
  - destruct (strip_prefix p []) as [r|] eqn:Hs.
    + apply strip_prefix_Some in Hs. symmetry in Hs. apply app_nil in Hs as [-> ->]. split.
      * intros [= <-]. split; [by exists [], []|]. intros j. lia.
      * intros [(a & b & Hab & <-) _]. symmetry in Hab. by apply app_nil in Hab as [-> _].
    + apply strip_prefix_None in Hs. split; [done|]. intros [(a & b & Hab & _) _].
      symmetry in Hab. apply app_nil in Hab as [_ [-> _]%app_nil]. destruct Hs. apply prefix_nil.
  - destruct (strip_prefix p (c :: s)) as [r|] eqn:Hs.
    + apply strip_prefix_Some in Hs. split.
      * intros [= <-]. split; [by exists [], r|]. intros j. lia.
      * intros [_ Hfirst]. destruct k as [|k]; [done|]. destruct (Hfirst 0%nat); [lia|]. simpl.
        rewrite Hs. by apply prefix_app_r.
    + apply strip_prefix_None in Hs. rewrite fmap_Some. setoid_rewrite IH. split.
      * intros (k' & [(a & b & -> & Hl) Hfirst] & ->). split.
        -- exists (c :: a), b. split; [done|]. simpl. by rewrite Hl.
        -- intros [|j] Hj; [done|]. apply Hfirst. lia.
      * intros [(a & b & Hab & Hl) Hfirst]. destruct a as [|c' a].
        { simpl in Hab. destruct Hs. rewrite Hab. by apply prefix_app_r. }
        injection Hab as <- ->. simpl in Hl. exists (length a). split; [|done]. split; [eauto|].
        intros j Hj. apply (Hfirst (S j)). lia.
Qed.
