(* ===== verification/Types.v ===== *)
(** * Core data types and RPC messages

    The data of [src/raft/types.rs] (sessions, memberships, commands, log
    entries, snapshots, the hard state) and of [src/raft/rpc.rs] (the four
    RPCs). [serde_json::Value] is third-party: the program stores, compares
    and clones values and never looks inside, so it is the type parameter of
    the class [SerdeJson]. *)
From S2P Require Import Prelude.
Open Scope N_scope.

(** The [serde_json] crate as the program sees it: a type of JSON values
    with the [PartialEq] the derived instances need. *)
Class SerdeJson := {
  Value : Type;
  Value_eq_dec :: EqDecision Value;
}.

Abbreviation NodeId := N (only parsing).
Abbreviation Term := N (only parsing).
Abbreviation LogIndex := N (only parsing).

(** A client dedup token. *)
Record Session := MkSession { s_client : N; s_seq : N }.

(** How to reach one member. *)
Record MemberAddr := MkMemberAddr { m_raft : string; m_client : string }.
Definition MemberAddr_default : MemberAddr := MkMemberAddr "" "".

#[export] Instance Session_eq_dec : EqDecision Session.
Proof. solve_decision. Defined.
#[export] Instance MemberAddr_eq_dec : EqDecision MemberAddr.
Proof. solve_decision. Defined.

(** [BTreeMap<NodeId, MemberAddr>]: a finite map, iterated in key order. *)
Abbreviation Membership := (gmap N MemberAddr).

Section types.
Context `{J : SerdeJson}.

Inductive Command :=
| Put (key : string) (value : Value) (session : option Session)
| Delete (key : string) (session : option Session)
| Noop
| ConfigChange (members : Membership).

Record LogEntry := MkLogEntry {
  e_term : Term;
  e_index : LogIndex;
  e_command : Command;
}.

Record Snapshot := MkSnapshot {
  last_included_index : LogIndex;
  last_included_term : Term;
  sn_membership : option Membership;
  sn_state : Value;
}.

#[export] Instance Command_eq_dec : EqDecision Command.
Proof. solve_decision. Defined.
#[export] Instance LogEntry_eq_dec : EqDecision LogEntry.
Proof. solve_decision. Defined.
#[export] Instance Snapshot_eq_dec : EqDecision Snapshot.
Proof. solve_decision. Defined.
End types.

(** Persistent state that must be on disk before any RPC is answered. *)
Record HardState := MkHardState {
  current_term : Term;
  voted_for : option NodeId;
}.
Definition HardState_default : HardState := MkHardState 0 None.
#[export] Instance HardState_eq_dec : EqDecision HardState.
Proof. solve_decision. Defined.

(** ** RPC messages ([src/raft/rpc.rs]) *)
Record RequestVoteArgs := MkRequestVoteArgs {
  rv_term : Term;
  rv_candidate_id : NodeId;
  rv_last_log_index : LogIndex;
  rv_last_log_term : Term;
}.

Record RequestVoteReply := MkRequestVoteReply {
  rvr_term : Term;
  rvr_vote_granted : bool;
}.

Record AppendEntriesReply := MkAppendEntriesReply {
  aer_term : Term;
  aer_success : bool;
}.

Record InstallSnapshotReply := MkInstallSnapshotReply { isr_term : Term }.

Section rpc.
Context `{J : SerdeJson}.

Record AppendEntriesArgs := MkAppendEntriesArgs {
  ae_term : Term;
  ae_leader_id : NodeId;
  ae_prev_log_index : LogIndex;
  ae_prev_log_term : Term;
  ae_entries : list LogEntry;
  ae_leader_commit : LogIndex;
}.

Record InstallSnapshotArgs := MkInstallSnapshotArgs {
  is_term : Term;
  is_leader_id : NodeId;
  is_snapshot : Snapshot;
}.

Inductive RpcRequest :=
| RequestVote (args : RequestVoteArgs)
| AppendEntries (args : AppendEntriesArgs)
| PreVote (args : RequestVoteArgs)
| InstallSnapshot (args : InstallSnapshotArgs).
End rpc.

Inductive RpcResponse :=
| RequestVoteResp (reply : RequestVoteReply)
| AppendEntriesResp (reply : AppendEntriesReply)
| PreVoteResp (reply : RequestVoteReply)
| InstallSnapshotResp (reply : InstallSnapshotReply).

(** [TransportError] of [src/raft/transport/mod.rs]. *)
Inductive TransportError :=
| Unreachable (id : NodeId)
| Timeout.

(** [BTreeMap::keys]: ascending order. *)
Definition btree_keys {A} (m : gmap N A) : list N :=
  merge_sort (≤) (elements (dom m)).

Lemma elem_of_btree_keys {A} (m : gmap N A) k :
  k ∈ btree_keys m ↔ is_Some (m !! k).
Proof.
  unfold btree_keys. rewrite (merge_sort_Permutation (≤)).
  by rewrite elem_of_elements, elem_of_dom.
Qed.

Lemma NoDup_btree_keys {A} (m : gmap N A) : NoDup (btree_keys m).
Proof.
  unfold btree_keys. rewrite (merge_sort_Permutation (≤)). apply NoDup_elements.
Qed.

Lemma length_btree_keys {A} (m : gmap N A) : length (btree_keys m) = size m.
Proof.
  unfold btree_keys. rewrite (merge_sort_Permutation (≤)).
  change (length (elements (dom m))) with (size (dom m : gset N)).
  apply size_dom.
Qed.

(** ** The state-machine interface ([trait StateMachine], [src/raft/node.rs])

    What the Raft core may call on the replicated state machine. [sm_restore]
    returns [None] where the implementation panics on a malformed payload. *)
Class StateMachine `{J : SerdeJson} (SM : Type) := {
  sm_apply : LogEntry → SM → SM;
  sm_snapshot : SM → Value;
  sm_restore : Value → SM → option SM;
}.

(** What the core relies on: a snapshot captures the complete state, and a
    restore replaces the entire state, whatever was there. *)
Class StateMachineLaws `{StateMachine SM} : Prop := {
  sm_restore_snapshot (s s' : SM) : sm_restore (sm_snapshot s) s' = Some s;
  sm_restore_any v (s s' : SM) : sm_restore v s = sm_restore v s';
}.

(** Applying a stretch of the log in order. *)
Definition sm_apply_all `{StateMachine SM} (es : list LogEntry) (s : SM) : SM :=
  foldl (λ s e, sm_apply e s) s es.

Lemma sm_apply_all_app `{StateMachine SM} es1 es2 (s : SM) :
  sm_apply_all (es1 ++ es2) s = sm_apply_all es2 (sm_apply_all es1 s).
Proof. apply foldl_app. Qed.

(** A concrete instance of the JSON interface, for evaluating the model on
    concrete inputs: every value is a number. *)
Definition numeric_json : SerdeJson := {| Value := N |}.
Definition jv (n : N) : @Value numeric_json := n.
