(* ===== verification/Rng.v ===== *)
(** * SplitMix64 ([src/rng.rs])

    The generator behind election jitter and the simulated network. The
    three state-to-output functions of the source are executable on [N] with
    the 64-bit wrap-around written out; [next_bool]'s probability is the
    rational number the [f64] denotes (the comparison [unit < p] is exact:
    [unit] has 53 significant bits). *)
From Stdlib Require Import QArith.
From S2P Require Import Prelude.
Open Scope N_scope.
Local Open Scope rustkv_scope.

Record SplitMix64 := MkSplitMix64 { rng_state : N }.

Definition rng_new (seed : N) : SplitMix64 := MkSplitMix64 seed.

Definition golden_gamma : N := 0x9E3779B97F4A7C15.
Definition mix_mul_1 : N := 0xBF58476D1CE4E5B9.
Definition mix_mul_2 : N := 0x94D049BB133111EB.

(** The output function applied to the advanced state. *)
Definition mix (s : N) : N :=
  let z := (N.lxor s (N.shiftr s 30)) *w mix_mul_1 in
  let z := (N.lxor z (N.shiftr z 27)) *w mix_mul_2 in
  N.lxor z (N.shiftr z 31).

Definition next_u64 : M SplitMix64 N :=
  modify (λ r, MkSplitMix64 (rng_state r +w golden_gamma)) ;;
  gets (λ r, mix (rng_state r)).

(** [x % y]: the remainder by zero panics. *)
Definition rem (x y : N) : M SplitMix64 N :=
  assert_ (negb (bool_decide (y = 0))) ;; mret (x mod y).

Definition next_range (lo hi : N) : M SplitMix64 N :=
  assert_ (bool_decide (lo ≤ hi)) ;;
  let span := (hi - lo) +w 1 in
  if bool_decide (span = 0) then next_u64
  else (x ← next_u64 ; d ← rem x span ; mret (lo + d)).

(** The draw, before the comparison: the top 53 bits over [2 ^ 53]. *)
Definition unit_of (x : N) : Q := Z.of_N (N.shiftr x 11) # (2 ^ 53)%positive.

Definition Qltb (x y : Q) : bool := negb (Qle_bool y x).

Definition next_bool (p : Q) : M SplitMix64 bool :=
  x ← next_u64 ; mret (Qltb (unit_of x) p).

(** ** The output function is a permutation of the 64-bit words *)
Lemma shiftr_fixed d k : 0 < k → N.shiftr d k = d → d = 0.
Proof.
  intros Hk Hd. destruct (decide (d = 0)) as [|Hne]; [done|].
  assert (d / 2 ^ k < d); [|rewrite N.shiftr_div_pow2 in Hd; lia].
  apply N.div_lt; [lia|]. apply N.pow_gt_1; lia.
Qed.

Lemma xorshift_inj k x y :
  0 < k → N.lxor x (N.shiftr x k) = N.lxor y (N.shiftr y k) → x = y.
Proof.
  intros Hk Hxy. apply N.lxor_eq, (shiftr_fixed _ k Hk), N.lxor_eq.
  rewrite N.shiftr_lxor.
  apply N.bits_inj. intros i. apply (f_equal (λ z, N.testbit z i)) in Hxy.
  revert Hxy. rewrite !N.lxor_spec, N.bits_0.
  by repeat destruct (N.testbit _ _).
Qed.

Lemma lxor_u64 x y : u64 x → u64 y → u64 (N.lxor x y).
Proof.
  unfold u64, u64_modulus. intros Hx Hy.
  destruct (decide (N.lxor x y = 0)) as [->|Hne]; [done|].
  apply N.log2_lt_pow2; [lia|].
  eapply N.le_lt_trans; [apply N.log2_lxor|].
  assert (∀ z, z < 2 ^ 64 → N.log2 z < 64) as H.
  { intros z Hz. destruct (decide (z = 0)) as [->|]; [done|]. apply N.log2_lt_pow2; lia. }
  pose proof (H x Hx). pose proof (H y Hy). lia.
Qed.

Lemma shiftr_u64 x k : u64 x → u64 (N.shiftr x k).
Proof.
  unfold u64. intros Hx. rewrite N.shiftr_div_pow2.
  eapply N.le_lt_trans; [|exact Hx].
  apply N.Div0.div_le_upper_bound. assert (2 ^ k ≠ 0) by (apply N.pow_nonzero; done). nia.
Qed.

Lemma wrapping_mul_u64 x y : u64 (x *w y).
Proof. unfold u64, wrapping_mul. by apply N.mod_lt. Qed.
Lemma wrapping_add_u64 x y : u64 (x +w y).
Proof. unfold u64, wrapping_add. by apply N.mod_lt. Qed.
#[export] Hint Resolve lxor_u64 shiftr_u64 wrapping_mul_u64 wrapping_add_u64 : u64.

(** Multiplication by a word with an inverse is injective. *)
Lemma wrapping_mul_inj c c' x y :
  c *w c' = 1 → u64 x → u64 y → x *w c = y *w c → x = y.
Proof.
  unfold wrapping_mul, u64. intros Hc Hx Hy Hxy.
  apply (f_equal (λ z, (z * c') mod u64_modulus)) in Hxy.
  rewrite !N.Div0.mul_mod_idemp_l in Hxy.
  assert (∀ z, z < u64_modulus → (z * c * c') mod u64_modulus = z) as Hinv.
  { intros z Hz. rewrite <-N.mul_assoc, <-N.Div0.mul_mod_idemp_r, Hc, N.mul_1_r.
    by apply N.mod_small. }
  by rewrite !Hinv in Hxy.
Qed.

Lemma mix_inj x y : u64 x → u64 y → mix x = mix y → x = y.
Proof.
  unfold mix. intros Hx Hy H.
  apply xorshift_inj in H; [|done].
  apply (wrapping_mul_inj mix_mul_2 0x319642B2D24D8EC3) in H;
    [|by vm_compute|by auto with u64..].
  apply xorshift_inj in H; [|done].
  apply (wrapping_mul_inj mix_mul_1 0x96DE1B173F119089) in H;
    [|by vm_compute|by auto with u64..].
  by apply xorshift_inj in H.
Qed.

Lemma mix_u64 x : u64 (mix x).
Proof. unfold mix. auto 10 with u64. Qed.
#[export] Hint Resolve mix_u64 : u64.

(** ** Sequences of draws *)
Fixpoint draws (n : nat) : M SplitMix64 (list N) :=
  match n with
  | O => mret []
  | S n => x ← next_u64 ; l ← draws n ; mret (x :: l)
  end.

(** The state before draw number [i] (counting from 0) of a fresh generator. *)
Definition state_at (seed : N) (i : N) : N := (seed + i * golden_gamma) mod u64_modulus.

Lemma draws_S_inv n s l s' :
  draws (S n) s = Some (l, s') →
  ∃ l', l = mix (rng_state s +w golden_gamma) :: l' ∧
        draws n (MkSplitMix64 (rng_state s +w golden_gamma)) = Some (l', s').
Proof.
  simpl. unfold next_u64. unfold_M. simpl.
  destruct (draws n _) as [[l' s'']|] eqn:E; [|done]. intros. simplify_eq. eauto.
Qed.

Lemma draws_length n s l s' : draws n s = Some (l, s') → length l = n.
Proof.
  revert s l. induction n as [|n IH]; intros s l Hd.
  - unfold draws in Hd. unfold_M. by simplify_eq.
  - apply draws_S_inv in Hd as (l' & -> & Hd). simpl. f_equal. by eapply IH.
Qed.

Lemma draws_lookup n s l s' i :
  draws n s = Some (l, s') → (i < n)%nat →
  l !! i = Some (mix (state_at (rng_state s) (1 + N.of_nat i))).
Proof.
  revert s l i. induction n as [|n IH]; intros s l i Hd Hi; [lia|].
  apply draws_S_inv in Hd as (l' & -> & Hd). destruct i as [|i]; simpl.
  - unfold state_at, wrapping_add. do 3 f_equal.
  - erewrite IH; [|exact Hd|lia]. cbn [rng_state].
    unfold state_at, wrapping_add. do 2 f_equal.
    rewrite N.Div0.add_mod_idemp_l. f_equal. lia.
Qed.

Lemma state_at_eq seed i j :
  state_at seed i = state_at seed j ↔ i mod u64_modulus = j mod u64_modulus.
Proof.
  unfold state_at. rewrite mod_add_cancel_l by done. split; intros H.
  - apply (wrapping_mul_inj golden_gamma 0xF1DE83E19937733D);
      [by vm_compute|by apply N.mod_lt..|].
    unfold wrapping_mul. by rewrite !N.Div0.mul_mod_idemp_l.
  - by rewrite <-N.Div0.mul_mod_idemp_l, H, N.Div0.mul_mod_idemp_l.
Qed.

(** No draw repeats within a full period: the draws numbered [i] and [j] of
    one generator are equal exactly when [i] and [j] agree modulo [2 ^ 64]. *)
Theorem draws_period n seed l s' i j x y :
  draws n (rng_new seed) = Some (l, s') → l !! i = Some x → l !! j = Some y →
  x = y ↔ N.of_nat i mod u64_modulus = N.of_nat j mod u64_modulus.
Proof.
  intros Hd Hi Hj. pose proof (draws_length _ _ _ _ Hd).
  pose proof (lookup_lt_Some _ _ _ Hi). pose proof (lookup_lt_Some _ _ _ Hj).
  erewrite draws_lookup in Hi; [|done|lia]. erewrite draws_lookup in Hj; [|done|lia].
  injection Hi as <-. injection Hj as <-. rewrite <-(mod_add_cancel_l _ 1), <-(state_at_eq seed) by done.
  cbn [rng_state rng_new]. split; [|by intros ->]. apply mix_inj; by apply N.mod_lt.
Qed.

Example draws_period_witness :
  ∃ l s' x y, draws 3 (rng_new 42) = Some (l, s') ∧ l !! 0%nat = Some x ∧ l !! 2%nat = Some y ∧
    x ≠ y.
Proof.
  exists [0xBDD732262FEB6E95; 0x28EFE333B266F103; 0x47526757130F9F52],
    (MkSplitMix64 0xDAA66D2C7DDF7469), 0xBDD732262FEB6E95, 0x47526757130F9F52.
  assert (draws 3 (rng_new 42) = Some ([0xBDD732262FEB6E95; 0x28EFE333B266F103; 0x47526757130F9F52],
    MkSplitMix64 0xDAA66D2C7DDF7469)) as Hd by (vm_compute; reflexivity).
  split; [exact Hd|]. split; [reflexivity|]. split; [reflexivity|].
  intros H. apply (draws_period 3 42 _ _ 0 2 _ _ Hd eq_refl eq_refl) in H.
  vm_compute in H. discriminate H.
Defined.

(** ** Bounds of the range draw *)

(** The span of a range, at machine width: zero for all of [u64]. *)
Lemma span_cases lo hi :
  lo ≤ hi → u64 hi →
  (hi - lo) +w 1 = 0 ∧ hi - lo + 1 = u64_modulus ∨ (hi - lo) +w 1 = hi - lo + 1 ∧ hi - lo + 1 ≠ 0.
Proof.
  unfold u64, wrapping_add. intros Hle Hhi. destruct (decide (hi - lo + 1 = u64_modulus)) as [E|Hne].
  - left. by rewrite E, N.Div0.mod_same.
  - right. rewrite N.mod_small by lia. lia.
Qed.

Lemma next_range_wp lo hi r :
  lo ≤ hi → u64 hi →
  wp (next_range lo hi) (λ x r', rng_state r' = rng_state r +w golden_gamma ∧
    x = lo + mix (rng_state r') mod (hi - lo + 1) ∧ lo ≤ x ≤ hi) r.
Proof.
  intros Hle Hhi. unfold next_range. rewrite (bool_decide_eq_true_2 (lo ≤ hi)) by done. wp_steps.
  pose proof (mix_u64 (rng_state r +w golden_gamma)) as Hx. unfold u64 in Hx, Hhi.
  destruct (span_cases lo hi Hle Hhi) as [[-> Hfull]|[-> Hspan]].
  - rewrite bool_decide_eq_true_2 by done. unfold next_u64. wp_steps. split; [done|].
    rewrite Hfull, N.mod_small by done. lia.
  - rewrite bool_decide_eq_false_2 by done. unfold next_u64, rem. rewrite bool_decide_eq_false_2 by done. wp_steps.
    split; [done|]. split; [done|].
    pose proof (N.mod_lt (mix (rng_state r +w golden_gamma)) (hi - lo + 1) Hspan) as Hm. revert Hm.
    generalize (mix (rng_state r +w golden_gamma) mod (hi - lo + 1)). lia.
Qed.

(** [C31] A draw from a non-empty range returns: the generator advances by one
    step, and the result is the lower bound plus the new output reduced
    modulo the true length of the range, also when the range is all of [u64],
    whose length wraps to zero at machine width (where [%] would panic). It
    lies in the range. *)
Theorem next_range_spec lo hi r :
  lo ≤ hi → u64 hi →
  wp (next_range lo hi) (λ x r', rng_state r' = rng_state r +w golden_gamma ∧
    x = lo + mix (rng_state r') mod (hi - lo + 1) ∧ lo ≤ x ≤ hi) r.
Proof. apply next_range_wp. Qed.

(** A short range and the full one. *)
Example next_range_spec_witness :
  wp (next_range 10 20) (λ x r', rng_state r' = rng_state (rng_new 1) +w golden_gamma ∧
    x = 10 + mix (rng_state r') mod (20 - 10 + 1) ∧ 10 ≤ x ≤ 20) (rng_new 1) ∧
  wp (next_range 0 (2 ^ 64 - 1)) (λ x r', rng_state r' = rng_state (rng_new 1) +w golden_gamma ∧
    x = 0 + mix (rng_state r') mod (2 ^ 64 - 1 - 0 + 1) ∧ 0 ≤ x ≤ 2 ^ 64 - 1) (rng_new 1).
Proof.
  split; [apply (next_range_spec 10 20 (rng_new 1))|apply (next_range_spec 0 (2 ^ 64 - 1) (rng_new 1))];
    vm_compute; first [reflexivity|discriminate].
Defined.

(** The only panic is the documented one: an empty range. *)
Lemma next_range_panics lo hi r : u64 hi → next_range lo hi r = None ↔ hi < lo.
Proof.
  intros Hhi. destruct (decide (lo ≤ hi)) as [Hle|Hgt].
  - split; [|lia]. intros E. pose proof (next_range_wp lo hi r Hle Hhi) as Hw. unfold wpp in Hw. by rewrite E in Hw.
  - split; [lia|]. intros _. unfold next_range. unfold_M. by rewrite bool_decide_eq_false_2 by done.
Qed.

(** Probabilities outside the unit interval saturate. *)
Theorem next_bool_saturates p r b r' :
  next_bool p r = Some (b, r') →
  ((p <= 0)%Q → b = false) ∧ ((1 <= p)%Q → b = true).
Proof.
  unfold next_bool, next_u64. unfold_M. intros [= <- <-].
  set (x := mix _). assert (u64 x) as Hx by apply mix_u64.
  assert (0 <= unit_of x)%Q as H0 by (unfold Qle, unit_of; cbn -[N.shiftr]; lia).
  assert (unit_of x < 1)%Q as H1.
  { unfold unit_of, Qlt. cbn -[Z.mul]. rewrite N.shiftr_div_pow2.
    assert (x / 2 ^ 11 < 2 ^ 53) by (apply N.Div0.div_lt_upper_bound; exact Hx). lia. }
  unfold Qltb. split; intros Hp; destruct (Qle_bool p (unit_of x)) eqn:E; try done.
  - exfalso. assert (p <= unit_of x)%Q as ?%Qle_bool_iff; [|congruence].
    by eapply Qle_trans.
  - exfalso. apply Qle_bool_iff in E. eapply Qlt_not_le; [exact H1|]. by eapply Qle_trans.
Qed.

Example next_bool_saturates_witness :
  ∃ b r', next_bool 1 (rng_new 2) = Some (b, r') ∧ b = true.
Proof.
  eexists _, _. split; [by vm_compute|].
  by apply (next_bool_saturates 1 (rng_new 2) _ _ eq_refl).
Defined.

(** Vigna's reference vectors for the seeds 0 and 42. *)
Example reference_vectors :
  (fst <$> draws 3 (rng_new 0)) = Some [0xE220A8397B1DCDAF; 0x6E789E6AA1B965F4; 0x06C45D188009454F] ∧
  (fst <$> draws 3 (rng_new 42)) = Some [0xBDD732262FEB6E95; 0x28EFE333B266F103; 0x47526757130F9F52].
Proof. by vm_compute. Qed.
