(* ===== verification/Store.v ===== *)
(** * The key-value state machine ([src/store.rs])

    Sessions (the 64-entry dedup window per client), the map, [apply] and
    the snapshot pair. The two [RwLock]s of the source are never held
    together or across an [await] and every mutation comes from the one
    Raft task, so the store is a plain record. *)
From S2P Require Import Prelude Types.
Open Scope N_scope.

Definition SESSION_WINDOW : N := 64.

(** ** One client's dedup window *)
Record SessionState := MkSessionState { max_seq : N; recent : N }.
#[export] Instance SessionState_eq_dec : EqDecision SessionState.
Proof. solve_decision. Defined.

Module SessionWindow.
Definition new (seq : N) : SessionState := MkSessionState seq 1.

Definition contains (st : SessionState) (seq : N) : bool :=
  if bool_decide (max_seq st < seq) then false
  else
    let offset := max_seq st - seq in
    bool_decide (SESSION_WINDOW ≤ offset) ||
    negb (bool_decide (N.land (recent st) (N.shiftl 1 offset) = 0)).

(** [u64::checked_shl] on a [u64] shift that went through
    [u32::try_from(..).unwrap_or(u32::MAX)]. *)
Definition checked_shl (x n : N) : option N :=
  let n := if bool_decide (n < 2 ^ 32) then n else 2 ^ 32 - 1 in
  if bool_decide (n < 64) then Some (N.shiftl x n mod u64_modulus) else None.

Definition record (seq : N) (st : SessionState) : SessionState :=
  if bool_decide (max_seq st < seq) then
    let shift := seq - max_seq st in
    MkSessionState seq (N.lor (default 0 (checked_shl (recent st) shift)) 1)
  else if bool_decide (max_seq st - seq < SESSION_WINDOW) then
    MkSessionState (max_seq st) (N.lor (recent st) (N.shiftl 1 (max_seq st - seq)))
  else st.

(** The set of sequence numbers a window stands for: the bitmap is exact
    on the last 64 numbers, and says nothing below. *)
Record represents (st : SessionState) (A : gset N) : Prop := {
  rep_max : max_seq st ∈ A;
  rep_bound : ∀ a, a ∈ A → a ≤ max_seq st;
  rep_u64 : u64 (recent st);
  rep_bits : ∀ i, i < 64 →
    N.testbit (recent st) i = true ↔ i ≤ max_seq st ∧ max_seq st - i ∈ A;
}.

Lemma new_represents seq : represents (new seq) {[seq]}.
Proof.
  split; cbn [max_seq recent new].
  - set_solver.
  - set_solver.
  - done.
  - intros i Hi. destruct (decide (i = 0)) as [->|Hne].
    + rewrite N.sub_0_r. split; [|done]. split; [lia|set_solver].
    + assert (N.testbit 1 i = false) as ->.
      { apply N.bits_above_log2. simpl. lia. }
      split; [done|]. intros [? ?%elem_of_singleton]. lia.
Qed.

Lemma testbit_land_pow2 x n : N.land x (N.shiftl 1 n) = 0 ↔ N.testbit x n = false.
Proof.
  split; intros H.
  - apply (f_equal (λ z, N.testbit z n)) in H. revert H.
    rewrite N.land_spec, N.bits_0, N.shiftl_spec_high', N.sub_diag by lia.
    by rewrite andb_true_r.
  - apply N.bits_inj. intros i. rewrite N.land_spec, N.bits_0.
    destruct (decide (i = n)) as [->|Hne]; [by rewrite H|].
    destruct (decide (i < n)).
    + by rewrite (N.shiftl_spec_low 1), andb_false_r.
    + rewrite N.shiftl_spec_high' by lia.
      rewrite (N.bits_above_log2 1), andb_false_r; [done|]. simpl. lia.
Qed.

(** [contains] decides membership, up to the window's assumption that
    everything 64 or more below the maximum was applied. *)
Lemma contains_spec st A seq :
  represents st A →
  contains st seq = true ↔ seq ∈ A ∨ seq + SESSION_WINDOW ≤ max_seq st.
Proof.
  intros HA. unfold contains, SESSION_WINDOW in *. case_bool_decide as Hlt.
  - split; [done|]. intros [Hin|?]; [|lia]. apply (rep_bound _ _ HA) in Hin. lia.
  - rewrite orb_true_iff, bool_decide_eq_true, negb_true_iff, bool_decide_eq_false.
    rewrite testbit_land_pow2, not_false_iff_true.
    destruct (decide (max_seq st - seq < 64)).
    + rewrite (rep_bits _ _ HA) by done.
      replace (max_seq st - (max_seq st - seq)) with seq by lia.
      split; [intros [?|[??]]; [lia|by left]|intros [?|?]; [right; split; [lia|done]|lia]].
    + split; [intros; right; lia|intros; left; lia].
Qed.

(** The shifted bitmap, bit by bit. *)
Lemma checked_shl_testbit x d i :
  i < 64 → N.testbit (default 0 (checked_shl x d)) i =
           bool_decide (d ≤ i) && N.testbit x (i - d).
Proof.
  intros Hi. unfold checked_shl, u64_modulus.
  destruct (decide (d < 64)) as [Hd|Hd].
  - rewrite (bool_decide_eq_true_2 (d < 2 ^ 32)) by lia.
    rewrite bool_decide_eq_true_2 by done. cbn [default id].
    rewrite N.mod_pow2_bits_low by done. case_bool_decide as Hdi.
    + by rewrite N.shiftl_spec_high'.
    + by rewrite N.shiftl_spec_low by lia.
  - rewrite (bool_decide_eq_false_2 (d ≤ i)) by lia.
    rewrite bool_decide_eq_false_2; [done|]. case_bool_decide; lia.
Qed.

Lemma checked_shl_u64 x d : u64 (default 0 (checked_shl x d)).
Proof.
  unfold checked_shl, u64. set (b := bool_decide (_ < 64)).
  destruct b; cbn [default id]; [by apply N.mod_lt|done].
Qed.

Lemma lor_u64 x y : u64 x → u64 y → u64 (N.lor x y).
Proof.
  unfold u64, u64_modulus. intros Hx Hy.
  assert (∀ z, z < 2 ^ 64 ↔ N.shiftr z 64 = 0) as E.
  { intros z. rewrite N.shiftr_div_pow2. split; intros H; [by apply N.div_small|].
    apply N.div_small_iff in H; done. }
  rewrite E, N.shiftr_lor in *. by rewrite Hx, Hy.
Qed.

(** [record] adds the sequence number to the set the window stands for;
    below the window it changes nothing and the window still stands for
    the larger set. *)
Lemma record_represents st A seq :
  represents st A → represents (record seq st) ({[seq]} ∪ A).
Proof.
  intros HA. pose proof (rep_bound _ _ HA) as Hbound.
  unfold record, SESSION_WINDOW. case_bool_decide as Hlt; [|case_bool_decide as Hwin].
  - split; cbn [max_seq recent].
    + set_solver.
    + intros a [->%elem_of_singleton|Ha%Hbound]%elem_of_union; lia.
    + apply lor_u64; [apply checked_shl_u64|done].
    + intros i Hi. rewrite N.lor_spec, checked_shl_testbit by done.
      destruct (decide (i = 0)) as [->|Hne].
      * rewrite orb_true_r, N.sub_0_r. split; [|done]. split; [lia|set_solver].
      * rewrite (N.bits_above_log2 1) by (simpl; lia).
        rewrite orb_false_r, andb_true_iff, bool_decide_eq_true.
        rewrite elem_of_union, elem_of_singleton. split.
        -- intros [Hs Hbit]. apply (rep_bits _ _ HA) in Hbit as [Hle Hin]; [|lia].
           split; [lia|right]. by replace (seq - i) with (max_seq st - (i - (seq - max_seq st))) by lia.
        -- intros [Hle [?|Hin]]; [lia|]. pose proof (Hbound _ Hin).
           split; [lia|]. apply (rep_bits _ _ HA); [lia|]. split; [lia|].
           by replace (max_seq st - (i - (seq - max_seq st))) with (seq - i) by lia.
  - split; cbn [max_seq recent].
    + pose proof (rep_max _ _ HA). set_solver.
    + intros a [->%elem_of_singleton|Ha%Hbound]%elem_of_union; lia.
    + apply lor_u64; [apply (rep_u64 _ _ HA)|].
      unfold u64, u64_modulus. rewrite N.shiftl_1_l. apply N.pow_lt_mono_r; lia.
    + intros i Hi. rewrite N.lor_spec, orb_true_iff, (rep_bits _ _ HA) by done.
      rewrite elem_of_union, elem_of_singleton, N.shiftl_1_l, N.pow2_bits_eqb, N.eqb_eq.
      split; [intros [[??]|?]; [by eauto|split; [lia|left; lia]]|].
      intros [? [?|?]]; [right; lia|by left].
  - split.
    + pose proof (rep_max _ _ HA). set_solver.
    + intros a [->%elem_of_singleton|Ha%Hbound]%elem_of_union; lia.
    + apply (rep_u64 _ _ HA).
    + intros i Hi. rewrite (rep_bits _ _ HA) by done.
      rewrite elem_of_union, elem_of_singleton.
      split; [intros [??]; by eauto|intros [? [?|?]]; [lia|by eauto]].
Qed.
End SessionWindow.

(** ** The store *)
Section store.
Context `{J : SerdeJson}.

Record KvStore := MkKvStore {
  kv_map : gmap string Value;
  kv_sessions : gmap N SessionState;
}.

(** The snapshot payload: the map and the dedup sessions. *)
Record KvSnapshot := MkKvSnapshot {
  ks_map : gmap string Value;
  ks_sessions : gmap N SessionState;
}.

Definition store_new : KvStore := MkKvStore ∅ ∅.

Definition store_get (s : KvStore) (key : string) : option Value := kv_map s !! key.

Definition store_put (key : string) (value : Value) (s : KvStore) : KvStore :=
  MkKvStore (<[key := value]> (kv_map s)) (kv_sessions s).

(** [true] if the key existed. *)
Definition store_delete (key : string) (s : KvStore) : bool * KvStore :=
  (bool_decide (is_Some (kv_map s !! key)),
   MkKvStore (delete key (kv_map s)) (kv_sessions s)).

Definition store_snapshot_map (s : KvStore) : gmap string Value := kv_map s.
Definition store_export (s : KvStore) : KvSnapshot :=
  MkKvSnapshot (kv_map s) (kv_sessions s).
Definition store_import (snapshot : KvSnapshot) (s : KvStore) : KvStore :=
  MkKvStore (ks_map snapshot) (ks_sessions snapshot).

Definition already_applied (session : option Session) (s : KvStore) : bool :=
  match session with
  | None => false
  | Some (MkSession client seq) =>
      match kv_sessions s !! client with
      | Some st => SessionWindow.contains st seq
      | None => false
      end
  end.

Definition record_applied (session : option Session) (s : KvStore) : KvStore :=
  match session with
  | None => s
  | Some (MkSession client seq) =>
      MkKvStore (kv_map s)
        (<[client := match kv_sessions s !! client with
                     | Some st => SessionWindow.record seq st
                     | None => SessionWindow.new seq
                     end]> (kv_sessions s))
  end.

Definition store_apply (entry : LogEntry) (s : KvStore) : KvStore :=
  match e_command entry with
  | Put key value session =>
      if already_applied session s then s
      else record_applied session (store_put key value s)
  | Delete key session =>
      if already_applied session s then s
      else record_applied session (snd (store_delete key s))
  | Noop => s
  | ConfigChange _ => s
  end.
End store.

(** ** The state machine the Raft core drives

    [serde_json::to_value] / [from_value] at [KvSnapshot] are third-party:
    the class [KvCodec] holds them, [KvCodecLaws] the documented round trip
    of a derived [Serialize]/[Deserialize] pair. *)
Class KvCodec `{J : SerdeJson} := {
  to_value : KvSnapshot → Value;
  from_value : Value → option KvSnapshot;
}.

Class KvCodecLaws `{KvCodec} : Prop :=
  from_to_value snap : from_value (to_value snap) = Some snap.

Section state_machine.
Context `{KvCodec}.

Definition store_snapshot (s : KvStore) : Value := to_value (store_export s).

(** [None]: the panic on a malformed payload. *)
Definition store_restore (state : Value) (s : KvStore) : option KvStore :=
  snap ← from_value state; Some (store_import snap s).

#[export] Instance KvStore_StateMachine : StateMachine KvStore := {|
  sm_apply := store_apply;
  sm_snapshot := store_snapshot;
  sm_restore := store_restore;
|}.

#[export] Instance KvStore_StateMachineLaws `{!KvCodecLaws} :
  StateMachineLaws (SM := KvStore).
Proof.
  split.
  - intros [m ss] s'. cbn. unfold store_restore, store_snapshot. by rewrite from_to_value.
  - intros v s s'. cbn. unfold store_restore. by destruct (from_value v).
Qed.
End state_machine.

(** ** What the sessions table remembers of a log *)
Section dedup.
Context `{J : SerdeJson}.
Implicit Types (log : list LogEntry) (e : LogEntry) (s : KvStore).

(** The state the log's commands build on a fresh store. *)
Definition replay log : KvStore := foldl (λ s e, store_apply e s) store_new log.

Definition token e : option Session :=
  match e_command e with
  | Put _ _ session | Delete _ session => session
  | Noop | ConfigChange _ => None
  end.

(** The sequence numbers a client used so far. *)
Fixpoint client_seqs (c : N) log : gset N :=
  match log with
  | [] => ∅
  | e :: log =>
      match token e with
      | Some (MkSession c' seq) =>
          if decide (c' = c) then {[seq]} ∪ client_seqs c log else client_seqs c log
      | None => client_seqs c log
      end
  end.

Lemma client_seqs_app c log1 log2 :
  client_seqs c (log1 ++ log2) = client_seqs c log1 ∪ client_seqs c log2.
Proof.
  induction log1 as [|e log1 IH]; simpl; [set_solver|].
  repeat case_match; rewrite IH; set_solver.
Qed.

Lemma client_seqs_elem_of c seq log :
  seq ∈ client_seqs c log ↔ ∃ e, e ∈ log ∧ token e = Some (MkSession c seq).
Proof.
  induction log as [|e log IH]; simpl; [set_solver|].
  setoid_rewrite elem_of_cons.
  destruct (token e) as [[c' seq']|] eqn:E; [destruct (decide (c' = c)) as [->|]|].
  - rewrite elem_of_union, elem_of_singleton, IH. naive_solver.
  - rewrite IH. naive_solver.
  - rewrite IH. naive_solver.
Qed.

Definition tracks s log : Prop := ∀ c,
  match kv_sessions s !! c with
  | Some st => SessionWindow.represents st (client_seqs c log)
  | None => client_seqs c log = ∅
  end.

Lemma skip_represents st A seq :
  SessionWindow.represents st A → SessionWindow.contains st seq = true →
  SessionWindow.represents st ({[seq]} ∪ A).
Proof.
  intros HA Hc. pose proof (SessionWindow.record_represents _ _ seq HA) as Hrec.
  apply (SessionWindow.contains_spec _ _ _ HA) in Hc as [Hin|Hlow].
  - by replace ({[seq]} ∪ A) with A by set_solver.
  - unfold SessionWindow.record, SESSION_WINDOW in *.
    by rewrite !bool_decide_eq_false_2 in Hrec by lia.
Qed.

Lemma store_apply_sessions e s :
  kv_sessions (store_apply e s) =
  if already_applied (token e) s then kv_sessions s
  else kv_sessions (record_applied (token e) s).
Proof.
  unfold store_apply, token.
  destruct (e_command e) as [k v o|k o| |ms]; simpl; try done;
    case_match eqn:E; try done; destruct o as [[c seq]|]; done.
Qed.

Lemma store_apply_tracks e s log : tracks s log → tracks (store_apply e s) (log ++ [e]).
Proof.
  intros Hs c. rewrite store_apply_sessions, client_seqs_app. cbn [client_seqs].
  specialize (Hs c). destruct (token e) as [[c' seq]|] eqn:Et;
    [|by rewrite (right_id_L ∅ (∪))].
  destruct (decide (c' = c)) as [->|Hne].
  - rewrite (right_id_L ∅ (∪)), (comm_L (∪)).
    destruct (already_applied _ s) eqn:Hdup; simpl in Hdup.
    + destruct (kv_sessions s !! c) as [st|]; [|done]. by apply skip_represents.
    + simpl. rewrite lookup_insert_eq. destruct (kv_sessions s !! c) as [st|].
      * by apply SessionWindow.record_represents.
      * rewrite Hs, (right_id_L ∅ (∪)). apply SessionWindow.new_represents.
  - rewrite (right_id_L ∅ (∪)). destruct (already_applied _ s); [done|].
    simpl. by rewrite lookup_insert_ne.
Qed.

Lemma replay_snoc log e : replay (log ++ [e]) = store_apply e (replay log).
Proof. unfold replay. by rewrite foldl_app. Qed.

(** The sessions table of a replayed log stands for exactly the tokens in
    the log. *)
Lemma replay_tracks log : tracks (replay log) log.
Proof.
  induction log as [|e log IH] using rev_ind; [done|].
  rewrite replay_snoc. by apply store_apply_tracks.
Qed.

(** The dedup test on a replayed store. *)
Lemma already_applied_spec c seq log :
  already_applied (Some (MkSession c seq)) (replay log) = true ↔
  seq ∈ client_seqs c log ∨
  ∃ seq', seq' ∈ client_seqs c log ∧ seq + SESSION_WINDOW ≤ seq'.
Proof.
  pose proof (replay_tracks log c) as Ht. simpl.
  destruct (kv_sessions (replay log) !! c) as [st|].
  - rewrite (SessionWindow.contains_spec _ _ _ Ht). split.
    + intros [?|?]; [by left|right]. exists (max_seq st).
      split; [apply (SessionWindow.rep_max _ _ Ht)|done].
    + intros [?|(seq' & Hin & ?)]; [by left|right].
      apply (SessionWindow.rep_bound _ _ Ht) in Hin. lia.
  - rewrite Ht. set_solver.
Qed.

Lemma store_apply_duplicate e s :
  already_applied (token e) s = true → store_apply e s = s.
Proof. unfold store_apply, token. intros Hd. repeat case_match; by try rewrite Hd. Qed.
End dedup.

(** ** Exactly-once application *)
Section exactly_once.
Context `{J : SerdeJson}.
Implicit Types (log : list LogEntry) (e : LogEntry) (s : KvStore).

(** A retry is invisible: once a command with a token is in the log, a
    later command with the same token changes neither the map nor the
    sessions, whatever was applied in between and whatever it asks for. *)
Theorem retry_is_noop log1 e log2 e' t :
  token e = Some t → token e' = Some t →
  store_apply e' (replay (log1 ++ e :: log2)) = replay (log1 ++ e :: log2).
Proof.
  intros He He'. apply store_apply_duplicate. rewrite He'. destruct t as [c seq].
  apply already_applied_spec. left. apply client_seqs_elem_of.
  exists e. split; [set_solver|done].
Qed.

(** The reference semantics: last write wins, no tokens. *)
Definition plain_apply e (m : gmap string Value) : gmap string Value :=
  match e_command e with
  | Put key value _ => <[key := value]> m
  | Delete key _ => delete key m
  | Noop | ConfigChange _ => m
  end.

(** Is the entry's token among those of [seen]? *)
Definition token_seen e (seen : list LogEntry) : bool :=
  match token e with
  | Some (MkSession c seq) => bool_decide (seq ∈ client_seqs c seen)
  | None => false
  end.

(** The log with every retry removed. *)
Fixpoint dedup_log (seen : list LogEntry) log : list LogEntry :=
  match log with
  | [] => []
  | e :: log =>
      if token_seen e seen then dedup_log (seen ++ [e]) log
      else e :: dedup_log (seen ++ [e]) log
  end.

(** The documented client contract: when a token first enters the log,
    no token of the same client that entered before is 64 or more ahead. *)
Fixpoint window_contract (seen : list LogEntry) log : bool :=
  match log with
  | [] => true
  | e :: log =>
      match token e with
      | Some (MkSession c seq) =>
          token_seen e seen ||
          bool_decide (set_Forall (λ seq', seq' < seq + SESSION_WINDOW) (client_seqs c seen))
      | None => true
      end && window_contract (seen ++ [e]) log
  end.

Lemma record_applied_map o s : kv_map (record_applied o s) = kv_map s.
Proof. by destruct o as [[c q]|]. Qed.

Lemma store_apply_fresh e s :
  already_applied (token e) s = false →
  kv_map (store_apply e s) = plain_apply e (kv_map s).
Proof.
  unfold store_apply, token, plain_apply. intros Hd.
  repeat case_match; try done; rewrite ?Hd, ?record_applied_map; by try congruence.
Qed.

(** Under the contract the test is exact: an entry is skipped when, and
    only when, its token was seen. *)
Lemma already_applied_contract e seen log :
  window_contract seen (e :: log) = true →
  already_applied (token e) (replay seen) = token_seen e seen.
Proof.
  simpl. rewrite andb_true_iff. unfold token_seen. intros [Hw _].
  destruct (token e) as [[c seq]|]; [|done].
  rewrite orb_true_iff, !bool_decide_eq_true in Hw. apply eq_bool_prop_intro.
  rewrite !Is_true_true, already_applied_spec, bool_decide_eq_true.
  split; [|by left]. intros [?|(seq' & Hin & ?)]; [done|].
  destruct Hw as [?|Hw]; [done|]. specialize (Hw _ Hin). simpl in Hw. lia.
Qed.

Lemma replay_dedup_from seen log :
  window_contract seen log = true →
  kv_map (foldl (λ s e, store_apply e s) (replay seen) log) =
  foldl (λ m e, plain_apply e m) (kv_map (replay seen)) (dedup_log seen log).
Proof.
  revert seen. induction log as [|e log IH]; intros seen Hw; [done|].
  pose proof (already_applied_contract _ _ _ Hw) as Hd.
  simpl in Hw. apply andb_true_iff in Hw as [_ Hw]. apply IH in Hw.
  cbn [foldl dedup_log]. rewrite <-replay_snoc, Hw, replay_snoc.
  destruct (token_seen e seen).
  - by rewrite store_apply_duplicate.
  - cbn [foldl]. by rewrite store_apply_fresh.
Qed.

(** [C20] At-least-once delivery with tokens is exactly-once application: under
    the client contract, the map built from the log (retries included) is
    the map the plain last-write-wins semantics builds from the log with
    every retry removed. *)
Theorem store_refines_dedup log :
  window_contract [] log = true →
  kv_map (replay log) = foldl (λ m e, plain_apply e m) ∅ (dedup_log [] log).
Proof. intros Hw. apply (replay_dedup_from []), Hw. Qed.

(** ConfigChange and Noop entries are invisible to the store, and
    commands without a token never touch the sessions table. *)
Theorem untokened_sessions_unchanged e s :
  token e = None → kv_sessions (store_apply e s) = kv_sessions s.
Proof. intros Ht. by rewrite store_apply_sessions, Ht. Qed.
End exactly_once.

(** ** Concrete logs *)
Section examples.
Let P (i : N) (k : string) (v c q : N) : @LogEntry numeric_json :=
  MkLogEntry (J := numeric_json) 1 i (Put (J := numeric_json) k v (Some (MkSession c q))).

(** A pipelined pair out of order, a conflicting write, two retries. *)
Definition sample_log : list (@LogEntry numeric_json) :=
  [P 1 "b" 3 7 3; P 2 "a" 1 7 1; P 3 "a" 5 8 1; P 4 "a" 1 7 1; P 5 "b" 9 7 3; P 6 "c" 2 7 2].

Example retry_is_noop_witness :
  store_apply (P 9 "a" 99 7 1) (replay sample_log) = replay sample_log.
Proof.
  by apply (retry_is_noop (J := numeric_json) [P 1 "b" 3 7 3] (P 2 "a" 1 7 1)
    [P 3 "a" 5 8 1; P 4 "a" 1 7 1; P 5 "b" 9 7 3; P 6 "c" 2 7 2] (P 9 "a" 99 7 1)
    (MkSession 7 1) eq_refl eq_refl).
Defined.

Example store_refines_dedup_witness :
  window_contract [] sample_log = true ∧
  kv_map (replay sample_log) = foldl (λ m e, plain_apply e m) ∅ (dedup_log [] sample_log).
Proof.
  split; [by vm_compute|]. apply (store_refines_dedup (J := numeric_json) sample_log).
  by vm_compute.
Defined.

(** The documented failure mode: a client with more than 64 operations
    outstanding has a write that was never applied skipped as a retry. *)
Example beyond_window_skips :
  let log := [P 1 "hi" 1 7 66; P 2 "lo" 1 7 1] in
  window_contract [] log = false ∧ store_get (replay log) "lo" = None ∧
  dedup_log [] log = log.
Proof. by vm_compute. Qed.
End examples.
