(* ===== verification/Storage.v ===== *)
(** * The storage's in-memory mirror ([src/raft/storage.rs])

    Hard state, snapshot and retained log, with the index arithmetic around
    the snapshot boundary and the error each mutation answers. What the
    mutations write to disk, and what a crash leaves there, is in [Disk]. *)
From S2P Require Import Prelude Types.
Open Scope N_scope.

Inductive StorageError :=
| Io
| Corrupt
| NonContiguous (expected got : LogIndex).

Section storage.
Context `{J : SerdeJson}.

Record Storage := MkStorage {
  st_hard_state : HardState;
  st_snapshot : option Snapshot;
  st_log : list LogEntry;
}.

Definition snapshot_index (s : Storage) : LogIndex :=
  from_option last_included_index 0 (st_snapshot s).
Definition snapshot_term (s : Storage) : Term :=
  from_option last_included_term 0 (st_snapshot s).

(** Position of a global index in the retained log; [None] for the
    boundary and everything below it. *)
Definition pos (s : Storage) (index : LogIndex) : option nat :=
  N.to_nat <$> checked_sub index (snapshot_index s + 1).

Definition entry (s : Storage) (index : LogIndex) : option LogEntry :=
  p ← pos s index; st_log s !! p.

Definition term (s : Storage) (index : LogIndex) : option Term :=
  if bool_decide (index = snapshot_index s) then Some (snapshot_term s)
  else e_term <$> entry s index.

Definition last_index (s : Storage) : LogIndex :=
  snapshot_index s + N.of_nat (length (st_log s)).
Definition last_term (s : Storage) : Term :=
  from_option e_term (snapshot_term s) (last (st_log s)).

Definition entries_from (s : Storage) (from : LogIndex) : list LogEntry :=
  drop (default 0%nat (pos s from)) (st_log s).

Definition save_hard_state (hs : HardState) (s : Storage) : Storage :=
  MkStorage hs (st_snapshot s) (st_log s).

(** The contiguity check of [append]: the first mismatch, if any. *)
Fixpoint check_contiguous (expected : LogIndex) (entries : list LogEntry)
    : option (LogIndex * LogIndex) :=
  match entries with
  | [] => None
  | e :: entries =>
      if bool_decide (e_index e = expected) then check_contiguous (expected + 1) entries
      else Some (expected, e_index e)
  end.

Definition append (entries : list LogEntry) (s : Storage) : Result Storage StorageError :=
  match entries with
  | [] => Ok s
  | _ =>
      match check_contiguous (last_index s + 1) entries with
      | Some (expected, got) => Err (NonContiguous expected got)
      | None => Ok (MkStorage (st_hard_state s) (st_snapshot s) (st_log s ++ entries))
      end
  end.

Definition rewrite_log (entries : list LogEntry) (s : Storage) : Storage :=
  MkStorage (st_hard_state s) (st_snapshot s) entries.
Definition write_snapshot (snapshot : Snapshot) (s : Storage) : Storage :=
  MkStorage (st_hard_state s) (Some snapshot) (st_log s).

Definition truncate_from (from : LogIndex) (s : Storage) : Result Storage StorageError :=
  match pos s from with
  | None => Err Corrupt
  | Some keep =>
      if bool_decide (last_index s < from) then Ok s
      else Ok (rewrite_log (take keep (st_log s)) s)
  end.

Definition compact_to (index : LogIndex) (state : Value) (membership : option Membership)
    (s : Storage) : Result Storage StorageError :=
  match e_term <$> entry s index with
  | None => Err Corrupt
  | Some t =>
      let snapshot := MkSnapshot index t membership state in
      let retained := entries_from s (index + 1) in
      Ok (rewrite_log retained (write_snapshot snapshot s))
  end.

Definition install_snapshot (snapshot : Snapshot) (s : Storage) : Result Storage StorageError :=
  if bool_decide (last_included_index snapshot ≤ snapshot_index s) then Err Corrupt
  else
    let retained :=
      if bool_decide (term s (last_included_index snapshot) = Some (last_included_term snapshot))
      then entries_from s (last_included_index snapshot + 1)
      else [] in
    Ok (rewrite_log retained (write_snapshot snapshot s)).

(** The mutations, as data. *)
Inductive Op :=
| SaveHardState (hs : HardState)
| Append (es : list LogEntry)
| TruncateFrom (from : LogIndex)
| CompactTo (k : LogIndex) (state : Value) (ms : option Membership)
| Install (snap : Snapshot).

Definition mem_op (op : Op) (s : Storage) : Result Storage StorageError :=
  match op with
  | SaveHardState hs => Ok (save_hard_state hs s)
  | Append es => append es s
  | TruncateFrom from => truncate_from from s
  | CompactTo k state ms => compact_to k state ms s
  | Install snap => install_snapshot snap s
  end.

(** ** Well-formedness: the retained log continues the boundary *)
Fixpoint contiguous (first : LogIndex) (l : list LogEntry) : Prop :=
  match l with
  | [] => True
  | e :: l => e_index e = first ∧ contiguous (first + 1) l
  end.

Definition storage_wf (s : Storage) : Prop := contiguous (snapshot_index s + 1) (st_log s).

#[export] Instance contiguous_dec first l : Decision (contiguous first l).
Proof. revert first. induction l; intros first; simpl; apply _. Defined.

Lemma contiguous_app first l1 l2 :
  contiguous first (l1 ++ l2) ↔
  contiguous first l1 ∧ contiguous (first + N.of_nat (length l1)) l2.
Proof.
  revert first. induction l1 as [|e l1 IH]; intros first; simpl.
  - rewrite N.add_0_r. naive_solver.
  - rewrite IH. replace (first + N.of_nat (S (length l1)))
      with (first + 1 + N.of_nat (length l1)) by lia. tauto.
Qed.

Lemma contiguous_lookup first l i e :
  contiguous first l → l !! i = Some e → e_index e = first + N.of_nat i.
Proof.
  revert first i. induction l as [|e' l IH]; intros first i Hc Hi; [done|].
  destruct Hc as [He Hc]. destruct i as [|i]; simplify_eq/=; [lia|].
  rewrite (IH _ _ Hc Hi). lia.
Qed.

Lemma contiguous_take first l n : contiguous first l → contiguous first (take n l).
Proof.
  intros Hc. rewrite <-(take_drop n l), contiguous_app in Hc. by destruct Hc.
Qed.

Lemma contiguous_drop first l n :
  contiguous first l → (n ≤ length l)%nat → contiguous (first + N.of_nat n) (drop n l).
Proof.
  intros Hc Hn. rewrite <-(take_drop n l), contiguous_app, length_take in Hc.
  destruct Hc as [_ Hc]. by rewrite Nat.min_l in Hc.
Qed.

Lemma check_contiguous_None expected l :
  check_contiguous expected l = None ↔ contiguous expected l.
Proof.
  revert expected. induction l as [|e l IH]; intros expected; simpl; [done|].
  case_bool_decide; rewrite ?IH; naive_solver.
Qed.

(** ** Index arithmetic *)
Lemma pos_Some s i p : pos s i = Some p ↔ i = snapshot_index s + 1 + N.of_nat p.
Proof.
  unfold pos, checked_sub. rewrite fmap_Some.
  case_decide; split; [naive_solver lia| |naive_solver|lia].
  intros ->. eexists. split; [done|lia].
Qed.
Lemma pos_None s i : pos s i = None ↔ i ≤ snapshot_index s.
Proof. unfold pos, checked_sub. rewrite fmap_None. case_decide; [split; [done|lia]|split; [lia|done]]. Qed.

Lemma entry_at s p : entry s (snapshot_index s + 1 + N.of_nat p) = st_log s !! p.
Proof.
  unfold entry. destruct (pos s _) as [q|] eqn:E.
  - apply pos_Some in E. simpl. f_equal. lia.
  - apply pos_None in E. lia.
Qed.

Lemma entry_Some s i e :
  entry s i = Some e ↔ ∃ p, i = snapshot_index s + 1 + N.of_nat p ∧ st_log s !! p = Some e.
Proof.
  split.
  - unfold entry. destruct (pos s i) as [p|] eqn:E; [|done].
    apply pos_Some in E as ->. simpl. eauto.
  - intros (p & -> & Hp). by rewrite entry_at.
Qed.

Lemma entry_is_Some s i :
  is_Some (entry s i) ↔ snapshot_index s < i ≤ last_index s.
Proof.
  unfold is_Some. setoid_rewrite entry_Some. unfold last_index. split.
  - intros (e & p & -> & Hp%lookup_lt_Some). lia.
  - intros Hi. destruct (lookup_lt_is_Some_2 (st_log s) (N.to_nat (i - snapshot_index s - 1)))
      as [e He]; [lia|]. exists e, (N.to_nat (i - snapshot_index s - 1)). split; [lia|done].
Qed.

Lemma entry_None s i : entry s i = None ↔ i ≤ snapshot_index s ∨ last_index s < i.
Proof. rewrite eq_None_not_Some, entry_is_Some. lia. Qed.

Lemma entry_index s i e : storage_wf s → entry s i = Some e → e_index e = i.
Proof.
  intros Hwf (p & -> & Hp)%entry_Some. by rewrite (contiguous_lookup _ _ _ _ Hwf Hp).
Qed.

Lemma term_above s i : snapshot_index s < i → term s i = e_term <$> entry s i.
Proof. intros. unfold term. rewrite bool_decide_eq_false_2; [done|lia]. Qed.

Lemma term_is_Some s i : is_Some (term s i) ↔ snapshot_index s ≤ i ≤ last_index s.
Proof.
  unfold term. case_bool_decide as Hb.
  - subst. split; [unfold last_index; lia|by eauto].
  - rewrite fmap_is_Some, entry_is_Some. lia.
Qed.
Lemma term_None s i : term s i = None ↔ i < snapshot_index s ∨ last_index s < i.
Proof. rewrite eq_None_not_Some, term_is_Some. lia. Qed.
End storage.

(** ** What each mutation does, index by index *)
Section storage_spec.
Context `{J : SerdeJson}.
Implicit Types (s : Storage) (es : list LogEntry).

Lemma append_Ok s es s' :
  append es s = Ok s' ↔
  contiguous (last_index s + 1) es ∧
  s' = MkStorage (st_hard_state s) (st_snapshot s) (st_log s ++ es).
Proof.
  unfold append. destruct es as [|e es].
  - rewrite app_nil_r. destruct s; naive_solver.
  - rewrite <-check_contiguous_None.
    destruct (check_contiguous _ _) as [[??]|]; naive_solver.
Qed.

Lemma last_index_append s es s' :
  append es s = Ok s' → last_index s' = last_index s + N.of_nat (length es).
Proof.
  intros [_ ->]%append_Ok. unfold last_index, snapshot_index. simpl.
  rewrite length_app. lia.
Qed.

Lemma entry_append s es s' i :
  append es s = Ok s' →
  entry s' i = if bool_decide (i ≤ last_index s) then entry s i
               else es !! N.to_nat (i - last_index s - 1).
Proof.
  intros [_ ->]%append_Ok. case_bool_decide as Hi.
  - destruct (decide (i ≤ snapshot_index s)) as [Hlow|Hlow].
    { transitivity (@None LogEntry); [|symmetry]; apply entry_None; by left. }
    replace i with (snapshot_index s + 1 + N.of_nat (N.to_nat (i - snapshot_index s - 1))) by lia.
    rewrite entry_at. unfold last_index in Hi.
    change (snapshot_index s) with (snapshot_index (MkStorage (st_hard_state s) (st_snapshot s) (st_log s ++ es))) at 1.
    rewrite entry_at. simpl. apply lookup_app_l. lia.
  - unfold last_index in *.
    replace i with (snapshot_index s + 1 + N.of_nat (N.to_nat (i - snapshot_index s - 1))) at 1 by lia.
    change (snapshot_index s) with (snapshot_index (MkStorage (st_hard_state s) (st_snapshot s) (st_log s ++ es))) at 1.
    rewrite entry_at. simpl. rewrite lookup_app_r by lia. f_equal. lia.
Qed.

Lemma term_append s es s' i :
  append es s = Ok s' → i ≤ last_index s → term s' i = term s i.
Proof.
  intros Ha Hi. pose proof (entry_append _ _ _ i Ha) as He.
  apply append_Ok in Ha as [_ ->]. unfold term. rewrite He, (bool_decide_eq_true_2 (i ≤ _)) by done.
  done.
Qed.

Lemma append_wf s es s' : storage_wf s → append es s = Ok s' → storage_wf s'.
Proof.
  intros Hwf [Hc ->]%append_Ok. unfold storage_wf. simpl. apply contiguous_app.
  split; [done|]. unfold last_index, snapshot_index in *. simpl.
  by rewrite <-N.add_assoc, (N.add_comm 1), N.add_assoc.
Qed.

(** [truncate_from] keeps exactly the indexes below its argument. *)
Lemma truncate_from_Ok s from s' :
  truncate_from from s = Ok s' ↔
  snapshot_index s < from ∧
  s' = MkStorage (st_hard_state s) (st_snapshot s)
         (take (N.to_nat (from - snapshot_index s - 1)) (st_log s)).
Proof.
  unfold truncate_from. destruct (pos s from) as [p|] eqn:Hp.
  - apply pos_Some in Hp as ->. unfold last_index.
    replace (N.to_nat _) with p by lia. case_bool_decide as Hl.
    + rewrite take_ge by lia. split; [intros [= <-]|by intros [_ ->]; destruct s].
      split; [lia|by destruct s].
    + split; [by intros [= <-]; split; [lia|]|by intros [_ ->]].
  - apply pos_None in Hp. split; [done|]. intros [? _]. lia.
Qed.

Lemma last_index_truncate s from s' :
  truncate_from from s = Ok s' → last_index s' = N.min (last_index s) (from - 1).
Proof.
  intros [? ->]%truncate_from_Ok. unfold last_index, snapshot_index in *. simpl in *.
  rewrite length_take. lia.
Qed.

Lemma entry_truncate s from s' i :
  truncate_from from s = Ok s' →
  entry s' i = if bool_decide (i < from) then entry s i else None.
Proof.
  intros Ht. pose proof (last_index_truncate _ _ _ Ht) as Hl.
  apply truncate_from_Ok in Ht as [? Hs']. case_bool_decide as Hi.
  - destruct (decide (i ≤ snapshot_index s)) as [Hlow|Hlow].
    { transitivity (@None LogEntry); [|symmetry]; apply entry_None; left; by subst s'. }
    replace i with (snapshot_index s + 1 + N.of_nat (N.to_nat (i - snapshot_index s - 1))) by lia.
    rewrite entry_at. replace (snapshot_index s) with (snapshot_index s') at 1 by by subst s'.
    rewrite entry_at. subst s'. simpl. apply lookup_take_lt. lia.
  - apply entry_None. right. lia.
Qed.

Lemma term_truncate s from s' i :
  truncate_from from s = Ok s' → i < from → term s' i = term s i.
Proof.
  intros Ht Hi. pose proof (entry_truncate _ _ _ i Ht) as He.
  apply truncate_from_Ok in Ht as [_ ->]. unfold term. rewrite He.
  by rewrite (bool_decide_eq_true_2 (i < from)).
Qed.

Lemma truncate_from_wf s from s' :
  storage_wf s → truncate_from from s = Ok s' → storage_wf s'.
Proof. intros Hwf [_ ->]%truncate_from_Ok. by apply contiguous_take. Qed.

(** [compact_to] at a retained index moves the boundary there and loses
    nothing above it. *)
Lemma compact_to_Ok s k state ms s' :
  compact_to k state ms s = Ok s' ↔
  ∃ e, entry s k = Some e ∧
       s' = MkStorage (st_hard_state s) (Some (MkSnapshot k (e_term e) ms state))
              (drop (N.to_nat (k - snapshot_index s)) (st_log s)).
Proof.
  unfold compact_to. destruct (entry s k) as [e|] eqn:He; simpl; [|naive_solver].
  assert (entries_from s (k + 1) = drop (N.to_nat (k - snapshot_index s)) (st_log s)) as ->.
  { apply entry_Some in He as (p & -> & _). unfold entries_from.
    destruct (pos s _) as [q|] eqn:Hq; [apply pos_Some in Hq|apply pos_None in Hq; lia].
    simpl. f_equal. unfold id. lia. }
  unfold rewrite_log, write_snapshot. simpl. naive_solver.
Qed.

Lemma compact_to_snapshot_index s k state ms s' :
  compact_to k state ms s = Ok s' → snapshot_index s' = k.
Proof. by intros (e & _ & ->)%compact_to_Ok. Qed.

Lemma compact_to_range s k state ms s' :
  compact_to k state ms s = Ok s' → snapshot_index s < k ≤ last_index s.
Proof. intros (e & He & _)%compact_to_Ok. apply entry_is_Some. eauto. Qed.

Lemma last_index_compact s k state ms s' :
  compact_to k state ms s = Ok s' → last_index s' = last_index s.
Proof.
  intros Hc. pose proof (compact_to_range _ _ _ _ _ Hc) as Hr.
  apply compact_to_Ok in Hc as (e & He & ->). unfold last_index in *.
  unfold snapshot_index at 1. simpl. rewrite length_drop. lia.
Qed.

Lemma entry_compact s k state ms s' i :
  compact_to k state ms s = Ok s' → k < i → entry s' i = entry s i.
Proof.
  intros Hc Hi. pose proof (compact_to_range _ _ _ _ _ Hc) as Hr.
  pose proof (compact_to_snapshot_index _ _ _ _ _ Hc) as Hk.
  apply compact_to_Ok in Hc as (e & He & Hs').
  replace i with (snapshot_index s' + 1 + N.of_nat (N.to_nat (i - k - 1))) at 1 by lia.
  replace i with (snapshot_index s + 1 + N.of_nat (N.to_nat (i - snapshot_index s - 1))) by lia.
  rewrite !entry_at, Hs'. simpl. rewrite lookup_drop. f_equal. lia.
Qed.

Lemma term_compact s k state ms s' i :
  compact_to k state ms s = Ok s' → k ≤ i → term s' i = term s i.
Proof.
  intros Hc Hi. pose proof (compact_to_range _ _ _ _ _ Hc) as Hr.
  pose proof (compact_to_snapshot_index _ _ _ _ _ Hc) as Hk.
  rewrite (term_above s) by lia. destruct (decide (i = k)) as [->|Hne].
  - apply compact_to_Ok in Hc as (e & He & ->). unfold term, snapshot_index. simpl.
    rewrite bool_decide_eq_true_2 by done. by rewrite He.
  - rewrite term_above by lia. by rewrite (entry_compact _ _ _ _ _ _ Hc) by lia.
Qed.

Lemma compact_to_wf s k state ms s' :
  storage_wf s → compact_to k state ms s = Ok s' → storage_wf s'.
Proof.
  intros Hwf Hc. pose proof (compact_to_range _ _ _ _ _ Hc) as Hr. unfold last_index in Hr.
  apply compact_to_Ok in Hc as (e & He & ->). unfold storage_wf. simpl.
  unfold snapshot_index at 1. simpl.
  replace (k + 1) with (snapshot_index s + 1 + N.of_nat (N.to_nat (k - snapshot_index s))) by lia.
  apply contiguous_drop; [done|lia].
Qed.

(** The log's last term, as the election restriction reads it. *)
Lemma last_term_term s : Some (last_term s) = term s (last_index s).
Proof.
  unfold last_term, last_index. destruct (st_log s) as [|e0 l0] eqn:El using rev_ind.
  - simpl. rewrite N.add_0_r. unfold term. by rewrite bool_decide_eq_true_2.
  - rewrite last_snoc, length_app. simpl. rewrite term_above by lia.
    replace (snapshot_index s + N.of_nat (length l0 + 1))
      with (snapshot_index s + 1 + N.of_nat (length l0)) by lia.
    rewrite entry_at, El, lookup_app_r, Nat.sub_diag by lia. done.
Qed.
End storage_spec.

Section install.
Context `{J : SerdeJson}.
Implicit Types (s : Storage) (snap : Snapshot).

(** Does the log hold the snapshot's boundary entry? *)
Definition boundary_matches snap s : bool :=
  bool_decide (term s (last_included_index snap) = Some (last_included_term snap)).

Lemma install_snapshot_Ok s snap s' :
  install_snapshot snap s = Ok s' ↔
  snapshot_index s < last_included_index snap ∧
  s' = MkStorage (st_hard_state s) (Some snap)
         (if boundary_matches snap s
          then drop (N.to_nat (last_included_index snap - snapshot_index s)) (st_log s)
          else []).
Proof.
  unfold install_snapshot, boundary_matches. case_bool_decide as Hle.
  { split; [done|]. intros [? _]. lia. }
  assert (entries_from s (last_included_index snap + 1) =
          drop (N.to_nat (last_included_index snap - snapshot_index s)) (st_log s)) as ->.
  { unfold entries_from.
    destruct (pos s _) as [q|] eqn:Hq; [apply pos_Some in Hq|apply pos_None in Hq; lia].
    simpl. f_equal. unfold id. lia. }
  unfold rewrite_log, write_snapshot. simpl. naive_solver lia.
Qed.

Lemma install_snapshot_index s snap s' :
  install_snapshot snap s = Ok s' → snapshot_index s' = last_included_index snap.
Proof. by intros [_ ->]%install_snapshot_Ok. Qed.

Lemma boundary_matches_range s snap :
  boundary_matches snap s = true → last_included_index snap ≤ last_index s.
Proof.
  unfold boundary_matches. rewrite bool_decide_eq_true. intros Ht.
  apply (term_is_Some s). eauto.
Qed.

Lemma install_snapshot_wf s snap s' :
  storage_wf s → install_snapshot snap s = Ok s' → storage_wf s'.
Proof.
  intros Hwf [Hlt ->]%install_snapshot_Ok. unfold storage_wf. simpl.
  destruct (boundary_matches snap s) eqn:Hm; [|done].
  apply boundary_matches_range in Hm. unfold last_index in Hm. unfold snapshot_index at 1. simpl.
  replace (last_included_index snap + 1) with
    (snapshot_index s + 1 + N.of_nat (N.to_nat (last_included_index snap - snapshot_index s))) by lia.
  apply contiguous_drop; [done|lia].
Qed.

Lemma last_index_install s snap s' :
  install_snapshot snap s = Ok s' →
  last_index s' = if boundary_matches snap s then last_index s else last_included_index snap.
Proof.
  intros [Hlt ->]%install_snapshot_Ok. unfold last_index, snapshot_index at 1. simpl.
  destruct (boundary_matches snap s) eqn:Hm; [|simpl; lia].
  apply boundary_matches_range in Hm. unfold last_index in Hm. rewrite length_drop. lia.
Qed.

Lemma entry_install s snap s' i :
  install_snapshot snap s = Ok s' → last_included_index snap < i →
  entry s' i = if boundary_matches snap s then entry s i else None.
Proof.
  intros Hi Hlt. pose proof (install_snapshot_index _ _ _ Hi) as Hb.
  pose proof (last_index_install _ _ _ Hi) as Hl.
  apply install_snapshot_Ok in Hi as [Hlow Hs'].
  destruct (boundary_matches snap s) eqn:Hm; [|apply entry_None; right; lia].
  set (k := last_included_index snap) in *.
  replace i with (snapshot_index s' + 1 + N.of_nat (N.to_nat (i - k - 1))) at 1 by lia.
  replace i with (snapshot_index s + 1 + N.of_nat (N.to_nat (i - snapshot_index s - 1))) by lia.
  rewrite !entry_at, Hs'. simpl. rewrite lookup_drop. f_equal. lia.
Qed.

Lemma term_install s snap s' :
  install_snapshot snap s = Ok s' →
  term s' (last_included_index snap) = Some (last_included_term snap).
Proof.
  intros [_ ->]%install_snapshot_Ok. unfold term, snapshot_index, snapshot_term. simpl.
  by rewrite bool_decide_eq_true_2.
Qed.
End install.

(** ** The storage's contract

    One theorem per mutation. The hypotheses are the caller's obligations;
    the errors are characterised exactly. *)
Section contract.
Context `{J : SerdeJson}.
Implicit Types (s : Storage).

Definition is_NonContiguous (r : Result Storage StorageError) : Prop :=
  match r with Err (NonContiguous _ _) => True | _ => False end.

(** An append is accepted exactly when it continues the log; then every
    old index keeps its entry and every new one holds the appended entry.
    Otherwise the answer is [NonContiguous] and there is no new state. *)
Theorem append_contract s es :
  storage_wf s →
  (contiguous (last_index s + 1) es →
     ∃ s', append es s = Ok s' ∧ storage_wf s' ∧
       snapshot_index s' = snapshot_index s ∧
       last_index s' = last_index s + N.of_nat (length es) ∧
       ∀ i, entry s' i = if bool_decide (i ≤ last_index s) then entry s i
                         else es !! N.to_nat (i - last_index s - 1)) ∧
  (¬ contiguous (last_index s + 1) es → is_NonContiguous (append es s)).
Proof.
  intros Hwf. split; intros Hc.
  - eexists. assert (append es s = Ok _) as Ha by by apply append_Ok.
    split; [exact Ha|]. repeat split; [by eapply append_wf|by apply last_index_append|].
    intros i. by apply entry_append.
  - unfold append. destruct es as [|e es]; [by destruct Hc|].
    rewrite <-check_contiguous_None in Hc.
    by destruct (check_contiguous _ _) as [[??]|].
Qed.

(** Truncation is accepted exactly above the snapshot boundary, and keeps
    exactly the indexes below its argument. *)
Theorem truncate_from_contract s from :
  storage_wf s →
  (snapshot_index s < from →
     ∃ s', truncate_from from s = Ok s' ∧ storage_wf s' ∧
       last_index s' = N.min (last_index s) (from - 1) ∧
       (∀ i, entry s' i = if bool_decide (i < from) then entry s i else None) ∧
       (∀ i, i < from → term s' i = term s i)) ∧
  (from ≤ snapshot_index s → truncate_from from s = Err Corrupt).
Proof.
  intros Hwf. split; intros Hf.
  - eexists. assert (truncate_from from s = Ok _) as Ht by by apply truncate_from_Ok.
    split; [exact Ht|]. split; [by eapply truncate_from_wf|].
    split; [by apply last_index_truncate|].
    split; intros; [by apply entry_truncate|by eapply term_truncate].
  - unfold truncate_from. by rewrite (proj2 (pos_None s from)).
Qed.

(** [C26] Compaction is accepted exactly at a retained index; it moves the
    boundary there, and every question about the boundary or above has
    the answer it had: terms (the consistency check), entries
    (replication), the last index and last term (the election
    restriction). *)
Theorem compact_to_contract s k state ms :
  storage_wf s →
  (snapshot_index s < k ≤ last_index s →
     ∃ s', compact_to k state ms s = Ok s' ∧ storage_wf s' ∧
       snapshot_index s' = k ∧ last_index s' = last_index s ∧ last_term s' = last_term s ∧
       (∀ i, k ≤ i → term s' i = term s i) ∧ (∀ i, k < i → entry s' i = entry s i)) ∧
  (¬ (snapshot_index s < k ≤ last_index s) → compact_to k state ms s = Err Corrupt).
Proof.
  intros Hwf. rewrite <-entry_is_Some. split; intros Hk.
  - destruct Hk as [e He]. eexists.
    assert (compact_to k state ms s = Ok _) as Hc by (apply compact_to_Ok; eauto).
    pose proof (last_index_compact _ _ _ _ _ Hc) as Hl.
    pose proof (compact_to_range _ _ _ _ _ Hc).
    split; [exact Hc|]. split; [by eapply compact_to_wf|].
    split; [by eapply compact_to_snapshot_index|]. split; [done|].
    split; [|split; intros; [by eapply term_compact|by eapply entry_compact]].
    apply (inj Some). rewrite !last_term_term, Hl. eapply term_compact; [done|lia].
  - unfold compact_to. by destruct (entry s k); [destruct Hk|].
Qed.

(** An installed snapshot becomes the boundary. The suffix beyond it
    survives exactly when the log held the boundary entry with the
    snapshot's term; otherwise the log is cleared. *)
Theorem install_snapshot_contract s snap :
  storage_wf s →
  (snapshot_index s < last_included_index snap →
     ∃ s', install_snapshot snap s = Ok s' ∧ storage_wf s' ∧
       snapshot_index s' = last_included_index snap ∧
       term s' (last_included_index snap) = Some (last_included_term snap) ∧
       last_index s' =
         (if boundary_matches snap s then last_index s else last_included_index snap) ∧
       (∀ i, last_included_index snap < i →
          entry s' i = if boundary_matches snap s then entry s i else None)) ∧
  (last_included_index snap ≤ snapshot_index s → install_snapshot snap s = Err Corrupt).
Proof.
  intros Hwf. split; intros Hf.
  - eexists. assert (install_snapshot snap s = Ok _) as Hi by by apply install_snapshot_Ok.
    split; [exact Hi|]. split; [by eapply install_snapshot_wf|]. split; [done|].
    split; [by eapply term_install|]. split; [by apply last_index_install|].
    intros. by eapply entry_install.
  - unfold install_snapshot. by rewrite bool_decide_eq_true_2.
Qed.
End contract.

(** ** A concrete storage: snapshot at 2, entries 3 to 5 *)
Section storage_examples.
#[local] Existing Instance numeric_json.
Let E (t i : N) : LogEntry := MkLogEntry t i Noop.
Definition sample_storage : Storage :=
  MkStorage (MkHardState 4 None) (Some (MkSnapshot 2 1 None (jv 0))) [E 2 3; E 2 4; E 3 5].

Lemma sample_wf : storage_wf sample_storage.
Proof. repeat split. Qed.

Example append_contract_witness :
  ∃ s', append [E 4 6] sample_storage = Ok s' ∧ last_index s' = 6.
Proof.
  destruct (append_contract sample_storage [E 4 6] sample_wf) as [H _].
  destruct H as (s' & ? & _ & _ & Hl & _); [done|]. exists s'. by rewrite Hl.
Defined.

Example truncate_from_contract_witness :
  ∃ s', truncate_from 4 sample_storage = Ok s' ∧ last_index s' = 3.
Proof.
  destruct (truncate_from_contract sample_storage 4 sample_wf) as [H _].
  destruct H as (s' & ? & _ & Hl & _); [done|]. exists s'. by rewrite Hl.
Defined.

Example compact_to_contract_witness :
  ∃ s', compact_to 4 (jv 9) None sample_storage = Ok s' ∧ last_term s' = 3.
Proof.
  destruct (compact_to_contract sample_storage 4 (jv 9) None sample_wf) as [H _].
  destruct H as (s' & ? & _ & _ & _ & Hl & _); [done|]. exists s'. by rewrite Hl.
Defined.

Example install_snapshot_contract_witness :
  ∃ s', install_snapshot (MkSnapshot 4 2 None (jv 9)) sample_storage = Ok s' ∧ last_index s' = 5.
Proof.
  destruct (install_snapshot_contract sample_storage (MkSnapshot 4 2 None (jv 9)) sample_wf)
    as [H _].
  destruct H as (s' & ? & _ & _ & _ & Hl & _); [done|]. exists s'. by rewrite Hl.
Defined.
End storage_examples.
