(* ===== verification/Disk.v ===== *)
(** * The data directory ([src/raft/storage.rs], the on-disk half)

    The files, the order in which each mutation writes them, what a crash
    can leave behind, and [Storage::open] (with [replay_log]'s repair of a
    torn tail) on whatever is there.

    A mutation is a list of file-system steps. A crash stops it before any
    step; a [write_all] that was interrupted leaves any prefix of its bytes.
    A rename is atomic. An I/O error is a crash: every caller in the Raft
    core panics on it. Every step that completed is on the disk: file and
    directory syncs are steps without effect, so the model does not show a
    missing one.

    The byte encodings are [serde_json]'s: the class [DiskCodec] holds the
    encoders and decoders, [DiskCodecLaws] what the storage relies on. *)
From Stdlib Require Import Strings.Byte.
From S2P Require Import Prelude Types Storage.
Open Scope N_scope.

Abbreviation bytes := (list byte).
Definition newline : byte := x0a.
#[export] Instance byte_eq_dec' : EqDecision byte := byte_eq_dec.

Class DiskCodec `{J : SerdeJson} := {
  entry_to_vec : LogEntry → bytes;
  entry_from_slice : bytes → option LogEntry;
  snapshot_to_vec : Snapshot → bytes;
  snapshot_from_slice : bytes → option Snapshot;
  hs_to_vec : HardState → bytes;
  hs_from_slice : bytes → option HardState;
}.

(** Compact JSON has no raw newline (control characters in strings are
    escaped) and parsing tolerates trailing whitespace. *)
Class DiskCodecLaws `{DiskCodec} : Prop := {
  entry_no_newline e : newline ∉ entry_to_vec e;
  entry_roundtrip e : entry_from_slice (entry_to_vec e ++ [newline]) = Some e;
  snapshot_roundtrip sn : snapshot_from_slice (snapshot_to_vec sn) = Some sn;
  hs_roundtrip hs : hs_from_slice (hs_to_vec hs) = Some hs;
}.

(** ** Files and steps *)
Definition HARD_STATE_FILE : string := "hard_state.json".
Definition LOG_FILE : string := "log.jsonl".
Definition SNAPSHOT_FILE : string := "snapshot.json".
Definition tmp_of (name : string) : string := name +:+ ".tmp".

Abbreviation Dir := (gmap string bytes).

Inductive Prim :=
| PCreate (f : string)
| PWrite (f : string) (bs : bytes)
| PSync (f : string)
| PRename (a b : string)
| PSyncDir.

Definition exec (p : Prim) (d : Dir) : Dir :=
  match p with
  | PCreate f => <[f := []]> d
  | PWrite f bs => <[f := default [] (d !! f) ++ bs]> d
  | PSync _ | PSyncDir => d
  | PRename a b => match d !! a with Some c => <[b := c]> (delete a d) | None => d end
  end.

Definition exec_all (ps : list Prim) (d : Dir) : Dir := foldl (λ d p, exec p d) d ps.

(** The directories a crash during [ps] can leave. *)
Inductive crash : list Prim → Dir → Dir → Prop :=
| crash_now ps d : crash ps d d
| crash_torn f bs bs' ps d : bs' `prefix_of` bs → crash (PWrite f bs :: ps) d (exec (PWrite f bs') d)
| crash_step p ps d d' : crash ps (exec p d) d' → crash (p :: ps) d d'.

Definition write_atomic (name : string) (bs : bytes) : list Prim :=
  [PCreate (tmp_of name); PWrite (tmp_of name) bs; PSync (tmp_of name);
   PRename (tmp_of name) name; PSyncDir].

Section disk.
Context `{DiskCodec}.

Definition line (e : LogEntry) : bytes := entry_to_vec e ++ [newline].
Definition lines (es : list LogEntry) : bytes := concat (line <$> es).

(** ** What each mutation writes *)
Definition rewrite_log_prims (es : list LogEntry) : list Prim :=
  write_atomic LOG_FILE (lines es).
Definition write_snapshot_prims (snap : Snapshot) : list Prim :=
  write_atomic SNAPSHOT_FILE (snapshot_to_vec snap).

(** The steps of an accepted operation; [s'] is the mirror it leaves. *)
Definition op_prims (op : Op) (s s' : Storage) : list Prim :=
  match op with
  | SaveHardState hs => write_atomic HARD_STATE_FILE (hs_to_vec hs)
  | Append es =>
      match es with
      | [] => []
      | _ => [PWrite LOG_FILE (lines es); PSync LOG_FILE]
      end
  | TruncateFrom from =>
      if bool_decide (last_index s < from) then [] else rewrite_log_prims (st_log s')
  | CompactTo _ _ _ | Install _ =>
      match st_snapshot s' with
      | Some snap => write_snapshot_prims snap ++ rewrite_log_prims (st_log s')
      | None => []
      end
  end.

(** ** Opening a directory *)
Definition load_hard_state (d : Dir) : Result HardState StorageError :=
  match d !! HARD_STATE_FILE with
  | Some bs => match hs_from_slice bs with Some hs => Ok hs | None => Err Corrupt end
  | None => Ok HardState_default
  end.

Definition load_snapshot (d : Dir) : Result (option Snapshot) StorageError :=
  match d !! SNAPSHOT_FILE with
  | Some bs => match snapshot_from_slice bs with Some sn => Ok (Some sn) | None => Err Corrupt end
  | None => Ok None
  end.

(** [slice::split_inclusive(|b| b == '\n')] *)
Fixpoint split_inclusive (bs : bytes) : list bytes :=
  match bs with
  | [] => []
  | b :: bs =>
      if decide (b = newline) then [b] :: split_inclusive bs
      else match split_inclusive bs with
           | [] => [[b]]
           | c :: cs => (b :: c) :: cs
           end
  end.

Definition ends_with_newline (chunk : bytes) : bool :=
  bool_decide (last chunk = Some newline).

(** The outcome of the scan: the retained entries and, when the last line
    was torn, the length the file is cut to. [ReplayPanic] is the
    [unreachable!] arm. *)
Inductive Replay :=
| Replayed (log : list LogEntry) (set_len : option nat)
| ReplayErr (e : StorageError)
| ReplayPanic.

Fixpoint replay_chunks (total : nat) (si : LogIndex) (chunks : list bytes)
    (log : list LogEntry) (previous : option LogIndex) (good_end offset : nat) : Replay :=
  match chunks with
  | [] => Replayed log None
  | chunk :: chunks =>
      let complete := ends_with_newline chunk in
      let offset := (offset + length chunk)%nat in
      match entry_from_slice chunk, complete with
      | Some e, true =>
          if (match previous with
              | Some p => bool_decide (e_index e ≠ p + 1)
              | None => false
              end)
          then ReplayErr Corrupt
          else replay_chunks total si chunks
                 (if bool_decide (si < e_index e) then log ++ [e] else log)
                 (Some (e_index e)) offset offset
      | parsed, _ =>
          if bool_decide (offset = total) then Replayed log (Some good_end)
          else match parsed with Some _ => ReplayPanic | None => ReplayErr Corrupt end
      end
  end.

(** The retained log must continue exactly at the boundary. *)
Definition check_first (si : LogIndex) (log : list LogEntry) : bool :=
  match log with
  | e :: _ => bool_decide (e_index e = si + 1)
  | [] => true
  end.

Definition replay_log (d : Dir) (si : LogIndex) : Replay :=
  match d !! LOG_FILE with
  | None => Replayed [] None
  | Some bs =>
      match replay_chunks (length bs) si (split_inclusive bs) [] None 0 0 with
      | Replayed log n => if check_first si log then Replayed log n else ReplayErr Corrupt
      | r => r
      end
  end.

(** The log file after [open]: cut back to the last good line if the tail
    was torn, created empty if it was missing. *)
Definition repaired_log (d : Dir) (n : option nat) : Dir :=
  match d !! LOG_FILE, n with
  | Some bs, Some n => <[LOG_FILE := take n bs]> d
  | Some _, None => d
  | None, _ => <[LOG_FILE := []]> d
  end.

(** [None]: panic. *)
Definition open (d : Dir) : option (Result (Storage * Dir) StorageError) :=
  match load_hard_state d with
  | Err e => Some (Err e)
  | Ok hs =>
      match load_snapshot d with
      | Err e => Some (Err e)
      | Ok sn =>
          match replay_log d (from_option last_included_index 0 sn) with
          | Replayed log n => Some (Ok (MkStorage hs sn log, repaired_log d n))
          | ReplayErr e => Some (Err e)
          | ReplayPanic => None
          end
      end
  end.
End disk.

(** ** Scanning *)
Section scan.
Context `{DiskCodecLaws}.
Implicit Types (es : list LogEntry) (e : LogEntry).

Lemma split_inclusive_line l rest :
  newline ∉ l → split_inclusive (l ++ newline :: rest) = (l ++ [newline]) :: split_inclusive rest.
Proof.
  induction l as [|b l IH]; intros Hl; simpl.
  - done.
  - rewrite decide_False by set_solver. by rewrite IH by set_solver.
Qed.

Lemma split_inclusive_torn t :
  newline ∉ t → split_inclusive t = if decide (t = []) then [] else [t].
Proof.
  induction t as [|b t IH]; intros Ht; [done|].
  cbn [split_inclusive]. rewrite (decide_False (P := b = newline)) by set_solver.
  rewrite IH by set_solver. by destruct t.
Qed.

Lemma split_inclusive_lines es t :
  newline ∉ t →
  split_inclusive (lines es ++ t) = (line <$> es) ++ split_inclusive t.
Proof.
  intros Ht. induction es as [|e es IH]; [done|].
  change (lines (e :: es)) with ((entry_to_vec e ++ [newline]) ++ lines es).
  rewrite <-!(assoc_L (++)). cbn [app].
  rewrite split_inclusive_line by apply entry_no_newline. by rewrite IH.
Qed.

Lemma line_roundtrip e : entry_from_slice (line e) = Some e.
Proof. apply entry_roundtrip. Qed.

Lemma ends_with_newline_line e : ends_with_newline (line e) = true.
Proof. unfold ends_with_newline, line. rewrite last_snoc. by apply bool_decide_eq_true_2. Qed.

Lemma ends_with_newline_torn t : newline ∉ t → ends_with_newline t = false.
Proof.
  intros Ht. apply bool_decide_eq_false_2. intros Hl.
  apply last_Some in Hl as [t' ->]. set_solver.
Qed.

(** Complete lines in index order: the scan consumes them all. *)
Lemma replay_chunks_lines total si es rest log prev ge off first :
  contiguous first es →
  match prev with Some p => first = p + 1 | None => True end →
  replay_chunks total si ((line <$> es) ++ rest) log prev ge off =
  replay_chunks total si rest
    (log ++ filter (λ e, si < e_index e) es)
    (match es with [] => prev | _ => Some (first + N.of_nat (length es) - 1) end)
    (match es with [] => ge | _ => off + length (lines es) end)%nat
    (off + length (lines es))%nat.
Proof.
  revert log prev ge off first. induction es as [|e es IH];
    intros log prev ge off first Hc Hprev.
  { simpl. by rewrite app_nil_r, Nat.add_0_r. }
  destruct Hc as [He Hc]. simpl fmap. cbn [app replay_chunks].
  rewrite line_roundtrip, ends_with_newline_line.
  assert (match prev with Some p => bool_decide (e_index e ≠ p + 1) | None => false end = false)
    as ->.
  { destruct prev; [|done]. apply bool_decide_eq_false_2. intros ?. congruence. }
  erewrite (IH _ _ _ _ (first + 1)); [|done|simpl; lia].
  rewrite filter_cons. assert (length (lines (e :: es)) = length (line e) + length (lines es))%nat as Hlen.
  { unfold lines. simpl. by rewrite length_app. }
  f_equal.
  - case_bool_decide; case_decide; try done. by rewrite <-(assoc_L (++)).
  - destruct es; simpl; f_equal; lia.
  - rewrite Hlen. destruct es; simpl; lia.
  - rewrite Hlen. lia.
Qed.

(** The bytes of whole lines followed by a torn one: the whole lines are
    kept, the torn one is cut off. *)
Lemma replay_log_torn d si es t first :
  d !! LOG_FILE = Some (lines es ++ t) → newline ∉ t → contiguous first es →
  check_first si (filter (λ e, si < e_index e) es) = true →
  replay_log d si =
    Replayed (filter (λ e, si < e_index e) es)
             (if decide (t = []) then None else Some (length (lines es))).
Proof.
  intros Hd Ht Hc Hf. unfold replay_log. rewrite Hd, split_inclusive_lines by done.
  rewrite (replay_chunks_lines _ _ _ _ _ _ _ _ first) by done.
  rewrite split_inclusive_torn by done. destruct (decide (t = [])) as [->|Hne].
  { simpl. by rewrite Hf. }
  cbn [replay_chunks app]. rewrite (ends_with_newline_torn t) by done.
  rewrite bool_decide_eq_true_2 by (rewrite length_app; simpl; lia).
  destruct (entry_from_slice t); rewrite Hf; by destruct es.
Qed.

(** A gap between two lines is refused. *)
Lemma replay_log_gap d si es1 e es2 first :
  d !! LOG_FILE = Some (lines (es1 ++ e :: es2)) → es1 ≠ [] →
  contiguous first es1 → e_index e ≠ first + N.of_nat (length es1) →
  replay_log d si = ReplayErr Corrupt.
Proof.
  intros Hd Hne Hc He. unfold replay_log. rewrite Hd.
  rewrite <-(app_nil_r (lines (es1 ++ e :: es2))), split_inclusive_lines by set_solver.
  rewrite fmap_app, <-(assoc_L (++)).
  rewrite (replay_chunks_lines _ _ _ _ _ _ _ _ first) by done.
  destruct es1 as [|e1 es1]; [done|].
  simpl fmap. cbn [app replay_chunks].
  rewrite line_roundtrip, ends_with_newline_line.
  rewrite bool_decide_eq_true_2; [done|]. simpl in *. lia.
Qed.

Lemma lines_app es1 es2 : lines (es1 ++ es2) = lines es1 ++ lines es2.
Proof. unfold lines. by rewrite fmap_app, concat_app. Qed.

(** An interrupted append leaves whole lines and a torn one. *)
Lemma prefix_lines bs es :
  bs `prefix_of` lines es →
  ∃ k t, bs = lines (take k es) ++ t ∧ newline ∉ t.
Proof.
  revert bs. induction es as [|e es IH]; intros bs Hp.
  { exists 0%nat, []. apply prefix_nil_inv in Hp as ->. split; [done|set_solver]. }
  unfold lines in Hp. simpl in Hp. fold (lines es) in Hp.
  destruct Hp as [k Hk].
  destruct (decide (length (line e) ≤ length bs)%nat) as [Hlen|Hlen].
  - assert (∃ bs', bs = line e ++ bs') as [bs' ->].
    { exists (drop (length (line e)) bs).
      rewrite <-(take_drop (length (line e)) bs) at 1. f_equal.
      apply (f_equal (take (length (line e)))) in Hk.
      by rewrite take_app_length, take_app_le in Hk. }
    rewrite <-(assoc_L (++)) in Hk. apply (inj ((++) (line e))) in Hk.
    destruct (IH bs') as (k' & t & -> & Ht); [by eexists|].
    exists (S k'), t. split; [|done].
    change (lines (take (S k') (e :: es))) with (line e ++ lines (take k' es)).
    by rewrite <-(assoc_L (++)).
  - exists 0%nat, bs. split; [done|]. intros Hin.
    assert (bs `prefix_of` entry_to_vec e) as [r Hr].
    { exists (take (length (entry_to_vec e) - length bs) k).
      unfold line in Hk, Hlen. rewrite length_app in Hlen. simpl in Hlen.
      apply (f_equal (take (length (entry_to_vec e)))) in Hk.
      rewrite <-(assoc_L (++)), take_app_length, take_app_ge in Hk by lia. done. }
    apply (entry_no_newline e). rewrite Hr. set_solver.
Qed.
End scan.

(** ** Crashes during an atomic replacement *)
Section atomic.
Implicit Types (d : Dir).

Lemma exec_all_app ps1 ps2 d : exec_all (ps1 ++ ps2) d = exec_all ps2 (exec_all ps1 d).
Proof. apply foldl_app. Qed.

Lemma crash_app ps1 ps2 d d' :
  crash (ps1 ++ ps2) d d' → crash ps1 d d' ∨ crash ps2 (exec_all ps1 d) d'.
Proof.
  revert d. induction ps1 as [|p ps1 IH]; intros d Hc; [by right|].
  simpl in Hc. inversion Hc as [|f bs bs' ps d1 Hp|p' ps d1 d2 Hc']; subst.
  - left. constructor.
  - left. by constructor.
  - apply IH in Hc' as [?|?]; [left; by constructor|by right].
Qed.

Lemma crash_all ps d : crash ps d (exec_all ps d).
Proof. revert d. induction ps; intros d; [constructor|]. simpl. by constructor. Qed.

Definition same_except (fs : list string) d d' : Prop := ∀ f, f ∉ fs → d' !! f = d !! f.

Lemma exec_write_atomic_eq name bs d :
  exec_all (write_atomic name bs) d = <[name := bs]> (delete (tmp_of name) d).
Proof.
  cbn. rewrite !lookup_insert_eq. cbn. rewrite insert_insert_eq. by rewrite delete_insert_eq.
Qed.

Lemma exec_write_atomic name bs d :
  exec_all (write_atomic name bs) d !! name = Some bs.
Proof. by rewrite exec_write_atomic_eq, lookup_insert_eq. Qed.

Lemma exec_write_atomic_same name bs d :
  same_except [name; tmp_of name] d (exec_all (write_atomic name bs) d).
Proof.
  intros f Hf. rewrite exec_write_atomic_eq.
  by rewrite lookup_insert_ne, lookup_delete_ne by set_solver.
Qed.

(** A crash leaves the named file old or new, never anything else. *)
Lemma crash_write_atomic name bs d d' :
  tmp_of name ≠ name →
  crash (write_atomic name bs) d d' →
  same_except [name; tmp_of name] d d' ∧
  (d' !! name = d !! name ∨ d' !! name = Some bs).
Proof.
  intros Hne Hc. pose proof (exec_write_atomic_same name bs d) as Hsame.
  pose proof (exec_write_atomic name bs d) as Hnew.
  unfold write_atomic in Hc.
  repeat match goal with
  | H : crash (_ :: _) _ _ |- _ => inversion H; clear H; subst
  | H : crash [] _ _ |- _ => inversion H; clear H; subst
  end.
  all: split; [|first [left; cbn; rewrite ?lookup_insert_ne by done; done
                      |right; exact Hnew]].
  all: first [exact Hsame
             |intros f Hf; cbn; rewrite ?lookup_insert_ne by set_solver; done].
Qed.
End atomic.

(** ** What the directory says about the mirror *)
Section recovery.
Context `{DiskCodecLaws}.
Implicit Types (d : Dir) (s : Storage).

(** Entries the file still holds below the boundary: none, or a run that
    ends exactly at the boundary. *)
Definition stale (pre : list LogEntry) (si : LogIndex) : Prop :=
  pre = [] ∨ ∃ first, contiguous first pre ∧ first + N.of_nat (length pre) = si + 1.

Definition meta_on_disk d s : Prop :=
  match d !! HARD_STATE_FILE with
  | Some bs => hs_from_slice bs = Some (st_hard_state s)
  | None => st_hard_state s = HardState_default
  end ∧
  match d !! SNAPSHOT_FILE with
  | Some bs => snapshot_from_slice bs = st_snapshot s ∧ is_Some (st_snapshot s)
  | None => st_snapshot s = None
  end.

Definition log_on_disk d s : Prop :=
  match d !! LOG_FILE with
  | Some bs => ∃ pre, bs = lines (pre ++ st_log s) ∧ stale pre (snapshot_index s)
  | None => st_log s = []
  end.

Record on_disk d s : Prop := {
  od_wf : storage_wf s;
  od_meta : meta_on_disk d s;
  od_log : log_on_disk d s;
}.

Lemma stale_contiguous pre log si :
  stale pre si → contiguous (si + 1) log → ∃ first, contiguous first (pre ++ log).
Proof.
  intros [->|(first & Hc & Hf)] Hl; [by eauto|].
  exists first. apply contiguous_app. by rewrite Hf.
Qed.

Lemma filter_retained pre log si :
  stale pre si → contiguous (si + 1) log → filter (λ e, si < e_index e) (pre ++ log) = log.
Proof.
  intros Hs Hl. rewrite filter_app.
  assert (filter (λ e, si < e_index e) pre = []) as ->.
  { destruct Hs as [->|(first & Hc & Hf)]; [done|].
    apply filter_none. intros e [i Hi]%list_elem_of_lookup.
    pose proof (lookup_lt_Some _ _ _ Hi). rewrite (contiguous_lookup _ _ _ _ Hc Hi). lia. }
  simpl. apply filter_all. intros e [i He]%list_elem_of_lookup.
  rewrite (contiguous_lookup _ _ _ _ Hl He). lia.
Qed.

Lemma check_first_contiguous si log : contiguous (si + 1) log → check_first si log = true.
Proof. destruct log as [|e log]; [done|]. intros [He _]. by apply bool_decide_eq_true_2. Qed.

Lemma meta_on_disk_same d d' s fs :
  meta_on_disk d s → same_except fs d d' →
  HARD_STATE_FILE ∉ fs → SNAPSHOT_FILE ∉ fs → meta_on_disk d' s.
Proof. unfold meta_on_disk. intros Hm Hs Hh Hn. by rewrite !Hs. Qed.

Lemma open_meta d s :
  meta_on_disk d s →
  open d = match replay_log d (snapshot_index s) with
           | Replayed log n =>
               Some (Ok (MkStorage (st_hard_state s) (st_snapshot s) log, repaired_log d n))
           | ReplayErr e => Some (Err e)
           | ReplayPanic => None
           end.
Proof.
  unfold open, load_hard_state, load_snapshot, snapshot_index. intros [Hhs Hsn].
  destruct (d !! HARD_STATE_FILE) as [b|]; rewrite Hhs;
    (destruct (d !! SNAPSHOT_FILE) as [b'|];
     [destruct Hsn as [Hsn [sn Es]]; by rewrite Hsn, Es|by rewrite Hsn]).
Qed.

(** Opening a directory that holds [s], possibly with a torn line at the
    end of the log, gives back exactly [s] and cuts the torn line off. *)
Lemma open_torn d s pre t :
  storage_wf s → meta_on_disk d s → stale pre (snapshot_index s) →
  d !! LOG_FILE = Some (lines (pre ++ st_log s) ++ t) → newline ∉ t →
  ∃ d', open d = Some (Ok (s, d')) ∧ on_disk d' s.
Proof.
  intros Hwf Hm Hpre Hlog Ht.
  destruct (stale_contiguous _ _ _ Hpre Hwf) as [first Hc].
  pose proof (replay_log_torn d (snapshot_index s) _ _ _ Hlog Ht Hc) as Hr.
  rewrite (filter_retained _ _ _ Hpre Hwf) in Hr.
  specialize (Hr (check_first_contiguous _ _ Hwf)).
  exists (<[LOG_FILE := lines (pre ++ st_log s)]> d). split.
  - rewrite (open_meta _ _ Hm), Hr. do 3 f_equal; [by destruct s|].
    unfold repaired_log. rewrite Hlog. destruct (decide (t = [])) as [->|].
    + rewrite app_nil_r in Hlog. by rewrite insert_id.
    + by rewrite take_app_length.
  - split; [done| |].
    + eapply (meta_on_disk_same _ _ _ [LOG_FILE]); [done| |set_solver..].
      intros f Hf. rewrite lookup_insert_ne; [done|set_solver].
    + unfold log_on_disk. rewrite lookup_insert_eq. eauto.
Qed.

Lemma open_on_disk d s : on_disk d s → ∃ d', open d = Some (Ok (s, d')) ∧ on_disk d' s.
Proof.
  intros [Hwf Hm Hl]. unfold log_on_disk in Hl. destruct (d !! LOG_FILE) as [bs|] eqn:Hlog.
  - destruct Hl as (pre & -> & Hpre). eapply (open_torn d s pre []); [done..| |set_solver].
    by rewrite app_nil_r.
  - exists (<[LOG_FILE := []]> d). split.
    + rewrite (open_meta _ _ Hm). unfold replay_log, repaired_log. rewrite Hlog.
      destruct s. simpl in *. by subst.
    + split; [done| |].
      * eapply (meta_on_disk_same _ _ _ [LOG_FILE]); [done| |set_solver..].
        intros f Hf. rewrite lookup_insert_ne; [done|set_solver].
      * unfold log_on_disk. rewrite lookup_insert_eq. exists []. split; [|by left].
        by rewrite Hl.
Qed.

(** ** The three file replacements *)
Lemma on_disk_save d s hs d' :
  on_disk d s → same_except [HARD_STATE_FILE; tmp_of HARD_STATE_FILE] d d' →
  d' !! HARD_STATE_FILE = Some (hs_to_vec hs) → on_disk d' (save_hard_state hs s).
Proof.
  intros [Hwf [Hhs Hsn] Hl] Hs Hnew. split; [done| |].
  - unfold meta_on_disk. rewrite Hnew, hs_roundtrip. split; [done|]. by rewrite Hs by set_solver.
  - unfold log_on_disk in *. by rewrite Hs by set_solver.
Qed.

Lemma on_disk_rewrite d s s' d' :
  on_disk d s → storage_wf s' →
  st_hard_state s' = st_hard_state s → st_snapshot s' = st_snapshot s →
  same_except [LOG_FILE; tmp_of LOG_FILE] d d' →
  d' !! LOG_FILE = Some (lines (st_log s')) → on_disk d' s'.
Proof.
  intros [Hwf [Hhs Hsn] Hl] Hwf' Eh Es Hs Hnew. split; [done| |].
  - unfold meta_on_disk. rewrite Eh, Es, !Hs by set_solver. done.
  - unfold log_on_disk. rewrite Hnew. exists []. split; [done|by left].
Qed.

(** A snapshot written next to a log that still holds the compacted
    prefix: the directory already stands for the compacted mirror. *)
Lemma on_disk_snapshot d s s' snap cut d' :
  on_disk d s → storage_wf s' →
  st_hard_state s' = st_hard_state s → st_snapshot s' = Some snap →
  st_log s = cut ++ st_log s' → snapshot_index s + N.of_nat (length cut) = last_included_index snap →
  same_except [SNAPSHOT_FILE; tmp_of SNAPSHOT_FILE] d d' →
  d' !! SNAPSHOT_FILE = Some (snapshot_to_vec snap) → on_disk d' s'.
Proof.
  intros [Hwf [Hhs Hsn] Hl] Hwf' Eh Es El Ek Hs Hnew.
  assert (snapshot_index s' = last_included_index snap) as Esi by (unfold snapshot_index; by rewrite Es).
  split; [done| |].
  - unfold meta_on_disk. rewrite Hnew, snapshot_roundtrip, Eh, Es, Hs by set_solver.
    split; [done|]. split; [done|by eauto].
  - unfold log_on_disk in *. rewrite Hs by set_solver. destruct (d !! LOG_FILE) as [bs|].
    + destruct Hl as (pre & -> & Hpre). exists (pre ++ cut). rewrite El, (assoc_L (++)).
      split; [done|]. rewrite Esi.
      unfold storage_wf in Hwf. rewrite El, contiguous_app in Hwf. destruct Hwf as [Hcut _].
      right. destruct Hpre as [->|(first & Hc & Hf)].
      * exists (snapshot_index s + 1). split; [done|]. simpl. lia.
      * exists first. rewrite contiguous_app, length_app, Hf. split; [done|lia].
    + rewrite El in Hl. by apply app_eq_nil in Hl as [_ ->].
Qed.
End recovery.

(** ** Crash safety *)
Section crash_safety.
Context `{DiskCodecLaws}.
Implicit Types (d : Dir) (s : Storage).

Lemma on_disk_ext d s d' :
  on_disk d s →
  d' !! HARD_STATE_FILE = d !! HARD_STATE_FILE →
  d' !! SNAPSHOT_FILE = d !! SNAPSHOT_FILE →
  d' !! LOG_FILE = d !! LOG_FILE → on_disk d' s.
Proof.
  intros [Hwf Hm Hl] E1 E2 E3. split; [done| |].
  - unfold meta_on_disk in *. by rewrite E1, E2.
  - unfold log_on_disk in *. by rewrite E3.
Qed.

(** An interrupted replacement of one of the three files: if the file
    itself did not change, the directory still holds [s]. *)
Lemma crash_old name d d' s :
  name ∈ [HARD_STATE_FILE; SNAPSHOT_FILE; LOG_FILE] →
  on_disk d s → same_except [name; tmp_of name] d d' → d' !! name = d !! name → on_disk d' s.
Proof.
  intros Hname Hd Hs Hold. eapply on_disk_ext; [exact Hd| | |];
    (set_unfold in Hname; destruct_or! Hname; subst; first [exact Hold|apply Hs; set_solver]).
Qed.

Lemma log_bytes d s :
  on_disk d s → ∃ pre, default [] (d !! LOG_FILE) = lines (pre ++ st_log s) ∧
                       stale pre (snapshot_index s).
Proof.
  intros [_ _ Hl]. unfold log_on_disk in Hl. destruct (d !! LOG_FILE); [done|].
  exists []. rewrite Hl. split; [done|by left].
Qed.

(** Any prefix of an append's bytes, on a directory that holds [s]. *)
Lemma open_partial_append d s es s' bs :
  on_disk d s → append es s = Ok s' → bs `prefix_of` lines es →
  ∃ k s'' d'', append (take k es) s = Ok s'' ∧
    open (exec (PWrite LOG_FILE bs) d) = Some (Ok (s'', d'')) ∧ on_disk d'' s''.
Proof.
  intros Hd Ha Hp. destruct (prefix_lines _ _ Hp) as (k & t & -> & Ht).
  destruct (log_bytes _ _ Hd) as (pre & Hb & Hpre).
  apply append_Ok in Ha as [Hc _]. apply (contiguous_take _ _ k) in Hc.
  assert (append (take k es) s =
    Ok (MkStorage (st_hard_state s) (st_snapshot s) (st_log s ++ take k es))) as Ha
    by by apply append_Ok.
  exists k. eexists. edestruct (open_torn (exec (PWrite LOG_FILE (lines (take k es) ++ t)) d)
    (MkStorage (st_hard_state s) (st_snapshot s) (st_log s ++ take k es)) pre t)
    as (d'' & Ho & Hd''); [by eapply append_wf; [apply (od_wf _ _ Hd)|]| |done| |done|by eauto].
  - eapply (meta_on_disk_same d _ _ [LOG_FILE]); [apply (od_meta _ _ Hd)| |set_solver..].
    intros f Hf. simpl. rewrite lookup_insert_ne; [done|set_solver].
  - simpl. rewrite lookup_insert_eq, Hb, !lines_app. by rewrite <-!(assoc_L (++)).
Qed.

Definition recovered (op : Op) s s' s'' : Prop :=
  s'' = s ∨ s'' = s' ∨
  match op with
  | Append es => ∃ k, append (take k es) s = Ok s''
  | _ => False
  end.

(** A snapshot whose boundary entry the log does not hold. *)
Definition divergent (op : Op) s : bool :=
  match op with Install snap => negb (boundary_matches snap s) | _ => false end.

(** Compaction and a matching install: snapshot first, then the log. *)
Lemma crash_compaction d s s' snap cut d' :
  on_disk d s → storage_wf s' →
  st_hard_state s' = st_hard_state s → st_snapshot s' = Some snap →
  st_log s = cut ++ st_log s' →
  snapshot_index s + N.of_nat (length cut) = last_included_index snap →
  crash (write_snapshot_prims snap ++ rewrite_log_prims (st_log s')) d d' →
  on_disk d' s ∨ on_disk d' s'.
Proof.
  intros Hd Hwf' Eh Es El Ek [Hc|Hc]%crash_app.
  - apply crash_write_atomic in Hc as [Hs [Hold|Hnew]]; [| |done].
    + left. eapply crash_old; [|done..]. set_solver.
    + right. by eapply on_disk_snapshot.
  - assert (on_disk (exec_all (write_snapshot_prims snap) d) s') as Hd1.
    { eapply on_disk_snapshot; [exact Hd|done..| |];
        [apply exec_write_atomic_same|apply exec_write_atomic]. }
    right. apply crash_write_atomic in Hc as [Hs [Hold|Hnew]]; [| |done].
    + eapply crash_old; [|exact Hd1|done..]. set_solver.
    + by eapply on_disk_rewrite.
Qed.

Lemma crash_no_prims d d' : crash [] d d' → d' = d.
Proof. inversion 1; by subst. Qed.

(** What a crash at any point of an accepted operation leaves. *)
Lemma crash_on_disk op d s s' d' :
  on_disk d s → mem_op op s = Ok s' → divergent op s = false →
  (∀ es, op ≠ Append es) →
  crash (op_prims op s s') d d' → on_disk d' s ∨ on_disk d' s'.
Proof.
  intros Hd Hop Hdiv Hna Hc. pose proof (od_wf _ _ Hd) as Hwf.
  destruct op as [hs|es|from|k state ms|snap]; simpl in *.
  - injection Hop as <-. apply crash_write_atomic in Hc as [Hs [Hold|Hnew]]; [| |done].
    + left. eapply crash_old; [|done..]. set_solver.
    + right. by eapply on_disk_save.
  - by destruct (Hna es).
  - pose proof (truncate_from_wf _ _ _ Hwf Hop) as Hwf'. case_bool_decide as Hb.
    + apply crash_no_prims in Hc as ->. by left.
    + apply truncate_from_Ok in Hop as [_ ->].
      apply crash_write_atomic in Hc as [Hs [Hold|Hnew]]; [| |done].
      * left. eapply crash_old; [|done..]. set_solver.
      * right. by eapply on_disk_rewrite.
  - pose proof (compact_to_wf _ _ _ _ _ Hwf Hop) as Hwf'.
    pose proof (compact_to_range _ _ _ _ _ Hop) as Hr. unfold last_index in Hr.
    apply compact_to_Ok in Hop as (e & He & ->).
    eapply (crash_compaction d s _ _ (take (N.to_nat (k - snapshot_index s)) (st_log s)));
      [done..| | |exact Hc]; [simpl; by rewrite take_drop|].
    simpl. rewrite length_take. lia.
  - apply negb_false_iff in Hdiv.
    pose proof (install_snapshot_wf _ _ _ Hwf Hop) as Hwf'.
    pose proof (boundary_matches_range _ _ Hdiv) as Hr. unfold last_index in Hr.
    apply install_snapshot_Ok in Hop as [Hlt ->]. rewrite Hdiv in *.
    eapply (crash_compaction d s _ _
      (take (N.to_nat (last_included_index snap - snapshot_index s)) (st_log s)));
      [done..| | |exact Hc]; [simpl; by rewrite take_drop|].
    simpl. rewrite length_take. lia.
Qed.

(** A crash anywhere in an operation that is not a divergent install. *)
Lemma crash_recovers op d s s' d' :
  on_disk d s → mem_op op s = Ok s' → divergent op s = false →
  crash (op_prims op s s') d d' →
  ∃ s'' d'', open d' = Some (Ok (s'', d'')) ∧ on_disk d'' s'' ∧ recovered op s s' s''.
Proof.
  intros Hd Hop Hdiv Hc.
  assert (∀ s1, on_disk d' s1 → s1 = s ∨ s1 = s' →
    ∃ s'' d'', open d' = Some (Ok (s'', d'')) ∧ on_disk d'' s'' ∧ recovered op s s' s'') as Hopen.
  { intros s1 Hd1 Hs1. destruct (open_on_disk _ _ Hd1) as (d'' & Ho & Hd'').
    exists s1, d''. unfold recovered. naive_solver. }
  destruct op as [hs|es|from|k state ms|snap] eqn:Eop.
  1,3-5: edestruct crash_on_disk as [?|?]; [exact Hd|exact Hop|done|done|exact Hc|by eauto..].
  simpl in *. destruct es as [|e es].
  { apply crash_no_prims in Hc as ->. by eauto. }
  assert (d' = d ∨ ∃ bs, bs `prefix_of` lines (e :: es) ∧ d' = exec (PWrite LOG_FILE bs) d)
    as [->|(bs & Hbs & ->)].
  { inversion Hc as [|f bs bs' ps d1 Hp|p' ps d1 d2 Hc']; subst; [by left|by eauto|].
    right. exists (lines (e :: es)). split; [done|].
    inversion Hc' as [| |p'' ps' d3 d4 Hc'']; subst; [done|].
    by apply crash_no_prims in Hc''. }
  - by eauto.
  - destruct (open_partial_append _ _ _ _ _ Hd Hop Hbs) as (k & s'' & d'' & Ha & Ho & Hd'').
    exists s'', d''. unfold recovered. eauto 10.
Qed.

(** ** A crash inside an install over a divergent log *)

(** What reopening finds between the two file replacements of such an
    install: the new snapshot over whatever the old log holds above its
    boundary. *)
Definition half_installed (snap : Snapshot) s : Storage :=
  MkStorage (st_hard_state s) (Some snap)
    (drop (N.to_nat (last_included_index snap - snapshot_index s)) (st_log s)).

Lemma file_below pre s e :
  storage_wf s → stale pre (snapshot_index s) → e ∈ pre ++ st_log s → e_index e ≤ last_index s.
Proof.
  intros Hwf Hpre [Hin|Hin]%elem_of_app; apply list_elem_of_lookup in Hin as [i Hi];
    pose proof (lookup_lt_Some _ _ _ Hi); unfold last_index.
  - destruct Hpre as [->|(first & Hc & Hf)]; [done|]. rewrite (contiguous_lookup _ _ _ _ Hc Hi). lia.
  - rewrite (contiguous_lookup _ _ _ _ Hwf Hi). lia.
Qed.

(** A snapshot beyond everything the log file holds: the directory opens
    to the snapshot alone, and the file keeps its lines. *)
Lemma open_beyond d s d1 s1 :
  on_disk d s → meta_on_disk d1 s1 → st_log s1 = [] → last_index s < snapshot_index s1 →
  d1 !! LOG_FILE = d !! LOG_FILE →
  ∃ d2, open d1 = Some (Ok (s1, d2)) ∧ (is_Some (d !! LOG_FILE) → d2 = d1).
Proof.
  intros [Hwf _ Hl] Hm Hnil Hlast Hlog. rewrite (open_meta _ _ Hm).
  destruct s1 as [hs sn log1]. simpl in Hnil. subst log1. unfold log_on_disk in Hl. rewrite <-Hlog in *. destruct (d1 !! LOG_FILE) as [bs|] eqn:Hb.
  - destruct Hl as (pre & -> & Hpre). destruct (stale_contiguous _ _ _ Hpre Hwf) as [first Hc].
    pose proof (replay_log_torn d1 (snapshot_index (MkStorage hs sn [])) (pre ++ st_log s) [] first) as Hr.
    rewrite app_nil_r, filter_none in Hr.
    2: { intros x Hx%(file_below _ _ _ Hwf Hpre). lia. }
    rewrite Hr by (done || set_solver). exists d1. unfold repaired_log. by rewrite Hb.
  - unfold replay_log, repaired_log. rewrite Hb. eexists. split; [done|]. by intros [? ?].
Qed.

Lemma half_installed_wf snap s :
  storage_wf s → snapshot_index s < last_included_index snap ≤ last_index s →
  storage_wf (half_installed snap s).
Proof.
  unfold storage_wf, last_index, half_installed. intros Hwf [Hlt Hle]. unfold snapshot_index at 1. simpl.
  set (n := N.to_nat (last_included_index snap - snapshot_index s)).
  replace (last_included_index snap + 1) with (snapshot_index s + 1 + N.of_nat n) by lia.
  apply contiguous_drop; [done|lia].
Qed.

Lemma half_installed_on_disk d s snap d' :
  on_disk d s → snapshot_index s < last_included_index snap ≤ last_index s →
  same_except [SNAPSHOT_FILE; tmp_of SNAPSHOT_FILE] d d' →
  d' !! SNAPSHOT_FILE = Some (snapshot_to_vec snap) → on_disk d' (half_installed snap s).
Proof.
  intros Hd Hr Hs Hnew. pose proof (half_installed_wf _ _ (od_wf _ _ Hd) Hr) as Hwf.
  eapply (on_disk_snapshot d s _ snap
    (take (N.to_nat (last_included_index snap - snapshot_index s)) (st_log s))); [done..| | |done|done].
  - simpl. by rewrite take_drop.
  - unfold last_index in Hr. rewrite length_take. lia.
Qed.

(** Snapshot file new, log file old. *)
Lemma open_half_installed d s snap d' :
  on_disk d s → snapshot_index s < last_included_index snap →
  d' !! HARD_STATE_FILE = d !! HARD_STATE_FILE → d' !! LOG_FILE = d !! LOG_FILE →
  d' !! SNAPSHOT_FILE = Some (snapshot_to_vec snap) →
  ∃ d'', open d' = Some (Ok (half_installed snap s, d'')) ∧
    (last_included_index snap ≤ last_index s → on_disk d'' (half_installed snap s)).
Proof.
  intros Hd Hlt Eh El En. destruct (decide (last_included_index snap ≤ last_index s)) as [Hle|Hgt].
  - assert (on_disk d' (half_installed snap s)) as Hd1.
    { eapply on_disk_ext; [eapply (half_installed_on_disk d s snap (<[SNAPSHOT_FILE := snapshot_to_vec snap]> d))|..];
        [done|done| |apply lookup_insert_eq|..].
      - intros f Hf. rewrite lookup_insert_ne; [done|set_solver].
      - by rewrite lookup_insert_ne.
      - by rewrite lookup_insert_eq.
      - by rewrite lookup_insert_ne. }
    destruct (open_on_disk _ _ Hd1) as (d'' & Ho & Hd''). eauto.
  - edestruct (open_beyond d s d' (half_installed snap s)) as (d'' & Ho & _); [done| | | |done|].
    + destruct Hd as [_ [Hhs _] _]. unfold meta_on_disk. rewrite Eh, En, snapshot_roundtrip. eauto.
    + simpl. apply drop_ge. unfold last_index in Hgt. lia.
    + unfold snapshot_index at 1. simpl. lia.
    + exists d''. split; [done|]. intros ?. lia.
Qed.

Lemma crash_divergent snap d s s' d' :
  on_disk d s → install_snapshot snap s = Ok s' → boundary_matches snap s = false →
  crash (op_prims (Install snap) s s') d d' →
  on_disk d' s ∨ on_disk d' s' ∨
  ∃ d'', open d' = Some (Ok (half_installed snap s, d'')) ∧
    (last_included_index snap ≤ last_index s → on_disk d'' (half_installed snap s)).
Proof.
  intros Hd [Hlt ->]%install_snapshot_Ok Hm. rewrite Hm. cbn [op_prims st_snapshot st_log].
  intros [Hc|Hc]%crash_app.
  - apply crash_write_atomic in Hc as [Hs [Hold|Hnew]]; [| |done].
    + left. eapply crash_old; [|done..]. set_solver.
    + right. right. apply (open_half_installed d); [done|done|apply Hs; set_solver..|done].
  - right. pose proof (exec_write_atomic_same SNAPSHOT_FILE (snapshot_to_vec snap) d) as Hs1.
    pose proof (exec_write_atomic SNAPSHOT_FILE (snapshot_to_vec snap) d) as Hn1.
    unfold write_snapshot_prims in Hc. set (d1 := exec_all _ d) in *.
    apply crash_write_atomic in Hc as [Hs [Hold|Hnew]]; [| |done].
    + right. apply (open_half_installed d); [done|done|..].
      * rewrite Hs, Hs1 by set_solver. done.
      * rewrite Hold, Hs1 by set_solver. done.
      * by rewrite Hs by set_solver.
    + left. destruct Hd as [_ [Hhs _] _]. split; [done| |].
      * unfold meta_on_disk. rewrite !Hs, Hn1, snapshot_roundtrip, Hs1 by set_solver. simpl. eauto.
      * unfold log_on_disk. rewrite Hnew. exists []. split; [done|by left].
Qed.

(** [C16] Crash safety: whatever point of an accepted operation a crash hits,
    the directory opens. It opens to the state before or after the
    operation (for an append, to the state after some prefix of the batch),
    and then holds that state; except inside an [install_snapshot] whose
    boundary entry the log does not hold, where it can also open to the new
    snapshot over the old log's entries above the boundary. That state too
    is what the directory then holds if the log reaches the boundary; if
    not, the state is the installed one but the log file may keep lines
    below the boundary. *)
Theorem crash_safe op d s s' d' :
  on_disk d s → mem_op op s = Ok s' → crash (op_prims op s s') d d' →
  ∃ s'' d'', open d' = Some (Ok (s'', d'')) ∧
    ((recovered op s s' s'' ∧ on_disk d'' s'') ∨
     ∃ snap, op = Install snap ∧ boundary_matches snap s = false ∧ s'' = half_installed snap s ∧
       (last_included_index snap ≤ last_index s → on_disk d'' s'') ∧
       (last_index s < last_included_index snap → s'' = s')).
Proof.
  intros Hd Hop Hc. destruct (divergent op s) eqn:Hdiv.
  2: { destruct (crash_recovers _ _ _ _ _ Hd Hop Hdiv Hc) as (s'' & d'' & Ho & Hd'' & Hr). eauto 10. }
  destruct op as [| | | |snap]; try done. simpl in Hdiv. apply negb_true_iff in Hdiv.
  destruct (crash_divergent _ _ _ _ _ Hd Hop Hdiv Hc) as [H1|[H1|(d'' & Ho & Hd'')]].
  - destruct (open_on_disk _ _ H1) as (d1 & Ho & Hd1). exists s, d1. split; [done|]. left. by split; [left|].
  - destruct (open_on_disk _ _ H1) as (d1 & Ho & Hd1). exists s', d1. split; [done|]. left. by split; [right; left|].
  - exists (half_installed snap s), d''. split; [done|]. right. exists snap. split_and!; [done..|].
    intros Hlt. apply install_snapshot_Ok in Hop as [_ ->]. rewrite Hdiv. unfold half_installed.
    rewrite drop_ge; [done|]. unfold last_index in Hlt. lia.
Qed.
End crash_safety.

(** ** Completed operations are durable *)
Section durable.
Context `{DiskCodecLaws}.
Implicit Types (d : Dir) (s : Storage).

Lemma exec_rewrite_on_disk d s s' :
  on_disk d s → storage_wf s' →
  st_hard_state s' = st_hard_state s → st_snapshot s' = st_snapshot s →
  on_disk (exec_all (rewrite_log_prims (st_log s')) d) s'.
Proof.
  intros. eapply on_disk_rewrite; [done..| |];
    [apply exec_write_atomic_same|apply exec_write_atomic].
Qed.

(** Snapshot file and log file both replaced: the directory holds the new
    mirror whatever the old log was. *)
Lemma exec_snapshot_on_disk d s s' snap :
  on_disk d s → storage_wf s' →
  st_hard_state s' = st_hard_state s → st_snapshot s' = Some snap →
  on_disk (exec_all (write_snapshot_prims snap ++ rewrite_log_prims (st_log s')) d) s'.
Proof.
  intros Hd Hwf' Eh Es. rewrite exec_all_app.
  pose proof (exec_write_atomic_same SNAPSHOT_FILE (snapshot_to_vec snap) d) as Hs1.
  pose proof (exec_write_atomic SNAPSHOT_FILE (snapshot_to_vec snap) d) as Hn1.
  unfold write_snapshot_prims. set (d1 := exec_all _ d) in *.
  pose proof (exec_write_atomic_same LOG_FILE (lines (st_log s')) d1) as Hs2.
  pose proof (exec_write_atomic LOG_FILE (lines (st_log s')) d1) as Hn2.
  unfold rewrite_log_prims. set (d2 := exec_all _ d1) in *.
  destruct Hd as [_ [Hhs _] _]. split; [done| |].
  - unfold meta_on_disk. rewrite (Hs2 HARD_STATE_FILE), (Hs1 HARD_STATE_FILE) by set_solver.
    rewrite (Hs2 SNAPSHOT_FILE), Hn1, snapshot_roundtrip, Eh, Es by set_solver. eauto.
  - unfold log_on_disk. rewrite Hn2. exists []. split; [done|by left].
Qed.

Lemma mem_op_wf op s s' : storage_wf s → mem_op op s = Ok s' → storage_wf s'.
Proof.
  destruct op; simpl; intros Hwf Hop.
  - by injection Hop as <-.
  - by eapply append_wf.
  - by eapply truncate_from_wf.
  - by eapply compact_to_wf.
  - by eapply install_snapshot_wf.
Qed.

(** Mirror and directory agree after every accepted operation. *)
Lemma op_on_disk op d s s' :
  on_disk d s → mem_op op s = Ok s' → on_disk (exec_all (op_prims op s s') d) s'.
Proof.
  intros Hd Hop. pose proof (mem_op_wf _ _ _ (od_wf _ _ Hd) Hop) as Hwf'.
  destruct op as [hs|es|from|k state ms|snap]; simpl in Hop |- *.
  - injection Hop as <-. eapply on_disk_save; [done| |];
      [apply exec_write_atomic_same|apply exec_write_atomic].
  - apply append_Ok in Hop as [Hc ->]. destruct es as [|e es].
    { rewrite app_nil_r. by destruct s. }
    destruct (log_bytes _ _ Hd) as (pre & Hb & Hpre). split; [done| |].
    + eapply (meta_on_disk_same d _ _ [LOG_FILE]); [apply (od_meta _ _ Hd)| |set_solver..].
      intros f Hf. cbn. rewrite lookup_insert_ne; [done|set_solver].
    + unfold log_on_disk. cbn -[lines]. rewrite lookup_insert_eq, Hb. exists pre.
      by rewrite (assoc_L (++)), (lines_app (pre ++ st_log s)).
  - case_bool_decide as Hb.
    + apply truncate_from_Ok in Hop as [Hlt ->]. unfold last_index in Hb.
      rewrite take_ge by lia. by destruct s.
    + apply truncate_from_Ok in Hop as [Hlt ->]. by apply exec_rewrite_on_disk with s.
  - apply compact_to_Ok in Hop as (e & He & ->). by apply exec_snapshot_on_disk with s.
  - apply install_snapshot_Ok in Hop as [Hlt ->]. by apply exec_snapshot_on_disk with s.
Qed.

(** A whole life of the storage: operations run to completion, and the
    process is restarted between some of them. *)
Inductive run : Storage → Dir → Storage → Dir → Prop :=
| run_nil s d : run s d s d
| run_op s d op s1 s' d' :
    mem_op op s = Ok s1 → run s1 (exec_all (op_prims op s s1) d) s' d' → run s d s' d'
| run_reopen s d s1 d1 s' d' :
    open d = Some (Ok (s1, d1)) → run s1 d1 s' d' → run s d s' d'.

(** [C25] Durability: after any sequence of completed operations and restarts,
    opening the directory gives back exactly the mirror. *)
Theorem restart_roundtrip s d s' d' :
  on_disk d s → run s d s' d' → ∃ d'', open d' = Some (Ok (s', d'')).
Proof.
  intros Hd Hrun. induction Hrun as [s d|s d op s1 s' d' Hop _ IH|s d s1 d1 s' d' Ho _ IH].
  - destruct (open_on_disk _ _ Hd) as (d'' & ? & _). eauto.
  - apply IH. by apply op_on_disk.
  - apply IH. destruct (open_on_disk _ _ Hd) as (d'' & Ho' & Hd'').
    rewrite Ho in Ho'. by simplify_eq.
Qed.
End durable.

(** ** The crash window of [install_snapshot]

    The exception of [crash_safe]: an install whose boundary entry the log
    does not hold. There the claim of the module documentation ("reopening completes
    the compaction's effect idempotently") does not hold. *)
Section install_window.
Context `{DiskCodecLaws}.
Implicit Types (d : Dir) (s : Storage).

Lemma crash_app_l ps1 ps2 d d' : crash ps1 d d' → crash (ps1 ++ ps2) d d'.
Proof. induction 1; simpl; by constructor. Qed.

Lemma snapshot_only_meta d s s' snap :
  on_disk d s → st_hard_state s' = st_hard_state s → st_snapshot s' = Some snap →
  meta_on_disk (exec_all (write_snapshot_prims snap) d) s'.
Proof.
  intros [_ [Hhs _] _] Eh Es. unfold meta_on_disk, write_snapshot_prims.
  rewrite exec_write_atomic, exec_write_atomic_same by set_solver.
  rewrite snapshot_roundtrip, Eh, Es. eauto.
Qed.

(** [C29] A follower whose whole log is below the boundary crashes after writing
    the snapshot and before rewriting the log. It reopens in the state the
    install meant to reach; the next entry from the leader is accepted and
    durably appended; the restart after that is refused as corrupt. *)
Theorem install_crash_then_append_corrupts d s s' snap e bs :
  on_disk d s → d !! LOG_FILE = Some bs → st_log s ≠ [] →
  last_index s < last_included_index snap →
  install_snapshot snap s = Ok s' →
  e_index e = last_included_index snap + 1 →
  ∃ d1 s2,
    crash (op_prims (Install snap) s s') d d1 ∧
    open d1 = Some (Ok (s', d1)) ∧
    mem_op (Append [e]) s' = Ok s2 ∧
    open (exec_all (op_prims (Append [e]) s' s2) d1) = Some (Err Corrupt).
Proof.
  intros Hd Hlog Hne Hlast Hin He. pose proof (od_wf _ _ Hd) as Hwf.
  assert (boundary_matches snap s = false) as Hm.
  { apply not_true_is_false. intros Hb%boundary_matches_range. lia. }
  apply install_snapshot_Ok in Hin as [Hlt Hs']. rewrite Hm in Hs'.
  pose proof (od_log _ _ Hd) as Hl. unfold log_on_disk in Hl. rewrite Hlog in Hl.
  destruct Hl as (pre & -> & Hpre).
  destruct (stale_contiguous _ _ _ Hpre Hwf) as [first Hc].
  assert (first + N.of_nat (length (pre ++ st_log s)) = last_index s + 1) as Hend.
  { destruct (st_log s) as [|e0 l0] eqn:El using rev_ind; [done|].
    assert (e_index e0 = first + N.of_nat (length pre + length l0)) as E1.
    { eapply contiguous_lookup; [exact Hc|]. rewrite (assoc_L (++)).
      by rewrite lookup_app_r, length_app, Nat.sub_diag by (rewrite length_app; lia). }
    assert (e_index e0 = snapshot_index s + 1 + N.of_nat (length l0)) as E2.
    { eapply contiguous_lookup; [exact Hwf|]. by rewrite El, lookup_app_r, Nat.sub_diag. }
    unfold last_index. rewrite El, !length_app. simpl. lia. }
  set (d1 := exec_all (write_snapshot_prims snap) d).
  assert (d1 !! LOG_FILE = Some (lines (pre ++ st_log s))) as Hlog1.
  { unfold d1, write_snapshot_prims. by rewrite exec_write_atomic_same by set_solver. }
  assert (meta_on_disk d1 s') as Hm1 by (subst s'; by eapply snapshot_only_meta).
  assert (snapshot_index s' = last_included_index snap) as Esi by by subst s'.
  assert (crash (op_prims (Install snap) s s') d d1) as Hcrash.
  { subst s'. cbn [op_prims st_snapshot st_log]. apply crash_app_l, crash_all. }
  clearbody d1. exists d1, (MkStorage (st_hard_state s') (st_snapshot s') (st_log s' ++ [e])).
  split; [done|]. split_and!.
  - destruct (open_beyond d s d1 s') as (d2 & Ho & Hd2); [done|done|by subst s'|by rewrite Esi|congruence|].
    rewrite Hd2 in Ho; [done|]. rewrite Hlog. eauto.
  - apply append_Ok. split; [|done]. simpl. split; [|done].
    unfold last_index. rewrite Esi. subst s'. simpl. lia.
  - rewrite (open_meta _ s').
    2: { eapply (meta_on_disk_same d1 _ _ [LOG_FILE]); [done| |set_solver..].
         intros f Hf. cbn. rewrite lookup_insert_ne; [done|set_solver]. }
    erewrite replay_log_gap; [done| | |exact Hc|].
    + cbn -[lines]. rewrite lookup_insert_eq, Hlog1. cbn [default]. unfold id.
      by rewrite <-lines_app.
    + by destruct pre.
    + rewrite Hend, He. lia.
Qed.

(** [C30] A follower whose log runs past the boundary but disagrees at it: the
    completed install clears the log, the crashed one reopens with the
    divergent suffix in place. *)
Theorem install_crash_keeps_divergent_suffix d s s' snap :
  on_disk d s → last_included_index snap < last_index s →
  boundary_matches snap s = false → install_snapshot snap s = Ok s' →
  ∃ d1 s1 d2,
    crash (op_prims (Install snap) s s') d d1 ∧
    open d1 = Some (Ok (s1, d2)) ∧
    st_log s' = [] ∧ st_log s1 ≠ [] ∧ st_snapshot s1 = Some snap ∧ last_term s1 = last_term s.
Proof.
  intros Hd Hlt Hm Hin. pose proof (od_wf _ _ Hd) as Hwf.
  apply install_snapshot_Ok in Hin as [Hb Hs']. rewrite Hm in Hs'.
  assert (on_disk (exec_all (write_snapshot_prims snap) d) (half_installed snap s)) as Hd1.
  { apply (half_installed_on_disk d); [done|lia|apply exec_write_atomic_same|apply exec_write_atomic]. }
  unfold half_installed in *.
  remember (N.to_nat (last_included_index snap - snapshot_index s)) as n eqn:En.
  assert (n < length (st_log s))%nat as Hn by (unfold last_index in Hlt; lia).
  destruct (open_on_disk _ _ Hd1) as (d2 & Ho & _).
  eexists _, _, d2. split_and!; [|exact Ho|by subst s'| |done|].
  - subst s'. cbn [op_prims st_snapshot st_log]. apply crash_app_l, crash_all.
  - simpl. intros Hnil%(f_equal length). rewrite length_drop in Hnil. simpl in Hnil. lia.
  - unfold last_term. simpl. assert (last (drop n (st_log s)) = last (st_log s)) as ->.
    { rewrite !last_lookup, lookup_drop, length_drop. f_equal. lia. }
    destruct (last (st_log s)) eqn:El; [done|].
    apply last_None in El. rewrite El in Hn. simpl in Hn. lia.
Qed.
End install_window.

(** ** A concrete codec

    Every entry is written as the bits of its (injective) number; parsing
    stops at a newline. It satisfies the laws, so the theorems above are not
    vacuous, and it evaluates the model on concrete directories. *)
Fixpoint bits (p : positive) : bytes :=
  match p with
  | xH => [x31]
  | xO p => x30 :: bits p
  | xI p => x31 :: bits p
  end.

Fixpoint parse_bits (bs : bytes) : option positive :=
  match bs with
  | [] => None
  | b :: bs =>
      if decide (b = x30) then xO <$> parse_bits bs
      else if decide (b = x31) then
        match bs with
        | [] => Some xH
        | c :: _ => if decide (c = newline) then Some xH else xI <$> parse_bits bs
        end
      else None
  end.

Lemma parse_bits_spec p t : t = [] ∨ t = [newline] → parse_bits (bits p ++ t) = Some p.
Proof.
  intros Ht. induction p as [p IH|p IH|]; simpl.
  - rewrite IH. destruct p; done.
  - by rewrite IH.
  - by destruct Ht as [-> | ->].
Qed.

Lemma newline_not_in_bits p : newline ∉ bits p.
Proof. induction p; simpl; set_solver. Qed.

#[export] Instance Session_countable : Countable Session.
Proof.
  refine (inj_countable' (λ s, (s_client s, s_seq s)) (λ '(c, q), MkSession c q) _). by intros [].
Defined.
#[export] Instance MemberAddr_countable : Countable MemberAddr.
Proof.
  refine (inj_countable' (λ m, (m_raft m, m_client m)) (λ '(r, c), MkMemberAddr r c) _). by intros [].
Defined.
#[export] Instance HardState_countable : Countable HardState.
Proof.
  refine (inj_countable' (λ h, (current_term h, voted_for h)) (λ '(t, v), MkHardState t v) _).
  by intros [].
Defined.

Section bit_codec.
#[local] Existing Instance numeric_json.

#[export] Instance Command_countable : Countable Command.
Proof.
  refine (inj_countable'
    (λ c : Command, match c with
          | Put k v s => inl (inl (k, v : N, s))
          | Delete k s => inl (inr (k, s))
          | Noop => inr (inl ())
          | ConfigChange ms => inr (inr ms)
          end)
    (λ x, match x with
          | inl (inl (k, v, s)) => Put k v s
          | inl (inr (k, s)) => Delete k s
          | inr (inl ()) => Noop
          | inr (inr ms) => ConfigChange ms
          end) _). by intros [].
Defined.
#[export] Instance LogEntry_countable : Countable LogEntry.
Proof.
  refine (inj_countable' (λ e : LogEntry, (e_term e, e_index e, e_command e))
    (λ '(t, i, c), MkLogEntry t i c) _). by intros [].
Defined.
#[export] Instance Snapshot_countable : Countable Snapshot.
Proof.
  refine (inj_countable'
    (λ s : Snapshot, (last_included_index s, last_included_term s, sn_membership s, sn_state s : N))
    (λ '(i, t, m, v), MkSnapshot i t m v) _). by intros [].
Defined.

Definition bit_codec : DiskCodec := {|
  entry_to_vec e := bits (encode e);
  entry_from_slice bs := p ← parse_bits bs; decode p;
  snapshot_to_vec e := bits (encode e);
  snapshot_from_slice bs := p ← parse_bits bs; decode p;
  hs_to_vec e := bits (encode e);
  hs_from_slice bs := p ← parse_bits bs; decode p;
|}.

Lemma bit_codec_roundtrip `{Countable A} (x : A) t :
  t = [] ∨ t = [newline] → (p ← parse_bits (bits (encode x) ++ t); decode p) = Some x.
Proof. intros Ht. rewrite (parse_bits_spec _ _ Ht). simpl. apply decode_encode. Qed.

Lemma bit_codec_laws : @DiskCodecLaws numeric_json bit_codec.
Proof.
  split; cbn.
  - intros. apply newline_not_in_bits.
  - intros. apply bit_codec_roundtrip. by right.
  - intros. rewrite <-(app_nil_r (bits _)). apply bit_codec_roundtrip. by left.
  - intros. rewrite <-(app_nil_r (bits _)). apply bit_codec_roundtrip. by left.
Qed.
End bit_codec.

(** ** Concrete directories *)
Section disk_examples.
#[local] Existing Instance numeric_json.
#[local] Existing Instance bit_codec.
#[local] Existing Instance bit_codec_laws.

Definition put_entry (t i : N) : LogEntry := MkLogEntry t i (Put "k" (jv i) None).
Definition empty_storage : Storage := MkStorage HardState_default None [].
Definition three_entries : list LogEntry := [put_entry 1 1; put_entry 1 2; put_entry 2 3].
Definition three_storage : Storage := MkStorage HardState_default None three_entries.
Definition three_dir : Dir := exec_all (op_prims (Append three_entries) empty_storage three_storage) ∅.
Definition snap_at (i t : N) : Snapshot := MkSnapshot i t None (jv 0).

Lemma on_disk_empty : on_disk ∅ empty_storage.
Proof. by split. Qed.
Lemma on_disk_three : on_disk three_dir three_storage.
Proof. apply op_on_disk; [apply on_disk_empty|done]. Qed.

(** A crash between the two file replacements of a compaction, and of an
    install whose boundary entry the log does not hold. *)
Example crash_safe_witness :
  let s' := MkStorage HardState_default (Some (MkSnapshot 2 1 None (jv 7))) [put_entry 2 3] in
  let op := CompactTo 2 (jv 7) None in
  let d' := exec_all (write_snapshot_prims (MkSnapshot 2 1 None (jv 7))) three_dir in
  let s1 := MkStorage HardState_default (Some (snap_at 2 5)) [] in
  let d1 := exec_all (write_snapshot_prims (snap_at 2 5)) three_dir in
  (∃ s'' d'', open d' = Some (Ok (s'', d'')) ∧ on_disk d'' s'' ∧ recovered op three_storage s' s'') ∧
  ∃ s'' d'', open d1 = Some (Ok (s'', d'')) ∧ on_disk d'' s''.
Proof.
  intros s' op d' s1 d1. split.
  - destruct (crash_safe op three_dir three_storage s' d' on_disk_three eq_refl)
      as (s'' & d'' & Ho & [[Hr Hd]|(snap & Hop & _)]).
    + apply crash_app_l, crash_all.
    + exists s'', d''. split; [exact Ho|]. split; [exact Hd|exact Hr].
    + discriminate Hop.
  - destruct (crash_safe (Install (snap_at 2 5)) three_dir three_storage s1 d1 on_disk_three eq_refl)
      as (s'' & d'' & Ho & [[_ Hd]|(snap & Hop & _ & _ & Hd & _)]).
    + apply crash_app_l, crash_all.
    + exists s'', d''. split; [exact Ho|exact Hd].
    + exists s'', d''. split; [exact Ho|]. apply Hd. injection Hop as <-. vm_compute. discriminate.
Defined.

Example restart_roundtrip_witness :
  ∃ d'', open three_dir = Some (Ok (three_storage, d'')).
Proof.
  apply (restart_roundtrip empty_storage ∅ three_storage three_dir on_disk_empty).
  apply (run_op _ _ (Append three_entries) three_storage); [reflexivity|constructor].
Defined.

(** The follower holds 1..3, the leader's snapshot is at 10. *)
Example install_crash_then_append_corrupts_witness :
  let s' := MkStorage HardState_default (Some (snap_at 10 4)) [] in
  ∃ d1 s2, crash (op_prims (Install (snap_at 10 4)) three_storage s') three_dir d1 ∧
    open d1 = Some (Ok (s', d1)) ∧ mem_op (Append [put_entry 4 11]) s' = Ok s2 ∧
    open (exec_all (op_prims (Append [put_entry 4 11]) s' s2) d1) = Some (Err Corrupt).
Proof.
  intros s'. eapply (install_crash_then_append_corrupts three_dir three_storage s' (snap_at 10 4)
    (put_entry 4 11) (lines three_entries)).
  - apply on_disk_three.
  - reflexivity.
  - discriminate.
  - reflexivity.
  - reflexivity.
  - reflexivity.
Defined.

(** The follower holds 1..3 and disagrees with the snapshot at 2. *)
Example install_crash_keeps_divergent_suffix_witness :
  let s' := MkStorage HardState_default (Some (snap_at 2 5)) [] in
  ∃ d1 s1 d2, crash (op_prims (Install (snap_at 2 5)) three_storage s') three_dir d1 ∧
    open d1 = Some (Ok (s1, d2)) ∧ st_log s' = [] ∧ st_log s1 ≠ [] ∧
    st_snapshot s1 = Some (snap_at 2 5) ∧ last_term s1 = last_term three_storage.
Proof.
  intros s'. apply (install_crash_keeps_divergent_suffix three_dir three_storage s' (snap_at 2 5)).
  - apply on_disk_three.
  - reflexivity.
  - reflexivity.
  - reflexivity.
Defined.
End disk_examples.
