(* ===== verification/Config.v ===== *)
(** * Node configuration ([src/config.rs])

    [NodeConfig::from_vars] reads environment variables through a lookup
    function; [parse_peer_map] parses [1=value,2=value] maps. Error strings
    are constructors with the data the message prints. The theorems: printing
    a peer map and parsing it gives it back, parsing loses nothing, and what
    an accepted configuration guarantees. *)
From S2P Require Import Prelude Text Types.
Open Scope N_scope.

(** Rust's [?]. *)
Definition and_then {A B E} (r : Result A E) (f : A → Result B E) : Result B E :=
  match r with Ok a => f a | Err e => Err e end.
Definition map_err {A E E'} (f : E → E') (r : Result A E) : Result A E' :=
  match r with Ok a => Ok a | Err e => Err (f e) end.
Definition ok_or {A E} (o : option A) (e : E) : Result A E :=
  match o with Some a => Ok a | None => Err e end.
Notation "'let?' x := m 'in' k" := (and_then m (λ x, k)) (at level 10, x pattern, k at level 200).

Lemma and_then_Ok {A B E} (r : Result A E) (f : A → Result B E) b :
  and_then r f = Ok b → ∃ a, r = Ok a ∧ f a = Ok b.
Proof. destruct r; simpl; [eauto|done]. Qed.

Lemma map_err_Ok {A E E'} (f : E → E') (r : Result A E) a : map_err f r = Ok a → r = Ok a.
Proof. destruct r; simpl; congruence. Qed.

Record NodeConfig := MkNodeConfig {
  nc_id : NodeId;
  nc_listen : str;
  nc_raft_listen : str;
  nc_data_dir : str;
  nc_peers : gmap N str;
  nc_peer_client_urls : gmap N str;
  nc_snapshot_threshold : option N;
  nc_snapshot_trailing : N;
  nc_join : bool;
  nc_rpc_timeout_ms : N;
  nc_advertise_raft_addr : str;
  nc_advertise_client_url : str;
}.

Inductive PeerMapError :=
| ExpectedIdValue (entry : str)
| BadPeerId (entry : str)
| DuplicateId (id : NodeId).

Inductive VarError :=
| BadNodeId (raw : str)
| BadPeers (e : PeerMapError)
| BadPeerClientUrls (e : PeerMapError)
| BadThreshold (raw : str)
| BadTrailing (raw : str)
| BadRpcTimeout (raw : str)
| BadJoin (raw : str)
| SelfInPeers (id : NodeId).

(** One iteration of the loop of [parse_peer_map]. *)
Definition parse_entry (entry : str) : Result (NodeId * str) PeerMapError :=
  let? (id, value) := ok_or (split_once "=" entry) (ExpectedIdValue entry) in
  let? id := ok_or (parse_u64 (trim id)) (BadPeerId entry) in
  Ok (id, trim value).

Fixpoint insert_entries (entries : list str) (map : gmap N str) : Result (gmap N str) PeerMapError :=
  match entries with
  | [] => Ok map
  | entry :: entries =>
      let? (id, value) := parse_entry entry in
      if bool_decide (is_Some (map !! id)) then Err (DuplicateId id)
      else insert_entries entries (<[id := value]> map)
  end.

(** The entries the loop visits. *)
Definition peer_entries (raw : str) : list str :=
  filter (λ e, e ≠ []) (trim <$> split_on "," raw).

Definition parse_peer_map (raw : str) : Result (gmap N str) PeerMapError :=
  insert_entries (peer_entries raw) ∅.

(** A variable that must be a number of at least 1. *)
Definition positive (raw : str) : option N :=
  n ← parse_u64 raw; if bool_decide (1 ≤ n) then Some n else None.

Definition parse_join (raw : option str) : Result bool VarError :=
  match raw with
  | None => Ok false
  | Some r =>
      if bool_decide (r = []) || bool_decide (r = lit "0") || bool_decide (r = lit "false") then Ok false
      else if bool_decide (r = lit "1") || bool_decide (r = lit "true") then Ok true
      else Err (BadJoin r)
  end.

Definition from_vars (get : string → option str) : Result NodeConfig VarError :=
  let? id := match get "RUSTKV_NODE_ID"%string with
             | Some raw => ok_or (parse_u64 raw) (BadNodeId raw)
             | None => Ok 1
             end in
  let listen := default (lit "127.0.0.1:8080") (get "RUSTKV_LISTEN"%string) in
  let raft_listen := default (lit "127.0.0.1:9080") (get "RUSTKV_RAFT_LISTEN"%string) in
  let advertise_raft_addr := default raft_listen (get "RUSTKV_ADVERTISE_RAFT_ADDR"%string) in
  let advertise_client_url := default (lit "http://" ++ listen) (get "RUSTKV_ADVERTISE_CLIENT_URL"%string) in
  let data_dir := default (lit "./rustkv-data") (get "RUSTKV_DATA_DIR"%string) in
  let? peers := map_err BadPeers (parse_peer_map (default [] (get "RUSTKV_PEERS"%string))) in
  let? peer_client_urls :=
    map_err BadPeerClientUrls (parse_peer_map (default [] (get "RUSTKV_PEER_CLIENT_URLS"%string))) in
  let? snapshot_threshold := match get "RUSTKV_SNAPSHOT_THRESHOLD"%string with
                             | Some raw => let? n := ok_or (positive raw) (BadThreshold raw) in Ok (Some n)
                             | None => Ok None
                             end in
  let? snapshot_trailing := match get "RUSTKV_SNAPSHOT_TRAILING"%string with
                            | Some raw => ok_or (parse_u64 raw) (BadTrailing raw)
                            | None => Ok 0
                            end in
  let? rpc_timeout_ms := match get "RUSTKV_RPC_TIMEOUT_MS"%string with
                         | Some raw => ok_or (positive raw) (BadRpcTimeout raw)
                         | None => Ok 150
                         end in
  let? join := parse_join (get "RUSTKV_JOIN"%string) in
  if bool_decide (is_Some (peers !! id)) then Err (SelfInPeers id)
  else Ok (MkNodeConfig id listen raft_listen data_dir peers peer_client_urls snapshot_threshold
             snapshot_trailing join rpc_timeout_ms advertise_raft_addr advertise_client_url).

(** ** Trimming *)

(** A byte that is not part of any white-space character's encoding. *)
Definition solid (c : ascii) : Prop := 33 ≤ code c < 128.

Lemma solid_ws1 c : solid c → ws1 (code c) = false.
Proof. intros [H1 H2]. unfold ws1. repeat case_bool_decide; simpl; lia || done. Qed.
Lemma solid_ws2 a c : solid c → ws2 a (code c) = false ∧ ws2 (code c) a = false.
Proof. intros [H1 H2]. unfold ws2. split; repeat case_bool_decide; simpl; done || lia. Qed.
Lemma solid_ws3 a b c :
  solid c → ws3 (code c) a b = false ∧ ws3 a (code c) b = false ∧ ws3 a b (code c) = false.
Proof. intros [H1 H2]. unfold ws3. repeat split; repeat (case_bool_decide; simpl; try done; try lia). Qed.

Lemma trim_start_solid c s : solid c → trim_start (c :: s) = c :: s.
Proof.
  intros Hc. simpl. rewrite (solid_ws1 _ Hc). destruct s as [|b [|d s]]; [done|..];
    rewrite (proj2 (solid_ws2 _ _ Hc)); [done|].
  by rewrite (proj1 (solid_ws3 _ _ _ Hc)).
Qed.
Lemma trim_end_rev_solid c s : solid c → trim_end_rev (c :: s) = c :: s.
Proof.
  intros Hc. simpl. rewrite (solid_ws1 _ Hc). destruct s as [|b [|d s]]; [done|..];
    rewrite (proj1 (solid_ws2 _ _ Hc)); [done|].
  by rewrite (proj2 (proj2 (solid_ws3 _ _ _ Hc))).
Qed.

Lemma trim_start_suffix s : trim_start s `suffix_of` s.
Proof.
  remember (length s) as k eqn:Hk. revert s Hk. induction (lt_wf k) as [k _ IH]. intros s ->.
  destruct s as [|a [|b [|c s]]]; simpl in *; repeat case_match; try done;
    repeat first [done|eapply IH; [|reflexivity]; simpl; lia|apply suffix_cons_r].
Qed.
Lemma trim_end_rev_suffix s : trim_end_rev s `suffix_of` s.
Proof.
  remember (length s) as k eqn:Hk. revert s Hk. induction (lt_wf k) as [k _ IH]. intros s ->.
  destruct s as [|a [|b [|c s]]]; simpl in *; repeat case_match; try done;
    repeat first [done|eapply IH; [|reflexivity]; simpl; lia|apply suffix_cons_r].
Qed.

Lemma suffix_length_eq (s t : str) : s `suffix_of` t → length s = length t → s = t.
Proof.
  intros [k ->]. rewrite length_app. intros Hl. by destruct k; [|simpl in Hl; lia].
Qed.

Lemma trimmed_inv s : trim s = s → trim_start s = s ∧ trim_end_rev (reverse s) = reverse s.
Proof.
  intros Ht. pose proof (trim_start_suffix s) as Hs.
  pose proof (trim_end_rev_suffix (reverse (trim_start s))) as He.
  assert (length (trim s) = length s) as Hl by (by rewrite Ht). unfold trim in Hl.
  rewrite length_reverse in Hl. pose proof (suffix_length _ _ Hs). pose proof (suffix_length _ _ He) as Hr.
  rewrite length_reverse in Hr.
  assert (trim_start s = s) as E by (apply suffix_length_eq; [done|lia]). split; [done|].
  rewrite E in He, Hl. apply suffix_length_eq; [done|]. by rewrite length_reverse.
Qed.

Lemma trim_end_rev_app r c x : trim_end_rev r = r → solid c → trim_end_rev (r ++ c :: x) = r ++ c :: x.
Proof.
  intros Hr Hc.
  assert (∀ (a : ascii) l, (a :: l) `suffix_of` l → False) as Hno1 by (intros ? ? ?%suffix_length; simpl in *; lia).
  destruct r as [|a [|b [|d r]]].
  - by apply trim_end_rev_solid.
  - simpl in *. destruct (ws1 (code a)); [done|]. rewrite (proj2 (solid_ws2 _ _ Hc)).
    destruct x as [|y x]; [done|]. by rewrite (proj1 (proj2 (solid_ws3 _ _ _ Hc))).
  - simpl in *. destruct (ws1 (code a)); [|destruct (ws2 (code b) (code a)); [done|]].
    + pose proof (trim_end_rev_suffix [b]) as Hs. simpl in Hs. rewrite Hr in Hs. by apply Hno1 in Hs.
    + by rewrite (proj1 (solid_ws3 _ _ _ Hc)).
  - simpl in *. destruct (ws1 (code a)).
    { pose proof (trim_end_rev_suffix (b :: d :: r)) as Hs. simpl in Hs. rewrite Hr in Hs. by apply Hno1 in Hs. }
    destruct (ws2 (code b) (code a)).
    { pose proof (trim_end_rev_suffix (d :: r)) as Hs. simpl in Hs. rewrite Hr in Hs.
      apply suffix_length in Hs. simpl in Hs. lia. }
    destruct (ws3 (code d) (code b) (code a)); [|done].
    pose proof (trim_end_rev_suffix r) as Hs. rewrite Hr in Hs. apply suffix_length in Hs. simpl in Hs. lia.
Qed.

(** ** Printing and parsing a peer map *)
Definition print_entry (x : NodeId * str) : str := print_uint x.1 ++ "="%char :: x.2.
Fixpoint join_comma (l : list str) : str :=
  match l with
  | [] => []
  | [e] => e
  | e :: l => e ++ ","%char :: join_comma l
  end.
Definition print_peers (l : list (NodeId * str)) : str := join_comma (print_entry <$> l).

(** A value that survives: no separator inside, no white space around. *)
Definition plain_value (v : str) : Prop := trim v = v ∧ ","%char ∉ v.

Lemma print_uint_solid n c : c ∈ print_uint n → solid c ∧ c ≠ ","%char ∧ c ≠ "="%char.
Proof.
  intros (d & Hd & ->)%print_digits_digits. unfold solid, digit_char.
  rewrite code_chr by lia. split; [lia|].
  split; intros E%(f_equal code); rewrite code_chr in E by lia;
    [change (code ","%char) with 44 in E|change (code "="%char) with 61 in E]; lia.
Qed.

Lemma trim_solid_ends c s d : solid c → trim_end_rev (reverse (c :: s)) = reverse (c :: s) → d = c :: s → trim d = d.
Proof. intros Hc He ->. unfold trim. rewrite trim_start_solid by done. by rewrite He, reverse_involutive. Qed.

Lemma trim_print_uint n : trim (print_uint n) = print_uint n.
Proof.
  pose proof (print_uint_nonempty n) as Hne. pose proof (print_uint_solid n) as Hs.
  destruct (print_uint n) as [|c s] eqn:E; [done|].
  eapply (trim_solid_ends c s); [apply Hs; left| |done].
  destruct (reverse (c :: s)) as [|d r] eqn:Er; [done|]. apply trim_end_rev_solid, Hs.
  apply elem_of_reverse. rewrite Er. left.
Qed.

Lemma equals_solid : solid "="%char.
Proof. by vm_compute. Qed.

Lemma trim_print_entry x : plain_value x.2 → trim (print_entry x) = print_entry x.
Proof.
  intros [Ht _]. unfold print_entry. pose proof (print_uint_nonempty x.1) as Hne.
  pose proof (print_uint_solid x.1) as Hs. destruct (print_uint x.1) as [|c s] eqn:E; [done|].
  eapply (trim_solid_ends c (s ++ "="%char :: x.2)); [apply Hs; left| |done].
  change (c :: s ++ "="%char :: x.2) with ((c :: s) ++ ["="%char] ++ x.2).
  rewrite !reverse_app, <-app_assoc. apply trim_end_rev_app; [by apply trimmed_inv|apply equals_solid].
Qed.

Lemma parse_print_entry x : x.1 < u64_modulus → plain_value x.2 → parse_entry (print_entry x) = Ok x.
Proof.
  intros Hx [Ht _]. unfold parse_entry, print_entry. rewrite split_once_app.
  - simpl. rewrite trim_print_uint. unfold parse_u64. rewrite parse_print_uint by done. simpl.
    rewrite Ht. by destruct x.
  - intros Hin%print_uint_solid. naive_solver.
Qed.

Lemma print_entry_no_comma x : plain_value x.2 → ","%char ∉ print_entry x.
Proof.
  intros [_ Hc] [Hin|Hin]%elem_of_app; [by apply print_uint_solid in Hin as (_ & ? & _)|].
  apply elem_of_cons in Hin as [E|Hin]; [done|by apply Hc].
Qed.

Lemma peer_entries_print l :
  (∀ x, x ∈ l → plain_value x.2) → peer_entries (print_peers l) = print_entry <$> l.
Proof.
  unfold peer_entries, print_peers. intros Hl.
  assert (∀ x, x ∈ l → print_entry x ≠ []) as Hne.
  { intros x _ E%(f_equal length). unfold print_entry in E. rewrite length_app in E. simpl in E. lia. }
  assert (l ≠ [] → trim <$> split_on "," (join_comma (print_entry <$> l)) = print_entry <$> l) as Hs.
  { clear Hne. induction l as [|x l IH]; [done|]. intros _. destruct l as [|y l].
    - simpl. rewrite split_on_none by (apply print_entry_no_comma, Hl; left). simpl.
      rewrite trim_print_entry; [done|]. apply Hl. left.
    - change (join_comma (print_entry <$> x :: y :: l))
        with (print_entry x ++ ","%char :: join_comma (print_entry <$> y :: l)).
      rewrite split_on_app by (apply print_entry_no_comma, Hl; left). rewrite !fmap_cons. f_equal.
      + apply trim_print_entry, Hl. left.
      + rewrite <-fmap_cons. apply IH; [|done]. intros z Hz. apply Hl. by right. }
  destruct l as [|x l]; [done|]. rewrite Hs by done. apply filter_all.
  intros e (y & -> & Hy)%list_elem_of_fmap. by apply Hne.
Qed.

Lemma insert_entries_print l m :
  NoDup l.*1 → (∀ x, x ∈ l → m !! x.1 = None) →
  (∀ x, x ∈ l → x.1 < u64_modulus ∧ plain_value x.2) →
  insert_entries (print_entry <$> l) m = Ok (list_to_map l ∪ m).
Proof.
  revert m. induction l as [|[id v] l IH]; intros m Hnd Hm Hl; simpl; [by rewrite map_empty_union|].
  apply NoDup_cons in Hnd as [Hni Hnd].
  rewrite parse_print_entry; [|by apply (Hl (id, v)); left|by apply (Hl (id, v)); left]. simpl.
  assert (m !! id = None) as Hid by (apply (Hm (id, v)); left).
  rewrite bool_decide_eq_false_2 by (rewrite Hid; apply is_Some_None).
  rewrite IH; [|done| |by intros x Hx; apply Hl; right].
  - rewrite <-insert_union_r, insert_union_l; [done|].
    apply not_elem_of_list_to_map_1. done.
  - intros x Hx. rewrite lookup_insert_ne; [by apply Hm; right|].
    intros ->. apply Hni. apply list_elem_of_fmap. by exists x.
Qed.

(** A peer map survives printing and parsing: for any list of distinct
    64-bit ids with values that contain no comma and no surrounding white
    space (addresses and URLs, which may contain [=]), the text
    [id=value,id=value,...] parses to exactly that map. *)
Theorem peer_map_roundtrip l :
  NoDup l.*1 → (∀ x, x ∈ l → x.1 < u64_modulus ∧ plain_value x.2) →
  parse_peer_map (print_peers l) = Ok (list_to_map l).
Proof.
  intros Hnd Hl. unfold parse_peer_map. rewrite peer_entries_print by (intros x Hx; by apply Hl).
  rewrite insert_entries_print; [by rewrite map_union_empty|done|done|done].
Qed.

Example peer_map_roundtrip_witness :
  parse_peer_map (lit "1=n1:9080,3=http://n3:9080/?a=b") =
  Ok (list_to_map [(1, lit "n1:9080"); (3, lit "http://n3:9080/?a=b")]).
Proof.
  apply (peer_map_roundtrip [(1, lit "n1:9080"); (3, lit "http://n3:9080/?a=b")]).
  - apply (bool_decide_unpack _). vm_compute. exact I.
  - intros x Hx. repeat (apply elem_of_cons in Hx as [->|Hx];
      [split; [reflexivity|split; [reflexivity|apply (bool_decide_unpack _); vm_compute; exact I]]|]).
    by apply elem_of_nil in Hx.
Defined.

(** ** Nothing is lost *)
Lemma insert_entries_sound entries m m' :
  insert_entries entries m = Ok m' →
  m ⊆ m' ∧ size m' = (size m + length entries)%nat ∧
  ∀ e, e ∈ entries → ∃ id v, parse_entry e = Ok (id, v) ∧ m' !! id = Some v.
Proof.
  revert m. induction entries as [|e entries IH]; intros m; simpl.
  { intros [= ->]. split; [done|]. split; [lia|]. by intros e ?%elem_of_nil. }
  destruct (parse_entry e) as [[id v]|] eqn:He; simpl; [|done]. case_bool_decide as Hid; [done|].
  apply eq_None_not_Some in Hid. intros (Hsub & Hsz & Hin)%IH. rewrite map_size_insert_None in Hsz by done.
  split; [|split; [lia|]].
  - etrans; [by apply insert_subseteq|done].
  - intros e' [->|?]%elem_of_cons; [|by apply Hin]. exists id, v. split; [done|].
    eapply lookup_weaken; [|done]. by rewrite lookup_insert_eq.
Qed.

(** An accepted peer map has lost nothing of its text: every entry that is
    not blank has an id and a value, they are in the map, and the map has as
    many members as there are entries (a repeated id is an error). *)
Theorem peer_map_complete raw m :
  parse_peer_map raw = Ok m →
  size m = length (peer_entries raw) ∧
  ∀ e, e ∈ peer_entries raw → ∃ id v, parse_entry e = Ok (id, v) ∧ m !! id = Some v.
Proof.
  intros (_ & Hsz & Hin)%insert_entries_sound. rewrite map_size_empty in Hsz. by split.
Qed.

Example peer_map_complete_witness :
  size (list_to_map [(2, lit "a"); (5, lit "b=c")] : gmap N str) = length (peer_entries (lit " 2=a ,, +5 = b=c,")) ∧
  ∀ e, e ∈ peer_entries (lit " 2=a ,, +5 = b=c,") → ∃ id v, parse_entry e = Ok (id, v) ∧
    (list_to_map [(2, lit "a"); (5, lit "b=c")] : gmap N str) !! id = Some v.
Proof.
  apply (peer_map_complete (lit " 2=a ,, +5 = b=c,") (list_to_map [(2, lit "a"); (5, lit "b=c")])).
  vm_compute. reflexivity.
Defined.

(** ** What an accepted configuration guarantees *)

(** The addresses the documentation of the variables promises to others. *)
Definition advertised_raft (get : string → option str) : str :=
  match get "RUSTKV_ADVERTISE_RAFT_ADDR"%string, get "RUSTKV_RAFT_LISTEN"%string with
  | Some addr, _ | None, Some addr => addr
  | None, None => lit "127.0.0.1:9080"
  end.
Definition advertised_client (get : string → option str) : str :=
  match get "RUSTKV_ADVERTISE_CLIENT_URL"%string, get "RUSTKV_LISTEN"%string with
  | Some url, _ => url
  | None, Some addr => lit "http://" ++ addr
  | None, None => lit "http://127.0.0.1:8080"
  end.

Record config_ok (get : string → option str) (c : NodeConfig) : Prop := {
  co_self : nc_peers c !! nc_id c = None;
  co_threshold n : nc_snapshot_threshold c = Some n → 1 ≤ n;
  co_timeout : 1 ≤ nc_rpc_timeout_ms c;
  co_raft_addr : nc_advertise_raft_addr c = advertised_raft get;
  co_client_url : nc_advertise_client_url c = advertised_client get;
  co_peers : parse_peer_map (default [] (get "RUSTKV_PEERS"%string)) = Ok (nc_peers c);
  co_urls : parse_peer_map (default [] (get "RUSTKV_PEER_CLIENT_URLS"%string)) = Ok (nc_peer_client_urls c);
  co_default_peers : get "RUSTKV_PEERS"%string = None → nc_peers c = ∅;
}.

Lemma positive_ge raw n : positive raw = Some n → 1 ≤ n.
Proof. unfold positive. destruct (parse_u64 raw); simpl; [|done]. case_bool_decide; naive_solver. Qed.

(** An accepted environment never makes a node its own peer, never yields
    a zero compaction threshold or RPC budget, advertises the listen
    addresses unless told otherwise, and lists the peers as parsed. *)
Theorem from_vars_ok get c : from_vars get = Ok c → config_ok get c.
Proof.
  unfold from_vars. intros (id & Hid & H)%and_then_Ok.
  apply and_then_Ok in H as (peers & Hpeers & H). apply and_then_Ok in H as (urls & Hurls & H).
  apply and_then_Ok in H as (threshold & Hth & H). apply and_then_Ok in H as (trailing & _ & H).
  apply and_then_Ok in H as (rpc & Hrpc & H). apply and_then_Ok in H as (join & _ & H).
  destruct (bool_decide (is_Some (peers !! id))) eqn:Hself; [done|]. injection H as <-.
  apply bool_decide_eq_false in Hself.
  split; cbn [nc_id nc_listen nc_raft_listen nc_peers nc_peer_client_urls nc_snapshot_threshold nc_rpc_timeout_ms
              nc_advertise_raft_addr nc_advertise_client_url].
  - by apply eq_None_not_Some.
  - intros n ->. destruct (get "RUSTKV_SNAPSHOT_THRESHOLD"%string) as [raw|]; [|done].
    apply and_then_Ok in Hth as (m & Hm & [= ->]). unfold ok_or in Hm.
    destruct (positive raw) eqn:Hp; [|done]. injection Hm as ->. by eapply positive_ge.
  - destruct (get "RUSTKV_RPC_TIMEOUT_MS"%string) as [raw|]; [|injection Hrpc as <-; done].
    unfold ok_or in Hrpc. destruct (positive raw) eqn:Hp; [|done]. injection Hrpc as ->. by eapply positive_ge.
  - unfold advertised_raft. by destruct (get "RUSTKV_ADVERTISE_RAFT_ADDR"%string), (get "RUSTKV_RAFT_LISTEN"%string).
  - unfold advertised_client. by destruct (get "RUSTKV_ADVERTISE_CLIENT_URL"%string), (get "RUSTKV_LISTEN"%string).
  - by apply map_err_Ok in Hpeers.
  - by apply map_err_Ok in Hurls.
  - intros E. rewrite E in Hpeers. vm_compute in Hpeers. by injection Hpeers.
Qed.

(** The environment of the second node of a local cluster. *)
Definition sample_env (name : string) : option str :=
  lit <$> (list_to_map [("RUSTKV_NODE_ID", "2"); ("RUSTKV_LISTEN", "0.0.0.0:8082");
    ("RUSTKV_PEERS", "1=n1:9080, 3=n3:9080"); ("RUSTKV_SNAPSHOT_THRESHOLD", "1000");
    ("RUSTKV_JOIN", "false")]%string : gmap string string) !! name.

Example from_vars_ok_witness :
  ∃ c, from_vars sample_env = Ok c ∧ nc_id c = 2 ∧ nc_snapshot_threshold c = Some 1000 ∧
    nc_peers c !! 3 = Some (lit "n3:9080") ∧ config_ok sample_env c.
Proof.
  destruct (from_vars sample_env) as [c|e] eqn:Hc; [|exfalso; vm_compute in Hc; discriminate Hc].
  exists c. pose proof Hc as Hc'. vm_compute in Hc'. injection Hc' as <-.
  split; [reflexivity|]. split; [reflexivity|]. split; [reflexivity|]. split; [reflexivity|].
  exact (from_vars_ok sample_env _ Hc).
Defined.

(** The errors of the source's tests. *)
Example from_vars_errors :
  (λ kv, from_vars (λ n, if bool_decide (n = fst kv) then Some (lit (snd kv)) else None)) <$>
    [("RUSTKV_NODE_ID", "abc"); ("RUSTKV_PEERS", "nonsense"); ("RUSTKV_PEERS", "x=addr");
     ("RUSTKV_PEERS", "2=a,2=b"); ("RUSTKV_PEERS", "1=self:9080"); ("RUSTKV_JOIN", "yes");
     ("RUSTKV_RPC_TIMEOUT_MS", "0"); ("RUSTKV_SNAPSHOT_THRESHOLD", "0")]%string =
  [Err (BadNodeId (lit "abc")); Err (BadPeers (ExpectedIdValue (lit "nonsense")));
   Err (BadPeers (BadPeerId (lit "x=addr"))); Err (BadPeers (DuplicateId 2)); Err (SelfInPeers 1);
   Err (BadJoin (lit "yes")); Err (BadRpcTimeout (lit "0")); Err (BadThreshold (lit "0"))].
Proof. vm_compute. reflexivity. Qed.
