(* ===== verification/Http.v ===== *)
(** * The HTTP transport ([src/raft/transport/http.rs])

    The hand-written HTTP/1.1 client (response-head parsing and body framing
    over an incremental reader), the pool of idle connections and its retry
    policy, the error mapping of [send], and the server side of an RPC.
    Sockets are parameters: what a connection delivers is a list of read
    results. A buffer longer than [isize::MAX] panics; running out of memory
    below that is not modelled. JSON encoding is the class [RpcCodec].

    The theorems: what reading a response gives, its body a function of the
    bytes and its reusability of the reads they came in; the pool stays
    within its bounds and its address book, and a request is written at most
    twice. *)
From S2P Require Import Prelude Text Types.
Open Scope N_scope.

(** The [std::io::Error]s the client tells apart. *)
Inductive IoError :=
| InvalidData
| UnexpectedEof
| OtherIo.

Definition MAX_IDLE_PER_PEER : nat := 4.
Definition MAX_RESPONSE_HEAD : nat := N.to_nat (16 * 1024).

Definition CR : ascii := chr 13.
Definition LF : ascii := chr 10.
Definition CRLF : str := [CR; LF].

(** ** UTF-8, lines and words *)

(** [std::str::from_utf8] accepts: the well-formed sequences of Unicode's
    table 3-7. *)
Definition cont (b : N) : bool := bool_decide (0x80 ≤ b) && bool_decide (b ≤ 0xBF).
Definition between (lo hi b : N) : bool := bool_decide (lo ≤ b) && bool_decide (b ≤ hi).
Fixpoint utf8_valid (s : str) : bool :=
  match s with
  | [] => true
  | a :: s1 =>
      let a := code a in
      if between 0 0x7F a then utf8_valid s1
      else match s1 with
           | [] => false
           | b :: s2 =>
               let b := code b in
               if between 0xC2 0xDF a then cont b && utf8_valid s2
               else match s2 with
                    | [] => false
                    | c :: s3 =>
                        let c := code c in
                        if between 0xE0 0xEF a then
                          cont b && cont c &&
                          (if bool_decide (a = 0xE0) then between 0xA0 0xBF b
                           else if bool_decide (a = 0xED) then between 0x80 0x9F b else true) &&
                          utf8_valid s3
                        else match s3 with
                             | [] => false
                             | d :: s4 =>
                                 between 0xF0 0xF4 a && cont b && cont c && cont (code d) &&
                                 (if bool_decide (a = 0xF0) then between 0x90 0xBF b
                                  else if bool_decide (a = 0xF4) then between 0x80 0x8F b else true) &&
                                 utf8_valid s4
                             end
                    end
           end
  end.

(** [str::split_whitespace] *)
Definition flush (word : str) : list str := match word with [] => [] | _ => [word] end.
Fixpoint words_from (word s : str) : list str :=
  match s with
  | [] => flush word
  | a :: s1 =>
      if ws1 (code a) then flush word ++ words_from [] s1
      else match s1 with
           | [] => flush (word ++ [a])
           | b :: s2 =>
               if ws2 (code a) (code b) then flush word ++ words_from [] s2
               else match s2 with
                    | [] => words_from (word ++ [a]) s1
                    | c :: s3 =>
                        if ws3 (code a) (code b) (code c) then flush word ++ words_from [] s3
                        else words_from (word ++ [a]) s1
                    end
           end
  end.
Definition split_whitespace (s : str) : list str := words_from [] s.

(** [str::lines]: a line ends at a line feed, with the carriage return before
    it; a last line without one is kept as it is. *)
Definition strip_cr (line : str) : str :=
  match reverse line with c :: r => if bool_decide (c = CR) then reverse r else line | [] => [] end.
Fixpoint end_lines (segs : list str) : list str :=
  match segs with
  | [] => []
  | [l] => flush l
  | l :: segs => strip_cr l :: end_lines segs
  end.
Definition lines (s : str) : list str := end_lines (split_on LF s).

(** ** The response head *)
Record ResponseHead := MkResponseHead {
  content_length : option N;
  keep_alive : bool;
}.

(** The loop over the header lines: the last Content-Length counts, a bad one
    is an error. *)
Fixpoint scan_lengths (acc : option N) (ls : list str) : Result (option N) IoError :=
  match ls with
  | [] => Ok acc
  | l :: ls =>
      match strip_prefix (lit "content-length:") l with
      | Some value =>
          match parse_u64 (trim value) with
          | Some n => scan_lengths (Some n) ls
          | None => Err InvalidData
          end
      | None => scan_lengths acc ls
      end
  end.

Definition parse_response_head (raw : str) : Result ResponseHead IoError :=
  if negb (utf8_valid raw) then Err InvalidData else
  match split_whitespace raw !! 1%nat ≫= parse_u16 with
  | None => Err InvalidData
  | Some status =>
      if bool_decide (status ≠ 200) then Err InvalidData else
      let low := to_ascii_lowercase raw in
      if contains_sub (lit "transfer-encoding: chunked") low then Err InvalidData else
      match scan_lengths None (drop 1 (lines low)) with
      | Err e => Err e
      | Ok len => Ok (MkResponseHead len (negb (contains_sub (lit "connection: close") low)))
      end
  end.

Definition HEAD_END : str := CRLF ++ CRLF.
Definition find_header_end (buf : str) : option nat := find_sub HEAD_END buf.

(** ** Reading a response

    A connection delivers a list of non-empty reads and then ends. *)
Inductive Ending := Eof | Broken | Stalls.

(** How reading ends: with a result, never (the caller's timeout ends it), or
    in a panic of the task. *)
Inductive Io (A : Type) :=
| Finished (r : Result A IoError)
| Never
| Panics.
Arguments Finished {A} _.
Arguments Never {A}.
Arguments Panics {A}.

Definition at_end {A} (e : Ending) (eof : Result A IoError) : Io A :=
  match e with Eof => Finished eof | Broken => Finished (Err OtherIo) | Stalls => Never end.

(** The loop that scans for the end of the head: its position, the buffer
    and the reads that are left. *)
Fixpoint read_head (buf : str) (reads : list str) (e : Ending) : Io (nat * str * list str) :=
  match find_header_end buf with
  | Some pos => Finished (Ok (pos, buf, reads))
  | None =>
      if bool_decide (MAX_RESPONSE_HEAD < length buf)%nat then Finished (Err InvalidData)
      else match reads with
           | [] => at_end e (Err UnexpectedEof)
           | chunk :: reads => read_head (buf ++ chunk) reads e
           end
  end.

(** [read_exact] of [n] bytes (with what stays unread), [read_to_end]. *)
Definition read_exact (n : nat) (reads : list str) (e : Ending) : Io (str * str) :=
  if bool_decide (n ≤ length (concat reads))%nat
  then Finished (Ok (take n (concat reads), drop n (concat reads)))
  else at_end e (Err UnexpectedEof).
Definition read_to_end (reads : list str) (e : Ending) : Io str := at_end e (Ok (concat reads)).

(** A response as the caller gets it, and the bytes the connection holds
    unread. *)
Record HttpResponse := MkHttpResponse {
  response_body : str;
  reusable : bool;
  unread : str;
}.

(** [isize::MAX]: [Vec::resize] panics beyond (a smaller length for which
    there is no memory aborts the process, which is not modelled). *)
Definition ISIZE_MAX : N := 2 ^ 63 - 1.

(** The body, once the head is known. *)
Definition read_body (head : ResponseHead) (buffered : str) (reads : list str) (e : Ending)
    : Io HttpResponse :=
  match content_length head with
  | Some len =>
      if bool_decide (N.of_nat (length buffered) < len) then
        if bool_decide (ISIZE_MAX < len) then Panics else
        match read_exact (N.to_nat len - length buffered) reads e with
        | Finished (Ok (rest, beyond)) => Finished (Ok (MkHttpResponse (buffered ++ rest) (keep_alive head) beyond))
        | Finished (Err err) => Finished (Err err)
        | Never => Never
        | Panics => Panics
        end
      else Finished (Ok (MkHttpResponse (take (N.to_nat len) buffered)
                       (keep_alive head && bool_decide (N.of_nat (length buffered) = len)) (concat reads)))
  | None =>
      match read_to_end reads e with
      | Finished (Ok rest) => Finished (Ok (MkHttpResponse (buffered ++ rest) false []))
      | Finished (Err err) => Finished (Err err)
      | Never => Never
      | Panics => Panics
      end
  end.

(** What is written before the response is read. *)
Definition request_text (addr path : str) (body : str) : str :=
  lit "POST " ++ path ++ lit " HTTP/1.1" ++ CRLF ++ lit "Host: " ++ addr ++ CRLF ++
  lit "Content-Type: application/json" ++ CRLF ++
  lit "Content-Length: " ++ print_uint (N.of_nat (length body)) ++ HEAD_END ++ body.

(** [request_response], after the request has been written. *)
Definition read_response (reads : list str) (e : Ending) : Io HttpResponse :=
  match read_head [] reads e with
  | Never => Never
  | Panics => Panics
  | Finished (Err err) => Finished (Err err)
  | Finished (Ok (pos, buf, rest)) =>
      match parse_response_head (take pos buf) with
      | Err err => Finished (Err err)
      | Ok head => read_body head (drop (pos + 4) buf) rest e
      end
  end.

(** ** Framing does not depend on the reads *)
Lemma HEAD_END_length : length HEAD_END = 4%nat.
Proof. done. Qed.

(** The terminator is found in a prefix exactly when it lies inside. *)
Lemma find_sub_prefix p buf s pos :
  find_sub p (buf ++ s) = Some pos →
  find_sub p buf = if bool_decide (pos + length p ≤ length buf)%nat then Some pos else None.
Proof.
  intros [(a & b & Hab & Hl) Hfirst]%find_sub_Some. case_bool_decide as Hlen.
  - apply find_sub_Some. split.
    + exists a, (drop (pos + length p) buf). split; [|done].
      rewrite <-(take_drop (pos + length p) buf) at 1. rewrite app_assoc. f_equal.
      assert (take (pos + length p) (buf ++ s) = take (pos + length p) (a ++ p ++ b)) as Ht by (by rewrite Hab).
      rewrite take_app_le in Ht by done. rewrite Ht, app_assoc, take_app_le by (rewrite length_app; lia).
      apply take_ge. rewrite length_app. lia.
    + intros j Hj Hpre. apply (Hfirst j Hj). rewrite drop_app_le by lia.
      by apply prefix_app_r.
  - destruct (find_sub p buf) as [k|] eqn:Hk; [exfalso|done].
    apply find_sub_Some in Hk as [(a' & b' & -> & Hl') _].
    assert (pos ≤ k)%nat as Hle.
    { destruct (decide (k < pos)%nat) as [Hlt|]; [|lia]. destruct (Hfirst k Hlt).
      rewrite <-Hl', <-!app_assoc, drop_app_length. by apply prefix_app_r. }
    rewrite !length_app in Hlen. lia.
Qed.

(** How many bytes the reads have brought when the first [need] are there. *)
Fixpoint arrived (need : nat) (reads : list str) : nat :=
  match need, reads with
  | S _, chunk :: reads => length chunk + arrived (need - length chunk) reads
  | _, _ => 0
  end.

(** The scan stops with the whole stream accounted for, at the read that
    completes the head. *)
Lemma read_head_found buf reads e pos :
  find_header_end (buf ++ concat reads) = Some pos → (pos + 3 ≤ MAX_RESPONSE_HEAD)%nat →
  ∃ buf' rest, read_head buf reads e = Finished (Ok (pos, buf', rest)) ∧
    buf' ++ concat rest = buf ++ concat reads ∧ (pos + 4 ≤ length buf')%nat ∧
    length buf' = (length buf + arrived (pos + 4 - length buf) reads)%nat.
Proof.
  revert buf. induction reads as [|chunk reads IH]; intros buf Hf Hmax;
    pose proof (find_sub_prefix _ _ _ _ Hf) as Hb; rewrite HEAD_END_length in Hb; simpl;
    unfold find_header_end in *; rewrite Hb; case_bool_decide as Hlen.
  - eexists _, _. split; [done|]. split; [done|]. split; [done|].
    replace (pos + 4 - length buf)%nat with 0%nat by lia. simpl. lia.
  - exfalso. apply find_sub_Some in Hf as [(a & b & Hab & Hl) _].
    simpl in Hab. rewrite app_nil_r in Hab. subst buf. rewrite !length_app in Hlen. simpl in Hlen. lia.
  - eexists _, _. split; [done|]. split; [done|]. split; [done|].
    replace (pos + 4 - length buf)%nat with 0%nat by lia. simpl. lia.
  - rewrite bool_decide_eq_false_2 by lia. simpl in Hf. rewrite app_assoc in Hf.
    destruct (IH _ Hf Hmax) as (buf' & rest & Hr & Heq & Hl' & Har). exists buf', rest.
    split; [done|]. split; [rewrite Heq; simpl; by rewrite app_assoc|]. split; [done|].
    rewrite Har, length_app. destruct (pos + 4 - length buf)%nat as [|k] eqn:Ek; [lia|].
    cbn [arrived]. rewrite <-Ek. replace (pos + 4 - (length buf + length chunk))%nat
      with (pos + 4 - length buf - length chunk)%nat by lia. lia.
Qed.

(** [C35] What reading a response gives, exactly. When the head ends within the
    limit: a bad head is an error; a response without a Content-Length yields
    everything up to the end of the stream; one with a Content-Length yields
    exactly that many bytes after the head, or fails if the stream ends
    before, however the bytes are cut into reads. A length beyond
    [isize::MAX] that did not arrive with the head panics. The connection is
    reported reusable exactly if the server keeps it alive and the reads up
    to the one that completed the head brought nothing beyond the body; then
    it stands right behind the body. *)
Theorem framing_exact reads e pos :
  let stream := concat reads in
  let rest := drop (pos + 4) stream in
  let here := (arrived (pos + 4) reads - (pos + 4))%nat in
  find_header_end stream = Some pos → (pos + 3 ≤ MAX_RESPONSE_HEAD)%nat →
  read_response reads e =
  match parse_response_head (take pos stream) with
  | Err err => Finished (Err err)
  | Ok head =>
      match content_length head with
      | None => at_end e (Ok (MkHttpResponse rest false []))
      | Some len =>
          if bool_decide (len ≤ N.of_nat here) then
            Finished (Ok (MkHttpResponse (take (N.to_nat len) rest)
              (keep_alive head && bool_decide (len = N.of_nat here)) (drop here rest)))
          else if bool_decide (ISIZE_MAX < len) then Panics
          else if bool_decide (N.to_nat len ≤ length rest)%nat then
            Finished (Ok (MkHttpResponse (take (N.to_nat len) rest) (keep_alive head) (drop (N.to_nat len) rest)))
          else at_end e (Err UnexpectedEof)
      end
  end.
Proof.
  intros stream rest here Hf Hmax.
  destruct (read_head_found [] reads e pos Hf Hmax) as (buf & more & Hr & Heq & Hlen & Har).
  simpl in Heq, Har. fold stream in Heq. rewrite Nat.sub_0_r in Har. unfold read_response. rewrite Hr.
  assert (take pos stream = take pos buf) as -> by (rewrite <-Heq, take_app_le by lia; done).
  assert (rest = drop (pos + 4) buf ++ concat more) as Hrest.
  { subst rest. rewrite <-Heq. by rewrite drop_app_le by lia. }
  destruct (parse_response_head (take pos buf)) as [head|err]; [|done].
  assert (length (drop (pos + 4) buf) = here) as Hhere by (rewrite length_drop; subst here; lia).
  set (buffered := drop (pos + 4) buf) in *. clearbody rest here. unfold read_body, read_exact, read_to_end.
  rewrite Hrest, Hhere. destruct (content_length head) as [len|]; [|by destruct e].
  destruct (decide (len ≤ N.of_nat here)) as [Hle|Hgt].
  - rewrite (bool_decide_eq_true_2 (len ≤ _)), (bool_decide_eq_false_2 (_ < len)) by lia.
    rewrite take_app_le, drop_app_length' by lia. do 4 f_equal. apply bool_decide_ext. lia.
  - rewrite (bool_decide_eq_false_2 (len ≤ _)), (bool_decide_eq_true_2 (_ < len)) by lia.
    case_bool_decide; [done|]. rewrite length_app, Hhere.
    destruct (decide (N.to_nat len ≤ here + length (concat more))%nat) as [Hk|Hk].
    + rewrite !bool_decide_eq_true_2 by lia. rewrite take_app_ge, drop_app_ge, Hhere by lia. done.
    + rewrite !bool_decide_eq_false_2 by lia. by destruct e.
Qed.

Definition ok_response : str :=
  lit "HTTP/1.1 200 OK" ++ CRLF ++ lit "Content-Length: 5" ++ HEAD_END ++ lit "helloHTTP/1.1 503".

(** The same bytes, the end of the body in a read of its own or not; and a
    length nobody can send. *)
Definition cut_reads : list str := [take 20 ok_response; take 23 (drop 20 ok_response); drop 43 ok_response].
Definition huge_response : str :=
  lit "HTTP/1.1 200 OK" ++ CRLF ++ lit "Content-Length: 9223372036854775808" ++ HEAD_END.
Example framing_exact_witness :
  read_response cut_reads Stalls = Finished (Ok (MkHttpResponse (lit "hello") true (lit "HTTP/1.1 503"))) ∧
  read_response [ok_response] Stalls = Finished (Ok (MkHttpResponse (lit "hello") false [])) ∧
  read_response [huge_response] Eof = Panics.
Proof.
  split; [|split].
  - rewrite (framing_exact cut_reads Stalls 34); vm_compute; [reflexivity|reflexivity|lia].
  - rewrite (framing_exact [ok_response] Stalls 34); vm_compute; [reflexivity|reflexivity|lia].
  - rewrite (framing_exact [huge_response] Eof 52); vm_compute; [reflexivity|reflexivity|lia].
Defined.

(** The cases of the source's unit test. *)
Example parse_response_head_cases :
  parse_response_head (lit "HTTP/1.1 200 OK" ++ CRLF ++ lit "content-length: 5") = Ok (MkResponseHead (Some 5) true) ∧
  parse_response_head (lit "HTTP/1.1 200 OK" ++ CRLF ++ lit "x: y") = Ok (MkResponseHead None true) ∧
  parse_response_head (lit "HTTP/1.1 200 OK" ++ CRLF ++ lit "Connection: close") = Ok (MkResponseHead None false) ∧
  parse_response_head (lit "HTTP/1.1 503 Service Unavailable") = Err InvalidData ∧
  parse_response_head (lit "HTTP/1.1 200 OK" ++ CRLF ++ lit "Transfer-Encoding: chunked") = Err InvalidData ∧
  parse_response_head (lit "HTTP/1.1 200 OK" ++ CRLF ++ lit "Content-Length: nope") = Err InvalidData ∧
  parse_response_head (lit "garbage") = Err InvalidData.
Proof. vm_compute. done. Qed.

(** ** The connection pool

    Connections are named by numbers; the pool is keyed by address. *)
Abbreviation Conn := N (only parsing).

Record HttpTransport := MkHttpTransport {
  t_id : NodeId;
  t_peers : gmap N string;
  t_pool : gmap string (list Conn);
  t_rpc_timeout : N;
}.

Definition HttpTransport_new (id : NodeId) (peers : gmap N string) (rpc_timeout : N) : HttpTransport :=
  MkHttpTransport id peers ∅ rpc_timeout.

Definition set_pool (p : gmap string (list Conn)) (t : HttpTransport) : HttpTransport :=
  MkHttpTransport (t_id t) (t_peers t) p (t_rpc_timeout t).

(** Is the address in the book? *)
Definition in_book (peers : gmap N string) (addr : string) : Prop :=
  Exists (λ x, x.2 = addr) (map_to_list peers).

Definition set_peers (peers : gmap N string) (t : HttpTransport) : HttpTransport :=
  MkHttpTransport (t_id t) peers (filter (λ x, in_book peers x.1) (t_pool t)) (t_rpc_timeout t).

(** [Vec::pop] takes the last. *)
Definition checkout (addr : string) (t : HttpTransport) : option Conn * HttpTransport :=
  match t_pool t !! addr with
  | Some idle =>
      match last idle with
      | Some c => (Some c, set_pool (<[addr := take (length idle - 1) idle]> (t_pool t)) t)
      | None => (None, t)
      end
  | None => (None, t)
  end.

Definition checkin (addr : string) (c : Conn) (t : HttpTransport) : HttpTransport :=
  let idle := default [] (t_pool t !! addr) in
  set_pool (<[addr := if bool_decide (length idle < MAX_IDLE_PER_PEER)%nat then idle ++ [c] else idle]>
    (t_pool t)) t.

(** What the network does for one POST: how an exchange over a given
    connection ends, and what connecting gives. [None] never completes: the
    peer stalls, or the task panics. *)
Record Network := MkNetwork {
  exchange_on : Conn → option (Result HttpResponse IoError);
  connect : option (Result Conn IoError);
}.

(** A POST: the transport afterwards, the connections a request was written
    on, and the result; a result that never comes is [None], and the
    connection in use is dropped with the future that owns it. *)
Definition fresh_attempt (addr : string) (net : Network) (used : list Conn) (t : HttpTransport)
    : HttpTransport * list Conn * option (Result str IoError) :=
  match connect net with
  | None => (t, used, None)
  | Some (Err e) => (t, used, Some (Err e))
  | Some (Ok c) =>
      match exchange_on net c with
      | None => (t, used ++ [c], None)
      | Some (Err e) => (t, used ++ [c], Some (Err e))
      | Some (Ok resp) =>
          (if reusable resp then checkin addr c t else t, used ++ [c], Some (Ok (response_body resp)))
      end
  end.

Definition post_json (addr : string) (net : Network) (t : HttpTransport)
    : HttpTransport * list Conn * option (Result str IoError) :=
  match checkout addr t with
  | (None, t) => fresh_attempt addr net [] t
  | (Some c, t) =>
      match exchange_on net c with
      | None => (t, [c], None)
      | Some (Ok resp) =>
          (if reusable resp then checkin addr c t else t, [c], Some (Ok (response_body resp)))
      | Some (Err _) => fresh_attempt addr net [c] t
      end
  end.

(** ** Sending and serving RPCs *)
Class RpcCodec `{J : SerdeJson} := {
  envelope_to_vec : NodeId → RpcRequest → str;
  envelope_from_slice : str → option (NodeId * RpcRequest);
  response_to_vec : RpcResponse → str;
  response_from_slice : str → option RpcResponse;
}.

Section rpc.
Context `{C : RpcCodec}.

(** [in_time]: the POST completes within [rpc_timeout]. One that does not is
    dropped at an await, which is before its check-in (the check-in is the
    last thing it does), so all that is left of it is the check-out. *)
Definition send (to : NodeId) (net : Network) (in_time : bool) (t : HttpTransport)
    : HttpTransport * Result RpcResponse TransportError :=
  match t_peers t !! to with
  | None => (t, Err (Unreachable to))
  | Some addr =>
      if in_time then
        let '(t, _, r) := post_json addr net t in
        (t, match r with
            | Some (Ok raw) =>
                match response_from_slice raw with Some resp => Ok resp | None => Err Timeout end
            | _ => Err Timeout
            end)
      else (snd (checkout addr t), Err Timeout)
  end.

(** The server side: the status, and the body of a [200]. [deliver] is the
    Raft core: [None] if it is gone, else its answer, if it gives one. *)
Definition handle_raft_rpc (body : str) (deliver : NodeId → RpcRequest → option (option RpcResponse))
    : N * str :=
  match envelope_from_slice body with
  | None => (400, [])
  | Some (from, request) =>
      match deliver from request with
      | None => (503, [])
      | Some None => (503, [])
      | Some (Some response) => (200, response_to_vec response)
      end
  end.
End rpc.

(** ** The pool under concurrent RPCs

    Any number of RPCs and address-book updates interleave, each pool
    operation being one critical section. [held] are the connections that
    RPCs in flight own. *)
Inductive pool_step : HttpTransport * gset N → HttpTransport * gset N → Prop :=
| pool_checkout t held addr c t' :
    checkout addr t = (Some c, t') → pool_step (t, held) (t', {[c]} ∪ held)
| pool_connect t held c :
    c ∉ held → (∀ addr idle, t_pool t !! addr = Some idle → c ∉ idle) →
    pool_step (t, held) (t, {[c]} ∪ held)
| pool_checkin t held addr c :
    c ∈ held → pool_step (t, held) (checkin addr c t, held ∖ {[c]})
| pool_drop t held c : pool_step (t, held) (t, held ∖ {[c]})
| pool_set_peers t held peers : pool_step (t, held) (set_peers peers t, held).

Record pool_ok (x : HttpTransport * gset N) : Prop := {
  po_bound addr idle : t_pool x.1 !! addr = Some idle → (length idle ≤ MAX_IDLE_PER_PEER)%nat;
  po_nodup addr idle : t_pool x.1 !! addr = Some idle → NoDup idle;
  po_one addr addr' idle idle' c : t_pool x.1 !! addr = Some idle → t_pool x.1 !! addr' = Some idle' →
    c ∈ idle → c ∈ idle' → addr = addr';
  po_held addr idle c : t_pool x.1 !! addr = Some idle → c ∈ idle → c ∉ x.2;
}.

(** A pool whose lists are parts of the old ones stays in order. *)
Lemma pool_ok_shrink t held t' held' :
  pool_ok (t, held) → held' ⊆ held →
  (∀ addr idle', t_pool t' !! addr = Some idle' → ∃ idle, t_pool t !! addr = Some idle ∧ idle' `sublist_of` idle) →
  pool_ok (t', held').
Proof.
  intros [Hb Hn Ho Hh] Hsub Hp. simpl in *.
  split; simpl.
  - intros addr idle' (idle & Hi & Hs)%Hp. etrans; [by apply sublist_length|by eapply Hb].
  - intros addr idle' (idle & Hi & Hs)%Hp. eapply sublist_NoDup; [|done]. by eapply Hn.
  - intros addr addr' i1 i2 c (k1 & H1 & S1)%Hp (k2 & H2 & S2)%Hp C1 C2. eapply Ho; eauto using elem_of_sublist.
  - intros addr idle' c (idle & Hi & Hs)%Hp Hc Hheld. eapply Hh; eauto using elem_of_sublist.
Qed.

Lemma checkout_pool addr t c t' :
  checkout addr t = (Some c, t') →
  ∃ idle, t_pool t !! addr = Some (idle ++ [c]) ∧ t_pool t' = <[addr := idle]> (t_pool t).
Proof.
  unfold checkout. destruct (t_pool t !! addr) as [l|] eqn:Hl; [|done].
  destruct (last l) as [c'|] eqn:Hc; [|done]. intros [= -> <-].
  apply last_Some in Hc as [idle ->]. exists idle. split; [done|]. simpl.
  rewrite length_app. simpl. replace (length idle + 1 - 1)%nat with (length idle) by lia.
  by rewrite take_app_length.
Qed.

(** Adding a connection nobody else has to an address's list. *)
Lemma pool_ok_push t held addr c idle :
  pool_ok (t, held) → (∀ a i, t_pool t !! a = Some i → c ∉ i) → c ∉ held →
  (length idle < MAX_IDLE_PER_PEER)%nat → NoDup idle →
  (∀ d, d ∈ idle → t_pool t !! addr = Some idle) →
  pool_ok (set_pool (<[addr := idle ++ [c]]> (t_pool t)) t, held).
Proof.
  intros [Hb Hn Ho Hh] Hfresh Hc Hlen Hnd Hidle. simpl in *. split; simpl; setoid_rewrite lookup_insert_Some.
  - intros a i [[<- <-]|[_ Hi]]; [|by eapply Hb]. rewrite length_app. simpl. lia.
  - intros a i [[<- <-]|[_ Hi]]; [|by eapply Hn]. apply NoDup_app. split; [done|].
    split; [|apply NoDup_singleton]. intros d Hd ->%list_elem_of_singleton. by eapply Hfresh; [eapply Hidle|].
  - intros a a' i i' d [[<- <-]|[Ha Hi]] [[<- <-]|[Ha' Hi']]; rewrite ?elem_of_app, ?list_elem_of_singleton; try done.
    + intros [Hd| ->] Hd'; [by eapply Ho; [eapply Hidle|..]|]. by destruct (Hfresh _ _ Hi').
    + intros Hd [Hd'| ->]; [by eapply Ho; [|eapply Hidle|..]|]. by destruct (Hfresh _ _ Hi).
    + intros Hd Hd'. by eapply Ho.
  - intros a i d [[<- <-]|[_ Hi]]; rewrite ?elem_of_app, ?list_elem_of_singleton; [|by eapply Hh].
    intros [Hd| ->]; [by eapply Hh; [eapply Hidle|]|done].
Qed.

Lemma checkin_ok t held addr c :
  pool_ok (t, held) → c ∈ held → pool_ok (checkin addr c t, held ∖ {[c]}).
Proof.
  intros Hx Hc. assert (pool_ok (t, held ∖ {[c]})) as Hx'
    by (eapply pool_ok_shrink; [exact Hx|set_solver|eauto]).
  unfold checkin. case_bool_decide as Hlen.
  - apply pool_ok_push; [done| |set_solver|done|..].
    + intros a i Hi Hin. by eapply (po_held _ Hx).
    + destruct (t_pool t !! addr) as [idle|] eqn:Hi; [by eapply (po_nodup _ Hx)|by apply NoDup_nil_2].
    + intros d. destruct (t_pool t !! addr) as [idle|]; [done|]. by intros ?%elem_of_nil.
  - eapply (pool_ok_shrink t); [exact Hx'|done|]. intros a i'. simpl. rewrite lookup_insert_Some.
    intros [[<- <-]|[_ Hi]]; [|by eauto]. destruct (t_pool t !! addr) as [idle|]; simpl in *; [by eauto|].
    unfold MAX_IDLE_PER_PEER in Hlen. lia.
Qed.

Lemma checkout_ok t held addr c t' :
  pool_ok (t, held) → checkout addr t = (Some c, t') → pool_ok (t', {[c]} ∪ held).
Proof.
  intros Hx (idle & Hl & Hp)%checkout_pool.
  pose proof (po_nodup _ Hx addr _ Hl) as Hnd. apply NoDup_app in Hnd as (_ & Hnc & _).
  assert (pool_ok (t', held)) as [Hb Hn Ho Hh].
  { eapply (pool_ok_shrink t held); [done|done|]. intros a i'. rewrite Hp, lookup_insert_Some.
    intros [[<- <-]|[_ Hi]]; [|by eauto]. eexists. split; [done|]. by apply sublist_inserts_r. }
  split; try done. simpl. intros a i d Hi Hd. rewrite elem_of_union, elem_of_singleton.
  intros [->|Hin]; [|by eapply Hh]. simpl in *. rewrite Hp, lookup_insert_Some in Hi.
  destruct Hi as [[<- <-]|[Hne Hi]].
  - apply (Hnc c Hd). left.
  - apply Hne. eapply (po_one _ Hx); [exact Hl|exact Hi| |exact Hd]. apply elem_of_app. right. left.
Qed.

Lemma pool_step_ok x y : pool_ok x → pool_step x y → pool_ok y.
Proof.
  intros Hx Hstep. destruct Hstep as [t held addr c t' Hc|t held c Hc Hp|t held addr c Hc|t held c|t held peers].
  - by eapply checkout_ok.
  - destruct Hx as [Hb Hn Ho Hh]. split; try done. simpl. intros a i d Hi Hd.
    rewrite elem_of_union, elem_of_singleton. intros [->|Hin]; [by eapply Hp|by eapply Hh].
  - by apply checkin_ok.
  - eapply pool_ok_shrink; [done|set_solver|]. eauto.
  - eapply pool_ok_shrink; [done|set_solver|]. simpl. intros a i [Hi _]%map_lookup_filter_Some. eauto.
Qed.

(** [C36] Connections are exclusive. However RPCs, their timeouts and updates of
    the address book interleave, an address never has more than four idle
    connections, no connection is in the pool twice, and none that an RPC in
    flight owns is in the pool, so two RPCs never share a stream. *)
Theorem pool_exclusive id peers limit t held :
  rtc pool_step (HttpTransport_new id peers limit, ∅) (t, held) → pool_ok (t, held).
Proof.
  assert (pool_ok (HttpTransport_new id peers limit, ∅)) as H0.
  { split; simpl; intros *; by rewrite lookup_empty. }
  intros Hrun. revert H0. generalize (t, held) as y, Hrun.
  generalize (HttpTransport_new id peers limit, ∅ : gset N) as x. clear Hrun.
  induction 1 as [x|x y z Hxy _ IH]; [done|]. intros Hx. apply IH. by eapply pool_step_ok.
Qed.

(** ** The retry policy *)
Lemma checkin_pool addr c t a idle d :
  t_pool (checkin addr c t) !! a = Some idle → d ∈ idle →
  (∃ idle0, t_pool t !! a = Some idle0 ∧ d ∈ idle0) ∨ (a = addr ∧ d = c).
Proof.
  unfold checkin. simpl. rewrite lookup_insert_Some. intros [[<- <-]|[_ Hi]] Hd; [|by eauto].
  assert (d ∈ default [] (t_pool t !! addr) → ∃ idle0, t_pool t !! addr = Some idle0 ∧ d ∈ idle0) as Hold.
  { destruct (t_pool t !! addr) as [i|]; [by eauto|]. by intros ?%elem_of_nil. }
  case_bool_decide; [|by left; apply Hold].
  apply elem_of_app in Hd as [?| ->%list_elem_of_singleton]; [left; by apply Hold|by right].
Qed.

(** What a POST may have added to the pool. *)
Definition pool_from (addr : string) (net : Network) (used : list N) (t t' : HttpTransport) : Prop :=
  ∀ a idle c, t_pool t' !! a = Some idle → c ∈ idle →
    (∃ idle0, t_pool t !! a = Some idle0 ∧ c ∈ idle0) ∨
    (a = addr ∧ last used = Some c ∧ ∃ resp, exchange_on net c = Some (Ok resp) ∧ reusable resp = true).

Lemma pool_from_refl addr net used t : pool_from addr net used t t.
Proof. intros a idle c Hi Hc. left. by eauto. Qed.
Lemma pool_from_checkin addr net used t c resp :
  exchange_on net c = Some (Ok resp) → last used = Some c →
  pool_from addr net used t (if reusable resp then checkin addr c t else t).
Proof.
  intros He Hl. destruct (reusable resp) eqn:Hr; [|apply pool_from_refl].
  intros a idle d Hi Hd. destruct (checkin_pool _ _ _ _ _ _ Hi Hd) as [|[-> ->]]; [by left|right]. by eauto.
Qed.

Lemma fresh_attempt_policy addr net used t t' used' r :
  fresh_attempt addr net used t = (t', used', r) →
  (used' = used ∨ ∃ c, used' = used ++ [c]) ∧
  (∀ body, r = Some (Ok body) → ∃ c resp, last used' = Some c ∧
     exchange_on net c = Some (Ok resp) ∧ response_body resp = body) ∧
  pool_from addr net used' t t'.
Proof.
  unfold fresh_attempt. destruct (connect net) as [[c|e]|].
  - destruct (exchange_on net c) as [[resp|e]|] eqn:He; intros [= <- <- <-].
    + split; [eauto|]. split; [intros body [= <-]; exists c, resp; by rewrite last_snoc|].
      apply pool_from_checkin; [done|]. apply last_snoc.
    + split; [eauto|]. split; [done|apply pool_from_refl].
    + split; [eauto|]. split; [done|apply pool_from_refl].
  - intros [= <- <- <-]. split; [by left|]. split; [done|apply pool_from_refl].
  - intros [= <- <- <-]. split; [by left|]. split; [done|apply pool_from_refl].
Qed.

(** [C40] The retry policy. A POST writes its request at most twice, and twice
    only when the first attempt was on a pooled connection and failed; what
    it returns is the body of the last attempt; and a connection enters the
    pool only under the address it was used for, after an exchange that left
    it reusable. *)
Theorem post_json_policy addr net t t' used r :
  post_json addr net t = (t', used, r) →
  (length used ≤ 2)%nat ∧
  (∀ c1 c2, used = [c1; c2] → fst (checkout addr t) = Some c1 ∧ ∃ e, exchange_on net c1 = Some (Err e)) ∧
  (∀ body, r = Some (Ok body) → ∃ c resp, last used = Some c ∧
     exchange_on net c = Some (Ok resp) ∧ response_body resp = body) ∧
  pool_from addr net used t t'.
Proof.
  unfold post_json. destruct (checkout addr t) as [[c|] t1] eqn:Hc.
  2: { assert (t1 = t) as ->.
       { unfold checkout in Hc. repeat case_match; by simplify_eq. }
       intros (Hu & Hr & Hp)%fresh_attempt_policy. split; [by destruct Hu as [->|[? ->]]; simpl; lia|].
       split; [|done]. intros c1 c2 E. destruct Hu as [->|[? ->]]; discriminate E. }
  pose proof (checkout_pool _ _ _ _ Hc) as (idle & Hl & Hp1).
  assert (∀ used, pool_from addr net used t1 t' → pool_from addr net used t t') as Hback.
  { intros u Hp a i d Hi Hd. destruct (Hp a i d Hi Hd) as [(i0 & Hi0 & Hd0)|]; [left|by right].
    rewrite Hp1, lookup_insert_Some in Hi0. destruct Hi0 as [[<- <-]|[_ Hi0]]; [|by eauto].
    eexists. split; [exact Hl|]. apply elem_of_app. by left. }
  destruct (exchange_on net c) as [[resp|e]|] eqn:He.
  - intros [= <- <- <-]. split; [simpl; lia|]. split; [done|].
    split; [intros body [= <-]; eauto|]. apply Hback. by apply pool_from_checkin.
  - intros (Hu & Hr & Hp)%fresh_attempt_policy. split; [by destruct Hu as [->|[? ->]]; simpl; lia|].
    split; [|split; [done|by apply Hback]].
    intros c1 c2 E. destruct Hu as [->|[d ->]]; simplify_eq/=. eauto.
  - intros [= <- <- <-]. split; [simpl; lia|]. split; [done|]. split; [done|].
    apply Hback, pool_from_refl.
Qed.

(** ** Concrete pools *)
Section examples.

Definition book : gmap N string := {[2 := "n2:9080"]}.
Definition transport0 : HttpTransport := HttpTransport_new 1 book (150 * 1000000).

(** Connection 10 is stale, connection 11 works. *)
Definition flaky : Network :=
  MkNetwork (λ c, if bool_decide (c = 10) then Some (Err UnexpectedEof)
                  else Some (Ok (MkHttpResponse (lit "ok") true []))) (Some (Ok 11)).
Definition with_idle : HttpTransport := checkin "n2:9080" 10 transport0.

Example post_json_policy_witness :
  ∃ t', post_json "n2:9080" flaky with_idle = (t', [10; 11], Some (Ok (lit "ok"))) ∧
    t_pool t' !! "n2:9080"%string = Some [11] ∧
    fst (checkout "n2:9080" with_idle) = Some 10 ∧ ∃ e, exchange_on flaky 10 = Some (Err e).
Proof.
  destruct (post_json "n2:9080" flaky with_idle) as [[t' used] r] eqn:E.
  pose proof (post_json_policy "n2:9080" flaky with_idle t' used r E) as (_ & Hretry & _).
  vm_compute in E. injection E as <- <- <-. eexists. split; [reflexivity|]. split; [reflexivity|].
  exact (Hretry 10 11 eq_refl).
Defined.

(** A run: connect 10, pool it, check it out, update the book. *)
Lemma sample_pool_run :
  rtc pool_step (transport0, ∅) (set_peers ∅ (snd (checkout "n2:9080" with_idle)), {[10]} ∪ (({[10]} ∪ ∅) ∖ {[10]})).
Proof.
  eapply rtc_l; [by apply (pool_connect _ _ 10); [set_solver|intros a i; simpl; by rewrite lookup_empty]|].
  eapply rtc_l; [by apply (pool_checkin _ _ "n2:9080" 10); set_solver|].
  eapply rtc_l; [by apply (pool_checkout _ _ "n2:9080" 10)|].
  eapply rtc_l; [apply (pool_set_peers _ _ ∅)|]. apply rtc_refl.
Qed.

Example pool_exclusive_witness :
  pool_ok (set_peers ∅ (snd (checkout "n2:9080" with_idle)), {[10]} ∪ (({[10]} ∪ ∅) ∖ {[10]})).
Proof. exact (pool_exclusive 1 book (150 * 1000000) _ _ sample_pool_run). Defined.

(** An address that left the book can be pooled again. An RPC that is in
    flight to a peer while the book drops its address returns its connection
    to the pool afterwards, under an address no peer has any more. *)
Theorem departed_address_pooled :
  ∃ t held, rtc pool_step (transport0, ∅) (t, held) ∧
    (∃ idle, t_pool t !! "n2:9080"%string = Some idle ∧ idle ≠ []) ∧ ¬ in_book (t_peers t) "n2:9080".
Proof.
  eexists _, _. split; [|split].
  - eapply rtc_r; [exact sample_pool_run|]. apply (pool_checkin _ _ "n2:9080" 10). set_solver.
  - eexists. split; [vm_compute; reflexivity|done].
  - unfold in_book. simpl. rewrite map_to_list_empty. by intros ?%Exists_nil.
Qed.
End examples.
