(* ===== verification/Node.v ===== *)
(** * The Raft node ([src/raft/node.rs])

    One node is one event loop that owns all consensus state. Every handler
    of the source is a program in the fail-stop monad [M RaftNode]: it reads
    and updates the node, may panic (every [expect], [assert!] and slice of
    the source), and records in [n_effects], in order, what the world can
    see: the storage it has made durable, the RPCs it spawns, the answers on
    one-shot channels, the watch updates. A crash in the middle of a handler
    is a prefix of that list.

    [Instant::now()] reads [n_now], the instant at which the loop picked the
    event up. Channels are named by numbers; a dropped sender is an effect
    of its own, since the receiver sees it. [tracing] output is not
    modelled. *)
From S2P Require Import Prelude Types Rng Storage.
Open Scope N_scope.

(** Durations and instants in nanoseconds. *)
Abbreviation Duration := N (only parsing).
Abbreviation Instant := N (only parsing).
Definition as_micros (d : Duration) : N := d / 1000.
Definition from_micros (m : N) : Duration := m * 1000.
Definition from_millis (m : N) : Duration := m * 1000000.
(** [Instant::elapsed], saturating. *)
Definition elapsed (now at_ : Instant) : Duration := now - at_.

Record RaftConfig := MkRaftConfig {
  c_id : NodeId;
  c_peers : list NodeId;
  c_election_timeout_min : Duration;
  c_election_timeout_max : Duration;
  c_heartbeat_interval : Duration;
  c_timeout_seed : N;
  c_snapshot_threshold : option N;
  c_snapshot_trailing : N;
  c_bootstrap_addrs : Membership;
  c_join : bool;
  c_test_disable_reconfig_gates : bool;
}.

Definition RaftConfig_new (id : NodeId) (peers : list NodeId) : RaftConfig :=
  MkRaftConfig id peers (from_millis 150) (from_millis 300) (from_millis 50) id None 0 ∅ false false.

Inductive RoleKind := KFollower | KPreCandidate | KCandidate | KLeader.
#[export] Instance RoleKind_eq_dec : EqDecision RoleKind.
Proof. solve_decision. Defined.

Record Status := MkStatus {
  status_id : NodeId;
  status_term : Term;
  status_role : RoleKind;
  status_leader_id : option NodeId;
  status_commit_index : LogIndex;
  status_last_log_index : LogIndex;
}.
#[export] Instance Status_eq_dec : EqDecision Status.
Proof. solve_decision. Defined.

(** The five reasons [validate_config_change] gives. *)
Inductive ConfigError :=
| NoopNotCommitted
| ChangeInFlight
| EmptyConfig
| NotSingleServer
| MajorityUnreachable.

Inductive ProposeError :=
| NotLeader (leader_hint : option NodeId)
| InvalidConfigChange (reason : ConfigError)
| Shutdown.

Record Proposal := MkProposal { prop_term : Term; prop_index : LogIndex }.

Record MembershipView := MkMembershipView { view_members : Membership; view_departing : Membership }.
#[export] Instance MembershipView_eq_dec : EqDecision MembershipView.
Proof. solve_decision. Defined.

Record PendingProposal := MkPendingProposal {
  pp_term : Term;
  pp_index : LogIndex;
  pp_committed : N;
}.

Record PendingRead := MkPendingRead {
  pr_needed_seq : N;
  pr_read_index : LogIndex;
  pr_granted : N;
}.

(** The fields of [Role::Leader]. *)
Record LeaderState := MkLeaderState {
  next_index : gmap N LogIndex;
  match_index : gmap N LogIndex;
  term_start_index : LogIndex;
  heartbeat_seq : N;
  acked_seq : gmap N N;
  last_contact : gmap N Instant;
  departing : gmap N (LogIndex * MemberAddr);
  pending_reads : list PendingRead;
}.

Inductive Role :=
| Follower
| PreCandidate (votes : gset N)
| Candidate (votes : gset N)
| Leader (l : LeaderState).

(** What the reply to an RPC is tagged with when it comes back. *)
Inductive SentTag :=
| TagPreVote (sent_term : Term)
| TagVote (sent_term : Term)
| TagAppend (sent_term : Term) (sent_prev_index : LogIndex) (sent_entries sent_seq : N)
| TagSnapshot (sent_term : Term) (last_included_index : LogIndex).

Inductive Event :=
| PreVoteReply (sent_term : Term) (from : NodeId) (result : Result RpcResponse TransportError)
| VoteReply (sent_term : Term) (from : NodeId) (result : Result RpcResponse TransportError)
| AppendReply (sent_term : Term) (from : NodeId) (sent_prev_index : LogIndex)
    (sent_entries sent_seq : N) (result : Result RpcResponse TransportError)
| InstallSnapshotReplyEv (sent_term : Term) (from : NodeId) (last_included_index : LogIndex)
    (result : Result RpcResponse TransportError).

(** The event the spawned send task posts when [transport.send] returns. *)
Definition event_of (tag : SentTag) (from : NodeId) (result : Result RpcResponse TransportError) : Event :=
  match tag with
  | TagPreVote t => PreVoteReply t from result
  | TagVote t => VoteReply t from result
  | TagAppend t prev cnt seq => AppendReply t from prev cnt seq result
  | TagSnapshot t lii => InstallSnapshotReplyEv t from lii result
  end.

Section node_data.
Context `{J : SerdeJson}.

Inductive Effect :=
| Persisted (s : Storage)
| SendRpc (to : NodeId) (req : RpcRequest) (tag : SentTag)
| ProposeReply (reply : N) (r : Result Proposal ProposeError)
| ReadReply (reply : N) (r : Result () ProposeError)
| Committed (ch : N) (ok : bool)
| ProposalDropped (ch : N)
| ReadGranted (ch : N)
| ReadDropped (ch : N)
| MembershipChanged (view : MembershipView)
| StatusChanged (status : Status).
End node_data.

Section node.
Context `{J : SerdeJson} {SM : Type} `{!StateMachine SM}.

Record RaftNode := MkRaftNode {
  n_config : RaftConfig;
  n_storage : Storage;
  n_state_machine : SM;
  n_role : Role;
  n_leader_id : option NodeId;
  n_commit_index : LogIndex;
  n_last_applied : LogIndex;
  n_pending : list PendingProposal;
  n_staged_snapshot : option (LogIndex * Value * option Membership);
  n_members : Membership;
  n_members_index : LogIndex;
  n_membership_tx : MembershipView;
  n_last_leader_contact : option Instant;
  n_election_deadline : Instant;
  n_next_heartbeat : Instant;
  n_rng : SplitMix64;
  n_status_tx : Status;
  n_now : Instant;
  n_effects : list Effect;
}.

Definition set_storage (x : Storage) (n : RaftNode) : RaftNode :=
  MkRaftNode (n_config n) x (n_state_machine n) (n_role n) (n_leader_id n)
    (n_commit_index n) (n_last_applied n) (n_pending n) (n_staged_snapshot n) (n_members n)
    (n_members_index n) (n_membership_tx n) (n_last_leader_contact n)
    (n_election_deadline n) (n_next_heartbeat n) (n_rng n) (n_status_tx n) (n_now n)
    (n_effects n).
Definition set_state_machine (x : SM) (n : RaftNode) : RaftNode :=
  MkRaftNode (n_config n) (n_storage n) x (n_role n) (n_leader_id n) (n_commit_index n)
    (n_last_applied n) (n_pending n) (n_staged_snapshot n) (n_members n) (n_members_index n)
    (n_membership_tx n) (n_last_leader_contact n) (n_election_deadline n)
    (n_next_heartbeat n) (n_rng n) (n_status_tx n) (n_now n) (n_effects n).
Definition set_role (x : Role) (n : RaftNode) : RaftNode :=
  MkRaftNode (n_config n) (n_storage n) (n_state_machine n) x (n_leader_id n)
    (n_commit_index n) (n_last_applied n) (n_pending n) (n_staged_snapshot n) (n_members n)
    (n_members_index n) (n_membership_tx n) (n_last_leader_contact n)
    (n_election_deadline n) (n_next_heartbeat n) (n_rng n) (n_status_tx n) (n_now n)
    (n_effects n).
Definition set_leader_id (x : option NodeId) (n : RaftNode) : RaftNode :=
  MkRaftNode (n_config n) (n_storage n) (n_state_machine n) (n_role n) x (n_commit_index n)
    (n_last_applied n) (n_pending n) (n_staged_snapshot n) (n_members n) (n_members_index n)
    (n_membership_tx n) (n_last_leader_contact n) (n_election_deadline n)
    (n_next_heartbeat n) (n_rng n) (n_status_tx n) (n_now n) (n_effects n).
Definition set_commit_index (x : LogIndex) (n : RaftNode) : RaftNode :=
  MkRaftNode (n_config n) (n_storage n) (n_state_machine n) (n_role n) (n_leader_id n) x
    (n_last_applied n) (n_pending n) (n_staged_snapshot n) (n_members n) (n_members_index n)
    (n_membership_tx n) (n_last_leader_contact n) (n_election_deadline n)
    (n_next_heartbeat n) (n_rng n) (n_status_tx n) (n_now n) (n_effects n).
Definition set_last_applied (x : LogIndex) (n : RaftNode) : RaftNode :=
  MkRaftNode (n_config n) (n_storage n) (n_state_machine n) (n_role n) (n_leader_id n)
    (n_commit_index n) x (n_pending n) (n_staged_snapshot n) (n_members n)
    (n_members_index n) (n_membership_tx n) (n_last_leader_contact n)
    (n_election_deadline n) (n_next_heartbeat n) (n_rng n) (n_status_tx n) (n_now n)
    (n_effects n).
Definition set_pending (x : list PendingProposal) (n : RaftNode) : RaftNode :=
  MkRaftNode (n_config n) (n_storage n) (n_state_machine n) (n_role n) (n_leader_id n)
    (n_commit_index n) (n_last_applied n) x (n_staged_snapshot n) (n_members n)
    (n_members_index n) (n_membership_tx n) (n_last_leader_contact n)
    (n_election_deadline n) (n_next_heartbeat n) (n_rng n) (n_status_tx n) (n_now n)
    (n_effects n).
Definition set_staged_snapshot (x : option (LogIndex * Value * option Membership)) (n : RaftNode) : RaftNode :=
  MkRaftNode (n_config n) (n_storage n) (n_state_machine n) (n_role n) (n_leader_id n)
    (n_commit_index n) (n_last_applied n) (n_pending n) x (n_members n) (n_members_index n)
    (n_membership_tx n) (n_last_leader_contact n) (n_election_deadline n)
    (n_next_heartbeat n) (n_rng n) (n_status_tx n) (n_now n) (n_effects n).
Definition set_members (x : Membership) (n : RaftNode) : RaftNode :=
  MkRaftNode (n_config n) (n_storage n) (n_state_machine n) (n_role n) (n_leader_id n)
    (n_commit_index n) (n_last_applied n) (n_pending n) (n_staged_snapshot n) x
    (n_members_index n) (n_membership_tx n) (n_last_leader_contact n)
    (n_election_deadline n) (n_next_heartbeat n) (n_rng n) (n_status_tx n) (n_now n)
    (n_effects n).
Definition set_members_index (x : LogIndex) (n : RaftNode) : RaftNode :=
  MkRaftNode (n_config n) (n_storage n) (n_state_machine n) (n_role n) (n_leader_id n)
    (n_commit_index n) (n_last_applied n) (n_pending n) (n_staged_snapshot n) (n_members n)
    x (n_membership_tx n) (n_last_leader_contact n) (n_election_deadline n)
    (n_next_heartbeat n) (n_rng n) (n_status_tx n) (n_now n) (n_effects n).
Definition set_membership_tx (x : MembershipView) (n : RaftNode) : RaftNode :=
  MkRaftNode (n_config n) (n_storage n) (n_state_machine n) (n_role n) (n_leader_id n)
    (n_commit_index n) (n_last_applied n) (n_pending n) (n_staged_snapshot n) (n_members n)
    (n_members_index n) x (n_last_leader_contact n) (n_election_deadline n)
    (n_next_heartbeat n) (n_rng n) (n_status_tx n) (n_now n) (n_effects n).
Definition set_last_leader_contact (x : option Instant) (n : RaftNode) : RaftNode :=
  MkRaftNode (n_config n) (n_storage n) (n_state_machine n) (n_role n) (n_leader_id n)
    (n_commit_index n) (n_last_applied n) (n_pending n) (n_staged_snapshot n) (n_members n)
    (n_members_index n) (n_membership_tx n) x (n_election_deadline n) (n_next_heartbeat n)
    (n_rng n) (n_status_tx n) (n_now n) (n_effects n).
Definition set_election_deadline (x : Instant) (n : RaftNode) : RaftNode :=
  MkRaftNode (n_config n) (n_storage n) (n_state_machine n) (n_role n) (n_leader_id n)
    (n_commit_index n) (n_last_applied n) (n_pending n) (n_staged_snapshot n) (n_members n)
    (n_members_index n) (n_membership_tx n) (n_last_leader_contact n) x (n_next_heartbeat n)
    (n_rng n) (n_status_tx n) (n_now n) (n_effects n).
Definition set_next_heartbeat (x : Instant) (n : RaftNode) : RaftNode :=
  MkRaftNode (n_config n) (n_storage n) (n_state_machine n) (n_role n) (n_leader_id n)
    (n_commit_index n) (n_last_applied n) (n_pending n) (n_staged_snapshot n) (n_members n)
    (n_members_index n) (n_membership_tx n) (n_last_leader_contact n)
    (n_election_deadline n) x (n_rng n) (n_status_tx n) (n_now n) (n_effects n).
Definition set_rng (x : SplitMix64) (n : RaftNode) : RaftNode :=
  MkRaftNode (n_config n) (n_storage n) (n_state_machine n) (n_role n) (n_leader_id n)
    (n_commit_index n) (n_last_applied n) (n_pending n) (n_staged_snapshot n) (n_members n)
    (n_members_index n) (n_membership_tx n) (n_last_leader_contact n)
    (n_election_deadline n) (n_next_heartbeat n) x (n_status_tx n) (n_now n) (n_effects n).
Definition set_status_tx (x : Status) (n : RaftNode) : RaftNode :=
  MkRaftNode (n_config n) (n_storage n) (n_state_machine n) (n_role n) (n_leader_id n)
    (n_commit_index n) (n_last_applied n) (n_pending n) (n_staged_snapshot n) (n_members n)
    (n_members_index n) (n_membership_tx n) (n_last_leader_contact n)
    (n_election_deadline n) (n_next_heartbeat n) (n_rng n) x (n_now n) (n_effects n).
Definition set_now (x : Instant) (n : RaftNode) : RaftNode :=
  MkRaftNode (n_config n) (n_storage n) (n_state_machine n) (n_role n) (n_leader_id n)
    (n_commit_index n) (n_last_applied n) (n_pending n) (n_staged_snapshot n) (n_members n)
    (n_members_index n) (n_membership_tx n) (n_last_leader_contact n)
    (n_election_deadline n) (n_next_heartbeat n) (n_rng n) (n_status_tx n) x (n_effects n).
Definition set_effects (x : list Effect) (n : RaftNode) : RaftNode :=
  MkRaftNode (n_config n) (n_storage n) (n_state_machine n) (n_role n) (n_leader_id n)
    (n_commit_index n) (n_last_applied n) (n_pending n) (n_staged_snapshot n) (n_members n)
    (n_members_index n) (n_membership_tx n) (n_last_leader_contact n)
    (n_election_deadline n) (n_next_heartbeat n) (n_rng n) (n_status_tx n) (n_now n) x.

(** ** Helpers *)
Definition cur_term (n : RaftNode) : Term := current_term (st_hard_state (n_storage n)).
Definition self (n : RaftNode) : NodeId := c_id (n_config n).

Definition is_leader (n : RaftNode) : bool :=
  match n_role n with Leader _ => true | _ => false end.

Definition role_kind (n : RaftNode) : RoleKind :=
  match n_role n with
  | Follower => KFollower
  | PreCandidate _ => KPreCandidate
  | Candidate _ => KCandidate
  | Leader _ => KLeader
  end.

Definition is_member (n : RaftNode) (id : NodeId) : bool := bool_decide (is_Some (n_members n !! id)).

Definition majority_of (ms : Membership) : nat := (size ms / 2 + 1)%nat.
Definition majority (n : RaftNode) : nat := majority_of (n_members n).

Definition peer_ids (n : RaftNode) : list NodeId :=
  filter (λ id, id ≠ self n) (btree_keys (n_members n)).

Definition replication_targets (n : RaftNode) : list NodeId :=
  peer_ids n ++ match n_role n with Leader l => btree_keys (departing l) | _ => [] end.

Definition is_departing (n : RaftNode) (peer : NodeId) : bool :=
  match n_role n with Leader l => bool_decide (is_Some (departing l !! peer)) | _ => false end.

Definition count_member_votes (n : RaftNode) (votes : gset N) : nat :=
  size (filter (λ id, is_Some (n_members n !! id)) votes).

Definition emit (e : Effect) : M RaftNode () := modify (λ n, set_effects (n_effects n ++ [e]) n).
Definition emits (es : list Effect) : M RaftNode () :=
  modify (λ n, set_effects (n_effects n ++ es) n).

Definition set_leader (l : LeaderState) : M RaftNode () := modify (set_role (Leader l)).

(** [self.storage.op(..).expect("..; fail-stop")] *)
Definition storage_op (op : Storage → Result Storage StorageError) : M RaftNode () :=
  n ← get;
  s ← expect_ok (op (n_storage n));
  modify (set_storage s) ;;
  emit (Persisted s).

Definition save_hs (hs : HardState) : M RaftNode () := storage_op (λ s, Ok (save_hard_state hs s)).

Definition draw (m : M SplitMix64 N) : M RaftNode N :=
  n ← get;
  '(x, r) ← expect (m (n_rng n));
  modify (set_rng r) ;; mret x.

Definition reset_election_timer : M RaftNode () :=
  n ← get;
  let min := as_micros (c_election_timeout_min (n_config n)) in
  let max := as_micros (c_election_timeout_max (n_config n)) in
  assert_ (bool_decide (min < u64_modulus)) ;;
  assert_ (bool_decide (max < u64_modulus)) ;;
  assert_ (bool_decide (min ≤ max)) ;;
  x ← draw (next_range min max);
  modify (set_election_deadline (n_now n + from_micros x)).

Definition status_of (n : RaftNode) : Status :=
  MkStatus (self n) (cur_term n) (role_kind n) (n_leader_id n) (n_commit_index n)
    (last_index (n_storage n)).

Definition publish_status : M RaftNode () :=
  n ← get;
  when (negb (bool_decide (n_status_tx n = status_of n)))
    (modify (set_status_tx (status_of n)) ;; emit (StatusChanged (status_of n))).

Definition view_of (n : RaftNode) : MembershipView :=
  MkMembershipView (n_members n)
    match n_role n with Leader l => snd <$> departing l | _ => ∅ end.

Definition publish_membership : M RaftNode () :=
  n ← get;
  when (negb (bool_decide (n_membership_tx n = view_of n)))
    (modify (set_membership_tx (view_of n)) ;; emit (MembershipChanged (view_of n))).
End node.
Arguments RaftNode {J} SM.

Section membership.
Context `{J : SerdeJson} {SM : Type} `{!StateMachine SM}.
Local Abbreviation RaftNode := (RaftNode SM).

(** The newest configuration in a stretch of log, with its index. *)
Definition config_of (e : LogEntry) : option (Membership * LogIndex) :=
  match e_command e with ConfigChange ms => Some (ms, e_index e) | _ => None end.
Definition latest_config (es : list LogEntry) : option (Membership * LogIndex) :=
  head (omap config_of (reverse es)).

Definition bootstrap_members (cfg : RaftConfig) : Membership :=
  foldl (λ ms id, <[id := default MemberAddr_default (c_bootstrap_addrs cfg !! id)]> ms) ∅
    (c_peers cfg ++ [c_id cfg]).

(** Latest ConfigChange in the retained log, else the snapshot's
    membership, else the bootstrap configuration. *)
Definition derive_membership (s : Storage) (cfg : RaftConfig) : Membership * LogIndex :=
  match latest_config (st_log s) with
  | Some r => r
  | None =>
      match st_snapshot s ≫= sn_membership with
      | Some ms => (ms, snapshot_index s)
      | None => if c_join cfg then (∅, 0) else (bootstrap_members cfg, 0)
      end
  end.

(** The configuration in effect at [index], for snapshot boundaries. *)
Definition membership_at (n : RaftNode) (index : LogIndex) : option Membership :=
  match latest_config (filter (λ e, e_index e ≤ index) (st_log (n_storage n))) with
  | Some (ms, _) => Some ms
  | None => st_snapshot (n_storage n) ≫= sn_membership
  end.

(** The leader's bookkeeping when a configuration takes effect: contact
    grace for new peers, departing entries for dropped ones. *)
Definition adopt_leader (n : RaftNode) (ms : Membership) (index : LogIndex) (l : LeaderState)
    : LeaderState :=
  let contact := last_contact l ∪ gset_to_gmap (n_now n) (dom ms ∖ {[self n]}) in
  let dropped := filter (λ '(id, _), id ≠ self n ∧ ms !! id = None) (n_members n) in
  let parting := ((λ a, (index, a)) <$> dropped) ∪ departing l in
  MkLeaderState (next_index l) (match_index l) (term_start_index l) (heartbeat_seq l)
    (acked_seq l) contact (filter (λ '(id, _), ms !! id = None) parting) (pending_reads l).

Definition adopt_membership (ms : Membership) (index : LogIndex) : M RaftNode () :=
  n ← get;
  match n_role n with
  | Leader l => set_leader (adopt_leader n ms index l)
  | _ => mret ()
  end ;;
  modify (set_members ms) ;;
  modify (set_members_index index) ;;
  publish_membership.

Definition rescan_membership : M RaftNode () :=
  n ← get;
  let '(ms, index) := derive_membership (n_storage n) (n_config n) in
  adopt_membership ms index.

(** ** Settling waiters *)

(** The verdict on one pending proposal. *)
Definition verdict (n : RaftNode) (p : PendingProposal) : option bool :=
  if bool_decide (term (n_storage n) (pp_index p) ≠ Some (pp_term p)) then Some false
  else if bool_decide (pp_index p ≤ n_commit_index n) then Some true
  else None.

Definition resolve_pending : M RaftNode () :=
  n ← get;
  modify (set_pending (filter (λ p, verdict n p = None) (n_pending n))) ;;
  emits (omap (λ p, Committed (pp_committed p) <$> verdict n p) (n_pending n)).

Definition acked_since (l : LeaderState) (seq : N) (id : NodeId) : bool :=
  match acked_seq l !! id with Some a => bool_decide (seq ≤ a) | None => false end.

(** Members that answered an AppendEntries sent at [seq] or later; the
    leader itself while it is a member. *)
Definition read_acks (n : RaftNode) (l : LeaderState) (seq : N) : nat :=
  ((if is_member n (self n) then 1 else 0) + count_if (acked_since l seq) (peer_ids n))%nat.

(** Confirmed by a majority, and applied. *)
Definition read_ready (n : RaftNode) (l : LeaderState) (r : PendingRead) : bool :=
  bool_decide (majority n ≤ read_acks n l (pr_needed_seq r))%nat &&
  bool_decide (pr_read_index r ≤ n_last_applied n).

Definition set_pending_reads (rs : list PendingRead) (l : LeaderState) : LeaderState :=
  MkLeaderState (next_index l) (match_index l) (term_start_index l) (heartbeat_seq l)
    (acked_seq l) (last_contact l) (departing l) rs.

Definition resolve_reads : M RaftNode () :=
  n ← get;
  match n_role n with
  | Leader l =>
      set_leader (set_pending_reads
        (filter (λ r, read_ready n l r = false) (pending_reads l)) l) ;;
      emits ((λ r, ReadGranted (pr_granted r)) <$>
             filter (λ r, read_ready n l r = true) (pending_reads l))
  | _ => mret ()
  end.

(** ** Compaction *)
Definition maybe_compact : M RaftNode () :=
  n ← get;
  match c_snapshot_threshold (n_config n) with
  | None => mret ()
  | Some threshold =>
      when (match n_staged_snapshot n with
            | Some (staged, _, _) => bool_decide (staged ≤ snapshot_index (n_storage n))
            | None => false
            end)
        (modify (set_staged_snapshot None)) ;;
      n ← get;
      when (match n_staged_snapshot n with None => true | Some _ => false end &&
            bool_decide (N.max threshold 1 ≤ n_last_applied n - snapshot_index (n_storage n)))
        (modify (set_staged_snapshot
          (Some (n_last_applied n, sm_snapshot (n_state_machine n),
                 membership_at n (n_last_applied n))))) ;;
      n ← get;
      match n_staged_snapshot n with
      | Some (staged, state, ms) =>
          when (bool_decide (c_snapshot_trailing (n_config n) ≤ n_last_applied n - staged))
            (modify (set_staged_snapshot None) ;;
             storage_op (compact_to staged state ms))
      | None => mret ()
      end
  end.

(** ** Applying committed entries *)

(** The [while last_applied < commit_index] loop; [fuel] is the number of
    iterations left and never runs out (see [apply_loop_spec]). *)
Fixpoint apply_loop (fuel : nat) : M RaftNode () :=
  match fuel with
  | O => mret ()
  | S fuel =>
      n ← get;
      if bool_decide (n_last_applied n < n_commit_index n) then
        let i := n_last_applied n + 1 in
        modify (set_last_applied i) ;;
        e ← expect (entry (n_storage n) i);
        modify (λ n, set_state_machine (sm_apply e (n_state_machine n)) n) ;;
        apply_loop fuel
      else mret ()
  end.

Definition apply_committed : M RaftNode () :=
  n ← get;
  apply_loop (N.to_nat (n_commit_index n - n_last_applied n)) ;;
  resolve_pending ;;
  resolve_reads ;;
  maybe_compact.

(** ** Stepping down *)
Definition become_follower (t : Term) (leader : option NodeId) : M RaftNode () :=
  n ← get;
  let old := st_hard_state (n_storage n) in
  assert_ (bool_decide (current_term old ≤ t)) ;;
  when (bool_decide (current_term old < t)) (save_hs (MkHardState t None)) ;;
  let had_departing :=
    match n_role n with Leader l => negb (bool_decide (departing l = ∅)) | _ => false end in
  emits match n_role n with
        | Leader l => (λ r, ReadDropped (pr_granted r)) <$> pending_reads l
        | _ => []
        end ;;
  modify (set_role Follower) ;;
  modify (set_leader_id leader) ;;
  when had_departing publish_membership ;;
  reset_election_timer.

(** ** Leader: replication *)
Definition send_install_snapshot (peer : NodeId) : M RaftNode () :=
  n ← get;
  snap ← expect (st_snapshot (n_storage n));
  emit (SendRpc peer (InstallSnapshot (MkInstallSnapshotArgs (cur_term n) (self n) snap))
          (TagSnapshot (cur_term n) (last_included_index snap))).

Definition send_append (peer : NodeId) : M RaftNode () :=
  n ← get;
  if negb (is_member n peer) && negb (is_departing n peer) then mret () else
  match n_role n with
  | Leader l =>
      let s := n_storage n in
      let next := default (last_index s + 1) (next_index l !! peer) in
      if bool_decide (next ≤ snapshot_index s) then send_install_snapshot peer
      else
        prev ← expect (checked_sub next 1);
        prev_term ← expect (term s prev);
        let es := entries_from s next in
        emit (SendRpc peer
          (AppendEntries (MkAppendEntriesArgs (cur_term n) (self n) prev prev_term es
                            (n_commit_index n)))
          (TagAppend (cur_term n) prev (N.of_nat (length es)) (heartbeat_seq l)))
  | _ => mret ()
  end.

(** The replication positions the commit rule counts. *)
Definition replicated (n : RaftNode) (l : LeaderState) : list LogIndex :=
  ((λ id, default 0 (match_index l !! id)) <$> peer_ids n) ++
  (if is_member n (self n) then [last_index (n_storage n)] else []).

Definition maybe_advance_commit : M RaftNode () :=
  n ← get;
  match n_role n with
  | Leader l =>
      let r := merge_sort (≤) (replicated n l) in
      if bool_decide (length r < majority n)%nat then mret () else
      candidate ← expect (r !! (length r - majority n)%nat);
      when (bool_decide (n_commit_index n < candidate) &&
            bool_decide (term (n_storage n) candidate = Some (cur_term n)))
        (modify (set_commit_index candidate) ;; apply_committed) ;;
      n ← get;
      when (is_leader n && negb (is_member n (self n)) &&
            bool_decide (n_members_index n ≤ n_commit_index n))
        (become_follower (cur_term n) None)
  | _ => mret ()
  end.

(** Peers heard within the CheckQuorum window, and the leader itself. *)
Definition heard_within (n : RaftNode) (l : LeaderState) (id : NodeId) : bool :=
  match last_contact l !! id with
  | Some at_ => bool_decide (elapsed (n_now n) at_ < c_election_timeout_max (n_config n))
  | None => false
  end.
Definition heard (n : RaftNode) (l : LeaderState) : nat :=
  ((if is_member n (self n) then 1 else 0) + count_if (heard_within n l) (peer_ids n))%nat.

Definition on_heartbeat_tick : M RaftNode () :=
  n ← get;
  if (match n_role n with
      | Leader l => bool_decide (heard n l < majority n)%nat
      | _ => false
      end)
  then become_follower (cur_term n) None
  else
    for_each (replication_targets n) send_append ;;
    modify (set_next_heartbeat (n_now n + c_heartbeat_interval (n_config n))).

(** ** Elections *)
Definition maybe_become_leader : M RaftNode () :=
  n ← get;
  match n_role n with
  | Candidate votes =>
      if bool_decide (count_member_votes n votes < majority n)%nat then mret () else
      let t := cur_term n in
      let next := last_index (n_storage n) + 1 in
      let peers := list_to_set (peer_ids n) : gset N in
      set_leader (MkLeaderState (gset_to_gmap next peers) (gset_to_gmap 0 peers) next 0 ∅
                    (gset_to_gmap (n_now n) peers) ∅ []) ;;
      modify (set_leader_id (Some (self n))) ;;
      storage_op (append [MkLogEntry t next Noop]) ;;
      maybe_advance_commit ;;
      on_heartbeat_tick
  | _ => mret ()
  end.

Definition vote_args (n : RaftNode) (t : Term) : RequestVoteArgs :=
  MkRequestVoteArgs t (self n) (last_index (n_storage n)) (last_term (n_storage n)).

Definition start_election : M RaftNode () :=
  n ← get;
  let t := cur_term n + 1 in
  save_hs (MkHardState t (Some (self n))) ;;
  modify (set_role (Candidate {[self n]})) ;;
  modify (set_leader_id None) ;;
  reset_election_timer ;;
  n ← get;
  emits ((λ peer, SendRpc peer (RequestVote (vote_args n t)) (TagVote t)) <$> peer_ids n) ;;
  maybe_become_leader.

Definition maybe_start_election : M RaftNode () :=
  n ← get;
  match n_role n with
  | PreCandidate votes =>
      when (bool_decide (majority n ≤ count_member_votes n votes)%nat) start_election
  | _ => mret ()
  end.

Definition on_election_timeout : M RaftNode () :=
  n ← get;
  if negb (is_member n (self n)) then reset_election_timer
  else
    let prospective := cur_term n + 1 in
    modify (set_role (PreCandidate {[self n]})) ;;
    modify (set_leader_id None) ;;
    reset_election_timer ;;
    n ← get;
    emits ((λ peer, SendRpc peer (PreVote (vote_args n prospective)) (TagPreVote prospective))
             <$> peer_ids n) ;;
    maybe_start_election.
End membership.

Section handlers.
Context `{J : SerdeJson} {SM : Type} `{!StateMachine SM}.
Local Abbreviation RaftNode := (RaftNode SM).

(** ** Client requests *)

(** A member counts as reachable if it is this node or acked at this term
    and was heard within the window. *)
Definition reachable (n : RaftNode) (l : LeaderState) (id : NodeId) : bool :=
  bool_decide (id = self n) ||
  (bool_decide (is_Some (acked_seq l !! id)) && heard_within n l id).

Definition validate_config_change (new : Membership) : M RaftNode (Result () ConfigError) :=
  n ← get;
  match n_role n with
  | Leader l =>
      let gates := negb (c_test_disable_reconfig_gates (n_config n)) in
      if gates && bool_decide (n_commit_index n < term_start_index l)
      then mret (Err NoopNotCommitted)
      else if gates && bool_decide (n_commit_index n < n_members_index n)
      then mret (Err ChangeInFlight)
      else if bool_decide (new = ∅) then mret (Err EmptyConfig)
      else
        let added := count_if (λ id, negb (is_member n id)) (btree_keys new) in
        let removed := count_if (λ id, bool_decide (new !! id = None)) (btree_keys (n_members n)) in
        if bool_decide (added + removed ≠ 1)%nat then mret (Err NotSingleServer)
        else if bool_decide (count_if (reachable n l) (btree_keys new) < majority_of new)%nat
        then mret (Err MajorityUnreachable)
        else mret (Ok ())
  | _ => panic
  end.

(** The new membership a command carries, once validated. *)
Definition check_command (command : Command) : M RaftNode (Result (option Membership) ConfigError) :=
  match command with
  | ConfigChange ms =>
      r ← validate_config_change ms;
      match r with Ok _ => mret (Ok (Some ms)) | Err e => mret (Err e) end
  | _ => mret (Ok None)
  end.

Definition handle_propose (command : Command) (reply : N) : M RaftNode () :=
  n ← get;
  if negb (is_leader n) then
    emit (ProposeReply reply (Err (NotLeader (n_leader_id n))))
  else
    checked ← check_command command;
    match checked with
    | Err reason => emit (ProposeReply reply (Err (InvalidConfigChange reason)))
    | Ok new_membership =>
        let t := cur_term n in
        let index := last_index (n_storage n) + 1 in
        storage_op (append [MkLogEntry t index command]) ;;
        match new_membership with
        | Some ms => adopt_membership ms index
        | None => mret ()
        end ;;
        modify (λ n, set_pending (n_pending n ++ [MkPendingProposal t index reply]) n) ;;
        emit (ProposeReply reply (Ok (MkProposal t index))) ;;
        maybe_advance_commit ;;
        n ← get;
        for_each (replication_targets n) send_append
    end.

Definition handle_read (reply : N) : M RaftNode () :=
  n ← get;
  match n_role n with
  | Leader l =>
      let read_index := N.max (n_commit_index n) (term_start_index l) in
      let seq := heartbeat_seq l + 1 in
      set_leader (MkLeaderState (next_index l) (match_index l) (term_start_index l) seq
        (acked_seq l) (last_contact l) (departing l)
        (pending_reads l ++ [MkPendingRead seq read_index reply])) ;;
      emit (ReadReply reply (Ok ())) ;;
      n ← get;
      for_each (peer_ids n) send_append ;;
      resolve_reads
  | _ => emit (ReadReply reply (Err (NotLeader (n_leader_id n))))
  end.

(** ** Inbound RPCs *)

(** Lexicographic [>=] on (last term, last index). *)
Definition log_up_to_date (n : RaftNode) (args : RequestVoteArgs) : bool :=
  let lt := last_term (n_storage n) in
  let li := last_index (n_storage n) in
  bool_decide (lt < rv_last_log_term args) ||
  (bool_decide (rv_last_log_term args = lt) && bool_decide (li ≤ rv_last_log_index args)).

Definition handle_request_vote (args : RequestVoteArgs) : M RaftNode RequestVoteReply :=
  n ← get;
  when (bool_decide (cur_term n < rv_term args)) (become_follower (rv_term args) None) ;;
  n ← get;
  let t := cur_term n in
  if bool_decide (rv_term args < t) then mret (MkRequestVoteReply t false) else
  let voted := voted_for (st_hard_state (n_storage n)) in
  let can_vote := bool_decide (voted = None) || bool_decide (voted = Some (rv_candidate_id args)) in
  if can_vote && log_up_to_date n args then
    save_hs (MkHardState t (Some (rv_candidate_id args))) ;;
    reset_election_timer ;;
    mret (MkRequestVoteReply t true)
  else mret (MkRequestVoteReply t false).

Definition leader_is_live (n : RaftNode) : bool :=
  is_leader n ||
  match n_last_leader_contact n with
  | Some at_ => bool_decide (elapsed (n_now n) at_ < c_election_timeout_min (n_config n))
  | None => false
  end.

Definition handle_pre_vote (args : RequestVoteArgs) : M RaftNode RequestVoteReply :=
  n ← get;
  let t := cur_term n in
  let grant := bool_decide (t < rv_term args) && log_up_to_date n args && negb (leader_is_live n) in
  mret (MkRequestVoteReply t grant).

Definition handle_install_snapshot (args : InstallSnapshotArgs) : M RaftNode InstallSnapshotReply :=
  n ← get;
  if bool_decide (is_term args < cur_term n) then mret (MkInstallSnapshotReply (cur_term n)) else
  become_follower (is_term args) (Some (is_leader_id args)) ;;
  modify (λ n, set_last_leader_contact (Some (n_now n)) n) ;;
  n ← get;
  let t := cur_term n in
  let boundary := last_included_index (is_snapshot args) in
  if bool_decide (boundary ≤ n_commit_index n) then mret (MkInstallSnapshotReply t) else
  storage_op (install_snapshot (is_snapshot args)) ;;
  sm ← expect (sm_restore (sn_state (is_snapshot args)) (n_state_machine n));
  modify (set_state_machine sm) ;;
  modify (set_commit_index boundary) ;;
  modify (set_last_applied boundary) ;;
  rescan_membership ;;
  n ← get;
  modify (set_pending (filter (λ p, boundary < pp_index p) (n_pending n))) ;;
  emits ((λ p, ProposalDropped (pp_committed p)) <$>
         filter (λ p, pp_index p ≤ boundary) (n_pending n)) ;;
  resolve_pending ;;
  mret (MkInstallSnapshotReply t).

(** The walk over the shipped entries: skip what is held, cut at the first
    conflict. Returns where to append from, and whether the in-effect
    configuration was cut off. *)
Fixpoint walk_entries (es : list LogEntry) : M RaftNode (option LogIndex * bool) :=
  match es with
  | [] => mret (None, false)
  | e :: es =>
      n ← get;
      if bool_decide (e_index e ≤ snapshot_index (n_storage n)) then walk_entries es else
      match term (n_storage n) (e_index e) with
      | Some existing =>
          if bool_decide (existing = e_term e) then walk_entries es
          else
            assert_ (bool_decide (n_commit_index n < e_index e)) ;;
            storage_op (truncate_from (e_index e)) ;;
            resolve_pending ;;
            mret (Some (e_index e), bool_decide (e_index e ≤ n_members_index n))
      | None => mret (Some (e_index e), false)
      end
  end.

Definition prev_matches (n : RaftNode) (args : AppendEntriesArgs) : bool :=
  match term (n_storage n) (ae_prev_log_index args) with
  | Some t => bool_decide (t = ae_prev_log_term args)
  | None => bool_decide (ae_prev_log_index args < snapshot_index (n_storage n))
  end.

(** [&args.entries[offset..]] for the offset of global index [first]. *)
Definition batch_from (args : AppendEntriesArgs) (first : LogIndex) : option (list LogEntry) :=
  offset ← checked_sub first (ae_prev_log_index args + 1);
  if bool_decide (offset ≤ N.of_nat (length (ae_entries args)))
  then Some (drop (N.to_nat offset) (ae_entries args)) else None.

(** The append half of AppendEntries, after the consistency check. *)
Definition accept_entries (args : AppendEntriesArgs) : M RaftNode () :=
  '(append_from, truncated) ← walk_entries (ae_entries args);
  when truncated rescan_membership ;;
  match append_from with
  | Some first =>
      batch ← expect (batch_from args first);
      storage_op (append batch) ;;
      match latest_config batch with
      | Some (ms, index) => adopt_membership ms index
      | None => mret ()
      end
  | None => mret ()
  end.

Definition handle_append_entries (args : AppendEntriesArgs) : M RaftNode AppendEntriesReply :=
  n ← get;
  if bool_decide (ae_term args < cur_term n)
  then mret (MkAppendEntriesReply (cur_term n) false) else
  become_follower (ae_term args) (Some (ae_leader_id args)) ;;
  modify (λ n, set_last_leader_contact (Some (n_now n)) n) ;;
  n ← get;
  let t := cur_term n in
  if negb (prev_matches n args) then mret (MkAppendEntriesReply t false) else
  accept_entries args ;;
  n ← get;
  let last_verified := ae_prev_log_index args + N.of_nat (length (ae_entries args)) in
  let new_commit := N.min (ae_leader_commit args) last_verified in
  when (bool_decide (n_commit_index n < new_commit))
    (modify (set_commit_index new_commit) ;; apply_committed) ;;
  mret (MkAppendEntriesReply t true).

Definition handle_inbound (req : RpcRequest) : M RaftNode RpcResponse :=
  match req with
  | RequestVote args => r ← handle_request_vote args; mret (RequestVoteResp r)
  | AppendEntries args => r ← handle_append_entries args; mret (AppendEntriesResp r)
  | PreVote args => r ← handle_pre_vote args; mret (PreVoteResp r)
  | InstallSnapshot args => r ← handle_install_snapshot args; mret (InstallSnapshotResp r)
  end.

(** ** Replies to outbound RPCs *)
Definition on_pre_vote_reply (sent_term : Term) (from : NodeId) (reply : RequestVoteReply)
    : M RaftNode () :=
  n ← get;
  if bool_decide (cur_term n < rvr_term reply) then become_follower (rvr_term reply) None
  else if bool_decide (sent_term ≠ cur_term n + 1) || negb (rvr_vote_granted reply) then mret ()
  else match n_role n with
       | PreCandidate votes =>
           modify (set_role (PreCandidate ({[from]} ∪ votes))) ;; maybe_start_election
       | _ => mret ()
       end.

Definition on_vote_reply (sent_term : Term) (from : NodeId) (reply : RequestVoteReply)
    : M RaftNode () :=
  n ← get;
  if bool_decide (cur_term n < rvr_term reply) then become_follower (rvr_term reply) None
  else if bool_decide (sent_term ≠ cur_term n) || negb (rvr_vote_granted reply) then mret ()
  else match n_role n with
       | Candidate votes =>
           modify (set_role (Candidate ({[from]} ∪ votes))) ;; maybe_become_leader
       | _ => mret ()
       end.

(** The leader's bookkeeping on a reply at its term: acknowledgement and
    contact, then progress or backtracking. Returns the updated state,
    whether to resend and whether a departing peer is done. *)
Definition note_append_reply (n : RaftNode) (l : LeaderState) (from : NodeId)
    (sent_prev_index : LogIndex) (sent_entries sent_seq : N) (success : bool)
    : LeaderState * bool * bool :=
  let acked := <[from := N.max (default 0 (acked_seq l !! from)) sent_seq]> (acked_seq l) in
  let contact := <[from := n_now n]> (last_contact l) in
  let mk nx mt dep := MkLeaderState nx mt (term_start_index l) (heartbeat_seq l) acked contact
                        dep (pending_reads l) in
  if success then
    let confirmed := sent_prev_index + sent_entries in
    let matched := default 0 (match_index l !! from) in
    let advanced := bool_decide (matched < confirmed) in
    let held := if advanced then confirmed else matched in
    let mt := <[from := held]> (match_index l) in
    let nx := if advanced then <[from := confirmed + 1]> (next_index l) else next_index l in
    let resend := advanced && bool_decide (confirmed < last_index (n_storage n)) in
    let departed := match departing l !! from with
                    | Some (removal_index, _) => bool_decide (removal_index ≤ held)
                    | None => false
                    end in
    if departed then (mk nx mt (delete from (departing l)), false, true)
    else (mk nx mt (departing l), resend, false)
  else
    let next := default 1 (next_index l !! from) in
    (mk (<[from := N.min next (N.max sent_prev_index 1)]> (next_index l)) (match_index l)
        (departing l), true, false).

Definition on_append_reply (sent_term : Term) (from : NodeId) (sent_prev_index : LogIndex)
    (sent_entries sent_seq : N) (reply : AppendEntriesReply) : M RaftNode () :=
  n ← get;
  if bool_decide (cur_term n < aer_term reply) then become_follower (aer_term reply) None
  else if bool_decide (sent_term ≠ cur_term n) then mret ()
  else match n_role n with
       | Leader l =>
           let '(l', resend, departed) :=
             note_append_reply n l from sent_prev_index sent_entries sent_seq (aer_success reply) in
           set_leader l' ;;
           when departed publish_membership ;;
           when (aer_success reply) maybe_advance_commit ;;
           when resend (send_append from) ;;
           resolve_reads
       | _ => mret ()
       end.

Definition note_snapshot_reply (n : RaftNode) (l : LeaderState) (from : NodeId) (lii : LogIndex)
    : LeaderState * bool :=
  let contact := <[from := n_now n]> (last_contact l) in
  let mt := <[from := N.max (default 0 (match_index l !! from)) lii]> (match_index l) in
  let nx := <[from := N.max (default 1 (next_index l !! from)) (lii + 1)]> (next_index l) in
  let departed := match departing l !! from with
                  | Some (removal_index, _) => bool_decide (removal_index ≤ lii)
                  | None => false
                  end in
  (MkLeaderState nx mt (term_start_index l) (heartbeat_seq l) (acked_seq l) contact
     (if departed then delete from (departing l) else departing l) (pending_reads l), departed).

Definition on_snapshot_reply (sent_term : Term) (from : NodeId) (lii : LogIndex)
    (reply : InstallSnapshotReply) : M RaftNode () :=
  n ← get;
  if bool_decide (cur_term n < isr_term reply) then become_follower (isr_term reply) None
  else if bool_decide (sent_term ≠ cur_term n) then mret ()
  else match n_role n with
       | Leader l =>
           let '(l', departed) := note_snapshot_reply n l from lii in
           let last := last_index (n_storage n) in
           set_leader l' ;;
           when departed publish_membership ;;
           maybe_advance_commit ;;
           when (bool_decide (lii < last)) (send_append from)
       | _ => mret ()
       end.

(** A transport error or a reply of the wrong kind is ignored. *)
Definition handle_event (ev : Event) : M RaftNode () :=
  match ev with
  | PreVoteReply t from (Ok (PreVoteResp reply)) => on_pre_vote_reply t from reply
  | VoteReply t from (Ok (RequestVoteResp reply)) => on_vote_reply t from reply
  | AppendReply t from prev cnt seq (Ok (AppendEntriesResp reply)) =>
      on_append_reply t from prev cnt seq reply
  | InstallSnapshotReplyEv t from lii (Ok (InstallSnapshotResp reply)) =>
      on_snapshot_reply t from lii reply
  | _ => mret ()
  end.

(** ** Boot and the event loop *)
Definition initial_status (cfg : RaftConfig) (s : Storage) : Status :=
  MkStatus (c_id cfg) (current_term (st_hard_state s)) KFollower None (snapshot_index s)
    (last_index s).

(** [RaftNode::spawn] up to the first loop iteration; [None] is the panic
    on a malformed snapshot payload (or a bad timer configuration). *)
Definition spawn (cfg : RaftConfig) (s : Storage) (sm : SM) (t0 : Instant) : option RaftNode :=
  sm ← match st_snapshot s with
       | Some snap => sm_restore (sn_state snap) sm
       | None => Some sm
       end;
  let '(ms, mi) := derive_membership s cfg in
  let n := MkRaftNode cfg s sm Follower None (snapshot_index s) (snapshot_index s) [] None ms mi
             (MkMembershipView ms ∅) None t0 t0 (rng_new (c_timeout_seed cfg))
             (initial_status cfg s) t0 [] in
  snd <$> reset_election_timer n.

(** What one iteration of the loop can pick up: a control message
    ([Control::Propose], [Control::Read]; [Control::Shutdown] ends the loop
    and is not an iteration), a timer, an inbound RPC, or a reply. *)
Inductive LoopInput :=
| InPropose (command : Command) (reply : N)
| InRead (reply : N)
| InElectionTimeout
| InHeartbeat
| InRpc (from : NodeId) (req : RpcRequest)
| InEvent (ev : Event).

(** The [select!] preconditions. *)
Definition enabled (t : Instant) (i : LoopInput) (n : RaftNode) : bool :=
  match i with
  | InElectionTimeout => negb (is_leader n) && bool_decide (n_election_deadline n ≤ t)
  | InHeartbeat => is_leader n && bool_decide (n_next_heartbeat n ≤ t)
  | _ => true
  end.

Definition dispatch (i : LoopInput) : M RaftNode (option RpcResponse) :=
  match i with
  | InPropose command reply => handle_propose command reply ;; mret None
  | InRead reply => handle_read reply ;; mret None
  | InElectionTimeout => on_election_timeout ;; mret None
  | InHeartbeat => on_heartbeat_tick ;; mret None
  | InRpc _ req => r ← handle_inbound req; mret (Some r)
  | InEvent ev => handle_event ev ;; mret None
  end.

(** One iteration: publish the status, wait until [t], handle one input. *)
Definition loop_step (t : Instant) (i : LoopInput) : M RaftNode (option RpcResponse) :=
  publish_status ;;
  modify (set_now t) ;;
  dispatch i.
End handlers.
