(* ===== verification/NodeSteps.v ===== *)
(** * How one node evolves

    Facts about every handler of [Node] that need no assumption on the input
    or on the state: whatever a peer or client sends, a node's durable term
    never decreases, it never changes its vote within a term, its commit
    index never decreases, and what it has emitted stays emitted.

    The relation [evolves] is a preorder; each operation is shown to stay
    inside it, and the handlers follow by walking their code. *)
From S2P Require Import Prelude Types Rng Storage Node.
Open Scope N_scope.

(** ** Walking a handler *)

(** Projections of updated nodes. *)
Ltac nsimpl :=
  cbn [n_config n_storage n_state_machine n_role n_leader_id n_commit_index n_last_applied
       n_pending n_staged_snapshot n_members n_members_index n_membership_tx
       n_last_leader_contact n_election_deadline n_next_heartbeat n_rng n_status_tx n_now n_effects
       set_storage set_state_machine set_role set_leader_id set_commit_index set_last_applied
       set_pending set_staged_snapshot set_members set_members_index set_membership_tx
       set_last_leader_contact set_election_deadline set_next_heartbeat set_rng set_status_tx
       set_now set_effects st_hard_state st_snapshot st_log current_term voted_for] in *.

(** One step of a handler: a monadic operation, a branch, or a call whose
    specification is in the hint database [handlers]. *)
Create HintDb handlers.
Ltac walk_step :=
  match goal with
  | |- wpp _ (let '(_, _) := ?x in _) _ _ => destruct x eqn:?
  | |- wpp _ (match ?x with _ => _ end) _ _ => destruct x eqn:?
  | |- wpp _ (if ?x then _ else _) _ _ => destruct x eqn:?
  | |- _ => wp_step
  | |- _ => eapply wpp_mono; [solve [eauto with handlers]|intros ? ? ?]
  end.
Ltac walk := repeat (walk_step; nsimpl).
Ltac bools := repeat match goal with
  | H : bool_decide _ = true |- _ => apply bool_decide_eq_true in H
  | H : bool_decide _ = false |- _ => apply bool_decide_eq_false in H
  | H : negb _ = true |- _ => apply negb_true_iff in H
  | H : negb _ = false |- _ => apply negb_false_iff in H
  | H : _ && _ = true |- _ => apply andb_true_iff in H as [? ?]
  | H : _ || _ = false |- _ => apply orb_false_iff in H as [? ?]
  end.

(** ** The hard state *)

(** A later hard state: a higher term, or the same term with a vote that,
    once cast, is the same. *)
Definition hs_le (h h' : HardState) : Prop :=
  current_term h < current_term h' ∨
  (current_term h = current_term h' ∧ (voted_for h = None ∨ voted_for h' = voted_for h)).

#[export] Instance hs_le_preorder : PreOrder hs_le.
Proof.
  split.
  - intros h. right. auto.
  - unfold hs_le. intros h1 h2 h3 [?|[E1 V1]] [?|[E2 V2]]; [left; lia..|].
    right. split; [congruence|]. destruct V1 as [?|V1]; [auto|]. rewrite <-V1. auto.
Qed.

Lemma hs_le_term h h' : hs_le h h' → current_term h ≤ current_term h'.
Proof. unfold hs_le. lia. Qed.

Lemma append_hard_state `{J : SerdeJson} es s s' :
  append es s = Ok s' → st_hard_state s' = st_hard_state s.
Proof. by intros [_ ->]%append_Ok. Qed.
Lemma truncate_hard_state `{J : SerdeJson} i s s' :
  truncate_from i s = Ok s' → st_hard_state s' = st_hard_state s.
Proof. by intros [_ ->]%truncate_from_Ok. Qed.
Lemma compact_hard_state `{J : SerdeJson} k v ms s s' :
  compact_to k v ms s = Ok s' → st_hard_state s' = st_hard_state s.
Proof. by intros (e & _ & ->)%compact_to_Ok. Qed.
Lemma install_hard_state `{J : SerdeJson} snap s s' :
  install_snapshot snap s = Ok s' → st_hard_state s' = st_hard_state s.
Proof. by intros [_ ->]%install_snapshot_Ok. Qed.

(** What is durable after the effects [es], starting from [s]. *)
Fixpoint durable `{J : SerdeJson} (s : Storage) (es : list Effect) : Storage :=
  match es with
  | [] => s
  | Persisted s' :: es => durable s' es
  | _ :: es => durable s es
  end.

Lemma durable_cases `{J : SerdeJson} s es :
  durable s es = s ∨ Persisted (durable s es) ∈ es.
Proof.
  revert s. induction es as [|e es IH]; intros s; simpl; [by left|].
  destruct e; try (destruct (IH s); [left; done|right; by right]).
  destruct (IH s0) as [->|]; right; [left|by right].
Qed.

Lemma durable_app `{J : SerdeJson} s es es' : durable s (es ++ es') = durable (durable s es) es'.
Proof. revert s. induction es as [|e es IH]; intros s; simpl; [done|]. by destruct e. Qed.

(** The storages written are those of the storage's own operations. *)
Fixpoint op_writes `{J : SerdeJson} (s : Storage) (es : list Effect) : Prop :=
  match es with
  | [] => True
  | Persisted s' :: es => (∃ op, mem_op op s = Ok s') ∧ op_writes s' es
  | _ :: es => op_writes s es
  end.

Lemma op_writes_app `{J : SerdeJson} s es es' :
  op_writes s (es ++ es') ↔ op_writes s es ∧ op_writes (durable s es) es'.
Proof. revert s. induction es as [|e es IH]; intros s; simpl; [tauto|]. destruct e; rewrite IH; tauto. Qed.

Section evolves.
Context `{J : SerdeJson} {SM : Type} `{!StateMachine SM}.
Implicit Types n : RaftNode SM.

Definition hs n : HardState := st_hard_state (n_storage n).

(** The storages written on the way from [h] to [h'] form a chain. *)
Fixpoint writes_between (h : HardState) (es : list Effect) (h' : HardState) : Prop :=
  match es with
  | [] => hs_le h h'
  | Persisted s :: es => hs_le h (st_hard_state s) ∧ writes_between (st_hard_state s) es h'
  | _ :: es => writes_between h es h'
  end.

Definition no_writes (es : list Effect) : Prop := ∀ s, Persisted s ∉ es.

Record evolves n n' : Prop := {
  ev_config : n_config n' = n_config n;
  ev_hs : hs_le (hs n) (hs n');
  ev_commit : n_commit_index n ≤ n_commit_index n';
  ev_effects : ∃ new, n_effects n' = n_effects n ++ new ∧ writes_between (hs n) new (hs n') ∧
    n_storage n' = durable (n_storage n) new ∧ op_writes (n_storage n) new;
}.

Lemma no_writes_between h h' es : hs_le h h' → no_writes es → writes_between h es h'.
Proof.
  intros Hle. induction es as [|e es IH]; intros He; simpl; [done|].
  assert (writes_between h es h') by (apply IH; intros s ?; apply (He s); by right).
  destruct e as [s| | | | | | | | |]; try done. destruct (He s). left.
Qed.
Lemma no_writes_durable s es : no_writes es → durable s es = s.
Proof. intros He. destruct (durable_cases s es) as [|Hin]; [done|]. by apply He in Hin. Qed.
Lemma no_writes_ops s es : no_writes es → op_writes s es.
Proof.
  revert s. induction es as [|e es IH]; intros s He; simpl; [done|].
  assert (∀ s, op_writes s es) as Hes by (intros s'; apply IH; intros x ?; apply (He x); by right).
  destruct e as [s'| | | | | | | | |]; try done. destruct (He s'). left.
Qed.
Lemma writes_between_app h1 h2 h3 es es' :
  writes_between h1 es h2 → writes_between h2 es' h3 → writes_between h1 (es ++ es') h3.
Proof.
  intros He He'. revert h1 He. induction es as [|e es IH]; intros h1; simpl.
  - intros H12. destruct es' as [|e' es'].
    { simpl in *. by transitivity h2. }
    clear -H12 He'. revert h2 He' H12. generalize (e' :: es') as l. intros l.
    revert h1. induction l as [|x l IH]; intros h1 h2; simpl; [by intros; transitivity h2|].
    destruct x; try apply IH. intros [Hs Hl] H12. split; [by transitivity h2|done].
  - destruct e; try apply IH. intros [Hs Hl]. split; [done|]. by apply IH.
Qed.
Lemma writes_between_le h es h' : writes_between h es h' → hs_le h h'.
Proof.
  revert h. induction es as [|e es IH]; intros h; simpl; [done|].
  destruct e; try apply IH. intros [Hs Hl%IH]. etrans; done.
Qed.
#[export] Instance evolves_preorder : PreOrder evolves.
Proof.
  split.
  - intros n. split; [done|done|lia|]. exists []. rewrite app_nil_r. split; [done|]. split; [|done].
    apply no_writes_between; [done|]. by intros s ?%elem_of_nil.
  - intros n1 n2 n3 [C1 H1 K1 (es1 & E1 & W1 & S1 & O1)] [C2 H2 K2 (es2 & E2 & W2 & S2 & O2)]. split.
    + congruence.
    + by transitivity (hs n2).
    + lia.
    + exists (es1 ++ es2). rewrite E2, E1, app_assoc. split; [done|].
      split; [by eapply writes_between_app|]. rewrite durable_app, <-S1. split; [done|].
      apply op_writes_app. by rewrite <-S1.
Qed.

(** The same fields, and more effects that write nothing. *)
Lemma evolves_frame n0 n n' es :
  evolves n0 n → n_config n' = n_config n → n_storage n' = n_storage n →
  n_commit_index n ≤ n_commit_index n' → n_effects n' = n_effects n ++ es → no_writes es →
  evolves n0 n'.
Proof.
  intros Hev Hc Hs Hk He Hw. transitivity n; [done|].
  assert (hs n' = hs n) as Hh by (unfold hs; by rewrite Hs).
  split; [done|by rewrite Hh|done|]. exists es. split; [done|].
  split; [apply no_writes_between; [by rewrite Hh|done]|].
  split; [by rewrite Hs, no_writes_durable|by apply no_writes_ops].
Qed.

Lemma evolves_storage_op n0 n op :
  evolves n0 n →
  (∀ s', mem_op op (n_storage n) = Ok s' → hs_le (hs n) (st_hard_state s')) →
  wlp (storage_op (mem_op op)) (λ _, evolves n0) n.
Proof.
  intros Hev Hop. unfold storage_op, emit. walk; [|done].
  match goal with H : _ = Ok ?s |- _ => apply Hop in H as Hs; rename H into Ho end.
  transitivity n; [done|]. split; [done|done|done|]. eexists. split; [reflexivity|].
  split; [split; [done|]; simpl; reflexivity|]. split; [done|]. split; [by exists op|done].
Qed.
End evolves.

(** Effects that are not writes. *)
Ltac no_writes_tac :=
  let H := fresh in
  unfold no_writes; intros ? H;
  repeat match goal with
  | H : _ ∈ _ ++ _ |- _ => apply elem_of_app in H as [H|H]
  | H : _ ∈ [] |- _ => by apply elem_of_nil in H
  | H : _ ∈ [_] |- _ => apply list_elem_of_singleton in H; discriminate H
  | H : _ ∈ omap _ _ |- _ => apply list_elem_of_omap in H as (? & _ & H)
  | H : _ <$> _ = Some _ |- _ => apply fmap_Some in H as (? & _ & H); discriminate H
  | H : _ ∈ _ <$> _ |- _ => apply list_elem_of_fmap in H as (? & H & _); discriminate H
  | H : _ ∈ match ?x with _ => _ end |- _ => destruct x
  end.

(** Closing [evolves n0 n'] after plain updates. *)
Ltac ev_done :=
  match goal with
  | |- True => exact I
  | H : evolves _ ?n |- evolves _ ?n => exact H
  | H : evolves _ _ |- evolves _ _ =>
      solve [eapply (evolves_frame _ _ _ []); [exact H|reflexivity|reflexivity|apply N.le_refl|symmetry; apply app_nil_r|];
             no_writes_tac
            |eapply evolves_frame; [exact H|reflexivity|reflexivity|apply N.le_refl|nsimpl; rewrite <-?app_assoc; reflexivity|];
             no_writes_tac]
  end.
#[export] Hint Extern 1 (evolves _ _) => ev_done : handlers.
#[export] Hint Extern 1 (no_writes _) => no_writes_tac : handlers.
Ltac ev_walk := walk; try ev_done.

Section evolves_ops.
Context `{J : SerdeJson} {SM : Type} `{!StateMachine SM}.
Implicit Types n : RaftNode SM.
#[local] Abbreviation evolving m := (∀ n0 n, evolves n0 n → wlp m (λ _, evolves n0) n).

Lemma emits_evolves es n0 n : evolves n0 n → no_writes es → wlp (emits es) (λ _, evolves n0) n.
Proof.
  intros. unfold emits. walk. by eapply evolves_frame.
Qed.
Lemma emit_evolves e n0 n : evolves n0 n → no_writes [e] → wlp (emit e) (λ _, evolves n0) n.
Proof. intros. unfold emit. walk. by eapply evolves_frame. Qed.
Lemma set_leader_evolves l : evolving (set_leader l).
Proof. intros. unfold set_leader. ev_walk. Qed.
Lemma reset_election_timer_evolves : evolving reset_election_timer.
Proof. intros. unfold reset_election_timer, draw. ev_walk. Qed.
#[local] Hint Resolve emits_evolves emit_evolves set_leader_evolves
  reset_election_timer_evolves : handlers.

Lemma publish_status_evolves : evolving publish_status.
Proof. intros. unfold publish_status. ev_walk. Qed.
Lemma publish_membership_evolves : evolving publish_membership.
Proof. intros. unfold publish_membership. ev_walk. Qed.
#[local] Hint Resolve publish_membership_evolves : handlers.

Lemma append_evolves es : evolving (storage_op (append es)).
Proof.
  intros. apply (evolves_storage_op _ _ (Append es)); [done|]. intros s' Hs'. by rewrite (append_hard_state _ _ _ Hs').
Qed.
Lemma truncate_evolves i : evolving (storage_op (truncate_from i)).
Proof.
  intros. apply (evolves_storage_op _ _ (TruncateFrom i)); [done|]. intros s' Hs'. by rewrite (truncate_hard_state _ _ _ Hs').
Qed.
Lemma compact_evolves k v ms : evolving (storage_op (compact_to k v ms)).
Proof.
  intros. apply (evolves_storage_op _ _ (CompactTo k v ms)); [done|]. intros s' Hs'. by rewrite (compact_hard_state _ _ _ _ _ Hs').
Qed.
Lemma install_evolves snap : evolving (storage_op (install_snapshot snap)).
Proof.
  intros. apply (evolves_storage_op _ _ (Install snap)); [done|]. intros s' Hs'. by rewrite (install_hard_state _ _ _ Hs').
Qed.
#[local] Hint Resolve append_evolves truncate_evolves compact_evolves install_evolves : handlers.

Lemma save_hs_evolves h n0 n :
  evolves n0 n → hs_le (hs n) h → wlp (save_hs h) (λ _, evolves n0) n.
Proof. intros. apply (evolves_storage_op _ _ (SaveHardState h)); [done|]. naive_solver. Qed.

Lemma become_follower_evolves t ldr : evolving (become_follower t ldr).
Proof.
  intros n0 n Hev. unfold become_follower. walk; try ev_done.
  all: eapply wpp_mono; [apply save_hs_evolves; [done|bools; by left]|]; intros; ev_walk.
Qed.
#[local] Hint Resolve become_follower_evolves : handlers.

Lemma adopt_membership_evolves ms i : evolving (adopt_membership ms i).
Proof. intros. unfold adopt_membership. ev_walk. Qed.
#[local] Hint Resolve adopt_membership_evolves : handlers.
Lemma rescan_membership_evolves : evolving rescan_membership.
Proof. intros. unfold rescan_membership. ev_walk. Qed.
Lemma resolve_pending_evolves : evolving resolve_pending.
Proof. intros. unfold resolve_pending. ev_walk. Qed.
Lemma resolve_reads_evolves : evolving resolve_reads.
Proof. intros. unfold resolve_reads. ev_walk. Qed.
Lemma maybe_compact_evolves : evolving maybe_compact.
Proof. intros. unfold maybe_compact. ev_walk. Qed.
Lemma apply_loop_evolves fuel : evolving (apply_loop fuel).
Proof. induction fuel as [|fuel IH]; intros; simpl; ev_walk. Qed.
#[local] Hint Resolve rescan_membership_evolves resolve_pending_evolves resolve_reads_evolves
  maybe_compact_evolves apply_loop_evolves : handlers.

Lemma apply_committed_evolves : evolving apply_committed.
Proof. intros. unfold apply_committed. ev_walk. Qed.
Lemma send_append_evolves p : evolving (send_append p).
Proof. intros. unfold send_append, send_install_snapshot. ev_walk. Qed.
#[local] Hint Resolve apply_committed_evolves send_append_evolves : handlers.
Lemma send_appends_evolves ps : evolving (for_each ps send_append).
Proof. intros. apply wpp_for_each; [done|]. intros. by apply send_append_evolves. Qed.
#[local] Hint Resolve send_appends_evolves : handlers.

(** Raising the commit index is an evolution. *)
Lemma evolves_commit n0 n i : evolves n0 n → n_commit_index n ≤ i → evolves n0 (set_commit_index i n).
Proof.
  intros Hev Hi. eapply (evolves_frame _ _ _ []); [done|done|done|done|by rewrite app_nil_r|].
  no_writes_tac.
Qed.

Lemma maybe_advance_commit_evolves : evolving maybe_advance_commit.
Proof.
  intros n0 n Hev. unfold maybe_advance_commit. ev_walk.
  eapply wpp_mono; [apply apply_committed_evolves, evolves_commit; [done|bools; lia]|].
  intros. ev_walk.
Qed.
Lemma on_heartbeat_tick_evolves : evolving on_heartbeat_tick.
Proof. intros. unfold on_heartbeat_tick. ev_walk. Qed.
#[local] Hint Resolve maybe_advance_commit_evolves on_heartbeat_tick_evolves : handlers.
Lemma maybe_become_leader_evolves : evolving maybe_become_leader.
Proof. intros. unfold maybe_become_leader. ev_walk. Qed.
#[local] Hint Resolve maybe_become_leader_evolves : handlers.
Lemma start_election_evolves : evolving start_election.
Proof.
  intros n0 n Hev. unfold start_election. walk.
  eapply wpp_mono; [apply save_hs_evolves; [done|left; simpl; unfold cur_term, hs; lia]|].
  intros. ev_walk.
Qed.
#[local] Hint Resolve start_election_evolves : handlers.
Lemma maybe_start_election_evolves : evolving maybe_start_election.
Proof. intros. unfold maybe_start_election. ev_walk. Qed.
#[local] Hint Resolve maybe_start_election_evolves : handlers.
Lemma on_election_timeout_evolves : evolving on_election_timeout.
Proof. intros. unfold on_election_timeout. ev_walk. Qed.

Lemma handle_propose_evolves c r : evolving (handle_propose c r).
Proof.
  intros. unfold handle_propose, check_command, validate_config_change. ev_walk.
Qed.
Lemma handle_read_evolves r : evolving (handle_read r).
Proof. intros. unfold handle_read. ev_walk. Qed.

Lemma handle_request_vote_evolves args : evolving (handle_request_vote args).
Proof.
  intros n0 n Hev. unfold handle_request_vote. ev_walk.
  all: eapply wpp_mono; [apply save_hs_evolves; [eassumption|]|intros; ev_walk].
  all: bools; right; split; [done|]; simpl.
  all: match goal with H : _ || _ = true |- _ => apply orb_true_iff in H as [?|?]; bools end.
  all: first [by left|by right].
Qed.
Lemma handle_pre_vote_evolves args : evolving (handle_pre_vote args).
Proof. intros. unfold handle_pre_vote. ev_walk. Qed.
Lemma handle_install_snapshot_evolves args : evolving (handle_install_snapshot args).
Proof.
  intros n0 n Hev. unfold handle_install_snapshot, storage_op, emit. walk; try ev_done.
  match goal with H : evolves n0 ?n1, Hi : _ = Ok ?s |- wpp _ rescan_membership _ ?n2 =>
    assert (evolves n0 n2);
      [transitivity n1; [done|]; apply install_hard_state in Hi as Hs|] end.
  { split; nsimpl; [done| |bools; lia|].
    - unfold hs. nsimpl. by rewrite Hs.
    - eexists. split; [reflexivity|]. unfold hs. nsimpl.
      simpl. rewrite Hs. split; [done|]. split; [done|]. split; [|done]. by exists (Install (is_snapshot args)). }
  ev_walk.
Qed.

Lemma walk_entries_evolves es : evolving (walk_entries es).
Proof. induction es; intros; simpl; ev_walk. Qed.
#[local] Hint Resolve walk_entries_evolves : handlers.
Lemma accept_entries_evolves args : evolving (accept_entries args).
Proof. intros. unfold accept_entries. ev_walk. Qed.
#[local] Hint Resolve accept_entries_evolves : handlers.
Lemma handle_append_entries_evolves args : evolving (handle_append_entries args).
Proof.
  intros n0 n Hev. unfold handle_append_entries. ev_walk.
  eapply wpp_mono; [apply apply_committed_evolves, evolves_commit; [eassumption|bools; lia]|].
  intros. ev_walk.
Qed.
#[local] Hint Resolve handle_request_vote_evolves handle_pre_vote_evolves
  handle_install_snapshot_evolves handle_append_entries_evolves : handlers.

Lemma handle_event_evolves ev : evolving (handle_event ev).
Proof.
  intros. unfold handle_event, on_pre_vote_reply, on_vote_reply, on_append_reply, on_snapshot_reply.
  ev_walk.
Qed.
#[local] Hint Resolve handle_propose_evolves handle_read_evolves on_election_timeout_evolves
  handle_event_evolves publish_status_evolves : handlers.

Lemma dispatch_evolves i : evolving (dispatch i).
Proof. intros. unfold dispatch, handle_inbound. ev_walk. Qed.
#[local] Hint Resolve dispatch_evolves : handlers.
Lemma loop_step_evolves t i n : wlp (loop_step t i) (λ _, evolves n) n.
Proof.
  assert (evolves n n) by done. unfold loop_step. ev_walk.
Qed.
End evolves_ops.

(** ** The timer and stepping down, exactly *)
Section stepping_down.
Context `{J : SerdeJson} {SM : Type} `{!StateMachine SM}.
Implicit Types n : RaftNode SM.

(** The node after an accepted storage operation. *)
Definition stored (s : Storage) n : RaftNode SM :=
  set_effects (n_effects n ++ [Persisted s]) (set_storage s n).

Lemma wpp_storage_op P op s' (Q : () → RaftNode SM → Prop) n :
  op (n_storage n) = Ok s' → Q () (stored s' n) → wpp P (storage_op op) Q n.
Proof. intros Hop HQ. unfold storage_op, emit, wpp. unfold_M. by rewrite Hop. Qed.

(** The election-timeout range the code can draw from. *)
Definition cfg_ok (cfg : RaftConfig) : Prop :=
  as_micros (c_election_timeout_min cfg) ≤ as_micros (c_election_timeout_max cfg) ∧
  as_micros (c_election_timeout_max cfg) < u64_modulus.

#[export] Instance cfg_ok_dec cfg : Decision (cfg_ok cfg).
Proof. unfold cfg_ok. apply _. Defined.

(** Re-arming touches the generator and the deadline only, and the new
    deadline lies in the configured range. *)
Definition rearmed n n' : Prop :=
  ∃ r d, n' = set_election_deadline d (set_rng r n) ∧
    n_now n + from_micros (as_micros (c_election_timeout_min (n_config n))) ≤ d ≤
    n_now n + from_micros (as_micros (c_election_timeout_max (n_config n))).

Lemma reset_election_timer_wp P n :
  (¬ cfg_ok (n_config n) → P) → wpp P reset_election_timer (λ _, rearmed n) n.
Proof.
  intros HP. unfold reset_election_timer, draw. walk; bools; try (apply HP; unfold cfg_ok; lia).
  - assert (wp (next_range (as_micros (c_election_timeout_min (n_config n)))
                  (as_micros (c_election_timeout_max (n_config n))))
              (λ x _, as_micros (c_election_timeout_min (n_config n)) ≤ x ≤
                      as_micros (c_election_timeout_max (n_config n))) (n_rng n)) as Hr.
    { eapply wpp_mono; [by apply next_range_wp|]. naive_solver. }
    unfold wpp in Hr. case_match; simplify_eq. eexists _, _. split; [reflexivity|].
    unfold from_micros. lia.
  - exfalso. match goal with H : next_range _ _ _ = None |- _ => apply next_range_panics in H; [lia|] end. unfold u64 in *. lia.
Qed.

(** What [become_follower] leaves: the role and the leader hint are reset,
    a higher term is durable with no vote, waiting reads are dropped, and
    nothing else of the consensus state moves. *)
Record stepped_down (t : Term) (ldr : option NodeId) n n' : Prop := {
  sd_config : n_config n' = n_config n;
  sd_storage : n_storage n' =
    if bool_decide (cur_term n < t) then save_hard_state (MkHardState t None) (n_storage n)
    else n_storage n;
  sd_sm : n_state_machine n' = n_state_machine n;
  sd_role : n_role n' = Follower;
  sd_leader : n_leader_id n' = ldr;
  sd_commit : n_commit_index n' = n_commit_index n;
  sd_applied : n_last_applied n' = n_last_applied n;
  sd_pending : n_pending n' = n_pending n;
  sd_staged : n_staged_snapshot n' = n_staged_snapshot n;
  sd_members : n_members n' = n_members n;
  sd_members_index : n_members_index n' = n_members_index n;
  sd_contact : n_last_leader_contact n' = n_last_leader_contact n;
  sd_now : n_now n' = n_now n;
  sd_sends : ∀ p req tag, SendRpc p req tag ∈ n_effects n' → SendRpc p req tag ∈ n_effects n;
}.

Lemma become_follower_wp P t ldr n :
  (¬ cfg_ok (n_config n) → P) → (t < cur_term n → P) →
  wpp P (become_follower t ldr) (λ _, stepped_down t ldr n) n.
Proof.
  intros Hcfg Ht. unfold become_follower, publish_membership, save_hs, storage_op, emits, emit.
  walk; bools; try (apply Ht; unfold cur_term; lia); try done.
  all: (eapply wpp_mono; [by apply reset_election_timer_wp|]); intros _ n' (r & d & -> & _).
  all: simplify_eq; split; nsimpl; try done.
  all: try (unfold cur_term; case_bool_decide; [done|lia]).
  all: try (unfold cur_term; case_bool_decide; [lia|done]).
  all: intros p req tag; rewrite ?elem_of_app, ?list_elem_of_singleton.
  all: intros HH; destruct_or!; try done; try naive_solver.
  all: try (destruct (n_role n); set_solver).
Qed.
End stepping_down.
