(* ===== verification/NodeLife.v ===== *)
(** * The life of a node: iterations, crashes, restarts

    A node runs its loop until it crashes; a crash may fall anywhere inside
    an iteration, and loses everything but the storage made durable so far;
    inside an append, some of the new entries may have reached the disk
    ([Disk] says why no other write is ever seen half done). A restart is
    [RaftNode::spawn] on that storage.

    The theorems of this file hold along every life: one vote per term, and
    exact conditions for granting votes and pre-votes. *)
From S2P Require Import Prelude Types Rng Storage Node NodeSteps.
Open Scope N_scope.

Section life.
Context `{J : SerdeJson} {SM : Type} `{!StateMachine SM} (sm0 : SM).
Implicit Types n : RaftNode SM.

(** A write from [s] to [s'] that only appends, cut short. *)
Record torn (s s' s'' : Storage) : Prop := {
  torn_hard : st_hard_state s' = st_hard_state s ∧ st_hard_state s'' = st_hard_state s;
  torn_snapshot : st_snapshot s' = st_snapshot s ∧ st_snapshot s'' = st_snapshot s;
  torn_log : st_log s `prefix_of` st_log s'' ∧ st_log s'' `prefix_of` st_log s';
}.

(** What a crash can leave on the disk of a node that started from [s0] and
    was to emit [es]: the outside has seen [pre] of it. *)
Inductive left_by (s0 : Storage) (es pre : list Effect) (s : Storage) : Prop :=
| left_whole : pre `prefix_of` es → s = durable s0 pre → left_by s0 es pre s
| left_torn s' : pre ++ [Persisted s'] `prefix_of` es → torn (durable s0 pre) s' s → left_by s0 es pre s.

(** One iteration on an input: its answer, what the world saw of it, and the
    node it leaves; or a crash inside it, after which the node restarts. The
    answer to an RPC is sent when its handler returns. *)
Inductive node_step (n : RaftNode SM) (i : LoopInput)
    : option RpcResponse → list Effect → RaftNode SM → Prop :=
| step_run t r n' :
    enabled t i n = true →
    loop_step t i (set_effects [] n) = Some (r, n') →
    node_step n i r (n_effects n') n'
| step_crash t r n' pre s t0 n'' :
    enabled t i n = true →
    loop_step t i (set_effects [] n) = Some (r, n') →
    left_by (n_storage n) (n_effects n') pre s →
    spawn (n_config n) s sm0 t0 = Some n'' →
    node_step n i None pre n''.

(** A life, with every answer given to an RPC. *)
Definition answers (i : LoopInput) (r : option RpcResponse) : list (LoopInput * RpcResponse) :=
  match r with Some resp => [(i, resp)] | None => [] end.

Inductive life : RaftNode SM → list (LoopInput * RpcResponse) → RaftNode SM → Prop :=
| life_refl n : life n [] n
| life_step n1 i r es n2 tr n3 :
    node_step n1 i r es n2 → life n2 tr n3 → life n1 (answers i r ++ tr) n3.

Lemma spawn_storage cfg s t0 n :
  spawn cfg s sm0 t0 = Some n → n_storage n = s ∧ n_config n = cfg ∧ n_role n = Follower ∧
    n_commit_index n = snapshot_index s ∧ n_effects n = [].
Proof.
  unfold spawn. destruct (match st_snapshot s with Some _ => _ | None => _ end) as [sm|]; [|done].
  simpl. destruct (derive_membership s cfg) as [ms mi]. simpl.
  match goal with |- context [reset_election_timer ?m] =>
    pose proof (reset_election_timer_wp True m (λ _, I)) as Hw end.
  unfold wpp in Hw. destruct (reset_election_timer _) as [[[] m]|]; simpl; [|done].
  destruct Hw as (r & d & -> & _). by intros [= <-].
Qed.

Lemma loop_step_hs t i n r n' :
  loop_step t i (set_effects [] n) = Some (r, n') →
  n_config n' = n_config n ∧ writes_between (hs n) (n_effects n') (hs n') ∧
  n_storage n' = durable (n_storage n) (n_effects n') ∧ op_writes (n_storage n) (n_effects n').
Proof.
  intros Hr. pose proof (loop_step_evolves t i (set_effects [] n)) as Hw.
  unfold wpp in Hw. rewrite Hr in Hw. destruct Hw as [Hc Hh _ (new & He & Hb & Hs & Ho)].
  split; [done|]. by rewrite He.
Qed.

Lemma writes_between_durable s es post h' :
  writes_between (st_hard_state s) (es ++ post) h' →
  writes_between (st_hard_state s) es (st_hard_state (durable s es)).
Proof.
  revert s. induction es as [|e es IH]; intros s; simpl; [done|].
  destruct e; try apply IH. intros [Hle Hw]. split; [done|]. by apply IH.
Qed.

(** Only an append can be torn, and what is left is an append too. *)
Lemma torn_append es s s' s'' :
  append es s = Ok s' → torn s s' s'' → ∃ k, append (take k es) s = Ok s''.
Proof.
  intros [Hc ->]%append_Ok [[_ Hh] [_ Hsn] [[x Hx] Hp]]. simpl in *. rewrite Hx in Hp. apply prefix_app_inv in Hp as [y ->].
  exists (length x). rewrite take_app_length. apply append_Ok. apply contiguous_app in Hc as [Hc _].
  split; [done|]. destruct s'', s; simpl in *. by subst.
Qed.
Lemma torn_same s s' s'' : st_log s' `prefix_of` st_log s → torn s s' s'' → s'' = s.
Proof.
  intros Hp [[_ Hh] [_ Hsn] [Hl Hr]]. assert (st_log s'' = st_log s) as El.
  { apply (anti_symm prefix); [by etrans|done]. }
  destruct s'', s; simpl in *. by subst.
Qed.
Lemma torn_hard_state s s' s'' : torn s s' s'' → st_hard_state s' = st_hard_state s.
Proof. by intros [[? _] _ _]. Qed.
Lemma torn_boundary s s' s'' : torn s s' s'' → snapshot_index s' = snapshot_index s.
Proof. intros [_ [E _] _]. unfold snapshot_index. by rewrite E. Qed.

Lemma left_start s0 es : left_by s0 es [] s0.
Proof. apply left_whole; [apply prefix_nil|done]. Qed.
Lemma left_by_prefix s0 es pre s :
  left_by s0 es pre s → pre `prefix_of` es ∧ st_hard_state s = st_hard_state (durable s0 pre).
Proof.
  destruct 1 as [Hp ->|s' Hp [[_ Hh] _ _]]; [done|]. split; [|done].
  etrans; [|exact Hp]. by apply prefix_app_r.
Qed.

(** What a step writes is a chain that ends in the new durable state, and the
    node's hard state is the last one written. *)
Lemma node_step_writes n i r es n' :
  node_step n i r es n' →
  writes_between (hs n) es (hs n') ∧ n_config n' = n_config n ∧
  hs n' = st_hard_state (durable (n_storage n) es).
Proof.
  destruct 1 as [t r n' _ Hr|t r n' pre s t0 n'' _ Hr Hleft Hs].
  - apply loop_step_hs in Hr as (? & ? & Hs & _). split; [done|]. split; [done|]. unfold hs. by rewrite Hs.
  - apply loop_step_hs in Hr as (_ & Hb & _). apply spawn_storage in Hs as (Hs & Hc & _).
    apply left_by_prefix in Hleft as [[post Hp] Hh]. unfold hs at 2 3. rewrite Hs, Hh. split; [|done].
    rewrite Hp in Hb. by eapply writes_between_durable.
Qed.

Lemma node_step_hs n i r es n' : node_step n i r es n' → hs_le (hs n) (hs n').
Proof. intros [Hw _]%node_step_writes. by eapply writes_between_le. Qed.

Lemma life_hs n tr n' : life n tr n' → hs_le (hs n) (hs n').
Proof.
  induction 1 as [|n1 i r es n2 tr n3 H1%node_step_hs _ IH]; [done|]. by transitivity (hs n2).
Qed.
End life.

(** ** Granting a vote *)
Section voting.
Context `{J : SerdeJson} {SM : Type} `{!StateMachine SM}.
Implicit Types n : RaftNode SM.

(** The conditions of [handle_request_vote], read off the state before it. *)
Definition grants n (args : RequestVoteArgs) : bool :=
  bool_decide (cur_term n ≤ rv_term args) &&
  (bool_decide (cur_term n < rv_term args) ||
   bool_decide (voted_for (hs n) = None) ||
   bool_decide (voted_for (hs n) = Some (rv_candidate_id args))) &&
  log_up_to_date n args.

(** The durable vote after the request. *)
Definition vote_after n (args : RequestVoteArgs) : HardState :=
  if grants n args then MkHardState (rv_term args) (Some (rv_candidate_id args))
  else if bool_decide (cur_term n < rv_term args) then MkHardState (rv_term args) None
  else hs n.

(** What a request leaves untouched. *)
Record vote_frame n n' : Prop := {
  vf_config : n_config n' = n_config n;
  vf_sm : n_state_machine n' = n_state_machine n;
  vf_commit : n_commit_index n' = n_commit_index n;
  vf_applied : n_last_applied n' = n_last_applied n;
  vf_pending : n_pending n' = n_pending n;
  vf_staged : n_staged_snapshot n' = n_staged_snapshot n;
  vf_members : n_members n' = n_members n ∧ n_members_index n' = n_members_index n;
}.

(** After the term check the node is at the higher of the two terms. *)
Lemma raise_term_wp P n args :
  (¬ cfg_ok (n_config n) → P) →
  wpp P (when (bool_decide (cur_term n < rv_term args)) (become_follower (rv_term args) None))
    (λ _ n1, vote_frame n n1 ∧
       n_role n1 = (if bool_decide (cur_term n < rv_term args) then Follower else n_role n) ∧
       n_storage n1 = if bool_decide (cur_term n < rv_term args)
                      then save_hard_state (MkHardState (rv_term args) None) (n_storage n)
                      else n_storage n) n.
Proof.
  intros HP. case_bool_decide as Ht; simpl.
  - eapply wpp_mono; [apply become_follower_wp; [done|lia]|]. intros _ n1 [].
    rewrite bool_decide_eq_true_2 in sd_storage by done. done.
  - by apply wpp_ret.
Qed.

(** The rest of the handler evaluates [grants] on the raised state. *)
Lemma grants_raised n n1 args :
  n_storage n1 = (if bool_decide (cur_term n < rv_term args)
                  then save_hard_state (MkHardState (rv_term args) None) (n_storage n)
                  else n_storage n) →
  cur_term n1 = N.max (cur_term n) (rv_term args) ∧
  grants n args =
    negb (bool_decide (rv_term args < cur_term n1)) &&
    ((bool_decide (voted_for (st_hard_state (n_storage n1)) = None) ||
      bool_decide (voted_for (st_hard_state (n_storage n1)) = Some (rv_candidate_id args))) &&
     log_up_to_date n1 args) ∧
  n_storage n1 = save_hard_state
    (if bool_decide (cur_term n < rv_term args) then MkHardState (rv_term args) None else hs n)
    (n_storage n).
Proof.
  intros Hs.
  assert (cur_term n1 = N.max (cur_term n) (rv_term args)) as Hm.
  { unfold cur_term at 1. rewrite Hs. case_bool_decide; simpl; unfold cur_term in *; lia. }
  split; [done|]. rewrite Hm. unfold grants, log_up_to_date. rewrite Hs.
  case_bool_decide as Ht; simpl.
  - rewrite (bool_decide_eq_true_2 (cur_term n ≤ _)) by lia.
    by rewrite (bool_decide_eq_false_2 (rv_term args < _)) by lia.
  - split; [|unfold hs; by destruct (n_storage n)].
    rewrite <-bool_decide_not, (bool_decide_ext (cur_term n ≤ _) (¬ rv_term args < N.max (cur_term n) (rv_term args))) by lia.
    by rewrite andb_assoc.
Qed.

Lemma handle_request_vote_wp P n args :
  (¬ cfg_ok (n_config n) → P) →
  wpp P (handle_request_vote args) (λ r n',
    r = MkRequestVoteReply (N.max (cur_term n) (rv_term args)) (grants n args) ∧
    n_storage n' = save_hard_state (vote_after n args) (n_storage n) ∧
    n_role n' = (if bool_decide (cur_term n < rv_term args) then Follower else n_role n) ∧
    vote_frame n n') n.
Proof.
  intros HP. unfold handle_request_vote. walk_step. walk_step. walk_step.
  eapply wpp_mono; [by apply raise_term_wp|]. intros _ n1 (Hf & Hr & Hs). walk_step. walk_step.
  destruct (grants_raised _ _ _ Hs) as (Ht & Hg & Hs'). unfold vote_after. rewrite Hg, <-Ht, <-Hr.
  destruct (bool_decide (rv_term args < cur_term n1)) eqn:Hlow; simpl; [by apply wpp_ret|].
  destruct (_ && log_up_to_date n1 args) eqn:Hok; [|by apply wpp_ret].
  assert (cur_term n1 = rv_term args) as Heq by (bools; lia).
  unfold save_hs, storage_op, emit. walk; [|done]. simplify_eq.
  eapply wpp_mono; [apply reset_election_timer_wp; nsimpl; by rewrite (vf_config _ _ Hf)|].
  intros _ n' (r & d & -> & _). walk. split; [done|]. split; [by rewrite Hs', Heq|].
  split; [done|]. by destruct Hf.
Qed.

(** The election restriction (section 5.4.1 of the paper): the candidate's
    last term is higher, or equal with a log at least as long. *)
Lemma log_up_to_date_spec n args :
  log_up_to_date n args = true ↔
  last_term (n_storage n) < rv_last_log_term args ∨
  (rv_last_log_term args = last_term (n_storage n) ∧
   last_index (n_storage n) ≤ rv_last_log_index args).
Proof. unfold log_up_to_date. by rewrite orb_true_iff, andb_true_iff, !bool_decide_eq_true. Qed.

(** [C23] A RequestVote is answered, never panics, and its answer is exact: the
    vote is granted iff the term is not old, no other candidate has the vote
    of that term, and the candidate's log is up to date. The vote (or the
    bare higher term) is durable before the answer, and nothing else of the
    consensus state moves except that a higher term ends the role. *)
Theorem request_vote_exact n args :
  cfg_ok (n_config n) →
  wp (handle_request_vote args) (λ r n',
    rvr_term r = N.max (cur_term n) (rv_term args) ∧
    (rvr_vote_granted r = true ↔
       cur_term n ≤ rv_term args ∧
       (cur_term n < rv_term args ∨ voted_for (hs n) = None ∨
        voted_for (hs n) = Some (rv_candidate_id args)) ∧
       (last_term (n_storage n) < rv_last_log_term args ∨
        rv_last_log_term args = last_term (n_storage n) ∧
        last_index (n_storage n) ≤ rv_last_log_index args)) ∧
    (rvr_vote_granted r = true →
       hs n' = MkHardState (rv_term args) (Some (rv_candidate_id args))) ∧
    (rvr_vote_granted r = false →
       hs n' = if bool_decide (cur_term n < rv_term args)
               then MkHardState (rv_term args) None else hs n) ∧
    st_log (n_storage n') = st_log (n_storage n) ∧
    st_snapshot (n_storage n') = st_snapshot (n_storage n) ∧
    n_role n' = (if bool_decide (cur_term n < rv_term args) then Follower else n_role n) ∧
    vote_frame n n') n.
Proof.
  intros Hcfg. eapply wpp_mono; [by apply handle_request_vote_wp|].
  intros r n' (-> & Hs & Hr & Hf). simpl.
  assert (hs n' = vote_after n args) as -> by (unfold hs; by rewrite Hs). unfold vote_after.
  rewrite Hs.
  split; [done|]. split.
  { unfold grants. rewrite !andb_true_iff, !orb_true_iff, !bool_decide_eq_true, log_up_to_date_spec.
    tauto. }
  split; [by intros ->|]. split; [by intros ->|]. done.
Qed.

(** [C24] A pre-vote changes nothing at all, and is granted iff the prospective
    term is beyond ours, the candidate's log is up to date, and no live
    leader is known: this node is not the leader and heard from none within
    the minimum election timeout. *)
Theorem pre_vote_exact n args :
  ∃ g, handle_pre_vote args n = Some (MkRequestVoteReply (cur_term n) g, n) ∧
    (g = true ↔
       cur_term n < rv_term args ∧
       (last_term (n_storage n) < rv_last_log_term args ∨
        rv_last_log_term args = last_term (n_storage n) ∧
        last_index (n_storage n) ≤ rv_last_log_index args) ∧
       is_leader n = false ∧
       ∀ at_, n_last_leader_contact n = Some at_ →
         c_election_timeout_min (n_config n) ≤ n_now n - at_).
Proof.
  exists (bool_decide (cur_term n < rv_term args) && log_up_to_date n args && negb (leader_is_live n)).
  split; [reflexivity|].
  rewrite !andb_true_iff, bool_decide_eq_true, log_up_to_date_spec, negb_true_iff.
  unfold leader_is_live. rewrite orb_false_iff. unfold elapsed.
  destruct (n_last_leader_contact n) as [at_|]; [rewrite bool_decide_eq_false|].
  - assert (¬ n_now n - at_ < c_election_timeout_min (n_config n) ↔
      ∀ at_', Some at_ = Some at_' → c_election_timeout_min (n_config n) ≤ n_now n - at_') as ->.
    { split; [intros ? ? [= <-]; lia|intros H; specialize (H at_ eq_refl); lia]. }
    tauto.
  - naive_solver.
Qed.
End voting.

(** ** One vote per term, forever *)
Section vote_once.
Context `{J : SerdeJson} {SM : Type} `{!StateMachine SM} (sm0 : SM).
Implicit Types n : RaftNode SM.

(** A granted answer is backed by the durable vote. *)
Lemma granted_durable t i n r n' from args reply :
  loop_step t i (set_effects [] n) = Some (r, n') →
  r = Some (RequestVoteResp reply) → i = InRpc from (RequestVote args) →
  rvr_vote_granted reply = true →
  hs n' = MkHardState (rv_term args) (Some (rv_candidate_id args)).
Proof.
  intros Hr -> -> Hg. revert Hr Hg.
  assert (wlp (loop_step t (InRpc from (RequestVote args))) (λ r n',
    r = Some (RequestVoteResp reply) → rvr_vote_granted reply = true →
    hs n' = MkHardState (rv_term args) (Some (rv_candidate_id args))) (set_effects [] n)) as Hw.
  { unfold loop_step, publish_status, emit, dispatch, handle_inbound. walk.
    all: (eapply wpp_mono; [by apply handle_request_vote_wp|]); intros r' n1 (-> & Hs & _).
    all: walk; intros [= <-] Hg; unfold hs; rewrite Hs; cbn [rvr_vote_granted] in Hg.
    all: unfold vote_after; cbn [app] in *; by rewrite Hg. }
  unfold wpp in Hw. intros Hr. rewrite Hr in Hw. by apply Hw.
Qed.

Lemma node_step_granted n i r es n' from args reply :
  node_step sm0 n i r es n' →
  (InRpc from (RequestVote args), RequestVoteResp reply) ∈ answers i r →
  rvr_vote_granted reply = true →
  hs n' = MkHardState (rv_term args) (Some (rv_candidate_id args)).
Proof.
  destruct 1 as [t r n' _ Hr|]; intros Hin Hg; [|by apply elem_of_nil in Hin].
  destruct r as [resp|]; [|by apply elem_of_nil in Hin].
  apply list_elem_of_singleton in Hin as [= <- <-]. by eapply granted_durable.
Qed.

(** Later in its life, the node's durable state is past the grant. *)
Lemma life_granted n tr n' from args reply :
  life sm0 n tr n' →
  (InRpc from (RequestVote args), RequestVoteResp reply) ∈ tr → rvr_vote_granted reply = true →
  hs_le (hs n) (MkHardState (rv_term args) (Some (rv_candidate_id args))) ∧
  hs_le (MkHardState (rv_term args) (Some (rv_candidate_id args))) (hs n').
Proof.
  induction 1 as [|n1 i r es n2 tr2 n3 H1 H2 IH]; intros Hin Hg; [by apply elem_of_nil in Hin|].
  pose proof (node_step_hs _ _ _ _ _ _ H1). pose proof (life_hs _ _ _ _ H2).
  apply elem_of_app in Hin as [Hin|Hin].
  - by rewrite <-(node_step_granted _ _ _ _ _ _ _ _ H1 Hin Hg).
  - destruct (IH Hin Hg). split; [|done]. by transitivity (hs n2).
Qed.

Lemma hs_le_same_vote t c c' : hs_le (MkHardState t (Some c)) (MkHardState t (Some c')) → c = c'.
Proof. intros [?|[_ [?|?]]]; simpl in *; [lia|done|congruence]. Qed.

(** [C18] A node never votes for two candidates in one term: along any life,
    through crashes at any point and restarts, two granted RequestVotes of
    the same term name the same candidate. *)
Theorem one_vote_per_term n tr n' f1 f2 a1 a2 r1 r2 :
  life sm0 n tr n' →
  (InRpc f1 (RequestVote a1), RequestVoteResp r1) ∈ tr → rvr_vote_granted r1 = true →
  (InRpc f2 (RequestVote a2), RequestVoteResp r2) ∈ tr → rvr_vote_granted r2 = true →
  rv_term a1 = rv_term a2 →
  rv_candidate_id a1 = rv_candidate_id a2.
Proof.
  induction 1 as [|n1 i r es n2 tr2 n3 H1 H2 IH]; intros Hin1 Hg1 Hin2 Hg2 Ht.
  { by apply elem_of_nil in Hin1. }
  apply elem_of_app in Hin1 as [Hin1|Hin1], Hin2 as [Hin2|Hin2]; [| | |by apply IH].
  - pose proof (node_step_granted _ _ _ _ _ _ _ _ H1 Hin1 Hg1) as E1.
    rewrite (node_step_granted _ _ _ _ _ _ _ _ H1 Hin2 Hg2) in E1. congruence.
  - destruct (life_granted _ _ _ _ _ _ H2 Hin2 Hg2) as [Hle _].
    rewrite (node_step_granted _ _ _ _ _ _ _ _ H1 Hin1 Hg1), Ht in Hle. by eapply hs_le_same_vote.
  - destruct (life_granted _ _ _ _ _ _ H2 Hin1 Hg1) as [Hle _].
    rewrite (node_step_granted _ _ _ _ _ _ _ _ H1 Hin2 Hg2), Ht in Hle.
    symmetry. by eapply hs_le_same_vote.
Qed.
End vote_once.
