(* ===== verification/NodeInv.v ===== *)
(** * The node's invariant

    What holds of a node between two iterations of its loop, and that every
    handler keeps it without panicking on well-formed input:

    - the log, the snapshot boundary, the applied and the commit index are in
      order, and everything committed has been applied;
    - the state machine is what a restart would rebuild: the snapshot's
      state with the retained log applied up to [last_applied];
    - the membership in effect is the one the durable state implies;
    - every waiting proposal is an uncommitted entry of the log;
    - a leader's replication bookkeeping stays within its log. *)
From S2P Require Import Prelude Types Rng Storage Node NodeSteps NodeLife.
Open Scope N_scope.

(** ** The state machine at a log position *)
Section sm_at.
Context `{J : SerdeJson} {SM : Type} `{!StateMachine SM} (sm0 : SM).
Implicit Types s : Storage.

(** What a restart restores before it applies anything. *)
Definition base_sm s : option SM :=
  match st_snapshot s with
  | Some snap => sm_restore (sn_state snap) sm0
  | None => Some sm0
  end.

(** The state after applying the retained log through index [k]. *)
Definition sm_at s (k : LogIndex) : option SM :=
  sm_apply_all (take (N.to_nat (k - snapshot_index s)) (st_log s)) <$> base_sm s.

Lemma sm_at_save s h k : sm_at (save_hard_state h s) k = sm_at s k.
Proof. done. Qed.

Lemma sm_at_append s es s' k :
  append es s = Ok s' → k ≤ last_index s → sm_at s' k = sm_at s k.
Proof.
  intros [_ ->]%append_Ok Hk. unfold sm_at, base_sm, snapshot_index. simpl. f_equal. f_equal.
  unfold last_index, snapshot_index in Hk. rewrite take_app_le; [done|lia].
Qed.

Lemma sm_at_truncate s from s' k :
  truncate_from from s = Ok s' → k < from → sm_at s' k = sm_at s k.
Proof.
  intros [Hf ->]%truncate_from_Ok Hk. unfold sm_at, base_sm, snapshot_index in *. simpl.
  f_equal. f_equal. rewrite take_take. f_equal. lia.
Qed.

Lemma sm_at_step s k e :
  snapshot_index s ≤ k → entry s (k + 1) = Some e → sm_at s (k + 1) = sm_apply e <$> sm_at s k.
Proof.
  intros Hk (p & Hp & He)%entry_Some. unfold sm_at. rewrite <-option_fmap_compose.
  replace (N.to_nat (k + 1 - snapshot_index s)) with (S p) by lia.
  replace (N.to_nat (k - snapshot_index s)) with p by lia.
  rewrite (take_S_r _ _ _ He). destruct (base_sm s); simpl; [|done].
  by rewrite sm_apply_all_app.
Qed.

Lemma sm_at_base s : sm_at s (snapshot_index s) = base_sm s.
Proof. unfold sm_at. rewrite N.sub_diag. by destruct (base_sm s). Qed.

Lemma sm_at_compact `{!StateMachineLaws} s j sm ms s' k :
  compact_to j (sm_snapshot sm) ms s = Ok s' → sm_at s j = Some sm → j ≤ k → sm_at s' k = sm_at s k.
Proof.
  intros Hc Hsm Hk. pose proof (compact_to_range _ _ _ _ _ Hc).
  apply compact_to_Ok in Hc as (e & _ & ->). unfold sm_at, base_sm, snapshot_index in *. simpl.
  rewrite sm_restore_snapshot. simpl. destruct (match st_snapshot s with Some _ => _ | None => _ end) as [b|];
    simplify_eq/=.
  f_equal. rewrite <-sm_apply_all_app, take_take_drop. f_equal. f_equal. lia.
Qed.
End sm_at.

(** ** The configuration a storage implies *)
Section config.
Context `{J : SerdeJson}.
Implicit Types s : Storage.

Lemma latest_config_app l1 l2 :
  latest_config (l1 ++ l2) =
  match latest_config l2 with Some r => Some r | None => latest_config l1 end.
Proof.
  unfold latest_config. rewrite reverse_app, omap_app. by destruct (omap config_of (reverse l2)).
Qed.

Lemma latest_config_elem l ms i :
  latest_config l = Some (ms, i) → ∃ e, e ∈ l ∧ e_index e = i ∧ e_command e = ConfigChange ms.
Proof.
  unfold latest_config. intros [r Hr]%head_Some.
  assert ((ms, i) ∈ omap config_of (reverse l)) as Hin by (rewrite Hr; left).
  apply list_elem_of_omap in Hin as (e & He & Hc). rewrite elem_of_reverse in He.
  unfold config_of in Hc. exists e. destruct (e_command e) eqn:?; simplify_eq. done.
Qed.

(** [membership_at], as a function of the storage. *)
Definition config_at s (k : LogIndex) : option Membership :=
  match latest_config (filter (λ e, e_index e ≤ k) (st_log s)) with
  | Some (ms, _) => Some ms
  | None => st_snapshot s ≫= sn_membership
  end.

(** The entries at or below [k] are a prefix of a contiguous log. *)
Lemma filter_le_take first l k :
  contiguous first l → filter (λ e, e_index e ≤ k) l = take (N.to_nat (k + 1 - first)) l.
Proof.
  revert first. induction l as [|e l IH]; intros first; simpl; [by rewrite take_nil|].
  intros [He Hc]. destruct (decide (e_index e ≤ k)) as [Hle|Hgt].
  - rewrite filter_cons_True by done. rewrite (IH _ Hc).
    replace (N.to_nat (k + 1 - first)) with (S (N.to_nat (k + 1 - (first + 1)))) by lia. done.
  - rewrite filter_cons_False by done. rewrite (IH _ Hc).
    replace (N.to_nat (k + 1 - first)) with 0%nat by lia.
    replace (N.to_nat (k + 1 - (first + 1))) with 0%nat by lia. by rewrite take_0.
Qed.

Lemma config_at_take s k :
  storage_wf s →
  config_at s k =
  match latest_config (take (N.to_nat (k - snapshot_index s)) (st_log s)) with
  | Some (ms, _) => Some ms
  | None => st_snapshot s ≫= sn_membership
  end.
Proof.
  intros Hwf. unfold config_at. rewrite (filter_le_take _ _ _ Hwf). 
  replace (k + 1 - (snapshot_index s + 1)) with (k - snapshot_index s) by lia. done.
Qed.

Lemma config_at_append s es s' k :
  storage_wf s → append es s = Ok s' → k ≤ last_index s → config_at s' k = config_at s k.
Proof.
  intros Hwf Ha Hk. rewrite !config_at_take; [|done|by eapply append_wf].
  apply append_Ok in Ha as [_ ->]. unfold last_index, snapshot_index in *. simpl.
  rewrite take_app_le; [done|lia].
Qed.

Lemma config_at_truncate s from s' k :
  storage_wf s → truncate_from from s = Ok s' → k < from → config_at s' k = config_at s k.
Proof.
  intros Hwf Ht Hk. rewrite !config_at_take; [|done|by eapply truncate_from_wf].
  apply truncate_from_Ok in Ht as [Hf ->]. unfold snapshot_index in *. simpl.
  rewrite take_take. rewrite Nat.min_l by lia. done.
Qed.

(** ** The membership in effect *)

(** The node's [members] are what the durable state implies; its
    [members_index] is the index of the entry that carried them, which may
    since have been compacted. *)
Definition members_ok cfg s (ms : Membership) (mi : LogIndex) : Prop :=
  ms = (derive_membership s cfg).1 ∧
  (mi = (derive_membership s cfg).2 ∨
   mi ≤ snapshot_index s ∧ (derive_membership s cfg).2 = snapshot_index s).

Lemma members_ok_derive cfg s :
  members_ok cfg s (derive_membership s cfg).1 (derive_membership s cfg).2.
Proof. split; [done|by left]. Qed.

Lemma members_ok_save cfg s h ms mi :
  members_ok cfg s ms mi → members_ok cfg (save_hard_state h s) ms mi.
Proof. done. Qed.

Lemma derive_append cfg s es s' :
  append es s = Ok s' →
  derive_membership s' cfg =
  match latest_config es with Some r => r | None => derive_membership s cfg end.
Proof.
  intros [_ ->]%append_Ok. unfold derive_membership, snapshot_index. simpl.
  rewrite latest_config_app. by destruct (latest_config es).
Qed.

Lemma append_members_ok cfg s es s' ms mi :
  append es s = Ok s' → members_ok cfg s ms mi →
  match latest_config es with
  | Some (ms', mi') => members_ok cfg s' ms' mi'
  | None => members_ok cfg s' ms mi
  end.
Proof.
  intros Ha Hm. unfold members_ok. rewrite (derive_append _ _ _ _ Ha).
  destruct (latest_config es) as [[ms' mi']|]; [split; [done|by left]|].
  apply append_Ok in Ha as [_ ->]. exact Hm.
Qed.

(** Truncating above the entry that carried the configuration leaves it. *)
Lemma truncate_members_ok cfg s from s' ms mi :
  storage_wf s → truncate_from from s = Ok s' → members_ok cfg s ms mi → mi < from →
  members_ok cfg s' ms mi.
Proof.
  intros Hwf Ht Hm Hlt. apply truncate_from_Ok in Ht as [Hf ->].
  set (p := N.to_nat (from - snapshot_index s - 1)).
  assert (latest_config (take p (st_log s)) = latest_config (st_log s)) as Hl.
  { rewrite <-(take_drop p (st_log s)) at 2. rewrite latest_config_app.
    destruct (latest_config (drop p (st_log s))) as [[ms' mi']|] eqn:Hd; [exfalso|done].
    pose proof (latest_config_elem _ _ _ Hd) as (e & (q & Hq)%list_elem_of_lookup & Hi & _).
    rewrite lookup_drop in Hq. pose proof (contiguous_lookup _ _ _ _ Hwf Hq) as Hidx.
    destruct Hm as [_ Hm]. unfold derive_membership in Hm.
    rewrite <-(take_drop p (st_log s)), latest_config_app, Hd in Hm. simpl in Hm. lia. }
  unfold members_ok, derive_membership, snapshot_index in *. simpl.
  replace (N.to_nat (from - _ - 1)) with p by done. by rewrite Hl.
Qed.

(** Compaction with the membership of the boundary keeps it too. *)
Lemma compact_members_ok cfg s k v s' ms mi :
  storage_wf s → compact_to k v (config_at s k) s = Ok s' → members_ok cfg s ms mi →
  members_ok cfg s' ms mi.
Proof.
  intros Hwf Hc Hm. rewrite (config_at_take _ _ Hwf) in Hc.
  pose proof (compact_to_range _ _ _ _ _ Hc) as Hr.
  apply compact_to_Ok in Hc as (e & _ & ->). set (p := N.to_nat (k - snapshot_index s)) in *.
  assert (latest_config (st_log s) =
          match latest_config (drop p (st_log s)) with
          | Some r => Some r | None => latest_config (take p (st_log s)) end) as Hsplit.
  { by rewrite <-latest_config_app, take_drop. }
  unfold members_ok, derive_membership in *. rewrite Hsplit in Hm. cbn [st_log st_snapshot].
  assert (∀ hd sn l, snapshot_index (MkStorage hd (Some sn) l) = last_included_index sn) as Hsi by done.
  rewrite Hsi. simpl in *.
  destruct (latest_config (drop p (st_log s))) as [[ms' mi']|] eqn:Hd; simpl in *.
  { destruct Hm as [-> [->|[_ Hmi]]]; [by split; [|left]|exfalso].
    pose proof (latest_config_elem _ _ _ Hd) as (e' & (q & Hq)%list_elem_of_lookup & Hi & _).
    rewrite lookup_drop in Hq. pose proof (contiguous_lookup _ _ _ _ Hwf Hq). lia. }
  destruct (latest_config (take p (st_log s))) as [[ms' mi']|] eqn:Hp; simpl in *.
  - pose proof (latest_config_elem _ _ _ Hp) as (e' & (q & Hq)%list_elem_of_lookup & Hi & _).
    apply lookup_take_Some in Hq as [Hq Hlt]. pose proof (contiguous_lookup _ _ _ _ Hwf Hq) as Hidx.
    split; [by destruct Hm|]. right. split; [|done]. destruct Hm as [_ [->|[? _]]]; lia.
  - destruct (st_snapshot s ≫= sn_membership); simpl in *; [|destruct (c_join cfg); simpl in *].
    + split; [by destruct Hm|]. right. split; [|done]. lia.
    + split; [by destruct Hm|]. left. lia.
    + split; [by destruct Hm|]. left. lia.
Qed.
End config.

(** ** The invariant *)
Section invariant.
Context `{J : SerdeJson} {SM : Type} `{!StateMachine SM} (sm0 : SM).
Implicit Types n : RaftNode SM.

(** Waiting proposals are uncommitted entries of the log. *)
Definition pending_ok (s : Storage) (ci : LogIndex) (ps : list PendingProposal) : Prop :=
  ∀ p, p ∈ ps → ci < pp_index p ∧ term s (pp_index p) = Some (pp_term p).

(** A captured state is the state at its index, with the configuration of
    that index; a capture the boundary has overtaken is stale. *)
Definition staged_ok (s : Storage) (la : LogIndex)
    (staged : option (LogIndex * Value * option Membership)) : Prop :=
  match staged with
  | None => True
  | Some (k, v, ms) =>
      k ≤ la ∧
      (snapshot_index s < k → ms = config_at s k ∧ ∃ sm, sm_at sm0 s k = Some sm ∧ v = sm_snapshot sm)
  end.

Record leader_ok (s : Storage) (l : LeaderState) : Prop := {
  lo_next p i : next_index l !! p = Some i → 1 ≤ i ≤ last_index s + 1;
  lo_match p i : match_index l !! p = Some i → i ≤ last_index s;
  lo_start : 1 ≤ term_start_index l ≤ last_index s;
}.

Definition role_ok (s : Storage) (r : Role) : Prop :=
  match r with Leader l => leader_ok s l | _ => True end.

(** What holds at every point of a handler. *)
Record core n : Prop := {
  core_cfg : cfg_ok (n_config n);
  core_storage : storage_wf (n_storage n);
  core_applied : snapshot_index (n_storage n) ≤ n_last_applied n;
  core_commit : n_last_applied n ≤ n_commit_index n ≤ last_index (n_storage n);
  core_role : role_ok (n_storage n) (n_role n);
  core_sm : sm_at sm0 (n_storage n) (n_last_applied n) = Some (n_state_machine n);
  core_staged : staged_ok (n_storage n) (n_last_applied n) (n_staged_snapshot n);
}.

(** What holds between two iterations. *)
Record node_wf n : Prop := {
  wf_core : core n;
  wf_applied : n_last_applied n = n_commit_index n;
  wf_pending : pending_ok (n_storage n) (n_commit_index n) (n_pending n);
  wf_members : members_ok (n_config n) (n_storage n) (n_members n) (n_members_index n);
}.

(** The same before waiting proposals are settled. *)
Record nearly_wf n : Prop := {
  nw_core : core n;
  nw_applied : n_last_applied n = n_commit_index n;
  nw_members : members_ok (n_config n) (n_storage n) (n_members n) (n_members_index n);
}.

Lemma nearly_wf_wf n :
  nearly_wf n → pending_ok (n_storage n) (n_commit_index n) (n_pending n) → node_wf n.
Proof. by intros []. Qed.
Lemma wf_nearly n : node_wf n → nearly_wf n.
Proof. by intros []. Qed.

Lemma leader_ok_grow s s' l : leader_ok s l → last_index s ≤ last_index s' → leader_ok s' l.
Proof.
  intros [H1 H2 H3] Hle. split; [intros p i Hi; specialize (H1 p i Hi); lia
    |intros p i Hi; specialize (H2 p i Hi); lia|lia].
Qed.
Lemma role_ok_grow s s' r : role_ok s r → last_index s ≤ last_index s' → role_ok s' r.
Proof. destruct r; simpl; [done..|]. apply leader_ok_grow. Qed.

(** *** The storage operations keep the parts that depend on the storage *)
Lemma core_append n es s' :
  core n → append es (n_storage n) = Ok s' → core (set_storage s' n).
Proof.
  intros [] Ha. pose proof (last_index_append _ _ _ Ha) as Hl.
  assert (snapshot_index s' = snapshot_index (n_storage n)) as Hsi by (by apply append_Ok in Ha as [_ ->]).
  split; nsimpl; [done|by eapply append_wf|lia|lia| | |].
  - eapply role_ok_grow; [done|lia].
  - rewrite (sm_at_append _ _ _ _ _ Ha); [done|lia].
  - unfold staged_ok in *. destruct (n_staged_snapshot n) as [[[k v] ms]|]; [|done].
    destruct core_staged0 as [Hk Hs]. split; [done|]. rewrite Hsi. intros [Hm Hsm]%Hs.
    rewrite (config_at_append _ _ _ _ core_storage0 Ha), (sm_at_append _ _ _ _ _ Ha) by lia. done.
Qed.

Lemma pending_append s es s' ci ps :
  append es s = Ok s' → pending_ok s ci ps → pending_ok s' ci ps.
Proof.
  intros Ha Hp p Hin. destruct (Hp p Hin) as [Hlt Ht]. split; [done|].
  rewrite (term_append _ _ _ _ Ha); [done|]. apply (term_is_Some s). eauto.
Qed.

Lemma core_truncate n from s' :
  core n → is_leader n = false → n_commit_index n < from →
  truncate_from from (n_storage n) = Ok s' → core (set_storage s' n).
Proof.
  intros [] Hr Hf Ht. pose proof (last_index_truncate _ _ _ Ht) as Hl.
  assert (snapshot_index s' = snapshot_index (n_storage n)) as Hsi
    by (by apply truncate_from_Ok in Ht as [_ ->]).
  split; nsimpl; [done|by eapply truncate_from_wf|lia|lia| | |].
  - unfold is_leader in Hr. by destruct (n_role n).
  - rewrite (sm_at_truncate _ _ _ _ _ Ht); [done|lia].
  - unfold staged_ok in *. destruct (n_staged_snapshot n) as [[[k v] ms]|]; [|done].
    destruct core_staged0 as [Hk Hs]. split; [done|]. rewrite Hsi. intros [Hm Hsm]%Hs.
    rewrite (config_at_truncate _ _ _ _ core_storage0 Ht), (sm_at_truncate _ _ _ _ _ Ht) by lia. done.
Qed.

Lemma core_compact `{!StateMachineLaws} n k sm s' :
  core n → k ≤ n_last_applied n → n_staged_snapshot n = None →
  sm_at sm0 (n_storage n) k = Some sm →
  compact_to k (sm_snapshot sm) (config_at (n_storage n) k) (n_storage n) = Ok s' →
  core (set_storage s' n).
Proof.
  intros [] Hk Hst Hsm Hc. pose proof (last_index_compact _ _ _ _ _ Hc) as Hl.
  pose proof (compact_to_snapshot_index _ _ _ _ _ Hc) as Hsi.
  split; nsimpl; [done|by eapply compact_to_wf|lia|lia| | |].
  - eapply role_ok_grow; [done|lia].
  - by rewrite (sm_at_compact _ _ _ _ _ _ _ Hc Hsm).
  - by rewrite Hst.
Qed.

Lemma pending_compact s k v ms s' ci ps :
  compact_to k v ms s = Ok s' → k ≤ ci → pending_ok s ci ps → pending_ok s' ci ps.
Proof.
  intros Hc Hk Hp p Hin. destruct (Hp p Hin) as [Hlt Ht]. split; [done|].
  rewrite (term_compact _ _ _ _ _ _ Hc); [done|lia].
Qed.

Lemma core_save n h : core n → core (set_storage (save_hard_state h (n_storage n)) n).
Proof. intros []. split; nsimpl; try assumption. by eapply role_ok_grow. Qed.

(** *** Updates that do not matter to the invariant *)
Lemma core_frame n n' :
  core n → n_config n' = n_config n → n_storage n' = n_storage n →
  n_state_machine n' = n_state_machine n → n_role n' = n_role n →
  n_commit_index n' = n_commit_index n → n_last_applied n' = n_last_applied n →
  n_staged_snapshot n' = n_staged_snapshot n → core n'.
Proof. intros [] E1 E2 E3 E4 E5 E6 E7. split; by rewrite ?E1, ?E2, ?E3, ?E4, ?E5, ?E6, ?E7. Qed.

Lemma wf_frame n n' :
  node_wf n → n_config n' = n_config n → n_storage n' = n_storage n →
  n_state_machine n' = n_state_machine n →
  n_commit_index n' = n_commit_index n → n_last_applied n' = n_last_applied n →
  n_staged_snapshot n' = n_staged_snapshot n → n_pending n' = n_pending n →
  n_members n' = n_members n → n_members_index n' = n_members_index n →
  role_ok (n_storage n) (n_role n') → node_wf n'.
Proof.
  intros [[] ? ? ?] E1 E2 E3 E5 E6 E7 E8 E9 E10 E4.
  split; [split|..]; by rewrite ?E1, ?E2, ?E3, ?E5, ?E6, ?E7, ?E8, ?E9, ?E10.
Qed.
End invariant.

(** Closing [core] or [node_wf] of a node whose relevant fields are known. *)
Ltac role_done :=
  first [exact I|assumption
        |match goal with Hr : role_ok _ (Leader _) |- role_ok _ (Leader _) =>
           destruct Hr; split; assumption end].
Ltac wf_done :=
  match goal with
  | H : node_wf _ ?n |- node_wf _ ?n => exact H
  | H : node_wf _ _ |- node_wf _ _ =>
      solve [eapply wf_frame; [exact H|reflexivity..|nsimpl; first [apply H|role_done]]]
  end.
#[export] Hint Extern 1 (node_wf _ _) => wf_done : handlers.
Ltac wf_walk := walk; try wf_done.

Section invariant_ops.
Context `{J : SerdeJson} {SM : Type} `{!StateMachine SM} {Laws : StateMachineLaws} (sm0 : SM).
Implicit Types n : RaftNode SM.
#[local] Abbreviation keeps m := (∀ n, node_wf sm0 n → wp m (λ _, node_wf sm0) n).

Lemma emits_wf es : keeps (emits es).
Proof. intros. unfold emits. wf_walk. Qed.
Lemma emit_wf e : keeps (emit e).
Proof. intros. unfold emit. wf_walk. Qed.
#[local] Hint Resolve emits_wf emit_wf : handlers.
Lemma publish_status_wf : keeps publish_status.
Proof. intros. unfold publish_status. wf_walk. Qed.
Lemma publish_membership_wf : keeps publish_membership.
Proof. intros. unfold publish_membership. wf_walk. Qed.
Lemma reset_election_timer_wf : keeps reset_election_timer.
Proof.
  intros n Hn. eapply wpp_mono.
  { apply reset_election_timer_wp. intros Hc. apply Hc, Hn. }
  intros _ n' (r & d & -> & _). wf_done.
Qed.
#[local] Hint Resolve publish_status_wf publish_membership_wf reset_election_timer_wf : handlers.

Lemma members_ok_ready n : node_wf sm0 n → members_ok (n_config n) (n_storage n) (n_members n) (n_members_index n).
Proof. by intros []. Qed.

(** *** Stepping down *)
Lemma stepped_down_wf t ldr n n' : node_wf sm0 n → stepped_down t ldr n n' → node_wf sm0 n'.
Proof.
  intros [[] Ha Hp Hm] [Ec Es Esm Er _ Eci Ela Ep Est Ems Emi _ _ _].
  assert (∃ h, n_storage n' = save_hard_state h (n_storage n)) as [h Eh].
  { rewrite Es. case_bool_decide; [by eexists|]. exists (st_hard_state (n_storage n)).
    by destruct (n_storage n). }
  split; [split|..]; rewrite ?Ec, ?Eh, ?Esm, ?Er, ?Eci, ?Ela, ?Ep, ?Est, ?Ems, ?Emi; done.
Qed.

Lemma become_follower_wf t ldr n :
  node_wf sm0 n → cur_term n ≤ t →
  wp (become_follower t ldr) (λ _ n', node_wf sm0 n' ∧ stepped_down t ldr n n') n.
Proof.
  intros Hn Ht. eapply wpp_mono; [apply become_follower_wp; [intros Hc; apply Hc, Hn|lia]|].
  intros [] n' Hs. split; [by eapply stepped_down_wf|done].
Qed.

(** *** Applying *)
Lemma apply_loop_spec fuel n :
  core sm0 n → N.of_nat fuel = n_commit_index n - n_last_applied n →
  wp (apply_loop fuel) (λ _ n', core sm0 n' ∧
    ∃ sm, n' = set_state_machine sm (set_last_applied (n_commit_index n) n)) n.
Proof.
  revert n. induction fuel as [|fuel IH]; intros n Hc Hf; simpl.
  { walk. split; [done|]. exists (n_state_machine n). pose proof (core_commit _ _ Hc).
    replace (n_commit_index n) with (n_last_applied n) by lia. by destruct n. }
  destruct (Hc) as [? ? ? ? ? Hsm Hst]. walk; bools; [| |lia].
  - match goal with H : entry _ _ = Some ?e |- _ => rename H into He end.
    eapply wpp_mono; [apply IH|].
    + split; nsimpl; [done|done|lia|lia|done| |].
      * rewrite (sm_at_step _ _ _ _ core_applied0 He), Hsm. done.
      * unfold staged_ok in *. destruct (n_staged_snapshot n) as [[[k v] ms]|]; [|done].
        destruct Hst. split; [lia|done].
    + nsimpl. lia.
    + intros _ n' [Hc' [sm ->]]. split; [done|]. exists sm. done.
  - match goal with H : entry _ _ = None |- _ => apply entry_None in H end. lia.
Qed.

(** Settling leaves exactly the proposals whose fate is open. *)
Lemma resolve_pending_core n :
  core sm0 n → n_last_applied n = n_commit_index n →
  wp resolve_pending (λ _ n', core sm0 n' ∧ n_last_applied n' = n_commit_index n' ∧
    pending_ok (n_storage n') (n_commit_index n') (n_pending n') ∧
    n_storage n' = n_storage n ∧ n_commit_index n' = n_commit_index n ∧
    n_config n' = n_config n ∧ n_role n' = n_role n ∧ n_members n' = n_members n ∧
    n_members_index n' = n_members_index n) n.
Proof.
  intros [] Ha. unfold resolve_pending, emits. walk. split; [by split|]. split; [done|].
  split; [|done]. intros p [Hv _]%list_elem_of_filter. unfold verdict in Hv.
  repeat case_bool_decide; simplify_eq. split; [lia|].
  by destruct (decide (term (n_storage n) (pp_index p) = Some (pp_term p))).
Qed.

Lemma resolve_pending_ready n :
  nearly_wf sm0 n → wp resolve_pending (λ _, node_wf sm0) n.
Proof.
  intros [Hc Ha Hm]. eapply wpp_mono; [by apply resolve_pending_core|].
  intros [] n' (? & ? & ? & Es & _ & Ec & _ & Ems & Emi). split; [done..|].
  by rewrite Es, Ec, Ems, Emi.
Qed.

Lemma set_pending_reads_ok s l rs : leader_ok s l → leader_ok s (set_pending_reads rs l).
Proof. by intros []. Qed.
Lemma resolve_reads_wf : keeps resolve_reads.
Proof.
  intros n Hn. unfold resolve_reads, set_leader. walk; [wf_done..|].
  apply emits_wf. eapply wf_frame; [exact Hn|reflexivity..|]. nsimpl.
  pose proof (core_role _ _ (wf_core _ _ Hn)) as Hr.
  match goal with H : n_role n = _ |- _ => rewrite H in Hr end. by apply set_pending_reads_ok.
Qed.
#[local] Hint Resolve resolve_reads_wf : handlers.

(** *** Compacting *)
Lemma set_staged_wf n st :
  node_wf sm0 n → staged_ok sm0 (n_storage n) (n_last_applied n) st → node_wf sm0 (set_staged_snapshot st n).
Proof. intros [[] ? ? ?] Hst. split; [by split|done..]. Qed.

Lemma compact_wf n k v ms :
  node_wf sm0 n → n_staged_snapshot n = Some (k, v, ms) → snapshot_index (n_storage n) < k →
  wp (modify (set_staged_snapshot None) ;; storage_op (compact_to k v ms)) (λ _, node_wf sm0) n.
Proof.
  intros [Hc Ha Hp Hm] Hst Hk. pose proof (core_staged _ _ Hc) as Hs. rewrite Hst in Hs.
  destruct Hs as [Hle Hs]. destruct (Hs Hk) as [-> (sm & Hsm & ->)].
  assert (core sm0 (set_staged_snapshot None n)) as Hc' by (by destruct Hc; split).
  unfold storage_op, emit. walk.
  - match goal with H : compact_to _ _ _ _ = Ok ?s |- _ => rename H into Hok end.
    pose proof (core_compact sm0 _ _ _ _ Hc' ltac:(done) eq_refl Hsm Hok) as Hcc.
    split; nsimpl; [|done| |].
    + eapply core_frame; [exact Hcc|reflexivity..].
    + eapply pending_compact; [done|lia|done].
    + eapply compact_members_ok; [|done..]. apply Hc.
  - match goal with H : compact_to _ _ _ _ = Err _ |- _ => unfold compact_to in H end.
    destruct (proj2 (entry_is_Some (n_storage n) k)) as [e' He].
    { pose proof (core_commit _ _ Hc). lia. }
    by rewrite He in *.
Qed.

Lemma maybe_compact_wf : keeps maybe_compact.
Proof.
  intros n Hn. unfold maybe_compact. do 2 walk_step.
  destruct (c_snapshot_threshold (n_config n)) as [threshold|]; [|by walk].
  apply wpp_bind.
  (* discard a stale capture *)
  eapply (wpp_mono _ _ (λ _ n1, node_wf sm0 n1 ∧ ∀ k v ms,
    n_staged_snapshot n1 = Some (k, v, ms) → snapshot_index (n_storage n1) < k)).
  { walk; bools; (split; [apply set_staged_wf || idtac; done|]); intros k v ms E; nsimpl; [done|].
    rewrite E in *. by bools; lia. }
  intros [] n1 [Hn1 Hfresh]. walk_step. walk_step. apply wpp_bind.
  (* capture *)
  eapply (wpp_mono _ _ (λ _ n2, node_wf sm0 n2 ∧ ∀ k v ms,
    n_staged_snapshot n2 = Some (k, v, ms) → snapshot_index (n_storage n2) < k)).
  { walk; [|by split]. bools. split; [|nsimpl; intros k v ms [= <- <- <-]; lia].
    apply set_staged_wf; [done|]. split; [done|]. intros _. split; [done|].
    exists (n_state_machine n1). split; [apply Hn1|done]. }
  intros [] n2 [Hn2 Hfresh2]. walk_step. walk_step.
  destruct (n_staged_snapshot n2) as [[[k v] ms]|] eqn:Hst; [|by walk].
  apply wpp_when; [|done]. intros _. by apply compact_wf; [..|eapply Hfresh2].
Qed.
#[local] Hint Resolve maybe_compact_wf : handlers.

(** Everything committed is applied, then waiters settle. *)
Lemma apply_committed_ready n :
  core sm0 n → members_ok (n_config n) (n_storage n) (n_members n) (n_members_index n) →
  wp apply_committed (λ _, node_wf sm0) n.
Proof.
  intros Hc Hm. unfold apply_committed. do 3 walk_step.
  eapply wpp_mono; [apply apply_loop_spec; [done|lia]|]. intros _ n' [Hc' [sm ->]].
  walk_step. eapply wpp_mono; [by apply resolve_pending_ready|]. intros [] n' Hn. by walk.
Qed.

(** *** Replicating *)
Lemma next_in_bounds s l p :
  leader_ok s l → 1 ≤ default (last_index s + 1) (next_index l !! p) ≤ last_index s + 1.
Proof.
  intros Hl. destruct (next_index l !! p) eqn:E; simpl; [by eapply lo_next|]. unfold last_index. lia.
Qed.

Lemma send_append_wf p : keeps (send_append p).
Proof.
  intros n Hn. pose proof (core_role _ _ (wf_core _ _ Hn)) as Hr.
  unfold send_append, send_install_snapshot. wf_walk; bools.
  all: pose proof (next_in_bounds _ _ p Hr) as Hnext.
  - match goal with H : st_snapshot _ = None |- _ => unfold snapshot_index in *; rewrite H in * end.
    simpl in *. lia.
  - match goal with H : term _ _ = None |- _ => apply term_None in H end.
    unfold checked_sub in *. case_decide; simplify_eq. lia.
  - unfold checked_sub in *. case_decide; [done|lia].
Qed.
Lemma send_appends_wf ps : keeps (for_each ps send_append).
Proof. intros n Hn. apply wpp_for_each; [done|]. intros. by apply send_append_wf. Qed.
#[local] Hint Resolve send_append_wf send_appends_wf : handlers.

Lemma step_down_wf ldr n : node_wf sm0 n → wp (become_follower (cur_term n) ldr) (λ _, node_wf sm0) n.
Proof. intros Hn. eapply wpp_mono; [by apply become_follower_wf|]. by intros _ n' [? _]. Qed.
#[local] Hint Resolve step_down_wf : handlers.

Lemma core_raise_commit n i :
  core sm0 n → n_commit_index n ≤ i ≤ last_index (n_storage n) → core sm0 (set_commit_index i n).
Proof. intros [] Hi. split; nsimpl; try done. lia. Qed.

Lemma maybe_advance_commit_wf : keeps maybe_advance_commit.
Proof.
  intros n Hn. unfold maybe_advance_commit. wf_walk; bools.
  - match goal with H : term _ ?c = Some _ |- _ =>
      assert (c ≤ last_index (n_storage n)) by (apply (term_is_Some (n_storage n)); eauto) end.
    eapply wpp_mono; [apply apply_committed_ready; [apply core_raise_commit|]|].
    + apply Hn.
    + lia.
    + apply Hn.
    + intros [] n1 Hn1. wf_walk.
  - match goal with H : _ !! _ = None |- _ => apply lookup_ge_None in H end.
    unfold majority, majority_of in *. lia.
Qed.
#[local] Hint Resolve maybe_advance_commit_wf : handlers.

Lemma on_heartbeat_tick_wf : keeps on_heartbeat_tick.
Proof. intros n Hn. unfold on_heartbeat_tick. wf_walk. Qed.
#[local] Hint Resolve on_heartbeat_tick_wf : handlers.

(** A leader's own append is always accepted. *)
Lemma append_one_Ok s t c :
  append [MkLogEntry t (last_index s + 1) c] s =
  Ok (MkStorage (st_hard_state s) (st_snapshot s) (st_log s ++ [MkLogEntry t (last_index s + 1) c])).
Proof. by apply append_Ok. Qed.

(** An append without a configuration change. *)
Lemma append_node_wf n es s' :
  node_wf sm0 n → append es (n_storage n) = Ok s' → latest_config es = None →
  node_wf sm0 (set_storage s' n).
Proof.
  intros [Hc Ha Hp Hm] Hok Hcfg. split; nsimpl; [by eapply core_append|done|by eapply pending_append|].
  pose proof (append_members_ok _ _ _ _ _ _ Hok Hm) as Hm'. by rewrite Hcfg in Hm'.
Qed.

Lemma fresh_leader_ok s (peers : gset N) start contact :
  1 ≤ start ≤ last_index s →
  leader_ok s (MkLeaderState (gset_to_gmap start peers) (gset_to_gmap 0 peers) start 0 ∅ contact ∅ []).
Proof.
  intros Hs. split; simpl; [|intros p i [_ <-]%lookup_gset_to_gmap_Some; lia|done].
  intros p i [_ <-]%lookup_gset_to_gmap_Some. lia.
Qed.

Lemma maybe_become_leader_wf : keeps maybe_become_leader.
Proof.
  intros n Hn. unfold maybe_become_leader, set_leader, storage_op, emit. walk; try wf_done.
  - match goal with H : append _ _ = Ok ?s |- wpp _ _ _ ?m =>
      pose proof (last_index_append _ _ _ H) as Hl; assert (node_wf sm0 m) as Hm end.
    { eapply wf_frame; [by eapply (append_node_wf n)|reflexivity..|]. nsimpl.
      apply fresh_leader_ok. simpl in Hl. lia. }
    wf_walk.
  - by rewrite append_one_Ok in *.
Qed.
#[local] Hint Resolve maybe_become_leader_wf : handlers.

(** *** Elections *)
Lemma save_hs_wf h n : node_wf sm0 n → node_wf sm0 (set_storage (save_hard_state h (n_storage n)) n).
Proof. intros [Hc ? ? ?]. by split; [apply core_save|..]. Qed.

Lemma start_election_wf : keeps start_election.
Proof.
  intros n Hn. unfold start_election, save_hs, storage_op, emit. walk; [|done].
  match goal with H : Ok _ = Ok _ |- _ => injection H as <- end.
  match goal with |- wpp _ _ _ ?m => assert (node_wf sm0 m) as Hm end.
  { eapply wf_frame; [by apply save_hs_wf|reflexivity..|done]. }
  wf_walk.
Qed.
#[local] Hint Resolve start_election_wf : handlers.
Lemma maybe_start_election_wf : keeps maybe_start_election.
Proof. intros n Hn. unfold maybe_start_election. wf_walk. Qed.
#[local] Hint Resolve maybe_start_election_wf : handlers.
Lemma on_election_timeout_wf : keeps on_election_timeout.
Proof. intros n Hn. unfold on_election_timeout. wf_walk. Qed.

(** *** Client requests *)
Lemma handle_read_wf r : keeps (handle_read r).
Proof.
  intros n Hn. pose proof (core_role _ _ (wf_core _ _ Hn)) as Hr.
  unfold handle_read, set_leader. wf_walk.
Qed.
#[local] Hint Resolve on_election_timeout_wf handle_read_wf : handlers.

(** *** Changing the configuration *)
Lemma adopt_leader_ok n ms i l s : leader_ok s l → leader_ok s (adopt_leader n ms i l).
Proof. by intros []. Qed.

Lemma adopt_membership_ready ms i n :
  core sm0 n → n_last_applied n = n_commit_index n →
  members_ok (n_config n) (n_storage n) ms i →
  wp (adopt_membership ms i) (λ _ n', nearly_wf sm0 n' ∧ n_storage n' = n_storage n ∧
    n_commit_index n' = n_commit_index n ∧ n_pending n' = n_pending n ∧
    is_leader n' = is_leader n) n.
Proof.
  intros [] Ha Hm. unfold adopt_membership, publish_membership, set_leader, emit. walk.
  all: (split; [split; [split|..]|]); unfold is_leader; nsimpl; try done.
  all: try by (match goal with H : n_role _ = _ |- _ => rewrite H end).
  all: by apply adopt_leader_ok.
Qed.

Lemma rescan_membership_ready n :
  core sm0 n → n_last_applied n = n_commit_index n →
  wp rescan_membership (λ _ n', nearly_wf sm0 n' ∧ n_storage n' = n_storage n ∧
    n_commit_index n' = n_commit_index n ∧ n_pending n' = n_pending n ∧
    is_leader n' = is_leader n) n.
Proof.
  intros Hc Ha. unfold rescan_membership. do 2 walk_step.
  pose proof (members_ok_derive (n_config n) (n_storage n)) as Hm.
  destruct (derive_membership _ _) as [ms i]. by apply adopt_membership_ready.
Qed.

(** Registering the waiter of an appended proposal. *)
Lemma push_pending_wf n p :
  node_wf sm0 n → n_commit_index n < pp_index p →
  term (n_storage n) (pp_index p) = Some (pp_term p) →
  node_wf sm0 (set_pending (n_pending n ++ [p]) n).
Proof.
  intros [Hc Ha Hp Hm] Hlt Ht. split; nsimpl; [|done| |done].
  - eapply core_frame; [exact Hc|reflexivity..].
  - intros q [Hq|Hq%list_elem_of_singleton]%elem_of_app; [by apply Hp|by subst q].
Qed.

Lemma term_append_one s t c s' :
  append [MkLogEntry t (last_index s + 1) c] s = Ok s' → term s' (last_index s + 1) = Some t.
Proof.
  intros Ha. pose proof (entry_append _ _ _ (last_index s + 1) Ha) as He.
  rewrite bool_decide_eq_false_2 in He by lia.
  replace (N.to_nat (last_index s + 1 - last_index s - 1)) with 0%nat in He by lia.
  rewrite term_above, He; [done|]. apply append_Ok in Ha as [_ ->].
  unfold last_index, snapshot_index. simpl. lia.
Qed.

(** The append of a proposal and the configuration it carries. *)
Lemma append_proposal_wf n c ms :
  node_wf sm0 n → ms = match c with ConfigChange ms => Some ms | _ => None end →
  wp (storage_op (append [MkLogEntry (cur_term n) (last_index (n_storage n) + 1) c]) ;;
      match ms with
      | Some ms => adopt_membership ms (last_index (n_storage n) + 1)
      | None => mret ()
      end)
    (λ _ n', node_wf sm0 n' ∧ n_commit_index n' = n_commit_index n ∧
      term (n_storage n') (last_index (n_storage n) + 1) = Some (cur_term n)) n.
Proof.
  intros Hn Hms. pose proof (append_one_Ok (n_storage n) (cur_term n) c) as Hok.
  set (s' := MkStorage _ _ _) in Hok. pose proof (term_append_one _ _ _ _ Hok) as Ht.
  apply wpp_bind. eapply wpp_storage_op; [exact Hok|].
  pose proof (append_members_ok _ _ _ _ _ _ Hok (wf_members _ _ Hn)) as Hm.
  assert (latest_config [MkLogEntry (cur_term n) (last_index (n_storage n) + 1) c] = None →
          node_wf sm0 (stored s' n)) as Hplain.
  { intros Hcfg. eapply wf_frame; [by eapply (append_node_wf n)|reflexivity..|]. nsimpl.
    eapply role_ok_grow; [apply Hn|]. rewrite (last_index_append _ _ _ Hok). lia. }
  destruct c as [| | |ms']; subst ms; [by apply wpp_ret; split; [apply Hplain|]..|].
  eapply wpp_mono; [apply (adopt_membership_ready ms'); unfold stored; nsimpl|].
  - eapply core_frame; [by eapply (core_append sm0 n); [apply Hn|]|reflexivity..].
  - apply Hn.
  - exact Hm.
  - intros [] n' (Hw & Es & Eci & Ep & _). unfold stored in *. nsimpl.
    rewrite Es, Eci. split; [|done]. apply nearly_wf_wf; [done|]. rewrite Es, Eci, Ep.
    eapply pending_append; [exact Hok|apply Hn].
Qed.

Lemma check_command_pure c n :
  is_leader n = true →
  wp (check_command c) (λ r n', n' = n ∧
    ∀ x, r = Ok x → x = match c with ConfigChange ms => Some ms | _ => None end) n.
Proof.
  unfold is_leader. intros Hl. unfold check_command, validate_config_change. walk; try done.
  all: split; [done|]; naive_solver.
Qed.

Lemma handle_propose_wf c r : keeps (handle_propose c r).
Proof.
  intros n Hn. unfold handle_propose. do 3 walk_step; [by wf_walk|]. bools.
  apply wpp_bind. eapply wpp_mono; [by apply check_command_pure|]. intros res n' [-> Hres].
  destruct res as [ms|reason]; [|by wf_walk]. specialize (Hres ms eq_refl).
  apply wpp_assoc, wpp_bind. eapply wpp_mono; [by apply append_proposal_wf|].
  intros [] n1 (Hn1 & Hci & Ht). do 2 walk_step.
  match goal with |- wpp _ _ _ ?m => assert (node_wf sm0 m) as Hm end.
  { apply push_pending_wf; [done| |done]. rewrite Hci. simpl.
    pose proof (core_commit _ _ (wf_core _ _ Hn)). lia. }
  wf_walk.
Qed.

(** *** Votes *)
Lemma handle_request_vote_wf args : keeps (handle_request_vote args).
Proof.
  intros n Hn. eapply wpp_mono; [apply handle_request_vote_wp; intros Hc; apply Hc, Hn|].
  intros r n' (_ & Es & Er & [Ec Esm Eci Ela Ep Est [Ems Emi]]). destruct Hn as [[] Ha Hp Hm].
  split; [split|..]; rewrite ?Ec, ?Es, ?Esm, ?Eci, ?Ela, ?Ep, ?Est, ?Ems, ?Emi; try done.
  rewrite Er. case_bool_decide; [done|]. by eapply role_ok_grow.
Qed.

Lemma handle_pre_vote_wf args : keeps (handle_pre_vote args).
Proof. intros n Hn. unfold handle_pre_vote. wf_walk. Qed.

(** *** InstallSnapshot *)
Lemma install_snapshot_accepts s snap :
  snapshot_index s < last_included_index snap → ∃ s', install_snapshot snap s = Ok s'.
Proof. intros Hlt. eexists. by apply install_snapshot_Ok. Qed.

(** The payload of a snapshot that would be installed decodes. *)
Definition snapshot_ok n (args : InstallSnapshotArgs) : Prop :=
  cur_term n ≤ is_term args → n_commit_index n < last_included_index (is_snapshot args) →
  is_Some (sm_restore (sn_state (is_snapshot args)) (n_state_machine n)).

Lemma core_install n snap sm s' :
  core sm0 n → is_leader n = false → n_commit_index n < last_included_index snap →
  sm_restore (sn_state snap) (n_state_machine n) = Some sm →
  install_snapshot snap (n_storage n) = Ok s' →
  core sm0 (set_last_applied (last_included_index snap)
    (set_commit_index (last_included_index snap) (set_state_machine sm (stored s' n)))).
Proof.
  intros [] Hr Hci Hsm Hi. pose proof (install_snapshot_index _ _ _ Hi) as Hsi.
  pose proof (last_index_install _ _ _ Hi) as Hl.
  split; unfold stored; nsimpl; [done|by eapply install_snapshot_wf|lia| | | |].
  - destruct (boundary_matches snap _) eqn:Hm; [apply boundary_matches_range in Hm|]; lia.
  - unfold is_leader in Hr. by destruct (n_role n).
  - rewrite <-Hsi, sm_at_base. apply install_snapshot_Ok in Hi as [_ ->]. unfold base_sm. simpl.
    rewrite <-Hsm. apply sm_restore_any.
  - unfold staged_ok in *. destruct (n_staged_snapshot n) as [[[k v] ms]|]; [|done].
    destruct core_staged0 as [Hk _]. split; [lia|]. rewrite Hsi. lia.
Qed.

Lemma handle_install_snapshot_wf args n :
  node_wf sm0 n → snapshot_ok n args →
  wp (handle_install_snapshot args) (λ _, node_wf sm0) n.
Proof.
  intros Hn Hok. unfold handle_install_snapshot. do 3 walk_step; [by walk|]. bools.
  apply wpp_bind. eapply wpp_mono; [apply become_follower_wf; [done|lia]|].
  intros [] n1 [Hn1 Hsd]. do 4 walk_step. nsimpl. walk_step; [by walk; wf_done|]. bools.
  assert (is_Some (sm_restore (sn_state (is_snapshot args)) (n_state_machine n1))) as [sm Hsm].
  { rewrite (sd_sm _ _ _ _ Hsd). apply Hok; [lia|]. rewrite <-(sd_commit _ _ _ _ Hsd). lia. }
  destruct (install_snapshot_accepts (n_storage n1) (is_snapshot args)) as [s' Hi].
  { pose proof (core_applied _ _ (wf_core _ _ Hn1)). pose proof (core_commit _ _ (wf_core _ _ Hn1)). lia. }
  apply wpp_bind. eapply wpp_storage_op; [exact Hi|]. rewrite Hsm.
  apply wpp_bind, wpp_expect; [|done]. intros ? [= <-]. do 3 apply wpp_bind, wpp_modify.
  assert (core sm0 (set_last_leader_contact (Some (n_now n1)) n1)) as Hc
    by (eapply core_frame; [apply Hn1|reflexivity..]).
  apply wpp_bind. eapply wpp_mono.
  { apply rescan_membership_ready; [|done]. eapply core_install; [exact Hc| |nsimpl; lia|done|done].
    unfold is_leader. nsimpl. by rewrite (sd_role _ _ _ _ Hsd). }
  intros [] n2 ([Hc2 Ha2 Hm2] & _). unfold emits. walk. eapply wpp_mono.
  { apply resolve_pending_ready. split; nsimpl; [|done|done]. eapply core_frame; [exact Hc2|reflexivity..]. }
  intros [] n3 Hn3. by walk.
Qed.

(** *** AppendEntries *)

(** Entries that agree with what is committed. *)
Definition no_conflict n (es : list LogEntry) : Prop :=
  ∀ e, e ∈ es → snapshot_index (n_storage n) < e_index e → e_index e ≤ n_commit_index n →
  term (n_storage n) (e_index e) = Some (e_term e).

(** A well-formed AppendEntries: a contiguous batch after [prev] that does
    not contradict a committed entry. *)
Definition append_ok n (args : AppendEntriesArgs) : Prop :=
  cur_term n ≤ ae_term args →
  contiguous (ae_prev_log_index args + 1) (ae_entries args) ∧ no_conflict n (ae_entries args).

(** The state of a follower in the middle of an append. *)
Record following (ci : LogIndex) n : Prop := {
  fo_core : core sm0 n;
  fo_applied : n_last_applied n = n_commit_index n;
  fo_commit : n_commit_index n = ci;
  fo_pending : pending_ok (n_storage n) (n_commit_index n) (n_pending n);
  fo_role : is_leader n = false;
}.

Lemma following_wf ci n :
  following ci n → members_ok (n_config n) (n_storage n) (n_members n) (n_members_index n) →
  node_wf sm0 n.
Proof. by intros []. Qed.

(** Cutting at a conflict above the commit index. *)
Lemma cut_wf n first :
  node_wf sm0 n → is_leader n = false → n_commit_index n < first ≤ last_index (n_storage n) →
  wp (storage_op (truncate_from first) ;; resolve_pending) (λ _ n',
    following (n_commit_index n) n' ∧ last_index (n_storage n') + 1 = first ∧
    (n_members_index n < first →
       members_ok (n_config n') (n_storage n') (n_members n') (n_members_index n'))) n.
Proof.
  intros [Hc Ha Hp Hm] Hr Hf.
  assert (∃ s', truncate_from first (n_storage n) = Ok s') as [s' Ht].
  { eexists. apply truncate_from_Ok. split; [|done]. destruct Hc. lia. }
  pose proof (last_index_truncate _ _ _ Ht) as Hl.
  apply wpp_bind. eapply wpp_storage_op; [exact Ht|]. eapply wpp_mono.
  { apply resolve_pending_core; [|done].
    apply (core_frame sm0 (set_storage s' n)); [|reflexivity..].
    by eapply core_truncate; [..|apply Hf|]. }
  intros [] n' (Hc' & Ha' & Hp' & Es & Eci & Ec & Er & Ems & Emi). unfold stored in *. nsimpl.
  split; [split; [done|done|done|done|unfold is_leader in *; by rewrite Er]|].
  rewrite Es, Ec, Ems, Emi. split; [lia|]. intros Hmi. eapply truncate_members_ok; [apply Hc|done..].
Qed.

Lemma walk_entries_wf es first n :
  node_wf sm0 n → is_leader n = false → contiguous first es → no_conflict n es →
  first ≤ last_index (n_storage n) + 1 →
  wp (walk_entries es) (λ r n',
    following (n_commit_index n) n' ∧
    (r.2 = false → members_ok (n_config n') (n_storage n') (n_members n') (n_members_index n')) ∧
    match r.1 with
    | None => first + N.of_nat (length es) ≤ last_index (n_storage n') + 1
    | Some i => i = last_index (n_storage n') + 1 ∧ first ≤ i < first + N.of_nat (length es)
    end) n.
Proof.
  intros Hn Hr. pose proof Hn as [Hc Ha Hp Hm].
  assert (following (n_commit_index n) n) as Hfo by done.
  revert first. induction es as [|e es IH]; intros first; simpl.
  { intros _ _ Hf. walk. split; [done|]. simpl. split; [done|lia]. }
  intros [He Hcont] Hnc Hf.
  assert (no_conflict n es) as Hnc' by (intros e' ?; apply Hnc; by right).
  assert (first + 1 ≤ last_index (n_storage n) + 1 →
    wp (walk_entries es) (λ r n',
      following (n_commit_index n) n' ∧
      (r.2 = false → members_ok (n_config n') (n_storage n') (n_members n') (n_members_index n')) ∧
      match r.1 with
      | None => first + N.of_nat (S (length es)) ≤ last_index (n_storage n') + 1
      | Some i => i = last_index (n_storage n') + 1 ∧ first ≤ i < first + N.of_nat (S (length es))
      end) n) as Hskip.
  { intros Hlt. eapply wpp_mono; [by apply (IH (first + 1))|].
    intros [[i|] tr] n' (? & ? & ?); simpl in *; (split; [done|]; split; [done|]); lia. }
  clear IH. do 3 walk_step; bools.
  { apply Hskip. unfold last_index. lia. }
  destruct (term (n_storage n) (e_index e)) as [existing|] eqn:Ht.
  - assert (e_index e ≤ last_index (n_storage n)) as Hle by (apply (term_is_Some (n_storage n)); eauto).
    destruct (bool_decide (existing = e_term e)) eqn:Heq; bools; [apply Hskip; lia|].
    assert (n_commit_index n < e_index e) as Hlt.
    { destruct (decide (e_index e ≤ n_commit_index n)); [|lia].
      rewrite Hnc in Ht; [by simplify_eq|by left|lia|done]. }
    rewrite (bool_decide_eq_true_2 (_ < _)) by done. apply wpp_bind, wpp_ret, wpp_assoc, wpp_bind.
    eapply wpp_mono; [by apply cut_wf|]. intros [] n' (Hfo' & Hl & Hmi). walk. simpl.
    split; [done|]. split; [intros ?; bools; apply Hmi; lia|]. lia.
  - apply term_None in Ht. walk. split; [done|]. simpl. split; [done|]. lia.
Qed.

(** Appending the rest of the batch. *)
Lemma append_batch_wf args i n :
  node_wf sm0 n → contiguous (ae_prev_log_index args + 1) (ae_entries args) →
  i = last_index (n_storage n) + 1 →
  ae_prev_log_index args + 1 ≤ i < ae_prev_log_index args + 1 + N.of_nat (length (ae_entries args)) →
  wp (batch ← expect (batch_from args i);
      storage_op (append batch) ;;
      match latest_config batch with
      | Some (ms, index) => adopt_membership ms index
      | None => mret ()
      end) (λ _ n', node_wf sm0 n' ∧ n_commit_index n' = n_commit_index n ∧
    ae_prev_log_index args + N.of_nat (length (ae_entries args)) ≤ last_index (n_storage n')) n.
Proof.
  intros Hn Hcont Hi Hr. set (off := N.to_nat (i - (ae_prev_log_index args + 1))).
  assert (batch_from args i = Some (drop off (ae_entries args))) as ->.
  { unfold batch_from, checked_sub. rewrite decide_True by lia. simpl.
    by rewrite bool_decide_eq_true_2 by lia. }
  apply wpp_bind, wpp_expect; [|done]. intros batch [= <-].
  set (batch := drop off (ae_entries args)).
  assert (contiguous (last_index (n_storage n) + 1) batch) as Hcb.
  { rewrite <-Hi. replace i with (ae_prev_log_index args + 1 + N.of_nat off) by lia.
    apply contiguous_drop; [done|lia]. }
  assert (append batch (n_storage n) = Ok _) as Hok by by apply append_Ok.
  set (s' := MkStorage _ _ _) in Hok. pose proof (last_index_append _ _ _ Hok) as Hl.
  assert (length batch = (length (ae_entries args) - off)%nat) as Hlen by apply length_drop.
  pose proof (append_members_ok _ _ _ _ _ _ Hok (wf_members _ _ Hn)) as Hm.
  apply wpp_bind. eapply wpp_storage_op; [exact Hok|].
  destruct (latest_config batch) as [[ms mi]|] eqn:Hcfg.
  - eapply wpp_mono; [apply adopt_membership_ready; unfold stored; nsimpl|].
    + apply (core_frame sm0 (set_storage s' n)); [|reflexivity..]. eapply core_append; [apply Hn|done].
    + apply Hn.
    + done.
    + intros [] n' (Hw & Es & Eci & Ep & _). unfold stored in *. nsimpl. rewrite Es, Eci.
      split; [|split; [done|lia]]. apply nearly_wf_wf; [done|]. rewrite Es, Eci, Ep.
      eapply pending_append; [exact Hok|apply Hn].
  - walk. split; [|split; [done|unfold stored; nsimpl; lia]].
    eapply wf_frame; [by eapply (append_node_wf n)|reflexivity..|]. unfold stored. nsimpl.
    eapply role_ok_grow; [apply Hn|lia].
Qed.

Lemma accept_entries_wf args n :
  node_wf sm0 n → is_leader n = false →
  contiguous (ae_prev_log_index args + 1) (ae_entries args) → no_conflict n (ae_entries args) →
  ae_prev_log_index args ≤ last_index (n_storage n) →
  wp (accept_entries args) (λ _ n', node_wf sm0 n' ∧ n_commit_index n' = n_commit_index n ∧
    ae_prev_log_index args + N.of_nat (length (ae_entries args)) ≤ last_index (n_storage n')) n.
Proof.
  intros Hn Hr Hcont Hnc Hprev. unfold accept_entries. apply wpp_bind.
  eapply wpp_mono; [apply (walk_entries_wf _ (ae_prev_log_index args + 1)); [done..|lia]|].
  intros [append_from tr] n1 (Hfo & Hmem & Hpos). simpl in *. apply wpp_bind.
  eapply (wpp_mono _ _ (λ _ n2, node_wf sm0 n2 ∧ n_commit_index n2 = n_commit_index n ∧
                                n_storage n2 = n_storage n1)).
  { destruct tr; simpl.
    - eapply wpp_mono; [by apply rescan_membership_ready; apply Hfo|].
      intros [] n2 (Hw & Es & Eci & Ep & _). split; [|by rewrite Eci, (fo_commit _ _ Hfo)].
      apply nearly_wf_wf; [done|]. rewrite Es, Eci, Ep. apply Hfo.
    - walk. split; [|by rewrite (fo_commit _ _ Hfo)]. eapply following_wf; [done|by apply Hmem]. }
  intros [] n2 (Hn2 & Eci & Es). rewrite <-Es in Hpos.
  destruct append_from as [i|]; [|by walk; split; [|split; [|lia]]].
  destruct Hpos as [Hi Hrange]. rewrite <-Eci. by apply append_batch_wf.
Qed.

Lemma prev_matches_range n args :
  prev_matches n args = true → ae_prev_log_index args ≤ last_index (n_storage n).
Proof.
  unfold prev_matches. destruct (term (n_storage n) (ae_prev_log_index args)) eqn:Ht.
  - intros _. apply (term_is_Some (n_storage n)). eauto.
  - intros ?. bools. unfold last_index. lia.
Qed.

Lemma handle_append_entries_wf args n :
  node_wf sm0 n → append_ok n args → wp (handle_append_entries args) (λ _, node_wf sm0) n.
Proof.
  intros Hn Hok. unfold handle_append_entries. do 3 walk_step; [by walk|]. bools.
  destruct Hok as [Hcont Hnc]; [lia|].
  apply wpp_bind. eapply wpp_mono; [apply become_follower_wf; [done|lia]|].
  intros [] n1 [Hn1 Hsd]. do 4 walk_step.
  match goal with |- wpp _ _ _ ?m => set (n2 := m); assert (node_wf sm0 n2) as Hn2 by wf_done end.
  walk_step; [by walk|]. bools. apply wpp_bind. eapply wpp_mono.
  { apply accept_entries_wf; [done| |done| |by apply prev_matches_range].
    - unfold is_leader. subst n2. nsimpl. by rewrite (sd_role _ _ _ _ Hsd).
    - intros e. subst n2. nsimpl. rewrite (sd_storage _ _ _ _ Hsd), (sd_commit _ _ _ _ Hsd).
      case_bool_decide; apply Hnc. }
  intros [] n3 (Hn3 & Eci & Hlast). wf_walk. bools.
  eapply wpp_mono; [apply apply_committed_ready; [apply core_raise_commit; [apply Hn3|lia]|apply Hn3]|].
  intros [] n4 Hn4. by walk.
Qed.
#[local] Hint Resolve handle_request_vote_wf handle_pre_vote_wf handle_install_snapshot_wf
  handle_append_entries_wf handle_propose_wf : handlers.

(** *** Replies *)

(** A reply to an RPC of the current leadership confirms at most what the
    leader's log holds. *)
Definition reply_ok n (ev : Event) : Prop :=
  match ev with
  | AppendReply t _ prev cnt _ (Ok (AppendEntriesResp r)) =>
      t = cur_term n → is_leader n = true → aer_success r = true →
      prev + cnt ≤ last_index (n_storage n)
  | InstallSnapshotReplyEv t _ lii (Ok (InstallSnapshotResp r)) =>
      t = cur_term n → is_leader n = true → isr_term r ≤ t → lii ≤ last_index (n_storage n)
  | _ => True
  end.

Lemma note_append_reply_ok n l from prev cnt seq ok :
  leader_ok (n_storage n) l → (ok = true → prev + cnt ≤ last_index (n_storage n)) →
  leader_ok (n_storage n) (note_append_reply n l from prev cnt seq ok).1.1.
Proof.
  intros [Hnx Hmt Hst] Hc. unfold note_append_reply. destruct ok.
  - specialize (Hc eq_refl).
    assert (default 0 (match_index l !! from) ≤ last_index (n_storage n)) as Hm
      by (destruct (match_index l !! from) eqn:E; simpl; [by eapply Hmt|lia]).
    assert (∀ mt nx dep, leader_ok (n_storage n) (MkLeaderState
        (if bool_decide (default 0 (match_index l !! from) < prev + cnt)
         then <[from := prev + cnt + 1]> (next_index l) else next_index l)
        (<[from := if bool_decide (default 0 (match_index l !! from) < prev + cnt)
                   then prev + cnt else default 0 (match_index l !! from)]> (match_index l))
        (term_start_index l) (heartbeat_seq l) mt nx dep (pending_reads l))) as Hall.
    { intros. split; simpl; [| |done].
      - intros p i. case_bool_decide; [|by apply Hnx].
        intros [[-> <-]|[_ Hi]]%lookup_insert_Some; [lia|by eapply Hnx].
      - intros p i [[-> <-]|[_ Hi]]%lookup_insert_Some; [case_bool_decide; lia|by eapply Hmt]. }
    match goal with |- context [match departing l !! from with _ => _ end] =>
      destruct (match departing l !! from with Some _ => _ | None => _ end); apply Hall end.
  - split; simpl; [|done|done]. intros p i [[-> <-]|[_ Hi]]%lookup_insert_Some; [|by eapply Hnx].
    destruct (next_index l !! p) eqn:E; simpl; [specialize (Hnx _ _ E)|]; lia.
Qed.

Lemma note_snapshot_reply_ok n l from lii :
  leader_ok (n_storage n) l → lii ≤ last_index (n_storage n) →
  leader_ok (n_storage n) (note_snapshot_reply n l from lii).1.
Proof.
  intros [Hnx Hmt Hst] Hle. split; simpl; [| |done].
  - intros p i [[-> <-]|[_ Hi]]%lookup_insert_Some; [|by eapply Hnx].
    destruct (next_index l !! p) eqn:E; simpl; [specialize (Hnx _ _ E)|]; lia.
  - intros p i [[-> <-]|[_ Hi]]%lookup_insert_Some; [|by eapply Hmt].
    destruct (match_index l !! p) eqn:E; simpl; [specialize (Hmt _ _ E)|]; lia.
Qed.

Lemma raise_wf t n : node_wf sm0 n → cur_term n < t → wp (become_follower t None) (λ _, node_wf sm0) n.
Proof.
  intros Hn Ht. eapply wpp_mono; [apply become_follower_wf; [done|lia]|]. by intros [] n' [? _].
Qed.

Lemma on_pre_vote_reply_wf t from r : keeps (on_pre_vote_reply t from r).
Proof.
  intros n Hn. unfold on_pre_vote_reply. wf_walk. bools. by apply raise_wf.
Qed.
Lemma on_vote_reply_wf t from r : keeps (on_vote_reply t from r).
Proof.
  intros n Hn. unfold on_vote_reply. wf_walk. bools. by apply raise_wf.
Qed.

Lemma set_leader_wf n l : node_wf sm0 n → leader_ok (n_storage n) l → node_wf sm0 (set_role (Leader l) n).
Proof. intros Hn Hl. by eapply wf_frame; [exact Hn|reflexivity..|]. Qed.

Lemma on_append_reply_wf t from prev cnt seq r n :
  node_wf sm0 n → reply_ok n (AppendReply t from prev cnt seq (Ok (AppendEntriesResp r))) →
  wp (on_append_reply t from prev cnt seq r) (λ _, node_wf sm0) n.
Proof.
  intros Hn Hok. unfold on_append_reply. do 3 walk_step; bools; [by apply raise_wf|].
  walk_step; bools; [by walk|]. destruct (n_role n) as [| | |l] eqn:Hrole; [by walk..|].
  pose proof (core_role _ _ (wf_core _ _ Hn)) as Hr. rewrite Hrole in Hr.
  pose proof (note_append_reply_ok n l from prev cnt seq (aer_success r) Hr) as Hl.
  destruct (note_append_reply _ _ _ _ _ _ _) as [[l' resend] departed]. unfold set_leader.
  do 2 walk_step. match goal with |- wpp _ _ _ ?m => assert (node_wf sm0 m) as Hm end.
  { apply set_leader_wf; [done|]. apply Hl. intros Hs. apply Hok; [|unfold is_leader; by rewrite Hrole|done].
    by destruct (decide (t = cur_term n)). }
  wf_walk.
Qed.

Lemma on_snapshot_reply_wf t from lii r n :
  node_wf sm0 n → reply_ok n (InstallSnapshotReplyEv t from lii (Ok (InstallSnapshotResp r))) →
  wp (on_snapshot_reply t from lii r) (λ _, node_wf sm0) n.
Proof.
  intros Hn Hok. unfold on_snapshot_reply. do 3 walk_step; bools; [by apply raise_wf|].
  walk_step; bools; [by walk|]. destruct (n_role n) as [| | |l] eqn:Hrole; [by walk..|].
  pose proof (core_role _ _ (wf_core _ _ Hn)) as Hr. rewrite Hrole in Hr.
  pose proof (note_snapshot_reply_ok n l from lii Hr) as Hl.
  destruct (note_snapshot_reply _ _ _ _) as [l' departed]. unfold set_leader.
  do 2 walk_step. match goal with |- wpp _ _ _ ?m => assert (node_wf sm0 m) as Hm end.
  { assert (t = cur_term n) as -> by by destruct (decide (t = cur_term n)).
    apply set_leader_wf; [done|]. apply Hl, Hok; [done|unfold is_leader; by rewrite Hrole|lia]. }
  wf_walk.
Qed.
#[local] Hint Resolve on_pre_vote_reply_wf on_vote_reply_wf on_append_reply_wf
  on_snapshot_reply_wf : handlers.

Lemma handle_event_wf ev n :
  node_wf sm0 n → reply_ok n ev → wp (handle_event ev) (λ _, node_wf sm0) n.
Proof. intros Hn Hok. unfold handle_event. wf_walk. Qed.

(** ** Every iteration *)

(** What the rest of the system guarantees about an input. *)
Definition input_ok n (i : LoopInput) : Prop :=
  match i with
  | InRpc _ (AppendEntries args) => append_ok n args
  | InRpc _ (InstallSnapshot args) => snapshot_ok n args
  | InEvent ev => reply_ok n ev
  | _ => True
  end.

Lemma dispatch_wf i n : node_wf sm0 n → input_ok n i → wp (dispatch i) (λ _, node_wf sm0) n.
Proof.
  intros Hn Hok. unfold dispatch, handle_inbound. destruct i as [| | | |from req|ev].
  all: try by wf_walk.
  apply wpp_bind. eapply wpp_mono; [by apply handle_event_wf|]. intros [] n' Hn'. by walk.
Qed.

Lemma loop_step_wf t i n : node_wf sm0 n → input_ok n i → wp (loop_step t i) (λ _, node_wf sm0) n.
Proof.
  intros Hn Hok. unfold loop_step, publish_status, emit. walk.
  all: by apply dispatch_wf; [wf_done|].
Qed.

(** *** Boot *)
Lemma spawn_wf cfg s t0 :
  cfg_ok cfg → storage_wf s → is_Some (base_sm sm0 s) →
  ∃ n, spawn cfg s sm0 t0 = Some n ∧ node_wf sm0 n.
Proof.
  intros Hcfg Hs [sm Hsm]. unfold spawn. unfold base_sm in Hsm. rewrite Hsm. simpl.
  pose proof (members_ok_derive cfg s) as Hm. destruct (derive_membership s cfg) as [ms mi].
  match goal with |- context [reset_election_timer ?n] =>
    assert (node_wf sm0 n) as Hn; [|pose proof (reset_election_timer_wf n Hn) as Hw] end.
  { split; [split|..]; nsimpl; try done.
    - unfold last_index. lia.
    - by rewrite sm_at_base.
    - intros p Hp. by apply elem_of_nil in Hp. }
  unfold wpp in Hw. destruct (reset_election_timer _) as [[[] n]|]; [|done]. by exists n.
Qed.
End invariant_ops.
