(* ===== verification/NodeThm.v ===== *)
(** * What a node guarantees

    The node-level theorems that follow from the invariant of [NodeInv]: a
    restart rebuilds the state machine and the membership,
    the commit rule is the quorum rule, and an admitted configuration change
    keeps majorities overlapping. *)
From S2P Require Import Prelude Types Rng Storage Node NodeSteps NodeLife NodeInv.
Open Scope N_scope.

(** ** A state machine and a cluster to run the model on

    The state machine that counts applied entries; node 1 of a three-node
    cluster with the default timers. *)
Section sample.
#[local] Existing Instance numeric_json.

#[local] Instance counter_sm : StateMachine N := {|
  sm_apply _ s := s + 1;
  sm_snapshot s := jv s;
  sm_restore v _ := Some v;
|}.

#[local] Instance counter_laws : StateMachineLaws (SM := N).
Proof. by split. Qed.

Definition sample_config : RaftConfig := RaftConfig_new 1 [2; 3].
Definition blank_storage : Storage := MkStorage HardState_default None [].

Lemma sample_boot t0 :
  ∃ n, spawn (SM := N) sample_config blank_storage 0 t0 = Some n ∧ node_wf 0 n.
Proof. apply spawn_wf; [by vm_compute|done|by exists 0]. Qed.

Definition sample_entry : LogEntry := MkLogEntry 1 1 Noop.
Definition sample_append : AppendEntriesArgs := MkAppendEntriesArgs 1 2 0 0 [sample_entry] 0.
End sample.

(** ** Counting a quorum *)

(** How many of [l] are at least [j]. *)
Definition count_ge (j : N) (l : list N) : nat := count_if (λ x, bool_decide (j ≤ x)) l.

Lemma count_if_app {A} (f : A → bool) l1 l2 : count_if f (l1 ++ l2) = (count_if f l1 + count_if f l2)%nat.
Proof. unfold count_if. by rewrite filter_app, length_app. Qed.
Lemma count_if_perm {A} (f : A → bool) l1 l2 : l1 ≡ₚ l2 → count_if f l1 = count_if f l2.
Proof. intros Hp. unfold count_if. by rewrite Hp. Qed.
Lemma count_if_le {A} (f : A → bool) l : (count_if f l ≤ length l)%nat.
Proof. apply length_filter. Qed.
Lemma count_if_all {A} (f : A → bool) l : (∀ x, x ∈ l → f x = true) → count_if f l = length l.
Proof. intros Hf. unfold count_if. by rewrite filter_all. Qed.
Lemma count_if_none {A} (f : A → bool) l : (∀ x, x ∈ l → f x = false) → count_if f l = 0%nat.
Proof. intros Hf. unfold count_if. rewrite filter_none; [done|]. intros x Hx. by rewrite Hf. Qed.
Lemma count_if_ext {A} (f g : A → bool) l : (∀ x, x ∈ l → f x = g x) → count_if f l = count_if g l.
Proof.
  unfold count_if. induction l as [|x l IH]; intros Hfg; [done|].
  rewrite !filter_cons, (Hfg x) by set_solver. case_decide; simpl; rewrite IH; set_solver.
Qed.
Lemma count_if_singleton {A} (f : A → bool) x : count_if f [x] = if f x then 1%nat else 0%nat.
Proof. unfold count_if. rewrite filter_cons. by destruct (f x). Qed.
Lemma count_if_map {A B} (f : B → bool) (g : A → B) l : count_if f (g <$> l) = count_if (λ x, f (g x)) l.
Proof.
  unfold count_if. induction l as [|x l IH]; [done|]. rewrite fmap_cons, !filter_cons.
  case_decide; simpl; by rewrite IH.
Qed.

(** The element [m] places from the end of a sorted list is the largest
    number that [m] of its elements reach. *)
Lemma sorted_quorum (r : list N) (m : nat) c :
  Sorted (≤) r → (0 < m ≤ length r)%nat → r !! (length r - m)%nat = Some c →
  (m ≤ count_ge c r)%nat ∧ ∀ j, c < j → (count_ge j r < m)%nat.
Proof.
  intros Hs%Sorted_StronglySorted Hm Hc; [|intros ???; lia].
  assert (length (take (length r - m) r) = (length r - m)%nat) as Hlt by (rewrite length_take; lia).
  pose proof (take_drop_middle _ _ _ Hc) as Hr.
  rewrite <-Hr in Hs. apply StronglySorted_app in Hs as (Hle & _ & Hs).
  apply StronglySorted_cons in Hs as [Hge _]. rewrite Forall_forall in Hge.
  set (a := take _ r) in *. set (b := drop _ r) in *.
  assert (length r = length a + S (length b))%nat as Hlen.
  { rewrite <-Hr at 1. by rewrite length_app. }
  unfold count_ge. rewrite <-Hr, !count_if_app. split.
  - assert (count_if (λ x, bool_decide (c ≤ x)) (c :: b) = length (c :: b)) as ->.
    { apply count_if_all. intros x. rewrite elem_of_cons, bool_decide_eq_true.
      intros [->|Hx]; [done|by apply Hge]. }
    simpl. lia.
  - intros j Hj. rewrite count_if_app.
    rewrite (count_if_none _ a); [|intros x Hx; apply bool_decide_eq_false; specialize (Hle x c Hx ltac:(left)); lia].
    change (c :: b) with ([c] ++ b). rewrite count_if_app, (count_if_none _ [c]).
    + pose proof (count_if_le (λ x, bool_decide (j ≤ x)) b). lia.
    + intros x ->%list_elem_of_singleton. apply bool_decide_eq_false. lia.
Qed.

Section theorems.
Context `{J : SerdeJson} {SM : Type} `{!StateMachine SM} {Laws : StateMachineLaws} (sm0 : SM).
Implicit Types n : RaftNode SM.

(** ** The commit rule *)

(** Does a member hold the leader's log through [j], as far as the leader
    knows? Itself it knows exactly. *)
Definition holds n (l : LeaderState) (j : LogIndex) (id : NodeId) : bool :=
  if bool_decide (id = self n) then bool_decide (j ≤ last_index (n_storage n))
  else bool_decide (j ≤ default 0 (match_index l !! id)).

Definition holders n (l : LeaderState) (j : LogIndex) : nat :=
  count_if (holds n l j) (btree_keys (n_members n)).

Lemma members_split n :
  btree_keys (n_members n) ≡ₚ peer_ids n ++ (if is_member n (self n) then [self n] else []).
Proof.
  apply NoDup_Permutation.
  - apply NoDup_btree_keys.
  - apply NoDup_app. split; [apply NoDup_filter, NoDup_btree_keys|]. split.
    + intros x [Hx _]%list_elem_of_filter. case_match; set_solver.
    + case_match; [apply NoDup_singleton|apply NoDup_nil_2].
  - intros x. unfold peer_ids, is_member. rewrite elem_of_app, list_elem_of_filter.
    case_bool_decide as Hs; rewrite ?list_elem_of_singleton, ?elem_of_nil.
    + destruct (decide (x = self n)) as [->|]; [|naive_solver].
      rewrite elem_of_btree_keys. naive_solver.
    + rewrite elem_of_btree_keys. split; [|naive_solver].
      intros Hx. left. split; [|done]. intros ->. done.
Qed.

Lemma holders_replicated n l j : holders n l j = count_ge j (replicated n l).
Proof.
  unfold holders, replicated, count_ge. rewrite (count_if_perm _ _ _ (members_split n)), !count_if_app.
  f_equal.
  - rewrite count_if_map. apply count_if_ext. intros x [Hx _]%list_elem_of_filter.
    unfold holds. by rewrite bool_decide_eq_false_2.
  - case_match; [|done]. rewrite !count_if_singleton. unfold holds.
    by rewrite (bool_decide_eq_true_2 (self n = self n)).
Qed.

Lemma apply_loop_commit fuel n :
  wlp (apply_loop fuel) (λ _ n', n_commit_index n' = n_commit_index n) n.
Proof.
  revert n. induction fuel as [|fuel IH]; intros n; simpl; walk; try done.
Qed.

Lemma apply_committed_commit n :
  wlp apply_committed (λ _ n', n_commit_index n' = n_commit_index n) n.
Proof.
  unfold apply_committed. do 3 walk_step. eapply wpp_mono; [apply apply_loop_commit|].
  intros [] n1 <-. unfold resolve_pending, resolve_reads, maybe_compact, storage_op, set_leader, emits, emit.
  by walk.
Qed.

(** The commit index after [maybe_advance_commit]. *)
Definition quorum_index n (l : LeaderState) (c : LogIndex) : Prop :=
  (majority n ≤ holders n l c)%nat ∧ ∀ j, c < j → (holders n l j < majority n)%nat.

Lemma quorum_index_unique n l c c' : quorum_index n l c → quorum_index n l c' → c = c'.
Proof.
  intros [H1 H2] [H1' H2'].
  destruct (N.lt_trichotomy c c') as [Hlt|[|Hlt]]; [apply H2 in Hlt; lia|done|apply H2' in Hlt; lia].
Qed.

(** The candidate the source picks from the sorted positions. *)
Lemma candidate_quorum n l c :
  let r := merge_sort (≤) (replicated n l) in
  (majority n ≤ length r)%nat → r !! (length r - majority n)%nat = Some c → quorum_index n l c.
Proof.
  intros r Hlen Hc. assert (r ≡ₚ replicated n l) as Hperm by apply merge_sort_Permutation.
  assert (∀ j, holders n l j = count_ge j r) as Hh.
  { intros j. rewrite holders_replicated. symmetry. by apply count_if_perm. }
  unfold quorum_index. setoid_rewrite Hh. apply sorted_quorum; [|unfold majority, majority_of in *; lia|done].
  apply Sorted_merge_sort. intros ??; lia.
Qed.

Lemma maybe_advance_commit_rule n l :
  n_role n = Leader l →
  wlp maybe_advance_commit (λ _ n',
    (∃ c, quorum_index n l c ∧
       n_commit_index n' = if bool_decide (n_commit_index n < c) &&
                              bool_decide (term (n_storage n) c = Some (cur_term n))
                           then c else n_commit_index n) ∨
    ((∀ j, holders n l j < majority n)%nat ∧ n_commit_index n' = n_commit_index n)) n.
Proof.
  intros Hl. unfold maybe_advance_commit. do 2 walk_step. rewrite Hl.
  set (r := merge_sort (≤) (replicated n l)).
  walk_step; bools.
  { walk. right. split; [|done]. intros j. rewrite holders_replicated. unfold count_ge.
    pose proof (count_if_le (λ x, bool_decide (j ≤ x)) (replicated n l)).
    assert (length r = length (replicated n l)) by (apply Permutation_length, merge_sort_Permutation). lia. }
  apply wpp_bind, wpp_expect; [|done]. intros c Hc.
  assert (quorum_index n l c) as Hq by (apply candidate_quorum; [fold r; lia|done]).
  apply wpp_bind.
  eapply (wpp_mono _ _ (λ _ n1, n_commit_index n1 =
    if bool_decide (n_commit_index n < c) && bool_decide (term (n_storage n) c = Some (cur_term n))
    then c else n_commit_index n)).
  { destruct (_ && _); simpl; [|done]. apply wpp_bind, wpp_modify.
    eapply wpp_mono; [apply apply_committed_commit|]. done. }
  intros [] n1 Hn1. walk_step. walk_step.
  apply (wpp_mono _ _ (λ _ n2, n_commit_index n2 = n_commit_index n1)).
  2:{ intros [] n2 Hn2. left. exists c. by rewrite Hn2. }
  walk; [|done]. eapply wpp_mono; [by apply become_follower_wp|]. by intros _ n2 [].
Qed.

Lemma maybe_advance_commit_commit n l :
  node_wf sm0 n → n_role n = Leader l → ∀ c, quorum_index n l c →
  wp maybe_advance_commit (λ _ n', n_commit_index n' =
    if bool_decide (n_commit_index n < c) && bool_decide (term (n_storage n) c = Some (cur_term n))
    then c else n_commit_index n) n.
Proof.
  intros Hn Hl c Hq. pose proof (maybe_advance_commit_wf sm0 n Hn) as Hw.
  pose proof (maybe_advance_commit_rule n l Hl) as Hr. unfold wpp in *.
  destruct (maybe_advance_commit n) as [[[] n']|]; [|done].
  destruct Hr as [(c' & Hq' & ->)|[Hnone ->]].
  - by rewrite (quorum_index_unique _ _ _ _ Hq Hq').
  - destruct Hq as [Hq _]. specialize (Hnone c). lia.
Qed.

(** [C19] A leader advances its commit index to the largest index that a majority
    of the current members hold, provided that index is new and carries the
    leader's own term, and otherwise leaves it alone; everything it commits
    it has applied when the call returns. The call does not panic. *)
Theorem commit_rule n l c :
  node_wf sm0 n → n_role n = Leader l → quorum_index n l c →
  ∃ n', maybe_advance_commit n = Some ((), n') ∧
    n_commit_index n' =
      (if bool_decide (n_commit_index n < c) &&
          bool_decide (term (n_storage n) c = Some (cur_term n))
       then c else n_commit_index n) ∧
    n_last_applied n' = n_commit_index n'.
Proof.
  intros Hn Hl Hq. pose proof (maybe_advance_commit_wf sm0 n Hn) as Hw.
  pose proof (maybe_advance_commit_commit n l Hn Hl c Hq) as Hr. unfold wpp in *.
  destruct (maybe_advance_commit n) as [[[] n']|]; [|done]. exists n'.
  split; [done|]. split; [done|]. apply Hw.
Qed.

(** ** Restarting *)
Lemma apply_committed_sm n :
  core sm0 n → members_ok (n_config n) (n_storage n) (n_members n) (n_members_index n) →
  wp apply_committed (λ _ n', sm_at sm0 (n_storage n) (n_commit_index n) = Some (n_state_machine n') ∧
    n_last_applied n' = n_commit_index n) n.
Proof.
  intros Hc Hm. pose proof (apply_committed_ready sm0 n Hc Hm) as Ht.
  apply (wpp_mono _ _ (λ _ n', node_wf sm0 n' ∧
    (sm_at sm0 (n_storage n) (n_commit_index n) = Some (n_state_machine n') ∧
     n_last_applied n' = n_commit_index n))); [|naive_solver].
  apply wp_and_wlp; [done|]. unfold apply_committed. do 3 walk_step.
  pose proof (apply_loop_spec sm0 _ n Hc (N2Nat.id _)) as Hl.
  apply (wpp_mono _ _ (λ _ n1, sm_at sm0 (n_storage n) (n_commit_index n) = Some (n_state_machine n1) ∧
    n_last_applied n1 = n_commit_index n)).
  { unfold wpp in *. destruct (apply_loop _ n) as [[[] n1]|]; [|done].
    destruct Hl as [Hc1 [sm ->]]. split; [|done]. by apply (core_sm _ _ Hc1). }
  intros [] n1 Hn1.
  unfold resolve_pending, resolve_reads, maybe_compact, storage_op, set_leader, emits, emit. by walk.
Qed.

(** [C21] A restart from the durable state comes up with the same membership and,
    once the commit index is back where it was, with the same state machine:
    nothing that was applied depends on volatile state. *)
Theorem restart_rebuilds n t0 :
  node_wf sm0 n →
  ∃ n', spawn (n_config n) (n_storage n) sm0 t0 = Some n' ∧ node_wf sm0 n' ∧
    n_members n' = n_members n ∧ hs n' = hs n ∧
    wp apply_committed (λ _ n'', n_state_machine n'' = n_state_machine n ∧
                                 n_last_applied n'' = n_last_applied n)
      (set_commit_index (n_commit_index n) n').
Proof.
  intros Hn. destruct (wf_core _ _ Hn) as [? ? ? ? _ Hsm _].
  assert (is_Some (base_sm sm0 (n_storage n))) as Hb.
  { unfold sm_at in Hsm. apply fmap_Some in Hsm as (b & -> & _). eauto. }
  destruct (spawn_wf sm0 (n_config n) (n_storage n) t0) as (n' & Hsp & Hn'); [done..|].
  destruct (spawn_storage _ _ _ _ _ Hsp) as (Es & Ec & _ & Eci & _).
  exists n'. split; [done|]. split; [done|].
  split; [rewrite (proj1 (wf_members _ _ Hn')), (proj1 (wf_members _ _ Hn)); by rewrite Es, Ec|].
  split; [unfold hs; by rewrite Es|].
  assert (core sm0 (set_commit_index (n_commit_index n) n')) as Hc.
  { apply core_raise_commit; [apply Hn'|]. rewrite Es. split; [|lia].
    rewrite Eci. lia. }
  eapply wpp_mono; [apply apply_committed_sm; [done|apply Hn']|].
  nsimpl. rewrite Es, <-(wf_applied _ _ Hn), Hsm. by intros [] n'' [[= ->] ->].
Qed.

(** ** Single-server configuration changes *)
Lemma count_keys {A} (f : N → bool) (m : gmap N A) :
  count_if f (btree_keys m) = size (filter (λ k, f k = true) (dom m)).
Proof.
  unfold count_if, btree_keys. rewrite (merge_sort_Permutation (≤)).
  rewrite <-(size_list_to_set (C := gset N)) by apply NoDup_filter, NoDup_elements.
  done.
Qed.

(** Sets that differ by one element have overlapping majorities. *)
Lemma majorities_overlap (A B Q1 Q2 : gset N) :
  (size (B ∖ A) + size (A ∖ B) = 1)%nat →
  Q1 ⊆ A → Q2 ⊆ B → (size A / 2 + 1 ≤ size Q1)%nat → (size B / 2 + 1 ≤ size Q2)%nat →
  ∃ x, x ∈ Q1 ∧ x ∈ Q2.
Proof.
  intros Hd H1 H2 HQ1 HQ2.
  destruct (decide (Q1 ∩ Q2 = ∅)) as [Hdis|Hne].
  - exfalso. assert (size (Q1 ∪ Q2) = size Q1 + size Q2)%nat as Hs by (apply size_union; set_solver).
    assert (size (Q1 ∪ Q2) ≤ size (A ∪ B))%nat as Hle by (apply subseteq_size; set_solver).
    assert (size (A ∪ B) = size A + size (B ∖ A))%nat as HA.
    { rewrite <-size_union by set_solver. f_equal. apply set_eq. intros x. destruct (decide (x ∈ A)); set_solver. }
    assert (size (A ∪ B) = size B + size (A ∖ B))%nat as HB.
    { rewrite <-size_union by set_solver. f_equal. apply set_eq. intros x. destruct (decide (x ∈ B)); set_solver. }
    pose proof (Nat.div_mod_eq (size A) 2). pose proof (Nat.mod_upper_bound (size A) 2).
    pose proof (Nat.div_mod_eq (size B) 2). pose proof (Nat.mod_upper_bound (size B) 2). lia.
  - apply set_choose_L in Hne as [x Hx]. exists x. set_solver.
Qed.

(** Validation changes nothing. *)
Lemma validate_pure n new r n' : validate_config_change new n = Some (r, n') → n' = n.
Proof.
  unfold validate_config_change. unfold_M. destruct (n_role n); try done.
  repeat (match goal with |- context [if ?b then _ else _] => destruct b; [by intros [= _ <-]|] end).
  by intros [= _ <-].
Qed.

(** What a validated configuration change satisfies. *)
Lemma validated_change n l new :
  n_role n = Leader l → validate_config_change new n = Some (Ok (), n) →
  (c_test_disable_reconfig_gates (n_config n) = false →
     term_start_index l ≤ n_commit_index n ∧ n_members_index n ≤ n_commit_index n) ∧
  new ≠ ∅ ∧ (majority_of new ≤ count_if (reachable n l) (btree_keys new))%nat ∧
  ∀ Q1 Q2 : gset N, Q1 ⊆ dom (n_members n) → Q2 ⊆ dom new →
    (majority_of (n_members n) ≤ size Q1)%nat → (majority_of new ≤ size Q2)%nat →
    ∃ x, x ∈ Q1 ∧ x ∈ Q2.
Proof.
  unfold validate_config_change. unfold_M. intros ->.
  repeat (match goal with |- context [if ?b then _ else _] => destruct b eqn:?; simpl; [done|] end).
  intros _. bools. split.
  { intros Hg. rewrite Hg in *. simpl in *. bools. lia. }
  split; [done|]. split; [lia|]. intros Q1 Q2 H1 H2 HQ1 HQ2.
  apply (majorities_overlap (dom (n_members n)) (dom new)); [|done..|by rewrite size_dom|by rewrite size_dom].
  rewrite !count_keys in *.
  assert (dom new ∖ dom (n_members n) = filter (λ k, negb (is_member n k) = true) (dom new)) as ->.
  { apply set_eq. intros x. rewrite elem_of_difference, elem_of_filter, negb_true_iff.
    unfold is_member. rewrite bool_decide_eq_false, <-elem_of_dom. tauto. }
  assert (dom (n_members n) ∖ dom new =
          filter (λ k, bool_decide (new !! k = None) = true) (dom (n_members n))) as ->.
  { apply set_eq. intros x. rewrite elem_of_difference, elem_of_filter, bool_decide_eq_true.
    rewrite not_elem_of_dom. tauto. }
  lia.
Qed.

(** [C22] The admission rules of a configuration change: when a leader accepts
    one, its own no-op and the previous change are committed (unless the
    test hook disabled these gates), the new configuration is not empty, a
    majority of it is reachable, and any majority of the old configuration
    meets any majority of the new. *)
Theorem config_change_majorities_overlap n l new :
  n_role n = Leader l → validate_config_change new n = Some (Ok (), n) →
  (c_test_disable_reconfig_gates (n_config n) = false →
     term_start_index l ≤ n_commit_index n ∧ n_members_index n ≤ n_commit_index n) ∧
  new ≠ ∅ ∧ (majority_of new ≤ count_if (reachable n l) (btree_keys new))%nat ∧
  ∀ Q1 Q2 : gset N, Q1 ⊆ dom (n_members n) → Q2 ⊆ dom new →
    (majority_of (n_members n) ≤ size Q1)%nat → (majority_of new ≤ size Q2)%nat →
    ∃ x, x ∈ Q1 ∧ x ∈ Q2.
Proof. apply validated_change. Qed.
End theorems.

(** ** The theorems on a concrete node *)
Section witnesses.
#[local] Existing Instances numeric_json counter_sm counter_laws.

Lemma sample_append_ok t0 n :
  spawn (SM := N) sample_config blank_storage 0 t0 = Some n →
  input_ok n (InRpc 2 (AppendEntries sample_append)).
Proof.
  intros Hs. destruct (spawn_storage _ _ _ _ _ Hs) as (Es & _ & _ & Eci & _).
  intros _. split; [done|]. intros e He%list_elem_of_singleton. rewrite Es, Eci. subst e.
  by vm_compute.
Qed.

(** Feeding a node a list of inputs. *)
Fixpoint run_inputs (ins : list (Instant * LoopInput)) : M (RaftNode N) () :=
  match ins with
  | [] => mret ()
  | (t, i) :: ins => loop_step t i ;; run_inputs ins
  end.

(** Inputs that need no assumption. *)
Definition plain_input (i : LoopInput) : bool :=
  match i with
  | InRpc _ (AppendEntries _) | InRpc _ (InstallSnapshot _) => false
  | InEvent (AppendReply _ _ _ _ _ _) | InEvent (InstallSnapshotReplyEv _ _ _ _) => false
  | _ => true
  end.

Lemma run_inputs_wf ins n :
  node_wf 0 n → forallb (λ p, plain_input p.2) ins = true → wp (run_inputs ins) (λ _, node_wf 0) n.
Proof.
  revert n. induction ins as [|[t i] ins IH]; intros n Hn Hp; simpl in *; [by apply wpp_ret|].
  apply andb_true_iff in Hp as [Hi Hp]. apply wpp_bind. eapply wpp_mono.
  - apply loop_step_wf; [done|]. by destruct i as [| | | |? []|[]].
  - intros r n' Hn'. by apply IH.
Qed.

(** Node 1 of three wins its election with the grants of node 2, then
    accepts a write. *)
Definition election_inputs : list (Instant * LoopInput) :=
  [(from_millis 400, InElectionTimeout);
   (from_millis 401, InEvent (PreVoteReply 1 2 (Ok (PreVoteResp (MkRequestVoteReply 0 true)))));
   (from_millis 402, InEvent (VoteReply 1 2 (Ok (RequestVoteResp (MkRequestVoteReply 1 true)))));
   (from_millis 403, InPropose (Put "k" (jv 5) None) 100)].

Definition sample_leader : option (RaftNode N) :=
  n ← spawn sample_config blank_storage 0 0; snd <$> run_inputs election_inputs n.

Definition sample_leader_state : LeaderState :=
  MkLeaderState {[2 := 1; 3 := 1]} {[2 := 0; 3 := 0]} 1 0 ∅
    {[2 := from_millis 402; 3 := from_millis 402]} ∅ [].

Lemma sample_leader_ok :
  ∃ n, sample_leader = Some n ∧ node_wf 0 n ∧ n_role n = Leader sample_leader_state ∧
    last_index (n_storage n) = 2 ∧ cur_term n = 1 ∧ self n = 1 ∧
    btree_keys (n_members n) = [1; 2; 3] ∧ n_commit_index n = 0 ∧
    term (n_storage n) 2 = Some 1.
Proof.
  destruct (sample_boot 0) as (n0 & Hs & Hn0).
  pose proof (run_inputs_wf election_inputs n0 Hn0 eq_refl) as Hw. unfold wpp in Hw.
  assert (sample_leader = snd <$> run_inputs election_inputs n0) as Hl
    by (unfold sample_leader; rewrite Hs; reflexivity).
  destruct (run_inputs election_inputs n0) as [[[] n]|]; [|destruct Hw]. exists n.
  assert (n = default n0 sample_leader) as E by (rewrite Hl; reflexivity).
  split; [exact Hl|]. split; [exact Hw|]. rewrite E.
  repeat (split; [vm_compute; reflexivity|]). vm_compute; reflexivity.
Qed.

(** The leader once node 2 has confirmed both entries. *)
Definition sample_leader_state' : LeaderState :=
  MkLeaderState {[2 := 3; 3 := 1]} {[2 := 2; 3 := 0]} 1 0 ∅
    {[2 := from_millis 402; 3 := from_millis 402]} ∅ [].

Example commit_rule_witness :
  ∃ n n', node_wf 0 n ∧ n_commit_index n = 0 ∧ maybe_advance_commit n = Some ((), n') ∧
    n_commit_index n' = 2 ∧ n_last_applied n' = 2.
Proof.
  destruct sample_leader_ok as (m & _ & Hm & Hr & Hli & Ht & Hself & Hkeys & Hci & Hterm).
  set (n := set_role (Leader sample_leader_state') m).
  assert (node_wf 0 n) as Hn.
  { apply set_leader_wf; [exact Hm|]. split; rewrite ?Hli; simpl; [| |lia]; intros p i.
    all: by intros [[_ <-]|[_ [_ <-]%lookup_singleton_Some]]%lookup_insert_Some. }
  assert (size (n_members m) = 3%nat) as Hsz by (by rewrite <-length_btree_keys, Hkeys).
  assert (quorum_index n sample_leader_state' 2) as Hq.
  { unfold quorum_index, holders, majority, majority_of. subst n. nsimpl. rewrite Hkeys, Hsz.
    split.
    - unfold holds, self. nsimpl. unfold self in Hself. rewrite Hself, Hli. by vm_compute.
    - intros j Hj. rewrite count_if_none; [simpl; lia|]. intros x Hx. unfold holds, self. nsimpl.
      unfold self in Hself. rewrite Hself, Hli.
      assert (default 0 (match_index sample_leader_state' !! x) ≤ 2) as Hle.
      { destruct (match_index sample_leader_state' !! x) as [i|] eqn:Hi; simpl; [|lia].
        simpl in Hi. by apply lookup_insert_Some in Hi as [[_ <-]|[_ [_ <-]%lookup_singleton_Some]]. }
      destruct (bool_decide (x = 1)); apply bool_decide_eq_false; lia. }
  destruct (commit_rule 0 n sample_leader_state' 2 Hn eq_refl Hq) as (n' & He & Hc & Ha).
  exists n, n'. split; [exact Hn|]. split; [exact Hci|]. split; [exact He|].
  rewrite Ha, Hc. subst n. nsimpl. rewrite Hci, Hterm. unfold cur_term in *. nsimpl. rewrite Ht.
  vm_compute. split; reflexivity.
Defined.

Example restart_rebuilds_witness :
  ∃ n n', sample_leader = Some n ∧
    spawn (n_config n) (n_storage n) 0 (from_millis 500) = Some n' ∧ n_members n' = n_members n.
Proof.
  destruct sample_leader_ok as (n & Hs & Hn & _). exists n.
  destruct (restart_rebuilds 0 n (from_millis 500) Hn) as (n' & Hs' & _ & Hm & _).
  exists n'. split; [exact Hs|]. split; [exact Hs'|exact Hm].
Defined.

(** The leader after node 2's acknowledgement: both entries committed, node
    2 reachable. *)
Definition idle_node : RaftNode N :=
  MkRaftNode sample_config blank_storage 0 Follower None 0 0 [] None ∅ 0
    (MkMembershipView ∅ ∅) None 0 0 (rng_new 1) (initial_status sample_config blank_storage) 0 [].
Definition committed_leader : RaftNode N :=
  default idle_node (n ← sample_leader;
    snd <$> loop_step (from_millis 404)
      (InEvent (AppendReply 1 2 0 2 0 (Ok (AppendEntriesResp (MkAppendEntriesReply 1 true))))) n).
Definition two_members : Membership := {[1 := MemberAddr_default; 2 := MemberAddr_default]}.

Example config_change_majorities_overlap_witness :
  n_commit_index committed_leader = 2 ∧
  ∀ Q1 Q2 : gset N, Q1 ⊆ dom (n_members committed_leader) → Q2 ⊆ dom two_members →
    (majority_of (n_members committed_leader) ≤ size Q1)%nat → (majority_of two_members ≤ size Q2)%nat →
    ∃ x, x ∈ Q1 ∧ x ∈ Q2.
Proof.
  split; [vm_compute; reflexivity|].
  assert (∃ l, n_role committed_leader = Leader l) as [l Hl]
    by (eexists; vm_compute; reflexivity).
  apply (config_change_majorities_overlap committed_leader l two_members Hl).
  vm_compute. reflexivity.
Defined.

(** Node 1 votes for node 2 in term 1, crashes, restarts, and is asked
    again by both candidates. *)
Definition ask (c : NodeId) : RequestVoteArgs := MkRequestVoteArgs 1 c 0 0.
Definition voter : RaftNode N := default idle_node (spawn sample_config blank_storage 0 0).
Definition after_vote (t : Instant) (c : NodeId) (n : RaftNode N) : RaftNode N :=
  default idle_node (snd <$> loop_step t (InRpc c (RequestVote (ask c))) (set_effects [] n)).
Definition restarted (n : RaftNode N) : RaftNode N :=
  default idle_node (spawn sample_config (n_storage n) 0 9).

Lemma voter_life :
  life 0 voter
    [(InRpc 2 (RequestVote (ask 2)), RequestVoteResp (MkRequestVoteReply 1 true));
     (InRpc 2 (RequestVote (ask 2)), RequestVoteResp (MkRequestVoteReply 1 true))]
    (after_vote 10 2 (restarted (after_vote 5 2 voter))).
Proof.
  refine (life_step 0 _ (InRpc 2 (RequestVote (ask 2))) (Some _) _ (after_vote 5 2 voter) [_] _ _ _).
  { refine (step_run 0 _ _ 5 (Some _) _ _ _); vm_compute; reflexivity. }
  refine (life_step 0 _ (InRead 7) None [] (restarted (after_vote 5 2 voter)) [_] _ _ _).
  { refine (step_crash 0 (after_vote 5 2 voter) _ 9 None
      (default idle_node (snd <$> loop_step 9 (InRead 7) (set_effects [] (after_vote 5 2 voter)))) []
      (n_storage (after_vote 5 2 voter)) 9 _ _ _ _ _);
      [vm_compute; reflexivity..|apply left_start|vm_compute; reflexivity]. }
  refine (life_step 0 _ (InRpc 2 (RequestVote (ask 2))) (Some _) _
    (after_vote 10 2 (restarted (after_vote 5 2 voter))) [] _ _ (life_refl _ _)).
  refine (step_run 0 _ _ 10 (Some _) _ _ _); vm_compute; reflexivity.
Qed.

Example one_vote_per_term_witness :
  ∃ tr n', life 0 voter tr n' ∧
    (InRpc 2 (RequestVote (ask 2)), RequestVoteResp (MkRequestVoteReply 1 true)) ∈ tr ∧
    rv_candidate_id (ask 2) = rv_candidate_id (ask 2).
Proof.
  eexists _, _. split; [exact voter_life|]. split; [left|].
  exact (one_vote_per_term 0 _ _ _ 2 2 (ask 2) (ask 2) _ _ voter_life
    ltac:(left) eq_refl ltac:(left) eq_refl eq_refl).
Defined.

Example request_vote_exact_witness :
  wp (handle_request_vote (ask 2)) (λ r n', rvr_term r = 1 ∧
    (rvr_vote_granted r = true → hs n' = MkHardState 1 (Some 2))) voter.
Proof.
  eapply wpp_mono; [apply (request_vote_exact voter (ask 2)); by vm_compute|].
  intros r n' (Ht & _ & Hg & _). split; [rewrite Ht; vm_compute; reflexivity|exact Hg].
Defined.
End witnesses.
