(* ===== verification/Width.v ===== *)
(** * The numbers of a node in 64 bits

    The model counts terms, indexes and sequence numbers in [N]; the source
    keeps them in [u64], where an addition that does not fit panics in a
    debug build and wraps in a release build. [Width] says when that makes
    no difference: the additions of the event loop are [current_term() + 1]
    ([on_election_timeout], [start_election], [on_pre_vote_reply]),
    [last_index() + 1] ([handle_propose], [maybe_become_leader],
    [send_append], and one past the batch in [Storage::append]),
    [*heartbeat_seq += 1] ([handle_read]) and one past an index below the
    end of the log. A node with [room] for one of each, given an input whose
    own numbers fit, comes out of an iteration with numbers that fit. Runs
    of a cluster never leave that range before 2^64 - 2 terms, entries or
    reads, unless a peer invents a term; the theorems on [N] say nothing of
    the code beyond it. *)
From S2P Require Import Prelude Types Rng Storage Node NodeSteps NodeLife NodeInv NodeThm.
Open Scope N_scope.

Section width.
Context `{J : SerdeJson} {SM : Type} `{!StateMachine SM} {Laws : StateMachineLaws} (sm0 : SM).
Implicit Types n : RaftNode SM.

Definition seq_of n : N := match n_role n with Leader l => heartbeat_seq l | _ => 0 end.

(** What holds at every point of a handler. *)
Record small n : Prop := {
  small_term : u64 (cur_term n);
  small_last : u64 (last_index (n_storage n) + 1);
  small_seq : u64 (seq_of n);
}.

(** One more of each, and one past it. *)
Record room n : Prop := {
  room_term : u64 (cur_term n + 1);
  room_last : u64 (last_index (n_storage n) + 2);
  room_seq : u64 (seq_of n + 1);
}.

(** The numbers of an input. *)
Definition request_fits (req : RpcRequest) : Prop :=
  match req with
  | RequestVote r | PreVote r => u64 (rv_term r)
  | AppendEntries r => u64 (ae_term r) ∧ ∀ e, e ∈ ae_entries r → u64 (e_index e + 1)
  | InstallSnapshot r => u64 (is_term r) ∧ u64 (last_included_index (is_snapshot r) + 1)
  end.
Definition response_fits (resp : RpcResponse) : Prop :=
  match resp with
  | RequestVoteResp r | PreVoteResp r => u64 (rvr_term r)
  | AppendEntriesResp r => u64 (aer_term r)
  | InstallSnapshotResp r => u64 (isr_term r)
  end.
Definition input_fits (i : LoopInput) : Prop :=
  match i with
  | InRpc _ req => request_fits req
  | InEvent (PreVoteReply _ _ (Ok resp)) | InEvent (VoteReply _ _ (Ok resp))
  | InEvent (AppendReply _ _ _ _ _ (Ok resp)) | InEvent (InstallSnapshotReplyEv _ _ _ (Ok resp)) =>
      response_fits resp
  | _ => True
  end.

(** ** The operations *)
Lemma room_small n : room n → small n.
Proof. intros [? ? ?]. split; unfold u64 in *; lia. Qed.

Lemma small_frame n n' :
  small n → n_storage n' = n_storage n → seq_of n' ≤ seq_of n → small n'.
Proof. intros [Ht Hl Hs] E Hle. unfold u64 in *. split; unfold u64, cur_term in *; rewrite ?E; lia. Qed.
Lemma room_frame n n' :
  room n → n_storage n' = n_storage n → seq_of n' ≤ seq_of n → room n'.
Proof. intros [Ht Hl Hs] E Hle. unfold u64 in *. split; unfold u64, cur_term in *; rewrite ?E; lia. Qed.

(** A predicate on the storage and on what the leader has counted. *)
Definition stable (P : RaftNode SM → Prop) : Prop :=
  ∀ n n', P n → n_storage n' = n_storage n → seq_of n' ≤ seq_of n → P n'.
(** Small, with space for one more entry. *)
Definition ready n : Prop := small n ∧ u64 (last_index (n_storage n) + 2).
Lemma ready_stable : stable ready.
Proof. intros n n' [Hs Hl] E Hle. split; [by eapply small_frame|by rewrite E]. Qed.

Lemma last_index_appended es s s' :
  append es s = Ok s' → last_index s' = last_index s ∨ ∃ e, e ∈ es ∧ last_index s' = e_index e.
Proof.
  intros Ha. pose proof (last_index_append _ _ _ Ha) as Hl. apply append_Ok in Ha as [Hc _].
  destruct es as [|e es _] using rev_ind; [left; simpl in Hl; lia|right]. exists e. split; [set_solver|].
  apply contiguous_app in Hc as [_ [He _]]. rewrite length_app in Hl. simpl in Hl. lia.
Qed.

Lemma storage_op_small op n :
  small n → (∀ s', op (n_storage n) = Ok s' → u64 (current_term (st_hard_state s')) ∧ u64 (last_index s' + 1)) →
  wlp (storage_op op) (λ _, small) n.
Proof.
  intros [Ht Hl Hs] Hop. unfold storage_op, emit. walk; [|done].
  match goal with H : _ = Ok _ |- _ => apply Hop in H as [? ?] end. by split.
Qed.
Lemma append_small es n :
  small n → (∀ e, e ∈ es → u64 (e_index e + 1)) → wlp (storage_op (append es)) (λ _, small) n.
Proof.
  intros Hn Hes. apply storage_op_small; [done|]. intros s' Ha. destruct Hn as [Ht Hl _].
  rewrite (append_hard_state _ _ _ Ha). split; [done|].
  destruct (last_index_appended _ _ _ Ha) as [->|(e & He & ->)]; [done|by apply Hes].
Qed.
Lemma truncate_small i n : small n → wlp (storage_op (truncate_from i)) (λ _, small) n.
Proof.
  intros Hn. apply storage_op_small; [done|]. intros s' Ha. destruct Hn as [Ht Hl _].
  rewrite (truncate_hard_state _ _ _ Ha), (last_index_truncate _ _ _ Ha). split; [done|]. unfold u64 in *. lia.
Qed.
Lemma compact_small k v ms n : small n → wlp (storage_op (compact_to k v ms)) (λ _, small) n.
Proof.
  intros Hn. apply storage_op_small; [done|]. intros s' Ha. destruct Hn as [Ht Hl _].
  by rewrite (compact_hard_state _ _ _ _ _ Ha), (last_index_compact _ _ _ _ _ Ha).
Qed.
Lemma install_small snap n :
  small n → u64 (last_included_index snap + 1) → wlp (storage_op (install_snapshot snap)) (λ _, small) n.
Proof.
  intros Hn Hb. apply storage_op_small; [done|]. intros s' Ha. destruct Hn as [Ht Hl _].
  rewrite (install_hard_state _ _ _ Ha), (last_index_install _ _ _ Ha). split; [done|]. by case_match.
Qed.
Lemma save_hs_small h n : small n → u64 (current_term h) → wlp (save_hs h) (λ _, small) n.
Proof. intros Hn Hh. apply storage_op_small; [done|]. intros s' [= <-]. destruct Hn. by split. Qed.
End width.

(** Closing [small n'] or [room n'] after updates that leave the storage. *)
Ltac seq_tac :=
  unfold seq_of; nsimpl;
  repeat match goal with H : n_role _ = _ |- _ => rewrite H end; cbn; lia.
Ltac width_done :=
  match goal with
  | |- True => exact I
  | H : small ?n |- small ?n => exact H
  | H : room ?n |- room ?n => exact H
  | H : small _ |- small _ => solve [eapply small_frame; [exact H|reflexivity|seq_tac]]
  | H : room _ |- room _ => solve [eapply room_frame; [exact H|reflexivity|seq_tac]]
  | H : room _ |- small _ => solve [eapply small_frame; [apply room_small, H|reflexivity|seq_tac]]
  end.
#[export] Hint Extern 1 (small _) => width_done : handlers.
#[export] Hint Extern 1 (room _) => width_done : handlers.
Ltac width_walk := walk; try width_done.

Section handlers.
Context `{J : SerdeJson} {SM : Type} `{!StateMachine SM} {Laws : StateMachineLaws} (sm0 : SM).
Implicit Types n : RaftNode SM.
#[local] Abbreviation keeps m := (∀ n, small n → wlp m (λ _, small) n).
#[local] Hint Resolve truncate_small compact_small : handlers.

Lemma emits_small es : keeps (emits (SM := SM) es).
Proof. intros. unfold emits. width_walk. Qed.
Lemma emit_small e : keeps (emit (SM := SM) e).
Proof. intros. unfold emit. width_walk. Qed.
Lemma reset_election_timer_small : keeps (reset_election_timer (SM := SM)).
Proof. intros. unfold reset_election_timer, draw. width_walk. Qed.
Lemma emits_stable P es n : stable P → P n → wlp (emits es) (λ _, P) n.
Proof. intros HP Hn. unfold emits. walk. by eapply HP. Qed.
Lemma reset_election_timer_stable P n : stable P → P n → wlp reset_election_timer (λ _, P) n.
Proof. intros HP Hn. unfold reset_election_timer, draw. walk; try done. by eapply HP. Qed.
#[local] Hint Resolve emits_small emit_small reset_election_timer_small : handlers.
Lemma publish_status_small : keeps (publish_status (SM := SM)).
Proof. intros. unfold publish_status. width_walk. Qed.
Lemma publish_membership_small : keeps (publish_membership (SM := SM)).
Proof. intros. unfold publish_membership. width_walk. Qed.
#[local] Hint Resolve publish_status_small publish_membership_small : handlers.

Lemma become_follower_small t ldr n :
  small n → u64 t → wlp (become_follower t ldr) (λ _, small) n.
Proof.
  intros Hn Ht. unfold become_follower. walk; try width_done.
  all: eapply wpp_mono; [by apply save_hs_small|]; intros; width_walk.
Qed.

Lemma adopt_membership_small ms i : keeps (adopt_membership (SM := SM) ms i).
Proof. intros. unfold adopt_membership, set_leader. width_walk. Qed.
#[local] Hint Resolve adopt_membership_small : handlers.
Lemma rescan_membership_small : keeps (rescan_membership (SM := SM)).
Proof. intros. unfold rescan_membership. width_walk. Qed.
Lemma resolve_pending_small : keeps (resolve_pending (SM := SM)).
Proof. intros. unfold resolve_pending. width_walk. Qed.
Lemma resolve_reads_small : keeps (resolve_reads (SM := SM)).
Proof. intros. unfold resolve_reads, set_leader. width_walk. Qed.
Lemma maybe_compact_small : keeps (maybe_compact (SM := SM)).
Proof. intros. unfold maybe_compact. width_walk. Qed.
Lemma apply_loop_small fuel : keeps (apply_loop (SM := SM) fuel).
Proof. induction fuel as [|fuel IH]; intros; simpl; width_walk. Qed.
#[local] Hint Resolve rescan_membership_small resolve_pending_small resolve_reads_small
  maybe_compact_small apply_loop_small : handlers.
Lemma apply_committed_small : keeps (apply_committed (SM := SM)).
Proof. intros. unfold apply_committed. width_walk. Qed.
Lemma send_append_small p : keeps (send_append (SM := SM) p).
Proof. intros. unfold send_append, send_install_snapshot. width_walk. Qed.
#[local] Hint Resolve apply_committed_small send_append_small : handlers.
Lemma send_appends_small ps : keeps (for_each ps (send_append (SM := SM))).
Proof. intros. apply wpp_for_each; [done|]. intros. by apply send_append_small. Qed.
#[local] Hint Resolve send_appends_small : handlers.

Lemma maybe_advance_commit_small : keeps (maybe_advance_commit (SM := SM)).
Proof.
  intros. unfold maybe_advance_commit. width_walk.
  all: by apply become_follower_small; [|apply small_term].
Qed.
Lemma on_heartbeat_tick_small : keeps (on_heartbeat_tick (SM := SM)).
Proof.
  intros. unfold on_heartbeat_tick. width_walk.
  all: by apply become_follower_small; [|apply small_term].
Qed.
#[local] Hint Resolve maybe_advance_commit_small on_heartbeat_tick_small : handlers.

(** ** The handlers that count on *)
Lemma maybe_become_leader_small n :
  small n → u64 (last_index (n_storage n) + 2) → wlp maybe_become_leader (λ _, small) n.
Proof.
  intros Hn Hr. unfold maybe_become_leader, set_leader. walk; try width_done.
  eapply wpp_mono; [apply append_small|].
  - eapply small_frame; [exact Hn|reflexivity|seq_tac].
  - intros e ->%list_elem_of_singleton. simpl. unfold u64 in *. lia.
  - intros; width_walk.
Qed.

Lemma save_hs_ready h n : room n → u64 (current_term h) → wlp (save_hs h) (λ _, ready) n.
Proof.
  intros [Ht Hl Hs] Hh. unfold save_hs, storage_op, emit. walk; [|done].
  match goal with H : Ok _ = Ok _ |- _ => injection H as <- end.
  split; [split; [exact Hh|..]|exact Hl]; unfold u64 in *; nsimpl; [|by unfold seq_of in *; nsimpl; lia].
  change (last_index (save_hard_state h (n_storage n)) + 1 < u64_modulus)
    with (last_index (n_storage n) + 1 < u64_modulus). lia.
Qed.
Lemma start_election_small n : room n → wlp start_election (λ _, small) n.
Proof.
  intros Hn. unfold start_election. walk. eapply wpp_mono; [apply save_hs_ready; [done|apply Hn]|].
  intros [] n1 Hn1. walk.
  eapply wpp_mono; [apply (reset_election_timer_stable ready); [apply ready_stable|]|].
  { eapply ready_stable; [exact Hn1|reflexivity|seq_tac]. }
  intros [] n2 Hn2. walk. eapply wpp_mono; [by apply (emits_stable ready); [apply ready_stable|]|].
  intros [] n3 [Hn3 Hl3]. by apply maybe_become_leader_small.
Qed.
#[local] Hint Resolve start_election_small : handlers.
Lemma maybe_start_election_small n : room n → wlp maybe_start_election (λ _, small) n.
Proof. intros. unfold maybe_start_election. width_walk. Qed.
#[local] Hint Resolve maybe_start_election_small : handlers.
Lemma on_election_timeout_small n : room n → wlp on_election_timeout (λ _, small) n.
Proof.
  intros Hn. unfold on_election_timeout. do 3 walk_step; [by width_walk|]. repeat (wp_step; nsimpl).
  eapply wpp_mono; [apply (reset_election_timer_stable room); [exact room_frame|width_done]|].
  intros [] n1 Hn1. repeat (wp_step; nsimpl). eapply wpp_mono; [by apply (emits_stable room); [exact room_frame|]|].
  intros [] n2 Hn2. by apply maybe_start_election_small.
Qed.

Lemma append_next_small e n :
  room n → e_index e = last_index (n_storage n) + 1 → wlp (storage_op (append [e])) (λ _, small) n.
Proof.
  intros Hn He. apply append_small; [by apply room_small|]. intros x ->%list_elem_of_singleton.
  rewrite He. destruct Hn as [_ Hl _]. unfold u64 in *. lia.
Qed.
#[local] Hint Resolve append_next_small : handlers.
Lemma handle_propose_small c r n : room n → wlp (handle_propose c r) (λ _, small) n.
Proof. intros Hn. unfold handle_propose, check_command, validate_config_change. width_walk. Qed.
Lemma handle_read_small r n : room n → wlp (handle_read r) (λ _, small) n.
Proof.
  intros Hn. unfold handle_read, set_leader. width_walk.
  match goal with |- wpp _ _ _ ?m => assert (small m) end; [|width_walk].
  destruct (room_small _ Hn) as [Ht Hl _]. split; [done|done|]. destruct Hn as [_ _ Hs].
  unfold seq_of in *. nsimpl. by match goal with H : n_role _ = _ |- _ => rewrite H in Hs end.
Qed.

(** ** Requests and replies of peers *)
#[local] Hint Resolve become_follower_small : handlers.
Lemma handle_request_vote_small args n :
  small n → u64 (rv_term args) → wlp (handle_request_vote args) (λ _, small) n.
Proof.
  intros Hn Ha. unfold handle_request_vote. width_walk.
  all: eapply wpp_mono; [apply save_hs_small; [width_done|by apply small_term]|intros; width_walk].
Qed.
Lemma handle_pre_vote_small args : keeps (handle_pre_vote (SM := SM) args).
Proof. intros. unfold handle_pre_vote. width_walk. Qed.
Lemma handle_install_snapshot_small args n :
  small n → u64 (is_term args) → u64 (last_included_index (is_snapshot args) + 1) →
  wlp (handle_install_snapshot args) (λ _, small) n.
Proof.
  intros Hn Ht Hb. unfold handle_install_snapshot. width_walk.
  all: eapply wpp_mono; [apply install_small; [width_done|done]|intros; width_walk].
Qed.
Lemma walk_entries_small es : keeps (walk_entries (SM := SM) es).
Proof. induction es; intros; simpl; width_walk. Qed.
#[local] Hint Resolve walk_entries_small : handlers.
Lemma batch_from_elem args first batch : batch_from args first = Some batch → ∀ e, e ∈ batch → e ∈ ae_entries args.
Proof.
  unfold batch_from. intros (offset & _ & Hb)%bind_Some e He. case_bool_decide; [|done]. injection Hb as <-.
  rewrite <-(take_drop (N.to_nat offset) (ae_entries args)). apply elem_of_app. by right.
Qed.
Lemma accept_entries_small args n :
  small n → (∀ e, e ∈ ae_entries args → u64 (e_index e + 1)) → wlp (accept_entries args) (λ _, small) n.
Proof.
  intros Hn Hes. unfold accept_entries. width_walk.
  all: match goal with H : batch_from _ _ = Some _ |- _ => pose proof (batch_from_elem _ _ _ H) end.
  all: eapply wpp_mono; [apply append_small; [width_done|naive_solver]|intros; width_walk].
Qed.
#[local] Hint Resolve accept_entries_small : handlers.
Lemma handle_append_entries_small args n :
  small n → u64 (ae_term args) → (∀ e, e ∈ ae_entries args → u64 (e_index e + 1)) →
  wlp (handle_append_entries args) (λ _, small) n.
Proof. intros Hn Ht Hes. unfold handle_append_entries. width_walk. Qed.
#[local] Hint Resolve handle_request_vote_small handle_pre_vote_small handle_install_snapshot_small
  handle_append_entries_small : handlers.

Lemma note_append_reply_seq n l from prev cnt seq ok l' resend departed :
  note_append_reply n l from prev cnt seq ok = (l', resend, departed) → heartbeat_seq l' = heartbeat_seq l.
Proof. unfold note_append_reply. repeat case_match; by intros [= <- _ _]. Qed.
Lemma note_snapshot_reply_seq n l from lii l' departed :
  note_snapshot_reply n l from lii = (l', departed) → heartbeat_seq l' = heartbeat_seq l.
Proof. unfold note_snapshot_reply. by intros [= <- _]. Qed.

Lemma set_leader_small l l' n :
  small n → n_role n = Leader l → heartbeat_seq l' = heartbeat_seq l → wlp (set_leader l') (λ _, small) n.
Proof.
  intros Hn Hl E. unfold set_leader. walk. eapply small_frame; [exact Hn|done|].
  unfold seq_of. nsimpl. rewrite Hl, E. lia.
Qed.
#[local] Hint Resolve note_append_reply_seq note_snapshot_reply_seq set_leader_small : handlers.

Lemma handle_event_small ev n : room n → input_fits (InEvent ev) → wlp (handle_event ev) (λ _, small) n.
Proof.
  intros Hn Hf. pose proof (room_small _ Hn) as Hs.
  destruct ev as [t from [[]|]|t from [[]|]|t from prev cnt seq [[]|]|t from lii [[]|]]; simpl in *; try by walk.
  - unfold on_pre_vote_reply. width_walk.
  - unfold on_vote_reply. width_walk.
    apply maybe_become_leader_small; [width_done|apply Hn].
  - unfold on_append_reply. width_walk.
  - unfold on_snapshot_reply. width_walk.
Qed.

Lemma dispatch_small i n : room n → input_fits i → wlp (dispatch i) (λ _, small) n.
Proof.
  intros Hn Hf. pose proof (room_small _ Hn) as Hs.
  destruct i as [c r|r| | |from req|ev]; simpl in *; wp_step.
  - eapply wpp_mono; [by apply handle_propose_small|]. intros; width_walk.
  - eapply wpp_mono; [by apply handle_read_small|]. intros; width_walk.
  - eapply wpp_mono; [by apply on_election_timeout_small|]. intros; width_walk.
  - width_walk.
  - unfold handle_inbound, request_fits in *. destruct req; destruct_and?; width_walk.
  - eapply wpp_mono; [by apply handle_event_small|]. intros; width_walk.
Qed.

Lemma loop_step_small t i n : room n → input_fits i → wlp (loop_step t i) (λ _, small) n.
Proof.
  intros Hn Hf. unfold loop_step, publish_status, emit. walk; apply dispatch_small; done || width_done.
Qed.

(** ** An iteration in 64 bits *)

(** Every number the node keeps, and the next index, fits. *)
Record fits n : Prop := {
  fits_term : u64 (cur_term n);
  fits_last : u64 (last_index (n_storage n) + 1);
  fits_snapshot : u64 (snapshot_index (n_storage n) + 1);
  fits_commit : u64 (n_commit_index n);
  fits_applied : u64 (n_last_applied n + 1);
  fits_pending p : p ∈ n_pending n → u64 (pp_index p);
  fits_leader l : n_role n = Leader l →
    u64 (heartbeat_seq l) ∧ u64 (term_start_index l) ∧
    (∀ p k, next_index l !! p = Some k → u64 k) ∧ ∀ p k, match_index l !! p = Some k → u64 (k + 1);
}.

Lemma small_fits n : node_wf sm0 n → small n → fits n.
Proof.
  intros [[_ _ Hsa Hac Hrole _ _] Hap Hpend _] [Ht Hl Hs]. unfold u64 in *.
  split; unfold u64; [lia..| |].
  - intros p [_ Hp]%Hpend. assert (is_Some (term (n_storage n) (pp_index p))) as [_ Hle]%term_is_Some by eauto. lia.
  - intros l E. unfold seq_of in Hs. rewrite E in Hs, Hrole. destruct Hrole as [Hn Hm Hst]. split; [done|].
    split; [lia|]. split; intros p k Hk; [apply Hn in Hk|apply Hm in Hk]; lia.
Qed.

(** [C15] An iteration neither panics nor overflows. From a state that
    satisfies the invariant and has room in 64 bits (one more term, two more
    indexes, one more heartbeat), on every input the peers of the node can
    send it (contiguous batches that do not contradict a committed entry,
    snapshots that decode, replies that confirm at most the leader's own
    log) whose own terms and indexes fit, the handler returns: no [expect]
    and no [assert!] of the event loop fires. The invariant holds again, in
    particular commit has not run ahead of the log, and every number the
    node keeps still fits its [u64]. *)
Theorem iteration_in_u64 t i n :
  node_wf sm0 n → input_ok n i → room n → input_fits i →
  ∃ r n', loop_step t i n = Some (r, n') ∧ node_wf sm0 n' ∧ fits n'.
Proof.
  intros Hn Hi Hr Hf. pose proof (loop_step_wf sm0 t i n Hn Hi) as Hw.
  pose proof (loop_step_small t i n Hr Hf) as Hs. unfold wpp in Hw, Hs.
  destruct (loop_step t i n) as [[r n']|]; [|done]. exists r, n'. split; [done|].
  split; [done|by apply small_fits].
Qed.
End handlers.

(** ** On a concrete node *)
Section witness.
#[local] Existing Instances numeric_json counter_sm counter_laws.

(** A fresh node takes a first batch, sent with the largest term but one. *)
Definition late_append : AppendEntriesArgs :=
  MkAppendEntriesArgs (u64_modulus - 2) (ae_leader_id sample_append) (ae_prev_log_index sample_append)
    (ae_prev_log_term sample_append) (ae_entries sample_append) (ae_leader_commit sample_append).

Example iteration_in_u64_witness :
  ∃ n r n', spawn (SM := N) sample_config blank_storage 0 0 = Some n ∧
    loop_step 7 (InRpc 2 (AppendEntries late_append)) n = Some (r, n') ∧ node_wf 0 n' ∧ fits n'.
Proof.
  destruct (sample_boot 0) as (n & Hs & Hn). exists n.
  destruct (spawn_storage _ _ _ _ _ Hs) as (Es & _ & Er & _).
  destruct (iteration_in_u64 0 7 (InRpc 2 (AppendEntries late_append)) n) as (r & n' & Hstep & Hn' & Hf).
  - exact Hn.
  - intros _. refine (sample_append_ok 0 n Hs _). unfold cur_term. rewrite Es. vm_compute. discriminate.
  - split; unfold cur_term, seq_of, u64; rewrite ?Es, ?Er; vm_compute; reflexivity.
  - split; [vm_compute; reflexivity|]. intros e He. apply list_elem_of_singleton in He as ->. vm_compute. reflexivity.
  - exists r, n'. split; [exact Hs|]. split; [exact Hstep|]. split; [exact Hn'|exact Hf].
Defined.
End witness.
