(* ===== verification/Crash.v ===== *)
(** * Crashes of a node, down to its files

    [NodeLife] lets a node crash between the writes of an iteration or in
    the middle of an append. This file justifies it from [Disk]: executing
    the file-system steps of every write of an iteration and crashing
    anywhere leaves a directory that opens to a storage [NodeLife] already
    considers, so restarting from it is a step of the model. The exception,
    an interrupted install over a divergent log, is the subject of two
    theorems of [Disk]. *)
From S2P Require Import Prelude Types Rng Storage Disk Node NodeSteps NodeLife NodeInv NodeThm.
Open Scope N_scope.

Section crashes.
Context `{J : SerdeJson} {Codec : DiskCodec} {CodecLaws : DiskCodecLaws}.
Context {SM : Type} `{!StateMachine SM} (sm0 : SM).
Implicit Types (n : RaftNode SM) (d : Dir) (s : Storage).

(** A crash while the effects [es] are carried out on a directory that holds
    [s]: the effects [pre] have taken place, the next one perhaps in part. *)
Inductive crash_run : Storage → Dir → list Effect → list Effect → Dir → Prop :=
| crash_between s d es : crash_run s d es [] d
| crash_inside s d op s' es d' :
    mem_op op s = Ok s' → divergent op s = false → crash (op_prims op s s') d d' →
    crash_run s d (Persisted s' :: es) [] d'
| crash_after_write s d op s' es pre d' :
    mem_op op s = Ok s' → crash_run s' (exec_all (op_prims op s s') d) es pre d' →
    crash_run s d (Persisted s' :: es) (Persisted s' :: pre) d'
| crash_after_other s d e es pre d' :
    match e with Persisted _ => False | _ => True end →
    crash_run s d es pre d' → crash_run s d (e :: es) (e :: pre) d'.

(** What [Disk] recovers is whole or a torn append. *)
Lemma recovered_cases op s s' s'' :
  mem_op op s = Ok s' → recovered op s s' s'' → s'' = s ∨ s'' = s' ∨ torn s s' s''.
Proof.
  intros Hop [?|[?|Hr]]; [by left|by right; left|right; right]. destruct op as [|es| | |]; try done.
  destruct Hr as [k [_ ->]%append_Ok]. apply append_Ok in Hop as [_ ->]. split; simpl; [done..|].
  split; [by apply prefix_app_r|]. apply prefix_app, prefix_take.
Qed.

(** The effects seen from outside; a write is not. *)
Definition visible (es : list Effect) : list Effect :=
  filter (λ e, match e with Persisted _ => false | _ => true end = true) es.

Lemma left_by_cons s s1 e es pre s'' :
  durable s [e] = s1 → left_by s1 es pre s'' → left_by s (e :: es) (e :: pre) s''.
Proof.
  intros <- Hl.
  assert (∀ l, durable s (e :: l) = durable (durable s [e]) l) as Ed by (intros l; apply (durable_app _ [e])).
  destruct Hl as [Hp ->|x Hp Ht].
  - apply left_whole; [by apply prefix_cons|by rewrite Ed].
  - eapply (left_torn _ _ _ _ x); [by apply prefix_cons|by rewrite Ed].
Qed.

Lemma crash_run_left s d es pre d' :
  on_disk d s → crash_run s d es pre d' →
  ∃ s'' d'' pre', open d' = Some (Ok (s'', d'')) ∧ on_disk d'' s'' ∧
    left_by s es pre' s'' ∧ visible pre' = visible pre.
Proof.
  intros Hd Hc. induction Hc as [s d es|s d op s' es d' Hop Hdiv Hc|s d op s' es pre d' Hop _ IH|s d e es pre d' He _ IH].
  - destruct (open_on_disk _ _ Hd) as (d'' & ? & ?). exists s, d'', []. split; [done|]. split; [done|].
    split; [apply left_start|done].
  - destruct (crash_recovers _ _ _ _ _ Hd Hop Hdiv Hc) as (s'' & d'' & Ho & Hd'' & Hr).
    assert (∃ pre', left_by s (Persisted s' :: es) pre' s'' ∧ visible pre' = []) as (pre' & ? & ?); [|by exists s'', d'', pre'].
    destruct (recovered_cases _ _ _ _ Hop Hr) as [->|[->|Ht]].
    + exists []. split; [apply left_start|done].
    + exists [Persisted s']. split; [|done]. apply left_whole; [|done]. by apply prefix_cons, prefix_nil.
    + exists []. split; [|done]. eapply (left_torn _ _ _ _ s'); [by apply prefix_cons, prefix_nil|done].
  - destruct IH as (s'' & d'' & pre' & Ho & Hd'' & Hl & Hv); [by apply op_on_disk|].
    exists s'', d'', (Persisted s' :: pre'). split; [done|]. split; [done|]. split; [by eapply left_by_cons|done].
  - destruct (IH Hd) as (s'' & d'' & pre' & Ho & Hd'' & Hl & Hv).
    exists s'', d'', (e :: pre'). split; [done|]. split; [done|].
    split; [eapply left_by_cons; [|exact Hl]; by destruct e|].
    unfold visible in *. by rewrite !filter_cons, Hv.
Qed.

(** [C17] Every crash is one the cluster theorems cover. Run an iteration against
    the files: each write of it is an operation of the storage, and if the
    process dies at any point of their file-system steps (an install over a
    divergent log excepted), the directory opens, and the node that boots
    from it is reached by a crash step of the model, with the same messages
    and answers sent. *)
Theorem disk_crash_covered t inp n r n' d pre d' :
  enabled t inp n = true → loop_step t inp (set_effects [] n) = Some (r, n') →
  on_disk d (n_storage n) → crash_run (n_storage n) d (n_effects n') pre d' →
  op_writes (n_storage n) (n_effects n') ∧
  ∃ s'' d'' pre', open d' = Some (Ok (s'', d'')) ∧ on_disk d'' s'' ∧ visible pre' = visible pre ∧
    ∀ t0 n'', spawn (n_config n) s'' sm0 t0 = Some n'' → node_step sm0 n inp None pre' n''.
Proof.
  intros He Hrun Hd Hc. destruct (loop_step_hs _ _ _ _ _ Hrun) as (_ & _ & _ & Ho). split; [done|].
  destruct (crash_run_left _ _ _ _ _ Hd Hc) as (s'' & d'' & pre' & Hopen & Hd'' & Hl & Hv).
  exists s'', d'', pre'. split; [done|]. split; [done|]. split; [done|]. intros t0 n'' Hsp. by eapply step_crash.
Qed.
End crashes.

(** ** A batch that is cut short *)
Section examples.
#[local] Existing Instances numeric_json bit_codec bit_codec_laws counter_sm counter_laws.

Definition batch : list LogEntry := [MkLogEntry 1 1 Noop; MkLogEntry 1 2 Noop].
Definition batch_request : LoopInput := InRpc 2 (AppendEntries (MkAppendEntriesArgs 1 2 0 0 batch 0)).
Definition taker : RaftNode N := default idle_node (snd <$> loop_step 5 batch_request (set_effects [] voter)).

(** The new term is on disk, of the batch only the first line. *)
Definition termed : Storage := save_hard_state (MkHardState 1 None) empty_storage.
Definition termed_dir : Dir := exec_all (op_prims (SaveHardState (MkHardState 1 None)) empty_storage termed) ∅.
Definition torn_dir : Dir := exec (PWrite LOG_FILE (lines [MkLogEntry 1 1 Noop])) termed_dir.

Lemma torn_crash : crash_run empty_storage ∅ (n_effects taker) [Persisted termed] torn_dir.
Proof.
  assert (n_effects taker = [Persisted termed; Persisted (MkStorage (MkHardState 1 None) None batch)]) as ->
    by (vm_compute; reflexivity).
  refine (crash_after_write empty_storage ∅ (SaveHardState (MkHardState 1 None)) termed _ _ _ eq_refl _).
  refine (crash_inside termed termed_dir (Append batch) _ _ torn_dir eq_refl eq_refl _).
  refine (crash_torn LOG_FILE (lines batch) _ _ termed_dir _).
  exists (lines [MkLogEntry 1 2 Noop]). vm_compute. reflexivity.
Qed.

Example disk_crash_covered_witness :
  op_writes empty_storage (n_effects taker) ∧
  ∃ s'' d'' pre', open torn_dir = Some (Ok (s'', d'')) ∧ on_disk d'' s'' ∧ visible pre' = visible [Persisted termed] ∧
    ∀ t0 n'', spawn (n_config voter) s'' 0 t0 = Some n'' → node_step 0 voter batch_request None pre' n''.
Proof.
  assert (n_storage voter = empty_storage) as Es by (vm_compute; reflexivity).
  assert (∃ r, loop_step 5 batch_request (set_effects [] voter) = Some (r, taker)) as [r Hrun]
    by (eexists; vm_compute; reflexivity).
  pose proof (disk_crash_covered 0 5 batch_request voter r taker ∅ [Persisted termed] torn_dir) as H.
  rewrite Es in H. exact (H eq_refl Hrun on_disk_empty torn_crash).
Defined.
End examples.
