(* ===== verification/Kv.v ===== *)
(** * The client operations ([src/kv.rs])

    What a client of one node sees: [KvNode::write], [KvNode::get] and
    [KvNode::get_linearizable] as functions of what the Raft core answers.
    The answers themselves are effects of the core's event loop
    ([ProposeReply], [Committed], [ReadGranted], ...); the theorems say what
    an answer of the core stands for: an accepted write is in the durable log
    before the client hears of it, a rejected one has changed nothing, and a
    registered read is confirmed by fresh messages to every peer. *)
From S2P Require Import Prelude Types Rng Storage Store Node NodeSteps NodeLife NodeInv.
From S2P Require Import NodeThm.
Open Scope N_scope.

Inductive WriteError :=
| WriteNotLeader (leader_hint : option NodeId)
| WriteTimeout
| WriteSuperseded
| WriteInvalidConfig (reason : ConfigError)
| WriteShutdown.

Inductive ReadError :=
| ReadNotLeader (leader_hint : option NodeId)
| ReadTimeout
| ReadRetry
| ReadShutdown.

(** A one-shot channel as its receiver finds it: settled at some time after
    the wait began, with a value or by dropping the sender; or never. *)
Abbreviation Channel A := (option (N * option A)) (only parsing).

Inductive Awaited (A : Type) :=
| Elapsed
| Closed
| Received (a : A).
Arguments Elapsed {A}.
Arguments Closed {A}.
Arguments Received {A} _.

(** [tokio::time::timeout(limit, rx).await] *)
Definition timeout {A} (limit : Duration) (rx : Channel A) : Awaited A :=
  match rx with
  | Some (at_, settled) =>
      if bool_decide (at_ ≤ limit)
      then match settled with Some a => Received a | None => Closed end
      else Elapsed
  | None => Elapsed
  end.

(** [RaftHandle::propose] and [RaftHandle::read]: [None] when the node is
    gone (the control channel is closed, or the answer's sender is dropped). *)
Definition handle_reply {A} (reply : option (Result A ProposeError)) : Result A ProposeError :=
  match reply with Some r => r | None => Err Shutdown end.

Definition write (write_timeout : Duration) (reply : option (Result Proposal ProposeError))
    (committed : Channel bool) : Result () WriteError :=
  match handle_reply reply with
  | Err (NotLeader leader_hint) => Err (WriteNotLeader leader_hint)
  | Err (InvalidConfigChange reason) => Err (WriteInvalidConfig reason)
  | Err Shutdown => Err WriteShutdown
  | Ok _ =>
      match timeout write_timeout committed with
      | Elapsed => Err WriteTimeout
      | Closed => Err WriteShutdown
      | Received true => Ok ()
      | Received false => Err WriteSuperseded
      end
  end.

(** The outcome of a write, by what the core answered. *)
Lemma write_cases limit reply committed :
  match write limit reply committed with
  | Ok _ => ∃ p t, reply = Some (Ok p) ∧ committed = Some (t, Some true) ∧ t ≤ limit
  | Err WriteTimeout => ∃ p, reply = Some (Ok p) ∧ ∀ t x, committed = Some (t, x) → limit < t
  | Err (WriteNotLeader hint) => reply = Some (Err (NotLeader hint))
  | Err (WriteInvalidConfig reason) => reply = Some (Err (InvalidConfigChange reason))
  | Err WriteSuperseded => ∃ p t, reply = Some (Ok p) ∧ committed = Some (t, Some false) ∧ t ≤ limit
  | Err WriteShutdown => reply = None ∨ reply = Some (Err Shutdown) ∨
      ∃ p t, reply = Some (Ok p) ∧ committed = Some (t, None) ∧ t ≤ limit
  end.
Proof.
  unfold write, handle_reply, timeout. destruct reply as [[p|[]]|]; simpl; eauto.
  destruct committed as [[t x]|]; [|naive_solver]. case_bool_decide as Ht.
  - destruct x as [[]|]; naive_solver.
  - exists p. split; [done|]. intros ? ? [= <- <-]. lia.
Qed.

Section reads.
Context `{J : SerdeJson}.

(** [store] is the local state machine at the moment it is read. *)
Definition get_linearizable (write_timeout : Duration) (reply : option (Result () ProposeError))
    (granted : Channel ()) (store : KvStore) (key : string) : Result (option Value) ReadError :=
  match handle_reply reply with
  | Err (NotLeader leader_hint) => Err (ReadNotLeader leader_hint)
  | Err (InvalidConfigChange _) => Err ReadRetry
  | Err Shutdown => Err ReadShutdown
  | Ok _ =>
      match timeout write_timeout granted with
      | Elapsed => Err ReadTimeout
      | Closed => Err ReadRetry
      | Received _ => Ok (store_get store key)
      end
  end.

Definition get_local (store : KvStore) (key : string) : option Value := store_get store key.
End reads.

(** ** What the core's answers stand for *)
Section answers.
Context `{J : SerdeJson} {SM : Type} `{!StateMachine SM} {Laws : StateMachineLaws} (sm0 : SM).
Implicit Types n : RaftNode SM.

(** The entry a proposal becomes. *)
Definition proposed_entry n (c : Command) : LogEntry :=
  MkLogEntry (cur_term n) (last_index (n_storage n) + 1) c.

(** How a proposal is answered. *)
Inductive propose_answered (c : Command) (ch : N) n n' : Prop :=
| answered_rejected err :
    n' = set_effects (n_effects n ++ [ProposeReply ch (Err err)]) n →
    (is_leader n = false ∧ err = NotLeader (n_leader_id n)) ∨
    (is_leader n = true ∧ ∃ ms reason, c = ConfigChange ms ∧ err = InvalidConfigChange reason) →
    propose_answered c ch n n'
| answered_accepted s pre post :
    is_leader n = true →
    n_effects n' = n_effects n ++ Persisted s :: pre ++
      ProposeReply ch (Ok (MkProposal (cur_term n) (last_index (n_storage n) + 1))) :: post →
    ((∀ ms, c ≠ ConfigChange ms) → pre = []) →
    entry s (last_index (n_storage n) + 1) = Some (proposed_entry n c) →
    (∀ i, i ≤ last_index (n_storage n) → entry s i = entry (n_storage n) i) →
    propose_answered c ch n n'.

Lemma check_command_reason c n :
  is_leader n = true →
  wp (check_command c) (λ r n', n' = n ∧
    match r with
    | Ok x => x = match c with ConfigChange ms => Some ms | _ => None end
    | Err _ => ∃ ms, c = ConfigChange ms
    end) n.
Proof.
  unfold is_leader. intros Hl. unfold check_command, validate_config_change. walk; try done.
  all: split; [done|]; naive_solver.
Qed.

Lemma evolves_effects n n' : evolves n n' → ∃ es, n_effects n' = n_effects n ++ es.
Proof. intros [_ _ _ (es & E & _)]. eauto. Qed.

Lemma handle_propose_answered c ch n : wlp (handle_propose c ch) (λ _, propose_answered c ch n) n.
Proof.
  unfold handle_propose. do 3 walk_step; nsimpl; bools.
  { unfold emit. walk. eapply answered_rejected; [done|]. by left. }
  apply wpp_bind. eapply wpp_mono; [by apply wp_weaken, check_command_reason|].
  intros res n' [-> Hres]. destruct res as [ms|reason]; cbv beta iota in Hres.
  2: { unfold emit. walk. eapply answered_rejected; [done|]. right. split; [done|].
       destruct Hres as [ms ->]. eauto. }
  pose proof (append_one_Ok (n_storage n) (cur_term n) c) as Hok.
  set (s := MkStorage _ _ _) in Hok.
  apply wpp_bind. eapply wpp_storage_op; [exact Hok|].
  apply wpp_bind. eapply (wpp_mono _ _ (λ _ n1, evolves (stored s n) n1 ∧ (ms = None → n1 = stored s n))).
  { destruct ms as [ms|]; [|by apply wpp_ret]. eapply wpp_mono; [by apply adopt_membership_evolves|]. by intros [] ?. }
  intros [] n1 [[pre Epre]%evolves_effects Hsame]. do 2 walk_step. apply wpp_bind. unfold emit at 1. walk_step.
  match goal with |- wpp _ _ _ ?m => set (n2 := m) end.
  apply wpp_bind. eapply wpp_mono; [by apply (maybe_advance_commit_evolves n2)|]. intros [] n3 Hn3.
  do 2 walk_step. eapply wpp_mono; [by apply (send_appends_evolves _ n2)|].
  intros [] n' [post Epost]%evolves_effects.
  eapply (answered_accepted _ _ _ _ s pre post).
  - done.
  - rewrite Epost. subst n2. nsimpl. rewrite Epre. unfold stored. nsimpl. by rewrite <-!app_assoc.
  - intros Hc. assert (ms = None) as ->%Hsame by (rewrite Hres; destruct c; naive_solver).
    rewrite <-(app_nil_r (n_effects (stored s n))) in Epre at 1. by apply app_inv_head in Epre.
  - pose proof (entry_append _ _ _ (last_index (n_storage n) + 1) Hok) as He.
    rewrite bool_decide_eq_false_2 in He by lia.
    by replace (N.to_nat (last_index (n_storage n) + 1 - last_index (n_storage n) - 1)) with 0%nat in He by lia.
  - intros i Hi. rewrite (entry_append _ _ _ i Hok). by rewrite bool_decide_eq_true_2.
Qed.

(** [C37] A proposal is answered in the iteration that picks it up, truthfully:
    a rejection ([NotLeader] on a non-leader, an invalid configuration change
    on a leader) leaves the node exactly as it was, while an acceptance is
    sent only after the log with the new entry in its place, and every older
    entry untouched, has been made durable; for a write, right after. *)
Theorem propose_truthful c ch n :
  node_wf sm0 n →
  wp (handle_propose c ch) (λ _ n', node_wf sm0 n' ∧ propose_answered c ch n n') n.
Proof.
  intros Hn. apply wp_and_wlp; [by apply handle_propose_wf|apply handle_propose_answered].
Qed.

(** ** Granting linearizable reads *)

(** Has this member confirmed the leadership since the read with number
    [seq] was registered? The leader counts itself. *)
Definition confirms n (l : LeaderState) (seq : N) (id : NodeId) : bool :=
  bool_decide (id = self n) || acked_since l seq id.

Lemma read_acks_members n l seq :
  read_acks n l seq = count_if (confirms n l seq) (btree_keys (n_members n)).
Proof.
  unfold read_acks. rewrite (count_if_perm _ _ _ (members_split n)), count_if_app, Nat.add_comm. f_equal.
  - apply count_if_ext. intros x [Hx _]%list_elem_of_filter. unfold confirms.
    by rewrite (bool_decide_eq_false_2 (x = self n)).
  - case_match; [|done]. rewrite count_if_singleton. unfold confirms.
    by rewrite (bool_decide_eq_true_2 (self n = self n)).
Qed.

(** What a read may rely on when it is granted. *)
Definition read_safe n (l : LeaderState) (r : PendingRead) : Prop :=
  (majority n ≤ count_if (confirms n l (pr_needed_seq r)) (btree_keys (n_members n)))%nat ∧
  pr_read_index r ≤ n_last_applied n.

Lemma read_ready_safe n l r : read_ready n l r = true ↔ read_safe n l r.
Proof.
  unfold read_ready, read_safe. rewrite <-read_acks_members, andb_true_iff, !bool_decide_eq_true. done.
Qed.

(** Linearizable reads: [resolve_reads] grants exactly the waiting reads
    for which a majority of the current members (the leader counting itself
    while it is one) has answered an AppendEntries numbered at or above the
    read, and whose read index has been applied, and it leaves the others
    waiting, in order. *)
Theorem read_grant_rule n l :
  n_role n = Leader l →
  ∃ n', resolve_reads n = Some ((), n') ∧
    (∃ granted, n_effects n' = n_effects n ++ (ReadGranted <$> granted) ∧
       ∀ ch, ch ∈ granted ↔ ∃ r, r ∈ pending_reads l ∧ pr_granted r = ch ∧ read_safe n l r) ∧
    ∃ waiting, n_role n' = Leader (set_pending_reads waiting l) ∧
      waiting `sublist_of` pending_reads l ∧
      ∀ r, r ∈ waiting ↔ r ∈ pending_reads l ∧ ¬ read_safe n l r.
Proof.
  intros Hl. unfold resolve_reads. unfold_M. rewrite Hl. eexists. split; [reflexivity|].
  unfold set_leader, emits, modify. nsimpl. split.
  - exists (pr_granted <$> filter (λ r, read_ready n l r = true) (pending_reads l)). split.
    + by rewrite <-list_fmap_compose.
    + intros ch. rewrite list_elem_of_fmap. setoid_rewrite list_elem_of_filter.
      setoid_rewrite read_ready_safe. naive_solver.
  - eexists. split; [reflexivity|]. split; [apply sublist_filter|].
    intros r. rewrite list_elem_of_filter. rewrite <-read_ready_safe.
    destruct (read_ready n l r); naive_solver.
Qed.
End answers.

(** ** Concrete clients *)
Section examples.
#[local] Existing Instances numeric_json counter_sm counter_laws.

Lemma committed_leader_leads : is_leader committed_leader = true.
Proof. vm_compute. reflexivity. Qed.

Example propose_truthful_witness :
  ∃ n, sample_leader = Some n ∧
    wp (handle_propose (Put "k" (jv 6) None) 101)
       (λ _ n', node_wf 0 n' ∧ propose_answered (Put "k" (jv 6) None) 101 n n') n.
Proof.
  destruct sample_leader_ok as (n & Hs & Hn & _). exists n. split; [exact Hs|].
  exact (propose_truthful 0 (Put "k" (jv 6) None) 101 n Hn).
Defined.

(** A leader with one read waiting, confirmed by node 2. *)
Definition read_leader_state : LeaderState :=
  MkLeaderState {[2 := 3; 3 := 1]} {[2 := 2; 3 := 0]} 1 1 {[2 := 1]}
    {[2 := 0; 3 := 0]} ∅ [MkPendingRead 1 2 200; MkPendingRead 2 2 201].
Definition reading_leader : RaftNode N := set_role (Leader read_leader_state) committed_leader.

Example read_grant_rule_witness :
  ∃ n', resolve_reads reading_leader = Some ((), n') ∧
    (∃ granted, n_effects n' = n_effects reading_leader ++ (ReadGranted <$> granted) ∧
       ∀ ch, ch ∈ granted ↔ ∃ r, r ∈ pending_reads read_leader_state ∧ pr_granted r = ch ∧
         read_safe reading_leader read_leader_state r) ∧
    ∃ waiting, n_role n' = Leader (set_pending_reads waiting read_leader_state) ∧
      waiting `sublist_of` pending_reads read_leader_state ∧
      ∀ r, r ∈ waiting ↔ r ∈ pending_reads read_leader_state ∧ ¬ read_safe reading_leader read_leader_state r.
Proof. exact (read_grant_rule reading_leader read_leader_state eq_refl). Defined.
End examples.
