(* ===== verification/Api.v ===== *)
(** * The HTTP API ([src/api.rs])

    Every handler of the client-facing API: what it checks, what it asks of
    the key-value service, and how the outcome becomes a response. A handler
    is a [Handler]: an immediate response, or a write or linearizable read
    with its continuation. Routing, extractors, JSON decoding and header
    values belong to third-party crates; what the handlers use of them is
    the class [ApiCodec]. *)
From S2P Require Import Prelude Text Types Rng Storage Store Node NodeSteps NodeLife.
From S2P Require Import NodeInv NodeThm Kv.
Open Scope N_scope.

(** The body of [GET /cluster/status]. *)
Record StatusBody := MkStatusBody {
  sb_id : NodeId;
  sb_term : N;
  sb_role : string;
  sb_leader_id : option NodeId;
  sb_commit_index : N;
  sb_last_log_index : N;
}.

Section responses.
Context `{J : SerdeJson}.

Inductive Body :=
| NoBody
| TextBody (s : string)
| JsonBody (v : Value)
| StatusJson (s : StatusBody)
| MembersJson (ms : Membership).

Record Response := MkResponse {
  status : N;
  location : option string;
  body : Body;
}.
Definition respond (code : N) (b : Body) : Response := MkResponse code None b.

(** A text body: the message and a line feed. *)
Definition text (s : string) : Body := TextBody (s +:+ String (chr 10) "").
End responses.

Definition OK : N := 200.
Definition CREATED : N := 201.
Definition NO_CONTENT : N := 204.
Definition TEMPORARY_REDIRECT : N := 307.
Definition BAD_REQUEST : N := 400.
Definition NOT_FOUND : N := 404.
Definition CONFLICT : N := 409.
Definition INTERNAL_SERVER_ERROR : N := 500.
Definition SERVICE_UNAVAILABLE : N := 503.
Definition GATEWAY_TIMEOUT : N := 504.

(** What the handlers rely on of serde_json, http and axum. A header value
    is refused by the http crate unless its bytes are visible, opaque
    (128 and up), spaces or tabs; axum then answers an internal server
    error, under its own status or under the status [code] it was to send,
    and without the header. *)
Class ApiCodec `{J : SerdeJson} := {
  value_from_slice : str → option Value;
  addr_from_slice : str → option MemberAddr;
  header_value_ok : string → bool;
  header_rejected : N → string → Response;
  header_rejected_location code v : location (header_rejected code v) = None;
  header_rejected_status code v :
    status (header_rejected code v) = INTERNAL_SERVER_ERROR ∨ status (header_rejected code v) = code;
}.

Section api.
Context `{C : ApiCodec}.

(** What a handler reads locally: the state machine, the watch channels of
    the core, the redirect book. *)
Record ApiContext := MkApiContext {
  ctx_store : KvStore;
  ctx_status : Status;
  ctx_membership : Membership;
  peer_urls : gmap N string;
}.

Inductive Handler :=
| Respond (r : Response)
| DoWrite (c : Command) (k : Result () WriteError → Response)
| DoRead (key : string) (k : Result (option Value) ReadError → Response).

(** ** Redirects and errors *)
Definition redirect_to_leader (ctx : ApiContext) (path : string) (leader_hint : option NodeId)
    : option Response :=
  leader ← leader_hint;
  base ← peer_urls ctx !! leader;
  let location := base +:+ "/" +:+ path in
  Some (if header_value_ok location then MkResponse TEMPORARY_REDIRECT (Some location) NoBody
        else header_rejected TEMPORARY_REDIRECT location).

(** The texts of [validate_config_change]'s refusals. *)
Definition reason_text (r : ConfigError) : string :=
  match r with
  | NoopNotCommitted => "this term's no-op is not yet committed; retry shortly"
  | ChangeInFlight => "a configuration change is already in flight"
  | EmptyConfig => "the new configuration must keep at least one member"
  | NotSingleServer => "exactly one member must be added or removed"
  | MajorityUnreachable => "a majority of the new configuration must be reachable (recently heard); refusing a change that could stall the cluster — a not-yet-added member always counts as unreachable"
  end.

Definition write_error_response (ctx : ApiContext) (path : string) (error : WriteError) : Response :=
  match error with
  | WriteNotLeader leader_hint =>
      match redirect_to_leader ctx path leader_hint with
      | Some redirect => redirect
      | None => respond SERVICE_UNAVAILABLE (text "no leader known; retry shortly")
      end
  | WriteTimeout => respond GATEWAY_TIMEOUT
      (text "write not confirmed: this node cannot reach a majority; the write may or may not commit later")
  | WriteSuperseded => respond SERVICE_UNAVAILABLE
      (text "leadership changed before the write committed; safe to retry")
  | WriteInvalidConfig reason => respond CONFLICT (text (reason_text reason))
  | WriteShutdown => respond SERVICE_UNAVAILABLE (text "node shutting down")
  end.

Definition read_error_response (ctx : ApiContext) (key : string) (error : ReadError) : Response :=
  match error with
  | ReadNotLeader leader_hint =>
      match redirect_to_leader ctx key leader_hint with
      | Some redirect => redirect
      | None => respond SERVICE_UNAVAILABLE (text "no leader known; retry shortly")
      end
  | ReadTimeout => respond GATEWAY_TIMEOUT
      (text "read not confirmed: this node cannot reach a majority; retry (or use ?stale=true for a possibly-stale local read)")
  | ReadRetry => respond SERVICE_UNAVAILABLE
      (text "leadership changed during the read; safe to retry")
  | ReadShutdown => respond SERVICE_UNAVAILABLE (text "node shutting down")
  end.

(** ** Keys *)
Definition found (v : option Value) : Response :=
  match v with Some value => respond OK (JsonBody value) | None => respond NOT_FOUND NoBody end.

Definition get_key (ctx : ApiContext) (key : string) (stale : bool) : Handler :=
  if stale then Respond (found (get_local (ctx_store ctx) key))
  else DoRead key (λ r, match r with
                        | Ok v => found v
                        | Err error => read_error_response ctx key error
                        end).

Definition role_name (r : RoleKind) : string :=
  match r with
  | KFollower => "Follower"
  | KPreCandidate => "PreCandidate"
  | KCandidate => "Candidate"
  | KLeader => "Leader"
  end.

Definition get_status (ctx : ApiContext) : Handler :=
  let s := ctx_status ctx in
  Respond (respond OK (StatusJson (MkStatusBody (status_id s) (status_term s)
    (role_name (status_role s)) (status_leader_id s) (status_commit_index s)
    (status_last_log_index s)))).

Definition CLIENT_ID_HEADER : string := "x-client-id".
Definition CLIENT_SEQ_HEADER : string := "x-client-seq".

(** [HeaderValue::to_str]: visible ASCII and tabs only. *)
Definition to_str (v : str) : option str :=
  if forallb (λ c, (bool_decide (32 ≤ code c) && bool_decide (code c < 127)) || bool_decide (code c = 9)) v
  then Some v else None.

(** A header: absent, present but not a number, or a number. *)
Definition parse_header (headers : string → option str) (name : string) : option (option N) :=
  (λ v, to_str v ≫= parse_u64) <$> headers name.

Inductive TokenError := NotIntegers | NotTogether.

Definition session_from_headers (headers : string → option str) : Result (option Session) TokenError :=
  match parse_header headers CLIENT_ID_HEADER, parse_header headers CLIENT_SEQ_HEADER with
  | None, None => Ok None
  | Some (Some client), Some (Some seq) => Ok (Some (MkSession client seq))
  | Some None, _ | _, Some None => Err NotIntegers
  | _, _ => Err NotTogether
  end.

Definition token_error_text (e : TokenError) : string :=
  match e with
  | NotIntegers => "X-Client-Id and X-Client-Seq must be unsigned integers"
  | NotTogether => "X-Client-Id and X-Client-Seq must be provided together"
  end.

Definition put_key (ctx : ApiContext) (key : string) (headers : string → option str) (bytes : str)
    : Handler :=
  match session_from_headers headers with
  | Err reason => Respond (respond BAD_REQUEST (text (token_error_text reason)))
  | Ok session =>
      match value_from_slice bytes with
      | None => Respond (respond BAD_REQUEST (text "body must be valid JSON"))
      | Some value =>
          DoWrite (Put key value session) (λ r,
            match r with
            | Ok _ => respond CREATED NoBody
            | Err error => write_error_response ctx key error
            end)
      end
  end.

Definition delete_key (ctx : ApiContext) (key : string) (headers : string → option str) : Handler :=
  match session_from_headers headers with
  | Err reason => Respond (respond BAD_REQUEST (text (token_error_text reason)))
  | Ok session =>
      DoWrite (Delete key session) (λ r,
        match r with
        | Ok _ => respond NO_CONTENT NoBody
        | Err error => write_error_response ctx key error
        end)
  end.

(** ** Cluster administration *)
Definition list_members (ctx : ApiContext) : Handler :=
  Respond (respond OK (MembersJson (ctx_membership ctx))).

Definition member_path (id : NodeId) : string := "cluster/members/" +:+ to_string (print_uint id).

(** The usage text of [PUT /cluster/members/{id}], its quotes spelled out. *)
Definition member_usage : string :=
  let q := String (chr 34) "" in
  "body must be {" +:+ q +:+ "raft" +:+ q +:+ ": " +:+ q +:+ "host:port" +:+ q +:+ ", " +:+
  q +:+ "client" +:+ q +:+ ": " +:+ q +:+ "http://host:port" +:+ q +:+ "}".

Definition put_member (ctx : ApiContext) (id : NodeId) (bytes : str) : Handler :=
  match addr_from_slice bytes with
  | None => Respond (respond BAD_REQUEST (text member_usage))
  | Some addr =>
      let members := ctx_membership ctx in
      if bool_decide (is_Some (members !! id))
      then Respond (respond CONFLICT
             (text "already a member (address changes are not supported)"))
      else DoWrite (ConfigChange (<[id := addr]> members)) (λ r,
             match r with
             | Ok _ => respond CREATED NoBody
             | Err error => write_error_response ctx (member_path id) error
             end)
  end.

Definition delete_member (ctx : ApiContext) (id : NodeId) : Handler :=
  let members := ctx_membership ctx in
  match members !! id with
  | None => Respond (respond NOT_FOUND NoBody)
  | Some _ =>
      DoWrite (ConfigChange (delete id members)) (λ r,
        match r with
        | Ok _ => respond NO_CONTENT NoBody
        | Err error => write_error_response ctx (member_path id) error
        end)
  end.
End api.

(** ** Dedup tokens *)
Section tokens.
Context `{C : ApiCodec}.

(** A header value that is a 64-bit unsigned integer. *)
Definition header_is (v : str) (n : N) : Prop := to_str v = Some v ∧ parse_u64 v = Some n.

Lemma to_str_Some v s : to_str v = Some s → s = v.
Proof. unfold to_str. case_match; naive_solver. Qed.

Lemma parse_header_cases headers name :
  match headers name with
  | None => parse_header headers name = None
  | Some v => (∃ n, header_is v n ∧ parse_header headers name = Some (Some n)) ∨
              ((∀ n, ¬ header_is v n) ∧ parse_header headers name = Some None)
  end.
Proof.
  unfold parse_header, header_is. destruct (headers name) as [v|]; [|done]. simpl.
  destruct (to_str v) as [s|] eqn:Hs; simpl.
  - apply to_str_Some in Hs as ->. destruct (parse_u64 v) as [n|] eqn:Hp; [left; eauto|right].
    split; [|done]. naive_solver.
  - right. split; [|done]. naive_solver.
Qed.

(** Dedup tokens are both or neither: a request without the two headers is
    a plain write; one with both headers, each a decimal that fits 64 bits,
    carries exactly that token; every other combination is refused before
    anything is proposed. *)
Theorem session_headers_exact headers ctx key bytes :
  let client := headers CLIENT_ID_HEADER in
  let seq := headers CLIENT_SEQ_HEADER in
  (session_from_headers headers = Ok None ↔ client = None ∧ seq = None) ∧
  (∀ c q, session_from_headers headers = Ok (Some (MkSession c q)) ↔
     ∃ v w, client = Some v ∧ seq = Some w ∧ header_is v c ∧ header_is w q) ∧
  ((∃ e, session_from_headers headers = Err e) →
     (∃ r, put_key ctx key headers bytes = Respond r ∧ status r = BAD_REQUEST) ∧
     ∃ r, delete_key ctx key headers = Respond r ∧ status r = BAD_REQUEST).
Proof.
  intros client seq. pose proof (parse_header_cases headers CLIENT_ID_HEADER) as Hc.
  pose proof (parse_header_cases headers CLIENT_SEQ_HEADER) as Hq. fold client in Hc. fold seq in Hq.
  split; [|split].
  - unfold session_from_headers.
    destruct client as [v|]; [destruct Hc as [(n & _ & Hc)|[_ Hc]]|]; rewrite Hc;
      (destruct seq as [w|]; [destruct Hq as [(n' & _ & Hq)|[_ Hq]]|]; rewrite ?Hq); naive_solver.
  - intros c q. unfold session_from_headers, header_is in *.
    destruct client as [v|]; [destruct Hc as [(n & Hn & Hc)|[Hn Hc]]|]; rewrite Hc;
      (destruct seq as [w|]; [destruct Hq as [(n' & Hn' & Hq)|[Hn' Hq]]|]; rewrite ?Hq); naive_solver.
  - intros [e He]. unfold put_key, delete_key. rewrite He. split; eexists; by split.
Qed.
End tokens.

(** ** Statuses *)
Section statuses.
Context `{C : ApiCodec}.

(** Running a handler against the outcomes of the service. *)
Definition serve (h : Handler) (w : Result () WriteError) (r : Result (option Value) ReadError) : Response :=
  match h with
  | Respond resp => resp
  | DoWrite _ k => k w
  | DoRead _ k => k r
  end.

(** A request that passes the checks before anything is proposed. *)
Definition valid_put (headers : string → option str) (bytes : str) : Prop :=
  (∃ session, session_from_headers headers = Ok session) ∧ ∃ value, value_from_slice bytes = Some value.

(** How a PUT answers the outcome of its write. *)
Definition outcome (ctx : ApiContext) (key : string) (w : Result () WriteError) : Response :=
  match w with Ok _ => respond CREATED NoBody | Err e => write_error_response ctx key e end.

Lemma put_key_valid ctx key headers bytes session value :
  session_from_headers headers = Ok session → value_from_slice bytes = Some value →
  put_key ctx key headers bytes = DoWrite (Put key value session) (outcome ctx key).
Proof. intros Hs Hv. unfold put_key. by rewrite Hs, Hv. Qed.
Lemma put_key_invalid ctx key headers bytes :
  ¬ valid_put headers bytes →
  ∃ resp, put_key ctx key headers bytes = Respond resp ∧ status resp = BAD_REQUEST ∧ location resp = None.
Proof.
  unfold put_key, valid_put. destruct (session_from_headers headers); [|by eexists].
  destruct (value_from_slice bytes); [naive_solver|by eexists].
Qed.
Lemma valid_put_dec headers bytes : valid_put headers bytes ∨ ¬ valid_put headers bytes.
Proof.
  unfold valid_put. destruct (session_from_headers headers), (value_from_slice bytes); naive_solver.
Qed.

(** The client URL a redirect would use. *)
Definition leader_url (ctx : ApiContext) (hint : option NodeId) : option string :=
  l ← hint; peer_urls ctx !! l.

(** The response to a failed write, case by case. *)
Lemma write_error_cases ctx key e :
  let resp := write_error_response ctx key e in
  match e with
  | WriteNotLeader hint =>
      match leader_url ctx hint with
      | Some base =>
          if header_value_ok (base +:+ "/" +:+ key)
          then status resp = 307 ∧ location resp = Some (base +:+ "/" +:+ key)
          else resp = header_rejected 307 (base +:+ "/" +:+ key) ∧ location resp = None ∧
               (status resp = 500 ∨ status resp = 307)
      | None => status resp = 503 ∧ location resp = None
      end
  | WriteSuperseded | WriteShutdown => status resp = 503 ∧ location resp = None
  | WriteTimeout => status resp = 504 ∧ location resp = None
  | WriteInvalidConfig _ => status resp = 409 ∧ location resp = None
  end.
Proof.
  destruct e as [[l|]| | | |]; simpl; try done. unfold redirect_to_leader. simpl.
  destruct (peer_urls ctx !! l) as [base|]; simpl; [|done]. case_match; [done|].
  split; [done|]. split; [apply header_rejected_location|apply header_rejected_status].
Qed.

(** What the service answers when it has no outcome to report. *)
Definition unavailable (ctx : ApiContext) (limit : Duration) (reply : option (Result Proposal ProposeError))
    (committed : Channel bool) : Prop :=
  reply = None ∨ reply = Some (Err Shutdown) ∨
  (∃ hint, reply = Some (Err (NotLeader hint)) ∧ leader_url ctx hint = None) ∨
  (∃ p t x, reply = Some (Ok p) ∧ committed = Some (t, x) ∧ t ≤ limit ∧ x ≠ Some true).

Ltac outcome_solve :=
  match goal with
  | |- _ ∈ _ => rewrite !elem_of_cons; naive_solver
  | _ => naive_solver lia
  end.

Lemma outcome_statuses ctx key limit reply committed :
  let resp := outcome ctx key (write limit reply committed) in
  let accepted := ∃ p, reply = Some (Ok p) in
  status resp ≠ BAD_REQUEST ∧
  (status resp = CREATED ↔ accepted ∧ ∃ t, committed = Some (t, Some true) ∧ t ≤ limit) ∧
  (status resp = GATEWAY_TIMEOUT ↔ accepted ∧ ∀ t x, committed = Some (t, x) → limit < t) ∧
  (status resp = CONFLICT ↔ ∃ reason, reply = Some (Err (InvalidConfigChange reason))) ∧
  (status resp = SERVICE_UNAVAILABLE ↔ unavailable ctx limit reply committed) ∧
  (∀ loc, location resp = Some loc ↔ ∃ hint base, reply = Some (Err (NotLeader hint)) ∧
     leader_url ctx hint = Some base ∧ loc = base +:+ "/" +:+ key ∧ header_value_ok loc = true) ∧
  (∀ loc, location resp = Some loc → status resp = TEMPORARY_REDIRECT) ∧
  (∀ hint base, reply = Some (Err (NotLeader hint)) → leader_url ctx hint = Some base →
     header_value_ok (base +:+ "/" +:+ key) = false →
     resp = header_rejected TEMPORARY_REDIRECT (base +:+ "/" +:+ key)) ∧
  status resp ∈ [CREATED; TEMPORARY_REDIRECT; BAD_REQUEST; CONFLICT; INTERNAL_SERVER_ERROR;
                 SERVICE_UNAVAILABLE; GATEWAY_TIMEOUT].
Proof.
  simpl. pose proof (write_cases limit reply committed) as Hw. unfold unavailable, outcome, CREATED, TEMPORARY_REDIRECT,
    BAD_REQUEST, CONFLICT, INTERNAL_SERVER_ERROR, SERVICE_UNAVAILABLE, GATEWAY_TIMEOUT.
  destruct (write limit reply committed) as [[]|e].
  { destruct Hw as (p & t & -> & -> & Ht). split_and!; outcome_solve. }
  pose proof (write_error_cases ctx key e) as He. simpl in He.
  generalize dependent (write_error_response ctx key e). intros resp He.
  destruct e as [hint| | | |]; [destruct (leader_url ctx hint) as [base|] eqn:Hu; [case_match|]|..];
    destruct_and!.
  all: split_and!; try outcome_solve.
  - intros hint' base' Hr Hb Hf. congruence.
  - intros loc. split; [congruence|]. intros (hint' & base' & Hr & Hb & -> & Hf). congruence.
Qed.

(** [C38] What a PUT proposes and what its status tells the client. A
    well-formed request proposes exactly the parsed value under the key with
    the parsed token; a malformed one proposes nothing and is the only one
    answered [400]. [201] is answered exactly when the node accepted the
    write into its log and the core reported it committed within the
    timeout; [504] exactly when it was accepted and nothing was heard in
    time; [409] exactly when the core refused it as a configuration change;
    [503] exactly when the node is shutting down, knows no URL of a leader,
    or learned in time that the entry was superseded or the core is gone. A
    [Location] is sent exactly when the node is not the leader, knows the
    leader's URL, and [url/key] is a legal header value; it is that value,
    under status [307]. With an illegal value the answer is axum's, a
    server error without a [Location]. There is no other status. *)
Theorem put_statuses ctx key headers bytes limit reply committed r :
  let h := put_key ctx key headers bytes in
  let resp := serve h (write limit reply committed) r in
  let valid := valid_put headers bytes in
  let accepted := ∃ p, reply = Some (Ok p) in
  (∀ session value, session_from_headers headers = Ok session → value_from_slice bytes = Some value →
     ∃ k, h = DoWrite (Put key value session) k) ∧
  (¬ valid → ∃ x, h = Respond x) ∧
  (status resp = BAD_REQUEST ↔ ¬ valid) ∧
  (status resp = CREATED ↔ valid ∧ accepted ∧ ∃ t, committed = Some (t, Some true) ∧ t ≤ limit) ∧
  (status resp = GATEWAY_TIMEOUT ↔ valid ∧ accepted ∧ ∀ t x, committed = Some (t, x) → limit < t) ∧
  (status resp = CONFLICT ↔ valid ∧ ∃ reason, reply = Some (Err (InvalidConfigChange reason))) ∧
  (status resp = SERVICE_UNAVAILABLE ↔ valid ∧ unavailable ctx limit reply committed) ∧
  (∀ loc, location resp = Some loc ↔ valid ∧ ∃ hint base, reply = Some (Err (NotLeader hint)) ∧
     leader_url ctx hint = Some base ∧ loc = base +:+ "/" +:+ key ∧ header_value_ok loc = true) ∧
  (∀ loc, location resp = Some loc → status resp = TEMPORARY_REDIRECT) ∧
  (∀ hint base, valid → reply = Some (Err (NotLeader hint)) → leader_url ctx hint = Some base →
     header_value_ok (base +:+ "/" +:+ key) = false →
     resp = header_rejected TEMPORARY_REDIRECT (base +:+ "/" +:+ key)) ∧
  status resp ∈ [CREATED; TEMPORARY_REDIRECT; BAD_REQUEST; CONFLICT; INTERNAL_SERVER_ERROR;
                 SERVICE_UNAVAILABLE; GATEWAY_TIMEOUT].
Proof.
  intros h resp valid accepted.
  destruct (valid_put_dec headers bytes) as [Hv|Hv]; fold valid in Hv.
  2: { destruct (put_key_invalid ctx key _ _ Hv) as (x & Hh & Hs & Hl). fold h in Hh.
       assert (resp = x) as -> by (subst resp; by rewrite Hh). rewrite Hs, Hl.
       split; [|split_and!; [naive_solver..|set_solver]].
       intros s v ? ?. destruct Hv. by split; eexists. }
  split; [intros; eexists; by apply put_key_valid|]. split; [done|].
  pose proof Hv as [[session Hs] [value Hj]].
  assert (resp = outcome ctx key (write limit reply committed)) as ->
    by (subst resp h; by erewrite put_key_valid).
  destruct (outcome_statuses ctx key limit reply committed) as (H1 & H2 & H3 & H4 & H5 & H6 & H7 & H8 & H9).
  subst accepted. split_and!; [naive_solver..|done].
Qed.
End statuses.

(** ** Membership administration *)
Section admin.
Context `{C : ApiCodec} {SM : Type} `{!StateMachine SM}.
Implicit Types n : RaftNode SM.

Lemma count_filter_singleton {A} (f : N → bool) (m : gmap N A) id :
  is_Some (m !! id) → (∀ k, is_Some (m !! k) → f k = true ↔ k = id) → count_if f (btree_keys m) = 1%nat.
Proof.
  intros Hid Hf. rewrite count_keys.
  assert (filter (λ k, f k = true) (dom m) = {[id]}) as ->; [|apply size_singleton].
  apply set_eq. intros k. rewrite elem_of_filter, elem_of_singleton, elem_of_dom.
  split; [intros [? ?]; by apply Hf|]. intros ->. split; [by apply Hf|done].
Qed.
Lemma count_filter_none {A} (f : N → bool) (m : gmap N A) :
  (∀ k, is_Some (m !! k) → f k = false) → count_if f (btree_keys m) = 0%nat.
Proof. intros Hf. apply count_if_none. intros k Hk%elem_of_btree_keys. by apply Hf. Qed.

(** The number of servers a change adds and removes. *)
Lemma added_one n id addr :
  n_members n !! id = None →
  (count_if (λ k, negb (is_member n k)) (btree_keys (<[id := addr]> (n_members n))) +
   count_if (λ k, bool_decide (<[id := addr]> (n_members n) !! k = None)) (btree_keys (n_members n)) = 1)%nat.
Proof.
  intros Hid. rewrite (count_filter_singleton _ _ id), count_filter_none; [done|..].
  - intros k Hk. apply bool_decide_eq_false. by rewrite lookup_insert_None, eq_None_not_Some; naive_solver.
  - rewrite lookup_insert_eq. eauto.
  - intros k Hk. unfold is_member. rewrite negb_true_iff, bool_decide_eq_false, <-eq_None_not_Some.
    apply lookup_insert_is_Some in Hk as [<-|[Hne Hk]]; [done|].
    split; [|naive_solver]. intros ?. destruct Hk. congruence.
Qed.
Lemma removed_one n id :
  is_Some (n_members n !! id) →
  (count_if (λ k, negb (is_member n k)) (btree_keys (delete id (n_members n))) +
   count_if (λ k, bool_decide (delete id (n_members n) !! k = None)) (btree_keys (n_members n)) = 1)%nat.
Proof.
  intros Hid. rewrite (count_filter_none (λ k, negb (is_member n k))), (count_filter_singleton _ _ id); [done|done|..].
  - intros k Hk. rewrite bool_decide_eq_true, lookup_delete_None, eq_None_not_Some. naive_solver.
  - intros k [_ Hk]%lookup_delete_is_Some. unfold is_member. by rewrite bool_decide_eq_true_2.
Qed.

Lemma validate_single n l new r n' :
  n_role n = Leader l → validate_config_change new n = Some (r, n') →
  (count_if (λ k, negb (is_member n k)) (btree_keys new) +
   count_if (λ k, bool_decide (new !! k = None)) (btree_keys (n_members n)) = 1)%nat →
  r ≠ Err NotSingleServer.
Proof.
  intros Hl Hv Hone. unfold validate_config_change in Hv. unfold_M. rewrite Hl in Hv.
  repeat (case_match; simplify_eq; try done). bools. done.
Qed.
Lemma validate_nonempty n l new r n' :
  n_role n = Leader l → validate_config_change new n = Some (r, n') → new ≠ ∅ → r ≠ Err EmptyConfig.
Proof.
  intros Hl Hv Hne. unfold validate_config_change in Hv. unfold_M. rewrite Hl in Hv.
  repeat (case_match; simplify_eq; try done). bools. done.
Qed.

(** The admin endpoints propose single-server changes. When the membership
    the node publishes is the one its core has in effect, what [PUT] and
    [DELETE] on [/cluster/members/{id}] propose is never refused as a
    multi-server change, and [PUT] never proposes an empty configuration; a
    [409] then means a change in flight, a term without its first commit, an
    unreachable majority, or the removal of the last member. *)
Theorem admin_single_server ctx id bytes n l h ms k r n' :
  n_role n = Leader l → ctx_membership ctx = n_members n →
  h = put_member ctx id bytes ∨ h = delete_member ctx id →
  h = DoWrite (ConfigChange ms) k → validate_config_change ms n = Some (r, n') →
  r ≠ Err NotSingleServer ∧ (r = Err EmptyConfig → n_members n = {[id := default MemberAddr_default (n_members n !! id)]}).
Proof.
  intros Hl Hctx [->| ->] Hh Hv.
  - unfold put_member in Hh. rewrite Hctx in Hh. destruct (addr_from_slice bytes) as [addr|]; [|done].
    case_bool_decide as Hid; [done|]. injection Hh as <- _. apply eq_None_not_Some in Hid. split.
    + eapply validate_single; [done..|]. by apply added_one.
    + intros ->. exfalso. eapply validate_nonempty; [done..| |done]. apply insert_non_empty.
  - unfold delete_member in Hh. rewrite Hctx in Hh. destruct (n_members n !! id) as [addr|] eqn:Hid; [|done].
    injection Hh as <- _. split.
    + eapply validate_single; [done..|]. apply removed_one. by rewrite Hid.
    + intros ->. simpl. destruct (decide (delete id (n_members n) = ∅)) as [E|Hne].
      * rewrite <-(insert_delete_id _ _ _ Hid), E. by rewrite insert_empty.
      * exfalso. by eapply validate_nonempty.
Qed.
End admin.

(** ** A concrete request *)
Section examples.
#[local] Existing Instances numeric_json counter_sm counter_laws.

(** Values are decimal numbers; an address is the raft address alone. *)
#[local] Instance decimal_codec : ApiCodec := {|
  value_from_slice := parse_u64 : str → option (@Value numeric_json);
  addr_from_slice s := Some (MkMemberAddr (to_string s) "");
  header_value_ok v :=
    forallb (λ c, (bool_decide (32 ≤ code c) && negb (bool_decide (code c = 127))) || bool_decide (code c = 9)) (lit v);
  header_rejected code v := respond INTERNAL_SERVER_ERROR (TextBody "failed to parse header value");
  header_rejected_location code v := eq_refl;
  header_rejected_status code v := or_introl eq_refl;
|}.

Definition leader_context : ApiContext :=
  MkApiContext store_new (status_of committed_leader) (n_members committed_leader) ∅.

Example admin_single_server_witness :
  ∃ ms k, put_member leader_context 4 (lit "n4:9080") = DoWrite (ConfigChange ms) k ∧
    ∀ r n', validate_config_change ms committed_leader = Some (r, n') →
      r ≠ Err NotSingleServer ∧
      (r = Err EmptyConfig → n_members committed_leader =
        {[4 := default MemberAddr_default (n_members committed_leader !! 4)]}).
Proof.
  eexists _, _. split; [vm_compute; reflexivity|]. intros r n' Hv.
  assert (∃ l, n_role committed_leader = Leader l) as [l Hl] by (eexists; vm_compute; reflexivity).
  refine (admin_single_server leader_context 4 (lit "n4:9080") committed_leader l
    (put_member leader_context 4 (lit "n4:9080")) _ _ r n' Hl eq_refl (or_introl eq_refl) _ Hv).
  vm_compute. reflexivity.
Defined.

Definition tokens (name : string) : option str :=
  (list_to_map [(CLIENT_ID_HEADER, lit "7"); (CLIENT_SEQ_HEADER, lit "12")] : gmap string str) !! name.

Example put_commits :
  let resp committed := serve (put_key leader_context "k" tokens (lit "5"))
    (write (from_millis 5000) (Some (Ok (MkProposal 1 3))) committed) (Err ReadTimeout) in
  status (resp (Some (from_millis 4, Some true))) = CREATED ∧
  status (resp None) = GATEWAY_TIMEOUT ∧
  session_from_headers tokens = Ok (Some (MkSession 7 12)).
Proof. vm_compute. done. Qed.

(** A follower that knows the leader's URL redirects a plain key, and
    leaves a key with a line feed to axum. *)
Definition follower_context : ApiContext :=
  MkApiContext store_new (status_of committed_leader) (n_members committed_leader) {[2 := "http://b:8080"]}.
Definition redirected (key : string) : Response :=
  serve (put_key follower_context key tokens (lit "5"))
    (write (from_millis 5000) (Some (Err (NotLeader (Some 2)))) None) (Err ReadTimeout).

Example put_statuses_witness :
  location (redirected "k") = Some "http://b:8080/k" ∧
  redirected (String (chr 10) "") = header_rejected TEMPORARY_REDIRECT ("http://b:8080/" +:+ String (chr 10) "").
Proof.
  assert (valid_put tokens (lit "5")) as Hv by (split; eexists; vm_compute; reflexivity).
  pose proof (λ key, put_statuses follower_context key tokens (lit "5") (from_millis 5000)
    (Some (Err (NotLeader (Some 2)))) None (Err ReadTimeout)) as H.
  split.
  - destruct (H "k") as (_ & _ & _ & _ & _ & _ & _ & Hloc & _). apply Hloc. split; [exact Hv|].
    exists (Some 2), "http://b:8080". repeat split; vm_compute; reflexivity.
  - destruct (H (String (chr 10) "")) as (_ & _ & _ & _ & _ & _ & _ & _ & _ & Hrej & _).
    refine (Hrej (Some 2) "http://b:8080" Hv eq_refl eq_refl _). vm_compute. reflexivity.
Defined.
End examples.
