(* ===== verification/Sim.v ===== *)
(** * The simulated network ([src/raft/transport/sim.rs])

    The in-memory transport of the test suite: every random decision of a
    send is drawn up front from one seeded generator, links can be blocked
    per direction, and every AppendEntries passes an observer that records
    safety violations.

    The observer's verdict is shown to be exact, the draws of a send are
    shown to be a fixed number (so that a run is a function of its seed). The
    asynchronous part of a send is a function of what
    the other side does ([Handling]). *)
From Stdlib Require Import QArith.
From S2P Require Import Prelude Types Rng Storage Node NodeSteps.
Open Scope N_scope.
Local Open Scope rustkv_scope.

Record FaultConfig := MkFaultConfig {
  min_delay : Duration;
  max_delay : Duration;
  drop_probability : Q;
  duplicate_probability : Q;
  rpc_timeout : Duration;
}.
Definition FaultConfig_default : FaultConfig :=
  MkFaultConfig (from_millis 1) (from_millis 10) 0 0 (from_millis 100).

(** The four messages the observer records, with the numbers they print. *)
Inductive Violation :=
| ElectionSafetyViolated (known leader_id : NodeId) (t : Term)
| BadIndex (leader_id : NodeId) (index expected prev_log_index : LogIndex)
| BadTerm (leader_id : NodeId) (t : Term) (index : LogIndex) (min_term max_term : Term)
| LogMatchingViolated (t : Term) (index : LogIndex).

Section sim.
Context `{J : SerdeJson}.

(** [nodes] maps an id to its inbox channel, named by a number. *)
Record State := MkState {
  rng : SplitMix64;
  config : FaultConfig;
  nodes : gmap N N;
  blocked : gset (N * N);
  leaders_per_term : gmap N N;
  entries_seen : gmap (N * N) Command;
  violations : list Violation;
}.

Definition SimNetwork_new (seed : N) (cfg : FaultConfig) : State :=
  MkState (rng_new seed) cfg ∅ ∅ ∅ ∅ [].

(** [tx] is the freshly made channel. *)
Definition register (id : NodeId) (tx : N) (st : State) : State :=
  MkState (rng st) (config st) (<[id := tx]> (nodes st)) (blocked st) (leaders_per_term st)
    (entries_seen st) (violations st).

Definition set_link_blocked (from to : NodeId) (b : bool) (st : State) : State :=
  MkState (rng st) (config st) (nodes st)
    (if b then {[(from, to)]} ∪ blocked st else blocked st ∖ {[(from, to)]})
    (leaders_per_term st) (entries_seen st) (violations st).
Definition set_pair_blocked (a b : NodeId) (blk : bool) (st : State) : State :=
  set_link_blocked b a blk (set_link_blocked a b blk st).
Definition set_fault_config (cfg : FaultConfig) (st : State) : State :=
  MkState (rng st) cfg (nodes st) (blocked st) (leaders_per_term st) (entries_seen st) (violations st).

(** ** The observer *)
Definition violate (v : Violation) (st : State) : State :=
  MkState (rng st) (config st) (nodes st) (blocked st) (leaders_per_term st) (entries_seen st)
    (violations st ++ [v]).
Definition claim_term (t : Term) (leader : NodeId) (st : State) : State :=
  MkState (rng st) (config st) (nodes st) (blocked st) (<[t := leader]> (leaders_per_term st))
    (entries_seen st) (violations st).
Definition claim_entry (k : Term * LogIndex) (c : Command) (st : State) : State :=
  MkState (rng st) (config st) (nodes st) (blocked st) (leaders_per_term st)
    (<[k := c]> (entries_seen st)) (violations st).

(** The loop of [check_shape]: the first offence, if any. *)
Fixpoint first_offence (leader : NodeId) (t : Term) (prev expected : LogIndex) (min_term : Term)
    (es : list LogEntry) : option Violation :=
  match es with
  | [] => None
  | e :: es =>
      if bool_decide (e_index e ≠ expected) then Some (BadIndex leader (e_index e) expected prev)
      else if bool_decide (e_term e < min_term) || bool_decide (t < e_term e)
      then Some (BadTerm leader (e_term e) (e_index e) min_term t)
      else first_offence leader t prev (expected + 1) (e_term e) es
  end.

Definition check_shape (args : AppendEntriesArgs) (st : State) : State :=
  match first_offence (ae_leader_id args) (ae_term args) (ae_prev_log_index args)
          (ae_prev_log_index args + 1) (ae_prev_log_term args) (ae_entries args) with
  | Some v => violate v st
  | None => st
  end.

Definition inspect_leader (args : AppendEntriesArgs) (st : State) : State :=
  match leaders_per_term st !! ae_term args with
  | None => claim_term (ae_term args) (ae_leader_id args) st
  | Some known =>
      if bool_decide (known ≠ ae_leader_id args)
      then violate (ElectionSafetyViolated known (ae_leader_id args) (ae_term args)) st
      else st
  end.

Definition inspect_entry (st : State) (e : LogEntry) : State :=
  match entries_seen st !! (e_term e, e_index e) with
  | None => claim_entry (e_term e, e_index e) (e_command e) st
  | Some seen =>
      if bool_decide (seen ≠ e_command e)
      then violate (LogMatchingViolated (e_term e) (e_index e)) st
      else st
  end.

Definition inspect_append_entries (req : RpcRequest) (st : State) : State :=
  match req with
  | AppendEntries args =>
      foldl inspect_entry (check_shape args (inspect_leader args st)) (ae_entries args)
  | _ => st
  end.

(** ** One send *)
Definition on_rng {A} (m : M SplitMix64 A) : M State A := λ st,
  match m (rng st) with
  | Some (x, r) => Some (x, MkState r (config st) (nodes st) (blocked st) (leaders_per_term st)
                              (entries_seen st) (violations st))
  | None => None
  end.

Definition draw_delay (cfg : FaultConfig) : M SplitMix64 Duration :=
  let lo := as_micros (min_delay cfg) in
  let hi := as_micros (max_delay cfg) in
  assert_ (bool_decide (lo < u64_modulus)) ;;
  assert_ (bool_decide (hi < u64_modulus)) ;;
  assert_ (bool_decide (lo ≤ hi)) ;;
  x ← next_range lo hi;
  mret (from_micros x).

Record SendPlan := MkSendPlan {
  target : option N;
  req_blocked : bool;
  req_dropped : bool;
  req_delay : Duration;
  resp_dropped : bool;
  resp_delay : Duration;
  req_duplicated : bool;
  dup_delay : Duration;
  plan_timeout : Duration;
}.

(** The critical section at the start of [send]. *)
Definition plan_send (from to : NodeId) (req : RpcRequest) : M State SendPlan :=
  modify (inspect_append_entries req) ;;
  st ← get;
  let cfg := config st in
  rq_dropped ← on_rng (next_bool (drop_probability cfg));
  rq_delay ← on_rng (draw_delay cfg);
  rs_dropped ← on_rng (next_bool (drop_probability cfg));
  rs_delay ← on_rng (draw_delay cfg);
  duplicated ← on_rng (next_bool (duplicate_probability cfg));
  dp_delay ← on_rng (draw_delay cfg);
  mret (MkSendPlan (nodes st !! to) (bool_decide ((from, to) ∈ blocked st)) rq_dropped rq_delay
          rs_dropped rs_delay duplicated dp_delay (rpc_timeout cfg)).

(** What the send meets on the other side: whether the inbox still exists,
    when and what the node answers (if it does), and whether the way back is
    blocked when the answer is on it. *)
Record Handling := MkHandling {
  inbox_open : bool;
  answer : option (Duration * RpcResponse);
  reply_blocked : bool;
}.

(** The [exchange] future: when it completes and with what; [None] is
    [pending]. *)
Definition exchange (p : SendPlan) (h : Handling) : option (Duration * RpcResponse) :=
  if req_blocked p || req_dropped p then None
  else if negb (inbox_open h) then None
  else match answer h with
       | None => None
       | Some (d, resp) =>
           if resp_dropped p || reply_blocked h then None
           else Some (req_delay p + d + resp_delay p, resp)
       end.

Definition send_outcome (to : NodeId) (p : SendPlan) (h : Handling)
    : Result RpcResponse TransportError :=
  match target p with
  | None => Err (Unreachable to)
  | Some _ =>
      match exchange p h with
      | Some (d, resp) => if bool_decide (d ≤ plan_timeout p) then Ok resp else Err Timeout
      | None => Err Timeout
      end
  end.

(** When copies of the request reach the inbox, after the send: the
    duplicate on its own clock, the primary unless the timeout has dropped
    the exchange first. *)
Definition copies (p : SendPlan) : list Duration :=
  match target p with
  | None => []
  | Some _ =>
      (if req_duplicated p && negb (req_blocked p) then [dup_delay p] else []) ++
      (if negb (req_blocked p || req_dropped p) && bool_decide (req_delay p ≤ plan_timeout p)
       then [req_delay p] else [])
  end.

(** A run of sends. *)
Fixpoint plan_all (l : list (NodeId * NodeId * RpcRequest)) : M State (list SendPlan) :=
  match l with
  | [] => mret []
  | (from, to, req) :: l => p ← plan_send from to req; ps ← plan_all l; mret (p :: ps)
  end.
End sim.

(** ** What the observer decides *)
Section observer.
Context `{J : SerdeJson}.

Definition append_args (req : RpcRequest) : option AppendEntriesArgs :=
  match req with AppendEntries a => Some a | _ => None end.

(** Entries continue contiguously from [prev_log_index], with non-decreasing
    terms that are never above the sender's. *)
Definition well_shaped (a : AppendEntriesArgs) : Prop :=
  contiguous (ae_prev_log_index a + 1) (ae_entries a) ∧
  Sorted (≤) (ae_prev_log_term a :: (e_term <$> ae_entries a)) ∧
  ∀ e, e ∈ ae_entries a → e_term e ≤ ae_term a.

(** The safety of a set of messages: a term has one claimant, a (term,
    index) has one command, and every message is well formed. *)
Record messages_safe (l : list AppendEntriesArgs) : Prop := {
  ms_leader a b : a ∈ l → b ∈ l → ae_term a = ae_term b → ae_leader_id a = ae_leader_id b;
  ms_entries a b e e' : a ∈ l → b ∈ l → e ∈ ae_entries a → e' ∈ ae_entries b →
    e_term e = e_term e' → e_index e = e_index e' → e_command e = e_command e';
  ms_shape a : a ∈ l → well_shaped a;
}.

Lemma first_offence_None leader t prev expected min_term es :
  first_offence leader t prev expected min_term es = None ↔
  contiguous expected es ∧ Sorted (≤) (min_term :: (e_term <$> es)) ∧
  ∀ e, e ∈ es → e_term e ≤ t.
Proof.
  revert expected min_term. induction es as [|e es IH]; intros expected min_term; simpl.
  - split; [|done]. intros _. split; [done|]. split; [by repeat constructor|].
    by intros e ?%elem_of_nil.
  - case_bool_decide as Hi; [split; [done|naive_solver]|].
    case_bool_decide as Hlo; [|case_bool_decide as Hhi]; simpl.
    + split; [done|]. intros (_ & Hs & _). inversion Hs as [|? ? _ Hh]. inversion Hh. lia.
    + split; [done|]. intros (_ & _ & Ht). assert (e_term e ≤ t); [apply Ht; left|lia].
    + rewrite IH. subst expected. split.
      * intros (Hc & Hs & Ht). split; [done|]. split; [|intros e' [->|?]%elem_of_cons; [lia|by apply Ht]].
        constructor; [done|]. constructor. lia.
      * intros ([_ Hc] & Hs & Ht). split; [done|]. split; [by inversion Hs|]. intros e' ?. apply Ht. by right.
Qed.

(** *** First-come maps *)
Section claims.
Context {K V : Type} `{Countable K}.
Implicit Types (m : gmap K V) (l : list (K * V)).

Definition tracks m l : Prop :=
  (∀ k v, m !! k = Some v → (k, v) ∈ l) ∧ ∀ k v, (k, v) ∈ l → is_Some (m !! k).
Definition functional l : Prop := ∀ k v v', (k, v) ∈ l → (k, v') ∈ l → v = v'.

Lemma tracks_new m l k v :
  tracks m l → m !! k = None →
  tracks (<[k := v]> m) (l ++ [(k, v)]) ∧ (functional (l ++ [(k, v)]) ↔ functional l).
Proof.
  intros [H1 H2] Hk. assert (∀ v', (k, v') ∉ l) as Hnot.
  { intros v' Hin. apply H2 in Hin as [? ?]. congruence. }
  split; [split|split].
  - intros k' v'. rewrite lookup_insert_Some, elem_of_app, list_elem_of_singleton. naive_solver.
  - intros k' v' [Hin|Hin%list_elem_of_singleton]%elem_of_app; rewrite lookup_insert_is_Some'; [right; by eapply H2|].
    left. congruence.
  - intros Hf k' v1 v2 ? ?. apply (Hf k'); apply elem_of_app; by left.
  - intros Hf k' v1 v2. rewrite !elem_of_app, !list_elem_of_singleton. intros [?|?] [?|?]; simplify_eq; try done.
    + by eapply Hf.
    + by destruct (Hnot v1).
    + by destruct (Hnot v2).
Qed.

Lemma tracks_known m l k v v' :
  tracks m l → m !! k = Some v' →
  tracks m (l ++ [(k, v)]) ∧ (functional (l ++ [(k, v)]) ↔ functional l ∧ v' = v).
Proof.
  intros [H1 H2] Hk. pose proof (H1 _ _ Hk) as Hin. split; [split|split].
  - intros k' w Hw. apply elem_of_app. left. by apply H1.
  - intros k' w [?|?%list_elem_of_singleton]%elem_of_app; [by eapply H2|]. by simplify_eq.
  - intros Hf. split.
    + intros k' v1 v2 ? ?. apply (Hf k'); apply elem_of_app; by left.
    + apply (Hf k); apply elem_of_app; [by left|right; left].
  - intros [Hf ->] k' v1 v2. rewrite !elem_of_app, !list_elem_of_singleton.
    intros [?|?] [?|?]; simplify_eq; try done; by eapply Hf.
Qed.
End claims.

(** *** The observer's state *)
Implicit Types st : State.

(** [L], [E]: the claims seen; [S]: the shape checks so far. *)
Record observes st (L : list (N * N)) (E : list (N * N * Command)) (S : Prop) : Prop := {
  ob_leaders : tracks (leaders_per_term st) L;
  ob_entries : tracks (entries_seen st) E;
  ob_verdict : violations st = [] ↔ functional L ∧ functional E ∧ S;
}.

#[local] Instance observes_proper st L E : Proper (iff ==> iff) (observes st L E).
Proof. intros S S' HS. by split; intros [HL HE Hv]; (split; [done..|]); rewrite Hv, HS. Qed.

Lemma observes_violate st L E S L' E' S' v :
  tracks (leaders_per_term st) L' → tracks (entries_seen st) E' →
  ¬ (functional L' ∧ functional E' ∧ S') → observes st L E S → observes (violate v st) L' E' S'.
Proof.
  intros HL HE Hno _. split; [done..|]. split; [|done]. simpl. by destruct (violations st).
Qed.

Lemma inspect_leader_observes a st L E S :
  observes st L E S → observes (inspect_leader a st) (L ++ [(ae_term a, ae_leader_id a)]) E S.
Proof.
  intros Hob. pose proof Hob as [HL HE Hv]. unfold inspect_leader.
  destruct (leaders_per_term st !! ae_term a) as [known|] eqn:Hk.
  - destruct (tracks_known _ _ _ (ae_leader_id a) _ HL Hk) as [HL' Hf]. case_bool_decide as Hne.
    + eapply observes_violate; [done..| |done]. rewrite Hf. naive_solver.
    + split; [done..|]. rewrite Hv, Hf. naive_solver.
  - destruct (tracks_new _ _ _ (ae_leader_id a) HL Hk) as [HL' Hf]. split; [done..|]. rewrite Hf. exact Hv.
Qed.

Lemma check_shape_observes a st L E S :
  observes st L E S → observes (check_shape a st) L E (S ∧ well_shaped a).
Proof.
  intros Hob. pose proof Hob as [HL HE Hv]. unfold check_shape, well_shaped.
  rewrite <-(first_offence_None (ae_leader_id a) (ae_term a) (ae_prev_log_index a)).
  destruct (first_offence _ _ _ _ _ _) as [v|].
  - eapply observes_violate; [done..| |done]. intros (_ & _ & _ & ?). done.
  - split; [done..|]. rewrite Hv. tauto.
Qed.

Definition entry_claim (e : LogEntry) : N * N * Command := (e_term e, e_index e, e_command e).

Lemma inspect_entry_observes e st L E S :
  observes st L E S → observes (inspect_entry st e) L (E ++ [entry_claim e]) S.
Proof.
  intros Hob. pose proof Hob as [HL HE Hv]. unfold inspect_entry, entry_claim.
  destruct (entries_seen st !! (e_term e, e_index e)) as [seen|] eqn:Hk.
  - destruct (tracks_known _ _ _ (e_command e) _ HE Hk) as [HE' Hf]. case_bool_decide as Hne.
    + eapply observes_violate; [done..| |done]. rewrite Hf. naive_solver.
    + split; [done..|]. rewrite Hv, Hf. naive_solver.
  - destruct (tracks_new _ _ _ (e_command e) HE Hk) as [HE' Hf]. split; [done..|]. rewrite Hf. exact Hv.
Qed.

Lemma inspect_entries_observes es st L E S :
  observes st L E S → observes (foldl inspect_entry st es) L (E ++ (entry_claim <$> es)) S.
Proof.
  revert st E. induction es as [|e es IH]; intros st E Hob; simpl; [by rewrite app_nil_r|].
  rewrite cons_middle, app_assoc. by apply IH, inspect_entry_observes.
Qed.

Definition observe (reqs : list RpcRequest) (st : State) : State :=
  foldl (λ st r, inspect_append_entries r st) st reqs.

Definition leader_claims (l : list AppendEntriesArgs) : list (N * N) :=
  (λ a, (ae_term a, ae_leader_id a)) <$> l.
Definition entry_claims (l : list AppendEntriesArgs) : list (N * N * Command) :=
  entry_claim <$> (l ≫= ae_entries).

Lemma observe_observes reqs l st :
  observes st (leader_claims l) (entry_claims l) (∀ a, a ∈ l → well_shaped a) →
  let l' := l ++ omap append_args reqs in
  observes (observe reqs st) (leader_claims l') (entry_claims l') (∀ a, a ∈ l' → well_shaped a).
Proof.
  revert l st. induction reqs as [|r reqs IH]; intros l st Hob; simpl; [by rewrite app_nil_r|].
  destruct r as [|a| |]; simpl; try by apply IH. rewrite cons_middle, app_assoc. apply IH.
  unfold leader_claims, entry_claims in *. rewrite fmap_app, bind_app, fmap_app. simpl. rewrite app_nil_r.
  apply inspect_entries_observes.
  eapply observes_proper; [|by apply check_shape_observes, inspect_leader_observes].
  split.
  - intros Hl. split; [intros b ?|]; apply Hl, elem_of_app; [by left|right; left].
  - intros [Hl Ha] b [?| ->%list_elem_of_singleton]%elem_of_app; [by apply Hl|done].
Qed.

Lemma claims_safe l :
  functional (leader_claims l) ∧ functional (entry_claims l) ∧ (∀ a, a ∈ l → well_shaped a) ↔
  messages_safe l.
Proof.
  unfold functional, leader_claims, entry_claims, entry_claim. split.
  - intros (HL & HE & HS). split; [| |done].
    + intros a b Ha Hb Ht. apply (HL (ae_term a)); apply list_elem_of_fmap; [by exists a|exists b]. by rewrite Ht.
    + intros a b e e' Ha Hb He He' Ht Hi. apply (HE (e_term e, e_index e)); apply list_elem_of_fmap;
        [exists e|exists e'; rewrite Ht, Hi]; (split; [done|]); apply list_elem_of_bind; eauto.
  - intros [HL HE HS]. split; [|split; [|done]].
    + intros k v v' (a & [= -> ->] & Ha)%list_elem_of_fmap (b & [= Ht ->] & Hb)%list_elem_of_fmap. by apply HL.
    + intros k v v' (e & [= -> ->] & (a & He & Ha)%list_elem_of_bind)%list_elem_of_fmap
        (e' & [= Ht Hi ->] & (b & He' & Hb)%list_elem_of_bind)%list_elem_of_fmap.
      by apply (HE a b e e').
Qed.

Lemma violations_messages seed cfg reqs :
  violations (observe reqs (SimNetwork_new seed cfg)) = [] ↔ messages_safe (omap append_args reqs).
Proof.
  rewrite <-claims_safe.
  apply (observe_observes reqs [] (SimNetwork_new seed cfg)).
  split; simpl.
  - split; [done|]. by intros k v ?%elem_of_nil.
  - split; [done|]. by intros k v ?%elem_of_nil.
  - split; [|done]. intros _. split; [|split]; [by intros ? ? ? ?%elem_of_nil..|by intros ? ?%elem_of_nil].
Qed.

(** [C33] The observer is exact: after any traffic through a fresh network, it
    has recorded no violation if and only if the AppendEntries messages sent
    are safe, that is, no term had two claimants, no (term, index) was ever
    shipped with two different commands, and every message was contiguous
    with non-decreasing terms up to its own. *)
Theorem observer_exact seed cfg reqs :
  violations (observe reqs (SimNetwork_new seed cfg)) = [] ↔ messages_safe (omap append_args reqs).
Proof. apply violations_messages. Qed.
End observer.

(** ** The draws of a send *)
Section draws.
Context `{J : SerdeJson}.
Implicit Types (st : State) (cfg : FaultConfig) (p : SendPlan).

Definition delays_ok cfg : Prop :=
  as_micros (min_delay cfg) ≤ as_micros (max_delay cfg) ∧ u64 (as_micros (max_delay cfg)).
Definition in_delays cfg (d : Duration) : Prop :=
  from_micros (as_micros (min_delay cfg)) ≤ d ≤ from_micros (as_micros (max_delay cfg)).

(** Everything random about a send. *)
Definition Decisions : Type := bool * Duration * bool * Duration * bool * Duration.
Definition decisions p : Decisions :=
  (req_dropped p, req_delay p, resp_dropped p, resp_delay p, req_duplicated p, dup_delay p).

Definition draw_decisions cfg : M SplitMix64 Decisions :=
  a ← next_bool (drop_probability cfg); b ← draw_delay cfg;
  c ← next_bool (drop_probability cfg); d ← draw_delay cfg;
  e ← next_bool (duplicate_probability cfg); f ← draw_delay cfg;
  mret (a, b, c, d, e, f).

Lemma draw_delay_wp cfg r :
  delays_ok cfg →
  wp (draw_delay cfg) (λ d r', in_delays cfg d ∧ rng_state r' = rng_state r +w golden_gamma) r.
Proof.
  intros [Hle Hu]. unfold draw_delay. wp_steps; bools; try (unfold u64 in *; lia).
  eapply wpp_mono; [by apply next_range_wp|]. intros x r' (Hr & _ & Hx). wp_steps.
  split; [|done]. unfold in_delays, from_micros. lia.
Qed.

Lemma next_bool_wp q r : wp (next_bool q) (λ _ r', rng_state r' = rng_state r +w golden_gamma) r.
Proof. unfold next_bool, next_u64. by wp_steps. Qed.

Lemma state_at_steps seed i :
  state_at seed i +w golden_gamma = state_at seed (i + 1).
Proof. unfold wrapping_add, state_at. rewrite N.Div0.add_mod_idemp_l. f_equal. lia. Qed.

Lemma draw_decisions_wp cfg r seed k :
  delays_ok cfg → rng_state r = state_at seed k →
  wp (draw_decisions cfg) (λ '(_, b, _, d, _, f) r',
    (in_delays cfg b ∧ in_delays cfg d ∧ in_delays cfg f) ∧ rng_state r' = state_at seed (k + 6)) r.
Proof.
  intros Hok Hr. unfold draw_decisions.
  repeat (apply wpp_bind; eapply wpp_mono; [first [by apply next_bool_wp|by apply draw_delay_wp]|]; intros; cbv beta in * ).
  destruct_and?. wp_steps. split; [done|].
  repeat match goal with H : rng_state _ = _ +w _ |- _ => rewrite H; clear H end.
  rewrite Hr, !state_at_steps. f_equal. lia.
Qed.

Lemma on_rng_bind {A B} (m : M SplitMix64 A) (f : A → M State B) st :
  (on_rng m ≫= f) st = match m (rng st) with
    | Some (x, r) => f x (MkState r (config st) (nodes st) (blocked st) (leaders_per_term st)
                            (entries_seen st) (violations st))
    | None => None
    end.
Proof. unfold mbind, M_bind, on_rng. by destruct (m (rng st)) as [[x r]|]. Qed.

(** A send is its decisions, and what the network looks like. *)
Lemma plan_send_eq from to req st :
  let st1 := inspect_append_entries req st in
  plan_send from to req st =
  match draw_decisions (config st1) (rng st1) with
  | Some ((a, b, c, d, e, f), r) =>
      Some (MkSendPlan (nodes st1 !! to) (bool_decide ((from, to) ∈ blocked st1)) a b c d e f
              (rpc_timeout (config st1)),
            MkState r (config st1) (nodes st1) (blocked st1) (leaders_per_term st1)
              (entries_seen st1) (violations st1))
  | None => None
  end.
Proof.
  intros st1. unfold plan_send. unfold mbind at 1, M_bind at 1, modify. fold st1.
  unfold mbind at 1, M_bind at 1, get. unfold draw_decisions.
  repeat (rewrite on_rng_bind; cbn [rng config nodes blocked leaders_per_term entries_seen violations];
    match goal with |- context [(?m ≫= ?f) ?r] =>
      lazymatch type of r with SplitMix64 =>
        change ((m ≫= f) r) with (match m r with Some (x, r') => f x r' | None => None end) end end;
    match goal with |- match ?m ?r with _ => _ end = _ => destruct (m r) as [[? ?]|]; [|done] end).
  done.
Qed.

Lemma inspect_network req st :
  rng (inspect_append_entries req st) = rng st ∧ config (inspect_append_entries req st) = config st ∧
  nodes (inspect_append_entries req st) = nodes st ∧
  blocked (inspect_append_entries req st) = blocked st.
Proof.
  destruct req as [|a| |]; try done. simpl.
  assert (∀ es st, let st' := foldl inspect_entry st es in
    rng st' = rng st ∧ config st' = config st ∧ nodes st' = nodes st ∧ blocked st' = blocked st) as Hes.
  { induction es as [|e es IH]; intros st'; [done|]. simpl. destruct (IH (inspect_entry st' e)) as (-> & -> & -> & ->).
    unfold inspect_entry. destruct (entries_seen _ !! _); [|done]. by case_bool_decide. }
  destruct (Hes (ae_entries a) (check_shape a (inspect_leader a st))) as (-> & -> & -> & ->).
  unfold check_shape. destruct (first_offence _ _ _ _ _ _); unfold inspect_leader;
    (destruct (leaders_per_term st !! _); [case_bool_decide|]; done).
Qed.

(** The network's links and parameters are not changed by sends, and the
    draws move on by six. *)
Lemma plan_send_wp from to req st seed k :
  delays_ok (config st) → rng_state (rng st) = state_at seed k →
  wp (plan_send from to req) (λ p st',
    rng_state (rng st') = state_at seed (k + 6) ∧
    in_delays (config st) (req_delay p) ∧ in_delays (config st) (resp_delay p) ∧
    in_delays (config st) (dup_delay p) ∧
    target p = nodes st !! to ∧ req_blocked p = bool_decide ((from, to) ∈ blocked st) ∧
    config st' = config st ∧ nodes st' = nodes st ∧ blocked st' = blocked st) st.
Proof.
  intros Hok Hr. unfold wpp. rewrite plan_send_eq.
  destruct (inspect_network req st) as (-> & -> & -> & ->).
  pose proof (draw_decisions_wp (config st) (rng st) seed k Hok Hr) as Hw. unfold wpp in Hw.
  destruct (draw_decisions _ _) as [[[[[[[a b] c] d] e] f] r]|]; [|done]. simpl. naive_solver.
Qed.

(** Two networks in the same random state draw the same decisions. *)
Lemma plan_send_same from to req from' to' req' st st' p st1 :
  rng st = rng st' → config st = config st' → plan_send from to req st = Some (p, st1) →
  ∃ p' st1', plan_send from' to' req' st' = Some (p', st1') ∧
    decisions p = decisions p' ∧ rng st1 = rng st1'.
Proof.
  intros Er Ec. rewrite !plan_send_eq.
  destruct (inspect_network req st) as (-> & -> & -> & ->).
  destruct (inspect_network req' st') as (-> & -> & -> & ->). rewrite <-Er, <-Ec.
  destruct (draw_decisions _ _) as [[[[[[[a b] c] d] e] f] r]|]; [|done]. intros [= <- <-].
  eexists _, _. by split.
Qed.

Lemma plan_all_draws l l' st st' seed k :
  length l = length l' → rng st = rng st' → config st = config st' → delays_ok (config st) →
  rng_state (rng st) = state_at seed k →
  ∃ ps ps' st1 st1', plan_all l st = Some (ps, st1) ∧ plan_all l' st' = Some (ps', st1') ∧
    decisions <$> ps = decisions <$> ps' ∧ rng st1 = rng st1' ∧
    rng_state (rng st1) = state_at seed (k + 6 * N.of_nat (length l)).
Proof.
  revert l' st st' k. induction l as [|[[from to] req] l IH]; intros l' st st' k Hl Er Ec Hok Hr.
  - destruct l'; [|done]. exists [], [], st, st'. simpl. rewrite N.add_0_r. done.
  - destruct l' as [|[[from' to'] req'] l']; [done|]. simpl in Hl.
    pose proof (plan_send_wp from to req st seed k Hok Hr) as Hw. unfold wpp in Hw.
    destruct (plan_send from to req st) as [[p st1]|] eqn:Hp; [|done].
    destruct Hw as (Hr1 & _ & _ & _ & _ & _ & Ec1 & _).
    destruct (plan_send_same from to req from' to' req' st st' p st1 Er Ec Hp) as (p' & st1' & Hp' & Hd & Er1).
    assert (config st1' = config st1) as Ec1'.
    { pose proof (plan_send_wp from' to' req' st' seed k) as Hw. unfold wpp in Hw. rewrite Hp', <-Er, <-Ec in Hw.
      destruct (Hw Hok Hr) as (_ & _ & _ & _ & _ & _ & E & _). congruence. }
    destruct (IH l' st1 st1' (k + 6)) as (ps & ps' & st2 & st2' & H1 & H2 & Hds & Er2 & Hr2);
      [by injection Hl|done|done|by rewrite Ec1|done|].
    exists (p :: ps), (p' :: ps'), st2, st2'. simpl. unfold mbind, M_bind. rewrite Hp, Hp', H1, H2.
    split; [done|]. split; [done|]. split; [by f_equal|]. split; [done|].
    rewrite Hr2. f_equal. lia.
Qed.

(** Runs are reproducible: the random decisions of the [k]-th send (both
    drops, the duplication, the three delays) depend on the seed, the fault
    parameters and [k] only, not on who sends what to whom, which links are
    blocked or which nodes are registered. Every send returns a plan and
    costs exactly six draws of the generator. *)
Theorem sends_reproducible seed l l' st st' :
  u64 seed → length l = length l' → rng st = rng_new seed → rng st' = rng_new seed →
  config st = config st' → delays_ok (config st) →
  ∃ ps ps' st1 st1', plan_all l st = Some (ps, st1) ∧ plan_all l' st' = Some (ps', st1') ∧
    decisions <$> ps = decisions <$> ps' ∧
    rng_state (rng st1) = state_at seed (6 * N.of_nat (length l)).
Proof.
  intros Hs Hl Er Er' Ec Hok.
  destruct (plan_all_draws l l' st st' seed 0) as (ps & ps' & st1 & st1' & H1 & H2 & Hd & _ & Hr);
    [done|congruence|done|done| |by exists ps, ps', st1, st1'].
  rewrite Er. unfold state_at. simpl. rewrite N.add_0_r. symmetry. by apply N.mod_small.
Qed.

(** ** Links *)

(** What a blocked link does to a send: nothing arrives, nothing comes back. *)
Lemma blocked_outcome to p h :
  req_blocked p = true →
  copies p = [] ∧
  send_outcome to p h = Err (match target p with Some _ => Timeout | None => Unreachable to end).
Proof.
  intros Hb. unfold copies, send_outcome, exchange. rewrite Hb.
  destruct (target p); [|done]. by destruct (req_duplicated p).
Qed.

Lemma set_pair_blocked_elem a b blk st x y :
  (x, y) ∈ blocked (set_pair_blocked a b blk st) ↔
  if blk then (x, y) = (a, b) ∨ (x, y) = (b, a) ∨ (x, y) ∈ blocked st
  else (x, y) ≠ (a, b) ∧ (x, y) ≠ (b, a) ∧ (x, y) ∈ blocked st.
Proof. destruct blk; simpl; set_solver. Qed.

(** A partition is a partition: once the pair is blocked, every send
    between the two nodes, in either direction, hands no copy of the request
    to the other side (a duplicate included) and returns an error, whatever
    is drawn and however the other side behaves; sends on links the
    partition does not touch see the link state they had. *)
Theorem partition_blocks a b st from to req h p st' :
  delays_ok (config st) → u64 (rng_state (rng st)) →
  plan_send from to req (set_pair_blocked a b true st) = Some (p, st') →
  if bool_decide ((from, to) = (a, b) ∨ (from, to) = (b, a))
  then copies p = [] ∧ ∃ err, send_outcome to p h = Err err
  else req_blocked p = bool_decide ((from, to) ∈ blocked st).
Proof.
  intros Hok Hu Hp.
  pose proof (plan_send_wp from to req (set_pair_blocked a b true st) (rng_state (rng st)) 0) as Hw.
  unfold wpp in Hw. rewrite Hp in Hw. destruct Hw as (_ & _ & _ & _ & Et & Eb & _); [done| |].
  { unfold state_at. simpl. rewrite N.add_0_r. symmetry. by apply N.mod_small. }
  pose proof (set_pair_blocked_elem a b true st from to) as Hin. simpl in Hin.
  destruct (bool_decide ((from, to) = (a, b) ∨ (from, to) = (b, a))) eqn:Hpair; bools.
  - assert (req_blocked p = true) as Hb by (rewrite Eb; apply bool_decide_eq_true; tauto).
    destruct (blocked_outcome to p h Hb) as [Hc Ho]. split; [done|]. by eexists.
  - rewrite Eb. apply bool_decide_ext. tauto.
Qed.
End draws.

(** ** Concrete networks *)
Section examples.
#[local] Existing Instance numeric_json.

(** Node 1 and node 2 both claim to lead term 5. *)
Definition claim (t : Term) (leader : NodeId) : RpcRequest :=
  AppendEntries (MkAppendEntriesArgs t leader 0 0 [] 0).

Example observer_reports :
  violations (observe [claim 5 1; claim 6 1; claim 5 1; claim 5 2] (SimNetwork_new 0 FaultConfig_default))
  = [ElectionSafetyViolated 1 2 5].
Proof. reflexivity. Qed.

Definition lossy : FaultConfig :=
  MkFaultConfig (from_millis 1) (from_millis 20) (1 # 5) (1 # 2) (from_millis 50).
Definition two_nodes : State := register 2 20 (register 1 10 (SimNetwork_new 77 lossy)).

Lemma lossy_delays : delays_ok lossy.
Proof. split; by vm_compute. Qed.

Example sends_reproducible_witness :
  ∃ ps ps' st1 st1',
    plan_all [(1, 2, claim 5 1); (2, 1, claim 5 2)] two_nodes = Some (ps, st1) ∧
    plan_all [(2, 1, claim 1 2); (1, 9, claim 1 1)] (set_pair_blocked 1 2 true two_nodes) = Some (ps', st1') ∧
    decisions <$> ps = decisions <$> ps' ∧ rng_state (rng st1) = state_at 77 12.
Proof.
  exact (sends_reproducible 77 [(1, 2, claim 5 1); (2, 1, claim 5 2)]
    [(2, 1, claim 1 2); (1, 9, claim 1 1)] two_nodes (set_pair_blocked 1 2 true two_nodes)
    eq_refl eq_refl eq_refl eq_refl eq_refl lossy_delays).
Defined.

Example partition_blocks_witness :
  ∃ p st', plan_send 2 1 (claim 5 2) (set_pair_blocked 1 2 true two_nodes) = Some (p, st') ∧
    copies p = [] ∧
    ∃ err, send_outcome 1 p (MkHandling true (Some (0, AppendEntriesResp (MkAppendEntriesReply 5 true))) false)
           = Err err.
Proof.
  destruct (plan_send 2 1 (claim 5 2) (set_pair_blocked 1 2 true two_nodes)) as [[p st']|] eqn:Hp;
    [|vm_compute in Hp; discriminate Hp].
  exists p, st'. split; [reflexivity|].
  exact (partition_blocks 1 2 two_nodes 2 1 (claim 5 2) _ p st' lossy_delays eq_refl Hp).
Defined.
End examples.
