(* ===== verification/Lin.v ===== *)
(** * The linearizability checker of the tests ([tests/common/lin.rs])

    The black-box checker that the fault-injection tests run over recorded
    client histories: per key, a depth-first search for an order of the
    operations that explains every read and respects real time, with a
    memo of the (set of operations, register value) pairs already tried.
    Sets of operations are bit masks in a [u64].

    [checker_exact]: the search, memo and masks included, decides exactly
    the textbook definition [linearizable] for every key, and always
    returns, except that it refuses (by its [assert!]) a key whose history
    does not fit the mask. *)
From Stdlib Require Strings.String.
From S2P Require Import Prelude.
Open Scope N_scope.

Definition Value : Type := N.
Definition u64_max : N := 2 ^ 64 - 1.

Inductive WriteKind := WPut (v : Value) | WDelete.
Inductive WriteOutcome := OutcomeOk | OutcomeFail | OutcomeUnknown.
Inductive OpKind :=
| OpWrite (kind : WriteKind) (outcome : WriteOutcome) (log_pos : option (N * N))
| OpRead (result : option Value).
Record Recorded := MkRecorded {
  r_process : N;
  r_key : string;
  r_op : OpKind;
  r_invoked_us : N;
  r_returned_us : N;
}.

#[export] Instance WriteOutcome_eq_dec : EqDecision WriteOutcome.
Proof. solve_decision. Defined.

(** ** The search *)
Inductive Act := ASet (v : option Value) | AExpect (v : option Value).
Record Entry := MkEntry { en_inv : N; en_ret : N; en_action : Act; en_required : bool }.

Definition Memo : Type := gset (N * option N).

(** [1 << i]. *)
Definition bit (i : nat) : N := N.shiftl 1 (N.of_nat i).
Definition has (mask : N) (i : nat) : bool := N.testbit mask (N.of_nat i).

Definition min_ret (ops : list Entry) (mask : N) : N :=
  match omap (λ '(i, e), if has mask i then None else Some (en_ret e)) (imap pair ops) with
  | [] => u64_max
  | r :: rs => foldl N.min r rs
  end.

(** The loop over the candidates; [go] is the recursive call. *)
Fixpoint try_ops (go : Memo → N → option N → option (bool * Memo)) (bound mask : N) (state : option N)
    (memo : Memo) (ops : list (nat * Entry)) : option (bool * Memo) :=
  match ops with
  | [] => Some (false, memo)
  | (i, e) :: ops =>
      if has mask i || bool_decide (bound < en_inv e) then try_ops go bound mask state memo ops
      else
        let next := N.lor mask (bit i) in
        let feasible := match en_action e with
                        | AExpect expected =>
                            if bool_decide (state = expected) then go memo next state else Some (false, memo)
                        | ASet new => go memo next new
                        end in
        match feasible with
        | Some (false, memo) => try_ops go bound mask state memo ops
        | done => done
        end
  end.

(** The fuel bounds the depth of the recursion: every call marks one more
    operation, so one more than there are is enough. *)
Fixpoint search (fuel : nat) (ops : list Entry) (required : N) (memo : Memo) (mask : N) (state : option N)
    : option (bool * Memo) :=
  match fuel with
  | O => None
  | S fuel =>
      if bool_decide (N.land mask required = required) then Some (true, memo)
      else if bool_decide ((mask, state) ∈ memo) then Some (false, memo)
      else try_ops (search fuel ops required) (min_ret ops mask) mask state ({[(mask, state)]} ∪ memo) (imap pair ops)
  end.

Definition op_entry (r : Recorded) : option Entry :=
  match r_op r with
  | OpWrite _ OutcomeFail _ => None
  | OpWrite kind outcome _ =>
      Some (MkEntry (r_invoked_us r)
        (if bool_decide (outcome = OutcomeUnknown) then u64_max else r_returned_us r)
        (ASet match kind with WPut v => Some v | WDelete => None end)
        (bool_decide (outcome = OutcomeOk)))
  | OpRead result => Some (MkEntry (r_invoked_us r) (r_returned_us r) (AExpect result) true)
  end.

Definition required_mask (ops : list Entry) : N :=
  foldl N.add 0 (omap (λ '(i, e), if en_required e then Some (bit i) else None) (imap pair ops)).

Inductive LinError := NoLinearization.

(** [None]: the [assert!] on the size of the history. *)
Definition check_key (history : list Recorded) : option (Result () LinError) :=
  let ops := omap op_entry history in
  if bool_decide (length ops ≤ 63)%nat then
    match search (S (length ops)) ops (required_mask ops) ∅ 0 None with
    | Some (true, _) => Some (Ok ())
    | Some (false, _) => Some (Err NoLinearization)
    | None => None
    end
  else None.

(** The keys in the order of [sort_unstable]; the first offending one is
    reported. *)
Definition key_le (a b : string) : Prop := String.leb a b = true.
#[export] Instance key_le_dec : RelDecision key_le.
Proof. intros a b. unfold key_le. apply _. Defined.
Definition history_keys (history : list Recorded) : list string :=
  merge_sort key_le (elements (list_to_set (r_key <$> history) : gset string)).
Definition of_key (key : string) (history : list Recorded) : list Recorded :=
  filter (λ r, r_key r = key) history.

Fixpoint check_keys (keys : list string) (history : list Recorded) : option (Result () (string * LinError)) :=
  match keys with
  | [] => Some (Ok ())
  | key :: keys =>
      match check_key (of_key key history) with
      | Some (Ok _) => check_keys keys history
      | Some (Err e) => Some (Err (key, e))
      | None => None
      end
  end.
Definition check_linearizable (history : list Recorded) : option (Result () (string * LinError)) :=
  check_keys (history_keys history) history.

(** ** Masks *)
Lemma has_lor mask i j : has (N.lor mask (bit i)) j = has mask j || bool_decide (i = j).
Proof.
  unfold has, bit. rewrite N.lor_spec, N.shiftl_1_l, N.pow2_bits_eqb. f_equal.
  case_bool_decide as E; [subst; apply N.eqb_refl|]. apply N.eqb_neq. lia.
Qed.
Lemma has_0 j : has 0 j = false.
Proof. apply N.bits_0. Qed.
Lemma covers_spec mask m : N.land mask m = m ↔ ∀ i, has m i = true → has mask i = true.
Proof.
  unfold has. split.
  - intros E i. rewrite <-E at 1. rewrite N.land_spec. by intros [? _]%andb_true_iff.
  - intros H. apply N.bits_inj. intros k. rewrite N.land_spec.
    specialize (H (N.to_nat k)). rewrite N2Nat.id in H. destruct (N.testbit m k); [|apply andb_false_r].
    by rewrite H.
Qed.

(** Small masks and the next power of two have no bit in common. *)
Lemma add_bit m k : m < 2 ^ N.of_nat k → m + bit k = N.lor m (bit k).
Proof.
  intros Hm. unfold bit. rewrite N.shiftl_1_l.
  assert (N.land m (2 ^ N.of_nat k) = 0) as Hd.
  { apply N.bits_inj. intros j. rewrite N.land_spec, N.pow2_bits_eqb, N.bits_0.
    destruct (N.eqb_spec (N.of_nat k) j) as [<-|]; [|by rewrite andb_false_r]. rewrite andb_true_r.
    destruct (decide (m = 0)) as [->|]; [apply N.bits_0|].
    apply N.bits_above_log2, N.log2_lt_pow2; lia. }
  by rewrite N.add_nocarry_lxor, N.lxor_lor.
Qed.

Lemma required_mask_snoc ops e :
  required_mask (ops ++ [e]) = required_mask ops + (if en_required e then bit (length ops) else 0).
Proof.
  unfold required_mask. rewrite imap_app, omap_app, foldl_app. simpl.
  rewrite Nat.add_0_r. destruct (en_required e); simpl; lia.
Qed.
Lemma required_mask_spec ops :
  required_mask ops < 2 ^ N.of_nat (length ops) ∧
  ∀ i, has (required_mask ops) i = true ↔ ∃ e, ops !! i = Some e ∧ en_required e = true.
Proof.
  induction ops as [|e ops [Hlt Hspec]] using rev_ind.
  { split; [done|]. intros i. change (required_mask []) with 0. rewrite has_0. split; [done|by intros (? & ? & _)]. }
  rewrite required_mask_snoc, length_app, Nat.add_1_r, Nat2N.inj_succ, N.pow_succ_r'. split.
  - destruct (en_required e); [|lia]. unfold bit. rewrite N.shiftl_1_l. lia.
  - intros i. setoid_rewrite lookup_snoc_Some.
    assert (has (required_mask ops + (if en_required e then bit (length ops) else 0)) i = true ↔
      has (required_mask ops) i = true ∨ i = length ops ∧ en_required e = true) as ->.
    { destruct (en_required e); [|rewrite N.add_0_r; naive_solver].
      rewrite (add_bit _ _ Hlt), has_lor, orb_true_iff, bool_decide_eq_true. naive_solver. }
    rewrite Hspec. split.
    + intros [(e' & He & ?)|[-> ?]]; [exists e'|exists e]; [|by auto].
      apply lookup_lt_Some in He as ?. auto.
    + intros (e' & [[? ?]|[-> <-]] & ?); [left; eauto|by right].
Qed.

(** ** The earliest return among the others *)
Lemma foldl_min_spec r rs n : n ≤ foldl N.min r rs ↔ ∀ x, x ∈ r :: rs → n ≤ x.
Proof.
  revert r. induction rs as [|y rs IH]; intros r; simpl.
  - split; [by intros ? x ->%list_elem_of_singleton|]. intros H. apply H. left.
  - rewrite IH. split.
    + intros H x Hx. apply elem_of_cons in Hx as [->|[->|Hx]%elem_of_cons]; [| |apply H; by right].
      * etrans; [apply H; left|]. lia.
      * etrans; [apply H; left|]. lia.
    + intros H x [->|Hx]%elem_of_cons; [|apply H; by do 2 right].
      pose proof (H r ltac:(left)). pose proof (H y ltac:(right; left)). lia.
Qed.
Lemma min_ret_spec ops mask n :
  n ≤ u64_max → n ≤ min_ret ops mask ↔ ∀ i e, ops !! i = Some e → has mask i = false → n ≤ en_ret e.
Proof.
  intros Hn. unfold min_ret. set (rets := omap _ _).
  assert (∀ r, r ∈ rets ↔ ∃ i e, ops !! i = Some e ∧ has mask i = false ∧ r = en_ret e) as Hrets.
  { intros r. unfold rets. rewrite list_elem_of_omap. split.
    - intros ([i e] & (j & E)%list_elem_of_lookup & Hr). apply list_lookup_imap_Some in E as (e' & He & [= -> ->]).
      destruct (has mask j) eqn:?; simplify_eq. eauto.
    - intros (i & e & He & Hh & ->). exists (i, e). rewrite Hh. split; [|done].
      apply (list_elem_of_lookup_2 _ i). rewrite list_lookup_imap, He. done. }
  destruct rets as [|r rs].
  - split; [|done]. intros _ i e He Hh. exfalso. apply (elem_of_nil (A := N) (en_ret e)). apply Hrets. eauto.
  - rewrite foldl_min_spec. setoid_rewrite Hrets. naive_solver.
Qed.

(** ** What the search decides *)

(** What an operation does to the register, if it can come next. *)
Definition act_step (a : Act) (s : option N) : option (option N) :=
  match a with
  | ASet v => Some v
  | AExpect v => if decide (s = v) then Some s else None
  end.

Section search.
Context (ops : list Entry) (required : N).

(** The operations marked in [mask] can be continued to all required ones. *)
Inductive solvable (mask : N) (s : option N) : Prop :=
| sol_done : N.land mask required = required → solvable mask s
| sol_step i e s' :
    ops !! i = Some e → has mask i = false → en_inv e ≤ min_ret ops mask →
    act_step (en_action e) s = Some s' → solvable (N.lor mask (bit i)) s' → solvable mask s.

(** How many operations are left. *)
Definition todo (mask : N) : nat := length (filter (λ i, has mask i = false) (seq 0 (length ops))).
Lemma todo_lor mask i : (i < length ops)%nat → has mask i = false → (todo (N.lor mask (bit i)) < todo mask)%nat.
Proof.
  intros Hi Hh. unfold todo.
  replace (filter (λ j, has (N.lor mask (bit i)) j = false) (seq 0 (length ops)))
    with (filter (λ j, j ≠ i) (filter (λ j, has mask j = false) (seq 0 (length ops)))).
  - apply (length_filter_lt _ _ i); [|naive_solver].
    apply list_elem_of_filter. split; [done|]. apply elem_of_seq. lia.
  - rewrite list_filter_filter. apply list_filter_iff. intros j. rewrite has_lor, orb_false_iff, bool_decide_eq_false.
    naive_solver.
Qed.

(** The entries of [memo'] are old, or have failed. *)
Definition failed_since (memo memo' : Memo) : Prop :=
  ∀ y, y ∈ memo' → y ∈ memo ∨ ¬ solvable y.1 y.2.
(** Whatever of [memo] has not failed has more than [k] operations left: it
    is a call that has not returned. *)
Definition pending_above (k : nat) (memo : Memo) : Prop :=
  ∀ y, y ∈ memo → solvable y.1 y.2 → (k < todo y.1)%nat.

Lemma failed_trans m1 m2 m3 : failed_since m1 m2 → failed_since m2 m3 → failed_since m1 m3.
Proof. intros H1 H2 y [Hy|?]%H2; [by apply H1|by right]. Qed.
Lemma failed_above k m m' : failed_since m m' → pending_above k m → pending_above k m'.
Proof. intros Hf Hp y [?|?]%Hf ?; [by apply Hp|done]. Qed.

(** The outcome of a search from [mask] and [s]. *)
Definition decides (memo : Memo) (sol : Prop) (r : option (bool * Memo)) : Prop :=
  ∃ b memo', r = Some (b, memo') ∧
    if b : bool then sol else ¬ sol ∧ failed_since memo memo'.

Definition candidate (mask : N) (s : option N) (x : nat * Entry) : Prop :=
  has mask x.1 = false ∧ en_inv x.2 ≤ min_ret ops mask ∧
  ∃ s', act_step (en_action x.2) s = Some s' ∧ solvable (N.lor mask (bit x.1)) s'.

Lemma try_ops_spec go mask s memo os :
  (∀ x, x ∈ os → ops !! x.1 = Some x.2) →
  (∀ memo i s', (i < length ops)%nat → has mask i = false → pending_above (todo (N.lor mask (bit i))) memo →
     decides memo (solvable (N.lor mask (bit i)) s') (go memo (N.lor mask (bit i)) s')) →
  (∀ y, y ∈ memo → solvable y.1 y.2 → (todo mask ≤ todo y.1)%nat) →
  decides memo (∃ x, x ∈ os ∧ candidate mask s x) (try_ops go (min_ret ops mask) mask s memo os).
Proof.
  intros Hos Hgo. revert memo Hos. induction os as [|[i e] os IH]; intros memo Hos Hm; simpl.
  { eexists false, _. split; [done|]. split; [|by left]. by intros (x & ?%elem_of_nil & _). }
  assert (∀ x, x ∈ os → ops !! x.1 = Some x.2) as Hos' by (intros; apply Hos; by right).
  assert (∀ memo', failed_since memo memo' → ¬ candidate mask s (i, e) →
    decides memo (∃ x, x ∈ (i, e) :: os ∧ candidate mask s x)
      (try_ops go (min_ret ops mask) mask s memo' os)) as Hskip.
  { intros memo' Hf Hnot. destruct (IH memo' Hos') as (b & m & -> & Hb).
    { intros y [Hy|?]%Hf ?; [by apply Hm|done]. }
    exists b, m. split; [done|]. destruct b.
    - destruct Hb as (x & ? & ?). exists x. split; [by right|done].
    - destruct Hb as [Hb ?]. split; [|by eapply failed_trans].
      intros (x & [->|?]%elem_of_cons & ?); [done|]. apply Hb. by exists x. }
  pose proof (Hos (i, e) ltac:(left)) as Hi. simpl in Hi. apply lookup_lt_Some in Hi as Hlt.
  destruct (has mask i) eqn:Hh; simpl.
  { apply Hskip; [by left|]. intros (E & _). simpl in E. congruence. }
  case_bool_decide as Hinv.
  { apply Hskip; [by left|]. intros (_ & ? & _). simpl in *. lia. }
  apply N.nlt_ge in Hinv.
  set (r := match en_action e with AExpect _ => _ | ASet _ => _ end).
  assert (decides memo (candidate mask s (i, e)) r) as (b & m & Hr & Hb).
  { assert (pending_above (todo (N.lor mask (bit i))) memo) as Hab.
    { intros y Hy Hsol. specialize (Hm _ Hy Hsol). pose proof (todo_lor _ _ Hlt Hh). lia. }
    unfold r. clear r. unfold candidate. simpl. destruct (en_action e) as [v|v]; simpl.
    - destruct (Hgo memo i v Hlt Hh Hab) as (b & m & Hr & Hb). exists b, m. split; [done|].
      destruct b; [naive_solver|]. destruct Hb as [Hb ?]. split; [|done]. intros (_ & _ & s' & [= <-] & ?). done.
    - case_bool_decide as Es.
      + rewrite decide_True by done. destruct (Hgo memo i s Hlt Hh Hab) as (b & m & Hr & Hb). exists b, m. split; [done|].
        destruct b; [naive_solver|]. destruct Hb as [Hb ?]. split; [|done]. intros (_ & _ & s' & [= <-] & ?). done.
      + rewrite decide_False by done. exists false, memo. split; [done|]. split; [|by left]. by intros (_ & _ & s' & ? & _). }
  rewrite Hr. destruct b.
  - exists true, m. split; [done|]. exists (i, e). split; [left|done].
  - destruct Hb as [Hb Hf]. by apply Hskip.
Qed.

Lemma candidate_solvable mask s :
  N.land mask required ≠ required → solvable mask s ↔ ∃ x, x ∈ imap pair ops ∧ candidate mask s x.
Proof.
  intros Hreq. split.
  - intros [?|i e s' He Hh Hinv Hs Hsol]; [done|]. exists (i, e). split.
    + apply (list_elem_of_lookup_2 _ i). by rewrite list_lookup_imap, He.
    + split; [done|]. split; [done|]. by exists s'.
  - intros ([i e] & (j & E)%list_elem_of_lookup & Hh & Hinv & s' & Hs & Hsol).
    apply list_lookup_imap_Some in E as (e' & He & [= -> ->]). by eapply sol_step.
Qed.

Lemma search_spec fuel memo mask s :
  (todo mask < fuel)%nat → pending_above (todo mask) memo →
  decides memo (solvable mask s) (search fuel ops required memo mask s).
Proof.
  revert memo mask s. induction fuel as [|fuel IH]; intros memo mask s Hfuel Hp; [lia|]. simpl.
  case_bool_decide as Hreq; [eexists true, _; split; [done|]; by left|].
  case_bool_decide as Hin.
  { exists false, memo. split; [done|]. split; [|by left]. intros Hsol. specialize (Hp _ Hin Hsol). simpl in Hp. lia. }
  destruct (try_ops_spec (search fuel ops required) mask s ({[(mask, s)]} ∪ memo) (imap pair ops))
    as (b & m & -> & Hb).
  - intros x (j & E)%list_elem_of_lookup. apply list_lookup_imap_Some in E as (e' & He & ->). done.
  - intros memo' i s' Hi Hh Hab. apply IH; [|done]. pose proof (todo_lor _ _ Hi Hh). lia.
  - intros y [->%elem_of_singleton|Hy]%elem_of_union Hsol; [done|]. specialize (Hp _ Hy Hsol). lia.
  - exists b, m. split; [done|]. destruct b; [by apply candidate_solvable|].
    destruct Hb as [Hb Hf]. rewrite <-candidate_solvable in Hb by done. split; [done|]. intros y [[->%elem_of_singleton|?]%elem_of_union|?]%Hf; auto.
Qed.
End search.

(** ** Linearizability *)

(** The order [l] explains every read, from register value [s]. *)
Fixpoint explains (ops : list Entry) (l : list nat) (s : option N) : Prop :=
  match l with
  | [] => True
  | i :: l => ∃ e s', ops !! i = Some e ∧ act_step (en_action e) s = Some s' ∧ explains ops l s'
  end.

(** An order of operations, each at most once, the required ones all, that
    explains every read from an empty register, and in which no operation
    comes after one that was invoked only after it had returned. *)
Record linearization (ops : list Entry) (l : list nat) : Prop := {
  ln_once : NoDup l;
  ln_required i e : ops !! i = Some e → en_required e = true → i ∈ l;
  ln_explains : explains ops l None;
  ln_real_time p q i j ei ej : (p < q)%nat → l !! p = Some i → l !! q = Some j →
    ops !! i = Some ei → ops !! j = Some ej → en_inv ei ≤ en_ret ej;
}.
Definition linearizable (ops : list Entry) : Prop := ∃ l, linearization ops l.

(** Operations are invoked before they return; what need not have happened
    never returned. *)
Definition well_timed (ops : list Entry) : Prop := ∀ e, e ∈ ops →
  en_inv e ≤ en_ret e ∧ en_ret e ≤ u64_max ∧ (en_required e = false → en_ret e = u64_max).

(** The operations of an order are the marked ones. *)
Definition marks (mask : N) (l : list nat) : Prop := ∀ i, has mask i = true ↔ i ∈ l.
Lemma marks_snoc mask l i : marks mask l → marks (N.lor mask (bit i)) (l ++ [i]).
Proof.
  intros Hm j. rewrite has_lor, orb_true_iff, (Hm j), bool_decide_eq_true, elem_of_app, list_elem_of_singleton. naive_solver.
Qed.

Lemma covers_marks ops mask l :
  marks mask l → N.land mask (required_mask ops) = required_mask ops ↔
    ∀ i e, ops !! i = Some e → en_required e = true → i ∈ l.
Proof.
  intros Hm. rewrite covers_spec. setoid_rewrite (proj2 (required_mask_spec ops)). unfold marks in Hm.
  setoid_rewrite Hm. naive_solver.
Qed.

Section reference.
Context (ops : list Entry) (Hops : well_timed ops).
#[local] Abbreviation in_time l := (∀ p q i j ei ej, (p < q)%nat → l !! p = Some i → l !! q = Some j →
  ops !! i = Some ei → ops !! j = Some ej → en_inv ei ≤ en_ret ej).

Lemma inv_bound i e : ops !! i = Some e → en_inv e ≤ en_ret e ∧ en_inv e ≤ u64_max.
Proof. intros (? & ? & _)%list_elem_of_lookup_2%Hops. lia. Qed.

Lemma solvable_order mask s l1 :
  marks mask l1 → solvable ops (required_mask ops) mask s →
  ∃ l2, NoDup l2 ∧ (∀ i, i ∈ l2 → i ∉ l1) ∧
    (∀ i e, ops !! i = Some e → en_required e = true → i ∈ l1 ++ l2) ∧ explains ops l2 s ∧ in_time l2.
Proof.
  intros Hm Hsol. revert l1 Hm. induction Hsol as [mask s Hreq|mask s i e s' He Hh Hinv Hs Hsol IH]; intros l1 Hm.
  { exists []. split; [constructor|]. split; [by intros i ?%elem_of_nil|].
    split; [rewrite app_nil_r; by eapply covers_marks|]. split; [done|]. by intros ? ? ? ? ? ? _ [=]. }
  destruct (IH _ (marks_snoc _ _ i Hm)) as (l2 & Hnd & Hdis & Hall & Hex & Htime). exists (i :: l2). split.
  { constructor; [|done]. intros Hi%Hdis. set_solver. }
  split.
  { intros j [->|Hj]%elem_of_cons; [|specialize (Hdis j Hj); set_solver]. rewrite <-(Hm i). congruence. }
  split; [intros j ej Hj Hr; specialize (Hall j ej Hj Hr); set_solver|].
  split; [by exists e, s'|].
  intros [|p] [|q] j k ej ek Hpq Hj Hk Ej Ek; simpl in *; try lia; [|eapply (Htime p q); eauto; lia].
  destruct (inv_bound _ _ Ej) as [_ Hmax]. injection Hj as <-. rewrite He in Ej. injection Ej as <-.
  eapply (proj1 (min_ret_spec ops mask _ Hmax) Hinv k); [done|].
  apply list_elem_of_lookup_2, Hdis in Hk. specialize (Hm k). destruct (has mask k); [set_solver|done].
Qed.

Lemma order_solvable l1 l2 mask s :
  linearization ops (l1 ++ l2) → marks mask l1 → explains ops l2 s → solvable ops (required_mask ops) mask s.
Proof.
  revert l1 mask s. induction l2 as [|i l2 IH]; intros l1 mask s Hl Hm Hex.
  { apply sol_done, (covers_marks _ _ l1); [done|]. rewrite app_nil_r in Hl. apply Hl. }
  destruct Hex as (e & s' & He & Hs & Hex). destruct (inv_bound _ _ He) as [Hie Hmax].
  pose proof (ln_once _ _ Hl) as (Hnd1 & Hdis & Hnd2)%NoDup_app.
  assert (has mask i = false) as Hh.
  { specialize (Hm i). destruct (has mask i); [|done]. exfalso. apply (Hdis i); [by apply Hm|left]. }
  eapply sol_step; [exact He|exact Hh| |exact Hs|].
  2: { apply (IH (l1 ++ [i])); [by rewrite <-app_assoc|by apply marks_snoc|done]. }
  apply min_ret_spec; [done|]. intros j ej Hj Hjh.
  assert (j ∉ l1) as Hj1 by (rewrite <-(Hm j); congruence).
  destruct (decide (j ∈ i :: l2)) as [[->|Hj2]%elem_of_cons|Hj2].
  - by simplify_eq.
  - apply list_elem_of_lookup in Hj2 as [q Hq].
    eapply (ln_real_time _ _ Hl (length l1) (length l1 + S q) i j); [lia| | |done|done].
    + by rewrite list_lookup_middle.
    + by rewrite lookup_app_r, Nat.add_comm, Nat.add_sub by lia.
  - destruct (en_required ej) eqn:Er.
    + pose proof (ln_required _ _ Hl _ _ Hj Er). set_solver.
    + apply list_elem_of_lookup_2, Hops in Hj as (_ & _ & Hret). by rewrite (Hret Er).
Qed.

Lemma solvable_linearizable : solvable ops (required_mask ops) 0 None ↔ linearizable ops.
Proof.
  assert (marks 0 []) as Hm by (intros i; rewrite has_0; split; [done|by intros ?%elem_of_nil]). split.
  - intros (l & ? & _ & ? & ? & ?)%(solvable_order _ _ []); [|done]. by exists l.
  - intros [l Hl]. eapply (order_solvable [] l); [done..|apply Hl].
Qed.
End reference.

(** Recorded operations: times fit the type, and an operation returns after it
    was invoked. *)
Definition recorded_ok (r : Recorded) : Prop :=
  r_invoked_us r ≤ r_returned_us r ∧ r_returned_us r ≤ u64_max.

Lemma entries_timed h : Forall recorded_ok h → well_timed (omap op_entry h).
Proof.
  rewrite Forall_forall. intros Hh e (r & [Hi Hr]%Hh & He)%list_elem_of_omap. unfold op_entry in He.
  destruct (r_op r) as [k [] pos|res]; simplify_eq/=; lia || (split; [lia|]; split; [lia|done]).
Qed.

(** One key. *)
Lemma check_key_exact h :
  Forall recorded_ok h →
  let ops := omap op_entry h in
  (check_key h = None ↔ (63 < length ops)%nat) ∧
  ((length ops ≤ 63)%nat →
   check_key h = Some (Ok ()) ∧ linearizable ops ∨
   check_key h = Some (Err NoLinearization) ∧ ¬ linearizable ops).
Proof.
  intros Hh ops. unfold check_key. fold ops. rewrite <-(solvable_linearizable ops) by by apply entries_timed.
  case_bool_decide as Hlen; [|split; [split; [lia|done]|done]].
  destruct (search_spec ops (required_mask ops) (S (length ops)) ∅ 0 None) as (b & m & -> & Hb).
  - unfold todo. pose proof (length_filter (λ i, has 0 i = false) (seq 0 (length ops))) as Hf.
    rewrite length_seq in Hf. lia.
  - by intros y ?%elem_of_empty.
  - split; [split; [by destruct b|lia]|]. intros _. destruct b; [by left|right]. by destruct Hb.
Qed.

Lemma of_key_ok key h : Forall recorded_ok h → Forall recorded_ok (of_key key h).
Proof. rewrite !Forall_forall. intros H r [_ ?]%list_elem_of_filter. by apply H. Qed.

Lemma ops_length key h : (length (omap op_entry (of_key key h)) ≤ length h)%nat.
Proof.
  unfold of_key. induction h as [|r h IH]; [done|]. rewrite filter_cons. case_decide; csimpl; [|lia].
  destruct (op_entry r); csimpl; lia.
Qed.

Lemma elem_of_history_keys key h : key ∈ history_keys h ↔ ∃ r, r ∈ h ∧ r_key r = key.
Proof.
  unfold history_keys. rewrite merge_sort_Permutation, elem_of_elements, elem_of_list_to_set, list_elem_of_fmap.
  naive_solver.
Qed.

Lemma linearizable_nil : linearizable [].
Proof. exists []. split; [constructor|done|done|]. by intros ? ? ? ? ? ? _ [=]. Qed.

(** All keys. *)
Lemma check_keys_exact h :
  Forall recorded_ok h → (∀ key, length (omap op_entry (of_key key h)) ≤ 63)%nat →
  check_linearizable h = Some (Ok ()) ∧ (∀ key, linearizable (omap op_entry (of_key key h))) ∨
  ∃ key, check_linearizable h = Some (Err (key, NoLinearization)) ∧ ¬ linearizable (omap op_entry (of_key key h)).
Proof.
  intros Hh Hlen. unfold check_linearizable.
  assert (∀ keys, (check_keys keys h = Some (Ok ()) ∧ ∀ key, key ∈ keys → linearizable (omap op_entry (of_key key h))) ∨
    ∃ key, check_keys keys h = Some (Err (key, NoLinearization)) ∧ ¬ linearizable (omap op_entry (of_key key h))) as Hkeys.
  { induction keys as [|key keys IH]; simpl; [left; split; [done|by intros key ?%elem_of_nil]|].
    destruct (check_key_exact (of_key key h)) as [_ Hk]; [by apply of_key_ok|].
    destruct (Hk (Hlen key)) as [[-> Hl]|[-> Hl]]; [|right; by exists key].
    destruct IH as [[-> IH]|IH]; [left|by right]. split; [done|]. intros key' [->|?]%elem_of_cons; auto. }
  destruct (Hkeys (history_keys h)) as [[-> Hall]|?]; [left|by right]. split; [done|]. intros key.
  destruct (decide (key ∈ history_keys h)) as [?|Hni]; [by apply Hall|].
  replace (of_key key h) with (@nil Recorded); [apply linearizable_nil|]. symmetry.
  apply filter_none. intros r Hr Hk. apply Hni, elem_of_history_keys. by exists r.
Qed.

(** What is linearizable is accepted. *)
Lemma check_accepts h :
  Forall recorded_ok h → (∀ key, length (omap op_entry (of_key key h)) ≤ 63)%nat →
  (∀ key, linearizable (omap op_entry (of_key key h))) → check_linearizable h = Some (Ok ()).
Proof. intros Hh Hlen Hall. destruct (check_keys_exact h Hh Hlen) as [[? _]|(key & _ & Hno)]; [done|]. by destruct Hno. Qed.

(** [C32] The checker is exact. On every history whose operations return after
    they were invoked, no key with more than 63 operations that may have
    happened: the checker returns [Ok] exactly if every key's history is
    linearizable as a register (failed writes left out, writes of unknown
    outcome free to take effect at any time after their invocation or never),
    and otherwise names a key whose history is not. *)
Theorem checker_exact h :
  Forall recorded_ok h →
  (∀ key, length (omap op_entry (of_key key h)) ≤ 63)%nat →
  (check_linearizable h = Some (Ok ()) ∧ ∀ key, linearizable (omap op_entry (of_key key h))) ∨
  ∃ key, check_linearizable h = Some (Err (key, NoLinearization)) ∧ ¬ linearizable (omap op_entry (of_key key h)).
Proof. exact (check_keys_exact h). Qed.

(** Histories of the checker's own tests: a read may see a concurrent write,
    and a write of unknown outcome may take effect; a read may not miss a
    write that had returned. *)
Definition wrote (key : string) (k : WriteKind) (o : WriteOutcome) (inv ret : N) : Recorded :=
  MkRecorded 0 key (OpWrite k o None) inv ret.
Definition read_of (key : string) (v : option Value) (inv ret : N) : Recorded :=
  MkRecorded 1 key (OpRead v) inv ret.
Definition good_history : list Recorded :=
  [wrote "k" (WPut 7) OutcomeOk 0 100; read_of "k" None 10 20; read_of "k" (Some 7) 30 40;
   wrote "j" (WPut 9) OutcomeUnknown 0 u64_max; read_of "j" None 10 20; read_of "j" (Some 9) 30 40].
Definition stale_history : list Recorded :=
  [wrote "k" (WPut 1) OutcomeOk 0 10; wrote "k" (WPut 2) OutcomeOk 20 30; read_of "k" (Some 1) 40 50].

Example checker_exact_witness :
  (∀ key, linearizable (omap op_entry (of_key key good_history))) ∧
  ∃ key, ¬ linearizable (omap op_entry (of_key key stale_history)).
Proof.
  assert (∀ h, (length h ≤ 63)%nat → ∀ key, (length (omap op_entry (of_key key h)) ≤ 63)%nat) as Hlen
    by (intros h Hh key; pose proof (ops_length key h); lia).
  split.
  - assert (Forall recorded_ok good_history) as Hok by (repeat constructor; vm_compute; discriminate).
    destruct (checker_exact good_history Hok) as [[_ ?]|(key & E & _)]; [by apply Hlen; vm_compute; lia|done|].
    exfalso. vm_compute in E. discriminate E.
  - assert (Forall recorded_ok stale_history) as Hok by (repeat constructor; vm_compute; discriminate).
    destruct (checker_exact stale_history Hok) as [[E _]|(key & _ & Hl)]; [by apply Hlen; vm_compute; lia| |by exists key].
    exfalso. vm_compute in E. discriminate E.
Defined.
