(* ===== verification/Elections.v ===== *)
(** * Votes and leadership, one node at a time

    What every handler preserves about elections while the membership is
    static: a candidate's tally and a leader's mandate are backed by durable
    votes, and what a node sends says the truth about itself. [Cluster]
    assembles these facts into Election Safety.

    [G t v] stands for the evidence available outside the node: "[v] has
    durably voted for this node in term [t]". A node adds its own vote, which
    it has written to disk in the same iteration. *)
From S2P Require Import Prelude Types Rng Storage Node NodeSteps NodeLife NodeInv.
Open Scope N_scope.

(** ** Static membership *)
Section static.
Context `{J : SerdeJson}.

Definition plain_log (l : list LogEntry) : Prop := ∀ e, e ∈ l → config_of e = None.

Record static_storage (s : Storage) : Prop := {
  ss_log : plain_log (st_log s);
  ss_snapshot : st_snapshot s ≫= sn_membership = None;
}.

Lemma plain_log_app l1 l2 : plain_log (l1 ++ l2) ↔ plain_log l1 ∧ plain_log l2.
Proof. unfold plain_log. set_solver. Qed.
Lemma plain_log_take k l : plain_log l → plain_log (take k l).
Proof. intros Hl. rewrite <-(take_drop k l), plain_log_app in Hl. by destruct Hl. Qed.
Lemma plain_log_drop k l : plain_log l → plain_log (drop k l).
Proof. intros Hl. rewrite <-(take_drop k l), plain_log_app in Hl. by destruct Hl. Qed.

Lemma plain_log_prefix l l' : l `prefix_of` l' → plain_log l' → plain_log l.
Proof. intros [x ->]. by intros [? _]%plain_log_app. Qed.

Lemma latest_config_plain l : plain_log l → latest_config l = None.
Proof.
  intros Hl. destruct (latest_config l) as [[ms i]|] eqn:E; [exfalso|done].
  destruct (latest_config_elem _ _ _ E) as (e & He & _ & Hc). specialize (Hl e He).
  unfold config_of in Hl. by rewrite Hc in Hl.
Qed.

Lemma derive_static cfg s :
  static_storage s → c_join cfg = false → derive_membership s cfg = (bootstrap_members cfg, 0).
Proof.
  intros [Hl Hs] Hj. unfold derive_membership. by rewrite (latest_config_plain _ Hl), Hs, Hj.
Qed.

Lemma torn_static s s' s'' : torn s s' s'' → static_storage s' → static_storage s''.
Proof.
  intros [_ [E1 E2] [_ Hp]] [Hl Hs]. split; [by eapply plain_log_prefix|]. by rewrite E2, <-E1.
Qed.
Lemma append_static es s s' :
  append es s = Ok s' → plain_log es → static_storage s → static_storage s'.
Proof. intros [_ ->]%append_Ok He [Hl Hs]. split; [by apply plain_log_app|done]. Qed.
Lemma truncate_static i s s' : truncate_from i s = Ok s' → static_storage s → static_storage s'.
Proof. intros [_ ->]%truncate_from_Ok [Hl Hs]. split; [by apply plain_log_take|done]. Qed.
Lemma compact_static k v s s' : compact_to k v None s = Ok s' → static_storage s → static_storage s'.
Proof. intros (e & _ & ->)%compact_to_Ok [Hl Hs]. split; [by apply plain_log_drop|done]. Qed.
Lemma install_static snap s s' :
  install_snapshot snap s = Ok s' → sn_membership snap = None → static_storage s → static_storage s'.
Proof.
  intros [_ ->]%install_snapshot_Ok Hm [Hl Hs]. split; [|done]. simpl.
  case_match; [by apply plain_log_drop|]. by intros e ?%elem_of_nil.
Qed.
End static.

Section elections.
Context `{J : SerdeJson} {SM : Type} `{!StateMachine SM}.
Context (ids : gset N) (G : Term → NodeId → Prop).
Implicit Types n : RaftNode SM.

(** ** Evidence *)
Definition backed (id : NodeId) (es : list Effect) (t : Term) (v : NodeId) : Prop :=
  G t v ∨ (v = id ∧ ∃ s, Persisted s ∈ es ∧ st_hard_state s = MkHardState t (Some id)).

Definition elected (id : NodeId) (es : list Effect) (t : Term) : Prop :=
  ∃ Q, quorum ids Q ∧ ∀ v, v ∈ Q → backed id es t v.

Definition role_backed (id : NodeId) (es : list Effect) (t : Term) (r : Role) : Prop :=
  match r with
  | Candidate votes => ∀ v, v ∈ votes → backed id es t v
  | Leader _ => elected id es t
  | _ => True
  end.

(** What a message claims about its sender. *)
Definition send_ok (id : NodeId) (es : list Effect) (req : RpcRequest) (tag : SentTag) : Prop :=
  match req with
  | RequestVote a => tag = TagVote (rv_term a) ∧ rv_candidate_id a = id
  | PreVote a => ∃ t, tag = TagPreVote t
  | AppendEntries a =>
      (∃ t p c q, tag = TagAppend t p c q) ∧ ae_leader_id a = id ∧ elected id es (ae_term a) ∧
      plain_log (ae_entries a)
  | InstallSnapshot a =>
      (∃ t k, tag = TagSnapshot t k) ∧ is_leader_id a = id ∧ elected id es (is_term a) ∧
      sn_membership (is_snapshot a) = None
  end.

(** One effect, judged with the effects emitted so far. *)
Definition effect_ok (id : NodeId) (es : list Effect) (e : Effect) : Prop :=
  match e with
  | Persisted s => static_storage s
  | SendRpc _ req tag => send_ok id es req tag
  | _ => True
  end.

(** Every effect, judged with what was emitted before it. *)
Definition effects_ok (id : NodeId) (es : list Effect) : Prop :=
  ∀ pre e, pre ++ [e] `prefix_of` es → effect_ok id pre e.

Record elec n : Prop := {
  el_join : c_join (n_config n) = false;
  el_boot : dom (bootstrap_members (n_config n)) = ids;
  el_members : dom (n_members n) = ids;
  el_storage : static_storage (n_storage n);
  el_staged k v ms : n_staged_snapshot n = Some (k, v, ms) → ms = None;
  el_role : role_backed (self n) (n_effects n) (cur_term n) (n_role n);
  el_effects : effects_ok (self n) (n_effects n);
}.

Lemma backed_app id es es' t v : backed id es t v → backed id (es ++ es') t v.
Proof. unfold backed. set_solver. Qed.
Lemma elected_app id es es' t : elected id es t → elected id (es ++ es') t.
Proof. intros (Q & HQ & Hb). exists Q. split; [done|]. intros v Hv. by apply backed_app, Hb. Qed.
Lemma role_backed_app id es es' t r : role_backed id es t r → role_backed id (es ++ es') t r.
Proof.
  destruct r; simpl; [done..| |apply elected_app]. intros Hb v Hv. by apply backed_app, Hb.
Qed.
Lemma effect_ok_app id es es' e : effect_ok id es e → effect_ok id (es ++ es') e.
Proof.
  destruct e as [|? []| | | | | | | |]; simpl; try done; naive_solver eauto using elected_app.
Qed.

Lemma effects_ok_app id es es' :
  effects_ok id es → (∀ e, e ∈ es' → effect_ok id es e) → effects_ok id (es ++ es').
Proof.
  intros He He' pre e [post Hp].
  apply app_eq_inv in Hp as [(k & Hes & Hk)|(k & Hpre & Hk)]; [apply He; by exists k|].
  destruct k as [|x k _] using rev_ind.
  { rewrite app_nil_r in Hpre. apply He. by exists []; rewrite app_nil_r. }
  rewrite app_assoc in Hpre. apply app_inj_tail in Hpre as [-> ->].
  apply effect_ok_app, He'. rewrite Hk. apply elem_of_app. left. apply elem_of_app. right. left.
Qed.

(** Updates: more effects, and fields that keep what the invariant says. *)
Lemma elec_update n n' es :
  elec n → n_config n' = n_config n → dom (n_members n') = ids → static_storage (n_storage n') →
  (∀ k v ms, n_staged_snapshot n' = Some (k, v, ms) → ms = None) →
  n_effects n' = n_effects n ++ es → (∀ e, e ∈ es → effect_ok (self n) (n_effects n) e) →
  role_backed (self n) (n_effects n ++ es) (cur_term n') (n_role n') → elec n'.
Proof.
  intros [Hj Hb Hm Hs Hst Hr He] Ec Hm' Hs' Hst' Ee Hes Hr'.
  assert (self n' = self n) as Eself by (unfold self; by rewrite Ec).
  split; rewrite ?Ec, ?Ee, ?Eself; try done. by apply effects_ok_app.
Qed.

(** Effects that are neither writes nor sends. *)
Definition benign (es : list Effect) : Prop :=
  ∀ e, e ∈ es → match e with Persisted _ | SendRpc _ _ _ => False | _ => True end.

Lemma elec_benign n n' es :
  elec n → n_config n' = n_config n → n_members n' = n_members n →
  n_storage n' = n_storage n → n_staged_snapshot n' = n_staged_snapshot n →
  n_role n' = n_role n → n_effects n' = n_effects n ++ es → benign es → elec n'.
Proof.
  intros He Ec Em Es Est Er Ee Hb. destruct (He) as [_ _ ? ? ? ? _].
  eapply elec_update; [exact He|done|by rewrite Em|by rewrite Es|by rewrite Est|exact Ee| |].
  - intros e Hin. specialize (Hb e Hin). by destruct e.
  - unfold cur_term. rewrite Er, Es. by apply role_backed_app.
Qed.
End elections.

(** Closing [elec] after updates that emit at most benign effects. *)
Ltac benign_tac :=
  let e := fresh "e" in let H := fresh in
  unfold benign; intros e H;
  repeat match goal with
  | H : _ ∈ _ ++ _ |- _ => apply elem_of_app in H as [H|H]
  | H : _ ∈ [] |- _ => by apply elem_of_nil in H
  | H : _ ∈ [_] |- _ => apply list_elem_of_singleton in H; subst; exact I
  | H : _ ∈ omap _ _ |- _ => apply list_elem_of_omap in H as (? & _ & H)
  | H : _ <$> _ = Some _ |- _ => apply fmap_Some in H as (? & _ & H); subst; exact I
  | H : _ ∈ _ <$> _ |- _ => apply list_elem_of_fmap in H as (? & H & _); subst; exact I
  | H : _ ∈ match ?x with _ => _ end |- _ => destruct x
  end.
Ltac el_done :=
  match goal with
  | |- True => exact I
  | H : elec _ _ ?n |- elec _ _ ?n => exact H
  | H : elec _ _ _ |- elec _ _ _ =>
      solve [eapply (elec_benign _ _ _ _ []); [exact H|reflexivity..|symmetry; apply app_nil_r|]; benign_tac
            |eapply elec_benign; [exact H|reflexivity..|nsimpl; rewrite <-?app_assoc; reflexivity|]; benign_tac]
  end.
#[export] Hint Extern 1 (elec _ _ _) => el_done : handlers.
#[export] Hint Extern 1 (benign _) => benign_tac : handlers.
Ltac el_walk := walk; try el_done.

Section election_ops.
Context `{J : SerdeJson} {SM : Type} `{!StateMachine SM}.
Context (ids : gset N) (G : Term → NodeId → Prop).
Implicit Types n : RaftNode SM.
#[local] Abbreviation elec := (elec ids G).
#[local] Abbreviation keeps m := (∀ n, elec n → wlp m (λ _, elec) n).

Lemma emits_elec es n : elec n → benign es → wlp (emits es) (λ _, elec) n.
Proof. intros. unfold emits. walk. by eapply elec_benign. Qed.
Lemma emit_elec e n : elec n → benign [e] → wlp (emit e) (λ _, elec) n.
Proof. intros. unfold emit. walk. by eapply elec_benign. Qed.
#[local] Hint Resolve emits_elec emit_elec : handlers.

Lemma reset_election_timer_elec : keeps reset_election_timer.
Proof. intros n Hn. unfold reset_election_timer, draw. el_walk. Qed.
Lemma publish_status_elec : keeps publish_status.
Proof. intros n Hn. unfold publish_status. el_walk. Qed.
Lemma publish_membership_elec : keeps publish_membership.
Proof. intros n Hn. unfold publish_membership. el_walk. Qed.
#[local] Hint Resolve reset_election_timer_elec publish_status_elec publish_membership_elec : handlers.

(** A storage operation that keeps the term. *)
Lemma storage_op_elec op n :
  elec n →
  (∀ s', op (n_storage n) = Ok s' → static_storage s' ∧ current_term (st_hard_state s') = cur_term n) →
  wlp (storage_op op) (λ _, elec) n.
Proof.
  intros Hn Hop. unfold storage_op, emit. walk; [|done].
  match goal with H : _ = Ok _ |- _ => apply Hop in H as [Hst Ht] end.
  destruct (Hn) as [_ _ ? _ ? ? _].
  eapply elec_update; [exact Hn|done|done|done|done|reflexivity| |].
  - intros e ->%list_elem_of_singleton. done.
  - unfold cur_term at 1. nsimpl. rewrite Ht. by apply role_backed_app.
Qed.

Lemma append_elec es n : elec n → plain_log es → wlp (storage_op (append es)) (λ _, elec) n.
Proof.
  intros Hn He. apply storage_op_elec; [done|]. intros s' Hs'.
  split; [eapply append_static; [done..|apply Hn]|by rewrite (append_hard_state _ _ _ Hs')].
Qed.
Lemma truncate_elec i : keeps (storage_op (truncate_from i)).
Proof.
  intros n Hn. apply storage_op_elec; [done|]. intros s' Hs'.
  split; [eapply truncate_static; [done..|apply Hn]|by rewrite (truncate_hard_state _ _ _ Hs')].
Qed.
Lemma compact_elec k v : keeps (storage_op (compact_to k v None)).
Proof.
  intros n Hn. apply storage_op_elec; [done|]. intros s' Hs'.
  split; [eapply compact_static; [done..|apply Hn]|by rewrite (compact_hard_state _ _ _ _ _ Hs')].
Qed.
Lemma install_elec snap n :
  elec n → sn_membership snap = None → wlp (storage_op (install_snapshot snap)) (λ _, elec) n.
Proof.
  intros Hn Hm. apply storage_op_elec; [done|]. intros s' Hs'.
  split; [eapply install_static; [done..|apply Hn]|by rewrite (install_hard_state _ _ _ Hs')].
Qed.
#[local] Hint Resolve append_elec truncate_elec compact_elec install_elec : handlers.

(** Stepping down forgets the mandate. *)
Lemma elec_follower n n' es :
  elec n → n_config n' = n_config n → n_members n' = n_members n →
  n_staged_snapshot n' = n_staged_snapshot n → static_storage (n_storage n') →
  n_role n' = Follower → n_effects n' = n_effects n ++ es →
  (∀ e, e ∈ es → match e with Persisted s => static_storage s | SendRpc _ _ _ => False | _ => True end) →
  elec n'.
Proof.
  intros Hn Ec Em Est Hs Er Ee He. destruct (Hn) as [_ _ ? _ ? _ _].
  eapply elec_update; [exact Hn|done|by rewrite Em|done|by rewrite Est|exact Ee| |by rewrite Er].
  intros e Hin. specialize (He e Hin). by destruct e.
Qed.

Lemma become_follower_elec t ldr : keeps (become_follower t ldr).
Proof.
  intros n Hn. unfold become_follower, save_hs, storage_op, emits, emit. walk; try el_done.
  all: match goal with |- wpp _ _ _ ?m => assert (elec m) end; [|el_walk].
  all: try match goal with H : Ok _ = Ok _ |- _ => injection H as <- end.
  all: eapply elec_follower; [exact Hn|done|done|done|by destruct (el_storage _ _ _ Hn)|done| |].
  all: try (nsimpl; rewrite <-?app_assoc; reflexivity).
  all: intros e; rewrite ?elem_of_app, ?list_elem_of_singleton; intros He; destruct_or?; subst.
  all: try by destruct (el_storage _ _ _ Hn).
  all: destruct (n_role n); try by apply elem_of_nil in He.
  all: by apply list_elem_of_fmap in He as (r & -> & _).
Qed.
#[local] Hint Resolve become_follower_elec : handlers.

(** *** Memberships *)
Lemma is_leader_elected n l :
  elec n → n_role n = Leader l → elected ids G (self n) (n_effects n) (cur_term n).
Proof. intros [_ _ _ _ _ Hr _] Hl. by rewrite Hl in Hr. Qed.

Lemma set_leader_elec n l l' : elec n → n_role n = Leader l → wlp (set_leader l') (λ _, elec) n.
Proof.
  intros Hn Hl. pose proof (is_leader_elected _ _ Hn Hl) as He. unfold set_leader. walk.
  destruct (Hn) as [_ _ ? ? ? _ _].
  eapply (elec_update _ _ _ _ []); [exact Hn|done..|by rewrite app_nil_r|by intros e ?%elem_of_nil|].
  simpl. by apply elected_app.
Qed.
#[local] Hint Resolve set_leader_elec : handlers.

Lemma set_members_elec n ms : elec n → dom ms = ids → elec (set_members ms n).
Proof.
  intros Hn Hm. destruct (Hn) as [_ _ _ ? ? ? _].
  eapply (elec_update _ _ _ _ []); [exact Hn|done..|by rewrite app_nil_r|by intros e ?%elem_of_nil|].
  by apply role_backed_app.
Qed.

Lemma adopt_membership_elec ms i n : elec n → dom ms = ids → wlp (adopt_membership ms i) (λ _, elec) n.
Proof.
  intros Hn Hm. unfold adopt_membership. walk.
  all: match goal with H : elec ?m |- wpp _ _ _ (set_members_index _ (set_members _ ?m)) =>
    pose proof (set_members_elec m ms H Hm); el_walk end.
Qed.

Lemma rescan_membership_elec : keeps rescan_membership.
Proof.
  intros n Hn. unfold rescan_membership. do 2 walk_step.
  destruct (Hn) as [Hj Hb _ Hs _ _ _]. rewrite (derive_static _ _ Hs Hj). by apply adopt_membership_elec.
Qed.
Lemma resolve_pending_elec : keeps resolve_pending.
Proof. intros n Hn. unfold resolve_pending. el_walk. Qed.
Lemma resolve_reads_elec : keeps resolve_reads.
Proof. intros n Hn. unfold resolve_reads. el_walk. Qed.
Lemma apply_loop_elec fuel : keeps (apply_loop fuel).
Proof. induction fuel; intros n Hn; simpl; el_walk. Qed.
#[local] Hint Resolve rescan_membership_elec resolve_pending_elec resolve_reads_elec
  apply_loop_elec : handlers.

Lemma set_staged_elec n st :
  elec n → (∀ k v ms, st = Some (k, v, ms) → ms = None) → elec (set_staged_snapshot st n).
Proof.
  intros Hn Hst. destruct (Hn) as [_ _ ? ? _ ? _].
  eapply (elec_update _ _ _ _ []); [exact Hn|done..|by rewrite app_nil_r|by intros e ?%elem_of_nil|].
  by apply role_backed_app.
Qed.

Lemma membership_at_static n i : static_storage (n_storage n) → membership_at n i = None.
Proof.
  intros [Hl Hs]. unfold membership_at. rewrite latest_config_plain; [done|].
  intros e [_ He]%list_elem_of_filter. by apply Hl.
Qed.

Lemma maybe_compact_elec : keeps maybe_compact.
Proof.
  intros n Hn. unfold maybe_compact. do 2 walk_step. walk_step; [|by walk]. apply wpp_bind.
  eapply (wpp_mono _ _ (λ _, elec)).
  { walk; [|done]. by apply set_staged_elec. }
  intros [] n1 Hn1. walk_step. walk_step. apply wpp_bind. eapply (wpp_mono _ _ (λ _, elec)).
  { walk; [|done]. apply set_staged_elec; [done|]. intros k v ms [= <- <- <-].
    apply membership_at_static, Hn1. }
  intros [] n2 Hn2. do 2 walk_step. destruct (n_staged_snapshot n2) as [[[k v] ms]|] eqn:E; [|by walk].
  pose proof (el_staged _ _ _ Hn2 _ _ _ E) as ->. walk; [|done].
  by apply compact_elec, set_staged_elec.
Qed.
#[local] Hint Resolve maybe_compact_elec : handlers.

Lemma apply_committed_elec : keeps apply_committed.
Proof. intros n Hn. unfold apply_committed. el_walk. Qed.
#[local] Hint Resolve apply_committed_elec : handlers.

(** *** Sending *)
Lemma emits_ok_elec es n :
  elec n → (∀ e, e ∈ es → effect_ok ids G (self n) (n_effects n) e) → wlp (emits es) (λ _, elec) n.
Proof.
  intros Hn He. unfold emits. walk. destruct (Hn) as [_ _ ? ? ? ? _].
  eapply elec_update; [exact Hn|done|done|done|done|reflexivity|done|by apply role_backed_app].
Qed.
Lemma emit_ok_elec e n :
  elec n → effect_ok ids G (self n) (n_effects n) e → wlp (emit e) (λ _, elec) n.
Proof. intros Hn He. apply (emits_ok_elec [e]); [done|]. by intros e' ->%list_elem_of_singleton. Qed.

Lemma send_append_elec p : keeps (send_append p).
Proof.
  intros n Hn. destruct (el_storage _ _ _ Hn) as [Hl Hs].
  unfold send_append, send_install_snapshot. walk; try el_done.
  all: match goal with H : n_role _ = Leader _ |- _ => pose proof (is_leader_elected _ _ Hn H) as He end.
  all: apply emit_ok_elec; [done|]; simpl.
  - match goal with H : st_snapshot _ = Some _ |- _ => rewrite H in Hs end. split; [|done]. by eexists _, _.
  - split; [by eexists _, _, _, _|]. split; [done|]. split; [done|]. by apply plain_log_drop.
Qed.
Lemma send_appends_elec ps : keeps (for_each ps send_append).
Proof. intros n Hn. apply wpp_for_each; [done|]. intros. by apply send_append_elec. Qed.
#[local] Hint Resolve send_append_elec send_appends_elec : handlers.

Lemma maybe_advance_commit_elec : keeps maybe_advance_commit.
Proof. intros n Hn. unfold maybe_advance_commit. el_walk. Qed.
Lemma on_heartbeat_tick_elec : keeps on_heartbeat_tick.
Proof. intros n Hn. unfold on_heartbeat_tick. el_walk. Qed.
#[local] Hint Resolve maybe_advance_commit_elec on_heartbeat_tick_elec : handlers.

(** *** Elections *)

(** A majority of granted member votes is a mandate. *)
Lemma tally_elected n votes :
  elec n → n_role n = Candidate votes → (majority n ≤ count_member_votes n votes)%nat →
  elected ids G (self n) (n_effects n) (cur_term n).
Proof.
  intros [_ _ Hm _ _ Hr _] Hv Hc. rewrite Hv in Hr. unfold majority, majority_of in Hc.
  exists (filter (λ id, is_Some (n_members n !! id)) votes). split.
  - split; [|by rewrite <-Hm, size_dom]. intros v [Hv' _]%elem_of_filter.
    by rewrite <-Hm, elem_of_dom.
  - intros v [_ Hin]%elem_of_filter. by apply Hr.
Qed.

Lemma elect_elec n votes l :
  elec n → n_role n = Candidate votes → (majority n ≤ count_member_votes n votes)%nat →
  elec (set_role (Leader l) n).
Proof.
  intros Hn Hv Hc. pose proof (tally_elected _ _ Hn Hv Hc) as He. destruct (Hn) as [_ _ ? ? ? _ _].
  eapply (elec_update _ _ _ _ []); [exact Hn|done..|by rewrite app_nil_r|by intros e ?%elem_of_nil|].
  simpl. by apply elected_app.
Qed.

Lemma maybe_become_leader_elec : keeps maybe_become_leader.
Proof.
  intros n Hn. unfold maybe_become_leader. do 2 walk_step. walk_step; [by walk..| |by walk].
  walk_step; bools; [by walk|]. match goal with H : n_role n = Candidate _ |- _ => rename H into Hv end.
  unfold set_leader. apply wpp_bind, wpp_modify.
  match goal with |- wpp _ _ _ ?m => assert (elec m) as Hm by (eapply elect_elec; [done..|lia]) end.
  do 2 walk_step. apply wpp_bind. eapply wpp_mono.
  { apply append_elec; [el_done|]. by intros e ->%list_elem_of_singleton. }
  intros [] n1 Hn1. el_walk.
Qed.
#[local] Hint Resolve maybe_become_leader_elec : handlers.

Lemma candidacy_elec n t :
  elec n → elec (set_role (Candidate {[self n]})
                   (stored (save_hard_state (MkHardState t (Some (self n))) (n_storage n)) n)).
Proof.
  intros Hn. destruct (Hn) as [_ _ ? ? ? _ _]. unfold stored.
  eapply elec_update; [exact Hn|done|done|by destruct (el_storage _ _ _ Hn)|done|reflexivity| |].
  - intros e ->%list_elem_of_singleton. by destruct (el_storage _ _ _ Hn).
  - nsimpl. intros v ->%elem_of_singleton. right. split; [done|]. eexists.
    split; [apply elem_of_app; right; left|done].
Qed.

Lemma start_election_elec : keeps start_election.
Proof.
  intros n Hn. unfold start_election, save_hs. do 2 walk_step. apply wpp_bind.
  eapply wpp_storage_op; [done|]. do 4 walk_step.
  pose proof (candidacy_elec n (cur_term n + 1) Hn).
  apply wpp_bind. eapply wpp_mono; [apply reset_election_timer_elec; el_done|]. intros [] n1 Hn1.
  do 2 walk_step. apply wpp_bind. eapply wpp_mono; [apply emits_ok_elec; [done|]|].
  { intros e (p & -> & _)%list_elem_of_fmap. simpl. done. }
  intros [] n2 Hn2. el_walk.
Qed.
#[local] Hint Resolve start_election_elec : handlers.

Lemma maybe_start_election_elec : keeps maybe_start_election.
Proof. intros n Hn. unfold maybe_start_election. el_walk. Qed.
#[local] Hint Resolve maybe_start_election_elec : handlers.

(** Roles that need no evidence. *)
Lemma set_plain_role_elec n r :
  elec n → match r with Follower | PreCandidate _ => True | _ => False end → elec (set_role r n).
Proof.
  intros Hn Hr. destruct (Hn) as [_ _ ? ? ? _ _].
  eapply (elec_update _ _ _ _ []); [exact Hn|done..|by rewrite app_nil_r|by intros e ?%elem_of_nil|].
  by destruct r.
Qed.

Lemma on_election_timeout_elec : keeps on_election_timeout.
Proof.
  intros n Hn. unfold on_election_timeout. do 3 walk_step; [by el_walk|].
  apply wpp_bind, wpp_modify. pose proof (set_plain_role_elec n (PreCandidate {[self n]}) Hn I) as Hp.
  do 2 walk_step. apply wpp_bind. eapply wpp_mono; [apply reset_election_timer_elec; el_done|].
  intros [] n1 Hn1. do 2 walk_step. apply wpp_bind. eapply wpp_mono; [apply emits_ok_elec; [done|]|].
  { intros e (p & -> & _)%list_elem_of_fmap. simpl. by eexists. }
  intros [] n2 Hn2. el_walk.
Qed.
#[local] Hint Resolve on_election_timeout_elec : handlers.

(** *** Requests *)
Lemma check_command_elec c n :
  elec n → wlp (check_command c) (λ r n', n' = n ∧ (∀ ms, c ≠ ConfigChange ms → r = Ok (Some ms) → False)) n.
Proof.
  intros Hn. unfold check_command, validate_config_change. walk; try done.
  all: split; [done|]; naive_solver.
Qed.

Lemma handle_propose_elec c r n :
  elec n → (∀ ms, c ≠ ConfigChange ms) → wlp (handle_propose c r) (λ _, elec) n.
Proof.
  intros Hn Hc. unfold handle_propose. do 3 walk_step; [by el_walk|].
  apply wpp_bind. eapply wpp_mono; [by apply check_command_elec|]. intros res n' [-> Hres].
  destruct res as [[ms|]|reason]; [by destruct (Hres ms (Hc ms))| |by el_walk].
  apply wpp_bind. eapply wpp_mono; [apply append_elec; [done|]|].
  { intros e ->%list_elem_of_singleton. unfold config_of. simpl. destruct c; try done. by destruct (Hc members). }
  intros [] n1 Hn1. el_walk.
Qed.

Lemma handle_read_elec r : keeps (handle_read r).
Proof. intros n Hn. unfold handle_read. el_walk. Qed.

Lemma save_vote_elec c n :
  elec n → wlp (save_hs (MkHardState (cur_term n) c)) (λ _, elec) n.
Proof.
  intros Hn. unfold save_hs. apply storage_op_elec; [done|]. intros s' [= <-].
  by destruct (el_storage _ _ _ Hn).
Qed.
#[local] Hint Resolve save_vote_elec : handlers.

Lemma handle_request_vote_elec args : keeps (handle_request_vote args).
Proof. intros n Hn. unfold handle_request_vote. el_walk. Qed.
Lemma handle_pre_vote_elec args : keeps (handle_pre_vote args).
Proof. intros n Hn. unfold handle_pre_vote. el_walk. Qed.

Lemma handle_install_snapshot_elec args n :
  elec n → sn_membership (is_snapshot args) = None →
  wlp (handle_install_snapshot args) (λ _, elec) n.
Proof. intros Hn Hm. unfold handle_install_snapshot. el_walk. Qed.

Lemma walk_entries_elec es : keeps (walk_entries es).
Proof. induction es; intros n Hn; simpl; el_walk. Qed.
#[local] Hint Resolve walk_entries_elec : handlers.

Lemma batch_from_plain args first batch :
  plain_log (ae_entries args) → batch_from args first = Some batch → plain_log batch.
Proof.
  unfold batch_from. intros Hp. destruct (checked_sub _ _); simpl; [|done].
  case_bool_decide; [|done]. intros [= <-]. by apply plain_log_drop.
Qed.

Lemma accept_entries_elec args n :
  elec n → plain_log (ae_entries args) → wlp (accept_entries args) (λ _, elec) n.
Proof.
  intros Hn Hp. unfold accept_entries. el_walk.
  all: match goal with H : batch_from _ _ = Some _ |- _ => apply (batch_from_plain _ _ _ Hp) in H as Hb end.
  all: eapply wpp_mono; [by apply append_elec|]; intros [] n1 Hn1.
  all: rewrite (latest_config_plain _ Hb); by walk.
Qed.
#[local] Hint Resolve accept_entries_elec : handlers.

Lemma handle_append_entries_elec args n :
  elec n → plain_log (ae_entries args) → wlp (handle_append_entries args) (λ _, elec) n.
Proof. intros Hn Hp. unfold handle_append_entries. el_walk. Qed.

(** *** Replies *)
Lemma on_pre_vote_reply_elec t from r : keeps (on_pre_vote_reply t from r).
Proof.
  intros n Hn. unfold on_pre_vote_reply. el_walk.
  match goal with |- wpp _ _ _ (set_role ?r n) => pose proof (set_plain_role_elec n r Hn I) end. el_walk.
Qed.

Lemma count_vote_elec n votes from :
  elec n → n_role n = Candidate votes → G (cur_term n) from →
  elec (set_role (Candidate ({[from]} ∪ votes)) n).
Proof.
  intros Hn Hv HG. destruct (Hn) as [_ _ ? ? ? Hr _]. rewrite Hv in Hr.
  eapply (elec_update _ _ _ _ []); [exact Hn|done..|by rewrite app_nil_r|by intros e ?%elem_of_nil|].
  nsimpl. intros v [->%elem_of_singleton|?]%elem_of_union; [by left|by apply backed_app, Hr].
Qed.

Lemma on_vote_reply_elec t from r n :
  elec n → (rvr_vote_granted r = true → t = cur_term n → G t from) →
  wlp (on_vote_reply t from r) (λ _, elec) n.
Proof.
  intros Hn HG. unfold on_vote_reply. el_walk. bools.
  match goal with |- wpp _ _ _ ?m => assert (elec m) as Hm end; [|by el_walk].
  assert (t = cur_term n) as Ht by (by destruct (decide (t = cur_term n))). subst t.
  apply count_vote_elec; [done..|by apply HG].
Qed.

Lemma on_append_reply_elec t from p c q r : keeps (on_append_reply t from p c q r).
Proof. intros n Hn. unfold on_append_reply. el_walk. Qed.
Lemma on_snapshot_reply_elec t from k r : keeps (on_snapshot_reply t from k r).
Proof. intros n Hn. unfold on_snapshot_reply. el_walk. Qed.
#[local] Hint Resolve handle_read_elec handle_request_vote_elec handle_pre_vote_elec
  handle_install_snapshot_elec handle_append_entries_elec on_pre_vote_reply_elec
  on_append_reply_elec on_snapshot_reply_elec : handlers.

(** What the rest of a static cluster guarantees about an input. *)
Definition elec_input n (i : LoopInput) : Prop :=
  match i with
  | InPropose c _ => ∀ ms, c ≠ ConfigChange ms
  | InRpc _ (AppendEntries a) => plain_log (ae_entries a)
  | InRpc _ (InstallSnapshot a) => sn_membership (is_snapshot a) = None
  | InEvent (VoteReply t from (Ok (RequestVoteResp r))) =>
      rvr_vote_granted r = true → t = cur_term n → G t from
  | _ => True
  end.

Lemma dispatch_elec i n : elec n → elec_input n i → wlp (dispatch i) (λ _, elec) n.
Proof.
  intros Hn Hi. unfold dispatch, handle_inbound. destruct i as [c r| | | |from []|ev].
  all: try by el_walk.
  - apply wpp_bind. eapply wpp_mono; [by apply handle_propose_elec|]. intros [] n' Hn'. by walk.
  - apply wpp_bind. eapply (wpp_mono _ _ (λ _, elec)); [|by intros [] n' Hn'; walk].
    unfold handle_event. simpl in Hi. destruct ev as [| |? ? ? ? ? [[]|]|? ? ? [[]|]]; try by el_walk.
    all: destruct result as [[]|]; try by el_walk. by apply on_vote_reply_elec.
Qed.

Lemma loop_step_elec t i n : elec n → elec_input n i → wlp (loop_step t i) (λ _, elec) n.
Proof.
  intros Hn Hi. unfold loop_step, publish_status, emit. walk.
  all: by apply dispatch_elec; [el_done|].
Qed.
End election_ops.
