(* ===== verification/Cluster.v ===== *)
(** * A cluster of nodes

    Nodes that exchange RPCs over a network that may lose, delay, reorder
    and duplicate: every request and response ever sent stays deliverable,
    and nothing has to be delivered. A request can also come back as a
    transport error. Nodes crash at any point of an iteration and restart
    from what they had made durable.

    [cluster_config] says how the nodes of a cluster are started: some with
    the initial members, the others to join. For clusters whose clients never
    change the configuration, [election_inv] keeps that the members stay the
    initial ones and that leaders are elected by them. *)
From S2P Require Import Prelude Types Rng Storage Node NodeSteps NodeLife NodeInv Elections.
Open Scope N_scope.

Section world.
Context `{J : SerdeJson} {SM : Type} `{!StateMachine SM} (sm0 : SM).

Record Request := MkRequest { rq_from : NodeId; rq_to : NodeId; rq_req : RpcRequest; rq_tag : SentTag }.
Record Response := MkResponse { rs_from : NodeId; rs_to : NodeId; rs_tag : SentTag; rs_resp : RpcResponse }.

(** The nodes, the messages, and the history of every vote ever written to
    a disk, as (voter, term, candidate). *)
Record World := MkWorld {
  w_nodes : gmap N (RaftNode SM);
  w_requests : list Request;
  w_responses : list Response;
  w_votes : list (NodeId * Term * NodeId);
}.
Implicit Types (w : World) (n : RaftNode SM).

Definition send_of (i : NodeId) (e : Effect) : option Request :=
  match e with SendRpc to req tag => Some (MkRequest i to req tag) | _ => None end.
Definition vote_of (i : NodeId) (e : Effect) : option (NodeId * Term * NodeId) :=
  match e with
  | Persisted s => (λ c, (i, current_term (st_hard_state s), c)) <$> voted_for (st_hard_state s)
  | _ => None
  end.

(** What node [i] can pick up next, and where the answer goes. *)
Inductive delivers (client : LoopInput → Prop) w (i : NodeId)
    : LoopInput → (option RpcResponse → list Response) → Prop :=
| deliver_local inp :
    match inp with InRpc _ _ | InEvent _ => False | _ => client inp end →
    delivers client w i inp (λ _, [])
| deliver_request rq :
    rq ∈ w_requests w → rq_to rq = i →
    delivers client w i (InRpc (rq_from rq) (rq_req rq))
      (λ r, match r with Some resp => [MkResponse i (rq_from rq) (rq_tag rq) resp] | None => [] end)
| deliver_response rs :
    rs ∈ w_responses w → rs_to rs = i →
    delivers client w i (InEvent (event_of (rs_tag rs) (rs_from rs) (Ok (rs_resp rs)))) (λ _, [])
| deliver_error rq err :
    rq ∈ w_requests w → rq_from rq = i →
    delivers client w i (InEvent (event_of (rq_tag rq) (rq_to rq) (Err err))) (λ _, []).

Definition after w (i : NodeId) (n' : RaftNode SM) (es : list Effect) (out : list Response) : World :=
  MkWorld (<[i := n']> (w_nodes w)) (w_requests w ++ omap (send_of i) es)
    (w_responses w ++ out) (w_votes w ++ omap (vote_of i) es).

Inductive w_step (client : LoopInput → Prop) : World → World → Prop :=
| world_step w i n inp out r es n' :
    w_nodes w !! i = Some n → delivers client w i inp out → node_step sm0 n inp r es n' →
    w_step client w (after w i n' es (out r)).

Definition w_init (cfg : NodeId → RaftConfig) (ids : gset N) (start : Storage) w : Prop :=
  dom (w_nodes w) = ids ∧
  (∀ i n, w_nodes w !! i = Some n → ∃ t0, spawn (cfg i) start sm0 t0 = Some n) ∧
  w_requests w = [] ∧ w_responses w = [] ∧ w_votes w = [].

Definition reachable_world (client : LoopInput → Prop) cfg ids start w : Prop :=
  ∃ w0, w_init cfg ids start w0 ∧ rtc (w_step client) w0 w.
End world.

(** ** Configurations of a cluster *)

(** Node [i] of [nodes] is configured as [i]; it boots with the members [ids]
    or is started to join, and the rules for changing the configuration are
    on. *)
Definition cluster_config (nodes ids : gset N) (cfg : NodeId → RaftConfig) : Prop := ∀ i, i ∈ nodes →
  c_id (cfg i) = i ∧ c_test_disable_reconfig_gates (cfg i) = false ∧
  (c_join (cfg i) = false → dom (bootstrap_members (cfg i)) = ids).

(** Clients that may ask for anything. *)
Definition any_client `{J : SerdeJson} (inp : LoopInput) : Prop := True.

(** ** Static clusters *)
Section safety.
Context `{J : SerdeJson} {SM : Type} `{!StateMachine SM} (sm0 : SM).
Context (ids : gset N) (cfg : NodeId → RaftConfig).
Implicit Types (w : World (SM := SM)) (n : RaftNode SM).

(** A static cluster: node [i] is configured as [i], no node joins later,
    and every node boots with the same member ids. *)
Definition static_config : Prop := ∀ i, i ∈ ids →
  c_id (cfg i) = i ∧ c_join (cfg i) = false ∧ dom (bootstrap_members (cfg i)) = ids ∧
  c_test_disable_reconfig_gates (cfg i) = false.
Lemma static_cluster : static_config → cluster_config ids ids cfg.
Proof. intros H i (? & ? & ? & ?)%H. done. Qed.

(** Clients do not change the configuration. *)
Definition static_client (inp : LoopInput) : Prop :=
  match inp with InPropose (ConfigChange _) _ => False | _ => True end.

Definition evidence w (c : NodeId) (t : Term) (v : NodeId) : Prop := (v, t, c) ∈ w_votes w.

(** The votes node [i] has backing for. *)
Record election_inv w : Prop := {
  ei_ids i n : w_nodes w !! i = Some n → i ∈ ids;
  ei_config i n : w_nodes w !! i = Some n → n_config n = cfg i;
  ei_elec i n : w_nodes w !! i = Some n → elec ids (evidence w i) (set_effects [] n);
  ei_voted i n c : w_nodes w !! i = Some n → voted_for (hs n) = Some c → (i, cur_term n, c) ∈ w_votes w;
  ei_past v t c : (v, t, c) ∈ w_votes w →
    ∃ n, w_nodes w !! v = Some n ∧ hs_le (MkHardState t (Some c)) (hs n);
  ei_once v t c c' : (v, t, c) ∈ w_votes w → (v, t, c') ∈ w_votes w → c = c';
  ei_request rq : rq ∈ w_requests w →
    send_ok ids (evidence w (rq_from rq)) (rq_from rq) [] (rq_req rq) (rq_tag rq);
  ei_response rs t r : rs ∈ w_responses w → rs_tag rs = TagVote t →
    rs_resp rs = RequestVoteResp r → rvr_vote_granted r = true →
    (rs_from rs, t, rs_to rs) ∈ w_votes w;
}.

(** *** Evidence grows *)
Lemma elected_mono (G G' : Term → NodeId → Prop) id es t :
  (∀ t v, backed G id es t v → G' t v) → elected ids G id es t → elected ids G' id [] t.
Proof.
  intros HG (Q & HQ & Hb). exists Q. split; [done|]. intros v Hv. left. by apply HG, Hb.
Qed.
Lemma send_ok_mono (G G' : Term → NodeId → Prop) id es req tag :
  (∀ t v, backed G id es t v → G' t v) →
  send_ok ids G id es req tag → send_ok ids G' id [] req tag.
Proof. intros HG. destruct req; simpl; naive_solver eauto using elected_mono. Qed.
Lemma role_backed_mono (G G' : Term → NodeId → Prop) id es t r :
  (∀ t v, backed G id es t v → G' t v) →
  role_backed ids G id es t r → role_backed ids G' id [] t r.
Proof.
  intros HG. destruct r; simpl; [done..| |by apply elected_mono].
  intros Hb v Hv. left. by apply HG, Hb.
Qed.
Lemma elec_mono (G G' : Term → NodeId → Prop) n :
  (∀ t v, backed G (self n) (n_effects n) t v → G' t v) →
  elec ids G n → elec ids G' (set_effects [] n).
Proof.
  intros HG [Hj Hb Hm Hs Hst Hr He]. split; nsimpl; try done.
  - by eapply role_backed_mono.
  - intros pre e [k Hk]. destruct pre; discriminate Hk.
Qed.

Lemma spawn_elec G c s t0 n :
  static_storage s → c_join c = false → dom (bootstrap_members c) = ids →
  spawn c s sm0 t0 = Some n → elec ids G (set_effects [] n).
Proof.
  intros Hs Hj Hb Hsp. destruct (spawn_storage _ _ _ _ _ Hsp) as (_ & _ & _ & _ & Ee).
  unfold spawn in Hsp.
  destruct (match st_snapshot s with Some _ => _ | None => _ end) as [sm|]; [|done].
  simpl in Hsp. rewrite (derive_static _ _ Hs Hj) in Hsp.
  match type of Hsp with context [reset_election_timer ?m] =>
    assert (elec ids G m) as Hm; [|pose proof (reset_election_timer_elec ids G m Hm) as Hw] end.
  { split; nsimpl; try done. intros pre e [k Hk]. destruct pre; discriminate Hk. }
  unfold wpp in Hw. destruct (reset_election_timer _) as [[[] m]|]; [|discriminate Hsp].
  simpl in Hsp. injection Hsp as ->. eapply elec_mono; [|exact Hw]. rewrite Ee.
  intros t v [?|(_ & s' & Hin & _)]; [done|]. by apply elem_of_nil in Hin.
Qed.

(** *** One step of one node *)
Lemma durable_static G id s es :
  static_storage s → effects_ok ids G id es → static_storage (durable s es).
Proof.
  intros Hs He. destruct (durable_cases s es) as [->|Hin]; [done|].
  apply list_elem_of_split in Hin as (pre & post & Hes).
  specialize (He pre (Persisted (durable s es))). simpl in He. apply He.
  exists post. by rewrite <-app_assoc.
Qed.

Lemma left_static G id s es pre s' :
  static_storage s → effects_ok ids G id es → left_by s es pre s' → static_storage s'.
Proof.
  intros Hs He [Hp ->|x Hp Ht].
  - apply (durable_static G id); [done|]. intros p e Hpe. apply He. by etrans.
  - eapply torn_static; [exact Ht|]. exact (He _ _ Hp).
Qed.

Lemma effects_ok_prefix G id pre es :
  pre `prefix_of` es → effects_ok ids G id es → effects_ok ids G id pre.
Proof. intros Hp He p e Hpe. apply He. by etrans. Qed.

(** A step of node [i] keeps its own invariant under the new evidence, and
    everything it sends is backed by it. *)
Lemma node_step_elec G G' n inp r es n' :
  elec ids G (set_effects [] n) → elec_input G n inp → node_step sm0 n inp r es n' →
  (∀ t v, backed G (self n) es t v → G' t v) →
  elec ids G' (set_effects [] n') ∧
  ∀ rq, rq ∈ omap (send_of (self n)) es → send_ok ids G' (self n) [] (rq_req rq) (rq_tag rq) ∧ rq_from rq = self n.
Proof.
  intros Hn Hi Hstep HG.
  assert (elec ids G' (set_effects [] n') ∧ effects_ok ids G (self n) es) as [Hn' He].
  { destruct Hstep as [t r n' _ Hr|t r m pre s t0 n'' _ Hr Hleft Hsp].
    all: pose proof (loop_step_elec ids G t inp _ Hn Hi) as Hw; unfold wpp in Hw; rewrite Hr in Hw.
    all: pose proof (loop_step_hs _ _ _ _ _ Hr) as (Ec & _).
    - assert (self n' = self n) as Es by (unfold self; by rewrite Ec).
      split; [eapply elec_mono; [|exact Hw]; by rewrite Es|]. rewrite <-Es. apply Hw.
    - assert (self m = self n) as Es by (unfold self; by rewrite Ec).
      assert (effects_ok ids G (self n) (n_effects m)) as Hme by (rewrite <-Es; apply Hw).
      split; [|eapply effects_ok_prefix; [by eapply left_by_prefix|done]].
      destruct Hn as [Hj Hb _ Hs _ _ _]. nsimpl.
      eapply spawn_elec; [|done..|exact Hsp]. by eapply left_static. }
  split; [done|]. intros rq (e & Hin & Hrq)%list_elem_of_omap.
  destruct e as [|to req tag| | | | | | | |]; simplify_eq/=. split; [|done].
  apply list_elem_of_split in Hin as (pre & post & ->).
  eapply send_ok_mono; [|apply (He pre (SendRpc to req tag)); exists post; by rewrite <-app_assoc].
  intros t v Hb. apply HG. by apply backed_app.
Qed.

(** The vote a node holds is one it has written. *)
Lemma durable_vote i s es c :
  voted_for (st_hard_state (durable s es)) = Some c →
  voted_for (st_hard_state s) = Some c ∧ durable s es = s ∨
  (i, current_term (st_hard_state (durable s es)), c) ∈ omap (vote_of i) es.
Proof.
  intros Hv. destruct (durable_cases s es) as [E|Hin]; [left; by rewrite E in Hv|right].
  apply list_elem_of_omap. exists (Persisted (durable s es)). split; [done|]. simpl. by rewrite Hv.
Qed.

Lemma writes_between_vote i h es h' t c :
  writes_between h es h' → (i, t, c) ∈ omap (vote_of i) es →
  hs_le h (MkHardState t (Some c)) ∧ hs_le (MkHardState t (Some c)) h'.
Proof.
  revert h. induction es as [|e es IH]; intros h Hw Hin; [by apply elem_of_nil in Hin|].
  apply list_elem_of_omap in Hin as (e' & [->|Hin]%elem_of_cons & He').
  - destruct e; simplify_eq/=. apply fmap_Some in He' as (c' & Hv & [= -> ->]).
    destruct Hw as [Hle Hw%writes_between_le]. destruct (st_hard_state s) as [t' v']; simpl in *. subst v'.
    done.
  - assert ((i, t, c) ∈ omap (vote_of i) es) as Hin' by (apply list_elem_of_omap; eauto).
    destruct e; simpl in Hw; try by apply IH. destruct Hw as [Hle Hw].
    destruct (IH _ Hw Hin'). split; [by etrans|done].
Qed.

Lemma writes_between_once i h es h' t c c' :
  writes_between h es h' → (i, t, c) ∈ omap (vote_of i) es → (i, t, c') ∈ omap (vote_of i) es → c = c'.
Proof.
  revert h. induction es as [|e es IH]; intros h Hw H1 H2; [by apply elem_of_nil in H1|].
  assert (∀ c0, (i, t, c0) ∈ omap (vote_of i) (e :: es) →
    (∃ s, e = Persisted s ∧ st_hard_state s = MkHardState t (Some c0)) ∨
    (i, t, c0) ∈ omap (vote_of i) es) as Hcase.
  { intros c0 (e' & [->|Hin]%elem_of_cons & He')%list_elem_of_omap; [left|right; apply list_elem_of_omap; eauto].
    destruct e; simplify_eq/=. apply fmap_Some in He' as (c1 & Hv & [= -> ->]).
    eexists. split; [done|]. destruct (st_hard_state s); simpl in *. by subst. }
  apply Hcase in H1 as [(s & -> & E1)|H1]; apply Hcase in H2 as [(s' & E & E2)|H2'].
  - simplify_eq. rewrite E1 in E2. by simplify_eq.
  - destruct Hw as [_ Hw]. destruct (writes_between_vote _ _ _ _ _ _ Hw H2') as [Hle _].
    rewrite E1 in Hle. by eapply hs_le_same_vote.
  - subst e. destruct Hw as [_ Hw]. destruct (writes_between_vote _ _ _ _ _ _ Hw H1) as [Hle _].
    rewrite E2 in Hle. symmetry. by eapply hs_le_same_vote.
  - destruct e; simpl in Hw; try by eapply IH. destruct Hw as [_ Hw]. by eapply IH.
Qed.

(** *** The invariant is inductive *)
Lemma init_inv start w :
  static_config → static_storage start → voted_for (st_hard_state start) = None →
  w_init sm0 cfg ids start w → election_inv w.
Proof.
  intros Hcfg Hst Hv (Hdom & Hspawn & Hrq & Hrs & Hvs).
  assert (∀ i n, w_nodes w !! i = Some n → i ∈ ids) as Hids
    by (intros i n Hi; rewrite <-Hdom; by eapply elem_of_dom_2).
  split; rewrite ?Hrq, ?Hrs, ?Hvs; try done; try (intros; by match goal with H : _ ∈ [] |- _ => apply elem_of_nil in H end).
  - intros i n Hi. destruct (Hspawn i n Hi) as [t0 Hs]. by apply spawn_storage in Hs as (_ & ? & _).
  - intros i n Hi. destruct (Hspawn i n Hi) as [t0 Hs]. destruct (Hcfg i (Hids i n Hi)) as (_ & Hj & Hb & _).
    by eapply spawn_elec.
  - intros i n c Hi Hc. destruct (Hspawn i n Hi) as [t0 Hs]. apply spawn_storage in Hs as (Es & _).
    unfold hs in Hc. rewrite Es, Hv in Hc. done.
Qed.

(** Inputs are backed by the invariant. *)
Lemma delivers_input w i n inp out :
  election_inv w → w_nodes w !! i = Some n → self n = i →
  delivers static_client w i inp out → elec_input (evidence w i) n inp.
Proof.
  intros [_ _ _ _ _ _ Hrq Hrs] Hi Hself.
  destruct 1 as [inp Hc|rq Hin Hto|rs Hin Hto|rq err Hin Hfrom].
  - destruct inp as [[]| | | | |]; done.
  - specialize (Hrq rq Hin). simpl. destruct (rq_req rq); simpl in *; try done; naive_solver.
  - simpl. destruct (rs_tag rs) as [| t| |] eqn:Et; simpl; try done.
    destruct (rs_resp rs) as [r| | |] eqn:Er; try done. intros Hg _. rewrite <-Hto. by eapply Hrs.
  - simpl. by destruct (rq_tag rq).
Qed.

Lemma backed_evidence w i n' es out t v :
  backed (evidence w i) i es t v → evidence (after w i n' es out) i t v.
Proof.
  unfold evidence. simpl. rewrite elem_of_app. intros [?|(-> & s & Hin & Hs)]; [by left|right].
  apply list_elem_of_omap. exists (Persisted s). split; [done|]. simpl. by rewrite Hs.
Qed.

(** Evidence for the other nodes only grows. *)
Lemma evidence_after w i n' es out c t v :
  evidence w c t v → evidence (after w i n' es out) c t v.
Proof. unfold evidence. simpl. rewrite elem_of_app. by left. Qed.

Lemma step_votes w i n n' inp r es out :
  election_inv w → w_nodes w !! i = Some n → node_step sm0 n inp r es n' →
  (∀ v t c, (v, t, c) ∈ w_votes (after w i n' es out) →
     ∃ m, <[i := n']> (w_nodes w) !! v = Some m ∧ hs_le (MkHardState t (Some c)) (hs m)) ∧
  (∀ v t c c', (v, t, c) ∈ w_votes (after w i n' es out) →
     (v, t, c') ∈ w_votes (after w i n' es out) → c = c') ∧
  (∀ c, voted_for (hs n') = Some c → (i, cur_term n', c) ∈ w_votes (after w i n' es out)).
Proof.
  intros [_ _ _ Hvoted Hpast Honce _ _] Hi Hstep.
  destruct (node_step_writes _ _ _ _ _ _ Hstep) as (Hw & _ & Hs').
  assert (∀ v t c, (v, t, c) ∈ omap (vote_of i) es → v = i) as Hown.
  { intros v t c (e & _ & He)%list_elem_of_omap. destruct e; simplify_eq/=.
    by apply fmap_Some in He as (? & _ & [= -> _ _]). }
  assert (∀ t c, (i, t, c) ∈ w_votes w → hs_le (MkHardState t (Some c)) (hs n)) as Hold.
  { intros t c Hin. destruct (Hpast _ _ _ Hin) as (m & Hm & Hle). by simplify_eq. }
  simpl. split; [|split].
  - intros v t c [Hin|Hin]%elem_of_app.
    + destruct (Hpast _ _ _ Hin) as (m & Hm & Hle). destruct (decide (v = i)) as [->|Hne].
      * simplify_eq. exists n'. rewrite lookup_insert_eq. split; [done|]. etrans; [done|].
        by eapply writes_between_le.
      * exists m. by rewrite lookup_insert_ne.
    + pose proof (Hown _ _ _ Hin) as ->. exists n'. rewrite lookup_insert_eq. split; [done|].
      by eapply writes_between_vote.
  - intros v t c c' [H1|H1]%elem_of_app [H2|H2]%elem_of_app.
    + by eapply Honce.
    + pose proof (Hown _ _ _ H2) as ->. eapply hs_le_same_vote. etrans; [by apply Hold|].
      by eapply writes_between_vote.
    + pose proof (Hown _ _ _ H1) as ->. symmetry. eapply hs_le_same_vote. etrans; [by apply Hold|].
      by eapply writes_between_vote.
    + pose proof (Hown _ _ _ H1) as ->. by eapply writes_between_once.
  - intros c Hc. unfold cur_term. fold (hs n'). rewrite Hs' in *. apply elem_of_app.
    destruct (durable_vote i _ _ _ Hc) as [[Hv E]|Hin]; [left|by right].
    rewrite E. by apply Hvoted.
Qed.

(** A granted answer records the vote of its sender. *)
Lemma step_response w i n n' inp r es out rs t rep :
  election_inv w → w_nodes w !! i = Some n → node_step sm0 n inp r es n' →
  delivers static_client w i inp out → rs ∈ out r → rs_tag rs = TagVote t →
  rs_resp rs = RequestVoteResp rep → rvr_vote_granted rep = true →
  rs_from rs = i ∧ hs n' = MkHardState t (Some (rs_to rs)).
Proof.
  intros Hinv Hi Hstep Hdel Hin Ht Hr Hg. destruct Hdel as [| rq Hrq Hto | |]; [by apply elem_of_nil in Hin| |by apply elem_of_nil in Hin..].
  destruct r as [resp|]; [|by apply elem_of_nil in Hin]. apply list_elem_of_singleton in Hin as ->. simpl in *.
  pose proof (ei_request _ Hinv rq Hrq) as Hok. split; [done|].
  destruct (rq_req rq) as [args|args|args|args] eqn:Ereq; simpl in Hok; rewrite Ht in Hok; try naive_solver.
  destruct Hok as [[= ->] <-]. subst resp.
  by eapply node_step_granted; [exact Hstep|left|].
Qed.

Lemma step_inv w w' : static_config → election_inv w → w_step sm0 static_client w w' → election_inv w'.
Proof.
  intros Hcfg Hinv Hstep. destruct Hstep as [w i n inp out r es n' Hi Hdel Hstep].
  pose proof Hinv as [Hids Hconf Helec _ _ _ Hrq Hrs].
  destruct (Hcfg i (Hids i n Hi)) as (Hid & Hj & Hb & _).
  assert (self n = i) as Hself by (unfold self; by rewrite (Hconf i n Hi)).
  pose proof (delivers_input _ _ _ _ _ Hinv Hi Hself Hdel) as Hin.
  pose proof (step_votes w i n n' inp r es (out r) Hinv Hi Hstep) as (Hpast' & Honce' & Hvoted').
  destruct (node_step_elec (evidence w i) (evidence (after w i n' es (out r)) i) n inp r es n')
    as [Hn' Hsends]; [by apply Helec|done|done|rewrite Hself; intros; by apply backed_evidence|].
  destruct (node_step_writes _ _ _ _ _ _ Hstep) as (_ & Ec & _). rewrite Hself in Hsends.
  split; cbn [w_nodes w_requests w_responses w_votes after]; try done.
  - intros j m [[<- <-]|[_ Hm]]%lookup_insert_Some; [by eapply Hids|by eapply Hids].
  - intros j m [[<- <-]|[_ Hm]]%lookup_insert_Some; [rewrite Ec; by apply Hconf|by apply Hconf].
  - intros j m [[<- <-]|[_ Hm]]%lookup_insert_Some; [done|].
    eapply (elec_mono (evidence w j) _ (set_effects [] m)); [|by apply Helec].
    intros t v [?|(_ & s & Hs & _)]; [by apply evidence_after|by apply elem_of_nil in Hs].
  - intros j m c [[<- <-]|[_ Hm]]%lookup_insert_Some Hc; [by apply Hvoted'|].
    apply elem_of_app. left. by eapply ei_voted.
  - intros rq [Hrq'|Hrq']%elem_of_app.
    + eapply send_ok_mono; [|by apply Hrq]. intros t v [?|(_ & s & Hs & _)]; [by apply evidence_after|by apply elem_of_nil in Hs].
    + destruct (Hsends rq Hrq') as [Hok ->]. done.
  - intros rs t rep [Hrs'|Hrs']%elem_of_app Ht Hr Hg; [apply elem_of_app; left; by eapply Hrs|].
    destruct (step_response _ _ _ _ _ _ _ _ _ _ _ Hinv Hi Hstep Hdel Hrs' Ht Hr Hg) as [-> Hh].
    pose proof (Hvoted' (rs_to rs)) as Hv. unfold cur_term in Hv. fold (hs n') in Hv. rewrite Hh in Hv. by apply Hv.
Qed.

Lemma reachable_inv start w :
  static_config → static_storage start → voted_for (st_hard_state start) = None →
  reachable_world sm0 static_client cfg ids start w → election_inv w.
Proof.
  intros Hcfg Hst Hv (w0 & Hinit & Hsteps).
  assert (election_inv w0) as H0 by by eapply init_inv.
  clear Hinit. induction Hsteps as [w|w1 w2 w3 Hstep _ IH]; [done|]. apply IH. by eapply step_inv.
Qed.

(** Node [i] acts as the leader of term [t]: it is in the leader role, or
    it has sent an RPC that only the leader of [t] sends. *)
Inductive leads w (t : Term) (i : NodeId) : Prop :=
| leads_role n l :
    w_nodes w !! i = Some n → n_role n = Leader l → cur_term n = t → leads w t i
| leads_append rq a :
    rq ∈ w_requests w → rq_req rq = AppendEntries a → ae_term a = t → ae_leader_id a = i → leads w t i
| leads_snapshot rq a :
    rq ∈ w_requests w → rq_req rq = InstallSnapshot a → is_term a = t → is_leader_id a = i → leads w t i.

Lemma leads_elected w t i : static_config → election_inv w → leads w t i → elected ids (evidence w i) i [] t.
Proof.
  intros Hcfg [Hids Hconf Helec _ _ _ Hrq _]. destruct 1 as [n l Hi Hl Ht|rq a Hin Hr Ht Hl|rq a Hin Hr Ht Hl].
  - pose proof (el_role _ _ _ (Helec i n Hi)) as Hrole. nsimpl. rewrite Hl in Hrole. simpl in Hrole.
    assert (self n = i) as Hself.
    { unfold self. rewrite (Hconf i n Hi). by apply Hcfg, (Hids i n). }
    unfold self in *. nsimpl. rewrite Hself in Hrole. by subst t.
  - specialize (Hrq rq Hin). rewrite Hr in Hrq. destruct Hrq as (_ & Hid & He & _).
    rewrite Hl in Hid. by subst.
  - specialize (Hrq rq Hin). rewrite Hr in Hrq. destruct Hrq as (_ & Hid & He & _).
    rewrite Hl in Hid. by subst.
Qed.

(** Election Safety, for any storage without votes to start from. *)
Lemma static_election_safety start w t i j :
  static_config → static_storage start → voted_for (st_hard_state start) = None →
  reachable_world sm0 static_client cfg ids start w →
  leads w t i → leads w t j → i = j.
Proof.
  intros Hcfg Hst Hv Hr Hi Hj. pose proof (reachable_inv _ _ Hcfg Hst Hv Hr) as Hinv.
  destruct (leads_elected _ _ _ Hcfg Hinv Hi) as (Q1 & HQ1 & Hb1).
  destruct (leads_elected _ _ _ Hcfg Hinv Hj) as (Q2 & HQ2 & Hb2).
  destruct (quorums_meet _ _ _ HQ1 HQ2) as (v & Hv1 & Hv2).
  destruct (Hb1 v Hv1) as [E1|(_ & s & Hs & _)]; [|by apply elem_of_nil in Hs].
  destruct (Hb2 v Hv2) as [E2|(_ & s & Hs & _)]; [|by apply elem_of_nil in Hs].
  by eapply ei_once.
Qed.
End safety.
