(* ===== verification/Runs.v ===== *)
(** * Running a cluster

    An executable scheduler for [Cluster]: a schedule is a list of actions,
    and every schedule that executes is a sequence of steps of the cluster.
    It shows that the theorems on [Cluster] are about worlds that exist,
    replays a schedule in which a write that was reported as superseded is
    committed afterwards, one in which a node joins, takes over the
    leadership and removes its predecessor, and one that shows why the rules
    for changes are needed. *)
From S2P Require Import Prelude Types Rng Storage Node NodeSteps NodeLife NodeInv NodeThm.
From S2P Require Import Elections Cluster.
Open Scope N_scope.

Section schedule.
Context `{J : SerdeJson} {SM : Type} `{!StateMachine SM} (sm0 : SM).
Implicit Types w : World (SM := SM).

(** A timer or a client on a node; the delivery of the last message from
    one node to another; a crash and restart between two iterations. *)
Inductive Action :=
| ALocal (t : Instant) (i : NodeId) (inp : LoopInput)
| ARequest (t : Instant) (from to : NodeId)
| AResponse (t : Instant) (from to : NodeId)
| ARestart (t : Instant) (i : NodeId).

Definition last_request w (from to : NodeId) : option Request :=
  last (filter (λ rq, rq_from rq = from ∧ rq_to rq = to) (w_requests w)).
Definition last_response w (from to : NodeId) : option Response :=
  last (filter (λ rs, rs_from rs = from ∧ rs_to rs = to) (w_responses w)).

Definition is_local (inp : LoopInput) : bool :=
  match inp with
  | InRpc _ _ | InEvent _ | InPropose (ConfigChange _) _ => false
  | _ => true
  end.

Definition run_node w (t : Instant) (i : NodeId) (inp : LoopInput)
    (out : option RpcResponse → list Response) : option World :=
  n ← w_nodes w !! i;
  if enabled t inp n then
    '(r, n') ← loop_step t inp (set_effects [] n);
    Some (after w i n' (n_effects n') (out r))
  else None.

Definition act w (a : Action) : option World :=
  match a with
  | ALocal t i inp => if is_local inp then run_node w t i inp (λ _, []) else None
  | ARequest t from to =>
      rq ← last_request w from to;
      run_node w t to (InRpc from (rq_req rq))
        (λ r, match r with Some resp => [MkResponse to from (rq_tag rq) resp] | None => [] end)
  | AResponse t from to =>
      rs ← last_response w from to;
      run_node w t to (InEvent (event_of (rs_tag rs) from (Ok (rs_resp rs)))) (λ _, [])
  | ARestart t i =>
      n ← w_nodes w !! i;
      _ ← loop_step t (InRead 0) (set_effects [] n);
      n' ← spawn (n_config n) (n_storage n) sm0 t;
      Some (after w i n' [] [])
  end.

Fixpoint acts w (l : list Action) : option World :=
  match l with
  | [] => Some w
  | a :: l => w' ← act w a; acts w' l
  end.

(** Schedules whose local inputs a client may give. *)
Definition allowed (client : LoopInput → Prop) (a : Action) : Prop :=
  match a with ALocal _ _ inp => client inp | ARestart _ _ => client (InRead 0) | _ => True end.

Lemma run_node_step client w t i inp out w' :
  delivers client w i inp out → run_node w t i inp out = Some w' → w_step sm0 client w w'.
Proof.
  intros Hd. unfold run_node. destruct (w_nodes w !! i) as [n|] eqn:Hi; simpl; [|done].
  destruct (enabled t inp n) eqn:He; [|done].
  destruct (loop_step t inp (set_effects [] n)) as [[r n']|] eqn:Hl; simpl; [|done].
  intros [= <-]. by eapply world_step; [| |eapply step_run].
Qed.

Lemma last_filter_elem {A} (P : A → Prop) `{!∀ x, Decision (P x)} l x :
  last (filter P l) = Some x → P x ∧ x ∈ l.
Proof.
  intros Hl%last_Some_elem_of. by apply list_elem_of_filter in Hl.
Qed.

Lemma act_step client w a w' : act w a = Some w' → allowed client a → w_step sm0 client w w'.
Proof.
  destruct a as [t i inp|t from to|t from to|t i]; simpl.
  - destruct (is_local inp) eqn:Hl; [|done]. intros Hr Hc. eapply run_node_step; [|done].
    constructor. by destruct inp as [[]| | | | |].
  - destruct (last_request w from to) as [rq|] eqn:Hr; simpl; [|done].
    apply last_filter_elem in Hr as [[<- <-] Hin]. intros Hr _. eapply run_node_step; [|done]. by constructor.
  - destruct (last_response w from to) as [rs|] eqn:Hr; simpl; [|done].
    apply last_filter_elem in Hr as [[<- <-] Hin]. intros Hr _. eapply run_node_step; [|done]. by constructor.
  - destruct (w_nodes w !! i) as [n|] eqn:Hi; simpl; [|done].
    destruct (loop_step t (InRead 0) (set_effects [] n)) as [[r m]|] eqn:Hl; simpl; [|done].
    destruct (spawn (n_config n) (n_storage n) sm0 t) as [n'|] eqn:Hs; simpl; [|done].
    intros [= <-] Hc.
    change (after w i n' [] []) with (after w i n' [] ((λ _ : option RpcResponse, []) None)).
    eapply world_step; [done|by apply (deliver_local _ _ _ (InRead 0))|].
    by eapply step_crash; [| |apply left_start|].
Qed.

Lemma acts_client client w l w' :
  acts w l = Some w' → Forall (allowed client) l → rtc (w_step sm0 client) w w'.
Proof.
  revert w. induction l as [|a l IH]; intros w; simpl; [by intros [= ->]|].
  destruct (act w a) as [w1|] eqn:Ha; simpl; [|done]. intros Hl [Hc Hcs]%Forall_cons.
  eapply rtc_l; [by eapply act_step|by apply IH].
Qed.

(** What executes never changes the membership. *)
Lemma act_static w a w' : act w a = Some w' → allowed static_client a.
Proof.
  destruct a as [t i inp| | |]; simpl; [|done..]. by destruct inp as [[]| | | | |].
Qed.
Lemma acts_rtc w l w' : acts w l = Some w' → rtc (w_step sm0 static_client) w w'.
Proof.
  intros Hl. eapply acts_client; [exact Hl|]. revert w Hl. induction l as [|a l IH]; intros w; simpl; [done|].
  destruct (act w a) as [w1|] eqn:Ha; simpl; [|done]. intros Hl. apply Forall_cons.
  split; [by eapply act_static|by eapply IH].
Qed.

Lemma acts_any w l w' : acts w l = Some w' → rtc (w_step sm0 any_client) w w'.
Proof.
  intros Hl. eapply acts_client; [exact Hl|]. apply Forall_forall. by intros [] _.
Qed.

(** A client proposes a new configuration to node [i]. *)
Definition reconfigure w (t : Instant) (i : NodeId) (ms : Membership) (ch : N) : option World :=
  run_node w t i (InPropose (ConfigChange ms) ch) (λ _, []).
Lemma reconfigure_step (client : LoopInput → Prop) w t i ms ch w' :
  client (InPropose (ConfigChange ms) ch) → reconfigure w t i ms ch = Some w' → w_step sm0 client w w'.
Proof. intros Hc. apply run_node_step. by constructor. Qed.

(** The cluster at boot. *)
Fixpoint boot_nodes (cfg : NodeId → RaftConfig) (start : Storage) (l : list NodeId)
    : gmap N (RaftNode SM) :=
  match l with
  | [] => ∅
  | i :: l =>
      match spawn (cfg i) start sm0 0 with
      | Some n => <[i := n]> (boot_nodes cfg start l)
      | None => boot_nodes cfg start l
      end
  end.
Definition boot cfg start l : World := MkWorld (boot_nodes cfg start l) [] [] [].

Lemma boot_init cfg start l :
  (∀ i, i ∈ l → is_Some (spawn (SM := SM) (cfg i) start sm0 0)) →
  w_init sm0 cfg (list_to_set l) start (boot cfg start l).
Proof.
  intros Hsp. split; [|split; [|done]]; simpl.
  - induction l as [|i l IH]; simpl; [by rewrite dom_empty_L|].
    destruct (Hsp i) as [n Hn]; [left|]. rewrite Hn, dom_insert_L, IH; [done|].
    intros j Hj. apply Hsp. by right.
  - clear Hsp. induction l as [|i l IH]; simpl; intros j n Hj; [by apply lookup_empty_Some in Hj|].
    destruct (spawn (cfg i) start sm0 0) as [m|] eqn:Hm; [|by apply IH].
    apply lookup_insert_Some in Hj as [[<- <-]|[_ Hj]]; [by eexists|by apply IH].
Qed.
End schedule.

(** ** Schedules of five nodes *)
Section five.
#[local] Existing Instances numeric_json counter_sm.

Definition five : list NodeId := [1; 2; 3; 4; 5].
Definition cfg5 (i : NodeId) : RaftConfig := RaftConfig_new i (filter (λ j, j ≠ i) five).
Definition boot5 : World (SM := N) := boot 0 cfg5 blank_storage five.

(** Node [i] runs for leader of the next term at [t] milliseconds, with the
    votes of [a] and [b]. *)
Definition campaign (t : N) (i a b : NodeId) : list Action :=
  [ALocal (from_millis t) i InElectionTimeout;
   ARequest (from_millis (t + 1)) i a; ARequest (from_millis (t + 1)) i b;
   AResponse (from_millis (t + 2)) a i; AResponse (from_millis (t + 2)) b i;
   ARequest (from_millis (t + 3)) i a; ARequest (from_millis (t + 3)) i b;
   AResponse (from_millis (t + 4)) a i; AResponse (from_millis (t + 4)) b i].

Definition the_write : Command := Put "k" (jv 5) None.

(** Node 1 leads term 1; its no-op reaches everyone; a client's write
    reaches node 2 only. Node 3 leads term 2 and its no-op reaches node 1,
    which cuts the write off and reports it as superseded. *)
Definition superseded : list Action :=
  campaign 400 1 2 3 ++
  [ARequest (from_millis 405) 1 2; ARequest (from_millis 405) 1 3;
   ARequest (from_millis 405) 1 4; ARequest (from_millis 405) 1 5;
   ALocal (from_millis 406) 1 (InPropose the_write 100);
   ARequest (from_millis 407) 1 2] ++
  campaign 800 3 4 5 ++
  [ARequest (from_millis 805) 3 1].

(** Node 3 goes silent. Node 2 learns term 2, leads term 3, and replicates
    its log, the write included, to nodes 4 and 5. *)
Definition committed_after : list Action :=
  [ALocal (from_millis 1200) 2 InElectionTimeout;
   ARequest (from_millis 1201) 2 4; AResponse (from_millis 1202) 4 2] ++
  campaign 1600 2 4 5 ++
  [ARequest (from_millis 1605) 2 4; AResponse (from_millis 1606) 4 2;
   ARequest (from_millis 1605) 2 5; AResponse (from_millis 1606) 5 2;
   ARequest (from_millis 1607) 2 4; AResponse (from_millis 1608) 4 2;
   ARequest (from_millis 1607) 2 5; AResponse (from_millis 1608) 5 2].

Definition ids5 : gset N := list_to_set five.

Lemma cfg5_static : static_config ids5 cfg5.
Proof.
  intros i Hi. assert (i ∈ five) as Hi' by (by apply elem_of_list_to_set in Hi).
  unfold five in Hi'. repeat (apply elem_of_cons in Hi' as [->|Hi']; [by vm_compute|]).
  by apply elem_of_nil in Hi'.
Qed.

Lemma boot5_init : w_init 0 cfg5 ids5 blank_storage boot5.
Proof.
  apply boot_init. intros i Hi.
  unfold five in Hi. repeat (apply elem_of_cons in Hi as [->|Hi]; [eexists; vm_compute; reflexivity|]).
  by apply elem_of_nil in Hi.
Qed.

Lemma acts_reachable l w :
  acts 0 boot5 l = Some w → reachable_world 0 static_client cfg5 ids5 blank_storage w.
Proof. intros Hl. exists boot5. split; [exact boot5_init|]. by eapply acts_rtc. Qed.

Lemma blank_static : static_storage blank_storage.
Proof. split; [|done]. by intros e ?%elem_of_nil. Qed.

Definition world_after (l : list Action) : World (SM := N) := default boot5 (acts 0 boot5 l).

(** [C27] A write that was answered with [false] can still commit. There is a
    reachable state of a five-node cluster in which node 1 has just told the
    client that its write was superseded, and a continuation in which the
    very same log entry (index 2, term 1) is committed and applied by the
    leader of a later term. *)
Theorem superseded_write_commits :
  ∃ w1 w2 n1 n2, reachable_world 0 static_client cfg5 ids5 blank_storage w1 ∧
    w_nodes w1 !! 1 = Some n1 ∧ Committed 100 false ∈ n_effects n1 ∧
    rtc (w_step 0 static_client) w1 w2 ∧
    w_nodes w2 !! 2 = Some n2 ∧ is_leader n2 = true ∧
    entry (n_storage n2) 2 = Some (MkLogEntry 1 2 the_write) ∧ 2 ≤ n_last_applied n2.
Proof.
  set (w1 := world_after superseded).
  set (w2 := default boot5 (acts 0 w1 committed_after)).
  assert (acts 0 boot5 superseded = Some w1) as H1 by (vm_compute; reflexivity).
  assert (acts 0 w1 committed_after = Some w2) as H2 by (vm_compute; reflexivity).
  exists w1, w2. eexists _, _.
  split; [exact (acts_reachable _ _ H1)|]. split; [vm_compute; reflexivity|].
  split; [vm_compute; do 3 right; left|]. split; [exact (acts_rtc 0 _ _ _ H2)|].
  split; [vm_compute; reflexivity|]. split; [vm_compute; reflexivity|].
  split; [vm_compute; reflexivity|]. vm_compute. discriminate.
Qed.
End five.

(** ** Without the rules for changes *)
Section ungated.
#[local] Existing Instances numeric_json counter_sm.

(** The five nodes with [test_disable_reconfig_gates] set. *)
Definition loose5 (i : NodeId) : RaftConfig :=
  let c := cfg5 i in
  MkRaftConfig (c_id c) (c_peers c) (c_election_timeout_min c) (c_election_timeout_max c) (c_heartbeat_interval c)
    (c_timeout_seed c) (c_snapshot_threshold c) (c_snapshot_trailing c) (c_bootstrap_addrs c) (c_join c) true.
Definition boot_loose : World (SM := N) := boot 0 loose5 blank_storage five.
Definition with_ids (l : list NodeId) : Membership := list_to_map ((λ i, (i, MemberAddr_default)) <$> l).

(** Node 1 leads term 1 and drops node 5 and then, without waiting for that to
    be committed, node 4; only node 2 hears of it. After node 1 has stepped
    down, its vote is enough for node 2 to lead term 2 over nodes 1, 2 and 3,
    while nodes 3, 4 and 5 elect node 4 as one of five. *)
Definition agreed : list Action :=
  campaign 400 1 2 3 ++
  concat ((λ j, [ARequest (from_millis 405) 1 j; AResponse (from_millis 406) j 1]) <$> [2; 3; 4; 5]).
Definition parted : list Action :=
  [ARequest (from_millis 412) 1 2; ALocal (from_millis 900) 1 InHeartbeat;
   ALocal (from_millis 1300) 2 InElectionTimeout;
   ARequest (from_millis 1301) 2 1; AResponse (from_millis 1302) 1 2;
   ARequest (from_millis 1303) 2 1; AResponse (from_millis 1304) 1 2] ++
  campaign 1300 4 3 5.
Definition loose_agreed : World (SM := N) := default boot_loose (acts 0 boot_loose agreed).
Definition first_drop : World (SM := N) :=
  default boot_loose (reconfigure loose_agreed (from_millis 410) 1 (with_ids [1; 2; 3; 4]) 9).
Definition second_drop : World (SM := N) :=
  default boot_loose (reconfigure first_drop (from_millis 411) 1 (with_ids [1; 2; 3]) 10).
Definition split_brain : World (SM := N) := default boot_loose (acts 0 second_drop parted).

(** The rules are needed: without them two nodes can lead one term, although
    every change is of a single server. *)
Theorem gates_needed :
  reachable_world 0 any_client loose5 ids5 blank_storage split_brain ∧
  leads split_brain 2 2 ∧ leads split_brain 2 4.
Proof.
  split; [|split].
  - exists boot_loose. split.
    { apply boot_init. intros i Hi. unfold five in Hi.
      repeat (apply elem_of_cons in Hi as [->|Hi]; [eexists; vm_compute; reflexivity|]). by apply elem_of_nil in Hi. }
    transitivity loose_agreed; [apply (acts_any 0 _ agreed); vm_compute; reflexivity|].
    apply (rtc_l _ _ first_drop).
    { apply (reconfigure_step 0 _ _ (from_millis 410) 1 (with_ids [1; 2; 3; 4]) 9); [done|]. vm_compute. reflexivity. }
    apply (rtc_l _ _ second_drop).
    { apply (reconfigure_step 0 _ _ (from_millis 411) 1 (with_ids [1; 2; 3]) 10); [done|]. vm_compute. reflexivity. }
    apply (acts_any 0 _ parted). vm_compute. reflexivity.
  - eapply leads_role; vm_compute; reflexivity.
  - eapply leads_role; vm_compute; reflexivity.
Qed.
End ungated.

(** ** A change of membership *)
Section joining.
#[local] Existing Instances numeric_json counter_sm.

(** Nodes 1, 2 and 3 start as members; node 4 is started to join. *)
Definition trio : list NodeId := [1; 2; 3].
Definition ids3 : gset N := list_to_set trio.
Definition nodes4 : gset N := list_to_set [1; 2; 3; 4].
Definition joiner (i : NodeId) : RaftConfig :=
  MkRaftConfig i [] (from_millis 150) (from_millis 300) (from_millis 50) i None 0 ∅ true false.
Definition cfg4 (i : NodeId) : RaftConfig :=
  if bool_decide (i ∈ trio) then RaftConfig_new i (filter (λ j, j ≠ i) trio) else joiner i.
Definition boot4 : World (SM := N) := boot 0 cfg4 blank_storage [1; 2; 3; 4].

(** [from] replicates to [to] once more, at [t] milliseconds. *)
Definition round (t : N) (from to : NodeId) : list Action :=
  [ARequest (from_millis t) from to; AResponse (from_millis (t + 1)) to from].

(** Node 1 leads term 1 and commits its no-op; a client adds node 4, which
    catches up and with node 2 commits the change. *)
Definition settling : list Action := campaign 400 1 2 3 ++ round 405 1 2 ++ round 405 1 3.
Definition catching_up : list Action := round 411 1 4 ++ round 413 1 4 ++ round 411 1 2.
Definition before_join : World (SM := N) := default boot4 (acts 0 boot4 settling).
Definition join_asked : World (SM := N) :=
  default boot4 (reconfigure before_join (from_millis 410) 1 (with_ids [1; 2; 3; 4]) 9).
Definition joined : World (SM := N) := default boot4 (acts 0 join_asked catching_up).

(** Node 1 goes silent. Node 4 leads term 2 with the votes of 2 and 3, brings
    them up to date, and removes node 1, which still believes it leads. *)
Definition taking_over : list Action := campaign 1300 4 2 3 ++ round 1305 4 2 ++ round 1305 4 3 ++ round 1307 4 3.
Definition dropping : list Action := round 1311 4 2 ++ round 1311 4 3.
Definition taken_over : World (SM := N) := default boot4 (acts 0 joined taking_over).
Definition removal_asked : World (SM := N) :=
  default boot4 (reconfigure taken_over (from_millis 1310) 4 (with_ids [2; 3; 4]) 10).
Definition removed : World (SM := N) := default boot4 (acts 0 removal_asked dropping).

Lemma cfg4_cluster : cluster_config nodes4 ids3 cfg4.
Proof.
  intros i Hi. assert (i ∈ [1; 2; 3; 4]) as Hi' by (by apply elem_of_list_to_set in Hi).
  repeat (apply elem_of_cons in Hi' as [->|Hi']; [by vm_compute|]). by apply elem_of_nil in Hi'.
Qed.
Lemma boot4_init : w_init 0 cfg4 nodes4 blank_storage boot4.
Proof.
  apply boot_init. intros i Hi.
  repeat (apply elem_of_cons in Hi as [->|Hi]; [eexists; vm_compute; reflexivity|]).
  by apply elem_of_nil in Hi.
Qed.

(** Clients that may start the timers and make the two changes. *)
Definition may_change (client : LoopInput → Prop) : Prop :=
  Forall (allowed client) (settling ++ catching_up ++ taking_over ++ dropping) ∧
  client (InPropose (ConfigChange (with_ids [1; 2; 3; 4])) 9) ∧
  client (InPropose (ConfigChange (with_ids [2; 3; 4])) 10).

Lemma joined_reachable client : may_change client → reachable_world 0 client cfg4 nodes4 blank_storage joined.
Proof.
  intros (Hall & H9 & _). apply Forall_app in Hall as [Hs Hall]. apply Forall_app in Hall as [Hc _].
  exists boot4. split; [exact boot4_init|].
  transitivity before_join; [apply (acts_client 0 _ _ settling); [vm_compute; reflexivity|exact Hs]|].
  transitivity join_asked.
  - apply rtc_once, (reconfigure_step 0 _ _ (from_millis 410) 1 (with_ids [1; 2; 3; 4]) 9); [exact H9|]. vm_compute. reflexivity.
  - apply (acts_client 0 _ _ catching_up); [vm_compute; reflexivity|exact Hc].
Qed.
Lemma joined_removed client : may_change client → rtc (w_step 0 client) joined removed.
Proof.
  intros (Hall & _ & H10). do 2 apply Forall_app in Hall as [_ Hall]. apply Forall_app in Hall as [Ht Hd].
  transitivity taken_over; [apply (acts_client 0 _ _ taking_over); [vm_compute; reflexivity|exact Ht]|].
  transitivity removal_asked.
  - apply rtc_once, (reconfigure_step 0 _ _ (from_millis 1310) 4 (with_ids [2; 3; 4]) 10); [exact H10|]. vm_compute. reflexivity.
  - apply (acts_client 0 _ _ dropping); [vm_compute; reflexivity|exact Hd].
Qed.
Lemma removed_reachable client : may_change client → reachable_world 0 client cfg4 nodes4 blank_storage removed.
Proof.
  intros Hc. destruct (joined_reachable client Hc) as (w & Hw & Hr). exists w. split; [exact Hw|].
  etrans; [exact Hr|by apply joined_removed].
Qed.
Lemma any_may_change : may_change any_client.
Proof. repeat constructor. Qed.
End joining.
