(* ===== verification/Raft.v ===== *)
(** * Raft, abstractly

    The log part of the protocol with everything local removed: a node is a
    term and a log from index 1, votes and acknowledgements are facts that
    stay true once established, and the leader of a term is a log that only
    grows. Crashes, restarts, lost and repeated messages need no rule here:
    they change none of this. [Refine] shows that the nodes of [Cluster] take
    only these steps.

    The configuration in force at a node is the latest one in its log, and a
    leader may append a new one only if it is one server away and the leader
    has committed, in its own term, past the previous one.

    The invariant gives Log Matching, Leader Completeness, Election Safety
    and that all committed logs are prefixes of one another. *)
From stdpp Require Import functions.
From S2P Require Import Prelude Types Storage Node NodeInv Elections.
Open Scope N_scope.

(** Which entries a leader may add; any, unless said otherwise. *)
Class Authored `{J : SerdeJson} := authored : LogEntry → Prop.
#[export] Instance anything `{J : SerdeJson} : Authored | 100 := λ _, True.

Section raft.
Context `{J : SerdeJson} {Au : Authored} (ids : gset N).
Local Abbreviation Log := (list LogEntry).

Record VoteFact := MkVote { v_node : NodeId; v_term : Term; v_for : NodeId; v_log : Log }.
Record AckFact := MkAck { k_node : NodeId; k_term : Term; k_log : Log }.

(** Per node its term and log; per voter and term the vote, with the voter's
    log when it was cast; per term the leader and its log; which node has
    held which prefix of the leader's log of a term; and how far the leader
    of a term has found its log committed. *)
Record Abs := MkAbs {
  a_term : NodeId → Term;
  a_log : NodeId → Log;
  a_votes : list VoteFact;
  a_lead : gmap N (NodeId * Log);
  a_acks : list AckFact;
  a_known : Term → N;
}.
Implicit Types (a : Abs) (g p L : Log) (i v c : NodeId) (T t : Term).

Definition log_last_term g : Term := from_option e_term 0 (last g).

(** The election restriction: [g] is at least as up to date as [g']. *)
Definition up_to_date g g' : Prop :=
  log_last_term g' < log_last_term g ∨
  (log_last_term g = log_last_term g' ∧ (length g' ≤ length g)%nat).

(** Indexes count up from 1. *)
Definition tidy g : Prop := contiguous 1 g.

(** The configuration a log puts in force; [ids] before the first. *)
Definition g_config g : option Membership := fst <$> latest_config g.
Definition conf g : gset N := from_option dom ids (g_config g).

(** Every majority of one meets every majority of the other. *)
Definition overlap (A B : gset N) : Prop :=
  ∀ Q Q', quorum A Q → quorum B Q' → ∃ v, v ∈ Q ∧ v ∈ Q'.

(** Committed in term [T], counted when the leader's log was [X]: a prefix of
    [X] that ends in an entry of [T] and that a majority of the configuration
    then in force has acknowledged to that leader. *)
Definition committed_in a T X p : Prop := ∃ c L Q e,
  a_lead a !! T = Some (c, L) ∧ X `prefix_of` L ∧ p `prefix_of` X ∧ last p = Some e ∧ e_term e = T ∧
  quorum (conf X) Q ∧ ∀ v, v ∈ Q → ∃ p', MkAck v T p' ∈ a_acks a ∧ p `prefix_of` p'.

(** The leader of [T], with log [g], may go over to [ms]: the majorities
    overlap, and something the leader has committed in its term covers every
    configuration in its log. *)
Definition lawful a T g (ms : Membership) : Prop :=
  overlap (conf g) (dom ms) ∧
  ∃ X q, committed_in a T X q ∧ X `prefix_of` g ∧ plain_log (drop (length q) g).

(** The steps of node [i]. *)
Inductive a_step i : Abs → Abs → Prop :=
| as_raise a t :
    a_term a i ≤ t →
    a_step i a (MkAbs (<[i := t]> (a_term a)) (a_log a) (a_votes a) (a_lead a) (a_acks a) (a_known a))
| as_vote a c g :
    (∀ V, V ∈ a_votes a → v_node V = i → v_term V ≠ a_term a i) →
    (c = i ∧ g = a_log a i ∧ (∀ e, e ∈ g → e_term e < a_term a i) ∨ c ≠ i ∧ MkVote c (a_term a i) c g ∈ a_votes a) →
    up_to_date g (a_log a i) →
    a_step i a (MkAbs (a_term a) (a_log a) (MkVote i (a_term a i) c (a_log a i) :: a_votes a)
                  (a_lead a) (a_acks a) (a_known a))
| as_elect a Q :
    a_lead a !! a_term a i = None →
    MkVote i (a_term a i) i (a_log a i) ∈ a_votes a →
    quorum (conf (a_log a i)) Q → (∀ v, v ∈ Q → ∃ g, MkVote v (a_term a i) i g ∈ a_votes a) →
    a_step i a (MkAbs (a_term a) (a_log a) (a_votes a)
                  (<[a_term a i := (i, a_log a i)]> (a_lead a)) (a_acks a) (a_known a))
| as_append a L e :
    a_lead a !! a_term a i = Some (i, L) → e_term e = a_term a i → tidy (L ++ [e]) →
    (∀ ms, e_command e = ConfigChange ms → lawful a (a_term a i) L ms) → authored e →
    a_step i a (MkAbs (a_term a) (<[i := L ++ [e]]> (a_log a)) (a_votes a)
                  (<[a_term a i := (i, L ++ [e])]> (a_lead a))
                  (MkAck i (a_term a i) (L ++ [e]) :: a_acks a) (a_known a))
| as_truncate a c L m e e' :
    a_lead a !! a_term a i = Some (c, L) →
    a_log a i !! m = Some e → L !! m = Some e' → e ≠ e' →
    a_step i a (MkAbs (a_term a) (<[i := take m (a_log a i)]> (a_log a)) (a_votes a)
                  (a_lead a) (a_acks a) (a_known a))
| as_extend a c L g :
    a_lead a !! a_term a i = Some (c, L) → a_log a i `prefix_of` g → g `prefix_of` L →
    a_step i a (MkAbs (a_term a) (<[i := g]> (a_log a)) (a_votes a) (a_lead a) (a_acks a) (a_known a))
| as_ack a c L p :
    a_lead a !! a_term a i = Some (c, L) → p `prefix_of` L → p `prefix_of` a_log a i →
    a_step i a (MkAbs (a_term a) (a_log a) (a_votes a) (a_lead a)
                  (MkAck i (a_term a i) p :: a_acks a) (a_known a))
| as_commit a L k :
    a_lead a !! a_term a i = Some (i, L) → a_known a (a_term a i) ≤ k →
    a_step i a (MkAbs (a_term a) (a_log a) (a_votes a) (a_lead a) (a_acks a)
                  (<[a_term a i := k]> (a_known a))).

(** An entry that leader [i] may write next in [a]. *)
Definition next_in a i (e : LogEntry) : Prop :=
  e_term e = a_term a i ∧
  ∃ L, a_lead a !! a_term a i = Some (i, L) ∧ e_index e = N.of_nat (length L) + 1.

Definition a_init : Abs := MkAbs (λ _, 0) (λ _, []) [] ∅ [] (λ _, 0).

(** ** What grows *)
Record a_le a a' : Prop := {
  al_term i : a_term a i ≤ a_term a' i;
  al_votes V : V ∈ a_votes a → V ∈ a_votes a';
  al_acks A : A ∈ a_acks a → A ∈ a_acks a';
  al_lead T c L : a_lead a !! T = Some (c, L) → ∃ L', a_lead a' !! T = Some (c, L') ∧ L `prefix_of` L';
  al_known T : a_known a T ≤ a_known a' T;
}.

#[export] Instance a_le_preorder : PreOrder a_le.
Proof.
  split.
  - intros a. split; [done..| |done]. eauto.
  - intros a1 a2 a3 [] []. split; [intros i; specialize (al_term0 i); specialize (al_term1 i); lia|by eauto..| |].
    + intros T c L (L1 & H1 & ?)%al_lead0. apply al_lead1 in H1 as (L2 & ? & ?).
      exists L2. split; [done|by etrans].
    + intros T. specialize (al_known0 T). specialize (al_known1 T). lia.
Qed.

(** What the steps of node [i] leave alone. *)
Record a_frame i a a' : Prop := {
  af_term j : j ≠ i → a_term a' j = a_term a j;
  af_log j : j ≠ i → a_log a' j = a_log a j;
  af_votes V : V ∈ a_votes a' → v_node V ≠ i → V ∈ a_votes a;
  af_lead T j L : j ≠ i → a_lead a' !! T = Some (j, L) ↔ a_lead a !! T = Some (j, L);
  af_known T j L : j ≠ i → a_lead a !! T = Some (j, L) → a_known a' T = a_known a T;
}.

#[export] Instance a_frame_preorder i : PreOrder (a_frame i).
Proof.
  split.
  - intros a. by split.
  - intros a1 a2 a3 [] []. split.
    + intros j Hj. by rewrite af_term1, af_term0.
    + intros j Hj. by rewrite af_log1, af_log0.
    + eauto.
    + intros T j L Hj. by rewrite af_lead1, af_lead0.
    + intros T j L Hj HL. rewrite (af_known1 T j L), (af_known0 T j L); [done..|by apply af_lead0].
Qed.

(** ** Vocabulary of the invariant *)

(** Every prefix that ends in an entry of term [T] is a prefix of the log of
    [T]'s leader. *)
Definition matched a g : Prop := ∀ k e, g !! k = Some e →
  ∃ c L, a_lead a !! e_term e = Some (c, L) ∧ take (S k) g `prefix_of` L.

Definition conflict p L : Prop :=
  ∃ m e e', p !! m = Some e ∧ L !! m = Some e' ∧ e ≠ e'.

(** [g] still holds [q], or a leader of a term strictly between [lo] and
    [hi] contradicts [q]. *)
Definition retains a q (lo hi : Term) g : Prop :=
  q `prefix_of` g ∨
  ∃ T c L, lo < T < hi ∧ a_lead a !! T = Some (c, L) ∧ conflict q L.
Definition kept a p (lo hi : Term) g : Prop := ∀ q, q `prefix_of` p → retains a q lo hi g.

(** The votes for [c] with log [g] in term [T]: a majority whose logs at the
    vote were no more up to date and had kept what they acknowledged, as far
    as no leader of a term below [hi] contradicts it. *)
Definition mandate a T hi c g : Prop := ∃ Q, quorum (conf g) Q ∧ ∀ v, v ∈ Q →
  ∃ g', MkVote v T c g' ∈ a_votes a ∧ up_to_date g g' ∧ matched a g' ∧
    ∀ lo p, MkAck v lo p ∈ a_acks a → lo < T → kept a p lo hi g'.

(** The election of the leader [c] of term [T] with log [g]. *)
Record elected_with a T c g : Prop := {
  ew_vote : MkVote c T c g ∈ a_votes a;
  ew_old e : e ∈ g → e_term e < T;
  ew_mandate : mandate a T T c g;
}.

Record a_inv a : Prop := {
  ai_known T : a_lead a !! T = None → a_known a T = 0;
  ai_log_tidy i : tidy (a_log a i);
  ai_lead_tidy T c L : a_lead a !! T = Some (c, L) → tidy L;
  ai_vote_term V : V ∈ a_votes a → v_term V ≤ a_term a (v_node V);
  ai_vote_once V V' : V ∈ a_votes a → V' ∈ a_votes a →
    v_node V = v_node V' → v_term V = v_term V' → V = V';
  ai_vote_fair v T c g : MkVote v T c g ∈ a_votes a →
    ∃ g', MkVote c T c g' ∈ a_votes a ∧ up_to_date g' g;
  ai_vote_matched V : V ∈ a_votes a → matched a (v_log V);
  ai_vote_old c T g e : MkVote c T c g ∈ a_votes a → e ∈ g → e_term e < T;
  ai_vote_kept V A : V ∈ a_votes a → A ∈ a_acks a → k_node A = v_node V → k_term A < v_term V →
    kept a (k_log A) (k_term A) (v_term V + 1) (v_log V);
  ai_ack_term A : A ∈ a_acks a → k_term A ≤ a_term a (k_node A);
  ai_ack_lead A : A ∈ a_acks a →
    ∃ c L, a_lead a !! k_term A = Some (c, L) ∧ k_log A `prefix_of` L;
  ai_ack_kept A : A ∈ a_acks a →
    kept a (k_log A) (k_term A) (a_term a (k_node A) + 1) (a_log a (k_node A));
  ai_log_matched i : matched a (a_log a i);
  ai_log_term i e : e ∈ a_log a i → e_term e ≤ a_term a i;
  ai_lead_term T c L e : a_lead a !! T = Some (c, L) → e ∈ L → e_term e ≤ T;
  ai_lead_matched T c L : a_lead a !! T = Some (c, L) → matched a L;
  ai_lead_log T c L : a_lead a !! T = Some (c, L) → a_term a c = T → a_log a c = L;
  ai_elected T c L : a_lead a !! T = Some (c, L) → ∃ g, g `prefix_of` L ∧ elected_with a T c g;
  ai_lawful T c L k e ms : a_lead a !! T = Some (c, L) → L !! k = Some e → e_term e = T →
    e_command e = ConfigChange ms → lawful a T (take k L) ms;
}.

(** *** Monotonicity *)
Lemma tidy_prefix g g' : g `prefix_of` g' → tidy g' → tidy g.
Proof. by intros [x ->] [Hc _]%contiguous_app. Qed.

Lemma conflict_mono p L L' : conflict p L → L `prefix_of` L' → conflict p L'.
Proof. intros (m & e & e' & ? & ? & ?) ?. exists m, e, e'. eauto using prefix_lookup_Some. Qed.
Lemma conflict_not_prefix p L : conflict p L → ¬ p `prefix_of` L.
Proof. intros (m & e & e' & He & He' & Hne) Hp. apply (prefix_lookup_Some _ _ _ _ He) in Hp. congruence. Qed.

Lemma matched_mono a a' g : a_le a a' → matched a g → matched a' g.
Proof.
  intros [_ _ _ Hl] Hg k e (c & L & HL & Hp)%Hg. destruct (Hl _ _ _ HL) as (L' & ? & ?).
  exists c, L'. split; [done|by etrans].
Qed.
Lemma matched_prefix a g g' : g `prefix_of` g' → matched a g' → matched a g.
Proof.
  intros Hp Hg k e Hk. destruct (Hg k e (prefix_lookup_Some _ _ _ _ Hk Hp)) as (c & L & ? & HL).
  exists c, L. split; [done|]. destruct Hp as [x ->]. apply lookup_lt_Some in Hk.
  by rewrite take_app_le in HL by lia.
Qed.
Lemma kept_mono a a' p lo hi hi' g : a_le a a' → hi ≤ hi' → kept a p lo hi g → kept a' p lo hi' g.
Proof.
  intros [_ _ _ Hl] Hh Hk q [?|(T & c & L & Hr & HL & Hc)]%Hk; [by left|right].
  destruct (Hl _ _ _ HL) as (L' & ? & ?). exists T, c, L'. split; [lia|]. eauto using conflict_mono.
Qed.
Lemma kept_grow a p lo hi g g' : g `prefix_of` g' → kept a p lo hi g → kept a p lo hi g'.
Proof. intros ? Hk q [?|?]%Hk; [left; by etrans|by right]. Qed.
Lemma kept_prefix a p lo hi g : p `prefix_of` g → kept a p lo hi g.
Proof. intros ? q ?. left. by etrans. Qed.

(** *** Each step grows and keeps the invariant *)
Lemma a_step_le i a a' : a_step i a a' → a_le a a'.
Proof.
  destruct 1 as [a t Ht|a c g|a Q Hn|a L e HL| | | |a L k HL Hk]; split; simpl; try done; try by eauto.
  - intros j. destruct (decide (i = j)) as [->|]; [by rewrite fn_lookup_insert|by rewrite fn_lookup_insert_ne].
  - by right.
  - intros T c L HT. exists L. split; [|done]. rewrite lookup_insert_ne; congruence.
  - by right.
  - intros T c L' HT. destruct (decide (T = a_term a i)) as [->|].
    + simplify_eq. exists (L ++ [e]). rewrite lookup_insert_eq. split; [done|by apply prefix_app_r].
    + exists L'. by rewrite lookup_insert_ne.
  - by right.
  - intros T. destruct (decide (a_term a i = T)) as [<-|]; [by rewrite fn_lookup_insert|by rewrite fn_lookup_insert_ne].
Qed.
Lemma fn_other {A} (f : NodeId → A) i x j : j ≠ i → <[i := x]> f j = f j.
Proof. intros. by rewrite fn_lookup_insert_ne. Qed.

Lemma a_step_frame i a a' : a_step i a a' → a_frame i a a'.
Proof.
  destruct 1 as [a t Ht|a c g|a Q Hn|a L e HL| | | |a L k HL Hk]; split; simpl; try done;
    try (intros j Hj; by rewrite fn_other).
  - by intros V [->|HV]%elem_of_cons.
  - intros T j L Hj. rewrite lookup_insert_Some. naive_solver.
  - intros T j L' Hj. rewrite lookup_insert_Some. naive_solver.
  - intros T j L' Hj HL'. rewrite fn_lookup_insert_ne; [done|]. intros <-. congruence.
Qed.
Lemma a_steps_frame i a a' : rtc (a_step i) a a' → a_frame i a a'.
Proof. induction 1 as [|a1 a2 a3 ?%a_step_frame _ IH]; [done|]. by etrans. Qed.

Lemma a_steps_le i a a' : rtc (a_step i) a a' → a_le a a'.
Proof. induction 1 as [|a1 a2 a3 ?%a_step_le _ IH]; [done|]. by etrans. Qed.

Lemma a_init_inv : a_inv a_init.
Proof.
  split; try done; intros; try (by apply elem_of_nil in H); try by apply elem_of_nil in H0.
Qed.

(** Terms along a matched log never decrease. *)
Lemma matched_sorted a g j k e e' :
  a_inv a → matched a g → (j ≤ k)%nat → g !! j = Some e → g !! k = Some e' → e_term e ≤ e_term e'.
Proof.
  intros Ha Hg Hjk Hj Hk. destruct (Hg k e' Hk) as (c & L & HL & Hp).
  eapply ai_lead_term; [done|exact HL|]. eapply (list_elem_of_lookup_2 _ j), prefix_lookup_Some; [|exact Hp].
  rewrite lookup_take_lt by lia. exact Hj.
Qed.
Lemma last_term_le a g e : a_inv a → matched a g → e ∈ g → e_term e ≤ log_last_term g.
Proof.
  intros Ha Hg [j Hj]%list_elem_of_lookup. unfold log_last_term.
  destruct (last g) as [e'|] eqn:Hl; simpl.
  - rewrite last_lookup in Hl. eapply matched_sorted; [done|done| |done..].
    apply lookup_lt_Some in Hj. lia.
  - apply last_None in Hl as ->. done.
Qed.
(** A matched log is a prefix of the log of its last term's leader. *)
Lemma matched_last a g e : matched a g → last g = Some e →
  ∃ c L, a_lead a !! e_term e = Some (c, L) ∧ g `prefix_of` L.
Proof.
  intros Hg Hl. rewrite last_lookup in Hl. destruct (Hg _ _ Hl) as (c & L & HL & Hp).
  exists c, L. split; [done|]. apply lookup_lt_Some in Hl. by rewrite take_ge in Hp by lia.
Qed.

(** New acknowledgements are at the node's term, so they cannot undercut a
    vote already cast. *)
Definition acks_now a a' : Prop :=
  ∀ A, A ∈ a_acks a' → A ∈ a_acks a ∨ k_term A = a_term a (k_node A).
Lemma acks_now_refl a a' : a_acks a' = a_acks a → acks_now a a'.
Proof. intros E A. rewrite E. by left. Qed.

Lemma mandate_mono a a' T hi c g :
  a_inv a → a_le a a' → acks_now a a' → mandate a T hi c g → mandate a' T hi c g.
Proof.
  intros Ha Hle Hk (Q & HQ & Hv). exists Q. split; [done|]. intros v Hin.
  destruct (Hv v Hin) as (g' & HV & Hu & Hm & Hkept). exists g'.
  split; [by eapply al_votes|]. split; [done|]. split; [by eapply matched_mono|].
  intros lo p [HA|HA]%Hk Hlo.
  - eapply kept_mono; [done|reflexivity|by apply Hkept].
  - pose proof (ai_vote_term _ Ha _ HV) as Ht. simpl in *. lia.
Qed.
Lemma vote_kept_mono a a' V A :
  a_inv a → a_le a a' → acks_now a a' → V ∈ a_votes a → A ∈ a_acks a' →
  k_node A = v_node V → k_term A < v_term V →
  kept a' (k_log A) (k_term A) (v_term V + 1) (v_log V).
Proof.
  intros Ha Hle Hk HV [HA|HA]%Hk En Hlt.
  - eapply kept_mono; [done|reflexivity|]. by apply ai_vote_kept.
  - pose proof (ai_vote_term _ Ha _ HV). rewrite En in HA. lia.
Qed.

Lemma committed_in_mono a a' T X p : a_le a a' → committed_in a T X p → committed_in a' T X p.
Proof.
  intros Hle (c & L & Q & e & HL & HX & Hp & Hl & He & HQ & Hv).
  destruct (al_lead _ _ Hle _ _ _ HL) as (L' & HL' & HLL). exists c, L', Q, e.
  split; [done|]. split; [by etrans|]. do 4 (split; [done|]).
  intros v (p' & HA & ?)%Hv. exists p'. split; [by eapply al_acks|done].
Qed.
Lemma lawful_mono a a' T g ms : a_le a a' → lawful a T g ms → lawful a' T g ms.
Proof.
  intros Hle (Ho & X & q & Hc & ?). split; [done|]. exists X, q. split; [by eapply committed_in_mono|done].
Qed.
Lemma elected_with_mono a a' T c g :
  a_inv a → a_le a a' → acks_now a a' → elected_with a T c g → elected_with a' T c g.
Proof. intros Ha Hle Hk []. split; [by eapply al_votes|done|by eapply mandate_mono]. Qed.

(** What is known of a leader stays known. *)
Lemma elected_later a a' T c L L' :
  a_inv a → a_le a a' → acks_now a a' → a_lead a !! T = Some (c, L) → L `prefix_of` L' →
  ∃ g, g `prefix_of` L' ∧ elected_with a' T c g.
Proof.
  intros Ha Hle Hk HL HLL. destruct (ai_elected _ Ha _ _ _ HL) as (g & ? & ?).
  exists g. split; [by etrans|by eapply elected_with_mono].
Qed.

(** Steps that move only the term and the log of one node. *)
Lemma local_inv i a a' :
  a_inv a → a_le a a' →
  a_votes a' = a_votes a → a_lead a' = a_lead a → a_acks a' = a_acks a → a_known a' = a_known a →
  (∀ j, j ≠ i → a_term a' j = a_term a j ∧ a_log a' j = a_log a j) →
  tidy (a_log a' i) → matched a (a_log a' i) → (∀ e, e ∈ a_log a' i → e_term e ≤ a_term a' i) →
  (∀ A, A ∈ a_acks a → k_node A = i →
     kept a (k_log A) (k_term A) (a_term a' i + 1) (a_log a' i)) →
  (∀ L, a_lead a !! a_term a' i = Some (i, L) → a_log a' i = L) → a_inv a'.
Proof.
  intros Ha Hle Ev El Ek En Hj Hd Hm Ht Hk HL. pose proof (al_term _ _ Hle) as Hterm.
  assert (∀ g, matched a' g ↔ matched a g) as Em by (unfold matched; by rewrite El).
  assert (∀ p lo hi g, kept a' p lo hi g ↔ kept a p lo hi g) as Ek' by (unfold kept, retains; by rewrite El).
  split; rewrite ?Ev, ?El, ?Ek, ?En; try by apply Ha.
  - intros j. destruct (decide (j = i)) as [->|Hne]; [done|].
    destruct (Hj _ Hne) as [_ ->]. by apply ai_log_tidy.
  - intros V HV. etrans; [by apply ai_vote_term|done].
  - intros V HV. by apply Em, ai_vote_matched.
  - intros V A HV HA. rewrite Ek'. by apply ai_vote_kept.
  - intros A HA. etrans; [by apply ai_ack_term|done].
  - intros A HA. apply Ek'. destruct (decide (k_node A = i)) as [E|Hne]; [rewrite E; by apply Hk|].
    destruct (Hj _ Hne) as [-> ->]. by apply ai_ack_kept.
  - intros j. apply Em. destruct (decide (j = i)) as [->|Hne]; [done|].
    destruct (Hj _ Hne) as [_ ->]. by apply ai_log_matched.
  - intros j e. destruct (decide (j = i)) as [->|Hne]; [by apply Ht|].
    destruct (Hj _ Hne) as [-> ->]. by apply ai_log_term.
  - intros T c L HT. by apply Em, (ai_lead_matched _ Ha T c).
  - intros T c L HT. destruct (decide (c = i)) as [->|Hne]; [intros <-; by apply HL|].
    destruct (Hj _ Hne) as [-> ->]. by apply ai_lead_log.
  - intros T c L HT. eapply elected_later; [done|done|by apply acks_now_refl|done|done].
  - intros T c L k e ms HT Hk' He Hc. eapply lawful_mono; [done|]. by eapply ai_lawful.
Qed.

(** A leader has reached its term. *)
Lemma lead_reached a T c L : a_inv a → a_lead a !! T = Some (c, L) → T ≤ a_term a c.
Proof. intros Ha (g & _ & [HV _ _])%(ai_elected _ Ha). by apply (ai_vote_term _ Ha) in HV. Qed.

Lemma raise_inv i a t :
  a_inv a → a_term a i ≤ t →
  a_inv (MkAbs (<[i := t]> (a_term a)) (a_log a) (a_votes a) (a_lead a) (a_acks a) (a_known a)).
Proof.
  intros Ha Ht. assert (a_step i a (MkAbs (<[i := t]> (a_term a)) (a_log a) (a_votes a) (a_lead a) (a_acks a) (a_known a)))
    as Hs by by apply as_raise.
  apply (local_inv i a); simpl; rewrite ?fn_lookup_insert; try done.
  - by eapply a_step_le.
  - intros j Hj. by rewrite fn_other.
  - by apply ai_log_tidy.
  - by apply ai_log_matched.
  - intros e He. etrans; [by eapply ai_log_term|done].
  - intros A HA <-. eapply kept_mono; [reflexivity| |by apply ai_ack_kept]. lia.
  - intros L HL. destruct (decide (a_term a i = t)) as [<-|Hne]; [by eapply ai_lead_log|].
    (* a leader of a term it has not reached *)
    pose proof (lead_reached _ _ _ _ Ha HL). lia.
Qed.

Lemma truncate_inv i a c L m e e' :
  a_inv a → a_lead a !! a_term a i = Some (c, L) →
  a_log a i !! m = Some e → L !! m = Some e' → e ≠ e' →
  a_inv (MkAbs (a_term a) (<[i := take m (a_log a i)]> (a_log a)) (a_votes a) (a_lead a) (a_acks a) (a_known a)).
Proof.
  intros Ha HL He He' Hne. assert (a_step i a (MkAbs (a_term a) (<[i := take m (a_log a i)]> (a_log a))
    (a_votes a) (a_lead a) (a_acks a) (a_known a))) as Hs by by eapply as_truncate.
  pose proof (prefix_take (a_log a i) m) as Hp.
  apply (local_inv i a); simpl; rewrite ?fn_lookup_insert; try done.
  - by eapply a_step_le.
  - intros j Hj. by rewrite fn_other.
  - eapply tidy_prefix; [done|by apply ai_log_tidy].
  - eapply matched_prefix; [done|by apply ai_log_matched].
  - intros x Hx. eapply ai_log_term; [done|]. by eapply elem_of_prefix.
  - intros A HA <- q Hq. destruct (ai_ack_kept _ Ha A HA q Hq) as [Hk|Hk]; [|by right].
    destruct (decide (length q ≤ m)%nat) as [Hm|Hm].
    { left. destruct Hk as [x Hx]. rewrite Hx, take_app_ge by done. by apply prefix_app_r. }
    assert (q !! m = Some e) as Hm'.
    { rewrite <-He. apply prefix_lookup_lt; [lia|done]. }
    right. exists (a_term a (k_node A)), c, L. split; [|split; [done|by exists m, e, e']].
    pose proof (ai_ack_term _ Ha A HA). split; [|lia].
    destruct (decide (k_term A = a_term a (k_node A))) as [E|]; [exfalso|lia].
    destruct (ai_ack_lead _ Ha A HA) as (c' & L' & HL' & Hpre). rewrite E in HL'. simplify_eq.
    apply (conflict_not_prefix q L); [by exists m, e, e'|exact (transitivity Hq Hpre)].
  - intros L' HL'. simplify_eq. exfalso. apply (ai_lead_log _ Ha) in HL; [|done]. congruence.
Qed.

Lemma extend_inv i a c L g :
  a_inv a → a_lead a !! a_term a i = Some (c, L) → a_log a i `prefix_of` g → g `prefix_of` L →
  a_inv (MkAbs (a_term a) (<[i := g]> (a_log a)) (a_votes a) (a_lead a) (a_acks a) (a_known a)).
Proof.
  intros Ha HL Hg HgL. assert (a_step i a (MkAbs (a_term a) (<[i := g]> (a_log a))
    (a_votes a) (a_lead a) (a_acks a) (a_known a))) as Hs by by eapply as_extend.
  apply (local_inv i a); simpl; rewrite ?fn_lookup_insert; try done.
  - by eapply a_step_le.
  - intros j Hj. by rewrite fn_other.
  - eapply tidy_prefix; [done|by eapply ai_lead_tidy].
  - eapply matched_prefix; [done|by eapply ai_lead_matched].
  - intros x Hx. eapply ai_lead_term; [done..|]. by eapply elem_of_prefix.
  - intros A HA <-. eapply kept_grow; [done|]. by apply ai_ack_kept.
  - intros L' HL'. simplify_eq. pose proof (ai_lead_log _ Ha _ _ _ HL eq_refl) as E.
    apply (anti_symm prefix); [done|by rewrite <-E].
Qed.

Lemma up_to_date_refl g : up_to_date g g.
Proof. right. split; lia. Qed.

Lemma vote_inv i a c g :
  a_inv a → (∀ V, V ∈ a_votes a → v_node V = i → v_term V ≠ a_term a i) →
  (c = i ∧ g = a_log a i ∧ (∀ e, e ∈ g → e_term e < a_term a i) ∨ c ≠ i ∧ MkVote c (a_term a i) c g ∈ a_votes a) →
  up_to_date g (a_log a i) →
  a_inv (MkAbs (a_term a) (a_log a) (MkVote i (a_term a i) c (a_log a i) :: a_votes a)
           (a_lead a) (a_acks a) (a_known a)).
Proof.
  intros Ha Hnew Hg Hu. set (a' := MkAbs _ _ _ _ _ _).
  assert (a_le a a') as Hle by by eapply (a_step_le i), as_vote.
  assert (acks_now a a') as Hnow by by apply acks_now_refl.
  split; simpl; try by apply Ha.
  - intros V [->|HV]%elem_of_cons; [done|by apply ai_vote_term].
  - intros V V' [->|HV]%elem_of_cons [->|HV']%elem_of_cons; simpl; intros E1 E2; [done| | |by apply Ha].
    + by destruct (Hnew V' HV').
    + by destruct (Hnew V HV).
  - intros v T c' g' [E|HV]%elem_of_cons.
    + simplify_eq. exists g. split; [|done]. destruct Hg as [(-> & -> & _)|[_ ?]]; [by left|by right].
    + destruct (ai_vote_fair _ Ha _ _ _ _ HV) as (g'' & ? & ?). exists g''. split; [by right|done].
  - intros V [->|HV]%elem_of_cons; [by apply (ai_log_matched _ Ha)|by apply (ai_vote_matched _ Ha)].
  - intros c' T g' e [E|HV]%elem_of_cons; [|by apply (ai_vote_old _ Ha _ _ _ _ HV)].
    simplify_eq. destruct Hg as [(_ & -> & Hold)|[Hne _]]; [by apply Hold|done].
  - intros V A [->|HV]%elem_of_cons HA En Hlt; simpl in *; [|by apply (ai_vote_kept _ Ha)].
    specialize (ai_ack_kept _ Ha A HA). by rewrite En.
  - intros T c' L HL. by eapply elected_later.
Qed.

Lemma elect_inv i a Q :
  a_inv a → a_lead a !! a_term a i = None →
  MkVote i (a_term a i) i (a_log a i) ∈ a_votes a →
  quorum (conf (a_log a i)) Q → (∀ v, v ∈ Q → ∃ g, MkVote v (a_term a i) i g ∈ a_votes a) →
  a_inv (MkAbs (a_term a) (a_log a) (a_votes a)
           (<[a_term a i := (i, a_log a i)]> (a_lead a)) (a_acks a) (a_known a)).
Proof.
  intros Ha Hnone Hself HQ Hv. set (a' := MkAbs _ _ _ _ _ _).
  assert (a_le a a') as Hle by by eapply (a_step_le i), as_elect.
  assert (acks_now a a') as Hnow by by apply acks_now_refl.
  split; simpl; try by apply Ha.
  - intros T [HT _]%lookup_insert_None. by apply ai_known.
  - intros T c L [[<- [= <- <-]]|[_ HL]]%lookup_insert_Some; [by apply ai_log_tidy|by eapply ai_lead_tidy].
  - intros V HV. eapply matched_mono; [done|by apply ai_vote_matched].
  - intros V A HV HA En Hl. by eapply (vote_kept_mono a).
  - intros A HA. destruct (ai_ack_lead _ Ha A HA) as (c & L & HL & Hp).
    destruct (al_lead _ _ Hle _ _ _ HL) as (L' & ? & ?). exists c, L'. split; [done|by etrans].
  - intros A HA. eapply kept_mono; [done|reflexivity|by apply ai_ack_kept].
  - intros j. eapply matched_mono; [done|by apply ai_log_matched].
  - intros T c L e [[<- [= <- <-]]|[_ HL]]%lookup_insert_Some He; [by eapply ai_log_term|by eapply ai_lead_term].
  - intros T c L [[<- [= <- <-]]|[_ HL]]%lookup_insert_Some; (eapply matched_mono; [done|]).
    + by apply ai_log_matched.
    + by eapply ai_lead_matched.
  - intros T c L [[<- [= <- <-]]|[_ HL]]%lookup_insert_Some; [done|by eapply ai_lead_log].
  - intros T c L [[<- [= <- <-]]|[_ HL]]%lookup_insert_Some; [|by eapply elected_later].
    exists (a_log a i). split; [done|]. split; [done|intros e; exact (ai_vote_old _ Ha _ _ _ e Hself)|].
    eapply mandate_mono; [exact Ha|done..|]. exists Q. split; [done|]. intros v Hin.
    destruct (Hv v Hin) as (g' & HV). exists g'. split; [done|].
    destruct (ai_vote_fair _ Ha _ _ _ _ HV) as (g'' & HV' & Hu).
    pose proof (ai_vote_once _ Ha _ _ HV' Hself eq_refl eq_refl) as E. simplify_eq.
    split; [done|]. split; [by apply (ai_vote_matched _ Ha _ HV)|].
    (* nobody has led this term yet *)
    intros lo p HA Hlo q [?|(T' & c & L & Hr & HL & Hc)]%(ai_vote_kept _ Ha _ (MkAck v lo p) HV HA eq_refl Hlo); [by left|right].
    exists T', c, L. split; [|done]. simpl in Hr. assert (T' ≠ a_term a i) by congruence. lia.
  - intros T c L k e ms [[<- [= <- <-]]|[_ HL]]%lookup_insert_Some Hk He Hc.
    + exfalso. assert (e_term e < a_term a i); [|lia].
      eapply ai_vote_old; [done|exact Hself|]. by eapply list_elem_of_lookup_2.
    + eapply lawful_mono; [exact Hle|]. by eapply ai_lawful.
Qed.

Lemma append_inv i a L e :
  a_inv a → a_lead a !! a_term a i = Some (i, L) → e_term e = a_term a i → tidy (L ++ [e]) →
  (∀ ms, e_command e = ConfigChange ms → lawful a (a_term a i) L ms) → authored e →
  a_inv (MkAbs (a_term a) (<[i := L ++ [e]]> (a_log a)) (a_votes a)
           (<[a_term a i := (i, L ++ [e])]> (a_lead a)) (MkAck i (a_term a i) (L ++ [e]) :: a_acks a) (a_known a)).
Proof.
  intros Ha HL Et Htidy Hlaw Hau. pose proof (ai_lead_log _ Ha _ _ _ HL eq_refl) as EL.
  set (a' := MkAbs _ _ _ _ _ _).
  assert (a_le a a') as Hle by by apply (a_step_le i), as_append.
  assert (acks_now a a') as Hnow by (intros A [->|HA]%elem_of_cons; [by right|by left]).
  assert (a_log a i `prefix_of` L ++ [e]) as Hgrow by (rewrite EL; by apply prefix_app_r).
  assert (matched a' (L ++ [e])) as Hm.
  { intros k e' [Hk|[Hge Hk]]%lookup_app_Some.
    - destruct (matched_mono a a' L Hle (ai_lead_matched _ Ha _ _ _ HL) k e' Hk) as (c & L' & ? & ?).
      exists c, L'. split; [done|]. apply lookup_lt_Some in Hk. by rewrite take_app_le by lia.
    - apply list_lookup_singleton_Some in Hk as [Hz <-]. exists i, (L ++ [e]). simpl.
      rewrite Et, lookup_insert_eq. split; [done|]. apply prefix_take. }
  assert (∀ x, x ∈ L ++ [e] → e_term x ≤ a_term a i) as Hterm.
  { intros x [Hx| ->%list_elem_of_singleton]%elem_of_app; [by eapply ai_lead_term|lia]. }
  split; simpl; try by apply Ha.
  - intros T [HT _]%lookup_insert_None. by apply ai_known.
  - intros j. destruct (decide (j = i)) as [->|Hne]; [by rewrite fn_lookup_insert|].
    rewrite fn_other by done. by apply ai_log_tidy.
  - intros T c L' [[<- [= <- <-]]|[_ HL']]%lookup_insert_Some; [done|by eapply ai_lead_tidy].
  - intros V HV. eapply matched_mono; [done|by apply ai_vote_matched].
  - intros V A HV HA En Hl. by eapply (vote_kept_mono a).
  - intros A [->|HA]%elem_of_cons; [done|by apply ai_ack_term].
  - intros A [->|HA]%elem_of_cons; simpl; [rewrite lookup_insert_eq; by eauto|].
    destruct (ai_ack_lead _ Ha A HA) as (c & L' & HL' & Hp).
    destruct (al_lead _ _ Hle _ _ _ HL') as (L'' & ? & ?). exists c, L''. split; [done|by etrans].
  - intros A [->|HA]%elem_of_cons; simpl; [apply kept_prefix; by rewrite fn_lookup_insert|].
    eapply kept_mono; [done|reflexivity|]. destruct (decide (k_node A = i)) as [<-|Hne].
    + rewrite fn_lookup_insert. eapply kept_grow; [done|by apply ai_ack_kept].
    + rewrite fn_other by done. by apply ai_ack_kept.
  - intros j. destruct (decide (j = i)) as [->|Hne]; [by rewrite fn_lookup_insert|].
    rewrite fn_other by done. eapply matched_mono; [done|by apply ai_log_matched].
  - intros j x. destruct (decide (j = i)) as [->|Hne]; [rewrite fn_lookup_insert; by apply Hterm|].
    rewrite fn_other by done. by apply ai_log_term.
  - intros T c L' x [[<- [= <- <-]]|[_ HL']]%lookup_insert_Some; [by apply Hterm|by eapply ai_lead_term].
  - intros T c L' [[<- [= <- <-]]|[_ HL']]%lookup_insert_Some; [done|].
    eapply matched_mono; [done|by eapply ai_lead_matched].
  - intros T c L' [[<- [= <- <-]]|[Hne HL']]%lookup_insert_Some Ec; [by rewrite fn_lookup_insert|].
    rewrite fn_other by congruence. by eapply ai_lead_log.
  - intros T c L' [[<- [= <- <-]]|[Hne HL']]%lookup_insert_Some; [|by eapply elected_later].
    eapply (elected_later a); [done..|by apply prefix_app_r].
  - intros T c L' k x ms [[<- [= <- <-]]|[Hne HL']]%lookup_insert_Some Hk Hx Hc; (eapply lawful_mono; [exact Hle|]).
    + apply lookup_app_Some in Hk as [Hk|[Hge [Hz <-]%list_lookup_singleton_Some]].
      * apply lookup_lt_Some in Hk as Hlt. rewrite take_app_le by lia. by eapply ai_lawful.
      * rewrite take_app_length' by lia. by apply Hlaw.
    + by eapply ai_lawful.
Qed.

Lemma ack_inv i a c L p :
  a_inv a → a_lead a !! a_term a i = Some (c, L) → p `prefix_of` L → p `prefix_of` a_log a i →
  a_inv (MkAbs (a_term a) (a_log a) (a_votes a) (a_lead a) (MkAck i (a_term a i) p :: a_acks a) (a_known a)).
Proof.
  intros Ha HL HpL Hp. set (a' := MkAbs _ _ _ _ _ _).
  assert (a_le a a') as Hle by by eapply (a_step_le i), as_ack.
  assert (acks_now a a') as Hnow by (intros A [->|HA]%elem_of_cons; [by right|by left]).
  split; simpl; try by apply Ha.
  - intros V A HV HA En Hl. by eapply (vote_kept_mono a).
  - intros A [->|HA]%elem_of_cons; [done|by apply ai_ack_term].
  - intros A [->|HA]%elem_of_cons; [by eauto|by apply ai_ack_lead].
  - intros A [->|HA]%elem_of_cons; [by apply kept_prefix|by apply (ai_ack_kept _ Ha)].
  - intros T c' L' HL'. by eapply elected_later.
  - intros T c' L' k e ms HT Hk He Hc. eapply lawful_mono; [exact Hle|]. by eapply ai_lawful.
Qed.

Lemma commit_inv i a L k :
  a_inv a → a_lead a !! a_term a i = Some (i, L) → a_known a (a_term a i) ≤ k →
  a_inv (MkAbs (a_term a) (a_log a) (a_votes a) (a_lead a) (a_acks a)
           (<[a_term a i := k]> (a_known a))).
Proof.
  intros Ha HL Hk. set (a' := MkAbs _ _ _ _ _ _).
  assert (a_le a a') as Hle by by eapply (a_step_le i), as_commit.
  split; simpl; try by apply Ha.
  - intros T HT. rewrite fn_lookup_insert_ne; [by apply ai_known|]. intros <-. congruence.
  - intros T c' L' HL'. by eapply elected_later; [|exact Hle|apply acks_now_refl|..].
Qed.

Lemma a_step_inv i a a' : a_inv a → a_step i a a' → a_inv a'.
Proof.
  intros Ha. destruct 1; eauto using raise_inv, vote_inv, elect_inv, append_inv, truncate_inv,
    extend_inv, ack_inv, commit_inv.
Qed.
Lemma a_steps_inv i a a' : a_inv a → rtc (a_step i) a a' → a_inv a'.
Proof. intros Ha. induction 1; eauto using a_step_inv. Qed.

(** ** Commitment *)

(** Known committed at term [t]: below something committed by then, and known
    to be by its leader. *)
Definition committed a t p : Prop :=
  p = [] ∨ ∃ T X p', T ≤ t ∧ p `prefix_of` p' ∧ committed_in a T X p' ∧ N.of_nat (length p') ≤ a_known a T.

Lemma committed_mono a a' t t' p : a_le a a' → t ≤ t' → committed a t p → committed a' t' p.
Proof.
  intros Hle Ht [?|(T & X & p' & ? & ? & ? & ?)]; [by left|right].
  exists T, X, p'. pose proof (al_known _ _ Hle T). split; [lia|]. split; [done|].
  split; [by eapply committed_in_mono|lia].
Qed.
Lemma committed_prefix a t p p' : p `prefix_of` p' → committed a t p' → committed a t p.
Proof.
  intros Hp [->|(T & X & q & ? & ? & ? & ?)]; [left; by apply prefix_nil_inv|right].
  exists T, X, q. split; [done|]. split; [by etrans|done].
Qed.

(** What is committed in [T] is in the log of its leader. *)
Lemma committed_in_lead a T X p c L :
  committed_in a T X p → a_lead a !! T = Some (c, L) → p `prefix_of` X ∧ X `prefix_of` L.
Proof. intros (c0 & L0 & Q & e & HL & HX & Hp & _) HL'. by simplify_eq. Qed.
Lemma committed_in_own a T X p : committed_in a T X p → ∃ e, e ∈ p ∧ e_term e = T.
Proof. intros (c & L & Q & e & _ & _ & _ & Hl & He & _). exists e. split; [by apply last_Some_elem_of|done]. Qed.
Lemma committed_in_old a T X p e : a_inv a → committed_in a T X p → e ∈ p → e_term e ≤ T.
Proof.
  intros Ha (c & L & Q & x & HL & HX & Hp & _) He. eapply ai_lead_term; [done|exact HL|].
  do 2 (eapply elem_of_prefix; [|done]). done.
Qed.

(** *** Configurations *)
Lemma overlap_sym A B : overlap A B → overlap B A.
Proof. intros H Q Q' HQ HQ'. destruct (H Q' Q HQ' HQ) as (v & ? & ?). by exists v. Qed.
Lemma overlap_refl A : overlap A A.
Proof. intros Q Q'. apply quorums_meet. Qed.

Lemma conf_plain g l : plain_log l → conf (g ++ l) = conf g.
Proof. intros Hl. unfold conf, g_config. by rewrite latest_config_app, (latest_config_plain _ Hl). Qed.
Lemma conf_change g e ms l :
  e_command e = ConfigChange ms → plain_log l → conf (g ++ e :: l) = dom ms.
Proof.
  intros He Hl. unfold conf, g_config. rewrite latest_config_app.
  change (e :: l) with ([e] ++ l). rewrite latest_config_app, (latest_config_plain _ Hl).
  unfold latest_config. simpl. unfold config_of. by rewrite He.
Qed.

(** The first change of configuration in a log. *)
Lemma first_change l :
  plain_log l ∨ ∃ l1 e ms l2, l = l1 ++ e :: l2 ∧ plain_log l1 ∧ e_command e = ConfigChange ms.
Proof.
  induction l as [|x l IH]; [left; by intros e ?%elem_of_nil|].
  destruct (config_of x) as [[ms k]|] eqn:E.
  - right. exists [], x, ms, l. split; [done|]. split; [by intros e ?%elem_of_nil|].
    unfold config_of in E. by destruct (e_command x); simplify_eq.
  - assert (plain_log [x]) as Hx by by intros e ->%list_elem_of_singleton.
    destruct IH as [Hl|(l1 & e & ms & l2 & -> & Hl & He)].
    + left. apply (plain_log_app [x] l). done.
    + right. exists (x :: l1), e, ms, l2. split; [done|]. split; [by apply (plain_log_app [x] l1)|done].
Qed.

(** The prefix up to an entry is in the log of the leader of its term. *)
Lemma matched_at a g g1 e g2 :
  matched a g → g = g1 ++ e :: g2 → ∃ c L, a_lead a !! e_term e = Some (c, L) ∧ g1 ++ [e] `prefix_of` L.
Proof.
  intros Hm ->. destruct (Hm (length g1) e) as (c & L & HL & Hp); [by apply list_lookup_middle|].
  exists c, L. split; [done|]. rewrite take_app_ge in Hp by lia.
  by replace (S (length g1) - length g1)%nat with 1%nat in Hp by lia.
Qed.
(** A change anywhere in a log was lawful in the term of its entry. *)
Lemma matched_lawful a g g1 e ms g2 :
  a_inv a → matched a g → g = g1 ++ e :: g2 → e_command e = ConfigChange ms → lawful a (e_term e) g1 ms.
Proof.
  intros Ha Hm Hg Hc. destruct (matched_at _ _ _ _ _ Hm Hg) as (c & L & HL & [x ->]).
  assert (((g1 ++ [e]) ++ x) !! length g1 = Some e) as Hk by (rewrite <-app_assoc; by apply list_lookup_middle).
  pose proof (ai_lawful _ Ha _ _ _ _ _ _ HL Hk eq_refl Hc) as Hlaw.
  by rewrite <-app_assoc, take_app_length in Hlaw.
Qed.

(** [Y] has an entry of a term in which something that [X] lacks had been
    committed before. *)
Definition ahead a X Y : Prop := ∃ g1 e g2 Z q,
  Y = g1 ++ e :: g2 ∧ committed_in a (e_term e) Z q ∧ Z `prefix_of` g1 ∧ ¬ q `prefix_of` X.

Lemma common_prefix (X Y : Log) :
  ∃ Z X' Y', X = Z ++ X' ∧ Y = Z ++ Y' ∧ ∀ W, W `prefix_of` X → W `prefix_of` Y → W `prefix_of` Z.
Proof.
  revert Y. induction X as [|x X IH]; intros Y.
  { exists [], [], Y. split; [done|]. by split. }
  destruct Y as [|y Y]; [exists [], (x :: X), []; split; [done|]; by split|].
  destruct (decide (x = y)) as [->|Hne].
  - destruct (IH Y) as (Z & X' & Y' & -> & -> & HW). exists (y :: Z), X', Y'. split; [done|]. split; [done|].
    intros [|z W] H1 H2; [apply prefix_nil|]. apply prefix_cons_inv_1 in H1 as Ez. subst z.
    apply prefix_cons, HW; by eapply prefix_cons_inv_2.
  - exists [], (x :: X), (y :: Y). split; [done|]. split; [done|].
    intros [|z W] H1 H2; [done|]. apply prefix_cons_inv_1 in H1, H2. congruence.
Qed.

(** One log has no change of configuration after the point of divergence. *)
Lemma divergence_plain a X Y Z X' Y' :
  a_inv a → matched a Y → X = Z ++ X' → Y = Z ++ Y' →
  (∀ W, W `prefix_of` X → W `prefix_of` Y → W `prefix_of` Z) → plain_log X' →
  overlap (conf X) (conf Y) ∨ ahead a X Y.
Proof.
  intros Ha HY -> -> HW HX'. rewrite (conf_plain Z X') by done.
  destruct (first_change Y') as [HY'|(y1 & e & ms & y2 & -> & Hy1 & He)].
  { left. rewrite conf_plain by done. apply overlap_refl. }
  destruct (first_change y2) as [Hy2|(y3 & e' & ms' & y4 & -> & Hy3 & He')].
  - left. rewrite app_assoc, (conf_change _ _ _ _ He Hy2), <-(conf_plain Z y1 Hy1).
    by destruct (matched_lawful a _ (Z ++ y1) e ms y2 Ha HY) as [? _]; [by rewrite app_assoc|done|].
  - right. assert (Z ++ y1 ++ e :: y3 ++ e' :: y4 = (Z ++ y1 ++ e :: y3) ++ e' :: y4) as E by by rewrite <-!app_assoc.
    destruct (matched_lawful a _ _ e' ms' y4 Ha HY E He') as (_ & X & q & Hc & HX & Hq).
    exists (Z ++ y1 ++ e :: y3), e', y4, X, q. split; [exact E|]. split; [done|]. split; [done|]. intros Hno.
    pose proof Hc as (_ & _ & _ & _ & _ & _ & HqX & _).
    assert (q `prefix_of` Z ++ y1 ++ e :: y3) as Hqg by by etrans.
    (* the earlier change is covered by what was committed *)
    assert (length Z < length q)%nat as Hlen.
    { destruct (decide (length Z < length q)%nat) as [|Hge]; [done|exfalso].
      assert (config_of e = None) as Hn; [|unfold config_of in Hn; by rewrite He in Hn].
      apply Hq. rewrite drop_app_le by lia. set_solver. }
    assert (q `prefix_of` Z) as HqZ%prefix_length; [|lia].
    apply HW; [done|]. etrans; [exact Hqg|]. rewrite E. by apply prefix_app_r.
Qed.

(** Both have one, in different terms. *)
Lemma divergence_older a X Y Z x1 e x2 y1 e' ms y2 :
  a_inv a → matched a X → matched a Y → X = (Z ++ x1) ++ e :: x2 → Y = (Z ++ y1) ++ e' :: y2 →
  (∀ W, W `prefix_of` X → W `prefix_of` Y → W `prefix_of` Z) →
  e_command e' = ConfigChange ms → e_term e < e_term e' → ahead a X Y.
Proof.
  intros Ha HX HY EX EY HW He' Hlt.
  destruct (matched_lawful a _ _ e' ms y2 Ha HY EY He') as (_ & W & q & Hc & HWg & _).
  exists (Z ++ y1), e', y2, W, q. do 3 (split; [done|]). intros Hno.
  destruct (committed_in_own _ _ _ _ Hc) as (x & [k Hk]%list_elem_of_lookup & Ex).
  assert (q `prefix_of` Z) as HqZ.
  { apply HW; [done|]. rewrite EY. pose proof Hc as (_ & _ & _ & _ & _ & _ & HqW & _).
    etrans; [exact HqW|]. etrans; [exact HWg|]. by apply prefix_app_r. }
  assert (e_term x ≤ e_term e); [|lia].
  eapply (matched_sorted _ X k (length (Z ++ x1))); [done|done| | |rewrite EX; by apply list_lookup_middle].
  - apply lookup_lt_Some in Hk. apply prefix_length in HqZ. rewrite length_app. lia.
  - eapply prefix_lookup_Some; [exact Hk|done].
Qed.

(** Two logs: either the majorities of their configurations overlap, or one
    of them has seen a term in which something that the other lacks was
    committed. *)
Lemma divergence a X Y :
  a_inv a → matched a X → matched a Y → overlap (conf X) (conf Y) ∨ ahead a X Y ∨ ahead a Y X.
Proof.
  intros Ha HX HY. destruct (common_prefix X Y) as (Z & X' & Y' & EX & EY & HW).
  destruct (first_change X') as [HX'|(x1 & e & ms & x2 & -> & Hx1 & He)].
  { destruct (divergence_plain a X Y Z X' Y') as [?|?]; auto. }
  destruct (first_change Y') as [HY'|(y1 & e' & ms' & y2 & -> & Hy1 & He')].
  { destruct (divergence_plain a Y X Z Y' (x1 ++ e :: x2)) as [?|?]; auto.
    left. by apply overlap_sym. }
  rewrite app_assoc in EX, EY. right.
  destruct (N.lt_trichotomy (e_term e) (e_term e')) as [Hlt|[Heq|Hlt]].
  - left. by eapply (divergence_older a X Y).
  - (* both in the log of one leader *) exfalso.
    destruct (matched_at _ _ _ _ _ HX EX) as (c & L & HL & Hp).
    destruct (matched_at _ _ _ _ _ HY EY) as (c' & L' & HL' & Hp').
    rewrite Heq, HL' in HL. injection HL as <- <-.
    assert ((Z ++ x1) ++ [e] `prefix_of` X) as HpX by (rewrite EX; apply prefix_app, prefix_cons, prefix_nil).
    assert ((Z ++ y1) ++ [e'] `prefix_of` Y) as HpY by (rewrite EY; apply prefix_app, prefix_cons, prefix_nil).
    destruct (prefix_weak_total _ _ _ Hp Hp') as [H|H].
    + pose proof (prefix_length _ _ (HW _ HpX (transitivity H HpY))) as Hl. rewrite !length_app in Hl. simpl in Hl. lia.
    + pose proof (prefix_length _ _ (HW _ (transitivity H HpX) HpY)) as Hl. rewrite !length_app in Hl. simpl in Hl. lia.
  - right. eapply (divergence_older a Y X); [done..| |done|done]. auto.
Qed.

(** *** Leader Completeness *)

(** For one committed prefix and one election, given it for the leaders in
    between, when the two majorities overlap. *)
Lemma completeness_step a T0 X p T1 hi c g :
  a_inv a → committed_in a T0 X p → T0 < T1 → mandate a T1 hi c g → matched a g →
  (∀ e, e ∈ g → e_term e < T1) → T1 ≤ hi → overlap (conf X) (conf g) →
  (∀ T c L, T0 < T < hi → a_lead a !! T = Some (c, L) → p `prefix_of` L) → p `prefix_of` g.
Proof.
  intros Ha (c0 & L0 & Q0 & e & HL0 & HX & Hp0 & Hlast & He & HQ0 & Hack) Hlt (Q1 & HQ1 & Hv) Hm Hgt Hhi Ho IH.
  destruct (Ho _ _ HQ0 HQ1) as (v & Hin0 & Hin1).
  destruct (Hack v Hin0) as (p' & HA & Hpp'). destruct (Hv v Hin1) as (g' & HV & Hu & Hm' & Hkept).
  (* the voter still held the prefix *)
  assert (p `prefix_of` g') as Hpg'.
  { destruct (Hkept T0 p' HA Hlt p Hpp') as [?|(T' & c' & L' & Hr & HL' & Hc)]; [done|].
    by destruct (conflict_not_prefix _ _ Hc (IH _ _ _ Hr HL')). }
  assert (T0 ≤ log_last_term g') as Hlow.
  { rewrite <-He. eapply last_term_le; [done..|]. eapply elem_of_prefix; [|done].
    by apply last_Some_elem_of. }
  destruct Hu as [Hu|[Hu Hlen]].
  - (* a higher last term: its leader had the prefix *)
    unfold log_last_term at 2 in Hu. destruct (last g) as [x|] eqn:Hx; simpl in Hu; [|lia].
    destruct (matched_last _ _ _ Hm Hx) as (c2 & L2 & HL2 & HgL2).
    assert (x ∈ g) as Hxg by by apply last_Some_elem_of.
    assert (p `prefix_of` L2) as HpL2 by (apply (IH (e_term x) c2); [specialize (Hgt x Hxg); lia|done]).
    destruct (prefix_weak_total _ _ _ HpL2 HgL2) as [?|Hgp]; [done|exfalso].
    assert (e_term x ≤ T0); [|lia]. eapply ai_lead_term; [done|exact HL0|].
    do 2 (eapply elem_of_prefix; [|done]). by eapply elem_of_prefix.
  - (* the same last term, and no shorter *)
    etrans; [exact Hpg'|]. destruct (last g') as [x'|] eqn:Hx'; [|by apply last_None in Hx' as ->; apply prefix_nil].
    destruct (last g) as [x|] eqn:Hx; [|apply last_None in Hx as ->; destruct g'; simpl in Hlen; [done|lia]].
    destruct (matched_last _ _ _ Hm Hx) as (c2 & L2 & HL2 & HgL2).
    destruct (matched_last _ _ _ Hm' Hx') as (c3 & L3 & HL3 & HgL3).
    unfold log_last_term in Hu. rewrite Hx, Hx' in Hu. simpl in Hu. rewrite Hu in HL2. simplify_eq.
    destruct (prefix_weak_total _ _ _ HgL3 HgL2) as [?|Hgg]; [done|].
    by rewrite (prefix_length_eq _ _ Hgg Hlen).
Qed.

(** All leaders below [hi] have what was committed before their term. *)
Definition complete_below a hi : Prop := ∀ T c L T0 X p,
  T < hi → a_lead a !! T = Some (c, L) → committed_in a T0 X p → T0 ≤ T → p `prefix_of` L.

(** A log that has seen a term with something that [X] lacks has all that
    was committed with [X]. *)
Lemma ahead_complete a T0 X p g hi :
  a_inv a → committed_in a T0 X p → matched a g → complete_below a hi → T0 < hi →
  (∀ e, e ∈ g → e_term e < hi) → ahead a X g → p `prefix_of` g.
Proof.
  intros Ha Hc Hm Hcb Hlt Hgt (g1 & e & g2 & Z & q & Eg & Hq & HZ & Hno).
  destruct (matched_at _ _ _ _ _ Hm Eg) as (c & L & HL & HgL).
  assert (e_term e < hi) as Ht by (apply Hgt; rewrite Eg; set_solver).
  assert (g1 ++ [e] `prefix_of` g) as Hg1 by (rewrite Eg; apply prefix_app, prefix_cons, prefix_nil).
  assert (q `prefix_of` g1 ++ [e]) as Hqg.
  { destruct (committed_in_lead _ _ _ _ _ _ Hq HL) as [HqZ _]. etrans; [exact HqZ|]. etrans; [exact HZ|].
    by apply prefix_app_r. }
  destruct (N.lt_trichotomy (e_term e) T0) as [Hlt'|[Heq|Hgt']].
  - (* an earlier term: [X] has it after all *)
    exfalso. apply Hno. pose proof Hc as (c0 & L0 & _ & _ & HL0 & HX & HpX & _).
    pose proof (Hcb _ _ _ _ _ _ Hlt HL0 Hq ltac:(lia)) as HqL.
    destruct (prefix_weak_total _ _ _ HqL HX) as [?|HXq]; [done|exfalso].
    destruct (committed_in_own _ _ _ _ Hc) as (x & Hx & <-).
    assert (e_term x ≤ e_term e); [|lia]. eapply committed_in_old; [done|exact Hq|].
    do 2 (eapply elem_of_prefix; [|done]). done.
  - (* the same term *)
    subst T0. destruct (committed_in_lead _ _ _ _ _ _ Hc HL) as [HpX HXL].
    destruct (prefix_weak_total X q L) as [HXq|?]; [done|by etrans| |done].
    etrans; [exact HpX|]. etrans; [exact HXq|]. by etrans.
  - (* a later one: its leader had the prefix *)
    pose proof (Hcb _ _ _ _ _ _ Ht HL Hc ltac:(lia)) as HpL.
    destruct (prefix_weak_total _ _ _ HpL HgL) as [?|Hgp]; [by etrans|exfalso].
    assert (e_term e ≤ T0); [|lia]. eapply committed_in_old; [done|exact Hc|].
    eapply elem_of_prefix; [|exact Hgp]. set_solver.
Qed.

Lemma election_complete a T1 hi c g :
  a_inv a → mandate a T1 hi c g → matched a g → (∀ e, e ∈ g → e_term e < T1) → T1 ≤ hi →
  complete_below a hi → ∀ T0 X p, committed_in a T0 X p → T0 < T1 → p `prefix_of` g.
Proof.
  intros Ha Hman Hm Hgt Hhi Hcb T0. induction T0 as [T0 IHT] using (well_founded_induction N.lt_wf_0).
  intros X. remember (length X) as k eqn:Hk. revert X Hk.
  induction k as [k IHX] using lt_wf_ind. intros X -> p Hc Hlt.
  pose proof Hc as (c0 & L0 & _ & _ & HL0 & HX & _).
  assert (matched a X) as HmX by (eapply matched_prefix; [done|by eapply ai_lead_matched]).
  destruct (divergence a X g Ha HmX Hm) as [Ho|[Hah|(g1 & e & g2 & Z & q & EX & Hq & HZ & Hno)]].
  - eapply completeness_step; [done..|]. intros T c' L' Hr HL'. eapply Hcb; [|done..|]; lia.
  - eapply (ahead_complete a T0 X p g hi); [done..|lia| |done]. intros e He. specialize (Hgt e He). lia.
  - (* it was committed before that the election has it *)
    exfalso. apply Hno. assert (e_term e ≤ T0) as Hle.
    { eapply ai_lead_term; [done|exact HL0|]. eapply elem_of_prefix; [|exact HX]. rewrite EX. set_solver. }
    destruct (decide (e_term e = T0)) as [Heq|Hne].
    + rewrite Heq in Hq. eapply (IHX (length Z)); [|done|exact Hq|done].
      apply prefix_length in HZ. rewrite EX, length_app. simpl. lia.
    + eapply (IHT (e_term e)); [lia|exact Hq|lia].
Qed.

Lemma leaders_complete a hi : a_inv a → complete_below a hi.
Proof.
  intros Ha. induction hi as [hi IH] using (well_founded_induction N.lt_wf_0).
  intros T c L T0 X p Hlt HL Hc Hle. destruct (decide (T0 = T)) as [->|Hne].
  - destruct (committed_in_lead _ _ _ _ _ _ Hc HL). by etrans.
  - destruct (ai_elected _ Ha _ _ _ HL) as (g & HgL & [_ Hold Hman]). etrans; [|exact HgL].
    eapply (election_complete a T T); [done|done| |done|done|by apply IH|done|lia].
    eapply matched_prefix; [done|by eapply ai_lead_matched].
Qed.

(** Whatever is committed in a term is in the log of every leader from then
    on. *)
Lemma committed_in_later a T0 X p T c L :
  a_inv a → committed_in a T0 X p → T0 ≤ T → a_lead a !! T = Some (c, L) → p `prefix_of` L.
Proof. intros Ha Hc Hle HL. eapply (leaders_complete a (T + 1) Ha T); [lia|done..]. Qed.

(** Leader Completeness: whatever is known committed at a term is in the
    log of every leader from that term on. *)
Lemma leader_complete a t p T c L :
  a_inv a → committed a t p → t ≤ T → a_lead a !! T = Some (c, L) → p `prefix_of` L.
Proof.
  intros Ha [->|(T0 & X & p' & Ht & Hp & Hc & _)] Hle HL; [by apply prefix_nil|].
  etrans; [exact Hp|]. eapply committed_in_later; [done..| |done]. lia.
Qed.

(** Committed logs are prefixes of one another. *)
Lemma committed_total a t t' p p' :
  a_inv a → committed a t p → committed a t' p' → p `prefix_of` p' ∨ p' `prefix_of` p.
Proof.
  intros Ha [->|(T & X & q & _ & Hq & Hc & _)]; [left; by apply prefix_nil|].
  intros [->|(T' & X' & q' & _ & Hq' & Hc' & _)]; [right; by apply prefix_nil|].
  pose proof Hc as (c & L & _ & _ & HL & HXL & HqX & _). pose proof Hc' as (c' & L' & _ & _ & HL' & HXL' & HqX' & _).
  destruct (decide (T ≤ T')) as [Hle|Hle].
  - pose proof (committed_in_later _ _ _ _ _ _ _ Ha Hc Hle HL'). eapply (prefix_weak_total _ _ L'); [by etrans|].
    do 2 (etrans; [done|]). done.
  - assert (T' ≤ T) as Hle' by lia. pose proof (committed_in_later _ _ _ _ _ _ _ Ha Hc' Hle' HL).
    eapply (prefix_weak_total _ _ L); [|by etrans]. do 2 (etrans; [done|]). done.
Qed.

(** *** Election Safety *)

(** A candidate that a majority of its configuration has voted for, in a term
    that has a leader, is that leader. *)
Lemma election_unique a T c L i g Q :
  a_inv a → a_lead a !! T = Some (c, L) → MkVote i T i g ∈ a_votes a →
  quorum (conf g) Q → (∀ v, v ∈ Q → ∃ g', MkVote v T i g' ∈ a_votes a) → c = i.
Proof.
  intros Ha HL HV HQ HQv. destruct (ai_elected _ Ha _ _ _ HL) as (g0 & Hg0 & [HV0 Hold0 Hman0]).
  assert (matched a g0) as Hm0 by (eapply matched_prefix; [done|by eapply ai_lead_matched]).
  pose proof (ai_vote_matched _ Ha _ HV) as Hm. simpl in Hm.
  assert (∀ e, e ∈ g → e_term e < T) as Hold by (intros e; by apply (ai_vote_old _ Ha _ _ _ e HV)).
  assert (mandate a T (T + 1) i g) as Hman.
  { exists Q. split; [done|]. intros v (g' & Hg')%HQv. exists g'. split; [done|].
    destruct (ai_vote_fair _ Ha _ _ _ _ Hg') as (g'' & HV' & Hu).
    pose proof (ai_vote_once _ Ha _ _ HV' HV eq_refl eq_refl) as E. simplify_eq. split; [done|].
    split; [by apply (ai_vote_matched _ Ha _ Hg')|]. intros lo p HA Hlo.
    by apply (ai_vote_kept _ Ha _ (MkAck v lo p) Hg' HA). }
  assert (∀ x y, (∀ e, e ∈ x → e_term e < T) → ahead a y x →
    ∃ q t Z, committed_in a t Z q ∧ t < T ∧ ¬ q `prefix_of` y) as Hah.
  { intros x y Hx (g1 & e & g2 & Z & q & Ex & Hq & _ & Hno). exists q, (e_term e), Z. split; [done|].
    split; [|done]. apply Hx. rewrite Ex. set_solver. }
  destruct (divergence a g g0 Ha Hm Hm0) as [Ho|[Hd|Hd]]; [|exfalso..].
  - destruct Hman0 as (Q0 & HQ0 & Hv0). destruct (Ho _ _ HQ HQ0) as (v & Hv1 & Hv2).
    destruct (HQv v Hv1) as (g1 & H1). destruct (Hv0 v Hv2) as (g2 & H2 & _).
    pose proof (ai_vote_once _ Ha _ _ H1 H2 eq_refl eq_refl) as E. by simplify_eq.
  - destruct (Hah _ _ Hold0 Hd) as (q & t & Z & Hq & Ht & []).
    eapply (election_complete a T (T + 1)); [done..|lia|by apply leaders_complete|done|done].
  - destruct (Hah _ _ Hold Hd) as (q & t & Z & Hq & Ht & []).
    eapply (election_complete a T T); [done..|by apply leaders_complete|done|done].
Qed.

(** *** Confirmed leadership *)

(** The leader of [T] had log [L1] in [a1]; later, with log [X], a majority
    of its configuration turns out to have been at no later term in [a1].
    Then nobody had led a later term in [a1]. *)
Lemma confirmed_latest a1 a2 T i L1 X L2 Q e T' :
  a_inv a1 → a_inv a2 → a_le a1 a2 → a_lead a1 !! T = Some (i, L1) → a_lead a2 !! T = Some (i, L2) →
  L1 `prefix_of` X → X `prefix_of` L2 → e ∈ X → e_term e = T →
  quorum (conf X) Q → (∀ v, v ∈ Q → a_term a1 v ≤ T) → T < T' → a_lead a1 !! T' = None.
Proof.
  intros Ha1 Ha2 Hle HL1 HL2 HX1 HX2 HeX He HQ HQv.
  induction T' as [T' IH] using (well_founded_induction N.lt_wf_0). intros Hlt.
  destruct (a_lead a1 !! T') as [[c L']|] eqn:HL'; [exfalso|done].
  destruct (ai_elected _ Ha1 _ _ _ HL') as (g & HgL & [HV Hold (Q' & HQ' & Hv')]).
  assert (matched a1 g) as Hm1 by (eapply matched_prefix; [done|by eapply ai_lead_matched]).
  assert (matched a2 g) as Hm2 by by eapply matched_mono.
  assert (matched a2 X) as HmX by (eapply matched_prefix; [done|by eapply ai_lead_matched]).
  destruct (divergence a2 X g Ha2 HmX Hm2)
    as [Ho|[(g1 & x & g2 & Z & q & Eg & Hq & HZ & Hno)|(g1 & x & g2 & Z & q & EX & Hq & HZ & Hno)]].
  - (* somebody who had voted in the later term *)
    destruct (Ho _ _ HQ HQ') as (v & Hv1 & Hv2). destruct (Hv' v Hv2) as (g' & HV' & _).
    apply (ai_vote_term _ Ha1) in HV'. simpl in HV'. specialize (HQv v Hv1). lia.
  - (* the later leader has seen a term in which more was committed *)
    destruct (matched_at _ _ _ _ _ Hm1 Eg) as (c1 & Lx & HLx & Hg1).
    pose proof Hq as (_ & _ & _ & _ & _ & _ & HqZ & _).
    assert (e_term x < T') as Hx by (apply Hold; rewrite Eg; set_solver).
    destruct (N.lt_trichotomy (e_term x) T) as [Hlt'|[Heq|Hgt]].
    + pose proof (committed_in_later _ _ _ _ _ _ _ Ha2 Hq (N.lt_le_incl _ _ Hlt') HL2) as HqL.
      destruct (prefix_weak_total _ _ _ HqL HX2) as [?|HXq]; [done|].
      assert (e_term e ≤ e_term x); [|lia]. eapply committed_in_old; [done|exact Hq|]. by eapply elem_of_prefix.
    + rewrite Heq, HL1 in HLx. injection HLx as <- <-. apply Hno. etrans; [exact HqZ|]. etrans; [exact HZ|].
      etrans; [apply prefix_app_r; reflexivity|]. by etrans.
    + rewrite IH in HLx; [done|lia..].
  - (* what was committed before is in the later leader's log *)
    apply Hno. assert (e_term x ≤ T) as Hx.
    { eapply ai_lead_term; [done|exact HL2|]. eapply elem_of_prefix; [|exact HX2]. rewrite EX. set_solver. }
    destruct (al_lead _ _ Hle _ _ _ HL') as (L2' & HL2' & _).
    destruct (ai_elected _ Ha2 _ _ _ HL2') as (g0 & _ & [HV0 _ Hman0]).
    pose proof (ai_vote_once _ Ha2 _ _ HV0 (al_votes _ _ Hle _ HV) eq_refl eq_refl) as E. simplify_eq.
    eapply (election_complete a2 T' T'); [done..|by apply leaders_complete|exact Hq|lia].
Qed.
End raft.
