(* ===== verification/LogRepr.v ===== *)
(** * What a storage stands for

    A storage keeps a snapshot and the suffix of the log above it; the
    protocol reasons about whole logs. [repr g s]: the storage [s] represents
    the log [g] from index 1, its snapshot being the state that applying the
    covered entries to the initial state machine gives and the configuration
    they put in force. Each mutation of
    [Storage] is shown to act on the represented log as the protocol
    expects. *)
From S2P Require Import Prelude Types Storage Node NodeInv Elections Raft.
Open Scope N_scope.

Section repr.
Context `{J : SerdeJson} {SM : Type} `{!StateMachine SM} (sm0 : SM).
Implicit Types (g : list LogEntry) (s : Storage) (k : LogIndex).

(** The term at an index of a whole log; 0 before the first entry. *)
Definition g_term g k : option Term :=
  if bool_decide (k = 0) then Some 0 else e_term <$> g !! N.to_nat (k - 1).

(** The state machine after the first [k] entries. *)
Definition state_at g k : SM := sm_apply_all (take (N.to_nat k) g) sm0.

Definition g_len g : N := N.of_nat (length g).

(** A snapshot of the first entries of [g]. *)
Record snap_of g (snap : Snapshot) : Prop := {
  so_low : 1 ≤ last_included_index snap;
  so_high : last_included_index snap ≤ g_len g;
  so_term : g_term g (last_included_index snap) = Some (last_included_term snap);
  so_membership : sn_membership snap = g_config (take (N.to_nat (last_included_index snap)) g);
  so_state sm : sm_restore (sn_state snap) sm = Some (state_at g (last_included_index snap));
}.

Record repr g s : Prop := {
  rp_tidy : tidy g;
  rp_bound : snapshot_index s ≤ g_len g;
  rp_log : st_log s = drop (N.to_nat (snapshot_index s)) g;
  rp_snap snap : st_snapshot s = Some snap → snap_of g snap;
}.

(** ** Whole logs *)
Lemma take_prefix_le {A} (k m : nat) (g : list A) : (k ≤ m)%nat → take k g `prefix_of` take m g.
Proof. intros. replace k with (min k m) by lia. rewrite <-take_take. apply prefix_take. Qed.
Lemma take_prefix_agree (k : nat) g g' : take k g `prefix_of` g' → (k ≤ length g)%nat → take k g' = take k g.
Proof. intros [x ->] Hk. rewrite take_app_le by (rewrite length_take; lia). by rewrite take_take, Nat.min_id. Qed.
Lemma g_term_0 g : g_term g 0 = Some 0.
Proof. done. Qed.
Lemma g_term_pos g k : 1 ≤ k → g_term g k = e_term <$> g !! N.to_nat (k - 1).
Proof. intros. unfold g_term. rewrite bool_decide_eq_false_2; [done|lia]. Qed.
Lemma g_term_bound g k : is_Some (g_term g k) ↔ k ≤ g_len g.
Proof.
  unfold g_term, g_len. case_bool_decide as Hk; [subst; split; [lia|eauto]|].
  rewrite fmap_is_Some, lookup_lt_is_Some. lia.
Qed.
Lemma g_term_last g : g_term g (g_len g) = Some (log_last_term g).
Proof.
  unfold g_term, log_last_term, g_len. case_bool_decide as Hk.
  - destruct g; [done|simpl in Hk; lia].
  - rewrite last_lookup. replace (N.to_nat _) with (pred (length g)) by lia.
    destruct (lookup_lt_is_Some_2 g (pred (length g))) as [e He]; [lia|]. by rewrite He.
Qed.
Lemma g_term_prefix g g' k : g `prefix_of` g' → k ≤ g_len g → g_term g' k = g_term g k.
Proof.
  intros [x ->] Hk. unfold g_term, g_len in *. case_bool_decide; [done|].
  by rewrite lookup_app_l by lia.
Qed.
Lemma state_at_prefix g g' k : g `prefix_of` g' → k ≤ g_len g → state_at g' k = state_at g k.
Proof. intros [x ->] Hk. unfold state_at, g_len in *. by rewrite take_app_le by lia. Qed.
Lemma state_at_step g k e : g !! N.to_nat k = Some e → state_at g (k + 1) = sm_apply e (state_at g k).
Proof.
  intros He. unfold state_at. replace (N.to_nat (k + 1)) with (S (N.to_nat k)) by lia.
  by rewrite (take_S_r _ _ _ He), sm_apply_all_app.
Qed.
Lemma snap_of_prefix g g' snap : g `prefix_of` g' → snap_of g snap → snap_of g' snap.
Proof.
  intros Hp []. pose proof (prefix_length _ _ Hp). split; try done.
  - unfold g_len in *. lia.
  - by rewrite (g_term_prefix _ _ _ Hp).
  - rewrite so_membership0. destruct Hp as [x ->]. rewrite take_app_le by (unfold g_len in *; lia). done.
  - intros sm. by rewrite (state_at_prefix _ _ _ Hp).
Qed.
Lemma snap_of_agree g g' snap :
  last_included_index snap ≤ g_len g' →
  take (N.to_nat (last_included_index snap)) g' = take (N.to_nat (last_included_index snap)) g →
  snap_of g snap → snap_of g' snap.
Proof.
  intros Hle Ht Hs. set (k := last_included_index snap) in *.
  assert (snap_of (take (N.to_nat k) g) snap) as Hk.
  { pose proof Hs as []. assert (g_len (take (N.to_nat k) g) = k) as Hl.
    { unfold g_len in *. rewrite length_take. lia. }
    split; try done; fold k; [by rewrite Hl| | |].
    - rewrite <-(g_term_prefix (take (N.to_nat k) g) g); [done|apply prefix_take|by rewrite Hl].
    - by rewrite take_take, Nat.min_id.
    - intros sm. rewrite <-(state_at_prefix (take (N.to_nat k) g) g); [done|apply prefix_take|by rewrite Hl]. }
  rewrite <-Ht in Hk. eapply snap_of_prefix; [|exact Hk]. apply prefix_take.
Qed.

(** ** Reading *)
Lemma repr_wf g s : repr g s → storage_wf s.
Proof.
  intros [Hc Hb Hl _]. unfold storage_wf. rewrite Hl.
  replace (snapshot_index s + 1) with (1 + N.of_nat (N.to_nat (snapshot_index s))) by lia.
  apply contiguous_drop; [done|]. unfold g_len in Hb. lia.
Qed.
Lemma repr_last_index g s : repr g s → last_index s = g_len g.
Proof. intros [_ Hb Hl _]. unfold last_index, g_len in *. rewrite Hl, length_drop. lia. Qed.
Lemma repr_entry g s k : repr g s → snapshot_index s < k → entry s k = g !! N.to_nat (k - 1).
Proof.
  intros [_ _ Hl _] Hk.
  replace k with (snapshot_index s + 1 + N.of_nat (N.to_nat (k - snapshot_index s - 1))) at 1 by lia.
  rewrite entry_at, Hl, lookup_drop. f_equal. lia.
Qed.
Lemma repr_term g s k : repr g s → snapshot_index s ≤ k → term s k = g_term g k.
Proof.
  intros Hr Hk. destruct (decide (k = snapshot_index s)) as [->|Hne].
  - unfold term. rewrite bool_decide_eq_true_2 by done. symmetry.
    unfold snapshot_index, snapshot_term. destruct (st_snapshot s) as [snap|] eqn:E; [|done].
    simpl. by apply so_term, (rp_snap _ _ Hr).
  - rewrite term_above, (repr_entry _ _ _ Hr), g_term_pos by lia. done.
Qed.
Lemma repr_last_term g s : repr g s → last_term s = log_last_term g.
Proof.
  intros Hr. pose proof (repr_term _ _ (last_index s) Hr) as Ht. 
  rewrite (repr_last_index _ _ Hr), g_term_last in Ht. unfold last_term.
  destruct (last (st_log s)) as [e|] eqn:E; simpl.
  - rewrite (rp_log _ _ Hr), last_lookup, lookup_drop, length_drop in E. 
    unfold log_last_term. rewrite last_lookup. apply lookup_lt_Some in E as Hlt.
    replace (pred (length g)) with (N.to_nat (snapshot_index s) + pred (length g - N.to_nat (snapshot_index s)))%nat by lia.
    by rewrite E.
  - apply last_None in E. pose proof (repr_last_index _ _ Hr) as Hi. unfold last_index in Hi.
    rewrite E in Hi. simpl in Hi. rewrite <-Hi, N.add_0_r in Ht.
    unfold term in Ht. rewrite bool_decide_eq_true_2 in Ht by done. specialize (Ht ltac:(lia)). by simplify_eq.
Qed.
Lemma repr_entries_from g s k :
  repr g s → snapshot_index s < k → entries_from s k = drop (N.to_nat (k - 1)) g.
Proof.
  intros [_ _ Hl _] Hk. unfold entries_from. destruct (pos s k) as [p|] eqn:E.
  - apply pos_Some in E. simpl. rewrite Hl, drop_drop. f_equal. unfold id. lia.
  - apply pos_None in E. lia.
Qed.
Lemma repr_base g s : repr g s → base_sm sm0 s = Some (state_at g (snapshot_index s)).
Proof.
  intros Hr. unfold base_sm, snapshot_index. destruct (st_snapshot s) as [snap|] eqn:E; [|done].
  by apply so_state, (rp_snap _ _ Hr).
Qed.

(** ** Configurations *)

(** The members a log puts in force at a node with configuration [cfg]. *)
Definition g_members (cfg : RaftConfig) g : Membership :=
  match g_config g with
  | Some ms => ms
  | None => if c_join cfg then ∅ else bootstrap_members cfg
  end.

Lemma g_config_app g g' :
  g_config (g ++ g') = match g_config g' with Some ms => Some ms | None => g_config g end.
Proof. unfold g_config. rewrite latest_config_app. by destruct (latest_config g') as [[ms k]|]. Qed.
Lemma g_config_split g (k : nat) :
  g_config g = match g_config (drop k g) with Some ms => Some ms | None => g_config (take k g) end.
Proof. by rewrite <-g_config_app, take_drop. Qed.
Lemma g_members_plain cfg g g' : plain_log g' → g_members cfg (g ++ g') = g_members cfg g.
Proof.
  intros Hp. unfold g_members. rewrite g_config_app. unfold g_config at 1. by rewrite (latest_config_plain _ Hp).
Qed.

Lemma repr_snap_config g s :
  repr g s → st_snapshot s ≫= sn_membership = g_config (take (N.to_nat (snapshot_index s)) g).
Proof.
  intros Hr. unfold snapshot_index. destruct (st_snapshot s) as [snap|] eqn:E; [|done]. simpl.
  by apply so_membership, (rp_snap _ _ Hr).
Qed.
Lemma repr_config_at g s k :
  repr g s → snapshot_index s ≤ k → config_at s k = g_config (take (N.to_nat k) g).
Proof.
  intros Hr Hk. rewrite (config_at_take _ _ (repr_wf _ _ Hr)), (repr_snap_config _ _ Hr), (rp_log _ _ Hr).
  rewrite (g_config_split (take (N.to_nat k) g) (N.to_nat (snapshot_index s))), take_take, Nat.min_l by lia.
  rewrite skipn_firstn_comm. replace (N.to_nat k - N.to_nat (snapshot_index s))%nat with (N.to_nat (k - snapshot_index s)) by lia.
  unfold g_config.
  by destruct (latest_config _) as [[ms mi]|].
Qed.
Lemma repr_derive cfg g s : repr g s → (derive_membership s cfg).1 = g_members cfg g.
Proof.
  intros Hr. unfold derive_membership, g_members.
  rewrite (g_config_split g (N.to_nat (snapshot_index s))), <-(repr_snap_config _ _ Hr), <-(rp_log _ _ Hr).
  unfold g_config. destruct (latest_config (st_log s)) as [[ms mi]|]; [done|]. simpl.
  destruct (st_snapshot s ≫= sn_membership); [done|]. by destruct (c_join cfg).
Qed.

(** Above the entry that carried the configuration there is no other. *)
Lemma repr_members_plain cfg g s ms mi k :
  repr g s → members_ok cfg s ms mi → mi ≤ k → snapshot_index s ≤ k → plain_log (drop (N.to_nat k) g).
Proof.
  intros Hr [_ Hmi] Hk Hsk e He. destruct (config_of e) as [[ms' mi']|] eqn:Hc; [exfalso|done].
  apply list_elem_of_lookup in He as [q Hq]. rewrite lookup_drop in Hq.
  (* the latest one in the retained log is no earlier *)
  pose proof (contiguous_lookup _ _ _ _ (rp_tidy _ _ Hr) Hq) as Ei.
  assert (st_log s !! (N.to_nat k + q - N.to_nat (snapshot_index s))%nat = Some e) as Hin.
  { rewrite (rp_log _ _ Hr), lookup_drop. rewrite <-Hq. f_equal. lia. }
  assert (∃ ms1 mi1, latest_config (st_log s) = Some (ms1, mi1) ∧ k < mi1) as (ms1 & mi1 & Hl & Hlt).
  { clear Hmi. rewrite <-(take_drop (S (N.to_nat k + q - N.to_nat (snapshot_index s))) (st_log s)), latest_config_app.
    rewrite (take_S_r _ _ _ Hin), latest_config_app.
    destruct (latest_config (drop _ (st_log s))) as [[ms1 mi1]|] eqn:E.
    - exists ms1, mi1. split; [done|]. destruct (latest_config_elem _ _ _ E) as (x & (j & Hj)%list_elem_of_lookup & <- & _).
      rewrite lookup_drop, (rp_log _ _ Hr), lookup_drop in Hj.
      pose proof (contiguous_lookup _ _ _ _ (rp_tidy _ _ Hr) Hj). lia.
    - exists ms', mi'. unfold latest_config. simpl. rewrite Hc. split; [done|].
      unfold config_of in Hc. destruct (e_command e); simplify_eq. lia. }
  unfold derive_membership in Hmi. rewrite Hl in Hmi. simpl in Hmi. lia.
Qed.

(** ** The mutations *)
Lemma repr_save g s h : repr g s → repr g (save_hard_state h s).
Proof. by intros []. Qed.

Lemma repr_append g s es s' : repr g s → append es s = Ok s' → tidy (g ++ es) → repr (g ++ es) s'.
Proof.
  intros [Ht Hb Hl Hs] [_ ->]%append_Ok Htidy. unfold g_len in *.
  split; unfold snapshot_index in *; simpl; [done| | |].
  - unfold g_len. rewrite length_app. lia.
  - rewrite drop_app_le by lia. by rewrite Hl.
  - intros snap Hsn. eapply snap_of_prefix; [by apply prefix_app_r|by apply Hs].
Qed.

Lemma repr_truncate g s from s' :
  repr g s → truncate_from from s = Ok s' → repr (take (N.to_nat (from - 1)) g) s'.
Proof.
  intros [Ht Hb Hl Hs] [Hf ->]%truncate_from_Ok.
  assert (snapshot_index s ≤ g_len (take (N.to_nat (from - 1)) g)) as Hb'.
  { unfold g_len in *. rewrite length_take. lia. }
  split; [eapply tidy_prefix; [apply prefix_take|done]|done| |].
  - unfold snapshot_index in *. simpl. rewrite Hl, skipn_firstn_comm. f_equal. lia.
  - simpl. intros snap Hsn. unfold snapshot_index in *. rewrite Hsn in Hb'. simpl in Hb'.
    eapply snap_of_agree; [done| |by apply Hs]. rewrite take_take. f_equal.
    unfold snapshot_index in Hf. rewrite Hsn in Hf. simpl in Hf. lia.
Qed.

Lemma repr_compact `{!StateMachineLaws} g s k s' :
  repr g s → compact_to k (sm_snapshot (state_at g k)) (g_config (take (N.to_nat k) g)) s = Ok s' → repr g s'.
Proof.
  intros Hr Hc. pose proof (compact_to_range _ _ _ _ _ Hc) as Hk.
  rewrite (repr_last_index _ _ Hr) in Hk.
  apply compact_to_Ok in Hc as (e & He & ->). rewrite (repr_entry _ _ _ Hr) in He by lia.
  destruct Hr as [Ht Hb Hl Hs]. split; [done| | |]; unfold snapshot_index in *; simpl in *; [lia| |].
  - rewrite Hl, drop_drop. f_equal. lia.
  - intros snap [= <-]. split; simpl; [lia|lia| |done|intros; apply sm_restore_snapshot].
    rewrite g_term_pos by lia. by rewrite He.
Qed.

(** Installing a snapshot of [L]: a log that agrees at the boundary keeps
    its suffix, any other is replaced by the covered prefix. *)
Lemma repr_install g s snap s' L :
  repr g s → install_snapshot snap s = Ok s' → snap_of L snap → tidy L →
  let k := last_included_index snap in
  snapshot_index s < k ∧
  (g_term g k = Some (last_included_term snap) →
     take (N.to_nat k) g = take (N.to_nat k) L → repr g s') ∧
  (g_term g k ≠ Some (last_included_term snap) → repr (take (N.to_nat k) L) s').
Proof.
  intros Hr Hi Hs Htidy k. unfold install_snapshot in Hi. case_bool_decide as Hk; [done|].
  injection Hi as <-. fold k in Hk |- *. pose proof Hs as []. fold k in so_low0, so_high0.
  rewrite (repr_term _ _ _ Hr) by lia. split; [lia|]. split.
  - intros Ht Hagree. rewrite bool_decide_eq_true_2 by done.
    assert (k ≤ g_len g) as Hb by (apply g_term_bound; eauto).
    split; [apply Hr| | |]; unfold snapshot_index; simpl; fold k; [done| |].
    + rewrite (repr_entries_from _ _ _ Hr) by lia. f_equal. lia.
    + intros ? [= <-]. eapply snap_of_agree; [done|exact Hagree|done].
  - intros Ht. rewrite bool_decide_eq_false_2 by done.
    assert (g_len (take (N.to_nat k) L) = k) as Hlen by (unfold g_len in *; rewrite length_take; lia).
    split; unfold snapshot_index; simpl; fold k; [eapply tidy_prefix; [apply prefix_take|done]|lia| |].
    + rewrite drop_ge; [done|]. unfold g_len in Hlen. lia.
    + intros ? [= <-]. eapply snap_of_agree; [fold k; by rewrite Hlen| |done]. fold k. by rewrite take_take, Nat.min_id.
Qed.
End repr.
