(* ===== verification/Refine.v ===== *)
(** * One node takes the steps of [Raft]

    [node_rel a i n]: node [n] stands for node [i] of the abstract state
    [a]. For every handler, [Refine] shows that what it writes and sends is
    matched by abstract steps of node [i], effect by effect: [sim] keeps an
    abstract state for the node as it is now and one for every prefix of its
    effects, which is where a crash would leave it. *)
From stdpp Require Import functions.
From S2P Require Import Prelude Types Rng Storage Node NodeSteps NodeLife NodeInv NodeThm Elections Raft LogRepr.
Open Scope N_scope.

(** The channels whose proposals are followed, each with what is known of the
    entry that was made for it. *)
Class Tracked `{J : SerdeJson} := tracked : N → option (LogEntry → Prop).

Section relation.
Context `{J : SerdeJson} {SM : Type} `{!StateMachine SM} {Ch : Tracked} (sm0 : SM) (ids : gset N).
Implicit Types (n : RaftNode SM) (a : Abs) (i c v : NodeId) (T : Term) (g : list LogEntry).

(** ** Facts about the abstract state, all stable *)

(** [v] has held the first [k] entries of the log of [T]'s leader. *)
Definition acked a v T (k : LogIndex) : Prop :=
  k = 0 ∨ ∃ p, MkAck v T p ∈ a_acks a ∧ k ≤ g_len p.

(** [g] was once the log of [c] as the leader of [T]. *)
Definition lead_log a T c g : Prop := ∃ L, a_lead a !! T = Some (c, L) ∧ g `prefix_of` L.

(** What a request says about its sender [c]. *)
Definition req_ok a c (req : RpcRequest) (tag : SentTag) : Prop :=
  match req with
  | RequestVote r =>
      tag = TagVote (rv_term r) ∧ rv_candidate_id r = c ∧
      ∃ g, MkVote c (rv_term r) c g ∈ a_votes a ∧
        rv_last_log_index r = g_len g ∧ rv_last_log_term r = log_last_term g
  | PreVote _ => ∃ t, tag = TagPreVote t
  | AppendEntries r =>
      (∃ seq, tag = TagAppend (ae_term r) (ae_prev_log_index r) (N.of_nat (length (ae_entries r))) seq) ∧
      ae_leader_id r = c ∧
      ∃ g, lead_log a (ae_term r) c g ∧
        ae_prev_log_index r ≤ g_len g ∧
        g_term g (ae_prev_log_index r) = Some (ae_prev_log_term r) ∧
        ae_entries r = drop (N.to_nat (ae_prev_log_index r)) g ∧
        ae_leader_commit r ≤ g_len g ∧
        committed ids a (ae_term r) (take (N.to_nat (ae_leader_commit r)) g)
  | InstallSnapshot r =>
      tag = TagSnapshot (is_term r) (last_included_index (is_snapshot r)) ∧
      is_leader_id r = c ∧
      ∃ g, lead_log a (is_term r) c g ∧ snap_of sm0 g (is_snapshot r) ∧
        committed ids a (is_term r) (take (N.to_nat (last_included_index (is_snapshot r))) g)
  end.

(** What a reply delivered to [c] says about its sender. *)
Definition event_ok a c (ev : Event) : Prop :=
  match ev with
  | VoteReply t from (Ok (RequestVoteResp r)) =>
      rvr_vote_granted r = true → ∃ g, MkVote from t c g ∈ a_votes a
  | AppendReply t from prev cnt _ (Ok (AppendEntriesResp r)) =>
      aer_success r = true → acked a from t (prev + cnt)
  | InstallSnapshotReplyEv t from lii (Ok (InstallSnapshotResp r)) =>
      isr_term r ≤ t → acked a from t lii
  | _ => True
  end.

(** A proposal waiting on a followed channel is in the log of its leader. *)
Definition proposal_ok a i (p : PendingProposal) : Prop :=
  ∀ P, tracked (pp_committed p) = Some P →
    1 ≤ pp_index p ∧ ∃ L e, a_lead a !! pp_term p = Some (i, L) ∧
      L !! N.to_nat (pp_index p - 1) = Some e ∧ e_term e = pp_term p ∧ P e.
(** A followed entry is committed, by a term that [i] has reached. *)
Definition ack_ok a i (ch : N) : Prop :=
  ∀ P, tracked ch = Some P → ∃ t p k e, committed ids a t p ∧ p !! k = Some e ∧ P e ∧ t ≤ a_term a i.

(** What a node has told the others and its clients. *)
Definition says_ok a i (e : Effect) : Prop :=
  match e with
  | SendRpc _ req tag => req_ok a i req tag
  | Committed ch true => ack_ok a i ch
  | _ => True
  end.
Definition sends_ok a i (es : list Effect) : Prop := ∀ e, e ∈ es → says_ok a i e.

(** ** A node and its abstract counterpart *)
Record durable_rel a i (s : Storage) : Prop := {
  dr_term : a_term a i = current_term (st_hard_state s);
  dr_repr : repr sm0 (a_log a i) s;
  dr_vote c : voted_for (st_hard_state s) = Some c ↔
    ∃ g, MkVote i (current_term (st_hard_state s)) c g ∈ a_votes a;
  dr_boundary : committed ids a (current_term (st_hard_state s))
    (take (N.to_nat (snapshot_index s)) (a_log a i));
}.

(** From index [k] on, the log holds entries of term [T] only. *)
Definition own_from a i T (k : LogIndex) : Prop :=
  1 ≤ k ∧ ∀ j e, a_log a i !! j = Some e → k ≤ N.of_nat j + 1 → e_term e = T.

Definition role_rel a i T (r : Role) : Prop :=
  match r with
  | Candidate votes =>
      MkVote i T i (a_log a i) ∈ a_votes a ∧ (∀ L, a_lead a !! T ≠ Some (i, L)) ∧
      ∀ v, v ∈ votes → ∃ g, MkVote v T i g ∈ a_votes a
  | Leader l =>
      a_lead a !! T = Some (i, a_log a i) ∧ acked a i T (g_len (a_log a i)) ∧
      (∀ p k, match_index l !! p = Some k → acked a p T k) ∧
      own_from a i T (term_start_index l)
  | _ => True
  end.

(** A leader's commit index covers what the abstract leader knows. *)
Definition known_rel a T (ci : LogIndex) (r : Role) : Prop :=
  match r with Leader _ => a_known a T ≤ ci | _ => True end.

(** The node was started with the initial members, or to join, and the rules
    for changes are on. *)
Definition config_rel (c : RaftConfig) : Prop :=
  c_test_disable_reconfig_gates c = false ∧ (c_join c = false → dom (bootstrap_members c) = ids).
(** A leader knows a configuration. *)
Definition booted (c : RaftConfig) g (r : Role) : Prop :=
  match r with Leader _ => g_config g = None → c_join c = false | _ => True end.

Record node_rel a i n : Prop := {
  nr_self : self n = i;
  nr_config : config_rel (n_config n);
  nr_booted : booted (n_config n) (a_log a i) (n_role n);
  nr_members : members_ok (n_config n) (n_storage n) (n_members n) (n_members_index n);
  nr_durable : durable_rel a i (n_storage n);
  nr_applied : snapshot_index (n_storage n) ≤ n_last_applied n ≤ n_commit_index n;
  nr_commit : n_commit_index n ≤ g_len (a_log a i);
  nr_committed : committed ids a (cur_term n) (take (N.to_nat (n_commit_index n)) (a_log a i));
  nr_sm : n_state_machine n = state_at sm0 (a_log a i) (n_last_applied n);
  nr_staged k x ms : n_staged_snapshot n = Some (k, x, ms) →
    ms = g_config (take (N.to_nat k) (a_log a i)) ∧ k ≤ n_last_applied n ∧
    x = sm_snapshot (state_at sm0 (a_log a i) k);
  nr_role : role_rel a i (cur_term n) (n_role n);
  nr_known : known_rel a (cur_term n) (n_commit_index n) (n_role n);
}.

(** *** Stability *)
Lemma acked_mono a a' v T k : a_le a a' → acked a v T k → acked a' v T k.
Proof. intros Hle [?|(p & ? & ?)]; [by left|right]. exists p. split; [by eapply al_acks|done]. Qed.
Lemma acked_le a v T k k' : k' ≤ k → acked a v T k → acked a v T k'.
Proof. intros Hle [->|(p & ? & ?)]; [left; lia|right]. exists p. split; [done|lia]. Qed.
Lemma lead_log_mono a a' T c g : a_le a a' → lead_log a T c g → lead_log a' T c g.
Proof.
  intros Hle (L & HL & Hg). destruct (al_lead _ _ Hle _ _ _ HL) as (L' & ? & ?).
  exists L'. split; [done|by etrans].
Qed.
Lemma req_ok_mono a a' c req tag : a_le a a' → req_ok a c req tag → req_ok a' c req tag.
Proof.
  intros Hle. destruct req; simpl; [| |done|].
  - intros (? & ? & g & ? & ?). split; [done|]. split; [done|]. exists g. split; [by eapply al_votes|done].
  - intros (? & ? & g & ? & ? & ? & ? & ? & ?). split; [done|]. split; [done|]. exists g.
    split; [by eapply lead_log_mono|]. do 4 (split; [done|]). by eapply committed_mono.
  - intros (? & ? & g & ? & ? & ?). split; [done|]. split; [done|]. exists g.
    split; [by eapply lead_log_mono|]. split; [done|]. by eapply committed_mono.
Qed.
Lemma event_ok_mono a a' c ev : a_le a a' → event_ok a c ev → event_ok a' c ev.
Proof.
  intros Hle. destruct ev as [|? ? [[]|]|? ? ? ? ? [[]|]|? ? ? [[]|]]; simpl; try done.
  - intros H (g & ?)%H. exists g. by eapply al_votes.
  - intros H ?%H. by eapply acked_mono.
  - intros H ?%H. by eapply acked_mono.
Qed.
Lemma proposal_ok_mono a a' i p : a_le a a' → proposal_ok a i p → proposal_ok a' i p.
Proof.
  intros Hle H P (? & L & e & HL & He & ?)%H. split; [done|].
  destruct (al_lead _ _ Hle _ _ _ HL) as (L' & ? & ?). exists L', e. split; [done|].
  split; [by eapply prefix_lookup_Some|done].
Qed.
Lemma ack_ok_mono a a' i ch : a_le a a' → ack_ok a i ch → ack_ok a' i ch.
Proof.
  intros Hle H P (t & p & k & e & ? & ? & ? & ?)%H. exists t, p, k, e. pose proof (al_term _ _ Hle i).
  split; [by eapply committed_mono|]. split; [done|]. split; [done|lia].
Qed.
Lemma sends_ok_mono a a' i es : a_le a a' → sends_ok a i es → sends_ok a' i es.
Proof.
  intros Hle H e He%H. destruct e as [| | | |? []| | | | |]; simpl in *; [done|by eapply req_ok_mono|done|done| |done..].
  by eapply ack_ok_mono.
Qed.

(** Steps of other nodes do not matter to a node. *)
Lemma frame_durable a a' i j s :
  a_le a a' → a_frame j a a' → i ≠ j → durable_rel a i s → durable_rel a' i s.
Proof.
  intros Hle Hf Hne []. split.
  - by rewrite (af_term _ _ _ Hf).
  - by rewrite (af_log _ _ _ Hf).
  - intros c. rewrite dr_vote0. split; intros [g Hg]; exists g; [by eapply al_votes|].
    by apply (af_votes _ _ _ Hf).
  - rewrite (af_log _ _ _ Hf) by done. by eapply committed_mono.
Qed.
Lemma frame_role a a' i j T r :
  a_le a a' → a_frame j a a' → i ≠ j → role_rel a i T r → role_rel a' i T r.
Proof.
  intros Hle Hf Hne. destruct r as [| |votes|l]; simpl; [done..| |]; rewrite (af_log _ _ _ Hf) by done.
  - intros (? & Hno & Hv). split; [by eapply al_votes|]. split.
    + intros L. rewrite (af_lead _ _ _ Hf) by done. apply Hno.
    + intros v (g & ?)%Hv. exists g. by eapply al_votes.
  - intros (HL & ? & Hm & Ho). split; [by rewrite (af_lead _ _ _ Hf)|]. split; [by eapply acked_mono|].
    split; [intros p k ?%Hm; by eapply acked_mono|]. unfold own_from. by rewrite (af_log _ _ _ Hf).
Qed.
Lemma frame_node a a' i j n :
  a_le a a' → a_frame j a a' → i ≠ j → node_rel a i n → node_rel a' i n.
Proof.
  intros Hle Hf Hne []. split; rewrite ?(af_log _ _ _ Hf) by done; try done.
  - by eapply frame_durable.
  - by eapply committed_mono.
  - by eapply frame_role.
  - destruct (n_role n) as [| | |l]; try done. simpl. destruct nr_role0 as (HL & _).
    by rewrite (af_known _ _ _ Hf _ i _ Hne HL).
Qed.

(** What a node has committed is in the log of every leader from its term on. *)
Lemma rel_agrees a i n T c g k :
  a_inv ids a → node_rel a i n → lead_log a T c g → cur_term n ≤ T →
  k ≤ n_commit_index n → k ≤ g_len g → take (N.to_nat k) (a_log a i) = take (N.to_nat k) g.
Proof.
  intros Ha Hr (L & HL & HgL) Ht Hk Hg. destruct Hr as [_ _ _ _ _ _ Hkl Hc _ _ _ _].
  pose proof (leader_complete _ _ _ _ _ _ _ Ha Hc Ht HL) as Hp.
  apply take_prefix_agree in Hp; [|unfold g_len in *; lia].
  assert (take (N.to_nat k) (a_log a i) = take (N.to_nat k) L) as ->.
  { transitivity (take (N.to_nat k) (take (N.to_nat (n_commit_index n)) (a_log a i)));
      [by rewrite take_take, Nat.min_l by lia|]. rewrite <-Hp, take_take, Nat.min_l by lia. done. }
  destruct HgL as [x ->]. unfold g_len in Hg. by rewrite take_app_le by lia.
Qed.

(** Moving to another log that keeps everything committed. *)
Lemma node_rel_move a a' i n n' :
  node_rel a i n → a_le a a' →
  n_config n' = n_config n →
  members_ok (n_config n) (n_storage n') (n_members n') (n_members_index n') →
  booted (n_config n) (a_log a' i) (n_role n') →
  durable_rel a' i (n_storage n') → cur_term n ≤ cur_term n' →
  snapshot_index (n_storage n') ≤ n_last_applied n →
  n_commit_index n' = n_commit_index n → n_last_applied n' = n_last_applied n →
  n_state_machine n' = n_state_machine n → n_staged_snapshot n' = n_staged_snapshot n →
  take (N.to_nat (n_commit_index n)) (a_log a i) `prefix_of` a_log a' i →
  role_rel a' i (cur_term n') (n_role n') →
  known_rel a' (cur_term n') (n_commit_index n) (n_role n') → node_rel a' i n'.
Proof.
  intros [] Hle Ec Hm Hbo Hd Ht Hsi Ek El Esm Est Hp Hr Hkn.
  set (g := a_log a i) in *. set (p := take (N.to_nat (n_commit_index n)) g) in *.
  assert (g_len p = n_commit_index n) as Hlen by (unfold p, g_len in *; rewrite length_take; lia).
  assert (p `prefix_of` g) as Hpg by apply prefix_take.
  assert (∀ k, k ≤ n_commit_index n → state_at sm0 (a_log a' i) k = state_at sm0 g k) as Hst.
  { intros k Hk. rewrite (state_at_prefix _ p), (state_at_prefix _ p g); [done|done|lia|done|lia]. }
  split; rewrite ?Ec, ?Ek, ?El, ?Esm, ?Est; try done.
  - unfold self in *. by rewrite Ec.
  - lia.
  - rewrite <-Hlen. unfold g_len. pose proof (prefix_length _ _ Hp). lia.
  - eapply committed_mono; [done|exact Ht|]. eapply committed_prefix; [|exact nr_committed0].
    destruct Hp as [x ->]. rewrite take_app_le by (unfold g_len in Hlen; lia). unfold p. by rewrite take_take, Nat.min_id.
  - rewrite Hst by lia. done.
  - intros k v ms (-> & ? & ->)%nr_staged0. rewrite Hst by lia. split; [|done]. f_equal.
    assert (∀ x, p `prefix_of` x → take (N.to_nat k) x = take (N.to_nat k) p) as Hk.
    { intros x [y ->]. rewrite take_app_le; [done|]. unfold g_len in Hlen. lia. }
    by rewrite (Hk _ Hpg), (Hk _ Hp).
Qed.

(** The members a node counts are those of the abstract configuration. *)
Lemma rel_members a i n : node_rel a i n → n_members n = g_members (n_config n) (a_log a i).
Proof. intros []. destruct nr_members0 as [-> _]. by apply (repr_derive sm0), nr_durable0. Qed.
Lemma members_quorum a i n Q :
  node_rel a i n → quorum (dom (n_members n)) Q →
  quorum (conf ids (a_log a i)) Q ∧ (g_config (a_log a i) = None → c_join (n_config n) = false).
Proof.
  intros Hr. rewrite (rel_members _ _ _ Hr). unfold conf, g_members. destruct (g_config (a_log a i)) as [ms|]; [done|].
  destruct (c_join (n_config n)) eqn:Hj; simpl.
  - rewrite dom_empty_L. intros [HQ Hsz]. apply subseteq_size in HQ. rewrite size_empty in HQ, Hsz. simpl in Hsz. lia.
  - destruct (nr_config _ _ _ Hr) as [_ Hb]. by rewrite Hb.
Qed.
Lemma leader_members a i n l :
  node_rel a i n → n_role n = Leader l → dom (n_members n) = conf ids (a_log a i).
Proof.
  intros Hr Hl. pose proof (nr_booted _ _ _ Hr) as Hb. rewrite Hl in Hb.
  rewrite (rel_members _ _ _ Hr). unfold conf, g_members. destruct (g_config (a_log a i)) as [ms|] eqn:E; [done|].
  specialize (Hb E). rewrite Hb. by apply (nr_config _ _ _ Hr).
Qed.
End relation.

(** A node that has taken over a configuration. *)
Definition adopted `{J : SerdeJson} {SM : Type} `{!StateMachine SM} (ms : Membership) (k : LogIndex)
    (n : RaftNode SM) : RaftNode SM := set_members_index k (set_members ms n).
Definition resync `{J : SerdeJson} {SM : Type} `{!StateMachine SM} (n : RaftNode SM) : RaftNode SM :=
  adopted (derive_membership (n_storage n) (n_config n)).1 (derive_membership (n_storage n) (n_config n)).2 n.

(** ** Simulation, effect by effect *)
Section sim.
Context `{J : SerdeJson} {SM : Type} `{!StateMachine SM} {Ch : Tracked} {Au : Authored} (sm0 : SM) (ids : gset N).
Context (a0 : Abs) (s0 : Storage) (i : NodeId).
Implicit Types (n : RaftNode SM) (a : Abs) (g : list LogEntry).

Definition reach a : Prop := rtc (a_step ids i) a0 a.

(** The abstract state [a] is where node [n] is now, and for every point its
    effects have passed there is one where a crash would leave it. *)
Record sim_at a n : Prop := {
  sim_reach : reach a;
  sim_rel : node_rel sm0 ids a i n;
  sim_sends : sends_ok sm0 ids a i (n_effects n);
  sim_durable : n_storage n = durable s0 (n_effects n);
  sim_crash pre s : left_by s0 (n_effects n) pre s →
    ∃ a', reach a' ∧ durable_rel sm0 ids a' i s ∧ sends_ok sm0 ids a' i pre;
  sim_pending p : p ∈ n_pending n → proposal_ok a i p;
}.

Definition sim n : Prop := ∃ a, sim_at a n.

Lemma reach_inv a : a_inv ids a0 → reach a → a_inv ids a.
Proof. intros ?. by apply a_steps_inv. Qed.
Lemma reach_le a : reach a → a_le a0 a.
Proof. apply a_steps_le. Qed.

(** Effects that are neither writes nor unjustified sends. *)
Definition quiet a (es : list Effect) : Prop :=
  ∀ e, e ∈ es → match e with Persisted _ => False | _ => says_ok sm0 ids a i e end.

Lemma quiet_durable a s es : quiet a es → durable s es = s.
Proof.
  intros Hq. apply no_writes_durable. intros s' Hs'. by specialize (Hq _ Hs').
Qed.
Lemma quiet_sends a es es' :
  sends_ok sm0 ids a i es → quiet a es' → sends_ok sm0 ids a i (es ++ es').
Proof.
  intros Hs Hq e [?|Hin]%elem_of_app; [by apply Hs|]. specialize (Hq _ Hin). by destruct e.
Qed.

(** Effects that say nothing the relation is about. *)
Definition hushed (es : list Effect) : Prop :=
  ∀ e, e ∈ es → match e with Persisted _ | SendRpc _ _ _ | Committed _ true => False | _ => True end.
Lemma quiet_hushed a es : hushed es → quiet a es.
Proof. intros Hb e He. specialize (Hb e He). by destruct e as [| | | |? []| | | | |]. Qed.
Lemma quiet_prefix a es es' : es `prefix_of` es' → quiet a es' → quiet a es.
Proof. intros [x ->] Hq e He. apply Hq. set_solver. Qed.

(** Prefixes of an extended list. *)
Lemma prefix_app_cases {A} (pre l l' : list A) :
  pre `prefix_of` l ++ l' → pre `prefix_of` l ∨ ∃ q, q ≠ [] ∧ q `prefix_of` l' ∧ pre = l ++ q.
Proof.
  intros [x Hx]. apply app_eq_inv in Hx as [(k & -> & _)|(k & -> & ->)].
  - left. by apply prefix_app_r.
  - destruct k as [|y k]; [left; by rewrite app_nil_r|right].
    exists (y :: k). split; [done|]. split; [by apply prefix_app_r|done].
Qed.

(** A write among the new effects. *)
Lemma prefix_snoc_cases {A} (pre l l' : list A) x :
  pre ++ [x] `prefix_of` l ++ l' → pre ++ [x] `prefix_of` l ∨ ∃ q, q ++ [x] `prefix_of` l' ∧ pre = l ++ q.
Proof.
  intros [?|(q & Hne & Hq & E)]%prefix_app_cases; [by left|right].
  destruct q as [|y q _] using rev_ind; [done|]. rewrite app_assoc in E. apply app_inj_tail in E as [-> <-]. eauto.
Qed.

(** Abstract steps with no write. *)
Lemma sim_step a a' n n' es :
  sim_at a n → rtc (a_step ids i) a a' → node_rel sm0 ids a' i n' →
  n_storage n' = n_storage n ∧ n_pending n' = n_pending n →
  n_effects n' = n_effects n ++ es → quiet a' es → sim_at a' n'.
Proof.
  intros [Hr Hn Hs Hd Hc Hp] Hst Hn' [Es Ep] Ee Hq. pose proof (a_steps_le _ _ _ _ Hst) as Hle.
  assert (reach a') as Hr' by (unfold reach in *; by etrans).
  split; [done|done| | | |]; rewrite ?Ee, ?Ep.
  - apply quiet_sends; [by eapply sends_ok_mono|done].
  - by rewrite durable_app, <-Hd, (quiet_durable a').
  - intros pre s [Hpre ->|s' Hpre Ht].
    + apply prefix_app_cases in Hpre as [Hpre|(q & _ & Hq' & ->)]; [by apply Hc, left_whole|]. exists a'.
      assert (quiet a' q) as Hqq by by eapply quiet_prefix.
      rewrite durable_app, <-Hd, (quiet_durable a') by done. rewrite <-Es. split; [done|].
      split; [apply Hn'|]. apply quiet_sends; [by eapply sends_ok_mono|done].
    + apply prefix_snoc_cases in Hpre as [Hpre|(q & Hq' & ->)]; [by eapply Hc, left_torn|exfalso].
      eapply (Hq (Persisted s')), elem_of_prefix; [|exact Hq']. set_solver.
  - intros p ?%Hp. by eapply proposal_ok_mono.
Qed.

(** Abstract steps with one write, first. *)
Lemma sim_write a a' n n' es :
  sim_at a n → rtc (a_step ids i) a a' → node_rel sm0 ids a' i n' →
  n_effects n' = n_effects n ++ Persisted (n_storage n') :: es ∧ n_pending n' = n_pending n →
  quiet a' es →
  (∀ s, torn (n_storage n) (n_storage n') s →
     ∃ a1, rtc (a_step ids i) a a1 ∧ durable_rel sm0 ids a1 i s) →
  sim_at a' n'.
Proof.
  intros [Hr Hn Hs Hd Hc Hp] Hst Hn' [Ee Ep] Hq Htorn. pose proof (a_steps_le _ _ _ _ Hst) as Hle.
  assert (reach a') as Hr' by (unfold reach in *; by etrans).
  assert (∀ q, quiet a' q → sends_ok sm0 ids a' i (n_effects n ++ Persisted (n_storage n') :: q)) as Hsend.
  { intros q Hqq. change (Persisted ?s :: q) with ([Persisted s] ++ q). rewrite app_assoc.
    apply quiet_sends; [|done]. intros e [?| ->%list_elem_of_singleton]%elem_of_app; [|done].
    by eapply (sends_ok_mono _ _ a); [|apply Hs|]. }
  split; [done|done| | | |]; rewrite ?Ee, ?Ep.
  - by apply Hsend.
  - rewrite durable_app. simpl. by rewrite (quiet_durable a').
  - intros pre s [Hpre ->|s' Hpre Ht].
    + apply prefix_app_cases in Hpre as [Hpre|(q & Hne & [x Hq'] & ->)]; [by apply Hc, left_whole|]. exists a'.
      destruct q as [|e q]; [done|]. simpl in Hq'. injection Hq' as <- ->.
      assert (quiet a' q) as Hqq by (eapply quiet_prefix; [|exact Hq]; by apply prefix_app_r).
      rewrite durable_app. simpl. rewrite (quiet_durable a') by done. split; [done|].
      split; [apply Hn'|by apply Hsend].
    + apply prefix_snoc_cases in Hpre as [Hpre|(q & [x Hq'] & ->)]; [by eapply Hc, left_torn|].
      destruct q as [|e q]; simpl in Hq'; injection Hq' as Eq Ex.
      * subst s'. rewrite app_nil_r in *. rewrite <-Hd in Ht. destruct (Htorn s Ht) as (a1 & Hst1 & Hd1).
        exists a1. split; [unfold reach in *; etrans; [exact Hr|exact Hst1]|]. split; [done|].
        eapply sends_ok_mono; [by eapply a_steps_le|done].
      * exfalso. apply (Hq (Persisted s')). rewrite Ex. set_solver.
  - intros p ?%Hp. by eapply proposal_ok_mono.
Qed.

(** Updates of fields the relation does not read. *)
Lemma sim_frame a n n' es :
  sim_at a n → n_config n' = n_config n → n_members n' = n_members n →
  n_members_index n' = n_members_index n → n_storage n' = n_storage n → n_commit_index n' = n_commit_index n →
  n_last_applied n' = n_last_applied n → n_state_machine n' = n_state_machine n →
  n_staged_snapshot n' = n_staged_snapshot n → n_role n' = n_role n → n_pending n' = n_pending n →
  n_effects n' = n_effects n ++ es → hushed es → sim_at a n'.
Proof.
  intros Hs Ec Em Emi Es Ek El Esm Est Er Ep Ee Hb.
  eapply sim_step; [exact Hs|reflexivity| |done|done|by apply quiet_hushed].
  destruct (sim_rel _ _ Hs). split; unfold self, cur_term in *;
    rewrite ?Ec, ?Em, ?Emi, ?Es, ?Ek, ?El, ?Esm, ?Est, ?Er; try done.
Qed.

(** The waiting proposals. *)
Lemma sim_set_pending a n ps :
  sim_at a n → (∀ p, p ∈ ps → p ∈ n_pending n ∨ proposal_ok a i p) → sim_at a (set_pending ps n).
Proof.
  intros [Hr Hn Hs Hd Hc Hp] Hps. split; try done; [by destruct Hn|].
  intros p [?|?]%Hps; [by apply Hp|done].
Qed.

(** A positive verdict: the proposal's own entry is committed. *)
Lemma verdict_ack a n p :
  a_inv ids a → sim_at a n → p ∈ n_pending n → verdict n p = Some true → ack_ok ids a i (pp_committed p).
Proof.
  intros Ha [_ Hn _ _ _ Hp] Hin Hv cmd Hcmd. destruct (Hp _ Hin cmd Hcmd) as (Hpos & L & e & HL & He & _ & HP).
  unfold verdict in Hv. case_bool_decide as Ht; [done|]. case_bool_decide as Hk; [|done].
  destruct Hn as [_ _ _ _ [Hterm Hrepr _ _] _ Hlen Hcom _ _ _ _].
  assert (is_Some (term (n_storage n) (pp_index p))) as [Hlow _]%term_is_Some by eauto.
  rewrite (repr_term _ _ _ _ Hrepr), g_term_pos in Ht by lia. apply fmap_Some in Ht as (x & Hx & Et).
  destruct (ai_log_matched _ _ Ha i _ _ Hx) as (c & L' & HL' & Hpre).
  rewrite <-Et, HL in HL'. injection HL' as <- <-.
  assert (L !! N.to_nat (pp_index p - 1) = Some x) as Hx'.
  { eapply prefix_lookup_Some; [|exact Hpre]. by rewrite lookup_take_lt by lia. }
  rewrite He in Hx'. injection Hx' as <-. eexists _, _, _, e. split; [exact Hcom|].
  split; [rewrite lookup_take_lt; [exact Hx|lia]|]. split; [done|]. by rewrite Hterm.
Qed.
End sim.

Ltac hushed_tac :=
  let e := fresh "e" in let H := fresh in
  unfold hushed; intros e H;
  repeat match goal with
  | H : _ ∈ _ ++ _ |- _ => apply elem_of_app in H as [H|H]
  | H : _ ∈ [] |- _ => by apply elem_of_nil in H
  | H : _ ∈ [_] |- _ => apply list_elem_of_singleton in H; subst; exact I
  | H : _ ∈ _ <$> _ |- _ => apply list_elem_of_fmap in H as (? & H & _); subst; exact I
  | H : _ ∈ match ?x with _ => _ end |- _ => destruct x
  end.

Ltac sim_frame_tac H :=
  first [eapply (sim_frame _ _ _ _ _ _ _ _ []); [exact H|reflexivity..|symmetry; apply app_nil_r|]
        |eapply sim_frame; [exact H|reflexivity..|nsimpl; rewrite <-?app_assoc; reflexivity|]];
  hushed_tac.
Ltac sim_done :=
  match goal with
  | |- True => exact I
  | H : sim _ _ _ _ _ ?n |- sim _ _ _ _ _ ?n => exact H
  | H : sim_at _ _ _ _ _ ?a ?n |- sim_at _ _ _ _ _ ?a ?n => exact H
  | H : sim_at _ _ _ _ _ ?a ?n |- sim_at _ _ _ _ _ ?a _ => solve [sim_frame_tac H]
  | H : sim _ _ _ _ _ _ |- sim _ _ _ _ _ _ =>
      let a := fresh "a" in let H' := fresh in
      destruct H as [a H']; exists a; solve [sim_frame_tac H']
  end.
#[export] Hint Extern 1 (sim _ _ _ _ _ _) => sim_done : handlers.
#[export] Hint Extern 1 (sim_at _ _ _ _ _ _ _) => sim_done : handlers.
Ltac sim_walk := walk; try sim_done.

Section sim_ops.
Context `{J : SerdeJson} {SM : Type} `{!StateMachine SM} {Laws : StateMachineLaws} {Ch : Tracked} {Au : Authored} (sm0 : SM) (ids : gset N).
Context (a0 : Abs) (s0 : Storage) (i : NodeId) (H0 : a_inv ids a0).
(** A new leader's no-op may be added. *)
Context (Hnoop : ∀ e, e_command e = Noop → authored e).
Implicit Types (n : RaftNode SM) (a : Abs) (g : list LogEntry).
#[local] Abbreviation sim_at := (sim_at sm0 ids a0 s0 i).
#[local] Abbreviation sim := (sim sm0 ids a0 s0 i).
#[local] Abbreviation node_rel := (node_rel sm0 ids).
#[local] Abbreviation durable_rel := (durable_rel sm0 ids).
#[local] Abbreviation keeps m := (∀ n, sim n → wlp m (λ _, sim) n).

(** An operation that needs no abstract step and leaves term and commit
    index alone. *)
Record steady a n n' : Prop := {
  sy_sim : sim_at a n';
  sy_term : cur_term n' = cur_term n;
  sy_commit : n_commit_index n' = n_commit_index n;
  sy_follower : n_role n = Follower → n_role n' = Follower;
}.
#[local] Abbreviation stays m := (∀ a n, sim_at a n → wlp m (λ _, steady a n) n).

Lemma stays_keeps {A} (m : M (RaftNode SM) A) n :
  (∀ a n, sim_at a n → wlp m (λ _, steady a n) n) → sim n → wlp m (λ _, sim) n.
Proof. intros Hm [a Ha]. eapply wpp_mono; [by apply Hm|]. intros ? n' []. by exists a. Qed.

Lemma steady_refl a n : sim_at a n → steady a n n.
Proof. by intros. Qed.
Lemma steady_trans a n1 n2 n3 : steady a n1 n2 → steady a n2 n3 → steady a n1 n3.
Proof. intros [] []. split; [done|congruence..|]. auto. Qed.

Lemma sim_at_inv a n : sim_at a n → a_inv ids a.
Proof. intros Hs. by eapply reach_inv, sim_reach. Qed.

Lemma sim_role a n r :
  sim_at a n → role_rel a i (cur_term n) r → known_rel a (cur_term n) (n_commit_index n) r →
  booted (n_config n) (a_log a i) r → sim_at a (set_role r n).
Proof.
  intros Hs Hr Hk Hbo. eapply (sim_step _ _ _ _ _ a _ n _ []); [done|reflexivity| |done|by rewrite app_nil_r|].
  - destruct (sim_rel _ _ _ _ _ _ _ Hs). by split.
  - by intros e ?%elem_of_nil.
Qed.
Lemma emits_steady es a n : sim_at a n → hushed es → wlp (emits es) (λ _, steady a n) n.
Proof. intros. unfold emits. walk. split; [|done..]. by eapply sim_frame. Qed.
Lemma emit_steady e a n : sim_at a n → hushed [e] → wlp (emit e) (λ _, steady a n) n.
Proof. intros. unfold emit. walk. split; [|done..]. by eapply sim_frame. Qed.
Lemma reset_election_timer_steady : stays reset_election_timer.
Proof. intros a n Hn. unfold reset_election_timer, draw. walk; try done. split; [sim_done|done..]. Qed.
Lemma publish_status_steady : stays publish_status.
Proof. intros a n Hn. unfold publish_status, emit. walk; (split; [sim_done|done..]). Qed.
Lemma publish_membership_steady : stays publish_membership.
Proof. intros a n Hn. unfold publish_membership, emit. walk; (split; [sim_done|done..]). Qed.
Lemma resolve_pending_steady : stays resolve_pending.
Proof.
  intros a n Hn. unfold resolve_pending, emits. walk. split; [|done..].
  eapply (sim_step _ _ _ _ _ a _ (set_pending (filter (λ p, verdict n p = None) (n_pending n)) n)).
  - apply sim_set_pending; [done|]. intros p [_ ?]%list_elem_of_filter. by left.
  - reflexivity.
  - by destruct (sim_rel _ _ _ _ _ _ _ Hn).
  - done.
  - reflexivity.
  - intros e (p & Hp & Hv)%list_elem_of_omap. apply fmap_Some in Hv as (b & Hv & ->). simpl.
    destruct b; [|done]. by eapply verdict_ack; [eapply sim_at_inv|..].
Qed.

(** A leader's bookkeeping other than the match index. *)
Lemma set_leader_steady a n l l' :
  sim_at a n → n_role n = Leader l → match_index l' = match_index l →
  term_start_index l' = term_start_index l → sim_at a (set_role (Leader l') n).
Proof.
  intros Hs Hl Em Et. destruct (sim_rel _ _ _ _ _ _ _ Hs). rewrite Hl in *.
  apply sim_role; [done| |done|done]. simpl in *. by rewrite Em, Et.
Qed.

Lemma resolve_reads_steady : stays resolve_reads.
Proof.
  intros a n Hn. unfold resolve_reads. do 2 walk_step. destruct (n_role n) as [| | |l] eqn:Hl.
  1-3: walk; by apply steady_refl.
  unfold set_leader, emits. walk.
  pose proof (set_leader_steady a n l (set_pending_reads (filter (λ r, read_ready n l r = false) (pending_reads l)) l) Hn Hl eq_refl eq_refl).
  split; [sim_done|done..|]. intros Hf. congruence.
Qed.

Lemma adopt_membership_steady ms k a n :
  sim_at a (adopted ms k n) → wlp (adopt_membership ms k) (λ _, steady a (adopted ms k n)) n.
Proof.
  intros Hn. unfold adopt_membership. do 3 walk_step.
  eapply (wpp_mono _ _ (λ _ n1, steady a (adopted ms k n) (adopted ms k n1))).
  { destruct (n_role n) as [| | |l] eqn:Hl; [walk; by apply steady_refl..|].
    unfold set_leader. walk. split; [|done..|unfold adopted; nsimpl; congruence].
    exact (set_leader_steady a (adopted ms k n) l (adopt_leader n ms k l) Hn Hl eq_refl eq_refl). }
  intros [] n1 Hn1. do 4 walk_step. fold (adopted ms k n1).
  eapply wpp_mono; [apply (publish_membership_steady a), Hn1|].
  intros [] n2 Hn2. by eapply steady_trans.
Qed.

Lemma rescan_membership_steady a n :
  sim_at a (resync n) → wlp rescan_membership (λ _, steady a (resync n)) n.
Proof.
  intros Hn. unfold rescan_membership. do 2 walk_step. unfold resync in *.
  destruct (derive_membership (n_storage n) (n_config n)) as [ms k]. by apply adopt_membership_steady.
Qed.

(** Settling the proposals while the members may be out of date. *)
Definition resync_if (b : bool) n : RaftNode SM := if b then resync n else n.
Lemma resolve_pending_resync b a n :
  sim_at a (resync_if b n) → wlp resolve_pending (λ _ n', steady a (resync_if b n) (resync_if b n')) n.
Proof.
  destruct b; [|by apply resolve_pending_steady]. intros Hn. pose proof (resolve_pending_steady a _ Hn) as Hw.
  unfold wpp, resolve_pending, emits in *. unfold_M. exact Hw.
Qed.

(** *** Applying and compacting *)
Lemma apply_one a n e :
  sim_at a n → n_last_applied n < n_commit_index n → entry (n_storage n) (n_last_applied n + 1) = Some e →
  sim_at a (set_state_machine (sm_apply e (n_state_machine n)) (set_last_applied (n_last_applied n + 1) n)).
Proof.
  intros Hs Hlt He. eapply (sim_step _ _ _ _ _ a _ n _ []);
    [done|reflexivity| |done|by rewrite app_nil_r|by intros x ?%elem_of_nil].
  destruct (sim_rel _ _ _ _ _ _ _ Hs) as [? ? ? ? Hd ? ? ? Hsm Hst ? ?]. split; nsimpl; try done.
  - lia.
  - rewrite (repr_entry _ _ _ _ (dr_repr _ _ _ _ _ Hd)) in He by lia.
    replace (n_last_applied n + 1 - 1) with (n_last_applied n) in He by lia.
    by rewrite (state_at_step _ _ _ _ He), Hsm.
  - intros k x ms (? & ? & ?)%Hst. split; [done|]. split; [lia|done].
Qed.

Lemma apply_loop_steady fuel : stays (apply_loop fuel).
Proof.
  induction fuel as [|fuel IH]; intros a n Hn; simpl; [walk; by apply steady_refl|].
  do 3 walk_step; [|by walk; apply steady_refl]. bools. do 4 walk_step; [|done]. do 2 walk_step.
  match goal with H : entry _ _ = Some _ |- _ => pose proof (apply_one a n _ Hn ltac:(done) H) as Hn' end.
  eapply wpp_mono; [by apply IH|]. intros [] n2 []. by split.
Qed.

(** A captured state is of a committed prefix. *)
Lemma set_staged_steady a n st :
  sim_at a n →
  (∀ k x ms, st = Some (k, x, ms) → ms = g_config (take (N.to_nat k) (a_log a i)) ∧ k ≤ n_last_applied n ∧
     x = sm_snapshot (state_at sm0 (a_log a i) k)) →
  sim_at a (set_staged_snapshot st n).
Proof.
  intros Hs Hst. eapply (sim_step _ _ _ _ _ a _ n _ []);
    [done|reflexivity| |done|by rewrite app_nil_r|by intros x ?%elem_of_nil].
  destruct (sim_rel _ _ _ _ _ _ _ Hs). by split.
Qed.

Lemma compact_steady a n k :
  sim_at a n → k ≤ n_last_applied n → n_staged_snapshot n = None →
  wlp (storage_op (compact_to k (sm_snapshot (state_at sm0 (a_log a i) k)) (g_config (take (N.to_nat k) (a_log a i)))))
    (λ _, steady a n) n.
Proof.
  intros Hs Hk Hst. unfold storage_op, emit. walk; [|done].
  match goal with H : compact_to _ _ _ _ = Ok _ |- _ => rename H into Hc end.
  destruct (sim_rel _ _ _ _ _ _ _ Hs) as [? ? ? ? [] ? ? ? ? ? ? ?].
  pose proof (compact_hard_state _ _ _ _ _ Hc) as Eh. pose proof (compact_to_snapshot_index _ _ _ _ _ Hc) as Ei.
  split; [|unfold cur_term; nsimpl; by rewrite Eh|done..].
  eapply (sim_write _ _ _ _ _ a _ n _ []); [done|reflexivity| |done|by intros x ?%elem_of_nil|].
  2: { intros s Ht%torn_boundary. nsimpl. apply compact_to_Ok in Hc as (e & He & _).
       assert (is_Some (entry (n_storage n) k)) as Hk'%entry_is_Some by eauto. lia. }
  eapply node_rel_move; [apply Hs|reflexivity|done| |done| | | | done|done|done|done|apply prefix_take| |]; nsimpl.
  - assert (snapshot_index (n_storage n) ≤ k) by (apply compact_to_range in Hc; lia).
    eapply compact_members_ok; [by eapply repr_wf| |done]. by erewrite repr_config_at.
  - split; rewrite ?Eh, ?Ei; try done; [by eapply repr_compact|].
    eapply committed_prefix; [|exact nr_committed0]. apply take_prefix_le. lia.
  - unfold cur_term. nsimpl. by rewrite Eh.
  - by rewrite Ei.
  - unfold cur_term in *. nsimpl. by rewrite Eh.
  - unfold cur_term in *. nsimpl. by rewrite Eh.
Qed.

Lemma maybe_compact_steady : stays maybe_compact.
Proof.
  intros a n Hn. unfold maybe_compact. do 3 walk_step; [|by walk; apply steady_refl].
  rename n0 into threshold.
  (* a capture the boundary has overtaken is dropped *)
  apply wpp_bind. eapply (wpp_mono _ _ (λ _, steady a n)).
  { walk; [|by apply steady_refl]. split; [by apply set_staged_steady|done..]. }
  intros [] n1 Hn1. do 2 walk_step. apply wpp_bind.
  (* a new one is taken *)
  eapply (wpp_mono _ _ (λ _, steady a n1)).
  { destruct Hn1 as [Hs1 _ _ _]. walk; [|by apply steady_refl]. split; [|done..].
    pose proof (sim_rel _ _ _ _ _ _ _ Hs1) as Hr.
    apply set_staged_steady; [done|]. intros k x ms [= <- <- <-].
    split; [|split; [lia|by rewrite (nr_sm _ _ _ _ _ Hr)]].
    pose proof (nr_applied _ _ _ _ _ Hr). apply (repr_config_at sm0); [|lia]. by eapply dr_repr, nr_durable. }
  intros [] n2 Hn2. pose proof (steady_trans _ _ _ _ Hn1 Hn2) as Hn2'. do 2 walk_step.
  destruct (n_staged_snapshot n2) as [[[k x] ms]|] eqn:Hst; [|by walk].
  pose proof (sim_rel _ _ _ _ _ _ _ (sy_sim _ _ _ Hn2')) as Hr.
  destruct (nr_staged _ _ _ _ _ Hr _ _ _ Hst) as (-> & Hk & ->).
  walk_step; [|done]. do 2 walk_step.
  eapply wpp_mono; [apply (compact_steady a); [|done|done]|].
  - apply set_staged_steady; [apply Hn2'|done].
  - intros [] n3 []. eapply steady_trans; [exact Hn2'|]. by split.
Qed.

Lemma apply_committed_steady : stays apply_committed.
Proof.
  intros a n Hn. unfold apply_committed. do 3 walk_step.
  eapply wpp_mono; [by apply apply_loop_steady|]. intros [] n1 Hn1. walk_step.
  eapply wpp_mono; [apply resolve_pending_steady, Hn1|]. intros [] n2 Hn2. walk_step.
  eapply wpp_mono; [apply resolve_reads_steady, Hn2|]. intros [] n3 Hn3.
  eapply wpp_mono; [apply maybe_compact_steady, Hn3|]. intros [] n4 Hn4.
  eauto using steady_trans.
Qed.

(** Raising the commit index to a committed prefix. *)
Lemma sim_commit a n k :
  sim_at a n → n_commit_index n ≤ k → k ≤ g_len (a_log a i) →
  committed ids a (cur_term n) (take (N.to_nat k) (a_log a i)) → sim_at a (set_commit_index k n).
Proof.
  intros Hs Hk Hl Hc. eapply (sim_step _ _ _ _ _ a _ n _ []);
    [done|reflexivity| |done|by rewrite app_nil_r|by intros x ?%elem_of_nil].
  destruct (sim_rel _ _ _ _ _ _ _ Hs). split; nsimpl; try done; [lia|].
  change (cur_term (set_commit_index k n)) with (cur_term n). destruct (n_role n); simpl in *; [done..|lia].
Qed.

(** *** Stepping down *)

(** A higher term, with no vote yet. *)
Lemma raise_rel a n t :
  a_inv ids a → node_rel a i n → cur_term n < t →
  let a' := MkAbs (<[i := t]> (a_term a)) (a_log a) (a_votes a) (a_lead a) (a_acks a) (a_known a) in
  a_step ids i a a' ∧ durable_rel a' i (save_hard_state (MkHardState t None) (n_storage n)).
Proof.
  intros Ha Hn Ht a'. pose proof (nr_durable _ _ _ _ _ Hn) as [Et Hr Hv Hb].
  assert (a_step ids i a a') as Hst by (apply as_raise; unfold cur_term in Ht; lia).
  split; [done|]. split; simpl.
  - by rewrite fn_lookup_insert.
  - by apply repr_save.
  - intros c. split; [done|]. intros [g Hg]. apply (ai_vote_term _ _ Ha) in Hg. simpl in Hg.
    unfold cur_term in Ht. lia.
  - eapply committed_mono; [by eapply a_step_le| |exact Hb]. unfold cur_term in Ht. lia.
Qed.

Definition followed a t n n' : Prop :=
  ∃ a', rtc (a_step ids i) a a' ∧ sim_at a' n' ∧ n_role n' = Follower ∧
    cur_term n' = t ∧ n_commit_index n' = n_commit_index n.

Lemma become_follower_sim t ldr a n :
  sim_at a n → wlp (become_follower t ldr) (λ _, followed a t n) n.
Proof.
  intros Hs. unfold become_follower. do 4 walk_step; [|done]. bools.
  set (had := match n_role n with Leader l => _ | _ => _ end).
  set (drops := match n_role n with Leader l => _ | _ => [] end : list Effect).
  assert (hushed drops) as Hb by (unfold drops; destruct (n_role n); hushed_tac).
  pose proof (sim_rel _ _ _ _ _ _ _ Hs) as Hr.
  pose proof (nr_durable _ _ _ _ _ Hr) as Hd.
  (* the state after the role is gone *)
  apply wpp_bind.
  eapply (wpp_mono _ _ (λ _ n1, ∃ a' es, rtc (a_step ids i) a a' ∧
     sim_at a' (set_role Follower (set_effects (n_effects n1 ++ drops) n1)) ∧ n_role n1 = n_role n ∧
     cur_term n1 = t ∧ n_commit_index n1 = n_commit_index n ∧ n_effects n1 = n_effects n ++ es)).
  { walk_step; bools.
    - destruct (raise_rel a n t (sim_at_inv _ _ Hs) Hr) as [Hst Hd'].
      { unfold cur_term. lia. }
      unfold save_hs, storage_op, emit. walk; [|done]. simplify_eq.
      eexists _, _. split; [by apply rtc_once|]. split; [|done].
      eapply sim_write; [exact Hs|by apply rtc_once| | |by apply quiet_hushed, Hb|].
      3: { intros s Ht%torn_hard_state. nsimpl. apply (f_equal current_term) in Ht. simpl in Ht. lia. }
      + eapply node_rel_move; [apply Hr|by eapply a_step_le|done|apply Hr|done|exact Hd'| | |done|done|done|done|apply prefix_take|done|done].
        * unfold cur_term. nsimpl. simpl. lia.
        * apply Hr.
      + nsimpl. by rewrite <-app_assoc.
    - walk. exists a, []. rewrite app_nil_r. split; [done|]. split; [|split; [done|]; split; [unfold cur_term; lia|done]].
      eapply (sim_step _ _ _ _ _ a _ n); [exact Hs|reflexivity| |done|reflexivity|by apply quiet_hushed].
      destruct Hr. by split. }
  intros [] n1 (a' & es & Hst & Hn1 & Er & Et & Ek & Ee). unfold emits. do 6 walk_step. nsimpl.
  apply wpp_bind. eapply (wpp_mono _ _ (λ _ n2, steady a' (set_role Follower (set_effects (n_effects n1 ++ drops) n1)) n2)).
  { walk_step.
    - eapply wpp_mono; [apply (publish_membership_steady a'); sim_done|]. intros [] n2 []. by split.
    - split; [sim_done|done..]. }
  intros [] n2 [Hn2 Ht2 Hk2 Hf2]. eapply wpp_mono; [by apply reset_election_timer_steady|].
  intros [] n3 [Hn3 Ht3 Hk3 Hf3]. exists a'. split; [done|]. split; [done|].
  split; [by apply Hf3, Hf2|]. rewrite Ht3, Ht2, Hk3, Hk2. done.
Qed.

Lemma become_follower_keeps t ldr : keeps (become_follower t ldr).
Proof.
  intros n [a Ha]. eapply wpp_mono; [by apply become_follower_sim|].
  intros [] n' (a' & _ & ? & _). by exists a'.
Qed.

(** *** Leading *)
Lemma leader_facts a n l :
  sim_at a n → n_role n = Leader l →
  a_lead a !! cur_term n = Some (i, a_log a i) ∧ acked a i (cur_term n) (g_len (a_log a i)) ∧
  (∀ p k, match_index l !! p = Some k → acked a p (cur_term n) k) ∧
  own_from a i (cur_term n) (term_start_index l).
Proof.
  intros Hs Hl. pose proof (nr_role _ _ _ _ _ (sim_rel _ _ _ _ _ _ _ Hs)) as Hr. by rewrite Hl in Hr.
Qed.

Lemma send_steady a n p req tag :
  sim_at a n → req_ok sm0 ids a i req tag → wlp (emit (SendRpc p req tag)) (λ _, steady a n) n.
Proof.
  intros Hs Hok. unfold emit. walk. split; [|done..].
  eapply sim_step; [exact Hs|reflexivity| |done|reflexivity|].
  - by destruct (sim_rel _ _ _ _ _ _ _ Hs).
  - by intros e ->%list_elem_of_singleton.
Qed.

Lemma send_append_steady p : stays (send_append p).
Proof.
  intros a n Hs. unfold send_append, send_install_snapshot. do 2 walk_step.
  walk_step; [by walk; apply steady_refl|]. destruct (n_role n) as [| | |l] eqn:Hl; [by walk; apply steady_refl..|].
  destruct (leader_facts _ _ _ Hs Hl) as (Hlead & _).
  pose proof (sim_rel _ _ _ _ _ _ _ Hs) as [Hself _ _ _ [_ Hrepr _ Hbound] _ Hk Hc _ _ _ _].
  assert (lead_log a (cur_term n) i (a_log a i)) as Hll by (eexists; done).
  walk_step; bools.
  - do 4 walk_step; [|done]. match goal with H : st_snapshot _ = Some ?x |- _ => rename H into Hsn; rename x into snap end.
    apply send_steady; [done|]. split; [done|]. split; [done|]. exists (a_log a i). split; [done|].
    split; [by apply (rp_snap _ _ _ Hrepr)|]. simpl. unfold snapshot_index in Hbound. by rewrite Hsn in Hbound.
  - set (next := default _ _) in *.
    apply wpp_bind, wpp_expect; [|done]. intros prev Hprev.
    apply wpp_bind, wpp_expect; [|done]. intros pt Hpt.
    unfold checked_sub in Hprev. case_decide; [|done]. injection Hprev as <-.
    apply send_steady; [done|]. simpl. rewrite (repr_term _ _ _ _ Hrepr) in Hpt by lia.
    split; [by eexists|]. split; [done|]. exists (a_log a i). rewrite (repr_entries_from _ _ _ _ Hrepr) by lia.
    split; [done|]. split; [apply g_term_bound; eauto|]. done.
Qed.
Lemma send_appends_steady ps : stays (for_each ps send_append).
Proof.
  intros a n Hs. apply wpp_for_each; [by apply steady_refl|]. intros p n1 _ Hn1.
  eapply wpp_mono; [apply send_append_steady, Hn1|]. intros [] n2 Hn2. by eapply steady_trans.
Qed.

(** The members a commit counts have acknowledged. *)
Lemma holders_acked a n l k :
  sim_at a n → n_role n = Leader l → 1 ≤ k → (majority n ≤ holders n l k)%nat →
  ∃ Q, quorum (conf ids (a_log a i)) Q ∧ ∀ v, v ∈ Q → acked a v (cur_term n) k.
Proof.
  intros Hs Hl Hk Hh. destruct (leader_facts _ _ _ Hs Hl) as (_ & Hme & Hm & _).
  pose proof (sim_rel _ _ _ _ _ _ _ Hs) as Hr. pose proof Hr as [Hself _ _ _ [_ Hrepr _ _] _ _ _ _ _ _ _].
  exists (list_to_set (filter (λ x, holds n l k x = true) (btree_keys (n_members n)))). split.
  - eapply members_quorum; [exact Hr|]. split.
    + intros v [_ Hv]%elem_of_list_to_set%list_elem_of_filter. by rewrite elem_of_dom, <-elem_of_btree_keys.
    + rewrite size_list_to_set by apply NoDup_filter, NoDup_btree_keys.
      unfold holders, count_if in Hh. unfold majority, majority_of in Hh. by rewrite <-size_dom in Hh.
  - intros v [Hv _]%elem_of_list_to_set%list_elem_of_filter. unfold holds in Hv. rewrite Hself in Hv.
    case_bool_decide as E; bools.
    + subst v. rewrite (repr_last_index _ _ _ Hrepr) in Hv. by eapply acked_le.
    + destruct (match_index l !! v) as [k'|] eqn:Hkv; simpl in Hv; [|lia]. eapply acked_le; [exact Hv|]. by apply Hm.
Qed.

Lemma quorum_committed a n l k :
  sim_at a n → n_role n = Leader l → 1 ≤ k → (majority n ≤ holders n l k)%nat →
  term (n_storage n) k = Some (cur_term n) → snapshot_index (n_storage n) ≤ k →
  committed_in ids a (cur_term n) (a_log a i) (take (N.to_nat k) (a_log a i)) ∧ k ≤ g_len (a_log a i).
Proof.
  intros Hs Hl Hk Hh Ht Hsi. destruct (leader_facts _ _ _ Hs Hl) as (Hlead & _).
  destruct (holders_acked _ _ _ _ Hs Hl Hk Hh) as (Q & HQ & Hv).
  pose proof (sim_rel _ _ _ _ _ _ _ Hs) as [_ _ _ _ [_ Hrepr _ _] _ _ _ _ _ _ _].
  rewrite (repr_term _ _ _ _ Hrepr) in Ht by done.
  assert (k ≤ g_len (a_log a i)) as Hlen by (apply g_term_bound; eauto). split; [|done].
  rewrite g_term_pos in Ht by done. apply fmap_Some in Ht as (e & He & Het).
  exists i, (a_log a i), Q, e. split; [done|]. split; [done|]. split; [apply prefix_take|].
  assert (length (take (N.to_nat k) (a_log a i)) = N.to_nat k) as Hl' by (unfold g_len in Hlen; rewrite length_take; lia).
  split.
  { rewrite last_lookup, Hl', lookup_take_lt by lia. by replace (pred (N.to_nat k)) with (N.to_nat (k - 1)) by lia. }
  split; [done|]. split; [done|]. intros v [->|(p & HA & Hp)]%Hv; [lia|]. exists p. split; [done|].
  destruct (ai_ack_lead _ _ (sim_at_inv _ _ Hs) _ HA) as (c & L & HL & HpL). simpl in *. rewrite Hlead in HL. injection HL as <- <-.
  destruct (prefix_weak_total (take (N.to_nat k) (a_log a i)) p (a_log a i)) as [?|Hpp]; [apply prefix_take|done|done|].
  by rewrite (prefix_length_eq _ _ Hpp) by (unfold g_len in Hp; lia).
Qed.

(** The leader finds a prefix of its log committed. *)
Lemma leader_commit a n l k :
  sim_at a n → n_role n = Leader l → n_commit_index n ≤ k → k ≤ g_len (a_log a i) →
  committed_in ids a (cur_term n) (a_log a i) (take (N.to_nat k) (a_log a i)) → sim (set_commit_index k n).
Proof.
  intros Hs Hl Hk Hlen Hc. destruct (leader_facts _ _ _ Hs Hl) as (Hlead & _).
  pose proof (sim_rel _ _ _ _ _ _ _ Hs) as [? ? ? ? Hd ? ? ? ? ? Hrole Hkn].
  pose proof (dr_term _ _ _ _ _ Hd) as Et. fold (cur_term n) in Et. rewrite Hl in Hkn, Hrole. simpl in Hkn.
  pose proof (as_commit ids i a (a_log a i) k) as Hst. rewrite Et in Hst.
  specialize (Hst Hlead ltac:(lia)). pose proof (a_step_le _ _ _ _ Hst) as Hle.
  eexists. eapply (sim_step _ _ _ _ _ a _ n _ []);
    [done|by apply rtc_once| |done|by rewrite app_nil_r|by intros x ?%elem_of_nil].
  split; nsimpl; try done.
  - destruct Hd. split; try done. by eapply committed_mono.
  - lia.
  - right. exists (cur_term n), (a_log a i), (take (N.to_nat k) (a_log a i)). simpl. split; [reflexivity|]. split; [done|].
    split; [by eapply committed_in_mono|]. rewrite fn_lookup_insert, length_take. unfold g_len in *. lia.
  - rewrite Hl. destruct Hrole as (? & ? & Hm & ?). split; [done|]. split; [by eapply acked_mono|].
    split; [|done]. intros p j ?%Hm. by eapply acked_mono.
  - rewrite Hl. simpl. unfold cur_term. nsimpl. by rewrite fn_lookup_insert.
Qed.

Lemma maybe_advance_commit_keeps : keeps maybe_advance_commit.
Proof.
  intros n [a Hs]. unfold maybe_advance_commit. do 2 walk_step.
  destruct (n_role n) as [| | |l] eqn:Hl; [by walk; exists a..|].
  walk_step; bools; [by walk; exists a|]. apply wpp_bind, wpp_expect; [|done]. intros k Hk.
  apply candidate_quorum in Hk as [Hq _]; [|lia]. apply wpp_bind.
  eapply (wpp_mono _ _ (λ _, sim)).
  { walk_step; bools; [|by exists a]. do 2 walk_step.
    pose proof (sim_rel _ _ _ _ _ _ _ Hs) as [_ _ _ _ _ ? _ _ _ _ _ _].
    destruct (quorum_committed a n l k) as [Hc Hkl]; [done|done|lia|done|done|lia|].
    apply stays_keeps; [apply apply_committed_steady|]. by eapply leader_commit; [..|lia|done|done]. }
  intros [] n1 Hn1. do 2 walk_step. walk_step; [|done]. by apply become_follower_keeps.
Qed.

Lemma on_heartbeat_tick_keeps : keeps on_heartbeat_tick.
Proof.
  intros n Hn. unfold on_heartbeat_tick. do 2 walk_step. walk_step; [by apply become_follower_keeps|].
  apply wpp_bind. eapply wpp_mono; [apply stays_keeps; [apply send_appends_steady|done]|].
  intros [] n1 Hn1. sim_walk.
Qed.

Lemma tidy_snoc a t cmd :
  a_inv ids a → tidy (a_log a i ++ [MkLogEntry t (g_len (a_log a i) + 1) cmd]).
Proof.
  intros Ha. apply contiguous_app. split; [by eapply ai_log_tidy|]. split; [|done]. simpl. unfold g_len. lia.
Qed.

(** The members after a batch is appended. *)
Definition after_append (es : list LogEntry) n : RaftNode SM :=
  adopted (from_option fst (n_members n) (latest_config es))
          (from_option snd (n_members_index n) (latest_config es)) n.
Lemma after_append_plain es n : latest_config es = None → after_append es n = n.
Proof. intros E. unfold after_append. rewrite E. by destruct n. Qed.
Lemma after_append_change es n ms k : latest_config es = Some (ms, k) → after_append es n = adopted ms k n.
Proof. intros E. unfold after_append. by rewrite E. Qed.

Lemma append_members a n es s' :
  node_rel a i n → append es (n_storage n) = Ok s' →
  let n' := after_append es (stored s' n) in members_ok (n_config n) s' (n_members n') (n_members_index n').
Proof.
  intros Hr Ha. pose proof (append_members_ok _ _ _ _ _ _ Ha (nr_members _ _ _ _ _ Hr)) as Hm.
  unfold after_append. by destruct (latest_config es) as [[ms k]|].
Qed.

Lemma leader_next a n l cmd :
  sim_at a n → n_role n = Leader l → next_in a i (MkLogEntry (cur_term n) (last_index (n_storage n) + 1) cmd).
Proof.
  intros Hs Hl. destruct (leader_facts _ _ _ Hs Hl) as (Hlead & _).
  pose proof (nr_durable _ _ _ _ _ (sim_rel _ _ _ _ _ _ _ Hs)) as Hd. unfold next_in.
  rewrite (dr_term _ _ _ _ _ Hd), (repr_last_index _ _ _ (dr_repr _ _ _ _ _ Hd)).
  split; [done|]. by eexists.
Qed.

(** The leader extends its log. *)
Lemma leader_append a n l cmd :
  sim_at a n → n_role n = Leader l → (∀ ms, cmd = ConfigChange ms → lawful ids a (cur_term n) (a_log a i) ms) →
  let e := MkLogEntry (cur_term n) (last_index (n_storage n) + 1) cmd in
  authored e →
  wlp (storage_op (append [e])) (λ _ n', ∃ a' L, sim_at a' (after_append [e] n') ∧
    a_lead a' !! cur_term n = Some (i, L) ∧ L !! N.to_nat (last_index (n_storage n)) = Some e) n.
Proof.
  intros Hs Hl Hcmd e Hau. unfold e in *. clear e. destruct (leader_facts _ _ _ Hs Hl) as (Hlead & Hme & Hm & Hown).
  pose proof (sim_rel _ _ _ _ _ _ _ Hs) as Hr.
  pose proof (nr_durable _ _ _ _ _ Hr) as [Et Hrepr Hv Hb].
  rewrite (repr_last_index _ _ _ Hrepr) in *. set (e := MkLogEntry _ _ cmd) in *.
  unfold storage_op, emit. walk; [|done]. rename a1 into s'.
  match goal with H : append _ _ = Ok _ |- _ => rename H into Ha end.
  pose proof (append_hard_state _ _ _ Ha) as Eh.
  pose proof (tidy_snoc a (cur_term n) cmd (sim_at_inv _ _ Hs)) as Htidy. fold e in Htidy.
  change (current_term (st_hard_state (n_storage n))) with (cur_term n) in Et.
  assert (a_step ids i a (MkAbs (a_term a) (<[i := a_log a i ++ [e]]> (a_log a)) (a_votes a)
     (<[a_term a i := (i, a_log a i ++ [e])]> (a_lead a)) (MkAck i (a_term a i) (a_log a i ++ [e]) :: a_acks a) (a_known a)))
    as Hst by (apply as_append; rewrite ?Et; done).
  match type of Hst with a_step _ _ _ ?x => set (a' := x) in * end.
  pose proof (a_step_le _ _ _ _ Hst) as Hle.
  assert (a_log a' i = a_log a i ++ [e]) as Elog by (simpl; by rewrite fn_lookup_insert).
  assert (take (N.to_nat (n_commit_index n)) (a_log a i) `prefix_of` a_log a' i) as Hp.
  { rewrite Elog. etrans; [apply prefix_take|]. by apply prefix_app_r. }
  assert (snapshot_index s' = snapshot_index (n_storage n)) as Esi by (by apply append_Ok in Ha as [_ ->]).
  assert (durable_rel a' i s') as Hdur.
  { split; rewrite ?Eh, ?Esi, ?Elog; try done.
    + by eapply repr_append.
    + rewrite take_app_le by (pose proof (rp_bound _ _ _ Hrepr); unfold g_len in *; lia).
      by eapply committed_mono. }
  exists a', (a_log a i ++ [e]).
  assert (a_lead a' !! cur_term n = Some (i, a_log a i ++ [e])) as Hlead' by (simpl; by rewrite Et, lookup_insert_eq).
  split; [|split; [done|]].
  2: { apply list_lookup_middle. unfold g_len. lia. }
  eapply (sim_write _ _ _ _ _ a _ n _ []); [done|by apply rtc_once| |done|by intros x ?%elem_of_nil|].
  2: { intros s Ht. apply (torn_append [e] (n_storage n)) in Ht as [m Hm0]; [|exact Ha].
       destruct m as [|m]; cbn [take] in Hm0; [injection Hm0 as <-; by exists a|]. rewrite take_nil in Hm0.
       exists a'. split; [by apply rtc_once|]. rewrite Ha in Hm0. injection Hm0 as <-. exact Hdur. }
  assert (booted (n_config n) (a_log a i ++ [e]) (n_role n)) as Hboot.
  { pose proof (nr_booted _ _ _ _ _ Hr) as Hbo. rewrite Hl in Hbo |- *. simpl in *. rewrite g_config_app.
    by destruct (g_config [e]). }
  eapply node_rel_move; [exact Hr|done|done|exact (append_members _ _ _ _ Hr Ha)|by rewrite Elog| | | |done|done|done|done|done| |]; unfold after_append, adopted; nsimpl.

  - done.
  - unfold cur_term. nsimpl. by rewrite Eh.
  - rewrite Esi. apply Hr.
  - unfold cur_term. nsimpl. rewrite Eh. change (current_term (st_hard_state (n_storage n))) with (cur_term n).
    rewrite Hl. unfold role_rel. rewrite Elog. split; [done|]. split.
    { right. exists (a_log a i ++ [e]). split; [simpl; rewrite Et; by left|done]. }
    split; [intros p k ?%Hm; by eapply acked_mono|]. destruct Hown as [? Hown]. split; [done|].
    intros j x. rewrite Elog. intros [Hx|[_ [_ <-]%list_lookup_singleton_Some]]%lookup_app_Some; [by apply Hown|done].
  - unfold cur_term. nsimpl. rewrite Eh. apply (nr_known _ _ _ _ _ Hr).
Qed.

(** *** Elections *)
Lemma tally_quorum a n votes :
  sim_at a n → n_role n = Candidate votes → (majority n ≤ count_member_votes n votes)%nat →
  ∃ Q, quorum (dom (n_members n)) Q ∧ ∀ v, v ∈ Q → ∃ g, MkVote v (cur_term n) i g ∈ a_votes a.
Proof.
  intros Hs Hv Hc. pose proof (nr_role _ _ _ _ _ (sim_rel _ _ _ _ _ _ _ Hs)) as Hr.
  rewrite Hv in Hr. destruct Hr as (_ & _ & Hvotes). unfold majority, majority_of in Hc.
  exists (filter (λ id, is_Some (n_members n !! id)) votes). split.
  - split; [|by rewrite size_dom]. intros v [Hv' _]%elem_of_filter. by rewrite elem_of_dom.
  - intros v [_ Hin]%elem_of_filter. by apply Hvotes.
Qed.

(** A candidate with a quorum leads a term nobody has led. *)
Lemma lead_vacant a n votes Q :
  sim_at a n → n_role n = Candidate votes → quorum (conf ids (a_log a i)) Q →
  (∀ v, v ∈ Q → ∃ g, MkVote v (cur_term n) i g ∈ a_votes a) → a_lead a !! cur_term n = None.
Proof.
  intros Hs Hv HQ HQv. pose proof (sim_at_inv _ _ Hs) as Ha.
  pose proof (nr_role _ _ _ _ _ (sim_rel _ _ _ _ _ _ _ Hs)) as Hr. rewrite Hv in Hr. destruct Hr as (Hme & Hno & _).
  destruct (a_lead a !! cur_term n) as [[c L]|] eqn:HL; [exfalso|done].
  apply (Hno L). by rewrite <-(election_unique _ _ _ _ _ _ _ _ Ha HL Hme HQ HQv).
Qed.

Lemma elect_sim a n votes l :
  sim_at a n → n_role n = Candidate votes → (majority n ≤ count_member_votes n votes)%nat →
  (∀ p k, match_index l !! p = Some k → k = 0) → term_start_index l = last_index (n_storage n) + 1 →
  sim (set_role (Leader l) n).
Proof.
  intros Hs Hv Hc Hz Hts. destruct (tally_quorum _ _ _ Hs Hv Hc) as (Q & HQm & HQv).
  pose proof (sim_rel _ _ _ _ _ _ _ Hs) as Hr. destruct (members_quorum _ _ _ _ _ _ Hr HQm) as [HQ Hboot].
  pose proof (lead_vacant _ _ _ _ Hs Hv HQ HQv) as Hnone.
  pose proof (nr_durable _ _ _ _ _ Hr) as [Et Hrepr Hvo Hb].
  change (current_term (st_hard_state (n_storage n))) with (cur_term n) in Et.
  pose proof (nr_role _ _ _ _ _ Hr) as Hrole. rewrite Hv in Hrole. destruct Hrole as (Hself & _ & _).
  rewrite <-Et in *.
  pose proof (as_elect ids i a Q Hnone Hself HQ HQv) as Hst1.
  match type of Hst1 with a_step _ _ _ ?x => set (a1 := x) in * end.
  assert (a_lead a1 !! a_term a1 i = Some (i, a_log a i)) as Hl1 by (simpl; by rewrite lookup_insert_eq).
  pose proof (as_ack ids i a1 i (a_log a i) (a_log a i) Hl1 (reflexivity _) (reflexivity _)) as Hst2.
  match type of Hst2 with a_step _ _ _ ?x => set (a2 := x) in * end.
  assert (rtc (a_step ids i) a a2) as Hsteps by (eapply rtc_l; [done|]; by apply rtc_once).
  pose proof (a_steps_le _ _ _ _ Hsteps) as Hle.
  exists a2. eapply (sim_step _ _ _ _ _ a _ n _ []); [done|done| |done|by rewrite app_nil_r|by intros x ?%elem_of_nil].
  eapply node_rel_move; [exact Hr|done|done|apply Hr|exact Hboot| |reflexivity|apply Hr|done|done|done|done|apply prefix_take| |]; nsimpl.
  - split; try done; by eapply committed_mono.
  - change (cur_term (set_role (Leader l) n)) with (cur_term n). unfold role_rel.
    change (a_log a2 i) with (a_log a i). rewrite <-Et. split; [exact Hl1|]. split.
    { right. exists (a_log a i). split; [simpl; by left|done]. }
    split; [intros p k Hk; left; by eapply Hz|].
    rewrite Hts, (repr_last_index _ _ _ Hrepr). split; [lia|].
    intros j e Hj%lookup_lt_Some. change (a_log a2 i) with (a_log a i) in Hj. unfold g_len. lia.
  - change (cur_term (set_role (Leader l) n)) with (cur_term n). simpl.
    rewrite <-Et, (ai_known _ _ (sim_at_inv _ _ Hs) _ Hnone). lia.
Qed.

Lemma maybe_become_leader_keeps : keeps maybe_become_leader.
Proof.
  intros n [a Hs]. unfold maybe_become_leader. do 2 walk_step.
  destruct (n_role n) as [| |votes|l] eqn:Hv; [by walk; exists a..| |by walk; exists a].
  walk_step; bools; [by walk; exists a|]. unfold set_leader. do 2 walk_step.
  match goal with |- context [Leader ?l] => destruct (elect_sim a n votes l Hs Hv) as [a' Ha'] end.
  { lia. }
  { intros p k [_ <-]%lookup_gset_to_gmap_Some. done. }
  { done. }
  do 3 walk_step. eapply wpp_mono.
  { match goal with |- wpp _ _ _ ?m => change (cur_term n) with (cur_term m);
      change (last_index (n_storage n)) with (last_index (n_storage m)) end.
    eapply (leader_append a'); [sim_done|reflexivity|done|].
    by apply Hnoop. }
  intros [] n1 (a1 & _ & Hn1 & _). rewrite after_append_plain in Hn1 by done.
  walk_step. eapply wpp_mono; [by apply maybe_advance_commit_keeps; exists a1|].
  intros [] n2 Hn2. by apply on_heartbeat_tick_keeps.
Qed.

(** Voting in a term not voted in before. *)
Definition cast a c : Abs :=
  MkAbs (a_term a) (a_log a) (MkVote i (a_term a i) c (a_log a i) :: a_votes a) (a_lead a) (a_acks a) (a_known a).

Lemma cast_durable a s c :
  a_inv ids a → durable_rel a i s → voted_for (st_hard_state s) = None →
  a_le a (cast a c) →
  durable_rel (cast a c) i (save_hard_state (MkHardState (current_term (st_hard_state s)) (Some c)) s).
Proof.
  intros Ha [Et Hr Hv Hb] Hnone Hle. split; simpl; [done|by apply repr_save| |by eapply committed_mono].
  intros c'. rewrite Et. split.
  - intros [= <-]. exists (a_log a i). by left.
  - intros [g [E|Hg]%elem_of_cons]; [by simplify_eq|].
    assert (voted_for (st_hard_state s) = Some c') as E by (apply Hv; eauto). congruence.
Qed.
Lemma no_vote_yet a s :
  durable_rel a i s → voted_for (st_hard_state s) = None →
  ∀ V, V ∈ a_votes a → v_node V = i → v_term V ≠ a_term a i.
Proof.
  intros [Et Hr Hv Hb] Hnone [v T c g] HV En ET. simpl in *. subst v T. rewrite Et in HV.
  assert (voted_for (st_hard_state s) = Some c) as E by (apply Hv; eauto). congruence.
Qed.

Lemma candidacy_sim a n :
  sim_at a n → match n_role n with Follower | PreCandidate _ => True | _ => False end →
  let t := cur_term n + 1 in
  ∃ a', sim_at a' (set_role (Candidate {[self n]})
                     (stored (save_hard_state (MkHardState t (Some (self n))) (n_storage n)) n)) ∧
    MkVote i t i (a_log a' i) ∈ a_votes a'.
Proof.
  intros Hs Hrole t. pose proof (sim_rel _ _ _ _ _ _ _ Hs) as Hr. pose proof (sim_at_inv _ _ Hs) as Ha.
  destruct (raise_rel a n t Ha Hr) as [Hst1 Hd1]; [unfold t; lia|].
  match type of Hst1 with a_step _ _ _ ?x => set (a1 := x) in * end.
  pose proof (a_step_inv _ _ _ _ Ha Hst1) as Ha1.
  assert (a_term a1 i = t) as Et by (simpl; by rewrite fn_lookup_insert).
  assert (a_step ids i a1 (cast a1 i)) as Hst2.
  { apply (as_vote ids i a1 i (a_log a1 i)); [by eapply no_vote_yet|left|apply up_to_date_refl].
    split; [done|]. split; [done|]. rewrite Et. intros e He. apply (ai_log_term _ _ Ha) in He.
    pose proof (dr_term _ _ _ _ _ (nr_durable _ _ _ _ _ Hr)). unfold t, cur_term. lia. }
  assert (rtc (a_step ids i) a (cast a1 i)) as Hsteps by (eapply rtc_l; [done|]; by apply rtc_once).
  pose proof (a_steps_le _ _ _ _ Hsteps) as Hle.
  pose proof (nr_self _ _ _ _ _ Hr) as Hself. rewrite Hself.
  exists (cast a1 i). split; [|simpl; rewrite fn_lookup_insert; by left].
  eapply (sim_write _ _ _ _ _ a _ n _ []); [done|done| |done|by intros x ?%elem_of_nil|].
  2: { intros s Ht%torn_hard_state. unfold stored in Ht. nsimpl. apply (f_equal current_term) in Ht.
       simpl in Ht. unfold t, cur_term in Ht. lia. }
  eapply node_rel_move; [exact Hr|done|done|apply Hr|done| | |apply Hr|done|done|done|done|apply prefix_take| |done]; nsimpl.
  - unfold stored. nsimpl. apply (cast_durable a1 _ i Ha1 Hd1 eq_refl). by eapply a_step_le.
  - unfold cur_term, stored. nsimpl. simpl. unfold t, cur_term. lia.
  - unfold cur_term, stored. nsimpl. simpl. rewrite fn_lookup_insert. split; [by left|]. split.
    + intros L HL. pose proof (lead_reached _ _ _ _ _ Ha HL) as HV'.
      pose proof (dr_term _ _ _ _ _ (nr_durable _ _ _ _ _ Hr)). unfold t, cur_term in HV'. lia.
    + intros v ->%elem_of_singleton. exists (a_log a i). by left.
Qed.

Lemma start_election_keeps n :
  sim n → match n_role n with Follower | PreCandidate _ => True | _ => False end →
  wlp start_election (λ _, sim) n.
Proof.
  intros [a Hs] Hrole. destruct (candidacy_sim a n Hs Hrole) as (a' & Hn' & HV).
  unfold start_election, save_hs. do 3 walk_step. eapply wpp_storage_op; [done|]. do 4 walk_step. nsimpl.
  apply wpp_bind. eapply wpp_mono; [apply (reset_election_timer_steady a'); sim_done|].
  intros [] n1 Hn1. do 3 walk_step. eapply (wpp_mono _ _ (λ _, sim)).
  - unfold emits. walk. exists a'.
    pose proof (sim_rel _ _ _ _ _ _ _ (sy_sim _ _ _ Hn1)) as [Hself _ _ _ [_ Hrepr _ _] _ _ _ _ _ _ _].
    eapply sim_step; [apply Hn1|reflexivity| |done|reflexivity|].
    { by destruct (sim_rel _ _ _ _ _ _ _ (sy_sim _ _ _ Hn1)). }
    intros e (p & -> & _)%list_elem_of_fmap. split; [done|]. split; [exact Hself|]. simpl. exists (a_log a' i).
    by rewrite (repr_last_index _ _ _ Hrepr), (repr_last_term _ _ _ Hrepr).
  - intros [] n2 Hn2. by apply maybe_become_leader_keeps.
Qed.

Lemma maybe_start_election_keeps : keeps maybe_start_election.
Proof.
  intros n Hn. unfold maybe_start_election. do 2 walk_step.
  destruct (n_role n) as [|votes| |] eqn:Hr; [by walk| |by walk..].
  walk_step; [|done]. apply start_election_keeps; [done|by rewrite Hr].
Qed.

Lemma on_election_timeout_keeps : keeps on_election_timeout.
Proof.
  intros n [a Hs]. unfold on_election_timeout. do 3 walk_step.
  { apply stays_keeps; [apply reset_election_timer_steady|by exists a]. }
  pose proof (sim_role a n (PreCandidate {[self n]}) Hs I I I) as Hn'. do 4 walk_step. nsimpl. apply wpp_bind.
  eapply wpp_mono; [apply (reset_election_timer_steady a); sim_done|].
  intros [] n1 [Hn1 _ _ _]. do 3 walk_step. eapply (wpp_mono _ _ (λ _, sim)).
  - unfold emits. walk. exists a. eapply sim_step; [exact Hn1|reflexivity| |done|reflexivity|].
    { by destruct (sim_rel _ _ _ _ _ _ _ Hn1). }
    intros e (p & -> & _)%list_elem_of_fmap. by eexists.
  - intros [] n2 Hn2. by apply maybe_start_election_keeps.
Qed.

(** *** Client requests *)

(** The gates of a configuration change make it lawful. *)
Lemma gates_lawful a n l ms :
  sim_at a n → n_role n = Leader l → term_start_index l ≤ n_commit_index n → n_members_index n ≤ n_commit_index n →
  overlap (dom (n_members n)) (dom ms) → lawful ids a (cur_term n) (a_log a i) ms.
Proof.
  intros Hs Hl Hts Hmi Ho. destruct (leader_facts _ _ _ Hs Hl) as (HL & _ & _ & [Hpos Hown]).
  pose proof (sim_at_inv _ _ Hs) as Ha. pose proof (sim_rel _ _ _ _ _ _ _ Hs) as Hr.
  split; [by rewrite <-(leader_members _ _ _ _ _ _ Hr Hl)|].
  pose proof Hr as [_ _ _ Hm [_ Hrepr _ _] ? Hlen Hcom _ _ _ _]. unfold g_len in Hlen.
  (* what is committed ends in an entry of the leader's own term *)
  set (ci := n_commit_index n) in *. destruct (lookup_lt_is_Some_2 (a_log a i) (N.to_nat (ci - 1))) as [e He]; [lia|].
  assert (e_term e = cur_term n) as Et by (apply (Hown _ _ He); lia).
  assert (e ∈ take (N.to_nat ci) (a_log a i)) as Hin.
  { eapply list_elem_of_lookup_2. rewrite lookup_take_lt; [exact He|lia]. }
  destruct Hcom as [E|(T & X & q & HT & Hq & Hc & _)]; [rewrite E in Hin; by apply elem_of_nil in Hin|].
  assert (e_term e ≤ T) as Hge by (eapply committed_in_old; [done|exact Hc|by eapply elem_of_prefix]).
  assert (T = cur_term n) as -> by lia. exists X, q. split; [done|]. split; [by eapply committed_in_lead|].
  pose proof (repr_members_plain _ _ _ _ _ _ ci Hrepr Hm Hmi ltac:(lia)) as Hp.
  apply prefix_length in Hq. rewrite length_take in Hq.
  replace (length q) with (N.to_nat ci + (length q - N.to_nat ci))%nat by lia. rewrite <-drop_drop. by apply plain_log_drop.
Qed.

Lemma check_command_sim cmd a n l :
  sim_at a n → n_role n = Leader l →
  wlp (check_command cmd) (λ r n', n' = n ∧ ∀ new, r = Ok new →
    new = match cmd with ConfigChange ms => Some ms | _ => None end ∧
    ∀ ms, cmd = ConfigChange ms → lawful ids a (cur_term n) (a_log a i) ms) n.
Proof.
  intros Hs Hl. unfold check_command. destruct cmd as [| | |ms]; try by (walk; split; [done|]; naive_solver).
  unfold wpp, mbind, M_bind.
  destruct (validate_config_change ms n) as [[r n']|] eqn:Hv; [|done]. pose proof (validate_pure _ _ _ _ Hv) as ->.
  destruct r as [[]|err]; simpl; [|by split]. split; [done|]. intros new [= <-]. split; [done|]. intros ? [= <-].
  destruct (validated_change n l ms Hl Hv) as (Hg & _ & _ & Ho).
  destruct (nr_config _ _ _ _ _ (sim_rel _ _ _ _ _ _ _ Hs)) as [Hgates _]. destruct (Hg Hgates).
  eapply gates_lawful; [done..|]. intros Q Q' [??] [??]. apply Ho; [done|done|unfold majority_of; by rewrite <-size_dom..].
Qed.

Lemma propose_members cmd a1 n1 e :
  sim_at a1 (after_append [e] n1) → e_command e = cmd →
  wlp (match match cmd with ConfigChange ms => Some ms | _ => None end with
       | Some ms => adopt_membership ms (e_index e)
       | None => mret ()
       end) (λ _, sim_at a1) n1.
Proof.
  intros Hs <-. assert (latest_config [e] = config_of e) as El by (unfold latest_config; simpl; by destruct (config_of e)).
  unfold config_of in El. destruct (e_command e) as [| | |ms] eqn:Ec.
  1-3: rewrite after_append_plain in Hs by done; by walk.
  rewrite (after_append_change _ _ _ _ El) in Hs.
  eapply wpp_mono; [by apply adopt_membership_steady|]. by intros [] n2 [].
Qed.

(** A proposal of [c] on channel [r] may be added, and is the one followed. *)
Definition proposable a (c : Command) (r : N) : Prop := ∀ e, e_command e = c → next_in a i e →
  authored e ∧ ∀ P, tracked r = Some P → P e.

Lemma handle_propose_keeps c r a n :
  sim_at a n → proposable a c r → wlp (handle_propose c r) (λ _, sim) n.
Proof.
  intros Hs Htr. unfold handle_propose. do 3 walk_step.
  { apply stays_keeps; [|by exists a]. intros; apply emit_steady; [done|hushed_tac]. }
  bools. destruct (n_role n) as [| | |l] eqn:Hl; unfold is_leader in *; rewrite Hl in *; try done.
  apply wpp_bind. eapply wpp_mono; [by eapply (check_command_sim c a)|]. intros res n' [-> Hres].
  destruct res as [new|reason].
  2: { apply stays_keeps; [|by exists a]. intros; apply emit_steady; [done|hushed_tac]. }
  destruct (Hres _ eq_refl) as [-> Hlaw]. apply wpp_bind.
  pose proof (leader_next a n l c Hs Hl) as Hnext. apply Htr in Hnext as [Hau Hfol]; [|done].
  eapply wpp_mono; [by eapply leader_append|].
  intros [] n1 (a1 & L & Hn1 & HL & He). apply wpp_bind.
  eapply wpp_mono; [exact (propose_members c a1 n1 _ Hn1 eq_refl)|]. intros [] n2 Hn2. do 2 walk_step. nsimpl.
  apply wpp_bind. eapply (wpp_mono _ _ (λ _, sim)).
  { set (p := MkPendingProposal _ _ r).
    assert (sim_at a1 (set_pending (n_pending n2 ++ [p]) n2)) as Hp1; [|exists a1; unfold emit; sim_walk].
    apply sim_set_pending; [done|]. intros q [?| ->%list_elem_of_singleton]%elem_of_app; [by left|right].
    intros P HP%Hfol. split; [simpl; lia|]. exists L. eexists. split; [exact HL|].
    replace (N.to_nat (pp_index p - 1)) with (N.to_nat (last_index (n_storage n))) by (simpl; lia). done. }
  intros [] n3 Hn3. walk_step. eapply wpp_mono; [by apply maybe_advance_commit_keeps|].
  intros [] n4 Hn4. do 2 walk_step. apply stays_keeps; [apply send_appends_steady|done].
Qed.

Lemma handle_read_keeps r : keeps (handle_read r).
Proof.
  intros n [a Hs]. unfold handle_read. do 2 walk_step.
  destruct (n_role n) as [| | |l] eqn:Hl.
  1-3: apply stays_keeps; [|by exists a]; intros; apply emit_steady; [done|hushed_tac].
  unfold set_leader, emit. do 4 walk_step.
  match goal with |- context [set_role (Leader ?l')] => pose proof (set_leader_steady a n l l' Hs Hl eq_refl eq_refl) end.
  do 3 walk_step. eapply wpp_mono; [apply (send_appends_steady _ a); sim_done|].
  intros [] n1 []. apply stays_keeps; [apply resolve_reads_steady|by exists a].
Qed.

(** *** Votes *)
Lemma role_rel_cast a c t r : role_rel a i t r → role_rel (cast a c) i t r.
Proof.
  destruct r as [| |votes|l]; simpl; [done..| |].
  - intros (? & ? & Hv). split; [by right|]. split; [done|]. intros v (g & ?)%Hv. exists g. by right.
  - intros (? & Hme & Hm & Ho). done.
Qed.

Lemma cast_sim a n c g :
  sim_at a n → voted_for (hs n) = None →
  MkVote c (cur_term n) c g ∈ a_votes a → up_to_date g (a_log a i) →
  sim_at (cast a c) (stored (save_hard_state (MkHardState (cur_term n) (Some c)) (n_storage n)) n).
Proof.
  intros Hs Hnone HV Hu. pose proof (sim_rel _ _ _ _ _ _ _ Hs) as Hr. pose proof (sim_at_inv _ _ Hs) as Ha.
  pose proof (nr_durable _ _ _ _ _ Hr) as Hd. pose proof (dr_term _ _ _ _ _ Hd) as Et.
  assert (a_step ids i a (cast a c)) as Hst.
  { apply (as_vote ids i a c g); [by eapply no_vote_yet|right; split; [|by rewrite Et]|done].
    intros ->. by apply (no_vote_yet _ _ Hd Hnone _ HV). }
  pose proof (a_step_le _ _ _ _ Hst) as Hle.
  eapply (sim_write _ _ _ _ _ a _ n _ []); [done|by apply rtc_once| |done|by intros x ?%elem_of_nil|].
  2: { intros s Ht%torn_hard_state. unfold stored in Ht. nsimpl. apply (f_equal voted_for) in Ht.
       unfold hs in Hnone. simpl in Ht. congruence. }
  eapply node_rel_move; [exact Hr|done|done|apply Hr|apply Hr| |reflexivity|apply Hr|done|done|done|done|apply prefix_take| |].
  - unfold stored. nsimpl. by apply cast_durable.
  - apply role_rel_cast, Hr.
  - apply (nr_known _ _ _ _ _ Hr).
Qed.

(** Writing the vote already held. *)
Lemma recast_sim a n c :
  sim_at a n → voted_for (hs n) = Some c →
  sim_at a (stored (save_hard_state (MkHardState (cur_term n) (Some c)) (n_storage n)) n).
Proof.
  intros Hs Hc. pose proof (sim_rel _ _ _ _ _ _ _ Hs) as Hr.
  assert (save_hard_state (MkHardState (cur_term n) (Some c)) (n_storage n) = n_storage n) as Es.
  { unfold save_hard_state, cur_term, hs in *. destruct (n_storage n) as [[t v] sn lg]. simpl in *. by subst. }
  eapply (sim_write _ _ _ _ _ a _ n _ []); [done|reflexivity| |done|by intros x ?%elem_of_nil|].
  - unfold stored. rewrite Es. by destruct Hr.
  - intros s ->%torn_same; [exists a; split; [done|apply Hr]|]. by unfold stored.
Qed.

Lemma handle_request_vote_sim args c tag a n :
  sim_at a n → req_ok sm0 ids a c (RequestVote args) tag →
  wlp (handle_request_vote args) (λ r n', ∃ a', sim_at a' n' ∧
    (rvr_vote_granted r = true → ∃ g, MkVote i (rv_term args) c g ∈ a_votes a')) n.
Proof.
  intros Hs Hok. unfold handle_request_vote. do 2 walk_step. apply wpp_bind.
  eapply (wpp_mono _ _ (λ _ n1, ∃ a1, rtc (a_step ids i) a a1 ∧ sim_at a1 n1 ∧ rv_term args ≤ cur_term n1)).
  { walk_step; bools; [|exists a; split; [done|]; split; [done|lia]].
    eapply wpp_mono; [by apply become_follower_sim|]. intros [] n1 (a1 & ? & ? & _ & -> & _). exists a1. done. }
  intros [] n1 (a1 & Hst & Hn1 & Hge). do 2 walk_step. walk_step; bools; [by walk; exists a1|].
  assert (cur_term n1 = rv_term args) as Et by lia.
  pose proof (req_ok_mono _ _ _ _ _ _ _ (a_steps_le _ _ _ _ Hst) Hok) as (_ & Ec & g & HV & Hli & Hlt).
  walk_step; bools; [|by walk; exists a1].
  pose proof (sim_rel _ _ _ _ _ _ _ Hn1) as [_ _ _ _ [_ Hrepr Hvoted _] _ _ _ _ _ _ _].
  assert (up_to_date g (a_log a1 i)) as Hu.
  { match goal with H : log_up_to_date _ _ = true |- _ => apply log_up_to_date_spec in H end.
    rewrite Hli, Hlt, (repr_last_term _ _ _ Hrepr), (repr_last_index _ _ _ Hrepr) in *.
    unfold up_to_date, g_len in *. naive_solver lia. }
  apply wpp_bind. unfold save_hs. eapply wpp_storage_op; [done|].
  assert (∃ a2 g2, sim_at a2 (stored (save_hard_state (MkHardState (cur_term n1) (Some (rv_candidate_id args))) (n_storage n1)) n1) ∧
    MkVote i (rv_term args) c g2 ∈ a_votes a2) as (a2 & g2 & Hn2 & HV2).
  { match goal with H : _ || _ = true |- _ => apply orb_true_iff in H as [H|H]; bools end.
    - exists (cast a1 c), (a_log a1 i). rewrite Ec. rewrite <-Et in HV. split; [by eapply cast_sim|].
      rewrite <-Et. simpl. unfold cur_term. rewrite (dr_term _ _ _ _ _ (nr_durable _ _ _ _ _ (sim_rel _ _ _ _ _ _ _ Hn1))).
      by left.
    - match goal with H : voted_for _ = Some _ |- _ => pose proof (proj1 (Hvoted _) H) as [g2 Hg2] end.
      exists a1, g2. split; [by apply recast_sim|]. rewrite <-Et, <-Ec. exact Hg2. }
  apply wpp_bind. eapply wpp_mono; [by apply (reset_election_timer_steady a2)|]. intros [] n3 [Hn3 _ _ _].
  walk. exists a2. split; [done|]. eauto.
Qed.

Lemma handle_pre_vote_steady args : ∀ a n, sim_at a n → wlp (handle_pre_vote args) (λ _, steady a n) n.
Proof. intros a n Hs. unfold handle_pre_vote. walk. by apply steady_refl. Qed.

(** *** Agreement with a leader's log *)

(** What is committed here is in the log the leader of our term sends. *)
Lemma committed_agrees a n c g k :
  sim_at a n → lead_log a (cur_term n) c g → k ≤ n_commit_index n → k ≤ g_len g →
  take (N.to_nat k) (a_log a i) = take (N.to_nat k) g.
Proof.
  intros Hs Hl. eapply rel_agrees; [by eapply sim_at_inv|apply Hs|done|lia].
Qed.

Lemma lead_log_matched a T c g : a_inv ids a → lead_log a T c g → matched a g ∧ tidy g.
Proof.
  intros Ha (L & HL & Hg). split.
  - eapply matched_prefix; [done|by eapply ai_lead_matched].
  - eapply tidy_prefix; [done|by eapply ai_lead_tidy].
Qed.

(** Equal terms at an index mean equal logs up to it. *)
Lemma same_term_agrees a T c g k t :
  a_inv ids a → lead_log a T c g → g_term (a_log a i) k = Some t → g_term g k = Some t →
  take (N.to_nat k) (a_log a i) = take (N.to_nat k) g.
Proof.
  intros Ha Hl H1 H2. destruct (lead_log_matched _ _ _ _ Ha Hl) as [Hm _].
  destruct (decide (k = 0)) as [->|Hk]; [done|]. rewrite g_term_pos in H1, H2 by lia.
  apply fmap_Some in H1 as (e1 & He1 & ->). apply fmap_Some in H2 as (e2 & He2 & Eq).
  destruct (ai_log_matched _ _ Ha i _ _ He1) as (c1 & L1 & HL1 & Hp1).
  destruct (Hm _ _ He2) as (c2 & L2 & HL2 & Hp2). rewrite Eq, HL2 in HL1. injection HL1 as <- <-.
  replace (S (N.to_nat (k - 1))) with (N.to_nat k) in * by lia.
  apply lookup_lt_Some in He1, He2.
  destruct (prefix_weak_total _ _ _ Hp1 Hp2) as [Hp|Hp];
    [|symmetry]; (apply (prefix_length_eq _ _ Hp); rewrite !length_take; lia).
Qed.

(** *** Following a leader *)
Record follows a n a' n' : Prop := {
  fw_steps : rtc (a_step ids i) a a';
  fw_sim : sim_at a' n';
  fw_role : n_role n' = Follower;
  fw_term : cur_term n' = cur_term n;
  fw_commit : n_commit_index n' = n_commit_index n;
}.
Lemma follows_refl a n : sim_at a n → n_role n = Follower → follows a n a n.
Proof. by intros. Qed.
Lemma follows_trans a1 n1 a2 n2 a3 n3 : follows a1 n1 a2 n2 → follows a2 n2 a3 n3 → follows a1 n1 a3 n3.
Proof. intros [] []. split; [by etrans|done|done|congruence..]. Qed.
Lemma follows_steady a n a' n' n'' : follows a n a' n' → steady a' n' n'' → follows a n a' n''.
Proof. intros [] []. split; [done|done|auto|congruence..]. Qed.

(** A write that only moves the log, with the members it puts in force. *)
Lemma log_write a a' n s' ms mi :
  members_ok (n_config n) s' ms mi → sim_at a n → n_role n = Follower → a_step ids i a a' →
  a_term a' = a_term a → a_votes a' = a_votes a →
  repr sm0 (a_log a' i) s' → st_hard_state s' = hs n → snapshot_index s' = snapshot_index (n_storage n) →
  take (N.to_nat (n_commit_index n)) (a_log a i) `prefix_of` a_log a' i →
  (∀ s, torn (n_storage n) s' s → ∃ a1, rtc (a_step ids i) a a1 ∧ durable_rel a1 i s) →
  follows a n a' (adopted ms mi (stored s' n)).
Proof.
  intros Hm Hs Hf Hst Ea Ev Hrepr Eh Esi Hp Htorn. pose proof (sim_rel _ _ _ _ _ _ _ Hs) as Hr.
  pose proof (nr_durable _ _ _ _ _ Hr) as [Et _ Hv Hb]. pose proof (a_step_le _ _ _ _ Hst) as Hle.
  unfold hs in Eh. split; [by apply rtc_once| |done|unfold cur_term, adopted, stored; nsimpl; by rewrite Eh|done].
  eapply (sim_write _ _ _ _ _ a _ n _ []); [done|by apply rtc_once| |done|by intros x ?%elem_of_nil|done].
  eapply node_rel_move; [exact Hr|done|done|exact Hm|by unfold adopted, stored; nsimpl; rewrite Hf| | | |done|done|done|done|done|by unfold adopted, stored; nsimpl; rewrite Hf..].
  - unfold adopted, stored. nsimpl. split; rewrite ?Eh, ?Ea, ?Ev; try done. rewrite Esi.
    eapply committed_mono; [done|reflexivity|]. eapply committed_prefix; [|apply (nr_committed _ _ _ _ _ Hr)].
    pose proof (nr_applied _ _ _ _ _ Hr). pose proof (nr_commit _ _ _ _ _ Hr).
    rewrite <-(take_prefix_agree _ _ _ Hp) by (unfold g_len in *; lia). apply take_prefix_le. lia.
  - unfold adopted, stored, cur_term. nsimpl. by rewrite Eh.
  - unfold adopted, stored. nsimpl. rewrite Esi. apply Hr.
Qed.

Lemma cut_sim a n c g m e e' :
  sim_at a n → n_role n = Follower → lead_log a (cur_term n) c g →
  g !! m = Some e → a_log a i !! m = Some e' → e' ≠ e → take m g `prefix_of` a_log a i →
  n_commit_index n < N.of_nat m + 1 →
  wlp (storage_op (truncate_from (N.of_nat m + 1)))
    (λ _ n', ∃ a', follows a n a' (resync_if (bool_decide (N.of_nat m + 1 ≤ n_members_index n)) n') ∧
       a_log a' i = take m g) n.
Proof.
  intros Hs Hf (L & HL & HgL) Hg He' Hne Hp Hk. pose proof (sim_rel _ _ _ _ _ _ _ Hs) as Hr.
  pose proof (nr_durable _ _ _ _ _ Hr) as [Et Hrepr _ _].
  unfold storage_op. do 2 walk_step. do 2 walk_step; [|done].
  match goal with H : truncate_from _ _ = Ok ?s |- _ => rename H into Ht; rename s into s' end.
  change (wlp (modify (set_storage s') ≫= λ _, emit (Persisted s'))
    (λ _ n', ∃ a', follows a n a' (resync_if (bool_decide (N.of_nat m + 1 ≤ n_members_index n)) n') ∧
       a_log a' i = take m g) n). unfold emit. walk.
  assert (a_step ids i a (MkAbs (a_term a) (<[i := take m (a_log a i)]> (a_log a)) (a_votes a)
    (a_lead a) (a_acks a) (a_known a))) as Hst.
  { eapply as_truncate; [by rewrite Et|exact He'|exact (prefix_lookup_Some _ _ _ _ Hg HgL)|done]. }
  apply lookup_lt_Some in Hg as Hlt.
  assert (take m (a_log a i) = take m g) as Eg by (apply take_prefix_agree; [done|lia]).
  pose proof (repr_truncate _ _ _ _ _ Hrepr Ht) as Hrepr'.
  replace (N.to_nat (N.of_nat m + 1 - 1)) with m in Hrepr' by lia.
  assert (∃ ms mi, members_ok (n_config n) s' ms mi ∧
    resync_if (bool_decide (N.of_nat m + 1 ≤ n_members_index n)) (stored s' n) = adopted ms mi (stored s' n)) as (ms & mi & Hm & E).
  { case_bool_decide as Hmi; simpl; [eexists _, _; split; [apply members_ok_derive|done]|].
    exists (n_members n), (n_members_index n). split; [|done].
    eapply truncate_members_ok; [exact (repr_wf _ _ _ Hrepr)|exact Ht|apply Hr|lia]. }
  fold (stored s' n). rewrite E.
  eexists. split; [eapply log_write; [exact Hm|exact Hs|done|exact Hst|..]|]; simpl; rewrite ?fn_lookup_insert; try done.
  - by apply truncate_hard_state in Ht.
  - by apply truncate_from_Ok in Ht as [_ ->].
  - apply take_prefix_le. lia.
  - intros s ->%torn_same; [exists a; split; [done|apply Hr]|].
    apply truncate_from_Ok in Ht as [_ ->]. apply prefix_take.
Qed.

Lemma walk_entries_sim c g es : ∀ a n m,
  sim_at a n → n_role n = Follower → lead_log a (cur_term n) c g →
  es = drop m g → (m ≤ length g)%nat → take m g `prefix_of` a_log a i →
  wlp (walk_entries es) (λ r n', ∃ a', follows a n a' (resync_if r.2 n') ∧
    match r.1 with
    | Some first => ∃ m', (m ≤ m' < length g)%nat ∧ first = N.of_nat m' + 1 ∧ a_log a' i = take m' g
    | None => g `prefix_of` a_log a' i
    end) n.
Proof.
  induction es as [|e es IH]; intros a n m Hs Hf Hl Hes Hm Hp; simpl.
  { walk. exists a. split; [by apply follows_refl|]. simpl.
    assert (length (drop m g) = 0%nat) as Hz by by rewrite <-Hes. rewrite length_drop in Hz.
    by rewrite take_ge in Hp by lia. }
  assert (g !! m = Some e) as He by (rewrite <-(Nat.add_0_r m), <-lookup_drop, <-Hes; done).
  apply lookup_lt_Some in He as Hlt.
  destruct (lead_log_matched _ _ _ _ (sim_at_inv _ _ Hs) Hl) as [Hmg Hidx].
  pose proof (contiguous_lookup _ _ _ _ Hidx He) as Ei.
  pose proof (sim_rel _ _ _ _ _ _ _ Hs) as [_ _ _ _ [_ Hrepr _ _] [Hsi Hla] Hk _ _ _ _ _].
  assert (es = drop (S m) g) as Hes' by (rewrite (drop_S _ _ _ He) in Hes; by simplify_eq).
  assert (take (S m) g `prefix_of` a_log a i → wlp (walk_entries es) (λ r n', ∃ a', follows a n a' (resync_if r.2 n') ∧
    match r.1 with
    | Some first => ∃ m', (m ≤ m' < length g)%nat ∧ first = N.of_nat m' + 1 ∧ a_log a' i = take m' g
    | None => g `prefix_of` a_log a' i
    end) n) as Hnext.
  { intros Hp'. eapply wpp_mono; [apply (IH a n (S m)); [done..|lia|done]|].
    intros r n' (a' & Hn' & Hr). exists a'. split; [done|]. destruct (r.1); [|done].
    destruct Hr as (m' & ? & ?). exists m'. split; [lia|done]. }
  do 2 walk_step. walk_step; bools.
  { apply Hnext. eapply (committed_agrees _ _ _ _ (e_index e)) in Hs; [|done|lia|unfold g_len; lia].
    replace (N.to_nat (e_index e)) with (S m) in Hs by lia. rewrite <-Hs. apply prefix_take. }
  rewrite (repr_term _ _ _ _ Hrepr), g_term_pos by lia. replace (N.to_nat (e_index e - 1)) with m by lia.
  destruct (a_log a i !! m) as [e'|] eqn:He'; simpl.
  - walk_step; bools.
    + apply Hnext. assert (take (N.to_nat (e_index e)) (a_log a i) = take (N.to_nat (e_index e)) g) as E.
      { eapply same_term_agrees; [by eapply sim_at_inv|done| |]; rewrite g_term_pos by lia;
          replace (N.to_nat (e_index e - 1)) with m by lia; [by rewrite He'|rewrite He; simpl; by f_equal]. }
      replace (N.to_nat (e_index e)) with (S m) in E by lia. rewrite <-E. apply prefix_take.
    + do 2 walk_step; [|done]. bools. replace (e_index e) with (N.of_nat m + 1) in * by lia.
      apply wpp_bind. eapply wpp_mono; [eapply (cut_sim a n c g m e e'); try done; intros ->; done|].
      intros [] n1 (a1 & Hn1 & Hg1). apply wpp_bind.
      eapply wpp_mono; [exact (resolve_pending_resync _ a1 n1 (fw_sim _ _ _ _ Hn1))|]. intros [] n2 Hn2. walk.
      exists a1. split; [by eapply follows_steady|]. simpl. exists m. done.
  - walk. exists a. split; [by apply follows_refl|]. simpl. exists m. split; [lia|]. split; [lia|].
    apply lookup_ge_None in He'. symmetry. apply (prefix_length_eq _ _ Hp). rewrite length_take. lia.
Qed.

(** The rest of the leader's log, after the point of agreement; some of it,
    if the append is torn. *)
Lemma extend_torn a n c g es s :
  sim_at a n → lead_log a (cur_term n) c g → a_log a i ++ es `prefix_of` g →
  append es (n_storage n) = Ok s → ∃ a1, rtc (a_step ids i) a a1 ∧ durable_rel a1 i s.
Proof.
  intros Hs Hl Hg Ha. pose proof Hl as (L & HL & HgL). pose proof (sim_rel _ _ _ _ _ _ _ Hs) as Hr.
  pose proof (nr_durable _ _ _ _ _ Hr) as [Et Hrepr Hv Hb].
  assert (a_step ids i a (MkAbs (a_term a) (<[i := a_log a i ++ es]> (a_log a)) (a_votes a) (a_lead a) (a_acks a) (a_known a))) as Hst.
  { eapply as_extend; [by rewrite Et|by apply prefix_app_r|by etrans]. }
  eexists. split; [by apply rtc_once|]. pose proof (a_step_le _ _ _ _ Hst) as Hle.
  pose proof (append_hard_state _ _ _ Ha) as Eh. apply append_Ok in Ha as Ha'. destruct Ha' as [_ Es].
  assert (snapshot_index s = snapshot_index (n_storage n)) as Esi by by rewrite Es.
  split; rewrite ?Eh, ?Esi; simpl; rewrite ?fn_lookup_insert; try done.
  - eapply repr_append; [done..|]. eapply tidy_prefix; [exact Hg|]. eapply lead_log_matched; [by eapply sim_at_inv|done].
  - rewrite take_app_le by (pose proof (rp_bound _ _ _ Hrepr); unfold g_len in *; lia). by eapply committed_mono.
Qed.

Lemma extend_sim a n c g m :
  sim_at a n → n_role n = Follower → lead_log a (cur_term n) c g → a_log a i = take m g →
  wlp (storage_op (append (drop m g)))
    (λ _ n', ∃ a', follows a n a' (after_append (drop m g) n') ∧ a_log a' i = g) n.
Proof.
  intros Hs Hf Hl Hg. pose proof Hl as (L & HL & HgL). pose proof (sim_rel _ _ _ _ _ _ _ Hs) as Hr.
  pose proof (nr_durable _ _ _ _ _ Hr) as [Et Hrepr _ _].
  unfold storage_op. do 2 walk_step. do 2 walk_step; [|done].
  match goal with H : append _ _ = Ok ?s |- _ => rename H into Ha; rename s into s' end.
  change (wlp (modify (set_storage s') ≫= λ _, emit (Persisted s'))
    (λ _ n', ∃ a', follows a n a' (after_append (drop m g) n') ∧ a_log a' i = g) n). unfold emit. walk.
  assert (a_log a i `prefix_of` g) as Hpre by (rewrite Hg; apply prefix_take).
  assert (a_step ids i a (MkAbs (a_term a) (<[i := g]> (a_log a)) (a_votes a) (a_lead a) (a_acks a) (a_known a))) as Hst.
  { eapply as_extend; [by rewrite Et|done|done]. }
  assert (a_log a i ++ drop m g = g) as Eg by (rewrite Hg; apply take_drop).
  eexists. split; [eapply (log_write _ _ _ s'); [exact (append_members _ _ _ _ Hr Ha)|exact Hs|done|exact Hst|..]|]; simpl; rewrite ?fn_lookup_insert; try done.
  - rewrite <-Eg. eapply repr_append; [done..|]. rewrite Eg.
    eapply lead_log_matched; [by eapply sim_at_inv|done].
  - by apply append_hard_state in Ha.
  - by apply append_Ok in Ha as [_ ->].
  - etrans; [apply prefix_take|done].
  - intros s [q Hq]%(torn_append _ _ _ _ Ha). eapply extend_torn; [exact Hs|exact Hl| |exact Hq].
    rewrite Hg. etrans; [apply prefix_app, prefix_take|]. by rewrite take_drop.
Qed.

Lemma lead_log_follows a n a' n' c g :
  follows a n a' n' → lead_log a (cur_term n) c g → lead_log a' (cur_term n') c g.
Proof. intros [] Hl. rewrite fw_term0. eapply lead_log_mono; [by eapply a_steps_le|done]. Qed.

Lemma accept_entries_sim args c g a n :
  sim_at a n → n_role n = Follower → lead_log a (cur_term n) c g →
  ae_entries args = drop (N.to_nat (ae_prev_log_index args)) g → ae_prev_log_index args ≤ g_len g →
  take (N.to_nat (ae_prev_log_index args)) g `prefix_of` a_log a i →
  wlp (accept_entries args) (λ _ n', ∃ a', follows a n a' n' ∧ g `prefix_of` a_log a' i) n.
Proof.
  intros Hs Hf Hl Hes Hprev Hp. unfold accept_entries. apply wpp_bind.
  eapply wpp_mono; [eapply (walk_entries_sim c g); [exact Hs|done|done|exact Hes|unfold g_len in Hprev; lia|done]|].
  intros [append_from truncated] n1 (a1 & Hn1 & Hres). simpl in Hres. apply wpp_bind.
  eapply (wpp_mono _ _ (λ _, steady a1 (resync_if truncated n1))).
  { simpl in Hn1. destruct truncated; simpl; [apply rescan_membership_steady, Hn1|apply wpp_ret, steady_refl, Hn1]. }
  intros [] n2 Hn2. pose proof (follows_steady _ _ _ _ _ Hn1 Hn2) as Hn2'.
  pose proof (lead_log_follows _ _ _ _ _ _ Hn2' Hl) as Hl2.
  destruct append_from as [first|]; [|walk; by exists a1].
  destruct Hres as (m' & Hm' & -> & Hg). apply wpp_bind, wpp_expect; [|done]. intros batch Hb.
  assert (batch = drop m' g) as ->.
  { unfold batch_from, checked_sub in Hb. case_decide; simpl in Hb; [|done]. case_bool_decide; [|done].
    injection Hb as <-. rewrite Hes, drop_drop. f_equal. lia. }
  apply wpp_bind. eapply wpp_mono; [eapply extend_sim; [apply Hn2'|apply Hn2'|done|done]|].
  intros [] n3 (a3 & Hn3 & Hg3). destruct (latest_config (drop m' g)) as [[ms k]|] eqn:El.
  - rewrite (after_append_change _ _ _ _ El) in Hn3.
    eapply wpp_mono; [apply (adopt_membership_steady _ _ a3), Hn3|]. intros [] n4 Hn4.
    exists a3. split; [|by rewrite Hg3]. eapply follows_trans; [done|]. by eapply follows_steady.
  - rewrite (after_append_plain _ _ El) in Hn3. walk. exists a3. split; [by eapply follows_trans|by rewrite Hg3].
Qed.

Lemma ack_sim a n c g :
  sim_at a n → lead_log a (cur_term n) c g → g `prefix_of` a_log a i →
  ∃ a', rtc (a_step ids i) a a' ∧ a_log a' i = a_log a i ∧ sim_at a' n ∧
    acked a' i (cur_term n) (g_len g).
Proof.
  intros Hs (L & HL & HgL) Hg. pose proof (sim_rel _ _ _ _ _ _ _ Hs) as Hr.
  pose proof (dr_term _ _ _ _ _ (nr_durable _ _ _ _ _ Hr)) as Et. fold (cur_term n) in Et.
  assert (a_step ids i a (MkAbs (a_term a) (a_log a) (a_votes a) (a_lead a)
    (MkAck i (a_term a i) g :: a_acks a) (a_known a))) as Hst by (eapply as_ack; [by rewrite Et|done|done]).
  pose proof (a_step_le _ _ _ _ Hst) as Hle. eexists. split; [by apply rtc_once|]. split; [done|]. split.
  - eapply (sim_step _ _ _ _ _ a _ n n []); [done|by apply rtc_once| |done|by rewrite app_nil_r|by intros x ?%elem_of_nil].
    eapply node_rel_move; [exact Hr|done|done|apply Hr|apply Hr| |reflexivity|apply Hr|done|done|done|done|apply prefix_take| |apply (nr_known _ _ _ _ _ Hr)].
    + destruct (nr_durable _ _ _ _ _ Hr). split; try done. by eapply committed_mono.
    + pose proof (nr_role _ _ _ _ _ Hr) as Hrole. destruct (n_role n); simpl in *; try done.
      destruct Hrole as (? & ? & Hm & ?). split; [done|]. split; [by eapply acked_mono|].
      split; [|done]. intros p k ?%Hm. by eapply acked_mono.
  - right. exists g. split; [simpl; rewrite Et; by left|done].
Qed.

Lemma prev_agrees a n c g args :
  sim_at a n → lead_log a (cur_term n) c g → ae_prev_log_index args ≤ g_len g →
  g_term g (ae_prev_log_index args) = Some (ae_prev_log_term args) → prev_matches n args = true →
  take (N.to_nat (ae_prev_log_index args)) g `prefix_of` a_log a i.
Proof.
  intros Hs Hl Hprev Ht Hm. pose proof (sim_rel _ _ _ _ _ _ _ Hs) as [_ _ _ _ [_ Hrepr _ _] [? ?] _ _ _ _ _ _].
  assert (take (N.to_nat (ae_prev_log_index args)) (a_log a i) = take (N.to_nat (ae_prev_log_index args)) g) as <-;
    [|apply prefix_take].
  unfold prev_matches in Hm. destruct (term (n_storage n) (ae_prev_log_index args)) as [t|] eqn:Et; bools.
  - subst t. assert (is_Some (term (n_storage n) (ae_prev_log_index args))) as [? _]%term_is_Some by eauto.
    rewrite (repr_term _ _ _ _ Hrepr) in Et by lia. by eapply same_term_agrees; [eapply sim_at_inv|..].
  - eapply committed_agrees; [done|done|lia|done].
Qed.

Lemma handle_append_entries_sim args c tag a n :
  sim_at a n → req_ok sm0 ids a c (AppendEntries args) tag →
  wlp (handle_append_entries args) (λ r n', ∃ a', sim_at a' n' ∧
    (aer_success r = true →
     acked a' i (ae_term args) (ae_prev_log_index args + N.of_nat (length (ae_entries args))))) n.
Proof.
  intros Hs (_ & _ & g & Hl & Hprev & Hpt & Hes & Hlc & Hcom). unfold handle_append_entries. do 2 walk_step.
  walk_step; bools; [by walk; exists a|]. apply wpp_bind.
  eapply wpp_mono; [by apply become_follower_sim|]. intros [] n1 (a1 & Hst1 & Hn1 & Hf1 & Ht1 & _).
  pose proof (a_steps_le _ _ _ _ Hst1) as Hle1. do 4 walk_step.
  match goal with |- wpp _ _ _ ?m => assert (sim_at a1 m) as Hm by sim_done;
    assert (n_role m = Follower) as Hfm by done; assert (cur_term m = ae_term args) as Htm by done;
    generalize dependent m; clear n1 Hn1 Hf1 Ht1; intros n1 Hn1 Hf1 Ht1 end.
  rewrite <-Ht1 in Hl. pose proof (lead_log_mono _ _ _ _ _ Hle1 Hl) as Hl1.
  walk_step; bools; [by walk; exists a1|]. apply wpp_bind. eapply wpp_mono.
  { eapply (accept_entries_sim args c g); try done. by eapply prev_agrees. }
  intros [] n2 (a2 & Hn2 & Hg2). pose proof (lead_log_follows _ _ _ _ _ _ Hn2 Hl1) as Hl2.
  destruct (ack_sim a2 n2 c g (fw_sim _ _ _ _ Hn2) Hl2 Hg2) as (a3 & Hst3 & Elog & Hn3 & Hack).
  pose proof (a_steps_le _ _ _ _ Hst3) as Hle3.
  assert (ae_prev_log_index args + N.of_nat (length (ae_entries args)) = g_len g) as Elen.
  { rewrite Hes, length_drop. unfold g_len in *. lia. }
  rewrite Elen. rewrite (fw_term _ _ _ _ Hn2), Ht1 in Hack.
  do 2 walk_step. apply wpp_bind. eapply (wpp_mono _ _ (λ _ n', sim_at a3 n')).
  { walk_step; [|done]. do 2 walk_step.
    assert (sim_at a3 (set_commit_index (N.min (ae_leader_commit args) (g_len g)) n2)) as Hc3.
    { apply sim_commit; [done|bools; lia| |].
      - rewrite Elog. pose proof (prefix_length _ _ Hg2). unfold g_len in *. lia.
      - rewrite Elog, (fw_term _ _ _ _ Hn2), Ht1. eapply committed_mono; [|reflexivity|].
        + etrans; [exact Hle1|]. etrans; [|exact Hle3]. by eapply a_steps_le, fw_steps.
        + eapply committed_prefix; [|exact Hcom]. destruct Hg2 as [x ->].
          rewrite take_app_le by (unfold g_len; lia). apply take_prefix_le. lia. }
    eapply wpp_mono; [by apply apply_committed_steady|]. by intros [] n3 []. }
  intros [] n3 Hn3'. walk. by exists a3.
Qed.

(** *** Snapshots *)
Lemma prefix_or_conflict (x y : list LogEntry) :
  x `prefix_of` y ∨ y `prefix_of` x ∨
  ∃ m e e', x !! m = Some e ∧ y !! m = Some e' ∧ e ≠ e' ∧ take m x `prefix_of` y.
Proof.
  revert y. induction x as [|e x IH]; intros [|e' y]; [by left; apply prefix_nil..|right; left; apply prefix_nil|].
  destruct (decide (e = e')) as [->|Hne].
  - destruct (IH y) as [?|[?|(m & e & e'' & ? & ? & ? & ?)]].
    + left. by apply prefix_cons.
    + right. left. by apply prefix_cons.
    + right. right. exists (S m), e, e''. simpl. split; [done|]. split; [done|]. split; [done|]. by apply prefix_cons.
  - right. right. exists 0%nat, e, e'. simpl. split; [done|]. split; [done|]. split; [done|]. apply prefix_nil.
Qed.

(** Replacing a log by a prefix of the leader's. *)
Lemma replace_steps a c L y :
  a_lead a !! a_term a i = Some (c, L) → y `prefix_of` L → ¬ y `prefix_of` a_log a i →
  ∃ a', rtc (a_step ids i) a a' ∧ a_log a' i = y ∧ a_term a' = a_term a ∧ a_votes a' = a_votes a.
Proof.
  intros HL Hy Hno. destruct (prefix_or_conflict (a_log a i) y) as [Hp|[?|(m & e & e' & He & He' & Hne & Hp)]]; [|done|].
  - eexists. split; [eapply rtc_once, as_extend; done|]. simpl. by rewrite fn_lookup_insert.
  - assert (a_step ids i a (MkAbs (a_term a) (<[i := take m (a_log a i)]> (a_log a)) (a_votes a)
      (a_lead a) (a_acks a) (a_known a))) as H1.
    { eapply as_truncate; [done|exact He|exact (prefix_lookup_Some _ _ _ _ He' Hy)|done]. }
    match type of H1 with a_step _ _ _ ?x => set (a1 := x) in * end.
    assert (a_step ids i a1 (MkAbs (a_term a1) (<[i := y]> (a_log a1)) (a_votes a1) (a_lead a1) (a_acks a1) (a_known a1))) as H2.
    { eapply as_extend; [done| |done]. simpl. by rewrite fn_lookup_insert. }
    eexists. split; [eapply rtc_l; [exact H1|by apply rtc_once]|]. simpl. by rewrite fn_lookup_insert.
Qed.

Lemma install_sim a n c g snap s' :
  sim_at a n → n_role n = Follower → lead_log a (cur_term n) c g → snap_of sm0 g snap →
  let k := last_included_index snap in
  committed ids a (cur_term n) (take (N.to_nat k) g) → n_commit_index n < k →
  install_snapshot snap (n_storage n) = Ok s' →
  ∃ a', rtc (a_step ids i) a a' ∧ take (N.to_nat k) g `prefix_of` a_log a' i ∧
    sim_at a' (resync (set_last_applied k (set_commit_index k (set_state_machine (state_at sm0 g k) (stored s' n))))).
Proof.
  intros Hs Hf Hl Hsn k Hc Hk Hi. pose proof (sim_rel _ _ _ _ _ _ _ Hs) as Hr.
  pose proof (nr_durable _ _ _ _ _ Hr) as [Et Hrepr Hv Hb]. pose proof (sim_at_inv _ _ Hs) as Ha.
  destruct (lead_log_matched _ _ _ _ Ha Hl) as [Hmg Htidy].
  destruct (repr_install _ _ _ _ _ _ Hrepr Hi Hsn Htidy) as (Hlow & Hsame & Hdiff). fold k in Hlow, Hsame, Hdiff.
  pose proof (so_high _ _ _ Hsn) as Hhigh. fold k in Hhigh. pose proof (so_term _ _ _ Hsn) as Hterm. fold k in Hterm.
  assert (∃ a', rtc (a_step ids i) a a' ∧ take (N.to_nat k) g `prefix_of` a_log a' i ∧ repr sm0 (a_log a' i) s' ∧
    a_term a' = a_term a ∧ a_votes a' = a_votes a) as (a' & Hst & Hpre & Hrepr' & Ea & Ev).
  { destruct (decide (g_term (a_log a i) k = Some (last_included_term snap))) as [Heq|Hne].
    - assert (take (N.to_nat k) (a_log a i) = take (N.to_nat k) g) as E by by eapply same_term_agrees.
      exists a. split; [done|]. split; [rewrite <-E; apply prefix_take|]. split; [by apply Hsame|done].
    - pose proof Hl as (L & HL & HgL).
      destruct (replace_steps a c L (take (N.to_nat k) g)) as (a' & ? & E & ? & ?).
      + by rewrite Et.
      + etrans; [apply prefix_take|done].
      + intros Hp. apply Hne. rewrite <-Hterm. assert (g_len (take (N.to_nat k) g) = k) as El.
        { unfold g_len in *. rewrite length_take. lia. }
        rewrite (g_term_prefix (take (N.to_nat k) g) (a_log a i)), (g_term_prefix (take (N.to_nat k) g) g);
          [done|apply prefix_take|lia|done|lia].
      + exists a'. rewrite E. split; [done|]. split; [done|]. split; [by apply Hdiff|done]. }
  exists a'. split; [done|]. split; [done|]. pose proof (a_steps_le _ _ _ _ Hst) as Hle.
  assert (st_hard_state s' = st_hard_state (n_storage n)) as Eh by by apply install_hard_state in Hi.
  assert (snapshot_index s' = k) as Esi by (apply install_snapshot_Ok in Hi as [_ ->]; done).
  assert (take (N.to_nat k) (a_log a' i) = take (N.to_nat k) g) as Eagree
    by (apply take_prefix_agree; [done|unfold g_len in *; lia]).
  assert (k ≤ g_len (a_log a' i)) as Hlen.
  { apply prefix_length in Hpre. rewrite length_take in Hpre. unfold g_len in *. lia. }
  assert (∀ j, j ≤ k → take (N.to_nat j) (a_log a' i) = take (N.to_nat j) g) as Htake.
  { intros j Hj. replace (N.to_nat j) with (min (N.to_nat j) (N.to_nat k)) by lia. by rewrite <-!take_take, Eagree. }
  assert (∀ j, j ≤ k → state_at sm0 (a_log a' i) j = state_at sm0 g j) as Hstate.
  { intros j Hj. unfold state_at. by rewrite Htake. }
  eapply (sim_write _ _ _ _ _ a _ n _ []); [done|done| |done|by intros x ?%elem_of_nil|].
  2: { intros s Ht%torn_boundary. unfold resync, adopted, stored in Ht. nsimpl. lia. }
  split; unfold resync, adopted, stored, cur_term, self in *; nsimpl; rewrite ?Eh; try by apply Hr.
  - by rewrite Hf.
  - apply members_ok_derive.
  - split; rewrite ?Eh, ?Esi, ?Ea, ?Ev; try done. rewrite Eagree. by eapply committed_mono.
  - rewrite Esi. lia.
  - done.
  - rewrite Eagree. by eapply committed_mono.
  - by rewrite Hstate.
  - intros j x ms (-> & Hj & ->)%(nr_staged _ _ _ _ _ Hr). pose proof (nr_applied _ _ _ _ _ Hr).
    assert (take (N.to_nat j) (a_log a i) = take (N.to_nat j) g) as E by (eapply committed_agrees; [done|done|lia|lia]).
    unfold state_at. rewrite Htake, E by lia. split; [done|]. split; [lia|done].
  - by rewrite Hf.
  - by rewrite Hf.
Qed.

Lemma handle_install_snapshot_sim args c tag a n :
  sim_at a n → req_ok sm0 ids a c (InstallSnapshot args) tag →
  wlp (handle_install_snapshot args) (λ r n', ∃ a', sim_at a' n' ∧
    (isr_term r ≤ is_term args → acked a' i (is_term args) (last_included_index (is_snapshot args)))) n.
Proof.
  intros Hs (_ & _ & g & Hl & Hsn & Hcom). unfold handle_install_snapshot. do 2 walk_step.
  walk_step; bools. { walk. exists a. split; [done|]. simpl. lia. }
  apply wpp_bind. eapply wpp_mono; [by apply become_follower_sim|]. intros [] n1 (a1 & Hst1 & Hn1 & Hf1 & Ht1 & _).
  pose proof (a_steps_le _ _ _ _ Hst1) as Hle1. do 4 walk_step.
  match goal with |- wpp _ _ _ ?m => assert (sim_at a1 m) as Hm by sim_done;
    assert (n_role m = Follower) as Hfm by done; assert (cur_term m = is_term args) as Htm by done;
    generalize dependent m; clear n1 Hn1 Hf1 Ht1; intros n1 Hn1 Hf1 Ht1 end.
  rewrite <-Ht1 in *. pose proof (lead_log_mono _ _ _ _ _ Hle1 Hl) as Hl1.
  set (snap := is_snapshot args) in *. set (k := last_included_index snap) in *.
  pose proof (so_high _ _ _ Hsn) as Hhigh. fold k in Hhigh.
  assert (lead_log a1 (cur_term n1) c (take (N.to_nat k) g)) as Hlk.
  { destruct Hl1 as (L & HL & HgL). exists L. split; [done|]. etrans; [apply prefix_take|done]. }
  assert (g_len (take (N.to_nat k) g) = k) as Elen by (unfold g_len in *; rewrite length_take; lia).
  walk_step; bools.
  { (* already covered *)
    destruct (ack_sim a1 n1 c (take (N.to_nat k) g)) as (a2 & _ & _ & Hn2 & Hack); [done|done| |].
    - rewrite <-(committed_agrees a1 n1 c g k) by done. apply prefix_take.
    - walk. exists a2. rewrite Elen in Hack. split; [done|]. by rewrite Ht1 in *. }
  apply wpp_bind. unfold storage_op. do 2 walk_step. do 2 walk_step; [|done].
  match goal with H : install_snapshot _ _ = Ok ?s |- _ => rename H into Hi; rename s into s' end.
  destruct (install_sim a1 n1 c g snap s') as (a2 & Hst2 & Hpre & Hn2); [done..| |fold k; lia|done|].
  { by eapply committed_mono. }
  fold k in Hn2, Hpre. unfold emit. do 3 walk_step.
  apply wpp_bind, wpp_expect; [|done]. intros sm Hsm. rewrite (so_state _ _ _ Hsn) in Hsm. injection Hsm as <-.
  fold k. do 7 walk_step. unfold stored in Hn2. nsimpl.
  eapply wpp_mono; [exact (rescan_membership_steady a2 _ Hn2)|]. intros [] n3 Hn3. do 4 walk_step.
  unfold emits. do 3 walk_step.
  assert (sim_at a2 (set_pending (filter (λ p, k < pp_index p) (n_pending n3)) n3)) as Hp3.
  { apply sim_set_pending; [apply Hn3|]. intros p [_ ?]%list_elem_of_filter. by left. }
  eapply wpp_mono; [apply (resolve_pending_steady a2); clear Hn3; sim_done|].
  intros [] n4 Hn4.
  assert (cur_term n4 = cur_term n1) as Et.
  { rewrite (sy_term _ _ _ Hn4). change (cur_term n3 = cur_term n1). rewrite (sy_term _ _ _ Hn3).
    unfold cur_term, resync, adopted. nsimpl. by rewrite (install_hard_state _ _ _ Hi). }
  destruct (ack_sim a2 n4 c (take (N.to_nat k) g)) as (a3 & _ & _ & Hn5 & Hack); [apply Hn4| |done|].
  { rewrite Et. eapply lead_log_mono; [by eapply a_steps_le|done]. }
  walk. exists a3. split; [done|]. intros _. by rewrite Elen, Et in Hack.
Qed.

(** *** Replies *)
Lemma on_pre_vote_reply_keeps t from r : keeps (on_pre_vote_reply t from r).
Proof.
  intros n Hn. unfold on_pre_vote_reply. do 3 walk_step; [by apply become_follower_keeps|].
  walk_step; [by walk|]. destruct (n_role n) as [|votes| |] eqn:Hr; [by walk| |by walk..].
  destruct Hn as [a Hs]. do 2 walk_step. apply maybe_start_election_keeps. exists a. by apply sim_role.
Qed.

Lemma on_vote_reply_keeps t from r a n :
  sim_at a n → event_ok a i (VoteReply t from (Ok (RequestVoteResp r))) →
  wlp (on_vote_reply t from r) (λ _, sim) n.
Proof.
  intros Hs Hok. unfold on_vote_reply. do 3 walk_step; [by apply become_follower_keeps; exists a|].
  walk_step; bools; [by walk; exists a|].
  destruct (n_role n) as [| |votes|] eqn:Hr; [by walk; exists a..| |by walk; exists a].
  do 2 walk_step. apply maybe_become_leader_keeps. exists a. apply sim_role; [done| |done|done].
  pose proof (nr_role _ _ _ _ _ (sim_rel _ _ _ _ _ _ _ Hs)) as Hrole. rewrite Hr in Hrole.
  destruct Hrole as (? & ? & Hv). split; [done|]. split; [done|].
  intros v [->%elem_of_singleton|?]%elem_of_union; [|by apply Hv].
  assert (t = cur_term n) as -> by (by destruct (decide (t = cur_term n))). by apply Hok.
Qed.

Lemma sim_leader a n l l' :
  sim_at a n → n_role n = Leader l → term_start_index l' = term_start_index l →
  (∀ p k, match_index l' !! p = Some k → match_index l !! p = Some k ∨ acked a p (cur_term n) k) →
  sim_at a (set_role (Leader l') n).
Proof.
  intros Hs Hl Ets Hm. pose proof (nr_known _ _ _ _ _ (sim_rel _ _ _ _ _ _ _ Hs)) as Hkn. rewrite Hl in Hkn.
  pose proof (nr_booted _ _ _ _ _ (sim_rel _ _ _ _ _ _ _ Hs)) as Hbo. rewrite Hl in Hbo.
  apply sim_role; [done| |done|done]. destruct (leader_facts _ _ _ Hs Hl) as (? & ? & Hold & ?).
  split; [done|]. split; [done|]. split; [|by rewrite Ets]. intros p k [?|?]%Hm; [by apply Hold|done].
Qed.

Lemma default_acked a n l p :
  sim_at a n → n_role n = Leader l → acked a p (cur_term n) (default 0 (match_index l !! p)).
Proof.
  intros Hs Hl. destruct (leader_facts _ _ _ Hs Hl) as (_ & _ & Hm & _).
  destruct (match_index l !! p) as [k|] eqn:E; [by apply Hm|by left].
Qed.

Lemma note_append_sim a n l from prev cnt seq ok l' b d :
  sim_at a n → n_role n = Leader l → (ok = true → acked a from (cur_term n) (prev + cnt)) →
  note_append_reply n l from prev cnt seq ok = (l', b, d) → sim_at a (set_role (Leader l') n).
Proof.
  intros Hs Hl Hok Hn. eapply sim_leader; [done|done| |].
  { unfold note_append_reply in Hn. destruct ok; [|by injection Hn as <- _ _].
    destruct (match departing l !! from with Some _ => _ | None => _ end); by injection Hn as <- _ _. }
  pose proof (default_acked a n l from Hs Hl) as Hd.
  unfold note_append_reply in Hn. destruct ok; [|injection Hn as <- _ _; simpl; by left].
  assert (match_index l' = <[from := if bool_decide (default 0 (match_index l !! from) < prev + cnt)
     then prev + cnt else default 0 (match_index l !! from)]> (match_index l)) as ->.
  { destruct (match departing l !! from with Some _ => _ | None => _ end); by injection Hn as <- _ _. }
  intros p k [[<- <-]|[_ ?]]%lookup_insert_Some; [right|by left]. case_bool_decide; [by apply Hok|done].
Qed.

Lemma on_append_reply_keeps t from prev cnt seq r a n :
  sim_at a n → event_ok a i (AppendReply t from prev cnt seq (Ok (AppendEntriesResp r))) →
  wlp (on_append_reply t from prev cnt seq r) (λ _, sim) n.
Proof.
  intros Hs Hok. unfold on_append_reply. do 3 walk_step; [by apply become_follower_keeps; exists a|].
  walk_step; bools; [by walk; exists a|].
  assert (t = cur_term n) as -> by (by destruct (decide (t = cur_term n))).
  destruct (n_role n) as [| | |l] eqn:Hl; [by walk; exists a..|].
  destruct (note_append_reply _ _ _ _ _ _ _) as [[l' resend] departed] eqn:Hn.
  pose proof (note_append_sim _ _ _ _ _ _ _ _ _ _ _ Hs Hl Hok Hn) as Hs'. unfold set_leader.
  do 2 walk_step. apply wpp_bind. eapply (wpp_mono _ _ (λ _, sim)).
  { walk_step; [|by exists a]. apply stays_keeps; [apply publish_membership_steady|by exists a]. }
  intros [] n1 Hn1. apply wpp_bind. eapply (wpp_mono _ _ (λ _, sim)).
  { walk_step; [by apply maybe_advance_commit_keeps|done]. }
  intros [] n2 Hn2. apply wpp_bind. eapply (wpp_mono _ _ (λ _, sim)).
  { walk_step; [apply stays_keeps; [apply send_append_steady|done]|done]. }
  intros [] n3 Hn3. apply stays_keeps; [apply resolve_reads_steady|done].
Qed.

Lemma on_snapshot_reply_keeps t from lii r a n :
  sim_at a n → event_ok a i (InstallSnapshotReplyEv t from lii (Ok (InstallSnapshotResp r))) →
  wlp (on_snapshot_reply t from lii r) (λ _, sim) n.
Proof.
  intros Hs Hok. unfold on_snapshot_reply. do 3 walk_step; [by apply become_follower_keeps; exists a|].
  walk_step; bools; [by walk; exists a|].
  assert (t = cur_term n) as -> by (by destruct (decide (t = cur_term n))).
  destruct (n_role n) as [| | |l] eqn:Hl; [by walk; exists a..|].
  destruct (note_snapshot_reply _ _ _ _) as [l' departed] eqn:Hn.
  assert (sim_at a (set_role (Leader l') n)) as Hs'.
  { unfold note_snapshot_reply in Hn. injection Hn as <- _. eapply sim_leader; [done..|]. simpl.
    intros p k [[<- <-]|[_ ?]]%lookup_insert_Some; [right|by left].
    destruct (N.max_spec (default 0 (match_index l !! from)) lii) as [[_ ->]|[_ ->]];
      [apply Hok; lia|by apply default_acked]. }
  unfold set_leader. do 2 walk_step. apply wpp_bind. eapply (wpp_mono _ _ (λ _, sim)).
  { walk_step; [|by exists a]. apply stays_keeps; [apply publish_membership_steady|by exists a]. }
  intros [] n1 Hn1. apply wpp_bind. eapply wpp_mono; [by apply maybe_advance_commit_keeps|].
  intros [] n2 Hn2. walk_step; [apply stays_keeps; [apply send_append_steady|done]|done].
Qed.

(** *** One iteration *)

(** What is known of an input; an RPC is request [tag] of node [c]. *)
Definition input_sim a c tag (inp : LoopInput) : Prop :=
  match inp with
  | InPropose cmd ch => proposable a cmd ch
  | InRpc _ req => req_ok sm0 ids a c req tag
  | InEvent ev => event_ok a i ev
  | _ => True
  end.
Definition answer_ok a c tag (r : option RpcResponse) : Prop :=
  ∀ resp, r = Some resp → event_ok a c (event_of tag i (Ok resp)).

Lemma handle_inbound_sim c tag req a n :
  sim_at a n → req_ok sm0 ids a c req tag →
  wlp (handle_inbound req) (λ resp n', ∃ a', sim_at a' n' ∧ event_ok a' c (event_of tag i (Ok resp))) n.
Proof.
  intros Hs Hok. destruct req as [args|args|args|args]; simpl; apply wpp_bind.
  - eapply wpp_mono; [by eapply handle_request_vote_sim|]. intros r n' (a' & Hn' & Hg). walk.
    exists a'. split; [done|]. destruct Hok as (-> & <- & _). exact Hg.
  - eapply wpp_mono; [by eapply handle_append_entries_sim|]. intros r n' (a' & Hn' & Hg). walk.
    exists a'. split; [done|]. destruct Hok as ((seq & ->) & _). exact Hg.
  - eapply wpp_mono; [by apply (handle_pre_vote_steady _ a)|]. intros r n' []. walk.
    exists a. split; [done|]. by destruct Hok as [t ->].
  - eapply wpp_mono; [by eapply handle_install_snapshot_sim|]. intros r n' (a' & Hn' & Hg). walk.
    exists a'. split; [done|]. destruct Hok as (-> & _). exact Hg.
Qed.

Lemma handle_event_keeps ev a n : sim_at a n → event_ok a i ev → wlp (handle_event ev) (λ _, sim) n.
Proof.
  intros Hs Hok. assert (sim n) as Hn by by exists a. unfold handle_event.
  destruct ev as [? ? [[]|]|? ? [[]|]|? ? ? ? ? [[]|]|? ? ? [[]|]]; try by walk.
  - by apply on_pre_vote_reply_keeps.
  - by eapply on_vote_reply_keeps.
  - by eapply on_append_reply_keeps.
  - by eapply on_snapshot_reply_keeps.
Qed.

Lemma dispatch_sim c tag inp a n :
  sim_at a n → input_sim a c tag inp →
  wlp (dispatch inp) (λ r n', ∃ a', sim_at a' n' ∧ answer_ok a' c tag r) n.
Proof.
  intros Hs Hok. assert (sim n) as Hn by by exists a.
  assert (∀ m : M (RaftNode SM) (), wlp m (λ _, sim) n →
    wlp (m ;; mret None) (λ r n', ∃ a', sim_at a' n' ∧ answer_ok a' c tag r) n) as Hnone.
  { intros m Hm. apply wpp_bind. eapply wpp_mono; [exact Hm|]. intros [] n' [a' ?]. walk. by exists a'. }
  destruct inp as [cmd reply|reply| | |from req|ev]; simpl in *; try apply Hnone.
  - by eapply handle_propose_keeps.
  - by apply handle_read_keeps.
  - by apply on_election_timeout_keeps.
  - by apply on_heartbeat_tick_keeps.
  - apply wpp_bind. eapply wpp_mono; [by eapply handle_inbound_sim|]. intros resp n' (a' & ? & ?). walk.
    exists a'. split; [done|]. by intros ? [= <-].
  - by eapply handle_event_keeps.
Qed.

Lemma loop_step_sim t c tag inp a n :
  sim_at a n → input_sim a c tag inp →
  wlp (loop_step t inp) (λ r n', ∃ a', sim_at a' n' ∧ answer_ok a' c tag r) n.
Proof.
  intros Hs Hok. unfold loop_step. apply wpp_bind. eapply wpp_mono; [by apply publish_status_steady|].
  intros [] n1 [Hn1 _ _ _]. do 2 walk_step. apply (dispatch_sim c tag inp a); [sim_done|done].
Qed.
End sim_ops.
