(* ===== verification/Safety.v ===== *)
(** * Log safety of a cluster

    The worlds of [Cluster] refine [Raft], also when clients change the
    membership: along
    every run there is an abstract state that every node, request and
    response agrees with ([world_rel]). Log Matching, Leader Completeness
    and State Machine Safety follow, over crashes inside handlers, restarts
    and every message schedule; and no node of such a cluster ever panics. *)
From stdpp Require Import functions.
From S2P Require Import Prelude Types Rng Storage Node NodeSteps NodeLife NodeInv NodeThm Elections Cluster Runs Sim Raft LogRepr Refine.
Open Scope N_scope.

(** A node that has never run. *)
Definition fresh_storage `{J : SerdeJson} : Storage := MkStorage HardState_default None [].

Section safety.
Context `{J : SerdeJson} {SM : Type} `{!StateMachine SM} {Laws : StateMachineLaws} (sm0 : SM).
Context {nodes : gset N} (ids : gset N) (cfg : NodeId → RaftConfig) {client : LoopInput → Prop}.
Implicit Types (w : World (SM := SM)) (n : RaftNode SM) (a : Abs).
#[local] Abbreviation node_rel := (node_rel sm0 ids).
#[local] Abbreviation durable_rel := (durable_rel sm0 ids).
#[local] Abbreviation req_ok := (req_ok sm0 ids).

(** ** The refinement relation *)
Record world_rel w a : Prop := {
  wr_inv : a_inv ids a;
  wr_ids i n : w_nodes w !! i = Some n → i ∈ nodes;
  wr_config i n : w_nodes w !! i = Some n → n_config n = cfg i;
  wr_nodes i n : w_nodes w !! i = Some n → node_rel a i n;
  wr_requests rq : rq ∈ w_requests w → req_ok a (rq_from rq) (rq_req rq) (rq_tag rq);
  wr_responses rs : rs ∈ w_responses w →
    event_ok a (rs_to rs) (event_of (rs_tag rs) (rs_from rs) (Ok (rs_resp rs)));
}.

(** Steps of any node. *)
Definition a_any {Au : Authored} a a' : Prop := ∃ i, a_step ids i a a'.

Lemma spawn_rel a i c s t0 n :
  durable_rel a i s → c_id c = i → config_rel ids c → spawn c s sm0 t0 = Some n → node_rel a i n.
Proof.
  intros Hd Hid Hc Hsp. pose proof (dr_repr _ _ _ _ _ Hd) as Hrepr.
  unfold spawn in Hsp. pose proof (repr_base _ _ _ Hrepr) as Hbase. unfold base_sm in Hbase. rewrite Hbase in Hsp.
  simpl in Hsp. pose proof (members_ok_derive c s) as Hm. destruct (derive_membership s c) as [ms mi].
  match type of Hsp with context [reset_election_timer ?m] =>
    pose proof (reset_election_timer_wp True m (λ _, I)) as Hw end.
  unfold wpp in Hw. destruct (reset_election_timer _) as [[[] m]|]; simpl in *; [|done].
  injection Hsp as <-. destruct Hw as (r & d & -> & _). destruct Hd as [Et _ Hv Hbd].
  split; nsimpl; try done. apply (rp_bound _ _ _ Hrepr).
Qed.

(** Before the first event. *)
Lemma init_rel w : cluster_config nodes ids cfg → w_init sm0 cfg nodes fresh_storage w → world_rel w a_init.
Proof.
  intros Hcfg (Hdom & Hspawn & Hrq & Hrs & _).
  assert (∀ i n, w_nodes w !! i = Some n → i ∈ nodes) as Hids
    by (intros i n Hi; rewrite <-Hdom; by eapply elem_of_dom_2).
  split; rewrite ?Hrq, ?Hrs; try done; [apply a_init_inv|..].
  - intros i n Hi. destruct (Hspawn i n Hi) as [t0 Hs]. by apply spawn_storage in Hs as (_ & ? & _).
  - intros i n Hi. destruct (Hspawn i n Hi) as [t0 Hs]. destruct (Hcfg i (Hids i n Hi)) as [Hid Hc].
    eapply spawn_rel; [|done..|exact Hs]. split; simpl; try done; [|by left].
    intros c. split; [done|]. by intros [g ?%elem_of_nil].
  - by intros rq ?%elem_of_nil.
  - by intros rs ?%elem_of_nil.
Qed.

Lemma spawn_pending c s t0 n : spawn c s sm0 t0 = Some n → n_pending n = [].
Proof.
  unfold spawn. destruct (match st_snapshot s with Some _ => _ | None => _ end) as [sm|]; [|done].
  simpl. destruct (derive_membership s c) as [ms mi]. simpl.
  match goal with |- context [reset_election_timer ?m] =>
    pose proof (reset_election_timer_wp True m (λ _, I)) as Hw end.
  unfold wpp in Hw. destruct (reset_election_timer _) as [[[] m]|]; simpl; [|done].
  destruct Hw as (r & d & -> & _). by intros [= <-].
Qed.

(** *** One step, following the proposals of some channels *)
Section tracked_steps.
Context {Ch : Tracked} {Au : Authored}.

Definition pendings_ok a i n : Prop := ∀ p, p ∈ n_pending n → proposal_ok a i p.
(** The no-op of a new leader may be added, and what the input proposes. *)
Definition tracked_input a i (inp : LoopInput) : Prop :=
  (∀ e, e_command e = Noop → authored e) ∧
  match inp with InPropose cmd ch => proposable i a cmd ch | _ => True end.

(** The node at the start of an iteration. *)
Lemma begin_sim a i n :
  node_rel a i n → pendings_ok a i n → sim_at sm0 ids a (n_storage n) i a (set_effects [] n).
Proof.
  intros Hr Hp. split; simpl; [apply rtc_refl|by destruct Hr|by intros ? ?%elem_of_nil|done| |done].
  intros pre s [[k Hk] ->|s' [k Hk] _]; destruct pre; try done. simpl. exists a. split; [apply rtc_refl|].
  split; [apply Hr|]. by intros ? ?%elem_of_nil.
Qed.

(** One step of one node, completed or cut short by a crash. *)
Lemma node_step_refines a i n c tag inp r es n' :
  a_inv ids a → node_rel a i n → pendings_ok a i n → n_config n = cfg i →
  (∀ e, e_command e = Noop → authored e) → input_sim sm0 ids i a c tag inp →
  c_id (cfg i) = i → config_rel ids (cfg i) → node_step sm0 n inp r es n' →
  ∃ a', rtc (a_step ids i) a a' ∧ node_rel a' i n' ∧ pendings_ok a' i n' ∧
    sends_ok sm0 ids a' i es ∧ answer_ok i a' c tag r.
Proof.
  intros Ha Hr Hpend Ec Hno Hi Hid Hc Hstep. pose proof (begin_sim a i n Hr Hpend) as Hbeg.
  destruct Hstep as [t r n' _ Hrun|t r m pre s t0 n' _ Hrun Hleft Hsp].
  all: pose proof (loop_step_sim sm0 ids a (n_storage n) i Ha Hno t c tag inp a _ Hbeg Hi) as Hw.
  all: unfold wpp in Hw; rewrite Hrun in Hw; destruct Hw as (a' & [Hst Hrel Hsends Hd Hcrash Hp'] & Hans).
  - exists a'. done.
  - destruct (Hcrash pre s Hleft) as (a'' & Hst' & Hdur & Hs'). exists a''. split; [done|].
    split; [eapply spawn_rel; [exact Hdur|..|exact Hsp]; by rewrite Ec|].
    split; [|done]. intros p. rewrite (spawn_pending _ _ _ _ Hsp). by intros ?%elem_of_nil.
Qed.

(** Every input is justified by the abstract state. *)
Lemma delivers_sim w a i inp out :
  world_rel w a → delivers client w i inp out → tracked_input a i inp →
  ∃ c tag, input_sim sm0 ids i a c tag inp ∧
    ∀ a' r rs, answer_ok i a' c tag r → rs ∈ out r →
      event_ok a' (rs_to rs) (event_of (rs_tag rs) (rs_from rs) (Ok (rs_resp rs))).
Proof.
  intros [_ _ _ _ Hrq Hrs]. destruct 1 as [inp Hc|rq Hin Hto|rs Hin Hto|rq err Hin Hfrom]; intros [_ Htr].
  - exists 0, (TagPreVote 0). split; [|by intros a' r rs _ ?%elem_of_nil].
    by destruct inp.
  - exists (rq_from rq), (rq_tag rq). split; [by apply Hrq|]. intros a' r rs Hans Hrs'.
    destruct r as [resp|]; [|by apply elem_of_nil in Hrs']. apply list_elem_of_singleton in Hrs' as ->. by apply Hans.
  - exists 0, (TagPreVote 0). split; [simpl; rewrite <-Hto; by apply Hrs|by intros a' r rs' _ ?%elem_of_nil].
  - exists 0, (TagPreVote 0). split; [simpl; by destruct (rq_tag rq)|by intros a' r rs' _ ?%elem_of_nil].
Qed.

Definition all_pendings w a : Prop := ∀ i n, w_nodes w !! i = Some n → pendings_ok a i n.

Lemma step_tracked w a i n inp out r es n' :
  cluster_config nodes ids cfg → world_rel w a → all_pendings w a → w_nodes w !! i = Some n →
  delivers client w i inp out → tracked_input a i inp → node_step sm0 n inp r es n' →
  ∃ a', rtc a_any a a' ∧ world_rel (after w i n' es (out r)) a' ∧
    all_pendings (after w i n' es (out r)) a' ∧ sends_ok sm0 ids a' i es.
Proof.
  intros Hcfg Hw Hpend Hi Hdel Htr Hstep.
  destruct (delivers_sim _ _ _ _ _ Hw Hdel Htr) as (c & tag & Hin & Hout).
  pose proof Hw as [Ha Hids Hconf Hnodes Hrq Hrs].
  destruct (Hcfg i (Hids i n Hi)) as [Hid Hc].
  destruct (node_step_refines a i n c tag inp r es n') as (a' & Hst & Hn' & Hpend' & Hsend & Hans);
    [done|by apply Hnodes|by apply Hpend|by apply Hconf|apply Htr|done..|].
  pose proof (a_steps_le _ _ _ _ Hst) as Hle. pose proof (a_steps_frame _ _ _ _ Hst) as Hframe.
  exists a'. split. { eapply rtc_subrel; [|exact Hst]. intros x y Hxy. by exists i. }
  destruct (node_step_writes _ _ _ _ _ _ Hstep) as (_ & Ec & _).
  split; [split|split; [|done]]; cbn [w_nodes w_requests w_responses after].
  - by eapply a_steps_inv.
  - intros j m [[<- <-]|[_ Hm]]%lookup_insert_Some; by eapply Hids.
  - intros j m [[<- <-]|[_ Hm]]%lookup_insert_Some; [rewrite Ec|]; by apply Hconf.
  - intros j m [[<- <-]|[Hne Hm]]%lookup_insert_Some; [done|].
    eapply frame_node; [done|done|done|by apply Hnodes].
  - intros rq [Hin'|(e & He & Hrq')%list_elem_of_omap]%elem_of_app.
    + eapply req_ok_mono; [done|by apply Hrq].
    + destruct e; simplify_eq/=. exact (Hsend _ He).
  - intros rs [Hin'|Hin']%elem_of_app; [eapply event_ok_mono; [done|by apply Hrs]|by eapply Hout].
  - intros j m Hm. cbn [w_nodes after] in Hm. apply lookup_insert_Some in Hm as [[<- <-]|[_ Hm]]; [done|].
    intros p Hp. eapply proposal_ok_mono; [done|]. by eapply Hpend.
Qed.
End tracked_steps.

(** Without following any. *)
#[local] Instance untracked : Tracked := λ _, None.

Lemma step_rel w w' a :
  cluster_config nodes ids cfg → world_rel w a → w_step sm0 client w w' →
  ∃ a', rtc a_any a a' ∧ world_rel w' a'.
Proof.
  intros Hcfg Hw Hstep. destruct Hstep as [w i n inp out r es n' Hi Hdel Hstep].
  destruct (step_tracked w a i n inp out r es n') as (a' & ? & ? & _);
    [done|done|by intros j m _ p _ P|done|done|split; [done|by destruct inp]|done|by exists a'].
Qed.

Lemma steps_rel w w' a :
  cluster_config nodes ids cfg → world_rel w a → rtc (w_step sm0 client) w w' →
  ∃ a', rtc a_any a a' ∧ world_rel w' a'.
Proof.
  intros Hcfg Hw Hsteps. revert a Hw. induction Hsteps as [w|w1 w2 w3 Hstep _ IH]; intros a Hw; [by exists a|].
  destruct (step_rel _ _ _ Hcfg Hw Hstep) as (a1 & H1 & Hw1). destruct (IH a1 Hw1) as (a2 & H2 & ?).
  exists a2. split; [by etrans|done].
Qed.

Lemma a_any_le {Au : Authored} a a' : rtc a_any a a' → a_le a a'.
Proof. induction 1 as [|a1 a2 a3 [i ?%a_step_le] _ IH]; [done|]. by etrans. Qed.

Lemma reachable_rel w :
  cluster_config nodes ids cfg → reachable_world sm0 client cfg nodes fresh_storage w →
  ∃ a, rtc a_any a_init a ∧ world_rel w a.
Proof. intros Hcfg (w0 & Hinit & Hsteps). eapply steps_rel; [done|by apply init_rel|done]. Qed.

(** [C11] A cluster refines the abstract protocol: for every reachable world of
    a cluster of fresh nodes, members and joiners, whose clients may also
    change the configuration, there is a run of [Raft] whose final
    state every node's term, vote, log, commit index, state machine and
    role agree with, and which justifies every request and every reply in
    the network. Each iteration of a node, and each crash inside one, is
    matched by steps of that node alone. *)
Theorem cluster_refines_raft w :
  cluster_config nodes ids cfg → reachable_world sm0 client cfg nodes fresh_storage w →
  ∃ a, rtc a_any a_init a ∧ world_rel w a.
Proof. apply reachable_rel. Qed.

(** ** Elections *)
Lemma leads_lead w a t i : world_rel w a → leads w t i → ∃ L, a_lead a !! t = Some (i, L).
Proof.
  intros Hw. destruct 1 as [n l Hi Hl Ht|rq x Hin Hr Ht Hl|rq x Hin Hr Ht Hl].
  - pose proof (nr_role _ _ _ _ _ (wr_nodes _ _ Hw _ _ Hi)) as Hrole. rewrite Hl, Ht in Hrole.
    eexists. apply Hrole.
  - pose proof (wr_requests _ _ Hw _ Hin) as Hok. rewrite Hr in Hok.
    destruct Hok as (_ & <- & g & (L & HL & _) & _). rewrite Hl, Ht in HL. by exists L.
  - pose proof (wr_requests _ _ Hw _ Hin) as Hok. rewrite Hr in Hok.
    destruct Hok as (_ & <- & g & (L & HL & _) & _). rewrite Hl, Ht in HL. by exists L.
Qed.

(** [C4] Election Safety. At most one node ever acts as the leader of a term: no
    two nodes are in the leader role of the same term or have sent
    AppendEntries or InstallSnapshot for it, whatever the network delivers,
    duplicates or loses, wherever nodes crash and restart, and however the
    clients change the configuration, one server at a time. *)
Theorem election_safety w t i j :
  cluster_config nodes ids cfg → reachable_world sm0 client cfg nodes fresh_storage w →
  leads w t i → leads w t j → i = j.
Proof.
  intros Hcfg Hreach Hi Hj. destruct (reachable_rel _ Hcfg Hreach) as (a & _ & Hw).
  destruct (leads_lead _ _ _ _ Hw Hi) as [L HL]. destruct (leads_lead _ _ _ _ Hw Hj) as [L' HL'].
  rewrite HL in HL'. by injection HL'.
Qed.

(** ** Logs *)

(** The log a node's storage stands for agrees with what it retains. *)
Lemma rel_entry a i n k e :
  node_rel a i n → entry (n_storage n) k = Some e → 1 ≤ k ∧ a_log a i !! N.to_nat (k - 1) = Some e.
Proof.
  intros Hr He. assert (is_Some (entry (n_storage n) k)) as Hk%entry_is_Some by eauto.
  rewrite (repr_entry _ _ _ _ (dr_repr _ _ _ _ _ (nr_durable _ _ _ _ _ Hr))) in He by lia. split; [lia|done].
Qed.

(** [C10] Log Matching. If two nodes of a reachable world retain entries of the
    same term at the same index, the entries are identical, and so are
    their logs at every smaller index that both retain. *)
Theorem log_matching w i j n m k x y :
  cluster_config nodes ids cfg → reachable_world sm0 client cfg nodes fresh_storage w →
  w_nodes w !! i = Some n → w_nodes w !! j = Some m →
  entry (n_storage n) k = Some x → entry (n_storage m) k = Some y → e_term x = e_term y →
  ∀ k' x' y', k' ≤ k → entry (n_storage n) k' = Some x' → entry (n_storage m) k' = Some y' → x' = y'.
Proof.
  intros Hcfg Hreach Hn Hm Hx Hy Ht k' x' y' Hk Hx' Hy'.
  destruct (reachable_rel _ Hcfg Hreach) as (a & _ & [Ha _ _ Hnodes _ _]).
  pose proof (Hnodes _ _ Hn) as Rn. pose proof (Hnodes _ _ Hm) as Rm.
  destruct (rel_entry _ _ _ _ _ Rn Hx) as [_ Gx]. destruct (rel_entry _ _ _ _ _ Rm Hy) as [_ Gy].
  destruct (rel_entry _ _ _ _ _ Rn Hx') as [_ Gx']. destruct (rel_entry _ _ _ _ _ Rm Hy') as [_ Gy'].
  destruct (ai_log_matched _ _ Ha i _ _ Gx) as (c & L & HL & Hp).
  destruct (ai_log_matched _ _ Ha j _ _ Gy) as (c' & L' & HL' & Hp').
  rewrite Ht, HL' in HL. injection HL as <- <-.
  assert (∀ g e', take (S (N.to_nat (k - 1))) g `prefix_of` L' → g !! N.to_nat (k' - 1) = Some e' →
    L' !! N.to_nat (k' - 1) = Some e') as Hin.
  { intros g e' Hpg He'. eapply prefix_lookup_Some; [|exact Hpg]. by rewrite lookup_take_lt by lia. }
  pose proof (Hin _ _ Hp Gx') as E. rewrite (Hin _ _ Hp' Gy') in E. by injection E.
Qed.

(** A log committed by term [t] is held by every leader of term [t] or later. *)
Lemma committed_in_leader w a j m l t p k e :
  world_rel w a → w_nodes w !! j = Some m → n_role m = Leader l → committed ids a t p → t ≤ cur_term m →
  p !! k = Some e → let idx := N.of_nat k + 1 in
  idx ≤ last_index (n_storage m) ∧
  (entry (n_storage m) idx = Some e ∨ idx ≤ snapshot_index (n_storage m)).
Proof.
  intros Hw Hm Hl Hc Ht Hk idx. pose proof (wr_nodes _ _ Hw _ _ Hm) as Rm.
  pose proof (dr_repr _ _ _ _ _ (nr_durable _ _ _ _ _ Rm)) as Hrepr.
  pose proof (nr_role _ _ _ _ _ Rm) as Hrole. rewrite Hl in Hrole. destruct Hrole as (HL & _).
  assert (a_log a j !! k = Some e) as He.
  { eapply prefix_lookup_Some; [exact Hk|]. eapply leader_complete; [apply Hw|exact Hc|exact Ht|exact HL]. }
  split.
  - rewrite (repr_last_index _ _ _ Hrepr). apply lookup_lt_Some in He. unfold g_len. lia.
  - destruct (decide (idx ≤ snapshot_index (n_storage m))) as [?|Hlow]; [by right|left].
    rewrite (repr_entry _ _ _ _ Hrepr) by lia. by replace (N.to_nat (idx - 1)) with k by lia.
Qed.

(** [C7] Leader Completeness. What a node has committed is in the log of every
    leader of the same or a later term, from then on: the leader's log is
    long enough, and at every committed index the leader either has the
    same entry or has already compacted it into its snapshot. *)
Theorem leader_completeness w w' i j n m l :
  cluster_config nodes ids cfg → reachable_world sm0 client cfg nodes fresh_storage w →
  rtc (w_step sm0 client) w w' →
  w_nodes w !! i = Some n → w_nodes w' !! j = Some m →
  n_role m = Leader l → cur_term n ≤ cur_term m →
  n_commit_index n ≤ last_index (n_storage m) ∧
  ∀ k e, k ≤ n_commit_index n → entry (n_storage n) k = Some e →
    entry (n_storage m) k = Some e ∨ k ≤ snapshot_index (n_storage m).
Proof.
  intros Hcfg Hreach Hsteps Hn Hm Hl Ht.
  destruct (reachable_rel _ Hcfg Hreach) as (a & _ & Hw). pose proof (wr_nodes _ _ Hw _ _ Hn) as Rn.
  destruct (steps_rel _ _ _ Hcfg Hw Hsteps) as (a' & Hle%a_any_le & Hw').
  pose proof (wr_nodes _ _ Hw' _ _ Hm) as Rm. pose proof (dr_repr _ _ _ _ _ (nr_durable _ _ _ _ _ Rm)) as Hrepr.
  pose proof (nr_role _ _ _ _ _ Rm) as Hrole. rewrite Hl in Hrole. destruct Hrole as (HL & _).
  assert (take (N.to_nat (n_commit_index n)) (a_log a i) `prefix_of` a_log a' j) as Hp.
  { eapply leader_complete; [apply Hw'| |exact Ht|exact HL].
    eapply committed_mono; [done|reflexivity|apply Rn]. }
  pose proof (nr_commit _ _ _ _ _ Rn) as Hk. split.
  - rewrite (repr_last_index _ _ _ Hrepr). apply prefix_length in Hp. rewrite length_take in Hp.
    unfold g_len in *. lia.
  - intros k e Hke [Hk1 He]%(rel_entry _ _ _ _ _ Rn).
    destruct (decide (k ≤ snapshot_index (n_storage m))) as [?|Hlow]; [by right|left].
    rewrite (repr_entry _ _ _ _ Hrepr) by lia. eapply prefix_lookup_Some; [|exact Hp].
    rewrite lookup_take_lt by lia. done.
Qed.

(** ** State machines *)

(** Finitely many committed logs have a longest. *)
Lemma committed_sup a (ps : list (list LogEntry)) :
  a_inv ids a → (∀ p, p ∈ ps → ∃ t, committed ids a t p) →
  ∃ G, (∃ t, committed ids a t G) ∧ ∀ p, p ∈ ps → p `prefix_of` G.
Proof.
  intros Ha. induction ps as [|p ps IH]; intros Hc.
  - exists []. split; [exists 0; by left|]. by intros p ?%elem_of_nil.
  - destruct IH as (G & [t HG] & HGp); [intros; apply Hc; by right|].
    destruct (Hc p) as [t' Hp]; [left|]. destruct (committed_total _ _ _ _ _ _ Ha Hp HG) as [Hle|Hle].
    + exists G. split; [eauto|]. intros q [->|?]%elem_of_cons; [done|by apply HGp].
    + exists p. split; [eauto|]. intros q [->|?]%elem_of_cons; [done|]. etrans; [by apply HGp|done].
Qed.

(** The part of its log a node has applied. *)
Definition applied_log a i n : list LogEntry := take (N.to_nat (n_last_applied n)) (a_log a i).

Lemma applied_committed a i n : node_rel a i n → committed ids a (cur_term n) (applied_log a i n).
Proof.
  intros Hr. eapply committed_prefix; [|exact (nr_committed _ _ _ _ _ Hr)]. apply take_prefix_le. pose proof (nr_applied _ _ _ _ _ Hr). lia.
Qed.

(** A node has applied the first entries of [G], and retains them. *)
Definition ran (G : list LogEntry) n : Prop :=
  n_last_applied n ≤ N.of_nat (length G) ∧
  n_state_machine n = sm_apply_all (take (N.to_nat (n_last_applied n)) G) sm0 ∧
  ∀ k e, k ≤ n_last_applied n → entry (n_storage n) k = Some e → G !! N.to_nat (k - 1) = Some e.

Lemma applied_ran a i n G : node_rel a i n → applied_log a i n `prefix_of` G → ran G n.
Proof.
  intros Hr Hp. pose proof (nr_applied _ _ _ _ _ Hr) as Hap. pose proof (nr_commit _ _ _ _ _ Hr) as Hk.
  assert (length (applied_log a i n) = N.to_nat (n_last_applied n)) as Hlen.
  { unfold applied_log, g_len in *. rewrite length_take. lia. }
  split; [apply prefix_length in Hp; lia|]. split.
  - rewrite (nr_sm _ _ _ _ _ Hr). unfold state_at. f_equal. symmetry.
    apply take_prefix_agree; [done|]. unfold g_len in *. lia.
  - intros k e Hke [Hk1 He]%(rel_entry _ _ _ _ _ Hr). eapply prefix_lookup_Some; [|exact Hp].
    unfold applied_log. rewrite lookup_take_lt by lia. done.
Qed.

(** All that is applied, now and later, and one more committed log. *)
Lemma applied_common w w' a t p :
  cluster_config nodes ids cfg → world_rel w a → rtc (w_step sm0 client) w w' → committed ids a t p →
  ∃ G, p `prefix_of` G ∧
    (∀ i n, w_nodes w !! i = Some n → ran G n) ∧ (∀ i n, w_nodes w' !! i = Some n → ran G n).
Proof.
  intros Hcfg Hw Hsteps Hp. destruct (steps_rel _ _ _ Hcfg Hw Hsteps) as (a' & Hle%a_any_le & Hw').
  set (logs := λ b (m : gmap N (RaftNode SM)), (λ '(i, n), applied_log b i n) <$> map_to_list m).
  destruct (committed_sup a' (p :: logs a (w_nodes w) ++ logs a' (w_nodes w'))) as (G & _ & HG); [apply Hw'| |].
  { intros q [->|[([i n] & -> & Hin)%list_elem_of_fmap|([i n] & -> & Hin)%list_elem_of_fmap]%elem_of_app]%elem_of_cons;
      try apply elem_of_map_to_list in Hin.
    - exists t. by eapply committed_mono.
    - exists (cur_term n). eapply committed_mono; [done|reflexivity|]. by eapply applied_committed, wr_nodes.
    - exists (cur_term n). by eapply applied_committed, wr_nodes. }
  exists G. split; [apply HG; left|]. split; intros i n Hi.
  - eapply applied_ran; [by apply (wr_nodes _ _ Hw)|]. apply HG. right. apply elem_of_app. left.
    apply list_elem_of_fmap. exists (i, n). split; [done|]. by apply elem_of_map_to_list.
  - eapply applied_ran; [by apply (wr_nodes _ _ Hw')|]. apply HG. right. apply elem_of_app. right.
    apply list_elem_of_fmap. exists (i, n). split; [done|]. by apply elem_of_map_to_list.
Qed.

(** [C3] State Machine Safety. There is one sequence of entries that every node
    of a reachable world, and every node of every world reached from it
    later, has applied a prefix of, in order and from the initial state:
    no two nodes ever apply different entries at an index, and nodes that
    have applied equally far have equal state machines, through snapshots,
    crashes and restarts. *)
Theorem state_machine_safety w w' :
  cluster_config nodes ids cfg → reachable_world sm0 client cfg nodes fresh_storage w →
  rtc (w_step sm0 client) w w' →
  ∃ G, (∀ i n, w_nodes w !! i = Some n → ran G n) ∧ (∀ i n, w_nodes w' !! i = Some n → ran G n).
Proof.
  intros Hcfg Hreach Hsteps. destruct (reachable_rel _ Hcfg Hreach) as (a & _ & Hw).
  destruct (applied_common _ _ _ 0 [] Hcfg Hw Hsteps) as (G & _ & ?); [by left|]. by exists G.
Qed.

(** ** No node panics *)
Definition all_wf w : Prop := ∀ i n, w_nodes w !! i = Some n → node_wf sm0 n.
Definition configs_ok : Prop := ∀ i, i ∈ nodes → cfg_ok (cfg i).

(** A prefix of the leader's log that is acknowledged is no longer than it. *)
Lemma acked_bound a i n l v k :
  a_inv ids a → node_rel a i n → n_role n = Leader l → acked a v (cur_term n) k →
  k ≤ last_index (n_storage n).
Proof.
  intros Ha Hr Hl [->|(p & HA & Hk)]; [lia|].
  pose proof (nr_role _ _ _ _ _ Hr) as Hrole. rewrite Hl in Hrole. destruct Hrole as (HL & _).
  destruct (ai_ack_lead _ _ Ha _ HA) as (c & L & HL' & Hp). simpl in *. rewrite HL in HL'. injection HL' as <- <-.
  rewrite (repr_last_index _ _ _ (dr_repr _ _ _ _ _ (nr_durable _ _ _ _ _ Hr))).
  apply prefix_length in Hp. unfold g_len in *. lia.
Qed.

(** A request is one the node's invariant admits. *)
Lemma append_input_ok a i n c args tag :
  a_inv ids a → node_rel a i n → req_ok a c (AppendEntries args) tag → append_ok n args.
Proof.
  intros Ha Hr (_ & _ & g & Hl & Hprev & _ & Hes & _) Ht.
  destruct (lead_log_matched _ _ _ _ _ Ha Hl) as [_ Hidx]. rewrite Hes. split.
  - rewrite N.add_comm.
    replace (ae_prev_log_index args) with (N.of_nat (N.to_nat (ae_prev_log_index args))) at 1 by lia.
    apply contiguous_drop; [done|]. unfold g_len in Hprev. lia.
  - intros e [q Hq]%list_elem_of_lookup Hlow Hk. rewrite lookup_drop in Hq.
    pose proof (contiguous_lookup _ _ _ _ Hidx Hq) as Ei.
    assert (N.to_nat (e_index e - 1) = (N.to_nat (ae_prev_log_index args) + q)%nat) as Epos by lia.
    pose proof (dr_repr _ _ _ _ _ (nr_durable _ _ _ _ _ Hr)) as Hrepr.
    rewrite (repr_term _ _ _ _ Hrepr), g_term_pos, Epos by lia.
    assert (take (N.to_nat (e_index e)) (a_log a i) = take (N.to_nat (e_index e)) g) as E.
    { eapply rel_agrees; [done|done|done|done|done|]. apply lookup_lt_Some in Hq. unfold g_len. lia. }
    apply (f_equal (.!! (N.to_nat (ae_prev_log_index args) + q)%nat)) in E.
    rewrite !lookup_take_lt, Hq in E by lia. by rewrite E.
Qed.

Lemma delivers_input_ok w a i n inp out :
  world_rel w a → w_nodes w !! i = Some n → delivers client w i inp out → input_ok n inp.
Proof.
  intros Hw Hi Hdel. pose proof (wr_inv _ _ Hw) as Ha. pose proof (wr_nodes _ _ Hw _ _ Hi) as Hr.
  destruct Hdel as [inp Hc|rq Hin Hto|rs Hin Hto|rq err Hin Hfrom].
  - by destruct inp.
  - pose proof (wr_requests _ _ Hw _ Hin) as Hok. simpl. destruct (rq_req rq) as [| | |args]; try done.
    + by eapply append_input_ok.
    + destruct Hok as (_ & _ & g & _ & Hsn & _). intros _ _. rewrite (so_state _ _ _ Hsn). by eexists.
  - pose proof (wr_responses _ _ Hw _ Hin) as Hok. rewrite Hto in Hok. simpl.
    destruct (rs_tag rs), (rs_resp rs); simpl in *; try done; intros -> Hlead Hs;
      unfold is_leader in Hlead; (destruct (n_role n) as [| | |l] eqn:Hl; try done); (eapply acked_bound; [done..|by apply Hok]).
  - simpl. by destruct (rq_tag rq).
Qed.

Lemma step_all_wf w w' a :
  cluster_config nodes ids cfg → configs_ok → world_rel w a → all_wf w → w_step sm0 client w w' → all_wf w'.
Proof.
  intros Hcfg Hok Hw Hwf Hstep. destruct (step_rel _ _ _ Hcfg Hw Hstep) as (a' & _ & Hw').
  destruct Hstep as [w i n inp out r es n' Hi Hdel Hstep].
  pose proof (delivers_input_ok _ _ _ _ _ _ Hw Hi Hdel) as Hin.
  pose proof (wr_nodes _ _ Hw' i n' (lookup_insert_eq _ _ _)) as Hn'.
  intros j m' Hm. cbn [w_nodes after] in Hm. apply lookup_insert_Some in Hm as [[<- <-]|[_ Hm]]; [|by eapply Hwf].
  destruct Hstep as [t r n' _ Hrun|t r m pre s t0 n' _ Hrun Hleft Hsp].
  - assert (node_wf sm0 (set_effects [] n)) as Hn by (eapply wf_frame; [by eapply Hwf|reflexivity..|apply Hwf in Hi as [[]]; done]).
    pose proof (loop_step_wf sm0 t inp _ Hn Hin) as Hw0. unfold wpp in Hw0. by rewrite Hrun in Hw0.
  - pose proof (spawn_storage _ _ _ _ _ Hsp) as (Es & _). pose proof (dr_repr _ _ _ _ _ (nr_durable _ _ _ _ _ Hn')) as Hrepr.
    rewrite Es in Hrepr. destruct (spawn_wf sm0 (n_config n) s t0) as (n'' & Hsp' & Hwf').
    + rewrite (wr_config _ _ Hw _ _ Hi). apply Hok. exact (wr_ids _ _ Hw _ _ Hi).
    + by eapply repr_wf.
    + rewrite (repr_base _ _ _ Hrepr). by eexists.
    + congruence.
Qed.

Lemma reachable_wf w :
  cluster_config nodes ids cfg → configs_ok → reachable_world sm0 client cfg nodes fresh_storage w →
  (∃ a, world_rel w a) ∧ all_wf w.
Proof.
  intros Hcfg Hok (w0 & Hinit & Hsteps). pose proof (init_rel _ Hcfg Hinit) as Hw0.
  assert (all_wf w0) as Hwf0.
  { intros i n Hi. destruct Hinit as (_ & Hspawn & _). destruct (Hspawn i n Hi) as [t0 Hsp].
    destruct (spawn_wf sm0 (cfg i) fresh_storage t0) as (n' & Hsp' & ?); [apply Hok; exact (wr_ids _ _ Hw0 _ _ Hi)|done|by eexists|congruence]. }
  clear Hinit. revert Hw0. generalize (a_init). intros a Hw0. revert a Hw0 Hwf0.
  induction Hsteps as [w|w1 w2 w3 Hstep _ IH]; intros a Hw Hwf; [by eauto|].
  destruct (step_rel _ _ _ Hcfg Hw Hstep) as (a' & _ & Hw'). apply (IH a' Hw').
  exact (step_all_wf _ _ _ Hcfg Hok Hw Hwf Hstep).
Qed.

(** [C9] No node of a cluster ever panics. In every reachable world,
    whatever a node can be handed next (a client's command or change of
    configuration, a timer, any
    request or reply in the network however late or often, a transport
    error), its handler returns at any instant: no [assert!], [expect] or
    storage error of the event loop can fire, and the node's invariant
    holds again afterwards. *)
Theorem cluster_never_panics w i n inp out t :
  cluster_config nodes ids cfg → configs_ok → reachable_world sm0 client cfg nodes fresh_storage w →
  w_nodes w !! i = Some n → delivers client w i inp out →
  ∃ r n', loop_step t inp (set_effects [] n) = Some (r, n') ∧ node_wf sm0 n'.
Proof.
  intros Hcfg Hok Hreach Hi Hdel. destruct (reachable_wf _ Hcfg Hok Hreach) as ((a & Hw) & Hwf).
  pose proof (delivers_input_ok _ _ _ _ _ _ Hw Hi Hdel) as Hin.
  assert (node_wf sm0 (set_effects [] n)) as Hn by (eapply wf_frame; [by eapply Hwf|reflexivity..|apply Hwf in Hi as [[]]; done]).
  pose proof (loop_step_wf sm0 t inp _ Hn Hin) as Hw0. unfold wpp in Hw0.
  destruct (loop_step t inp _) as [[r n']|]; [|done]. by exists r, n'.
Qed.

(** ** The observer stays silent *)
Lemma matched_drop_sorted a g k t :
  a_inv ids a → matched a g → g_term g (N.of_nat k) = Some t →
  Sorted (≤) (t :: (e_term <$> drop k g)).
Proof.
  intros Ha Hm. remember (length g - k)%nat as d eqn:Hd. revert k t Hd.
  induction d as [|d IH]; intros k t Hd Ht.
  - rewrite drop_ge by lia. repeat constructor.
  - destruct (lookup_lt_is_Some_2 g k) as [e He]; [lia|]. rewrite (drop_S _ _ _ He), fmap_cons.
    constructor.
    + apply IH; [lia|]. rewrite g_term_pos by lia. by replace (N.to_nat (N.of_nat (S k) - 1)) with k by lia; rewrite He.
    + constructor. destruct k as [|k]; [simpl in Ht; injection Ht as <-; lia|].
      rewrite g_term_pos in Ht by lia. replace (N.to_nat (N.of_nat (S k) - 1)) with k in Ht by lia.
      apply fmap_Some in Ht as (e0 & He0 & ->). by eapply (matched_sorted _ _ _ k (S k)); [..|lia| |].
Qed.

Lemma request_shape a c args tag :
  a_inv ids a → req_ok a c (AppendEntries args) tag → well_shaped args.
Proof.
  intros Ha (_ & _ & g & Hl & Hprev & Hpt & Hes & _).
  destruct (lead_log_matched _ _ _ _ _ Ha Hl) as [Hm Hidx]. destruct Hl as (L & HL & HgL).
  unfold well_shaped. rewrite Hes. split; [|split].
  - rewrite N.add_comm.
    replace (ae_prev_log_index args) with (N.of_nat (N.to_nat (ae_prev_log_index args))) at 1 by lia.
    apply contiguous_drop; [done|]. unfold g_len in Hprev. lia.
  - eapply matched_drop_sorted; [done..|]. by rewrite N2Nat.id.
  - intros e He. eapply ai_lead_term; [done|exact HL|]. eapply elem_of_prefix; [|exact HgL].
    eapply elem_of_submseteq; [exact He|]. apply sublist_submseteq, sublist_drop.
Qed.

(** An entry a leader sends is in the log of the leader of its term. *)
Lemma request_entry a c args tag e :
  a_inv ids a → req_ok a c (AppendEntries args) tag → e ∈ ae_entries args →
  ∃ c' L, a_lead a !! e_term e = Some (c', L) ∧ L !! N.to_nat (e_index e - 1) = Some e.
Proof.
  intros Ha (_ & _ & g & Hl & _ & _ & Hes & _) He.
  destruct (lead_log_matched _ _ _ _ _ Ha Hl) as [Hm Hidx]. rewrite Hes in He.
  apply list_elem_of_lookup in He as [q Hq]. rewrite lookup_drop in Hq.
  pose proof (contiguous_lookup _ _ _ _ Hidx Hq) as Ei.
  destruct (Hm _ _ Hq) as (c' & L & HL & Hp). exists c', L. split; [done|].
  replace (N.to_nat (e_index e - 1)) with (N.to_nat (ae_prev_log_index args) + q)%nat by lia.
  eapply prefix_lookup_Some; [|exact Hp]. by rewrite lookup_take_lt by lia.
Qed.

(** [C34] The safety observer of the simulated network never reports a
    violation: fed with every request a reachable world
    has ever sent, in the order they were sent, it has recorded nothing. *)
Theorem observer_silent w seed faults :
  cluster_config nodes ids cfg → reachable_world sm0 client cfg nodes fresh_storage w →
  violations (observe (rq_req <$> w_requests w) (SimNetwork_new seed faults)) = [].
Proof.
  intros Hcfg Hreach. destruct (reachable_rel _ Hcfg Hreach) as (a & _ & [Ha _ _ _ Hrq _]).
  apply violations_messages.
  assert (∀ x, x ∈ omap append_args (rq_req <$> w_requests w) →
    ∃ c tag, req_ok a c (AppendEntries x) tag) as Hok.
  { intros x (req & (rq & -> & Hin)%list_elem_of_fmap & Hx)%list_elem_of_omap.
    specialize (Hrq _ Hin). destruct (rq_req rq); simplify_eq/=. eauto. }
  split.
  - intros x y (c & tag & Hx)%Hok (c' & tag' & Hy)%Hok Ht.
    destruct Hx as (_ & -> & g & (L & HL & _) & _). destruct Hy as (_ & -> & g' & (L' & HL' & _) & _).
    rewrite Ht, HL' in HL. by injection HL.
  - intros x y e e' (c & tag & Hx)%Hok (c' & tag' & Hy)%Hok He He' Ht Hidx.
    destruct (request_entry _ _ _ _ _ Ha Hx He) as (c1 & L1 & HL1 & E1).
    destruct (request_entry _ _ _ _ _ Ha Hy He') as (c2 & L2 & HL2 & E2).
    rewrite Ht, HL2 in HL1. injection HL1 as <- <-. rewrite Hidx, E2 in E1. by injection E1 as ->.
  - intros x (c & tag & Hx)%Hok. by eapply request_shape.
Qed.
End safety.

(** ** On the runs of [Runs] *)
Section five_nodes.
#[local] Existing Instances numeric_json counter_sm counter_laws.

Lemma cfg5_cluster : cluster_config ids5 ids5 cfg5.
Proof. apply static_cluster, cfg5_static. Qed.

(** Three elections, a write cut off and carried over: node 2 leads term 3,
    has committed, and node 4 has heard of it. *)
Definition later : list Action :=
  committed_after ++ [ALocal (from_millis 1700) 2 InHeartbeat; ARequest (from_millis 1701) 2 4].
Definition long_run : World (SM := N) := world_after (superseded ++ later).
Definition early_run : World (SM := N) := world_after superseded.

Lemma long_run_reachable : reachable_world 0 static_client cfg5 ids5 fresh_storage long_run.
Proof. apply (acts_reachable (superseded ++ later)). vm_compute. reflexivity. Qed.
Lemma early_run_reachable : reachable_world 0 static_client cfg5 ids5 fresh_storage early_run.
Proof. apply (acts_reachable superseded). vm_compute. reflexivity. Qed.
Lemma early_long : rtc (w_step 0 static_client) early_run long_run.
Proof. apply (acts_rtc 0 _ later). vm_compute. reflexivity. Qed.
Lemma cfg5_ok : configs_ok (nodes := ids5) cfg5.
Proof. intros i _. vm_compute. done. Qed.

(** The run in which node 4 joins, takes over and removes node 1. *)
Lemma joined_fresh : reachable_world 0 any_client cfg4 nodes4 fresh_storage joined.
Proof. exact (joined_reachable _ any_may_change). Qed.
Lemma removed_fresh : reachable_world 0 any_client cfg4 nodes4 fresh_storage removed.
Proof. exact (removed_reachable _ any_may_change). Qed.
Lemma joined_removed_any : rtc (w_step 0 any_client) joined removed.
Proof. exact (joined_removed _ any_may_change). Qed.
Lemma cfg4_ok : configs_ok (nodes := nodes4) cfg4.
Proof.
  intros i Hi. assert (i ∈ [1; 2; 3; 4]) as Hi' by (by apply elem_of_list_to_set in Hi).
  repeat (apply elem_of_cons in Hi' as [->|Hi']; [by vm_compute|]). by apply elem_of_nil in Hi'.
Qed.

Example election_safety_witness :
  leads removed 2 4 ∧ leads removed 1 1 ∧ ∀ j, leads removed 2 j → 4 = j.
Proof.
  assert (∀ i t, (∃ n l, w_nodes removed !! i = Some n ∧ n_role n = Leader l ∧ cur_term n = t) →
    leads removed t i) as Hl by (intros i t (n & l & Hn & Hr & Ht); exact (leads_role _ _ _ n l Hn Hr Ht)).
  assert (leads removed 2 4) as H4.
  { apply Hl. eexists _, _. split; [vm_compute; reflexivity|]. split; vm_compute; reflexivity. }
  split; [exact H4|]. split.
  - apply Hl. eexists _, _. split; [vm_compute; reflexivity|]. split; vm_compute; reflexivity.
  - intros j Hj. exact (election_safety 0 ids3 cfg4 removed 2 4 j cfg4_cluster removed_fresh H4 Hj).
Defined.

Example cluster_refines_raft_witness :
  ∃ a, rtc (a_any ids3) a_init a ∧ world_rel (nodes := nodes4) 0 ids3 cfg4 removed a.
Proof. exact (cluster_refines_raft 0 ids3 cfg4 removed cfg4_cluster removed_fresh). Defined.

Example log_matching_witness :
  ∃ n m, w_nodes removed !! 2 = Some n ∧ w_nodes removed !! 4 = Some m ∧
    entry (n_storage n) 4 = Some (MkLogEntry 2 4 (ConfigChange (with_ids [2; 3; 4]))) ∧
    ∀ k' x' y', k' ≤ 4 → entry (n_storage n) k' = Some x' → entry (n_storage m) k' = Some y' → x' = y'.
Proof.
  eexists _, _. split; [vm_compute; reflexivity|]. split; [vm_compute; reflexivity|].
  split; [vm_compute; reflexivity|].
  eapply (log_matching 0 ids3 cfg4 removed 2 4 _ _ 4 _ _ cfg4_cluster removed_fresh);
    [vm_compute; reflexivity..].
Defined.

(** What node 1 committed as the leader of three is kept by node 4. *)
Example leader_completeness_witness :
  ∃ n m, w_nodes joined !! 1 = Some n ∧ w_nodes removed !! 4 = Some m ∧ n_commit_index n = 2 ∧
    n_commit_index n ≤ last_index (n_storage m).
Proof.
  eexists _, _. split; [vm_compute; reflexivity|]. split; [vm_compute; reflexivity|].
  split; [vm_compute; reflexivity|].
  eapply (leader_completeness 0 ids3 cfg4 joined removed 1 4 _ _ _ cfg4_cluster joined_fresh joined_removed_any);
    [vm_compute; reflexivity..|vm_compute; discriminate].
Defined.

Example state_machine_safety_witness :
  ∃ G, (∀ i n, w_nodes joined !! i = Some n → ran 0 G n) ∧
    (∀ i n, w_nodes removed !! i = Some n → ran 0 G n).
Proof.
  exact (state_machine_safety 0 ids3 cfg4 joined removed cfg4_cluster joined_fresh joined_removed_any).
Defined.

(** Another change, handed to the leader that was added itself. *)
Example cluster_never_panics_witness :
  ∃ n r n', w_nodes removed !! 4 = Some n ∧
    loop_step 0 (InPropose (ConfigChange (with_ids [2; 4])) 7) (set_effects [] n) = Some (r, n') ∧ node_wf 0 n'.
Proof.
  assert (∃ n, w_nodes removed !! 4 = Some n) as [n Hn] by (eexists; vm_compute; reflexivity).
  destruct (cluster_never_panics 0 ids3 cfg4 removed 4 n (InPropose (ConfigChange (with_ids [2; 4])) 7) (λ _, []) 0
    cfg4_cluster cfg4_ok removed_fresh Hn (deliver_local _ _ _ (InPropose _ 7) I)) as (r & n' & Hstep & Hwf).
  exists n, r, n'. split; [exact Hn|]. split; [exact Hstep|exact Hwf].
Defined.

Example observer_silent_witness :
  violations (observe (rq_req <$> w_requests removed) (SimNetwork_new 1 FaultConfig_default)) = [].
Proof. exact (observer_silent 0 ids3 cfg4 removed 1 FaultConfig_default cfg4_cluster removed_fresh). Defined.
End five_nodes.
