(* ===== verification/Serve.v ===== *)
(** * Serving reads, one node at a time

    What every handler preserves about the read path of a leader: the tag of
    every AppendEntries it has sent is covered by its heartbeat counter, the
    acknowledgements it has counted came back from the network, and a read
    it grants was registered, confirmed by a majority of the members and
    applied. A handler changes the term or the members before it grants, so
    the grant is one of the term and the members it ends with. [Reads]
    assembles these facts over a cluster.

    [B t q]: this node has sent AppendEntries tagged with term [t] and
    heartbeat [q]. [K v t q]: a reply to one of those has come back from [v].
    [R t p]: the pending read [p] was registered by this node in term [t]. *)
From S2P Require Import Prelude Types Rng Storage Node NodeSteps NodeLife NodeInv NodeThm Kv.
Open Scope N_scope.

(** What is known of a grant: the term and the members of the node, the node,
    how far it has applied, and the channel. *)
Record Grant := {
  gr_ok :> Term → gset N → NodeId → LogIndex → N → Prop;
  gr_le t ms id k k' ch : k ≤ k' → gr_ok t ms id k ch → gr_ok t ms id k' ch;
}.
(** No read has been granted yet. *)
Program Definition nothing : Grant := {| gr_ok := λ _ _ _ _ _, False |}.
Next Obligation. by intros. Qed.

Section serving.
Context `{J : SerdeJson} {SM : Type} `{!StateMachine SM}.
Context (B : Term → N → Prop) (K : NodeId → Term → N → Prop) (R : Term → PendingRead → Prop).
Implicit Types n : RaftNode SM.

Definition tagged (es : list Effect) (t : Term) (q : N) : Prop :=
  B t q ∨ ∃ to req p k, SendRpc to req (TagAppend t p k q) ∈ es.

Definition role_serves (es : list Effect) (t : Term) (r : Role) : Prop :=
  match r with
  | Candidate _ => ∀ t' q, tagged es t' q → t' < t
  | Leader l =>
      (∀ q, tagged es t q → q ≤ heartbeat_seq l) ∧
      (∀ v q, acked_seq l !! v = Some q → K v t q) ∧
      (∀ p, p ∈ pending_reads l → R t p)
  | _ => True
  end.

(** A read granted by a leader of term [t] over [ms] that has applied up to
    [k]. *)
Program Definition granted_ok : Grant := {| gr_ok := λ t ms id k ch,
  ∃ p Q, R t p ∧ pr_granted p = ch ∧ pr_read_index p ≤ k ∧ quorum ms Q ∧
    ∀ v, v ∈ Q → v = id ∨ ∃ q, pr_needed_seq p ≤ q ∧ K v t q |}.
Next Obligation.
  intros t ms id k k' ch Hk (p & Q & ? & ? & ? & ?). exists p, Q. split; [done|]. split; [done|]. split; [lia|done].
Qed.

Context (P : Grant).

Record serves n : Prop := {
  sv_tags t q : tagged (n_effects n) t q → t ≤ cur_term n;
  sv_role : role_serves (n_effects n) (cur_term n) (n_role n);
  sv_applied : n_last_applied n ≤ n_commit_index n;
  sv_granted ch : ReadGranted ch ∈ n_effects n →
    P (cur_term n) (dom (n_members n)) (self n) (n_last_applied n) ch;
}.

(** What is known of the grants so far holds in the new term, of the new
    members. *)
Definition stays n n' : Prop := ∀ id k ch,
  P (cur_term n) (dom (n_members n)) id k ch → P (cur_term n') (dom (n_members n')) id k ch.

Lemma serves_update n n' es :
  serves n → n_config n' = n_config n →
  (∀ t q, tagged (n_effects n ++ es) t q → t ≤ cur_term n') →
  role_serves (n_effects n ++ es) (cur_term n') (n_role n') →
  n_last_applied n ≤ n_last_applied n' → n_last_applied n' ≤ n_commit_index n' →
  n_effects n' = n_effects n ++ es → stays n n' →
  (∀ ch, ReadGranted ch ∈ es → P (cur_term n') (dom (n_members n')) (self n) (n_last_applied n') ch) → serves n'.
Proof.
  intros [Ht Hr Ha Hg] Ec Ht' Hr' Hla Hci Ee Hst Hg'.
  assert (self n' = self n) as Es by (unfold self; by rewrite Ec).
  split; rewrite ?Ee, ?Es; try done. intros ch [Hin|Hin]%elem_of_app; [|by apply Hg'].
  eapply gr_le; [exact Hla|by apply Hst, Hg].
Qed.

(** Effects that neither send AppendEntries nor grant a read. *)
Definition silent (es : list Effect) : Prop :=
  ∀ e, e ∈ es → match e with SendRpc _ _ (TagAppend _ _ _ _) | ReadGranted _ => False | _ => True end.

Lemma tagged_silent es es' t q : silent es' → tagged (es ++ es') t q → tagged es t q.
Proof.
  intros Hs [?|(to & req & p & k & [Hin|Hin]%elem_of_app)]; [by left|right; eauto|].
  by specialize (Hs _ Hin).
Qed.
Lemma role_serves_silent es es' t r :
  silent es' → role_serves es t r → role_serves (es ++ es') t r.
Proof.
  intros Hs. destruct r; simpl; [done..| |].
  - intros H t' q ?%tagged_silent; [by eapply H|done].
  - intros (H & ?). split; [|done]. intros q ?%tagged_silent; [by apply H|done].
Qed.

(** The role may change with the term, on silent effects. *)
Lemma serves_role n n' es :
  serves n → n_config n' = n_config n → cur_term n ≤ cur_term n' →
  role_serves (n_effects n) (cur_term n') (n_role n') →
  n_last_applied n ≤ n_last_applied n' → n_last_applied n' ≤ n_commit_index n' →
  n_effects n' = n_effects n ++ es → silent es → stays n n' → serves n'.
Proof.
  intros Hn Ec Et Hr Hla Hci Ee Hs Hst. eapply serves_update; try done.
  - intros t q Ht%tagged_silent; [|done]. apply (sv_tags _ Hn) in Ht. lia.
  - by apply role_serves_silent.
  - intros ch Hin. by specialize (Hs _ Hin).
Qed.
Lemma serves_frame n n' es :
  serves n → n_config n' = n_config n → cur_term n' = cur_term n → n_members n' = n_members n → n_role n' = n_role n →
  n_last_applied n ≤ n_last_applied n' → n_last_applied n' ≤ n_commit_index n' →
  n_effects n' = n_effects n ++ es → silent es → serves n'.
Proof.
  intros Hn Ec Et Em Er Hla Hci Ee Hs. eapply serves_role; try done; [by rewrite Et| |].
  - rewrite Et, Er. apply Hn.
  - intros id k ch. by rewrite Et, Em.
Qed.
End serving.

Lemma serves_weaken `{J : SerdeJson} {SM : Type} `{!StateMachine SM} B K R P (n : RaftNode SM) :
  serves B K R nothing n → serves B K R P n.
Proof. intros [Ht Hr Ha Hg]. split; try done. by intros ch []%Hg. Qed.

(** Closing [serves] after plain updates. *)
Ltac silent_tac :=
  let e := fresh "e" in let H := fresh in
  unfold silent; intros e H;
  repeat match goal with
  | H : _ ∈ _ ++ _ |- _ => apply elem_of_app in H as [H|H]
  | H : _ ∈ [] |- _ => by apply elem_of_nil in H
  | H : _ ∈ [_] |- _ => apply list_elem_of_singleton in H; subst; exact I
  | H : _ ∈ omap _ _ |- _ => apply list_elem_of_omap in H as (? & _ & H)
  | H : _ <$> _ = Some _ |- _ => apply fmap_Some in H as (? & _ & H); subst; exact I
  | H : _ ∈ _ <$> _ |- _ => apply list_elem_of_fmap in H as (? & H & _); subst; exact I
  | H : _ ∈ match ?x with _ => _ end |- _ => destruct x
  end.
Ltac sv_bound H := nsimpl; first [apply N.le_refl | exact (sv_applied _ _ _ _ _ H) | pose proof (sv_applied _ _ _ _ _ H); bools; lia].
Ltac stay_tac := exact (λ _ _ _ x, x).
Ltac sv_done :=
  match goal with
  | |- True => exact I
  | H : serves _ _ _ _ ?n |- serves _ _ _ _ ?n => exact H
  | H : serves _ _ _ _ _ |- serves _ _ _ _ _ =>
      solve [eapply (serves_frame _ _ _ _ _ _ []);
               [exact H|reflexivity|reflexivity|reflexivity|reflexivity|sv_bound H|sv_bound H|symmetry; apply app_nil_r|]; silent_tac
            |eapply serves_frame;
               [exact H|reflexivity|reflexivity|reflexivity|reflexivity|sv_bound H|sv_bound H|nsimpl; rewrite <-?app_assoc; reflexivity|];
             silent_tac]
  end.
#[export] Hint Extern 1 (serves _ _ _ _ _) => sv_done : handlers.
#[export] Hint Extern 1 (silent _) => silent_tac : handlers.

Section serving_ops.
Context `{J : SerdeJson} {SM : Type} `{!StateMachine SM} {Laws : StateMachineLaws}.
Context (B : Term → N → Prop) (K : NodeId → Term → N → Prop) (R : Term → PendingRead → Prop).
Implicit Types n : RaftNode SM.
#[local] Abbreviation granted := (granted_ok K R).

(** *** Operations that grant nothing *)
Section quiet.
Context (P : Grant).
#[local] Abbreviation serves := (serves B K R P).

Lemma emits_serves es n : serves n → silent es → wlp (emits es) (λ _, serves) n.
Proof.
  intros Hn Hs. unfold emits. walk. eapply serves_frame; [exact Hn|done..| |reflexivity|done]. apply Hn.
Qed.
Lemma emit_serves e n : serves n → silent [e] → wlp (emit e) (λ _, serves) n.
Proof. intros. by apply (emits_serves [e]). Qed.
#[local] Hint Resolve emits_serves emit_serves : handlers.
#[local] Ltac sv_walk := walk; try sv_done.

Lemma reset_election_timer_serves n : serves n → wlp reset_election_timer (λ _, serves) n.
Proof. intros Hn. unfold reset_election_timer, draw. sv_walk. Qed.
Lemma publish_membership_serves n : serves n → wlp publish_membership (λ _, serves) n.
Proof. intros Hn. unfold publish_membership. sv_walk. Qed.
Lemma resolve_pending_serves n : serves n → wlp resolve_pending (λ _, serves) n.
Proof. intros Hn. unfold resolve_pending. sv_walk. Qed.
Lemma apply_loop_serves fuel n : serves n → wlp (apply_loop fuel) (λ _, serves) n.
Proof. revert n. induction fuel as [|fuel IH]; intros n Hn; simpl; sv_walk. Qed.
#[local] Hint Resolve reset_election_timer_serves publish_membership_serves resolve_pending_serves
  apply_loop_serves : handlers.

(** A storage operation that keeps the term. *)
Lemma storage_op_serves op n :
  serves n → (∀ s', op (n_storage n) = Ok s' → current_term (st_hard_state s') = cur_term n) →
  wlp (storage_op op) (λ _, serves) n.
Proof.
  intros Hn Hop. unfold storage_op, emit. walk; [|done].
  match goal with H : _ = Ok _ |- _ => apply Hop in H end.
  eapply serves_frame; [exact Hn|done|done|done|done|done|apply Hn|reflexivity|silent_tac].
Qed.
Lemma append_serves es n : serves n → wlp (storage_op (append es)) (λ _, serves) n.
Proof. intros Hn. apply storage_op_serves; [done|]. intros s' Hs'. by rewrite (append_hard_state _ _ _ Hs'). Qed.
Lemma truncate_serves k n : serves n → wlp (storage_op (truncate_from k)) (λ _, serves) n.
Proof. intros Hn. apply storage_op_serves; [done|]. intros s' Hs'. by rewrite (truncate_hard_state _ _ _ Hs'). Qed.
Lemma compact_serves k v ms n : serves n → wlp (storage_op (compact_to k v ms)) (λ _, serves) n.
Proof. intros Hn. apply storage_op_serves; [done|]. intros s' Hs'. by rewrite (compact_hard_state _ _ _ _ _ Hs'). Qed.
Lemma install_serves snap n : serves n → wlp (storage_op (install_snapshot snap)) (λ _, serves) n.
Proof. intros Hn. apply storage_op_serves; [done|]. intros s' Hs'. by rewrite (install_hard_state _ _ _ Hs'). Qed.
Lemma save_vote_serves c n : serves n → wlp (save_hs (MkHardState (cur_term n) c)) (λ _, serves) n.
Proof. intros Hn. unfold save_hs. apply storage_op_serves; [done|]. by intros s' [= <-]. Qed.
#[local] Hint Resolve append_serves truncate_serves compact_serves install_serves save_vote_serves : handlers.

Lemma maybe_compact_serves n : serves n → wlp maybe_compact (λ _, serves) n.
Proof. intros Hn. unfold maybe_compact. sv_walk. Qed.
#[local] Hint Resolve maybe_compact_serves : handlers.

Lemma become_follower_serves t ldr n :
  serves n → (∀ ms id k ch, P (cur_term n) ms id k ch → P t ms id k ch) →
  wlp (become_follower t ldr) (λ _, serves) n.
Proof.
  intros Hn Ht. unfold become_follower, save_hs, storage_op, emits, emit. walk; try sv_done.
  all: match goal with |- wpp _ _ _ ?m => assert (serves m) end; [|sv_walk].
  all: try match goal with H : Ok _ = Ok _ |- _ => injection H as <- end.
  all: eapply serves_role; [exact Hn|done| |done|done|apply Hn| | |].
  all: try (nsimpl; rewrite <-?app_assoc; reflexivity).
  all: try (unfold cur_term; nsimpl; bools; simpl; lia).
  all: first [intros id k ch; solve [exact (λ x, x)|apply Ht]|silent_tac].
Qed.
Lemma step_down_serves ldr n : serves n → wlp (become_follower (cur_term n) ldr) (λ _, serves) n.
Proof. intros Hn. by apply become_follower_serves. Qed.
#[local] Hint Resolve step_down_serves : handlers.

(** A leader's bookkeeping away from heartbeats and reads. *)
Lemma set_leader_serves l l' n :
  serves n → n_role n = Leader l → heartbeat_seq l ≤ heartbeat_seq l' → acked_seq l' = acked_seq l →
  (∀ p, p ∈ pending_reads l' → p ∈ pending_reads l ∨ R (cur_term n) p) → serves (set_role (Leader l') n).
Proof.
  intros Hn Hl Hh Ea Hp. pose proof (sv_role _ _ _ _ _ Hn) as Hr. rewrite Hl in Hr. destruct Hr as (Ht & Hk & Hr).
  eapply (serves_role _ _ _ _ _ _ []); [exact Hn|done|done| |done|apply Hn|by rewrite app_nil_r|silent_tac|stay_tac].
  split; [|split].
  - intros q ?%Ht. lia.
  - rewrite Ea. apply Hk.
  - intros p [?|?]%Hp; [by apply Hr|done].
Qed.

(** A leader's AppendEntries carries its heartbeat counter. *)
Lemma tagged_send es to req t' p k q' t q :
  tagged B (es ++ [SendRpc to req (TagAppend t' p k q')]) t q → tagged B es t q ∨ t = t' ∧ q = q'.
Proof.
  intros [?|(to' & req' & x & y & [?|E%list_elem_of_singleton]%elem_of_app)];
    [left; by left|left; right; eauto|right]. by simplify_eq.
Qed.
Lemma send_append_serves p n : serves n → wlp (send_append p) (λ _, serves) n.
Proof.
  intros Hn. unfold send_append, send_install_snapshot. do 2 walk_step. walk_step; [by walk|].
  destruct (n_role n) as [| | |l] eqn:Hl; [by walk..|]. walk_step; [by sv_walk|].
  unfold emit. walk; [|done..].
  pose proof (sv_role _ _ _ _ _ Hn) as Hr. rewrite Hl in Hr. destruct Hr as (Ht & Hk & Hr).
  eapply serves_update; [exact Hn|done| | |done|apply Hn|reflexivity|stay_tac|by intros ch ?%list_elem_of_singleton].
  - intros t q [?%(sv_tags _ _ _ _ _ Hn)|[-> _]]%tagged_send; [done|]. by unfold cur_term.
  - nsimpl. rewrite Hl. split; [|done]. intros q [?%Ht|[_ ->]]%tagged_send; done.
Qed.
Lemma send_appends_serves ps n : serves n → wlp (for_each ps send_append) (λ _, serves) n.
Proof. intros Hn. apply wpp_for_each; [done|]. intros. by apply send_append_serves. Qed.
#[local] Hint Resolve send_append_serves send_appends_serves : handlers.

Lemma on_heartbeat_tick_serves n : serves n → wlp on_heartbeat_tick (λ _, serves) n.
Proof. intros Hn. unfold on_heartbeat_tick. sv_walk. Qed.
#[local] Hint Resolve on_heartbeat_tick_serves : handlers.

(** The first act of a leader: nothing of its term has been sent yet. *)
Lemma elect_serves n votes l :
  serves n → n_role n = Candidate votes → acked_seq l = ∅ → pending_reads l = [] →
  serves (set_role (Leader l) n).
Proof.
  intros Hn Hv Ea Ep. pose proof (sv_role _ _ _ _ _ Hn) as Hr. rewrite Hv in Hr.
  eapply (serves_role _ _ _ _ _ _ []); [exact Hn|done|done| |done|apply Hn|by rewrite app_nil_r|silent_tac|stay_tac].
  split; [|split].
  - intros q Hq%Hr. unfold cur_term in Hq. nsimpl. lia.
  - intros v q. by rewrite Ea, lookup_empty.
  - intros p. rewrite Ep. by intros ?%elem_of_nil.
Qed.
(** Roles that neither ask for votes nor lead. *)
Lemma set_plain_role_serves n r :
  serves n → match r with Follower | PreCandidate _ => True | _ => False end → serves (set_role r n).
Proof.
  intros Hs Hr.
  eapply (serves_role _ _ _ _ _ _ []); [exact Hs|done|done|by destruct r|done|apply Hs|by rewrite app_nil_r|silent_tac|stay_tac].
Qed.
Lemma count_vote_serves n votes votes' :
  serves n → n_role n = Candidate votes → serves (set_role (Candidate votes') n).
Proof.
  intros Hs Hv. pose proof (sv_role _ _ _ _ _ Hs) as Hr. rewrite Hv in Hr.
  eapply (serves_role _ _ _ _ _ _ []); [exact Hs|done|done|exact Hr|done|apply Hs|by rewrite app_nil_r|silent_tac|stay_tac].
Qed.
Lemma note_append_serves n l from prev cnt seq ok l' b d :
  serves n → n_role n = Leader l → K from (cur_term n) seq →
  note_append_reply n l from prev cnt seq ok = (l', b, d) → serves (set_role (Leader l') n).
Proof.
  intros Hn Hl HK Hnote. pose proof (sv_role _ _ _ _ _ Hn) as Hr. rewrite Hl in Hr. destruct Hr as (Ht & Hk & Hr).
  eapply (serves_role _ _ _ _ _ _ []); [exact Hn|done|done| |done|apply Hn|by rewrite app_nil_r|silent_tac|stay_tac].
  assert (heartbeat_seq l' = heartbeat_seq l ∧ pending_reads l' = pending_reads l ∧
    acked_seq l' = <[from := N.max (default 0 (acked_seq l !! from)) seq]> (acked_seq l)) as (Eh & Ep & Ea).
  { unfold note_append_reply in Hnote. destruct ok; [|by injection Hnote as <- _ _].
    destruct (match departing l !! from with Some _ => _ | None => _ end); by injection Hnote as <- _ _. }
  unfold role_serves. nsimpl. rewrite Eh, Ep, Ea. split; [done|]. split; [|done].
  intros v q [[<- <-]|[_ ?]]%lookup_insert_Some; [|by apply Hk].
  change (K from (cur_term n) (N.max (default 0 (acked_seq l !! from)) seq)).
  destruct (N.max_spec (default 0 (acked_seq l !! from)) seq) as [[_ ->]|[Hle ->]]; [done|].
  destruct (acked_seq l !! from) as [q|] eqn:Eq; simpl in *; [by apply Hk|].
  by replace 0 with seq by lia.
Qed.
End quiet.
#[local] Hint Resolve emits_serves emit_serves reset_election_timer_serves publish_membership_serves
  resolve_pending_serves apply_loop_serves append_serves truncate_serves compact_serves install_serves
  save_vote_serves maybe_compact_serves step_down_serves send_append_serves send_appends_serves
  on_heartbeat_tick_serves serves_weaken : handlers.

(** *** Operations that come before any grant *)
Section fresh.
#[local] Abbreviation serves := (serves B K R nothing).
#[local] Ltac sv_walk := walk; try sv_done.

Lemma fall_back_serves t ldr n : serves n → wlp (become_follower t ldr) (λ _, serves) n.
Proof. intros Hn. by apply become_follower_serves. Qed.
#[local] Hint Resolve fall_back_serves : handlers.

Lemma adopt_membership_serves ms k n : serves n → wlp (adopt_membership ms k) (λ _, serves) n.
Proof.
  intros Hn. unfold adopt_membership, set_leader. do 2 walk_step. apply wpp_bind.
  eapply (wpp_mono _ _ (λ _, serves)).
  { destruct (n_role n) as [| | |l] eqn:Hl; [by walk..|]. walk. by apply (set_leader_serves _ l); [..|by left]. }
  intros [] n1 Hn1. apply wpp_bind, wpp_modify. apply wpp_bind, wpp_modify.
  apply publish_membership_serves.
  eapply (serves_role _ _ _ _ n1 _ []); [exact Hn1|done|done|apply Hn1|done|apply Hn1|by rewrite app_nil_r|silent_tac|].
  by intros id k' ch [].
Qed.
Lemma rescan_membership_serves n : serves n → wlp rescan_membership (λ _, serves) n.
Proof.
  intros Hn. unfold rescan_membership. do 2 walk_step. walk_step. by apply adopt_membership_serves.
Qed.
#[local] Hint Resolve adopt_membership_serves rescan_membership_serves : handlers.

Lemma handle_request_vote_serves args n : serves n → wlp (handle_request_vote args) (λ _, serves) n.
Proof. intros Hn. unfold handle_request_vote. sv_walk. Qed.
Lemma handle_pre_vote_serves args n : serves n → wlp (handle_pre_vote args) (λ _, serves) n.
Proof. intros Hn. unfold handle_pre_vote. sv_walk. Qed.
Lemma handle_install_snapshot_serves args n : serves n → wlp (handle_install_snapshot args) (λ _, serves) n.
Proof.
  intros Hn. unfold handle_install_snapshot, storage_op, emit. walk; try done; try sv_done.
  match goal with H : install_snapshot _ _ = Ok _ |- _ => apply install_hard_state in H as Eh end.
  match goal with H : serves ?n1 |- wpp _ _ _ ?m => assert (serves m) as Hm end; [|by sv_walk].
  eapply serves_frame; [eassumption|done| |done|done|sv_bound H|done|reflexivity|silent_tac].
  unfold cur_term. nsimpl. by rewrite Eh.
Qed.
Lemma walk_entries_serves es n : serves n → wlp (walk_entries es) (λ _, serves) n.
Proof. revert n. induction es; intros n Hn; simpl; sv_walk. Qed.
#[local] Hint Resolve walk_entries_serves : handlers.
Lemma accept_entries_serves args n : serves n → wlp (accept_entries args) (λ _, serves) n.
Proof. intros Hn. unfold accept_entries. sv_walk. Qed.

Lemma candidacy_serves n :
  serves n →
  serves (set_role (Candidate {[self n]})
            (stored (save_hard_state (MkHardState (cur_term n + 1) (Some (self n))) (n_storage n)) n)).
Proof.
  intros Hn. unfold stored.
  eapply serves_role; [exact Hn|done| | |done|apply Hn|reflexivity|silent_tac|].
  - unfold cur_term. nsimpl. simpl. lia.
  - unfold cur_term. nsimpl. intros t' q Ht%(sv_tags _ _ _ _ _ Hn). simpl. unfold cur_term in *. lia.
  - by intros id k ch [].
Qed.
End fresh.
#[local] Hint Resolve fall_back_serves adopt_membership_serves rescan_membership_serves : handlers.

(** *** Granting *)
#[local] Abbreviation fresh := (serves B K R nothing).
#[local] Abbreviation serves := (serves B K R granted).
#[local] Ltac sv_walk := walk; try sv_done; try (apply serves_weaken; sv_done).

(** The members a ready read counts. *)
Lemma read_acks_quorum n l seq :
  (majority n ≤ read_acks n l seq)%nat →
  ∃ Q, quorum (dom (n_members n)) Q ∧ ∀ v, v ∈ Q → v = self n ∨ ∃ q, seq ≤ q ∧ acked_seq l !! v = Some q.
Proof.
  intros Hc. exists (list_to_set (filter (λ v, confirms n l seq v = true) (btree_keys (n_members n)))).
  split; [split|].
  - intros v [_ Hv]%elem_of_list_to_set%list_elem_of_filter. by rewrite elem_of_dom, <-elem_of_btree_keys.
  - rewrite size_list_to_set by apply NoDup_filter, NoDup_btree_keys.
    rewrite read_acks_members in Hc. unfold majority, majority_of in Hc. by rewrite <-size_dom in Hc.
  - intros v [Hv _]%elem_of_list_to_set%list_elem_of_filter. unfold confirms in Hv.
    apply orb_true_iff in Hv as [Hv|Hv]; bools; [by left|right].
    unfold acked_since in Hv. destruct (acked_seq l !! v) as [q|]; [|done]. bools. by exists q.
Qed.

Lemma resolve_reads_serves n : serves n → wlp resolve_reads (λ _, serves) n.
Proof.
  intros Hn. unfold resolve_reads, set_leader, emits. do 2 walk_step.
  destruct (n_role n) as [| | |l] eqn:Hl; [by walk..|]. walk.
  pose proof (sv_role _ _ _ _ _ Hn) as Hr. rewrite Hl in Hr. destruct Hr as (_ & Hk & Hr).
  assert (serves (set_role (Leader (set_pending_reads (filter (λ r, read_ready n l r = false) (pending_reads l)) l)) n)) as Hn'.
  { eapply set_leader_serves; [done..|]. intros p [_ ?]%list_elem_of_filter. by left. }
  set (m := set_role _ n) in *. set (gs := filter (λ r, read_ready n l r = true) (pending_reads l)).
  assert (∀ es t q, tagged B (es ++ ((λ r, ReadGranted (pr_granted r)) <$> gs)) t q → tagged B es t q) as Hq.
  { intros es t q [?|(to & req & x & y & [?|(r & ? & _)%list_elem_of_fmap]%elem_of_app)]; [by left|right; eauto|done]. }
  eapply serves_update; [exact Hn'|done| | |done|apply Hn'|reflexivity|stay_tac|].
  - intros t q ?%Hq. by eapply (sv_tags _ _ _ _ _ Hn').
  - destruct (sv_role _ _ _ _ _ Hn') as (Ht & ? & ?). split; [|done]. intros q ?%Hq. by apply Ht.
  - intros ch (r & [= ->] & [Hready Hin]%list_elem_of_filter)%list_elem_of_fmap.
    apply andb_true_iff in Hready as [Hmaj Happ]. bools.
    destruct (read_acks_quorum n l (pr_needed_seq r)) as (Q & HQ & Hv); [done|].
    exists r, Q. split; [by apply Hr|]. split; [done|]. split; [done|]. split; [done|].
    intros v [?|(q & ? & ?)]%Hv; [by left|right]. exists q. split; [done|by apply Hk].
Qed.
#[local] Hint Resolve resolve_reads_serves : handlers.

(** *** Handlers that may grant a read *)
Lemma apply_committed_serves n : serves n → wlp apply_committed (λ _, serves) n.
Proof. intros Hn. unfold apply_committed. sv_walk. Qed.
#[local] Hint Resolve apply_committed_serves : handlers.
Lemma maybe_advance_commit_serves n : serves n → wlp maybe_advance_commit (λ _, serves) n.
Proof. intros Hn. unfold maybe_advance_commit. sv_walk. Qed.
#[local] Hint Resolve maybe_advance_commit_serves : handlers.

Lemma maybe_become_leader_serves n : serves n → wlp maybe_become_leader (λ _, serves) n.
Proof.
  intros Hs. unfold maybe_become_leader. do 2 walk_step.
  destruct (n_role n) as [| |votes|] eqn:Hv; [by walk..| |by walk]. walk_step; bools; [by walk|].
  unfold set_leader. apply wpp_bind, wpp_modify.
  match goal with |- wpp _ _ _ (set_role (Leader ?l) n) =>
    assert (serves (set_role (Leader l) n)) as Hm by by eapply elect_serves end.
  sv_walk.
Qed.
#[local] Hint Resolve maybe_become_leader_serves : handlers.

Lemma start_election_serves n : fresh n → wlp start_election (λ _, serves) n.
Proof.
  intros Hs. unfold start_election, save_hs. do 2 walk_step. apply wpp_bind.
  eapply wpp_storage_op; [done|]. do 4 walk_step. pose proof (candidacy_serves _ Hs) as Hn. sv_walk.
Qed.
#[local] Hint Resolve start_election_serves : handlers.
Lemma maybe_start_election_serves n : fresh n → wlp maybe_start_election (λ _, serves) n.
Proof. intros Hn. unfold maybe_start_election. sv_walk. Qed.
#[local] Hint Resolve maybe_start_election_serves : handlers.

Lemma on_election_timeout_serves n : fresh n → wlp on_election_timeout (λ _, serves) n.
Proof.
  intros Hn. unfold on_election_timeout. do 3 walk_step; [by sv_walk|].
  apply wpp_bind, wpp_modify. pose proof (set_plain_role_serves _ n (PreCandidate {[self n]}) Hn I) as Hp. sv_walk.
Qed.

Lemma handle_propose_serves c r n : fresh n → wlp (handle_propose c r) (λ _, serves) n.
Proof.
  intros Hn. unfold handle_propose. do 3 walk_step; [by sv_walk|].
  apply wpp_bind. eapply (wpp_mono _ _ (λ _, fresh)); [|intros; by sv_walk].
  unfold check_command, validate_config_change. walk; done.
Qed.

(** A read is registered under the next heartbeat number. *)
Definition new_read n (l : LeaderState) (ch : N) : PendingRead :=
  MkPendingRead (heartbeat_seq l + 1) (N.max (n_commit_index n) (term_start_index l)) ch.

Lemma handle_read_serves ch n :
  fresh n → (∀ l, n_role n = Leader l → R (cur_term n) (new_read n l ch)) →
  wlp (handle_read ch) (λ _, serves) n.
Proof.
  intros Hs HR. unfold handle_read, set_leader. do 2 walk_step.
  destruct (n_role n) as [| | |l] eqn:Hl; [by sv_walk..|]. apply wpp_bind, wpp_modify.
  match goal with |- wpp _ _ _ ?m => assert (fresh m) as Hm end; [|by sv_walk].
  eapply set_leader_serves; [done|done|simpl; lia|done|]. simpl.
  intros p [?| ->%list_elem_of_singleton]%elem_of_app; [by left|right]. by apply HR.
Qed.

Lemma handle_append_entries_serves args n : fresh n → wlp (handle_append_entries args) (λ _, serves) n.
Proof.
  intros Hn. unfold handle_append_entries. pose proof (accept_entries_serves args) as Hacc. sv_walk.
Qed.

Lemma on_pre_vote_reply_serves t from r n : fresh n → wlp (on_pre_vote_reply t from r) (λ _, serves) n.
Proof.
  intros Hn. unfold on_pre_vote_reply. sv_walk.
  match goal with |- wpp _ _ _ (set_role ?r n) => pose proof (set_plain_role_serves _ n r Hn I) end. sv_walk.
Qed.

Lemma on_vote_reply_serves t from r n : fresh n → wlp (on_vote_reply t from r) (λ _, serves) n.
Proof.
  intros Hn. unfold on_vote_reply. sv_walk.
  match goal with |- wpp _ _ _ ?m => assert (fresh m) as Hm by by eapply count_vote_serves end. sv_walk.
Qed.

Lemma on_append_reply_serves t from prev cnt seq r n :
  fresh n → (aer_term r ≤ t → K from t seq) →
  wlp (on_append_reply t from prev cnt seq r) (λ _, serves) n.
Proof.
  intros Hn HK. unfold on_append_reply, set_leader. do 3 walk_step; [by sv_walk|].
  walk_step; bools; [by sv_walk|]. assert (t = cur_term n) as -> by (by destruct (decide (t = cur_term n))).
  destruct (n_role n) as [| | |l] eqn:Hl; [by sv_walk..|].
  destruct (note_append_reply _ _ _ _ _ _ _) as [[l' resend] departed] eqn:Hnote. apply wpp_bind, wpp_modify.
  match goal with |- wpp _ _ _ ?m => assert (fresh m) as Hm end; [|by sv_walk].
  eapply note_append_serves; [done|done| |done]. apply HK. lia.
Qed.

Lemma on_snapshot_reply_serves t from k r n : fresh n → wlp (on_snapshot_reply t from k r) (λ _, serves) n.
Proof.
  intros Hn. unfold on_snapshot_reply, set_leader. do 3 walk_step; [by sv_walk|].
  walk_step; bools; [by sv_walk|]. destruct (n_role n) as [| | |l] eqn:Hl; [by sv_walk..|].
  destruct (note_snapshot_reply _ _ _ _) as [l' departed] eqn:Hnote. apply wpp_bind, wpp_modify.
  match goal with |- wpp _ _ _ ?m => assert (fresh m) as Hm end; [|by sv_walk].
  unfold note_snapshot_reply in Hnote. injection Hnote as <- _. by eapply set_leader_serves; [done..|left].
Qed.

(** What the read path relies on about an input. *)
Definition serve_input n (inp : LoopInput) : Prop :=
  match inp with
  | InRead ch => ∀ l, n_role n = Leader l → R (cur_term n) (new_read n l ch)
  | InEvent (AppendReply t from _ _ seq (Ok (AppendEntriesResp r))) => aer_term r ≤ t → K from t seq
  | _ => True
  end.

Lemma handle_event_serves ev n :
  fresh n → serve_input n (InEvent ev) → wlp (handle_event ev) (λ _, serves) n.
Proof.
  intros Hn Hs. unfold handle_event.
  destruct ev as [? ? [[]|]|? ? [[]|]|? ? ? ? ? [[]|]|? ? ? [[]|]]; try by sv_walk.
  - by apply on_pre_vote_reply_serves.
  - by apply on_vote_reply_serves.
  - by apply on_append_reply_serves.
  - by apply on_snapshot_reply_serves.
Qed.

Lemma handle_inbound_serves req n : fresh n → wlp (handle_inbound req) (λ _, serves) n.
Proof.
  intros Hn. unfold handle_inbound. destruct req as [args|args|args|args]; apply wpp_bind.
  - eapply wpp_mono; [by apply handle_request_vote_serves|]. intros. by sv_walk.
  - eapply wpp_mono; [by apply handle_append_entries_serves|]. intros. by sv_walk.
  - eapply wpp_mono; [by apply handle_pre_vote_serves|]. intros. by sv_walk.
  - eapply wpp_mono; [by apply handle_install_snapshot_serves|]. intros. by sv_walk.
Qed.

Lemma dispatch_serves inp n : fresh n → serve_input n inp → wlp (dispatch inp) (λ _, serves) n.
Proof.
  intros Hn Hs. destruct inp as [cmd reply|ch| | |from req|ev]; simpl; apply wpp_bind;
    (eapply (wpp_mono _ _ (λ _, serves)); [|intros ? n' Hn'; by walk]).
  - by apply handle_propose_serves.
  - by apply handle_read_serves.
  - by apply on_election_timeout_serves.
  - by apply on_heartbeat_tick_serves, serves_weaken.
  - by eapply handle_inbound_serves.
  - by apply handle_event_serves.
Qed.

Lemma loop_step_serves t inp n : fresh n → serve_input n inp → wlp (loop_step t inp) (λ _, serves) n.
Proof.
  intros Hn Hs. unfold loop_step, publish_status, emit. walk.
  all: by apply dispatch_serves; [sv_done|..].
Qed.
End serving_ops.
