(* ===== verification/Reads.v ===== *)
(** * Linearizable reads of a cluster

    [Serve] for every world of a cluster, and what follows with the
    refinement of [Safety]: a read that a leader grants sees everything any
    node had committed when the read was asked for, although leaders may
    have been deposed in between without knowing, and although the members
    that confirm the leader may be others than those that elected it. *)
From stdpp Require Import functions.
From S2P Require Import Prelude Types Rng Storage Node NodeSteps NodeLife NodeInv NodeThm Kv Elections Cluster Runs Raft LogRepr Refine Safety Serve.
Open Scope N_scope.

(** ** The term in an answer *)
Section answer_term.
Context `{J : SerdeJson} {SM : Type} `{!StateMachine SM}.
Implicit Types n : RaftNode SM.

Lemma handle_append_entries_term args n :
  wlp (handle_append_entries args) (λ r _, cur_term n ≤ aer_term r) n.
Proof.
  unfold handle_append_entries. do 2 walk_step. walk_step; bools; [by walk|]. apply wpp_bind.
  eapply wpp_mono; [by apply (become_follower_evolves _ _ n)|]. intros [] n1 [_ Hle%hs_le_term _ _].
  assert (∀ b (m : RaftNode SM), wlp (mret (MkAppendEntriesReply (cur_term n1) b)) (λ r _, cur_term n ≤ aer_term r) m) as Hret
    by (intros; walk; exact Hle).
  do 4 walk_step. walk_step; [apply Hret|]. apply wpp_bind.
  eapply wpp_mono; [apply wlp_true|]. intros [] n2 _. do 2 walk_step. apply wpp_bind.
  eapply wpp_mono; [apply wlp_true|]. intros [] n3 _. apply Hret.
Qed.

Lemma append_answer_term t inp n r n' x :
  loop_step t inp n = Some (r, n') → r = Some (AppendEntriesResp x) → cur_term n ≤ aer_term x.
Proof.
  intros Hrun ->.
  assert (wlp (loop_step t inp) (λ r _, ∀ x, r = Some (AppendEntriesResp x) → cur_term n ≤ aer_term x) n) as Hw.
  { unfold loop_step. apply wpp_bind. eapply wpp_mono; [by apply (publish_status_evolves n n)|].
    intros [] n1 [_ Hle%hs_le_term _ _]. do 2 walk_step. set (m := set_now t n1).
    assert (∀ (p : M (RaftNode SM) ()), wlp (p ;; mret None)
      (λ r _, ∀ x, r = Some (AppendEntriesResp x) → cur_term n ≤ aer_term x) m) as Hnone.
    { intros p. apply wpp_bind. eapply wpp_mono; [apply wlp_true|]. intros [] ? _. by walk. }
    destruct inp as [| | | |from [args|args|args|args]|]; simpl; try apply Hnone; apply wpp_bind, wpp_bind.
    2: { eapply wpp_mono; [apply handle_append_entries_term|]. intros y n2 Hy. walk. intros ? [= <-].
         etrans; [exact Hle|exact Hy]. }
    all: eapply wpp_mono; [apply wlp_true|]; intros y n2 _; by walk. }
  unfold wpp in Hw. rewrite Hrun in Hw. by apply Hw.
Qed.
End answer_term.

Section reads.
Context `{J : SerdeJson} {SM : Type} `{!StateMachine SM} {Laws : StateMachineLaws} (sm0 : SM).
Context (nodes ids : gset N) (cfg : NodeId → RaftConfig) (i : NodeId).
Implicit Types (w : World (SM := SM)) (n : RaftNode SM) (a : Abs).
#[local] Abbreviation world_rel := (world_rel (nodes := nodes) sm0 ids cfg).
#[local] Abbreviation node_rel := (node_rel sm0 ids).

(** ** The read path of node [i] *)

(** AppendEntries of node [i], and the answers to them. *)
Definition sent_tag w (t : Term) (q : N) : Prop :=
  ∃ rq p k, rq ∈ w_requests w ∧ rq_from rq = i ∧ rq_tag rq = TagAppend t p k q.
Definition replied w (v : NodeId) (t : Term) (q : N) : Prop :=
  ∃ rs p k r, rs ∈ w_responses w ∧ rs_from rs = v ∧ rs_to rs = i ∧
    rs_tag rs = TagAppend t p k q ∧ rs_resp rs = AppendEntriesResp r ∧ aer_term r ≤ t.

Record read_world (R : Term → PendingRead → Prop) w : Prop := {
  rw_rel : ∃ a, world_rel w a;
  rw_node n : w_nodes w !! i = Some n →
    serves (sent_tag w) (replied w) R nothing (set_effects [] n);
  rw_tag rs : rs ∈ w_responses w →
    ∃ rq, rq ∈ w_requests w ∧ rq_from rq = rs_to rs ∧ rq_tag rq = rs_tag rs;
}.

(** The tags and the answers of the next iteration. *)
Lemma serves_settle (B B' : Term → N → Prop) (K K' : NodeId → Term → N → Prop) (R R' : Term → PendingRead → Prop) (P : Grant) n :
  serves B K R P n →
  (∀ t q, B' t q → tagged B (n_effects n) t q) → (∀ v t q, K v t q → K' v t q) →
  (∀ l p, n_role n = Leader l → p ∈ pending_reads l → R (cur_term n) p → R' (cur_term n) p) →
  serves B' K' R' nothing (set_effects [] n).
Proof.
  intros [Ht Hr Ha Hg] HB HK HR.
  assert (∀ t q, tagged B' [] t q → tagged B (n_effects n) t q) as Htag.
  { intros t q [?|(? & ? & ? & ? & ?%elem_of_nil)]; [by apply HB|done]. }
  split; nsimpl; [|change (cur_term (set_effects [] n)) with (cur_term n)|done|by intros ch ?%elem_of_nil].
  - intros t q ?%Htag. by eapply Ht.
  - destruct (n_role n) as [| |votes|l] eqn:Hl; [done..| |]; simpl in *.
    + intros t q ?%Htag. by eapply Hr.
    + destruct Hr as (H1 & H2 & H3). split; [intros q ?%Htag; by apply H1|].
      split; [intros v q ?%H2; by apply HK|]. intros p Hp. eapply HR; [done..|by apply H3].
Qed.

(** The sender of an AppendEntries has reached its term. *)
Lemma request_term w a rq t p k q n :
  world_rel w a → rq ∈ w_requests w → rq_tag rq = TagAppend t p k q →
  w_nodes w !! rq_from rq = Some n → t ≤ cur_term n.
Proof.
  intros Hw Hin Htag Hn. pose proof (wr_inv _ _ _ _ _ Hw) as Ha.
  pose proof (wr_requests _ _ _ _ _ Hw _ Hin) as Hok. pose proof (wr_nodes _ _ _ _ _ Hw _ _ Hn) as Hr.
  rewrite Htag in Hok. destruct (rq_req rq) as [args|args|args|args]; simpl in Hok; [naive_solver| |naive_solver..].
  destruct Hok as ([seq [= -> _ _ _]] & _ & g & (L & HL & _) & _).
  pose proof (lead_reached _ _ _ _ _ Ha HL) as HV'. by rewrite (dr_term _ _ _ _ _ (nr_durable _ _ _ _ _ Hr)) in HV'.
Qed.

Lemma sent_after w j n' es out t q :
  sent_tag (after w j n' es out) t q → sent_tag w t q ∨ j = i ∧ tagged (sent_tag w) es t q.
Proof.
  intros (rq & p & k & [Hin|(e & He & Hs)%list_elem_of_omap]%elem_of_app & Hf & Ht); [left; by exists rq, p, k|].
  destruct e as [|to req tag| | | | | | | |]; simplify_eq/=. right. split; [done|]. right. eauto.
Qed.
Lemma replied_after w j n' es out v t q : replied w v t q → replied (after w j n' es out) v t q.
Proof.
  intros (rs & p & k & r & ? & ?). exists rs, p, k, r. split; [|done]. apply elem_of_app. by left.
Qed.

(** Inputs of node [i] that the read path accepts. *)
Lemma delivers_serve (R : Term → PendingRead → Prop) w n inp out :
  delivers any_client w i inp out →
  (∀ ch l, inp = InRead ch → n_role n = Leader l → R (cur_term n) (new_read n l ch)) →
  serve_input (replied w) R (set_effects [] n) inp.
Proof.
  intros Hdel HR. destruct Hdel as [inp Hc|rq Hin Hto|rs Hin Hto|rq err Hin Hfrom]; simpl.
  - destruct inp; try done. intros l Hl. by apply (HR reply l).
  - done.
  - destruct (rs_tag rs) eqn:Et, (rs_resp rs) eqn:Er; simpl; try done. intros Hle. by eexists rs, _, _, _.
  - by destruct (rq_tag rq).
Qed.

(** One iteration of node [i], to the end. *)
Lemma run_serves (R : Term → PendingRead → Prop) w n t inp out r n' :
  read_world R w → w_nodes w !! i = Some n → delivers any_client w i inp out →
  loop_step t inp (set_effects [] n) = Some (r, n') →
  (∀ ch l, inp = InRead ch → n_role n = Leader l → R (cur_term n) (new_read n l ch)) →
  serves (sent_tag w) (replied w) R (granted_ok (replied w) R) n' ∧ self n' = i.
Proof.
  intros [[a Hw] Hnode _] Hn Hdel Hrun HR.
  pose proof (loop_step_serves (sent_tag w) (replied w) R t inp (set_effects [] n)) as Hs.
  unfold wpp in Hs. rewrite Hrun in Hs. split; [apply Hs; [by apply Hnode|by eapply delivers_serve]|].
  destruct (loop_step_hs _ _ _ _ _ Hrun) as (Ec & _). pose proof (nr_self _ _ _ _ _ (wr_nodes _ _ _ _ _ Hw _ _ Hn)) as Hself.
  unfold self in *. by rewrite Ec.
Qed.

Lemma read_step (R : Term → PendingRead → Prop) w j n inp out r es n' :
  cluster_config nodes ids cfg → read_world R w → w_nodes w !! j = Some n →
  delivers any_client w j inp out → node_step sm0 n inp r es n' →
  (∀ ch l, j = i → inp = InRead ch → n_role n = Leader l → R (cur_term n) (new_read n l ch)) →
  read_world R (after w j n' es (out r)).
Proof.
  intros Hcfg Hrw Hj Hdel Hstep HR. pose proof Hrw as [[a Hw] Hnode Htag].
  assert (w_step sm0 any_client w (after w j n' es (out r))) as Hws by by eapply world_step.
  destruct (step_rel _ _ _ _ _ _ Hcfg Hw Hws) as (a' & _ & Hw').
  split; [by exists a'| |].
  - intros m Hm. cbn [w_nodes after] in Hm. apply lookup_insert_Some in Hm as [[-> ->]|[Hne Hm]].
    + destruct Hstep as [t r m _ Hrun|t r m' pre s t0 m _ Hrun Hleft Hsp].
      * destruct (run_serves R w n t inp out r m) as [Hs _]; [done|done|done|done|by intros ch l; apply HR|].
        eapply serves_settle; [exact Hs| |by intros; apply replied_after|done].
        intros t' q [?|[_ ?]]%sent_after; [by left|done].
      * assert (w_nodes (after w i m pre (out None)) !! i = Some m) as Hm' by apply lookup_insert_eq.
        pose proof (wr_nodes _ _ _ _ _ Hw' _ _ Hm') as Hr'.
        pose proof (spawn_storage _ _ _ _ _ Hsp) as (_ & _ & Hf & _).
        split; nsimpl; [|by rewrite Hf|apply (nr_applied _ _ _ _ _ Hr')|by intros ch ?%elem_of_nil].
        intros t' q [(rq & p & k & Hin & Hfrom & Ht)|(? & ? & ? & ? & ?%elem_of_nil)]; [|done].
        change (t' ≤ cur_term m). eapply request_term; [exact Hw'|done|done|by rewrite Hfrom].
    + eapply (serves_settle (sent_tag w) _ (replied w) _ R R nothing (set_effects [] m)); [by apply Hnode| |by intros; apply replied_after|done].
      intros t' q [?|[? _]]%sent_after; [by left|congruence].
  - intros rs [Hin|Hin]%elem_of_app.
    + destruct (Htag _ Hin) as (rq & ? & ?). exists rq. split; [|done]. apply elem_of_app. by left.
    + destruct Hdel as [|rq Hrq Hto| |]; try by apply elem_of_nil in Hin.
      destruct r as [resp|]; [|by apply elem_of_nil in Hin]. apply list_elem_of_singleton in Hin as ->.
      exists rq. split; [|done]. apply elem_of_app. by left.
Qed.

(** Clients that read on other channels only. *)
Definition other_reads (ch : N) (inp : LoopInput) : Prop := any_client inp ∧ inp ≠ InRead ch.

Lemma other_delivers ch w j inp out :
  delivers (other_reads ch) w j inp out → delivers any_client w j inp out ∧ inp ≠ InRead ch.
Proof.
  destruct 1 as [inp Hc|rq Hin Hto|rs Hin Hto|rq err Hin Hfrom].
  - destruct inp; try done; destruct Hc; split; [by constructor|done|by constructor|done|by constructor|done|by constructor|done].
  - split; [by constructor|done].
  - split; [by constructor|done].
  - split; [by constructor|done].
Qed.

Lemma init_read_world w :
  cluster_config nodes ids cfg → w_init sm0 cfg nodes fresh_storage w → read_world (λ _ _, True) w.
Proof.
  intros Hcfg Hinit. pose proof (init_rel _ _ _ _ Hcfg Hinit) as Hw. split; [by exists a_init| |].
  - pose proof Hinit as (_ & Hspawn & Hrq & _). intros n Hn. destruct (Hspawn i n Hn) as [t0 Hsp].
    apply spawn_storage in Hsp as (_ & _ & Hf & _).
    split; nsimpl; [|by rewrite Hf|apply (nr_applied _ _ _ _ _ (wr_nodes _ _ _ _ _ Hw _ _ Hn))|by intros ch ?%elem_of_nil].
    intros t q [(rq & p & k & Hin & _)|(? & ? & ? & ? & ?%elem_of_nil)]; [|done].
    rewrite Hrq in Hin. by apply elem_of_nil in Hin.
  - destruct Hinit as (_ & _ & _ & Hrs & _). rewrite Hrs. by intros rs ?%elem_of_nil.
Qed.

Lemma steps_read_world w w' :
  cluster_config nodes ids cfg → read_world (λ _ _, True) w → rtc (w_step sm0 any_client) w w' →
  read_world (λ _ _, True) w'.
Proof.
  intros Hcfg Hw Hsteps. induction Hsteps as [|w1 w2 w3 Hstep _ IH]; [done|]. apply IH.
  destruct Hstep as [w j n inp out r es n' Hj Hdel Hstep]. by eapply read_step.
Qed.

(** ** From the request to the grant *)
Section since.
Context (w1 : World (SM := SM)) (a1 : Abs) (n1 : RaftNode SM) (ch : N).

(** The read this is about. *)
Definition the_read (t : Term) (p : PendingRead) : Prop :=
  pr_granted p = ch → ∃ l, n_role n1 = Leader l ∧ t = cur_term n1 ∧ p = new_read n1 l ch.

(** No node has gone back to a term it had left when the read was asked
    for, and what it has answered since says so. *)
Record since w : Prop := {
  sc_term v n : w_nodes w !! v = Some n → a_term a1 v ≤ cur_term n;
  sc_answer rs : rs ∈ w_responses w → rs ∈ w_responses w1 ∨
    ∀ r, rs_resp rs = AppendEntriesResp r → a_term a1 (rs_from rs) ≤ aer_term r;
}.

Lemma since_start : world_rel w1 a1 → since w1.
Proof.
  intros Hw. split; [|by left]. intros v n Hn.
  by rewrite (dr_term _ _ _ _ _ (nr_durable _ _ _ _ _ (wr_nodes _ _ _ _ _ Hw _ _ Hn))).
Qed.

Lemma since_step w j n inp out r es n' :
  since w → w_nodes w !! j = Some n → delivers any_client w j inp out →
  node_step sm0 n inp r es n' → since (after w j n' es (out r)).
Proof.
  intros [Hterm Hans] Hj Hdel Hstep. split; cbn [w_nodes w_responses after].
  - intros v m [[<- <-]|[_ Hm]]%lookup_insert_Some; [|by apply Hterm].
    etrans; [by apply Hterm|]. exact (hs_le_term _ _ (node_step_hs _ _ _ _ _ _ Hstep)).
  - intros rs [Hin|Hin]%elem_of_app; [by apply Hans|right]. intros x Hx.
    destruct Hdel as [|rq Hrq Hto| |]; try by apply elem_of_nil in Hin.
    destruct r as [resp|]; [|by apply elem_of_nil in Hin]. apply list_elem_of_singleton in Hin as ->. simpl in *.
    subst resp. remember (Some (AppendEntriesResp x)) as r eqn:Er.
    destruct Hstep as [t r m _ Hrun|]; [|done].
    etrans; [by apply Hterm|]. exact (append_answer_term _ _ _ _ _ _ Hrun Er).
Qed.

(** The members that confirmed the read had not left the leader's term. *)
Lemma confirmed_terms w l t p v q :
  world_rel w1 a1 → read_world (λ _ _, True) w1 → w_nodes w1 !! i = Some n1 → since w →
  n_role n1 = Leader l → t = cur_term n1 → p = new_read n1 l ch →
  pr_needed_seq p ≤ q → replied w v t q → a_term a1 v ≤ cur_term n1.
Proof.
  intros Hw1 [_ Hnode Htag] Hn1 [_ Hans] Hl -> -> Hq (rs & x & k & r & Hin & <- & Hto & Ht & Hr & Hle).
  destruct (Hans _ Hin) as [Hold|Hnew]; [exfalso|by etrans; [by apply Hnew|]].
  destruct (Htag _ Hold) as (rq & Hrq & Hfrom & Htg).
  pose proof (sv_role _ _ _ _ _ (Hnode _ Hn1)) as Hrole. nsimpl. rewrite Hl in Hrole. destruct Hrole as (Hs & _).
  assert (q ≤ heartbeat_seq l); [|simpl in Hq; lia]. apply Hs. left. exists rq, x, k.
  rewrite Hfrom, Htg. done.
Qed.

(** Everything committed when the read was asked for is below its read
    index, if nobody had led a later term. *)
Lemma committed_below l t p :
  world_rel w1 a1 → w_nodes w1 !! i = Some n1 → n_role n1 = Leader l →
  (∀ T, cur_term n1 < T → a_lead a1 !! T = None) →
  committed ids a1 t p → N.of_nat (length p) ≤ N.max (n_commit_index n1) (term_start_index l).
Proof.
  intros Hw Hn Hl Hlatest [->|(T & X & p' & _ & Hp%prefix_length & Hc & Hk)]; [simpl; lia|].
  pose proof (wr_inv _ _ _ _ _ Hw) as Ha. pose proof (wr_nodes _ _ _ _ _ Hw _ _ Hn) as Hr.
  pose proof (nr_role _ _ _ _ _ Hr) as Hrole. pose proof (nr_known _ _ _ _ _ Hr) as Hknown.
  rewrite Hl in Hrole, Hknown. destruct Hrole as (HL & _ & _ & Hown). simpl in Hknown.
  destruct (decide (T < cur_term n1)) as [Hlt|Hge].
  - (* an older term: the leader has it, before its own first entry *)
    pose proof (committed_in_later _ _ _ _ _ _ _ _ Ha Hc (N.lt_le_incl _ _ Hlt) HL) as Hpre.
    destruct Hc as (_ & _ & _ & e & _ & _ & _ & Hlast & He' & _). rewrite last_lookup in Hlast.
    pose proof (prefix_lookup_Some _ _ _ _ Hlast Hpre) as He. apply lookup_lt_Some in Hlast.
    destruct (decide (term_start_index l ≤ N.of_nat (length p'))) as [Hs|]; [exfalso|lia].
    assert (e_term e = cur_term n1); [|lia]. eapply Hown; [exact He|lia].
  - destruct (decide (T = cur_term n1)) as [->|Hne]; [lia|exfalso].
    destruct Hc as (c & L & _ & _ & HL' & _). rewrite Hlatest in HL'; [done|lia].
Qed.
End since.

(** A leader adds entries of its own term only. *)
Lemma lead_own a a' T c L :
  rtc (a_any ids) a a' → a_lead a !! T = Some (c, L) →
  ∃ x, a_lead a' !! T = Some (c, L ++ x) ∧ ∀ e, e ∈ x → e_term e = T.
Proof.
  intros Hsteps. revert L. induction Hsteps as [a|a1 a2 a3 [j Hstep] _ IH]; intros L HL.
  { exists []. rewrite app_nil_r. split; [done|]. by intros e ?%elem_of_nil. }
  assert (∃ x, a_lead a2 !! T = Some (c, L ++ x) ∧ ∀ e, e ∈ x → e_term e = T) as (x & HL2 & Hx).
  { assert (a_lead a2 !! T = Some (c, L) → ∃ x, a_lead a2 !! T = Some (c, L ++ x) ∧ ∀ e, e ∈ x → e_term e = T) as Hsame
      by (intros; exists []; rewrite app_nil_r; split; [done|by intros e ?%elem_of_nil]).
    destruct Hstep as [| |a Q Hn|a L0 e HL0 He| | | |]; simpl in *; try by apply Hsame.
    - apply Hsame. rewrite lookup_insert_ne; congruence.
    - destruct (decide (T = a_term a j)) as [->|]; [|apply Hsame; by rewrite lookup_insert_ne].
      simplify_eq. exists [e]. rewrite lookup_insert_eq. split; [done|]. by intros e' ->%list_elem_of_singleton. }
  destruct (IH _ HL2) as (y & HL3 & Hy). exists (x ++ y). rewrite app_assoc. split; [done|].
  intros e [?|?]%elem_of_app; auto.
Qed.

(** No later leader had been elected when a read was asked for that the node
    grants in [a'], still in its term. *)
Lemma granted_latest a1 n1 l Q a' n' T :
  a_inv ids a1 → node_rel a1 i n1 → n_role n1 = Leader l → (∀ v, v ∈ Q → a_term a1 v ≤ cur_term n1) →
  rtc (a_any ids) a1 a' → a_inv ids a' → node_rel a' i n' → cur_term n' = cur_term n1 →
  term_start_index l ≤ n_last_applied n' → quorum (dom (n_members n')) Q →
  cur_term n1 < T → a_lead a1 !! T = None.
Proof.
  intros Ha1 Hr1 Hl Hv Hsteps Ha' Hr' Ht Hts [HQ _]%(members_quorum _ _ _ _ _ _ Hr') Hlt.
  pose proof (nr_role _ _ _ _ _ Hr1) as Hrole. rewrite Hl in Hrole. destruct Hrole as (HL & _ & _ & Hone & Hown).
  destruct (lead_own _ _ _ _ _ Hsteps HL) as (y & HL' & Hy).
  assert (a_log a' i = a_log a1 i ++ y) as EX.
  { eapply ai_lead_log; [done|exact HL'|]. by rewrite (dr_term _ _ _ _ _ (nr_durable _ _ _ _ _ Hr')), <-Ht. }
  pose proof (nr_applied _ _ _ _ _ Hr') as Hap. pose proof (nr_commit _ _ _ _ _ Hr') as Hk. rewrite EX in HQ, Hk.
  assert (∃ e, e ∈ a_log a1 i ++ y ∧ e_term e = cur_term n1) as (e & He & Het).
  { destruct y as [|e y]; [|exists e; split; [set_solver|apply Hy; left]]. rewrite app_nil_r in *. unfold g_len in Hk.
    destruct (lookup_lt_is_Some_2 (a_log a1 i) (N.to_nat (term_start_index l - 1))) as [e He]; [lia|].
    exists e. split; [by eapply list_elem_of_lookup_2|]. eapply Hown; [exact He|lia]. }
  eapply (confirmed_latest ids a1 a' (cur_term n1) i _ (a_log a1 i ++ y) _ Q e);
    [done|done|by eapply a_any_le|exact HL|exact HL'|by apply prefix_app_r|done|exact He|done|exact HQ|done|done].
Qed.

(** The iteration that grants the read. *)
Lemma grant_bound w1 a1 n1 ch w n t inp out r n' a' :
  world_rel w1 a1 → read_world (λ _ _, True) w1 → w_nodes w1 !! i = Some n1 →
  read_world (the_read n1 ch) w → since w1 a1 w → w_nodes w !! i = Some n →
  delivers any_client w i inp out → loop_step t inp (set_effects [] n) = Some (r, n') →
  (∀ c l, inp = InRead c → n_role n = Leader l → the_read n1 ch (cur_term n) (new_read n l c)) →
  ReadGranted ch ∈ n_effects n' → rtc (a_any ids) a1 a' → a_inv ids a' → node_rel a' i n' →
  ∀ t p, committed ids a1 t p → N.of_nat (length p) ≤ n_last_applied n'.
Proof.
  intros Hw1 Hrw1 Hn1 Hrw Hsince Hn Hdel Hrun HR Hg Hsteps Ha' Hr' t' p Hc.
  destruct (run_serves _ _ _ _ _ _ _ _ Hrw Hn Hdel Hrun HR) as [Hs Hself].
  destruct (sv_granted _ _ _ _ _ Hs _ Hg) as (x & Q & Hthe & Hch & Happ & HQ & Hv).
  destruct (Hthe Hch) as (l & Hl & Et & Ex). rewrite Hself in Hv. rewrite Ex in Happ. simpl in Happ.
  pose proof (wr_nodes _ _ _ _ _ Hw1 _ _ Hn1) as Hr1.
  etrans; [eapply (committed_below w1 a1 n1 l); [done..| |exact Hc]|exact Happ].
  intros T HT. eapply (granted_latest a1 n1 l Q a' n'); try done; [apply Hw1| |lia].
  intros v [->|(q & Hq & Hk)]%Hv; [|by eapply confirmed_terms].
  by rewrite (dr_term _ _ _ _ _ (nr_durable _ _ _ _ _ Hr1)).
Qed.

Definition unread (ch : N) n : Prop :=
  ∀ l p, n_role n = Leader l → p ∈ pending_reads l → pr_granted p ≠ ch.

(** Node [i] takes a read on channel [ch] in world [w1], where no other read
    uses it, and grants it: in the same iteration, or in a later one while
    no other read uses the channel. [n'] is the node after that iteration. *)
Inductive read_granted (ch : N) w1 n' : Prop :=
| granted_now n1 t r :
    w_nodes w1 !! i = Some n1 → unread ch n1 → enabled t (InRead ch) n1 = true →
    loop_step t (InRead ch) (set_effects [] n1) = Some (r, n') →
    ReadGranted ch ∈ n_effects n' → read_granted ch w1 n'
| granted_later n1 r1 es n2 w n t inp out r :
    w_nodes w1 !! i = Some n1 → unread ch n1 → node_step sm0 n1 (InRead ch) r1 es n2 →
    rtc (w_step sm0 (other_reads ch)) (after w1 i n2 es []) w →
    w_nodes w !! i = Some n → delivers (other_reads ch) w i inp out → enabled t inp n = true →
    loop_step t inp (set_effects [] n) = Some (r, n') →
    ReadGranted ch ∈ n_effects n' → read_granted ch w1 n'.

(** The world in which the read is asked for. *)
Lemma the_read_start ch w1 n1 :
  read_world (λ _ _, True) w1 → w_nodes w1 !! i = Some n1 → unread ch n1 → read_world (the_read n1 ch) w1.
Proof.
  intros [Hr Hnode Ht] Hn1 Hun. split; [done| |done]. intros n Hn. rewrite Hn1 in Hn. injection Hn as <-.
  eapply (serves_settle _ _ _ _ _ _ _ (set_effects [] n1)); [by apply Hnode|by left|done|].
  intros l p Hl Hp _ Hch. by destruct (Hun l p Hl Hp).
Qed.

Lemma the_read_steps ch w1 a1 n1 w w' :
  cluster_config nodes ids cfg → world_rel w1 a1 → read_world (the_read n1 ch) w → since w1 a1 w →
  rtc (w_step sm0 (other_reads ch)) w w' →
  read_world (the_read n1 ch) w' ∧ since w1 a1 w' ∧ rtc (w_step sm0 any_client) w w'.
Proof.
  intros Hcfg Hw1 Hrw Hs Hsteps. induction Hsteps as [|x y z Hstep _ IH]; [done|].
  destruct Hstep as [x j n inp out r es n' Hj [Hdel Hne]%other_delivers Hstep].
  destruct IH as (? & ? & ?).
  - eapply read_step; [done..|]. intros c l _ -> _ Hc. simpl in Hc. subst c. done.
  - by eapply since_step.
  - split; [done|]. split; [done|]. eapply rtc_l; [|done]. by eapply world_step.
Qed.

(** The iteration itself, as a step of the world. *)
Lemma run_rel w a n t inp out r n' :
  cluster_config nodes ids cfg → world_rel w a → w_nodes w !! i = Some n → delivers any_client w i inp out →
  enabled t inp n = true → loop_step t inp (set_effects [] n) = Some (r, n') →
  ∃ a', rtc (a_any ids) a a' ∧ a_inv ids a' ∧ node_rel a' i n'.
Proof.
  intros Hcfg Hw Hn Hdel He Hrun.
  assert (w_step sm0 any_client w (after w i n' (n_effects n') (out r))) as Hws
    by (eapply world_step; [done..|by eapply step_run]).
  destruct (step_rel _ _ _ _ _ _ Hcfg Hw Hws) as (a' & Hst & Hw'). exists a'. split; [done|].
  split; [apply Hw'|]. apply (wr_nodes _ _ _ _ _ Hw'). apply lookup_insert_eq.
Qed.

Lemma read_granted_bound ch w1 a1 n' :
  cluster_config nodes ids cfg → world_rel w1 a1 → read_world (λ _ _, True) w1 → read_granted ch w1 n' →
  (∀ t p, committed ids a1 t p → N.of_nat (length p) ≤ n_last_applied n') ∧
  ∃ a', a_le a1 a' ∧ a_inv ids a' ∧ node_rel a' i n'.
Proof.
  intros Hcfg Hw1 Hrw1 Hgr. pose proof (since_start w1 a1 Hw1) as Hs1.
  assert (∀ n1 c l, n_role n1 = Leader l → c = ch → the_read n1 ch (cur_term n1) (new_read n1 l c)) as Hthe
    by (intros n1 c l Hl -> _; by exists l).
  destruct Hgr as [n1 t r Hn1 Hun He Hrun Hg|n1 r1 es n2 w n t inp out r Hn1 Hun Hstep Hsteps Hn Hdel He Hrun Hg].
  all: pose proof (the_read_start _ _ _ Hrw1 Hn1 Hun) as Hrw.
  all: assert (delivers any_client w1 i (InRead ch) (λ _, [])) as Hdel1 by by constructor.
  - destruct (run_rel _ _ _ _ _ _ _ _ Hcfg Hw1 Hn1 Hdel1 He Hrun) as (a' & Hst & ? & ?).
    split; [|exists a'; split; [by eapply a_any_le|done]].
    eapply (grant_bound w1 a1 n1 ch w1 n1 t (InRead ch) (λ _, []) r n' a'); try done. intros c l [= <-] Hl. by apply Hthe.
  - assert (w_step sm0 any_client w1 (after w1 i n2 es [])) as Hws
      by (change [] with ((λ _ : option RpcResponse, [] : list Response) r1); by eapply world_step).
    destruct (the_read_steps ch w1 a1 n1 (after w1 i n2 es []) w) as (Hrw' & Hs' & Hrtc); [done|done| | |done|].
    { change [] with ((λ _ : option RpcResponse, [] : list Response) r1). eapply read_step; [done..|].
      intros c l _ [= <-] Hl. by apply Hthe. }
    { change [] with ((λ _ : option RpcResponse, [] : list Response) r1). by eapply since_step. }
    apply other_delivers in Hdel as [Hdel Hne].
    destruct (steps_rel _ _ _ _ _ _ Hcfg Hw1 (rtc_l _ _ _ _ Hws Hrtc)) as (a & Hst & Hw).
    destruct (run_rel _ _ _ _ _ _ _ _ Hcfg Hw Hn Hdel He Hrun) as (a' & Hst' & ? & ?).
    split; [|exists a'; split; [eapply a_any_le; by etrans|done]].
    eapply (grant_bound w1 a1 n1 ch w n t inp out r n' a'); try done; [by intros c l -> _ [= <-]|by etrans].
Qed.

Lemma committed_log_length a j m :
  node_rel a j m → N.of_nat (length (take (N.to_nat (n_commit_index m)) (a_log a j))) = n_commit_index m.
Proof. intros Hr. pose proof (nr_commit _ _ _ _ _ Hr). unfold g_len in *. rewrite length_take. lia. Qed.

(** What was committed by then is applied at the grant. *)
Lemma read_applied a1 a' n' t p :
  a_le a1 a' → a_inv ids a' → node_rel a' i n' → committed ids a1 t p →
  N.of_nat (length p) ≤ n_last_applied n' → p `prefix_of` applied_log a' i n'.
Proof.
  intros Hle Ha' Hr' Hc Hlen. pose proof (committed_mono ids _ _ _ _ _ Hle (reflexivity _) Hc) as Hc'.
  destruct (committed_total _ _ _ _ _ _ Ha' Hc' (applied_committed _ _ _ _ _ Hr')) as [?|Hq]; [done|].
  rewrite (prefix_length_eq _ _ Hq); [done|].
  pose proof (nr_applied _ _ _ _ _ Hr'). pose proof (nr_commit _ _ _ _ _ Hr').
  unfold applied_log, g_len in *. rewrite length_take. lia.
Qed.

(** [C6] Linearizable reads. A granted read sees every write committed before it
    was asked for, by any node and in any earlier world: if node [i] takes
    the read in [w1] and grants it, then its state machine at the grant is
    the result of a sequence [G] that contains every entry any node had
    committed in a world [w0] that led to [w1], and it has applied at least
    that far. Leaders deposed without knowing, crashes of the nodes that
    acknowledged those writes, and delayed replies make no difference. *)
Theorem linearizable_read w0 w1 ch n' :
  cluster_config nodes ids cfg → reachable_world sm0 any_client cfg nodes fresh_storage w0 →
  rtc (w_step sm0 any_client) w0 w1 → read_granted ch w1 n' →
  ∃ G, ran sm0 G n' ∧ ∀ j m, w_nodes w0 !! j = Some m →
    ran sm0 G m ∧ n_commit_index m ≤ n_last_applied n' ∧
    ∀ k e, k ≤ n_commit_index m → entry (n_storage m) k = Some e → G !! N.to_nat (k - 1) = Some e.
Proof.
  intros Hcfg (wi & Hinit & Hrun0) Hsteps Hgr.
  pose proof (steps_read_world _ _ Hcfg (init_read_world _ Hcfg Hinit) Hrun0) as Hrw0.
  pose proof (steps_read_world _ _ Hcfg Hrw0 Hsteps) as Hrw1. destruct Hrw0 as [[a0 Hw0] _ _].
  destruct (steps_rel _ _ _ _ _ _ Hcfg Hw0 Hsteps) as (a1 & Hle1%a_any_le & Hw1).
  destruct (read_granted_bound _ _ _ _ Hcfg Hw1 Hrw1 Hgr) as (Hbound & a' & Hle' & Ha' & Hr').
  assert (∀ j m, w_nodes w0 !! j = Some m →
    committed ids a1 (cur_term m) (take (N.to_nat (n_commit_index m)) (a_log a0 j)) ∧
    n_commit_index m ≤ n_last_applied n') as Hold.
  { intros j m Hm. pose proof (wr_nodes _ _ _ _ _ Hw0 _ _ Hm) as Hr.
    assert (committed ids a1 (cur_term m) (take (N.to_nat (n_commit_index m)) (a_log a0 j))) as Hc
      by (eapply committed_mono; [done|reflexivity|apply Hr]).
    split; [done|]. apply Hbound in Hc. by rewrite (committed_log_length _ _ _ Hr) in Hc. }
  exists (applied_log a' i n'). split; [by eapply applied_ran|]. intros j m Hm.
  destruct (Hold _ _ Hm) as [Hc Hk]. pose proof (wr_nodes _ _ _ _ _ Hw0 _ _ Hm) as Hr.
  assert (take (N.to_nat (n_commit_index m)) (a_log a0 j) `prefix_of` applied_log a' i n') as Hp
    by (eapply read_applied; [done|done|done|exact Hc|by rewrite (committed_log_length _ _ _ Hr)]).
  split; [|split; [done|]].
  - eapply applied_ran; [exact Hr|]. etrans; [|exact Hp]. apply take_prefix_le.
    pose proof (nr_applied _ _ _ _ _ Hr). lia.
  - intros k e Hke [Hk1 He]%(rel_entry _ _ _ _ _ _ _ Hr). eapply prefix_lookup_Some; [|exact Hp].
    rewrite lookup_take_lt by lia. done.
Qed.
End reads.

(** ** A read on a schedule *)
Section scheduled.
Context `{J : SerdeJson} {SM : Type} `{!StateMachine SM} {Laws : StateMachineLaws} (sm0 : SM).
Implicit Types (w : World (SM := SM)) (n : RaftNode SM).

Lemma run_node_inv w t i inp out w' :
  run_node w t i inp out = Some w' →
  ∃ n r n', w_nodes w !! i = Some n ∧ enabled t inp n = true ∧
    loop_step t inp (set_effects [] n) = Some (r, n') ∧ w' = after w i n' (n_effects n') (out r).
Proof.
  unfold run_node. destruct (w_nodes w !! i) as [n|]; simpl; [|done].
  destruct (enabled t inp n) eqn:He; [|done].
  destruct (loop_step t inp (set_effects [] n)) as [[r n']|] eqn:Hl; simpl; [|done].
  intros [= <-]. by exists n, r, n'.
Qed.

Definition no_reads n : bool :=
  match n_role n with Leader l => bool_decide (pending_reads l = []) | _ => true end.

(** Node [i] takes the read at [t], the actions [l] follow, and the last
    answer from [from] grants it at [t']. *)
Lemma scheduled_read w t i ch l t' from w2 w3 w4 n1 n' :
  w_nodes w !! i = Some n1 → no_reads n1 = true →
  act sm0 w (ALocal t i (InRead ch)) = Some w2 → acts sm0 w2 l = Some w3 →
  Forall (allowed (other_reads ch)) l → act sm0 w3 (AResponse t' from i) = Some w4 →
  w_nodes w4 !! i = Some n' → ReadGranted ch ∈ n_effects n' → read_granted sm0 i ch w n'.
Proof.
  intros Hn1 Hno H2 H3 Hl H4 Hn' Hg.
  apply run_node_inv in H2 as (n & r1 & n2 & Hn & He & Hrun & ->). rewrite Hn1 in Hn. injection Hn as <-.
  simpl in H4. destruct (last_response w3 from i) as [rs|] eqn:Hrs; simpl in H4; [|done].
  apply last_filter_elem in Hrs as [[<- <-] Hin].
  apply run_node_inv in H4 as (n3 & r & m & Hn3 & He' & Hrun' & ->).
  cbn [w_nodes after] in Hn'. rewrite lookup_insert_eq in Hn'. injection Hn' as ->.
  eapply granted_later; [exact Hn1| |by eapply step_run|by eapply acts_client|exact Hn3| |exact He'|exact Hrun'|done].
  - intros l0 p Hl0 Hp. unfold no_reads in Hno. rewrite Hl0 in Hno. bools. rewrite Hno in Hp. by apply elem_of_nil in Hp.
  - by apply (deliver_response _ _ _ rs).
Qed.
End scheduled.

(** *** After a change of membership *)
Section after_removal.
#[local] Existing Instances numeric_json counter_sm counter_laws.

Definition node_of (w : World (SM := N)) (i : NodeId) : RaftNode N := default committed_leader (w_nodes w !! i).

(** Node 4, which joined and now leads term 2 over nodes 2, 3 and 4, takes a
    read; the answer of node 2 grants it. Node 1, which led before and was
    removed, still believes it leads. *)
Definition confirming : list Action := [ARequest (from_millis 1321) 4 2].
Definition read_asked : World (SM := N) :=
  default boot4 (act 0 removed (ALocal (from_millis 1320) 4 (InRead 500))).
Definition read_confirmed : World (SM := N) := default boot4 (acts 0 read_asked confirming).
Definition read_done : World (SM := N) :=
  default boot4 (act 0 read_confirmed (AResponse (from_millis 1322) 2 4)).

Lemma read_granted_removed : read_granted 0 4 500 removed (node_of read_done 4).
Proof.
  refine (scheduled_read 0 removed (from_millis 1320) 4 500 confirming (from_millis 1322) 2
    read_asked read_confirmed read_done (node_of removed 4) _ _ _ _ _ _ _ _ _).
  1-4: vm_compute; reflexivity.
  - repeat constructor.
  - vm_compute. reflexivity.
  - vm_compute. reflexivity.
  - vm_compute. left.
Qed.

Example linearizable_read_witness :
  ∃ G, ran 0 G (node_of read_done 4) ∧ ∀ j m, w_nodes joined !! j = Some m →
    ran 0 G m ∧ n_commit_index m ≤ n_last_applied (node_of read_done 4) ∧
    ∀ k e, k ≤ n_commit_index m → entry (n_storage m) k = Some e → G !! N.to_nat (k - 1) = Some e.
Proof.
  exact (linearizable_read 0 nodes4 ids3 cfg4 4 joined removed 500 (node_of read_done 4)
    cfg4_cluster joined_fresh joined_removed_any read_granted_removed).
Defined.
End after_removal.
