(* ===== verification/Writes.v ===== *)
(** * Acknowledged writes of a cluster

    A write is acknowledged when a node settles its proposal with
    [Committed _ true]. Following one channel with [Refine]'s [Tracked]
    through the runs of a cluster, changes of its membership included: what is acknowledged is committed,
    so it is never lost, and every read asked for afterwards sees it. *)
From stdpp Require Import functions.
From S2P Require Import Prelude Types Rng Storage Node NodeSteps NodeLife NodeInv NodeThm Kv Elections Cluster Runs Raft LogRepr Refine Safety Serve Reads.
Open Scope N_scope.

Section writes.
Context `{J : SerdeJson} {SM : Type} `{!StateMachine SM} {Laws : StateMachineLaws} (sm0 : SM).
Context (nodes ids : gset N) (cfg : NodeId → RaftConfig).
Context (ch : N) (cmd : Command).
Implicit Types (w : World (SM := SM)) (n : RaftNode SM) (a : Abs).
#[local] Abbreviation world_rel := (world_rel (nodes := nodes) sm0 ids cfg).

#[local] Instance follow : Tracked := λ c, if decide (c = ch) then Some (λ e, e_command e = cmd) else None.

(** Clients that use channel [ch] for the command [cmd] only. *)
Definition write_client (inp : LoopInput) : Prop :=
  match inp with InPropose c x => x = ch → c = cmd | _ => True end.

Lemma write_delivers w i inp out :
  delivers write_client w i inp out → delivers any_client w i inp out ∧ ∀ a, tracked_input a i inp.
Proof.
  destruct 1 as [inp Hc|rq Hin Hto|rs Hin Hto|rq err Hin Hfrom]; [|by split; [constructor|]..].
  split; [constructor; by destruct inp|].
  destruct inp as [c x| | | | |]; try done. intros a. split; [done|]. intros e He _. split; [done|]. unfold tracked, follow.
  case_decide; [|done]. intros P [= <-]. rewrite He. by apply Hc.
Qed.
Lemma write_step w w' : w_step sm0 write_client w w' → w_step sm0 any_client w w'.
Proof. destruct 1 as [w i n inp out r es n' Hi [Hdel _]%write_delivers Hstep]. by eapply world_step. Qed.
Lemma write_steps w w' : rtc (w_step sm0 write_client) w w' → rtc (w_step sm0 any_client) w w'.
Proof. apply rtc_subrel, write_step. Qed.

Lemma write_world w :
  cluster_config nodes ids cfg → reachable_world sm0 write_client cfg nodes fresh_storage w →
  ∃ a, world_rel w a ∧ all_pendings w a.
Proof.
  intros Hcfg (w0 & Hinit & Hsteps).
  assert (∃ a, world_rel w0 a ∧ all_pendings w0 a) as H0.
  { exists a_init. split; [by apply init_rel|]. intros i n Hn p. destruct Hinit as (_ & Hspawn & _).
    destruct (Hspawn i n Hn) as [t0 Hsp]. rewrite (spawn_pending _ _ _ _ _ Hsp). by intros ?%elem_of_nil. }
  clear Hinit. induction Hsteps as [|x y z Hstep _ IH]; [done|]. apply IH.
  destruct Hstep as [x i n inp out r es n' Hi [Hdel Htr]%write_delivers Hstep]. destruct H0 as (a & Hw & Hp).
  destruct (step_tracked _ _ _ _ _ _ _ _ _ _ _ _ Hcfg Hw Hp Hi Hdel (Htr _) Hstep) as (a' & _ & ? & ? & _). by exists a'.
Qed.

(** A step from [w] to [w'] in which node [i] acknowledges the write. *)
Inductive write_acked i w w' : Prop :=
| write_acked_intro n inp out r es n' :
    w_nodes w !! i = Some n → delivers write_client w i inp out → node_step sm0 n inp r es n' →
    Committed ch true ∈ es → w' = after w i n' es (out r) → write_acked i w w'.

(** The acknowledging node has the command in a log committed by its term. *)
Lemma acked_written i w w' :
  cluster_config nodes ids cfg → reachable_world sm0 write_client cfg nodes fresh_storage w → write_acked i w w' →
  ∃ a t p k e, world_rel w' a ∧ committed ids a t p ∧ p !! k = Some e ∧ e_command e = cmd ∧ t ≤ a_term a i.
Proof.
  intros Hcfg Hreach Hack. destruct (write_world _ Hcfg Hreach) as (a & Hw & Hp).
  destruct Hack as [n inp out r es n' Hi [Hdel Htr]%write_delivers Hstep Hin ->].
  destruct (step_tracked _ _ _ _ _ _ _ _ _ _ _ _ Hcfg Hw Hp Hi Hdel (Htr _) Hstep) as (a' & _ & Hw' & _ & Hsays).
  destruct (Hsays _ Hin (λ e, e_command e = cmd)) as (t & p & k & e & ? & ? & ? & ?).
  { unfold tracked, follow. by rewrite decide_True. }
  by exists a', t, p, k, e.
Qed.

Lemma acked_step i w w' : write_acked i w w' → w_step sm0 any_client w w'.
Proof. destruct 1 as [n inp out r es n' Hi [Hdel _]%write_delivers Hstep _ ->]. by eapply world_step. Qed.

(** [C5] Acknowledged writes are durable. Once a node has answered a write with
    success, the command has its place [k] for good: one entry that carries
    it, such that in every later world every node, and every node at the
    time of the answer, has applied a prefix of a sequence with that entry
    at [k], and every leader whose term is not below the term in which the
    write was acknowledged has that entry in its log, or has compacted it
    into its snapshot. No node ever applies something else in its place,
    and no later leader lacks it, whatever crashes or is deposed. *)
Theorem acknowledged_write_durable i n w w' :
  cluster_config nodes ids cfg → reachable_world sm0 write_client cfg nodes fresh_storage w →
  write_acked i w w' → w_nodes w' !! i = Some n →
  ∃ k e, e_command e = cmd ∧ ∀ w'', rtc (w_step sm0 any_client) w' w'' →
    (∃ G, G !! k = Some e ∧ (∀ j m, w_nodes w' !! j = Some m → ran sm0 G m) ∧
       (∀ j m, w_nodes w'' !! j = Some m → ran sm0 G m)) ∧
    (∀ j m l, w_nodes w'' !! j = Some m → n_role m = Leader l → cur_term n ≤ cur_term m →
       let idx := N.of_nat k + 1 in
       idx ≤ last_index (n_storage m) ∧
       (entry (n_storage m) idx = Some e ∨ idx ≤ snapshot_index (n_storage m))).
Proof.
  intros Hcfg Hreach Hack Hn.
  destruct (acked_written _ _ _ Hcfg Hreach Hack) as (a & t & p & k & e & Hw & Hc & Hk & He & Ht).
  pose proof (dr_term _ _ _ _ _ (nr_durable _ _ _ _ _ (wr_nodes _ _ _ _ _ Hw _ _ Hn))) as Hterm.
  exists k, e. split; [done|]. intros w'' Hsteps. split.
  - destruct (applied_common _ _ _ _ _ _ _ _ Hcfg Hw Hsteps Hc) as (G & Hp & ?).
    exists G. split; [by eapply prefix_lookup_Some|done].
  - intros j m l Hm Hl Hge. destruct (steps_rel _ _ _ _ _ _ Hcfg Hw Hsteps) as (a' & Hle%a_any_le & Hw').
    pose proof (committed_mono ids _ _ _ _ _ Hle (reflexivity _) Hc) as Hc'.
    eapply committed_in_leader; [exact Hw'|exact Hm|exact Hl|exact Hc'| |exact Hk]. unfold cur_term at 1 in Hge. lia.
Qed.

(** Linearizability of reads after writes. If a node has acknowledged a
    write, and a read is asked for later, of any node, and granted, then the
    state machine the read is served from has applied the write. *)
Theorem read_after_write j w w' w1 i chr n' :
  cluster_config nodes ids cfg → reachable_world sm0 write_client cfg nodes fresh_storage w →
  write_acked j w w' → rtc (w_step sm0 any_client) w' w1 → read_granted sm0 i chr w1 n' →
  ∃ G k e, ran sm0 G n' ∧ N.of_nat k < n_last_applied n' ∧ G !! k = Some e ∧ e_command e = cmd.
Proof.
  intros Hcfg Hreach Hack Hsteps Hgr.
  destruct (acked_written _ _ _ Hcfg Hreach Hack) as (a & t & p & k & e & Hw & Hc & Hk & He & _).
  pose proof (acked_step _ _ _ Hack) as Hws. destruct Hreach as (w0 & Hinit & Hrun%write_steps).
  assert (rtc (w_step sm0 any_client) w0 w1) as Hall by (etrans; [exact Hrun|]; by eapply rtc_l).
  pose proof (steps_read_world _ _ _ _ i _ _ Hcfg (init_read_world _ _ _ _ _ _ Hcfg Hinit) Hall) as Hrw1.
  destruct (steps_rel _ _ _ _ _ _ Hcfg Hw Hsteps) as (a1 & Hle1%a_any_le & Hw1).
  pose proof (committed_mono ids _ _ _ _ _ Hle1 (reflexivity _) Hc) as Hc1.
  destruct (read_granted_bound _ _ _ _ _ _ _ _ _ Hcfg Hw1 Hrw1 Hgr) as (Hbound & a' & Hle' & Ha' & Hr').
  pose proof (read_applied _ _ _ _ _ _ _ _ Hle' Ha' Hr' Hc1 (Hbound _ _ Hc1)) as Hp.
  exists (applied_log a' i n'), k, e. split; [by eapply applied_ran|].
  apply lookup_lt_Some in Hk as Hlt. specialize (Hbound _ _ Hc1). split; [lia|].
  split; [by eapply prefix_lookup_Some|done].
Qed.

(** A scheduled reply that settles the write. *)
Lemma scheduled_ack w t from to w' n' :
  act sm0 w (AResponse t from to) = Some w' → w_nodes w' !! to = Some n' →
  Committed ch true ∈ n_effects n' → write_acked to w w'.
Proof.
  intros Hact Hn' Hc. simpl in Hact. destruct (last_response w from to) as [rs|] eqn:Hrs; simpl in Hact; [|done].
  apply last_filter_elem in Hrs as [[<- <-] Hin]. apply run_node_inv in Hact as (n & r & m & Hn & He & Hrun & Ew).
  rewrite Ew in Hn'. cbn [w_nodes after] in Hn'. rewrite lookup_insert_eq in Hn'. injection Hn' as ->.
  eapply write_acked_intro; [exact Hn| |by eapply step_run|exact Hc|exact Ew].
  by apply (deliver_response _ _ _ rs).
Qed.
End writes.

(** ** After a change of membership *)
Section after_removal.
#[local] Existing Instances numeric_json counter_sm counter_laws.

(** Node 4, which joined and leads nodes 2, 3 and 4, takes a write on channel
    100, and node 2 is about to acknowledge it. *)
Definition writing : list Action :=
  [ALocal (from_millis 1320) 4 (InPropose the_write 100); ARequest (from_millis 1321) 4 2].
Definition before_ack : World (SM := N) := default boot4 (acts 0 removed writing).
Definition after_ack : World (SM := N) :=
  default boot4 (act 0 before_ack (AResponse (from_millis 1322) 2 4)).

(** Then a read, on channel 500. *)
Definition reading : list Action := [ARequest (from_millis 1331) 4 2].
Definition asked_of_4 : World (SM := N) :=
  default boot4 (act 0 after_ack (ALocal (from_millis 1330) 4 (InRead 500))).
Definition confirmed_by_2 : World (SM := N) := default boot4 (acts 0 asked_of_4 reading).
Definition granted_by_4 : World (SM := N) :=
  default boot4 (act 0 confirmed_by_2 (AResponse (from_millis 1332) 2 4)).

Lemma writing_reachable : reachable_world 0 (write_client 100 the_write) cfg4 nodes4 fresh_storage before_ack.
Proof.
  destruct (removed_reachable (write_client 100 the_write)) as (w & Hw & Hr); [repeat constructor; discriminate|].
  exists w. split; [exact Hw|]. etrans; [exact Hr|].
  apply (acts_client 0 _ _ writing); [vm_compute; reflexivity|]. repeat constructor.
Qed.

Lemma write_acked_removed : write_acked 0 100 the_write 4 before_ack after_ack.
Proof.
  refine (scheduled_ack 0 100 the_write before_ack (from_millis 1322) 2 4 after_ack (node_of after_ack 4) _ _ _).
  - vm_compute. reflexivity.
  - vm_compute. reflexivity.
  - vm_compute. right. left.
Qed.

Lemma read_granted_after : read_granted 0 4 500 after_ack (node_of granted_by_4 4).
Proof.
  refine (scheduled_read 0 after_ack (from_millis 1330) 4 500 reading (from_millis 1332) 2
    asked_of_4 confirmed_by_2 granted_by_4 (node_of after_ack 4) _ _ _ _ _ _ _ _ _).
  1-4: vm_compute; reflexivity.
  - repeat constructor.
  - vm_compute. reflexivity.
  - vm_compute. reflexivity.
  - vm_compute. left.
Qed.

(** Node 4 leads, with the write in its log. *)
Example acknowledged_write_durable_witness :
  ∃ k e, e_command e = the_write ∧
    (∃ G, G !! k = Some e ∧ ∀ i n, w_nodes after_ack !! i = Some n → ran 0 G n) ∧
    N.of_nat k + 1 ≤ last_index (n_storage (node_of after_ack 4)).
Proof.
  assert (w_nodes after_ack !! 4 = Some (node_of after_ack 4)) as H4 by (vm_compute; reflexivity).
  destruct (acknowledged_write_durable 0 nodes4 ids3 cfg4 100 the_write 4 (node_of after_ack 4) before_ack after_ack
    cfg4_cluster writing_reachable write_acked_removed H4) as (k & e & He & Hlater).
  destruct (Hlater after_ack (rtc_refl _ _)) as ((G & HG & Hran & _) & Hlead).
  exists k, e. split; [exact He|]. split; [exists G; split; [exact HG|exact Hran]|].
  assert (∃ l, n_role (node_of after_ack 4) = Leader l) as [l Hl] by (eexists; vm_compute; reflexivity).
  exact (proj1 (Hlead 4 _ l H4 Hl (N.le_refl _))).
Defined.

Example read_after_write_witness :
  ∃ G k e, ran 0 G (node_of granted_by_4 4) ∧ N.of_nat k < n_last_applied (node_of granted_by_4 4) ∧
    G !! k = Some e ∧ e_command e = the_write.
Proof.
  exact (read_after_write 0 nodes4 ids3 cfg4 100 the_write 4 before_ack after_ack after_ack 4 500 (node_of granted_by_4 4)
    cfg4_cluster writing_reachable write_acked_removed (rtc_refl _ _) read_granted_after).
Defined.
End after_removal.
