(* ===== verification/History.v ===== *)
(** * Linearizable histories

    A run of a cluster with everything its clients see: which step took which
    proposal or read, which step acknowledged or granted it. [linearized]:
    one sequence of entries and, for every write that took effect, its
    position in it, which explain what every read returned and respect real
    time: nothing takes effect before something that had completed when it
    was asked for. [history_linearizable] shows that every run has one,
    through changes of membership, crashes, and deposed leaders. *)
From stdpp Require Import functions.
From S2P Require Import Prelude Types Rng Storage Node NodeSteps NodeLife NodeInv NodeThm Kv Elections Cluster Runs Raft LogRepr Refine Safety Serve Reads.
Open Scope N_scope.

(** ** Who wrote an entry *)
Section authors.
Context `{J : SerdeJson} (ids : gset N).
Implicit Types (a : Abs) (e : LogEntry).

(** The leader of its term has written [e]. *)
Definition present a e : Prop := ∃ c L, a_lead a !! e_term e = Some (c, L) ∧ e ∈ L.

Lemma present_mono a a' e : a_le a a' → present a e → present a' e.
Proof.
  intros Hle (c & L & HL & He). destruct (al_lead _ _ Hle _ _ _ HL) as (L' & ? & ?).
  exists c, L'. split; [done|by eapply elem_of_prefix].
Qed.

(** What was written in a step was written by its author. *)
Lemma step_authored {Au : Authored} i a a' e :
  a_inv ids a → a_step ids i a a' → present a' e → present a e ∨ authored e.
Proof.
  intros Ha Hstep. destruct Hstep as [| |a Q Hn HV|a L x HL Hx Htidy Hlaw Hau| | | |]; try by left.
  - intros (c & L & HL & He). simpl in HL. apply lookup_insert_Some in HL as [[Et [= <- <-]]|[_ HL]]; [|left; by exists c, L].
    pose proof (ai_vote_old _ _ Ha _ _ _ _ HV He). lia.
  - intros (c & L' & HL' & He). simpl in HL'. apply lookup_insert_Some in HL' as [[Et [= <- <-]]|[_ ?]]; [|left; by exists c, L'].
    apply elem_of_app in He as [He| ->%list_elem_of_singleton]; [left|by right].
    exists i, L. by rewrite <-Et.
Qed.
Lemma steps_authored {Au : Authored} a a' e :
  a_inv ids a → rtc (a_any ids) a a' → present a' e → present a e ∨ authored e.
Proof.
  intros Ha Hsteps. induction Hsteps as [|a1 a2 a3 [i Hstep] _ IH]; [by left|]. intros He.
  destruct IH as [?|?]; [by eapply a_step_inv|done|by eapply step_authored|by right].
Qed.

(** A committed log is part of a leader's. *)
Lemma committed_lead a t p : committed ids a t p → p = [] ∨ ∃ T c L, a_lead a !! T = Some (c, L) ∧ p `prefix_of` L.
Proof.
  intros [->|(T & X & p' & _ & Hp & (c & L & Q & x & HL & HX & Hp' & _) & _)]; [by left|right].
  exists T, c, L. split; [done|]. etrans; [exact Hp|]. by etrans.
Qed.
Lemma committed_shape a t p : a_inv ids a → committed ids a t p → matched a p ∧ tidy p.
Proof.
  intros Ha [->|(T & c & L & HL & Hp)]%committed_lead; [done|].
  split; [by eapply matched_prefix, ai_lead_matched|by eapply tidy_prefix, ai_lead_tidy].
Qed.
Lemma committed_present a t p k e : a_inv ids a → committed ids a t p → p !! k = Some e → present a e.
Proof.
  intros Ha [Hm _]%committed_shape Hk; [|done]. destruct (Hm _ _ Hk) as (c & L & HL & Hp). exists c, L. split; [done|].
  eapply elem_of_prefix; [|exact Hp]. apply (list_elem_of_lookup_2 _ k). by rewrite lookup_take_lt by lia.
Qed.
Lemma committed_index a t p k e : a_inv ids a → committed ids a t p → p !! k = Some e → e_index e = N.of_nat k + 1.
Proof. intros Ha [_ Ht]%committed_shape Hk; [|done]. rewrite (contiguous_lookup _ _ _ _ Ht Hk). lia. Qed.

(** An entry that was still to be written comes after all that was
    committed then. *)
Lemma written_after a a' i t t' p g k e :
  a_inv ids a → a_inv ids a' → a_le a a' → committed ids a t p → next_in a i e →
  committed ids a' t' g → g !! k = Some e → (length p ≤ k)%nat.
Proof.
  intros Ha Ha' Hle Hp (Et & L & HL & Ei) Hg Hk.
  destruct (decide (length p ≤ k)%nat) as [|Hlt]; [done|exfalso]. apply Nat.nle_gt in Hlt.
  assert (p !! k = Some e) as Hpk.
  { destruct (committed_total _ _ _ _ _ _ Ha' (committed_mono ids _ _ _ _ _ Hle (reflexivity _) Hp) Hg) as [Hpre|Hpre].
    - destruct (lookup_lt_is_Some_2 p k Hlt) as [x Hx]. pose proof (prefix_lookup_Some _ _ _ _ Hx Hpre). congruence.
    - by eapply prefix_lookup_Some. }
  destruct (committed_shape _ _ _ Ha Hp) as [Hm _]. destruct (Hm _ _ Hpk) as (c & L' & HL' & Hpre%prefix_length).
  rewrite Et, HL in HL'. injection HL' as _ <-. pose proof (committed_index _ _ _ _ _ Ha' Hg Hk).
  rewrite length_take in Hpre. lia.
Qed.

(** An entry is written once. *)
Lemma next_not_present a i e : a_inv ids a → next_in a i e → ¬ present a e.
Proof.
  intros Ha (Et & L & HL & Ei) (c & L' & HL' & (k & Hk)%list_elem_of_lookup). rewrite Et, HL in HL'. injection HL' as _ <-.
  pose proof (contiguous_lookup _ _ _ _ (ai_lead_tidy _ _ Ha _ _ _ HL) Hk). apply lookup_lt_Some in Hk. lia.
Qed.
Lemma next_unique a a' i e e' :
  a_inv ids a' → next_in a i e → next_in a i e' → present a' e → present a' e' → e = e'.
Proof.
  intros Ha' (Et & L & HL & Ei) (Et' & L2 & HL2 & Ei') (c & M & HM & (k & Hk)%list_elem_of_lookup)
    (c' & M' & HM' & (k' & Hk')%list_elem_of_lookup).
  rewrite HL in HL2. injection HL2 as <-. rewrite Et' in HM'. rewrite Et, HM' in HM. injection HM as _ <-.
  pose proof (contiguous_lookup _ _ _ _ (ai_lead_tidy _ _ Ha' _ _ _ HM') Hk).
  pose proof (contiguous_lookup _ _ _ _ (ai_lead_tidy _ _ Ha' _ _ _ HM') Hk').
  assert (k = k') as -> by lia. congruence.
Qed.
End authors.

(** ** Runs *)
Section history.
Context `{J : SerdeJson} {SM : Type} `{!StateMachine SM} {Laws : StateMachineLaws} (sm0 : SM).
Context (nodes ids : gset N) (cfg : NodeId → RaftConfig).
Implicit Types (w : World (SM := SM)) (n : RaftNode SM) (a : Abs) (e : LogEntry).
#[local] Abbreviation world_rel := (world_rel (nodes := nodes) sm0 ids cfg).
#[local] Abbreviation read_world i R := (read_world sm0 nodes ids cfg i R).

(** One step of a run: which node took which input, what it let out, and the
    node afterwards; [st_alive]: the iteration was completed. *)
Record Step := MkStep {
  st_node : NodeId;
  st_input : LoopInput;
  st_effects : list Effect;
  st_state : RaftNode SM;
  st_alive : bool;
}.
Implicit Types (tr : list Step) (st : Step).

(** Every call of a client makes a channel of its own for the answer. *)
Definition channel_of (inp : LoopInput) : option N :=
  match inp with InPropose _ ch | InRead ch => Some ch | _ => None end.
Definition new_channel tr (inp : LoopInput) : Prop :=
  ∀ ch st, channel_of inp = Some ch → st ∈ tr → channel_of (st_input st) ≠ Some ch.

(** [st] leads from [w] to [w']. *)
Definition takes w st w' : Prop := ∃ n out r,
  w_nodes w !! st_node st = Some n ∧ delivers any_client w (st_node st) (st_input st) out ∧
  node_step sm0 n (st_input st) r (st_effects st) (st_state st) ∧
  (st_alive st = true → ∃ t, enabled t (st_input st) n = true ∧
     loop_step t (st_input st) (set_effects [] n) = Some (r, st_state st) ∧
     st_effects st = n_effects (st_state st)) ∧
  w' = after w (st_node st) (st_state st) (st_effects st) (out r).

Inductive run : list Step → World (SM := SM) → Prop :=
| run_start w : w_init sm0 cfg nodes fresh_storage w → run [] w
| run_snoc tr w st w' : run tr w → takes w st w' → new_channel tr (st_input st) → run (tr ++ [st]) w'.

(** *** What clients see of a run *)

(** Step [s] takes a proposal; step [s] answers it with success. *)
Definition proposes tr (s : nat) (ch : N) (cmd : Command) : Prop :=
  ∃ st, tr !! s = Some st ∧ st_input st = InPropose cmd ch.
Definition acks tr (s : nat) (ch : N) : Prop :=
  ∃ st, tr !! s = Some st ∧ Committed ch true ∈ st_effects st.

(** Node [i] takes a read in step [s] and grants it in step [g]; its state
    machine is looked at as step [s'] has left it, the process being alive
    since. *)
Definition asks tr (s : nat) (i : NodeId) (ch : N) : Prop :=
  ∃ st, tr !! s = Some st ∧ st_node st = i ∧ st_input st = InRead ch.
Definition grants tr (g : nat) (i : NodeId) (ch : N) : Prop :=
  ∃ st, tr !! g = Some st ∧ st_node st = i ∧ st_alive st = true ∧ ReadGranted ch ∈ st_effects st.
Definition reads tr (ch : N) (s' : nat) n : Prop := ∃ g st,
  (g ≤ s')%nat ∧ grants tr g (st_node st) ch ∧ tr !! s' = Some st ∧ st_state st = n ∧
  ∀ k st', (g ≤ k ≤ s')%nat → tr !! k = Some st' → st_node st' = st_node st → st_alive st' = true.

(** [G] is the order in which everything took effect; [at_ s p]: the write
    proposed in step [s] is the entry at position [p]. *)
Record linearized tr (G : list LogEntry) (at_ : nat → nat → Prop) : Prop := {
  (** every position is taken by at most one write, and every write takes at
      most one *)
  lz_place s p : at_ s p → ∃ ch cmd e, proposes tr s ch cmd ∧ G !! p = Some e ∧ e_command e = cmd;
  lz_once s p p' : at_ s p → at_ s p' → p = p';
  lz_own s s' p : at_ s p → at_ s' p → s = s';
  (** nothing takes effect that was not proposed, and what is acknowledged
      does *)
  lz_complete p e : G !! p = Some e → e_command e ≠ Noop → ∃ s, at_ s p;
  lz_acked s s' ch cmd : proposes tr s ch cmd → acks tr s' ch → ∃ p, at_ s p;
  (** reads see a state in between *)
  lz_read ch s' n : reads tr ch s' n → ran sm0 G n;
  (** whatever completed before something else was asked for comes first *)
  lz_write_write s1 ch1 cmd1 s1' p1 s2 p2 :
    proposes tr s1 ch1 cmd1 → acks tr s1' ch1 → at_ s1 p1 → (s1' < s2)%nat → at_ s2 p2 → (p1 < p2)%nat;
  lz_write_read s1 ch1 cmd1 s1' p1 s2 i ch2 s2' n :
    proposes tr s1 ch1 cmd1 → acks tr s1' ch1 → at_ s1 p1 → (s1' < s2)%nat →
    asks tr s2 i ch2 → reads tr ch2 s2' n → N.of_nat p1 < n_last_applied n;
  lz_read_write ch1 s1' n s2 p2 :
    reads tr ch1 s1' n → (s1' < s2)%nat → at_ s2 p2 → n_last_applied n ≤ N.of_nat p2;
  lz_read_read ch1 s1' n1 s2 i ch2 s2' n2 :
    reads tr ch1 s1' n1 → (s1' < s2)%nat → asks tr s2 i ch2 → reads tr ch2 s2' n2 →
    n_last_applied n1 ≤ n_last_applied n2;
}.

(** *** The abstract states along a run *)
#[local] Abbreviation Point := (World (SM := SM) * Abs)%type.
Implicit Types (ys : list Point).

(** Reads pending on node [i] were asked of it. *)
Definition asked_by tr (i : NodeId) (_ : Term) (p : PendingRead) : Prop := ∃ s, asks tr s i (pr_granted p).

(** The entry that the proposal of step [s] on channel [ch] made. *)
Definition made tr ys (s : nat) (ch : N) e : Prop := ∃ st w a w' a',
  tr !! s = Some st ∧ st_input st = InPropose (e_command e) ch ∧
  ys !! s = Some (w, a) ∧ ys !! S s = Some (w', a') ∧ next_in a (st_node st) e ∧ present a' e.

Lemma made_prefix tr tr' ys ys' s ch e :
  tr `prefix_of` tr' → ys `prefix_of` ys' → made tr ys s ch e → made tr' ys' s ch e.
Proof.
  intros Htr Hys (st & w & a & w' & a' & ? & ? & ? & ? & ?). exists st, w, a, w', a'.
  split; [by eapply prefix_lookup_Some|]. split; [done|]. split; [by eapply prefix_lookup_Some|].
  split; [by eapply prefix_lookup_Some|done].
Qed.
Lemma asked_by_prefix tr tr' i t p : tr `prefix_of` tr' → asked_by tr i t p → asked_by tr' i t p.
Proof. intros Htr (s & st & ? & ?). exists s, st. split; [by eapply prefix_lookup_Some|done]. Qed.

(** Channels are followed by the entries made for them. *)
Definition followed tr ys : Tracked := λ ch, Some (λ e, ∃ s, made tr ys s ch e).

Record charted tr ys w a G : Prop := {
  ch_length : length ys = S (length tr);
  ch_last : last ys = Some (w, a);
  ch_points k x b : ys !! k = Some (x, b) → world_rel x b ∧ all_wf sm0 x ∧ ∀ i, read_world i (asked_by (take k tr) i) x;
  ch_steps k st x b x' b' : tr !! k = Some st → ys !! k = Some (x, b) → ys !! S k = Some (x', b') →
    takes x st x' ∧ rtc (a_any ids) b b';
  ch_pending : all_pendings (Ch := followed tr ys) w a;
  ch_made e : present a e → e_command e ≠ Noop → ∃ s ch, made tr ys s ch e;
  ch_committed : ∃ t, committed ids a t G;
  ch_acks s st x b ch : tr !! s = Some st → Committed ch true ∈ st_effects st → ys !! S s = Some (x, b) →
    ∃ t p k e s0, committed ids b t p ∧ p !! k = Some e ∧ G !! k = Some e ∧ made tr ys s0 ch e;
  ch_applied s st x b : tr !! s = Some st → ys !! S s = Some (x, b) →
    w_nodes x !! st_node st = Some (st_state st) ∧ applied_log b (st_node st) (st_state st) `prefix_of` G;
}.

Lemma a_any_anything {Au : Authored} a a' : rtc (a_any (Au := Au) ids) a a' → rtc (a_any (Au := anything) ids) a a'.
Proof.
  apply rtc_subrel. intros x y [i Hstep]. exists i. destruct Hstep; by econstructor.
Qed.

Lemma read_world_weaken i (R R' : Term → PendingRead → Prop) w :
  (∀ t p, R t p → R' t p) → read_world i R w → read_world i R' w.
Proof.
  intros HR [Hr Hn Ht]. split; [done| |done]. intros n Hi.
  eapply (serves_settle _ _ _ _ _ _ _ (set_effects [] n)); [by apply Hn|by left|done|]. intros l p _ _. apply HR.
Qed.

Lemma charted_start w :
  cluster_config nodes ids cfg → configs_ok (nodes := nodes) cfg → w_init sm0 cfg nodes fresh_storage w →
  charted [] [(w, a_init)] w a_init [].
Proof.
  intros Hcfg Hok Hinit. pose proof (init_rel _ _ _ _ Hcfg Hinit) as Hw. split; try done.
  - intros k x b [-> [= <- <-]]%list_lookup_singleton_Some. split; [done|]. split.
    + apply (reachable_wf sm0 ids cfg (client := any_client) w Hcfg Hok). by exists w.
    + intros i. destruct (init_read_world _ _ _ _ i _ Hcfg Hinit) as [Hr Hn Ht]. split; [done| |done].
      intros n Hi. eapply (serves_settle _ _ _ _ _ _ _ (set_effects [] n)); [by apply Hn|by left|done|].
      intros l p Hl _. destruct Hinit as (_ & Hspawn & _). destruct (Hspawn i n Hi) as [t0 Hsp].
      apply spawn_storage in Hsp as (_ & _ & Hf & _). nsimpl. congruence.
  - intros i n Hi p. destruct Hinit as (_ & Hspawn & _). destruct (Hspawn i n Hi) as [t0 Hsp].
    rewrite (spawn_pending _ _ _ _ _ Hsp). by intros ?%elem_of_nil.
  - by intros e (c & L & ? & _).
  - exists 0. by left.
Qed.

(** The logs that the acknowledgements of a step speak of. *)
Lemma collect_acks {Ch : Tracked} a i es :
  sends_ok sm0 ids a i es →
  ∃ ps : list (list LogEntry), (∀ p, p ∈ ps → ∃ t, committed ids a t p) ∧
    ∀ ch P, Committed ch true ∈ es → tracked ch = Some P →
      ∃ t p k e, p ∈ ps ∧ committed ids a t p ∧ p !! k = Some e ∧ P e.
Proof.
  induction es as [|x es IH]; intros Hs.
  { exists []. split; [by intros p ?%elem_of_nil|]. by intros ch P ?%elem_of_nil. }
  destruct IH as (ps & Hps & Hall); [intros e He; apply Hs; by right|].
  assert ((∃ ch P, x = Committed ch true ∧ tracked ch = Some P) ∨ ¬ ∃ ch P, x = Committed ch true ∧ tracked ch = Some P) as [(ch & P & -> & HP)|Hno].
  { destruct x as [| | | |ch []| | | | |]; try (right; naive_solver).
    destruct (tracked ch) as [P|] eqn:HP; [left; eauto|right; naive_solver]. }
  - destruct (Hs (Committed ch true) ltac:(left) P HP) as (t & p & k & e & Hc & Hk & He & _).
    exists (p :: ps). split; [intros q [->|?]%elem_of_cons; [by exists t|by apply Hps]|].
    intros ch' P' [[= ->]|Hin]%elem_of_cons HP'.
    + rewrite HP in HP'. injection HP' as <-. exists t, p, k, e. split; [left|done].
    + destruct (Hall _ _ Hin HP') as (t' & p' & k' & e' & ? & ?). exists t', p', k', e'. split; [by right|done].
  - exists ps. split; [done|]. intros ch P [<-|Hin]%elem_of_cons HP; [exfalso; eauto|by eapply Hall].
Qed.

Lemma takes_step w st w' : takes w st w' → w_step sm0 any_client w w'.
Proof. intros (n & out & r & Hi & Hdel & Hstep & _ & ->). by eapply world_step. Qed.

(** What a step may write, and what its channel stands for. *)
Definition step_author a st : Authored := λ e,
  e_command e = Noop ∨ next_in a (st_node st) e ∧ ∃ ch, st_input st = InPropose (e_command e) ch.
Definition step_follow tr ys a st : Tracked := λ ch, Some (λ e,
  (∃ s, made tr ys s ch e) ∨ next_in a (st_node st) e ∧ st_input st = InPropose (e_command e) ch).

Lemma step_input tr ys a st :
  tracked_input (Ch := step_follow tr ys a st) (Au := step_author a st) a (st_node st) (st_input st).
Proof.
  split; [by left|]. destruct (st_input st) as [cmd ch| | | | |] eqn:Hin; try done.
  intros e <- Hn. split; [right; split; [done|by exists ch]|]. intros P [= <-]. by right.
Qed.

Section extend.
Context (tr : list Step) (ys : list Point) (w : World (SM := SM)) (a : Abs) (G : list LogEntry).
Context (st : Step) (w' : World (SM := SM)) (a' : Abs).
Context (Hcfg : cluster_config nodes ids cfg) (Hok : configs_ok (nodes := nodes) cfg).
Context (Hch : charted tr ys w a G) (Htk : takes w st w').
Let tr' := tr ++ [st].
Let ys' := ys ++ [(w', a')].

Lemma extend_now : ys' !! length tr = Some (w, a) ∧ ys' !! S (length tr) = Some (w', a').
Proof.
  pose proof (ch_length _ _ _ _ _ Hch) as Hl. pose proof (ch_last _ _ _ _ _ Hch) as Ha.
  rewrite last_lookup, Hl in Ha. unfold ys'. split.
  - rewrite lookup_app_l by lia. done.
  - rewrite <-Hl. by apply list_lookup_middle.
Qed.

(** What was written in this step was made by it. *)
Lemma extend_made ch e :
  next_in a (st_node st) e → st_input st = InPropose (e_command e) ch → present a' e → made tr' ys' (length tr) ch e.
Proof.
  intros Hn Hin Hp. destruct extend_now. exists st, w, a, w', a'. unfold tr'.
  split; [by apply list_lookup_middle|]. done.
Qed.
Lemma extend_old s ch e : made tr ys s ch e → made tr' ys' s ch e.
Proof. apply made_prefix; by apply prefix_app_r. Qed.

Lemma extend_points k x b :
  world_rel w' a' → ys' !! k = Some (x, b) →
  world_rel x b ∧ all_wf sm0 x ∧ ∀ i, read_world i (asked_by (take k tr') i) x.
Proof.
  intros Hw' Hk. pose proof (ch_length _ _ _ _ _ Hch) as Hl. unfold ys' in Hk.
  destruct extend_now as [Hnow _]. unfold ys' in Hnow. rewrite lookup_app_l in Hnow by lia.
  destruct (ch_points _ _ _ _ _ Hch _ _ _ Hnow) as (Hw & Hwf & Hrw).
  apply lookup_app_Some in Hk as [Hk|[Hge [_ [= <- <-]]%list_lookup_singleton_Some]].
  { apply lookup_lt_Some in Hk as Hlt. unfold tr'. rewrite take_app_le by lia. by apply (ch_points _ _ _ _ _ Hch). }
  split; [done|]. split; [eapply step_all_wf; [done|done|exact Hw|done|by eapply takes_step]|]. intros i.
  apply (read_world_weaken i (asked_by tr' i)).
  { intros t p. rewrite take_ge; [done|]. unfold tr'. rewrite length_app. simpl. lia. }
  destruct Htk as (n & out & r & Hi & Hdel & Hstep & _ & ->).
  eapply read_step; [done| |done|done|done|].
  - eapply read_world_weaken; [|apply Hrw]. intros t p. rewrite take_ge by lia. apply asked_by_prefix. by apply prefix_app_r.
  - intros ch l <- Hin _. exists (length tr), st. unfold tr'. split; [by apply list_lookup_middle|done].
Qed.
End extend.

Lemma snoc_lookup_cases {A} (l : list A) x k y :
  (l ++ [x]) !! k = Some y → l !! k = Some y ∧ (k < length l)%nat ∨ k = length l ∧ y = x.
Proof. intros [[? ?]|[-> <-]]%lookup_snoc_Some; [by left|by right]. Qed.

Lemma charted_step tr ys w a G st w' :
  cluster_config nodes ids cfg → configs_ok (nodes := nodes) cfg → charted tr ys w a G → takes w st w' →
  ∃ a' G', charted (tr ++ [st]) (ys ++ [(w', a')]) w' a' G'.
Proof.
  intros Hcfg Hok Hch Htk. pose proof (ch_length _ _ _ _ _ Hch) as Hl.
  destruct (extend_now tr ys w a G w' a Hch) as [Hnow _]. rewrite lookup_app_l in Hnow by lia.
  destruct (ch_points _ _ _ _ _ Hch _ _ _ Hnow) as (Hw & _ & _). pose proof (wr_inv _ _ _ _ _ Hw) as Ha.
  assert (all_pendings (Ch := step_follow tr ys a st) w a) as Hpend.
  { intros j m Hm p Hp P [= <-]. destruct (ch_pending _ _ _ _ _ Hch j m Hm p Hp _ eq_refl) as (? & L & e & ? & ? & ? & ?).
    split; [done|]. exists L, e. do 3 (split; [done|]). by left. }
  pose proof Htk as (n & out & r & Hi & Hdel & Hstep & _ & Ew).
  destruct (step_tracked (Ch := step_follow tr ys a st) (Au := step_author a st) sm0 ids cfg w a _ n _ out r _ _
    Hcfg Hw Hpend Hi Hdel (step_input tr ys a st) Hstep) as (a' & Hst & Hw' & Hpend' & Hsends). rewrite <-Ew in Hw', Hpend'.
  pose proof (wr_inv _ _ _ _ _ Hw') as Ha'. pose proof (a_any_le _ _ _ Hst) as Hle.
  assert (w_nodes w' !! st_node st = Some (st_state st)) as Hi' by (rewrite Ew; apply lookup_insert_eq).
  pose proof (wr_nodes _ _ _ _ _ Hw' _ _ Hi') as Hr'.
  destruct (collect_acks (Ch := step_follow tr ys a st) _ _ _ Hsends) as (ps & Hps & Hacks).
  destruct (ch_committed _ _ _ _ _ Hch) as [t HG].
  destruct (committed_sup ids a' (G :: applied_log a' (st_node st) (st_state st) :: ps)) as (G' & HG' & Hsup); [done| |].
  { intros p [->|[->|?]%elem_of_cons]%elem_of_cons; [|eexists; by eapply applied_committed|by apply Hps].
    exists t. by eapply committed_mono. }
  assert (G `prefix_of` G') as HGG by (apply Hsup; left).
  assert (∀ ch e, (∃ s, made tr ys s ch e) ∨ next_in a (st_node st) e ∧ st_input st = InPropose (e_command e) ch →
    present a' e → ∃ s, made (tr ++ [st]) (ys ++ [(w', a')]) s ch e) as Hmade.
  { intros ch e [[s Hs]|[Hn Hin]] Hp; [exists s; by apply extend_old|exists (length tr); by apply (extend_made tr ys w a G st w' a' Hch)]. }
  exists a', G'. split.
  - rewrite !length_app. simpl. lia.
  - by rewrite last_snoc.
  - intros. by eapply (extend_points tr ys w a G).
  - intros k st0 x b x' b' [[Hk Hlt]|[-> ->]]%snoc_lookup_cases Hx Hx'.
    + rewrite lookup_app_l in Hx, Hx' by lia. by eapply (ch_steps _ _ _ _ _ Hch).
    + rewrite lookup_app_l, Hnow in Hx by lia. injection Hx as <- <-.
      rewrite <-Hl, list_lookup_middle in Hx' by done. injection Hx' as <- <-. split; [done|exact (a_any_anything _ _ Hst)].
  - intros j m Hm p Hp P [= <-]. destruct (Hpend' j m Hm p Hp _ eq_refl) as (? & L & e & HL & He & Et & HP).
    split; [done|]. exists L, e. do 3 (split; [done|]). apply Hmade; [done|]. exists j, L. rewrite Et.
    split; [done|by eapply list_elem_of_lookup_2].
  - intros e Hp Hne. destruct (steps_authored ids a a' e Ha Hst Hp) as [Hold|[?|[Hn [ch Hin]]]]; [|done|].
    + destruct (ch_made _ _ _ _ _ Hch e Hold Hne) as (s & ch & ?). exists s, ch. by apply extend_old.
    + destruct (Hmade ch e) as [s ?]; [by right|done|]. by exists s, ch.
  - done.
  - intros s st0 x b ch [[Hk Hlt]|[-> ->]]%snoc_lookup_cases Hin Hx.
    + rewrite lookup_app_l in Hx by lia. destruct (ch_acks _ _ _ _ _ Hch _ _ _ _ _ Hk Hin Hx) as (t0 & p & k & e & s0 & ? & ? & ? & ?).
      exists t0, p, k, e, s0. do 2 (split; [done|]). split; [by eapply prefix_lookup_Some|by apply extend_old].
    + rewrite <-Hl, list_lookup_middle in Hx by done. injection Hx as <- <-.
      destruct (Hacks ch _ Hin eq_refl) as (t0 & p & k & e & Hp & Hc & Hk & HP).
      destruct (Hmade ch e HP) as [s0 ?]; [by eapply committed_present|]. exists t0, p, k, e, s0.
      do 2 (split; [done|]). split; [|done]. eapply prefix_lookup_Some; [exact Hk|]. apply Hsup. by do 2 right.
  - intros s st0 x b [[Hk Hlt]|[-> ->]]%snoc_lookup_cases Hx.
    + rewrite lookup_app_l in Hx by lia. destruct (ch_applied _ _ _ _ _ Hch _ _ _ _ Hk Hx). split; [done|by etrans].
    + rewrite <-Hl, list_lookup_middle in Hx by done. injection Hx as <- <-. split; [done|]. apply Hsup. right. left.
Qed.

Lemma run_charted tr w :
  cluster_config nodes ids cfg → configs_ok (nodes := nodes) cfg → run tr w →
  ∃ ys a G, charted tr ys w a G.
Proof.
  intros Hcfg Hok. induction 1 as [w Hinit|tr w st w' _ (ys & a & G & Hch) Htk _].
  - eexists _, _, _. by apply charted_start.
  - destruct (charted_step _ _ _ _ _ _ _ Hcfg Hok Hch Htk) as (a' & G' & ?). by eexists _, _, _.
Qed.

(** Two steps do not use the same channel. *)
Lemma channel_once tr w s1 s2 st1 st2 ch :
  run tr w → tr !! s1 = Some st1 → tr !! s2 = Some st2 →
  channel_of (st_input st1) = Some ch → channel_of (st_input st2) = Some ch → s1 = s2.
Proof.
  intros Hrun. revert s1 s2 st1 st2. induction Hrun as [|tr w st w' _ IH _ Hnew]; intros s1 s2 st1 st2; [done|].
  intros [[H1 ?]|[-> ->]]%snoc_lookup_cases [[H2 ?]|[-> ->]]%snoc_lookup_cases C1 C2.
  - by eapply IH.
  - by destruct (Hnew ch st1 C2 (list_elem_of_lookup_2 _ _ _ H1)).
  - by destruct (Hnew ch st2 C1 (list_elem_of_lookup_2 _ _ _ H2)).
  - done.
Qed.

(** *** The run explained by its abstract states *)
Section explained.
Context (tr : list Step) (ys : list Point) (w : World (SM := SM)) (a : Abs) (G : list LogEntry).
Context (Hcfg : cluster_config nodes ids cfg) (Hrun : run tr w) (Hch : charted tr ys w a G).

Lemma point_at k : (k ≤ length tr)%nat → ∃ x b, ys !! k = Some (x, b).
Proof.
  intros Hk. destruct (lookup_lt_is_Some_2 ys k) as [[x b] ?]; [|by exists x, b].
  rewrite (ch_length _ _ _ _ _ Hch). lia.
Qed.
Lemma point_end : ys !! length tr = Some (w, a).
Proof. pose proof (ch_last _ _ _ _ _ Hch) as Hl. by rewrite last_lookup, (ch_length _ _ _ _ _ Hch) in Hl. Qed.
Lemma point_bound k x b : ys !! k = Some (x, b) → (k ≤ length tr)%nat.
Proof. intros Hk%lookup_lt_Some. rewrite (ch_length _ _ _ _ _ Hch) in Hk. lia. Qed.

(** Anything that holds between two points because it holds of each step
    between them. *)
Lemma points_between (R : Point → Point → Prop) k k' y y' :
  PreOrder R → ys !! k = Some y → ys !! k' = Some y' → (k ≤ k')%nat →
  (∀ j st z z', (k ≤ j < k')%nat → tr !! j = Some st → ys !! j = Some z → ys !! S j = Some z' → R z z') → R y y'.
Proof.
  intros HR Hk Hk' Hle Hall. revert y' Hk'. induction Hle as [|k' Hle IH]; intros y' Hk'.
  { rewrite Hk in Hk'. by injection Hk' as <-. }
  destruct y' as [x' b']. pose proof (point_bound _ _ _ Hk') as Hlt.
  destruct (point_at k') as (x & b & Hy); [lia|]. destruct (lookup_lt_is_Some_2 tr k') as [st Hst]; [lia|].
  etrans; [eapply IH; [|exact Hy]|apply (Hall k' st _ _ ltac:(lia)); done]. intros j st' z z' Hj. apply Hall. lia.
Qed.

Lemma points_le k k' x b x' b' :
  ys !! k = Some (x, b) → ys !! k' = Some (x', b') → (k ≤ k')%nat → a_le b b'.
Proof.
  intros Hk Hk' Hle.
  assert (rtc (a_any ids) (x, b).2 (x', b').2) as Hs; [|by eapply a_any_le].
  eapply (points_between (λ y y', rtc (a_any ids) y.2 y'.2)); [|done..|].
  - split; [intros ?; reflexivity|intros y1 y2 y3 H12 H23; by etrans].
  - intros j st [z c] [z' c'] _ Hj Hz Hz'. by eapply (ch_steps _ _ _ _ _ Hch).
Qed.
Lemma point_inv k x b : ys !! k = Some (x, b) → a_inv ids b.
Proof. intros Hk. destruct (ch_points _ _ _ _ _ Hch _ _ _ Hk) as (Hw & _). apply Hw. Qed.
Lemma end_inv : a_inv ids a.
Proof. exact (point_inv _ _ _ point_end). Qed.

(** **** Writes *)
Definition placed (s p : nat) : Prop := ∃ ch e, made tr ys s ch e ∧ G !! p = Some e.

Lemma made_input s ch e : made tr ys s ch e → proposes tr s ch (e_command e).
Proof. intros (st & ? & ? & ? & ? & Hst & Hin & _). by exists st. Qed.
Lemma made_end s ch e : made tr ys s ch e → present a e.
Proof.
  intros (st & x & b & x' & b' & _ & _ & _ & Hk & _ & Hp). eapply present_mono; [|exact Hp].
  eapply points_le; [exact Hk|exact point_end|]. by eapply point_bound.
Qed.
Lemma made_unique s ch e ch' e' : made tr ys s ch e → made tr ys s ch' e' → e = e'.
Proof.
  intros Hm Hm'. pose proof (made_end _ _ _ Hm). pose proof (made_end _ _ _ Hm').
  destruct Hm as (st & x & b & _ & _ & Hst & _ & Hb & _ & Hn & _), Hm' as (st' & x' & b' & _ & _ & Hst' & _ & Hb' & _ & Hn' & _).
  simplify_eq. by eapply next_unique; [exact end_inv|..].
Qed.
Lemma placed_index s p p' : placed s p → placed s p' → p = p'.
Proof.
  intros (ch & e & Hm & Hp) (ch' & e' & Hm' & Hp'). destruct (made_unique _ _ _ _ _ Hm Hm').
  destruct (ch_committed _ _ _ _ _ Hch) as [t HG].
  pose proof (committed_index _ _ _ _ _ _ end_inv HG Hp). pose proof (committed_index _ _ _ _ _ _ end_inv HG Hp'). lia.
Qed.
Lemma made_before s s' ch ch' e : made tr ys s ch e → made tr ys s' ch' e → ¬ (s < s')%nat.
Proof.
  intros (st & x & b & x1 & b1 & _ & _ & _ & Hb1 & _ & Hp) (st' & x' & b' & _ & _ & _ & _ & Hb' & _ & Hn & _) Hlt.
  destruct (next_not_present _ _ _ _ (point_inv _ _ _ Hb') Hn). eapply present_mono; [|exact Hp]. by eapply points_le.
Qed.

(** Where an acknowledged write was when it was acknowledged. *)
Lemma acked_at s s' ch cmd :
  proposes tr s ch cmd → acks tr s' ch →
  ∃ x b t p k, ys !! S s' = Some (x, b) ∧ committed ids b t p ∧ (k < length p)%nat ∧ placed s k.
Proof.
  intros (st & Hst & Hin) (st' & Hst' & He). pose proof (lookup_lt_Some _ _ _ Hst') as Hlt.
  destruct (point_at (S s')) as (x & b & Hb); [lia|].
  destruct (ch_acks _ _ _ _ _ Hch _ _ _ _ _ Hst' He Hb) as (t & p & k & e & s0 & Hc & Hk & HG & Hm).
  exists x, b, t, p, k. do 2 (split; [done|]). split; [by eapply lookup_lt_Some|]. exists ch, e. split; [|done].
  destruct (made_input _ _ _ Hm) as (st0 & Hst0 & Hin0).
  by rewrite (channel_once tr w s s0 st st0 ch Hrun Hst Hst0) by (by rewrite ?Hin, ?Hin0).
Qed.

(** What is proposed later comes after everything committed. *)
Lemma placed_after k x b t p s q :
  ys !! k = Some (x, b) → committed ids b t p → (k ≤ s)%nat → placed s q → (length p ≤ q)%nat.
Proof.
  intros Hk Hc Hle (ch & e & Hm & HG). destruct (ch_committed _ _ _ _ _ Hch) as [t' HC].
  destruct Hm as (st & x' & b' & _ & _ & _ & _ & Hb' & _ & Hn & _).
  eapply (written_after ids b' a); [by eapply point_inv|exact end_inv| | |exact Hn|exact HC|exact HG].
  - eapply points_le; [exact Hb'|exact point_end|by eapply point_bound].
  - eapply (committed_mono ids b); [by eapply points_le|reflexivity|exact Hc].
Qed.

(** **** Reads *)

(** What a node has applied after a step. *)
Lemma applied_at s st :
  tr !! s = Some st → ∃ x b, ys !! S s = Some (x, b) ∧ ran sm0 G (st_state st) ∧
    committed ids b (cur_term (st_state st)) (applied_log b (st_node st) (st_state st)) ∧
    N.of_nat (length (applied_log b (st_node st) (st_state st))) = n_last_applied (st_state st).
Proof.
  intros Hst. pose proof (lookup_lt_Some _ _ _ Hst) as Hlt. destruct (point_at (S s)) as (x & b & Hb); [lia|].
  destruct (ch_applied _ _ _ _ _ Hch _ _ _ _ Hst Hb) as [Hn Hpre].
  destruct (ch_points _ _ _ _ _ Hch _ _ _ Hb) as (Hw & _). pose proof (wr_nodes _ _ _ _ _ Hw _ _ Hn) as Hr.
  exists x, b. split; [done|]. split; [by eapply applied_ran|]. split; [by eapply applied_committed|].
  pose proof (nr_applied _ _ _ _ _ Hr). pose proof (nr_commit _ _ _ _ _ Hr). unfold applied_log, g_len in *.
  rewrite length_take. lia.
Qed.

(** A node that stays alive does not lose what it has applied. *)
Definition applies_on (i : NodeId) (y y' : Point) : Prop :=
  ∀ n, w_nodes y.1 !! i = Some n → ∃ n', w_nodes y'.1 !! i = Some n' ∧ n_last_applied n ≤ n_last_applied n'.
Lemma alive_applies s s' st st' :
  tr !! s = Some st → tr !! s' = Some st' → st_node st = st_node st' → (s ≤ s')%nat →
  (∀ k st0, (s ≤ k ≤ s')%nat → tr !! k = Some st0 → st_node st0 = st_node st' → st_alive st0 = true) →
  n_last_applied (st_state st) ≤ n_last_applied (st_state st').
Proof.
  intros Hst Hst' En Hle Halive. pose proof (lookup_lt_Some _ _ _ Hst'). pose proof (lookup_lt_Some _ _ _ Hst).
  destruct (point_at (S s)) as (x & b & Hb); [lia|]. destruct (point_at (S s')) as (x' & b' & Hb'); [lia|].
  destruct (ch_applied _ _ _ _ _ Hch _ _ _ _ Hst Hb) as [Hn _], (ch_applied _ _ _ _ _ Hch _ _ _ _ Hst' Hb') as [Hn' _].
  assert (applies_on (st_node st') (x, b) (x', b')) as Happ.
  { eapply points_between; [|exact Hb|exact Hb'|lia|].
    - split; [intros y n ?; by exists n|]. intros y1 y2 y3 H12 H23 n Hy1.
      destruct (H12 _ Hy1) as (n2 & Hy2 & ?), (H23 _ Hy2) as (n3 & ? & ?). exists n3. split; [done|lia].
    - intros k st0 [z c] [z' c'] Hk Hst0 Hz Hz' n Hzn. simpl in *.
      destruct (ch_steps _ _ _ _ _ Hch _ _ _ _ _ _ Hst0 Hz Hz') as ((m & out & r & Hm & _ & _ & Hal & Ez') & _).
      destruct (decide (st_node st0 = st_node st')) as [E|Hne].
      2: { exists n. split; [|done]. rewrite Ez'. cbn [w_nodes after]. by rewrite lookup_insert_ne. }
      rewrite E, Hzn in Hm. injection Hm as <-. destruct Hal as (t & _ & Hrun' & _); [eapply Halive; [|done..]; lia|].
      assert (w_nodes z' !! st_node st' = Some (st_state st0)) as Hz'n by (rewrite Ez', E; apply lookup_insert_eq).
      exists (st_state st0). split; [done|].
      destruct (ch_points _ _ _ _ _ Hch _ _ _ Hz) as (_ & Hwf & _), (ch_points _ _ _ _ _ Hch _ _ _ Hz') as (_ & Hwf' & _).
      rewrite (wf_applied _ _ (Hwf _ _ Hzn)), (wf_applied _ _ (Hwf' _ _ Hz'n)).
      pose proof (loop_step_evolves t (st_input st0) (set_effects [] n)) as Hev. unfold wpp in Hev. rewrite Hrun' in Hev.
      exact (ev_commit _ _ Hev). }
  destruct (Happ (st_state st)) as (n' & Hx' & ?); [by rewrite <-En|]. simpl in Hx'. rewrite Hn' in Hx'. by injection Hx' as <-.
Qed.

(** A granted read was asked of the node that grants it. *)
Lemma granted_asked g i ch : grants tr g i ch → ∃ s, (s ≤ g)%nat ∧ asks tr s i ch.
Proof.
  intros (st & Hst & Ei & Hal & Hg). pose proof (lookup_lt_Some _ _ _ Hst) as Hlt.
  destruct (point_at g) as (x & b & Hb); [lia|]. destruct (point_at (S g)) as (x' & b' & Hb'); [lia|].
  destruct (ch_points _ _ _ _ _ Hch _ _ _ Hb) as (_ & _ & Hrw).
  destruct (ch_steps _ _ _ _ _ Hch _ _ _ _ _ _ Hst Hb Hb') as ((n & out & r & Hn & Hdel & _ & Hloop & _) & _).
  destruct (Hloop Hal) as (t & _ & Hrun' & Ees). rewrite Ei in Hn, Hdel.
  destruct (run_serves sm0 nodes ids cfg i (asked_by (take (S g) tr) i) x n t (st_input st) out r (st_state st)) as [Hs _];
    [|done..| |].
  - eapply read_world_weaken; [|apply Hrw]. intros t' p. apply asked_by_prefix, take_prefix_le. lia.
  - intros c l Hin _. exists g, st. split; [by rewrite lookup_take_lt by lia|done].
  - rewrite Ees in Hg. destruct (sv_granted _ _ _ _ _ Hs _ Hg) as (p & _ & (s & st0 & Hs0 & Hasks) & Ep & _).
    apply lookup_take_Some in Hs0 as [Hs0 ?]. exists s. split; [lia|]. exists st0. by rewrite <-Ep.
Qed.

Lemma asks_once s s' i j ch : asks tr s i ch → asks tr s' j ch → s = s' ∧ i = j.
Proof.
  intros (st & Hst & <- & Hin) (st' & Hst' & <- & Hin').
  assert (s = s') as -> by (eapply (channel_once tr w s s' st st' ch); [done..|by rewrite Hin|by rewrite Hin']).
  split; [done|congruence].
Qed.

Lemma delivers_other ch (x : World (SM := SM)) j inp out : delivers any_client x j inp out → inp ≠ InRead ch → delivers (other_reads ch) x j inp out.
Proof.
  destruct 1 as [inp Hc|rq Hin Hto|rs Hin Hto|rq err Hin Hfrom]; intros Hne; [|by constructor..].
  apply deliver_local. by destruct inp.
Qed.

(** No read uses the channel before it is asked for. *)
Lemma asks_unread s i ch x b n :
  asks tr s i ch → ys !! s = Some (x, b) → w_nodes x !! i = Some n → unread ch n.
Proof.
  intros Hask Hb Hn l p Hl Hp Ech. destruct (ch_points _ _ _ _ _ Hch _ _ _ Hb) as (_ & _ & Hrw).
  pose proof (sv_role _ _ _ _ _ (rw_node _ _ _ _ _ _ _ (Hrw i) _ Hn)) as Hrole. nsimpl. rewrite Hl in Hrole.
  destruct Hrole as (_ & _ & Hps). destruct (Hps _ Hp) as (s0 & st0 & Hs0 & Hst0). rewrite Ech in Hst0.
  apply lookup_take_Some in Hs0 as [Hs0 Hlt]. destruct (asks_once s0 s i i ch) as [-> _]; [by exists st0|done|lia].
Qed.

(** From the request to the grant. *)
Lemma grants_read s g i ch x b st :
  asks tr s i ch → grants tr g i ch → ys !! s = Some (x, b) → tr !! g = Some st → read_granted sm0 i ch x (st_state st).
Proof.
  intros Hask Hgr Hb Hst. destruct (granted_asked _ _ _ Hgr) as (s0 & Hle & Hask0).
  destruct (asks_once _ _ _ _ _ Hask Hask0) as [<- _]. clear Hask0.
  destruct Hgr as (st' & Hst' & Ei & Hal & Hg). rewrite Hst in Hst'. injection Hst' as <-.
  pose proof (lookup_lt_Some _ _ _ Hst) as Hlt.
  destruct (point_at g) as (y & c & Hc); [lia|]. destruct (point_at (S g)) as (y' & c' & Hc'); [lia|].
  destruct (ch_steps _ _ _ _ _ Hch _ _ _ _ _ _ Hst Hc Hc') as ((n & out & r & Hn & Hdel & _ & Hloop & _) & _).
  destruct (Hloop Hal) as (t & Hen & Hrun' & Ees). rewrite Ei in Hn, Hdel. rewrite Ees in Hg.
  pose proof Hask as (st1 & Hst1 & Ei1 & Hin1).
  destruct (decide (s = g)) as [->|Hne].
  { rewrite Hst in Hst1. injection Hst1 as <-. rewrite Hb in Hc. injection Hc as <- <-. rewrite Hin1 in Hen, Hrun'.
    by eapply granted_now; [done|by eapply asks_unread|..]. }
  destruct (point_at (S s)) as (x' & b' & Hb'); [lia|].
  destruct (ch_steps _ _ _ _ _ Hch _ _ _ _ _ _ Hst1 Hb Hb') as ((n1 & out1 & r1 & Hn1 & Hdel1 & Hstep1 & _ & Ex') & _).
  rewrite Ei1 in Hn1, Hdel1, Ex'. rewrite Hin1 in Hdel1, Hstep1.
  assert (out1 r1 = []) as Eout by (inversion Hdel1; by subst). rewrite Eout in Ex'.
  assert (∀ k st0, (s < k)%nat → tr !! k = Some st0 → st_input st0 ≠ InRead ch) as Hother.
  { intros k st0 Hlt0 Hk Hin. pose proof (channel_once tr w s k st1 st0 ch Hrun Hst1 Hk). rewrite Hin1, Hin in H. simpl in H. naive_solver lia. }
  eapply (granted_later _ _ ch x _ n1 r1 _ _ y n t (st_input st) out r);
    [done|by eapply asks_unread|exact Hstep1| |done|eapply delivers_other; [done|eapply Hother; [|done]; lia]|done..].
  rewrite <-Ex'. change (rtc (w_step sm0 (other_reads ch)) (x', b').1 (y, c).1).
  eapply (points_between (λ y y', rtc (w_step sm0 (other_reads ch)) y.1 y'.1)); [|exact Hb'|exact Hc|lia|].
  - split; [intros ?; reflexivity|intros y1 y2 y3 H12 H23; by etrans].
  - intros k st0 [z d] [z' d'] Hk Hst0 Hz Hz'.
    destruct (ch_steps _ _ _ _ _ Hch _ _ _ _ _ _ Hst0 Hz Hz') as ((m & o & q & Hm & Hd & Hs & _ & ->) & _).
    apply rtc_once. eapply world_step; [exact Hm| |exact Hs]. eapply delivers_other; [done|]. eapply Hother; [|done]. lia.
Qed.

(** A read sees what was committed when it was asked for. *)
Lemma reads_bound s i ch s' n x b t p :
  asks tr s i ch → reads tr ch s' n → ys !! s = Some (x, b) → committed ids b t p → N.of_nat (length p) ≤ n_last_applied n.
Proof.
  intros Hask (g & st & Hle & Hgr & Hst & <- & Halive) Hb Hc.
  destruct (granted_asked _ _ _ Hgr) as (s0 & _ & Hask0). destruct (asks_once _ _ _ _ _ Hask Hask0) as [_ ->].
  pose proof Hgr as (st1 & Hst1 & Ei & _). destruct (ch_points _ _ _ _ _ Hch _ _ _ Hb) as (Hw & _ & Hrw).
  assert (read_world (st_node st) (λ _ _, True) x) as Hrw' by (eapply read_world_weaken; [|apply Hrw]; done).
  destruct (read_granted_bound sm0 nodes ids cfg (st_node st) ch x b _ Hcfg Hw Hrw' (grants_read _ _ _ _ _ _ _ Hask Hgr Hb Hst1))
    as [Hbound _].
  etrans; [by eapply Hbound|]. by eapply alive_applies.
Qed.

Lemma charted_linearized : linearized tr G placed.
Proof.
  split.
  - intros s p (ch & e & Hm & Hp). exists ch, (e_command e), e. split; [by apply made_input|done].
  - exact placed_index.
  - intros s s' p (ch & e & Hm & Hp) (ch' & e' & Hm' & Hp'). rewrite Hp in Hp'. injection Hp' as <-.
    pose proof (made_before _ _ _ _ _ Hm Hm'). pose proof (made_before _ _ _ _ _ Hm' Hm). lia.
  - intros p e Hp Hne. destruct (ch_committed _ _ _ _ _ Hch) as [t HG].
    destruct (ch_made _ _ _ _ _ Hch e (committed_present _ _ _ _ _ _ end_inv HG Hp) Hne) as (s & ch & Hm). by exists s, ch, e.
  - intros s s' ch cmd Hs Hs'. destruct (acked_at _ _ _ _ Hs Hs') as (x & b & t & p & k & _ & _ & _ & ?). by exists k.
  - intros ch s' n (g & st & _ & _ & Hst & <- & _). by destruct (applied_at _ _ Hst) as (x & b & _ & ? & _).
  - intros s1 ch1 cmd1 s1' p1 s2 p2 Hs Hs' Hp1 Hlt Hp2. destruct (acked_at _ _ _ _ Hs Hs') as (x & b & t & p & k & Hb & Hc & Hk & Hpk).
    rewrite (placed_index _ _ _ Hp1 Hpk). eapply Nat.lt_le_trans; [exact Hk|]. by eapply placed_after.
  - intros s1 ch1 cmd1 s1' p1 s2 i ch2 s2' n Hs Hs' Hp1 Hlt Hask Hrd.
    destruct (acked_at _ _ _ _ Hs Hs') as (x & b & t & p & k & Hb & Hc & Hk & Hpk). rewrite (placed_index _ _ _ Hp1 Hpk).
    pose proof Hask as (st2 & Hst2 & _). pose proof (lookup_lt_Some _ _ _ Hst2). destruct (point_at s2) as (y & c & Hy); [lia|].
    assert (N.of_nat (length p) ≤ n_last_applied n); [|lia]. eapply (reads_bound s2); [done..|].
    eapply (committed_mono ids b); [by eapply points_le|reflexivity|exact Hc].
  - intros ch1 s1' n s2 p2 (g & st & _ & _ & Hst & <- & _) Hlt Hp2.
    destruct (applied_at _ _ Hst) as (x & b & Hb & _ & Hc & <-). pose proof (placed_after _ _ _ _ _ _ _ Hb Hc Hlt Hp2). lia.
  - intros ch1 s1' n1 s2 i ch2 s2' n2 (g & st & _ & _ & Hst & <- & _) Hlt Hask Hrd.
    destruct (applied_at _ _ Hst) as (x & b & Hb & _ & Hc & <-).
    pose proof Hask as (st2 & Hst2 & _). pose proof (lookup_lt_Some _ _ _ Hst2). destruct (point_at s2) as (y & c & Hy); [lia|].
    eapply (reads_bound s2); [done..|]. eapply (committed_mono ids b); [by eapply points_le|reflexivity|exact Hc].
Qed.
End explained.

Lemma run_linearized tr w :
  cluster_config nodes ids cfg → configs_ok (nodes := nodes) cfg → run tr w →
  ∃ ys a G, charted tr ys w a G ∧ linearized tr G (placed tr ys G).
Proof.
  intros Hcfg Hok Hrun. destruct (run_charted _ _ Hcfg Hok Hrun) as (ys & a & G & Hch).
  exists ys, a, G. split; [done|by eapply charted_linearized].
Qed.

(** [C1] Linearizability. Every run of the cluster has a sequence of entries,
    the order in which its writes took effect, that explains everything its
    clients saw: it holds exactly what was proposed, each write at most once,
    every acknowledged write, and whatever any read was served from is the
    result of a prefix of it; a write comes after every write acknowledged
    and every read served before it was proposed, and a read sees every write
    acknowledged, and all that any read saw, before it was asked for. Members
    come and go, nodes crash in the middle of an iteration, leaders are
    deposed without knowing, and answers may never arrive. *)
Theorem history_linearizable tr w :
  cluster_config nodes ids cfg → configs_ok (nodes := nodes) cfg → run tr w →
  ∃ G at_, linearized tr G at_.
Proof.
  intros Hcfg Hok Hrun. destruct (run_linearized _ _ Hcfg Hok Hrun) as (ys & a & G & _ & ?). by exists G, (placed tr ys G).
Qed.
End history.

(** ** Recording a schedule *)
Section recording.
Context `{J : SerdeJson} {SM : Type} `{!StateMachine SM} {Laws : StateMachineLaws} (sm0 : SM).
Context (nodes : gset N) (cfg : NodeId → RaftConfig).
Implicit Types (w : World (SM := SM)) (tr : list (Step (SM := SM))).
#[local] Abbreviation run := (run sm0 nodes cfg).

(** What an action hands to which node, and what becomes of its answer. *)
Definition handed w (x : Action) : option (Instant * NodeId * LoopInput * (option RpcResponse → list Response)) :=
  match x with
  | ALocal t i inp => match inp with InRpc _ _ | InEvent _ => None | _ => Some (t, i, inp, λ _, []) end
  | ARequest t from to =>
      rq ← last_request w from to;
      Some (t, to, InRpc from (rq_req rq),
        λ r, match r with Some resp => [MkResponse to from (rq_tag rq) resp] | None => [] end)
  | AResponse t from to =>
      rs ← last_response w from to;
      Some (t, to, InEvent (event_of (rs_tag rs) from (Ok (rs_resp rs))), λ _, [])
  | ARestart _ _ => None
  end.
Lemma handed_delivers w x t i inp out : handed w x = Some (t, i, inp, out) → delivers any_client w i inp out.
Proof.
  destruct x as [t' i' inp'|t' from to|t' from to|]; simpl.
  - intros Hx. assert (inp' = inp ∧ out = λ _, []) as [-> ->] by (destruct inp'; naive_solver).
    constructor. by destruct inp.
  - destruct (last_request w from to) as [rq|] eqn:Hr; simpl; [|done].
    apply last_filter_elem in Hr as [[<- <-] Hin]. intros [= _ <- <- <-]. by constructor.
  - destruct (last_response w from to) as [rs|] eqn:Hr; simpl; [|done].
    apply last_filter_elem in Hr as [[<- <-] Hin]. intros [= _ <- <- <-]. by constructor.
  - done.
Qed.

Definition observe w (x : Action) : option (Step * World) :=
  match handed w x with
  | None => None
  | Some (t, i, inp, out) =>
      match w_nodes w !! i with
      | None => None
      | Some n =>
          if enabled t inp n then
            match loop_step t inp (set_effects [] n) with
            | None => None
            | Some (r, n') => Some (MkStep i inp (n_effects n') n' true, after w i n' (n_effects n') (out r))
            end
          else None
      end
  end.
Fixpoint observes w (l : list Action) : option (list Step * World) :=
  match l with
  | [] => Some ([], w)
  | x :: l =>
      match observe w x with
      | None => None
      | Some (st, w') =>
          match observes w' l with None => None | Some (tr, w'') => Some (st :: tr, w'') end
      end
  end.

Lemma observe_takes w x st w' : observe w x = Some (st, w') → takes sm0 w st w'.
Proof.
  unfold observe. destruct (handed w x) as [[[[t i] inp] out]|] eqn:Hx; [|done]. apply handed_delivers in Hx.
  destruct (w_nodes w !! i) as [n|] eqn:Hn; [|done]. destruct (enabled t inp n) eqn:He; [|done].
  destruct (loop_step t inp (set_effects [] n)) as [[r n']|] eqn:Hl; [|done]. intros [= <- <-].
  exists n, out, r. do 2 (split; [done|]). split; [by eapply step_run|]. split; [|done]. intros _. by exists t.
Qed.

Definition channels tr : list N := omap (λ st, channel_of (st_input st)) tr.
Lemma observes_run w l tr tr' w' :
  run tr w → observes w l = Some (tr', w') → NoDup (channels (tr ++ tr')) → run (tr ++ tr') w'.
Proof.
  revert w tr tr'. induction l as [|x l IH]; intros w tr tr' Hrun Hl Hch; simpl in Hl.
  { injection Hl as <- <-. by rewrite app_nil_r. }
  destruct (observe w x) as [[st w1]|] eqn:Hx; [|done]. destruct (observes w1 l) as [[tr1 w2]|] eqn:Hl1; [|done].
  injection Hl as <- <-. rewrite cons_middle, app_assoc in Hch |- *. eapply IH; [|done|done].
  eapply run_snoc; [done|by eapply observe_takes|]. intros ch st0 Hin Hst0 Hin0.
  unfold channels in Hch. rewrite !omap_app in Hch. apply NoDup_app in Hch as (Hch & _).
  apply NoDup_app in Hch as (_ & Hch & _). destruct (Hch ch); apply list_elem_of_omap; [by exists st0|].
  exists st. split; [left|done].
Qed.
(** The whole record, when every action was possible. *)
Lemma recorded_from w l d :
  run [] w → from_option (λ _, true) false (observes w l) = true → NoDup (channels (default d (observes w l)).1) →
  run (default d (observes w l)).1 (default d (observes w l)).2.
Proof. destruct (observes w l) as [[tr w']|] eqn:Hl; [|done]. intros Hw _. by apply (observes_run w l []). Qed.
End recording.

(** *** Through a change of membership *)
Section changed.
#[local] Existing Instances numeric_json counter_sm counter_laws.

(** The run of [removed], the leader of the new members taking a write on
    channel 100, acknowledging it, and serving a read on channel 500. *)
Definition the_actions : list Action :=
  settling ++ [ALocal (from_millis 410) 1 (InPropose (ConfigChange (with_ids [1; 2; 3; 4])) 9)] ++
  catching_up ++ taking_over ++ [ALocal (from_millis 1310) 4 (InPropose (ConfigChange (with_ids [2; 3; 4])) 10)] ++
  dropping ++ [ALocal (from_millis 1320) 4 (InPropose the_write 100)] ++ round 1321 4 2 ++
  [ALocal (from_millis 1330) 4 (InRead 500)] ++ round 1331 4 2.
Definition recorded : list (Step (SM := N)) * World (SM := N) := default ([], boot4) (observes boot4 the_actions).

Lemma recorded_run : run 0 nodes4 cfg4 recorded.1 recorded.2.
Proof.
  refine (recorded_from 0 nodes4 cfg4 boot4 the_actions ([], boot4) (run_start 0 nodes4 cfg4 boot4 boot4_init) _ _).
  - vm_compute. reflexivity.
  - refine (bool_decide_eq_true_1 _ _). vm_compute. reflexivity.
Qed.

(** The write is proposed in step 40 and acknowledged in step 42; the read is
    asked for in step 43 and granted in step 45. *)
Example history_linearizable_witness :
  proposes recorded.1 40 100 the_write ∧ acks recorded.1 42 100 ∧
  asks recorded.1 43 4 500 ∧ grants recorded.1 45 4 500 ∧
  ∃ G at_, linearized 0 recorded.1 G at_.
Proof.
  split; [eexists; split; [vm_compute; reflexivity|vm_compute; reflexivity]|].
  split; [eexists; split; [vm_compute; reflexivity|vm_compute; right; left]|].
  split; [eexists; split; [vm_compute; reflexivity|split; vm_compute; reflexivity]|].
  split; [eexists; split; [vm_compute; reflexivity|split; [|split]; [vm_compute; reflexivity..|vm_compute; left]]|].
  exact (history_linearizable 0 nodes4 ids3 cfg4 recorded.1 recorded.2 cfg4_cluster cfg4_ok recorded_run).
Defined.
End changed.
