(* ===== verification/Jepsen.v ===== *)
(** * Recorded histories of a run ([tests/jepsen.rs])

    The clients of the fault-injection tests fire writes at whatever node
    looks like the leader, read with ReadIndex, and record what they saw with
    the time of invocation and return; the checker of [Lin] then looks for a
    linearization. [history_of]: what they record of a run of [History].
    [recorded_history_accepted]: the checker accepts it, for every run. *)
From stdpp Require Import functions sorting.
From S2P Require Import Prelude Types Rng Store Storage Node NodeSteps NodeLife NodeInv NodeThm Kv Lin Elections Cluster Runs Raft LogRepr Refine Safety Serve Reads History.
Open Scope N_scope.

#[local] Abbreviation Json := Types.Value.

(** ** A rejected proposal writes nothing *)
Section rejection.
Context `{J : SerdeJson} {SM : Type} `{!StateMachine SM} {Laws : StateMachineLaws} (sm0 : SM).
Implicit Types n : RaftNode SM.

(** The first answer on a one-shot channel is the one its receiver gets. *)
Definition answer_of (ch : N) (e : Effect) : option (Result Proposal ProposeError) :=
  match e with ProposeReply c r => if bool_decide (c = ch) then Some r else None | _ => None end.
Definition answer_on (ch : N) (es : list Effect) : option (Result Proposal ProposeError) :=
  head (omap (answer_of ch) es).

Lemma answer_on_prefix ch es es' r : es `prefix_of` es' → answer_on ch es = Some r → answer_on ch es' = Some r.
Proof. intros [x ->]. unfold answer_on. rewrite omap_app. by destruct (omap _ es). Qed.

Definition plain_command (c : Command) : Prop := ∀ ms, c ≠ ConfigChange ms.

(** What an iteration on a proposal answers, and what it leaves durable. *)
Lemma propose_rejected t c ch n r n' err :
  plain_command c → loop_step t (InPropose c ch) (set_effects [] n) = Some (r, n') →
  answer_on ch (n_effects n') = Some (Err err) → n_storage n' = n_storage n ∧ ∀ s, Persisted s ∉ n_effects n'.
Proof.
  intros Hc Hrun Hans.
  assert (wlp (loop_step t (InPropose c ch)) (λ _ m, ∃ m0 pub, n_storage m0 = n_storage n ∧ n_effects m0 = pub ∧
    (∀ e, e ∈ pub → ∃ st, e = StatusChanged st) ∧ propose_answered c ch m0 m) (set_effects [] n)) as Hw.
  { unfold loop_step. apply wpp_bind.
    eapply (wpp_mono _ _ (λ _ m, n_storage m = n_storage n ∧ ∀ e, e ∈ n_effects m → ∃ st, e = StatusChanged st)).
    { unfold publish_status, emit. walk; split; try done; nsimpl; intros e He; [set_solver|by apply elem_of_nil in He]. }
    intros [] m [Es Hpub]. do 2 walk_step. simpl. apply wpp_bind. eapply wpp_mono; [apply handle_propose_answered|].
    intros [] m' Hm'. walk. exists (set_now t m), (n_effects m). done. }
  unfold wpp in Hw. rewrite Hrun in Hw. destruct Hw as (m0 & pub & Es & <- & Hpub & Hm).
  destruct Hm as [err' -> _|s pre post _ Ee Hpre _ _].
  - nsimpl. split; [done|]. intros s [(st & [=])%Hpub|?%list_elem_of_singleton]%elem_of_app. done.
  - exfalso. rewrite Ee, (Hpre Hc) in Hans. unfold answer_on in Hans. rewrite omap_app in Hans.
    assert (omap (answer_of ch) (n_effects m0) = []) as E.
    { apply elem_of_nil_inv. intros x (e & (st & ->)%Hpub & [=])%list_elem_of_omap. }
    rewrite E in Hans. simpl in Hans. by rewrite bool_decide_true in Hans.
Qed.

(** The same for an iteration that a crash may have cut short. *)
Lemma rejected_storage c ch n r es n' err :
  plain_command c → node_step sm0 n (InPropose c ch) r es n' → answer_on ch es = Some (Err err) →
  n_storage n' = n_storage n.
Proof.
  intros Hc Hstep Hans. destruct Hstep as [t r n' _ Hrun|t r m pre s t0 n' _ Hrun Hleft Hsp].
  - by eapply propose_rejected.
  - destruct (spawn_storage _ _ _ _ _ Hsp) as [-> _].
    assert (pre `prefix_of` n_effects m) as Hpre.
    { destruct Hleft as [? _|s' Hp _]; [done|]. etrans; [|exact Hp]. by apply prefix_app_r. }
    destruct (propose_rejected _ _ _ _ _ _ _ Hc Hrun (answer_on_prefix _ _ _ _ Hpre Hans)) as [_ Hno].
    destruct Hleft as [_ ->|s' Hp _].
    + destruct (durable_cases (n_storage n) pre) as [->|Hin]; [done|]. destruct (Hno _ (elem_of_prefix _ _ _ Hin Hpre)).
    + destruct (Hno s'). eapply elem_of_prefix; [|exact Hp]. set_solver.
Qed.
End rejection.

(** *** So its entry never takes effect *)
Section unmade.
Context `{J : SerdeJson} {SM : Type} `{!StateMachine SM} {Laws : StateMachineLaws} (sm0 : SM).
Context (nodes ids : gset N) (cfg : NodeId → RaftConfig).
Implicit Types (tr : list (Step (SM := SM))) (a : Abs) (n : RaftNode SM).

(** The client of the proposal in step [s] was told that it was rejected. *)
Definition rejected tr (s : nat) (ch : N) : Prop :=
  ∃ st err, tr !! s = Some st ∧ answer_on ch (st_effects st) = Some (Err err).

Lemma unwritten a a' i n n' e :
  a_inv ids a → a_inv ids a' → a_le a a' → node_rel sm0 ids a i n → node_rel sm0 ids a' i n' →
  n_storage n' = n_storage n → next_in a i e → ¬ present a' e.
Proof.
  intros Ha Ha' Hle Hr Hr' Es (Et & L & HL & Ei) (c & L' & HL' & (k & Hk)%list_elem_of_lookup).
  pose proof (nr_durable _ _ _ _ _ Hr) as Hd. pose proof (nr_durable _ _ _ _ _ Hr') as Hd'. rewrite Es in Hd'.
  assert (a_term a' i = a_term a i) as Et' by (by rewrite (dr_term _ _ _ _ _ Hd), (dr_term _ _ _ _ _ Hd')).
  assert (length (a_log a' i) = length (a_log a i)) as El.
  { pose proof (repr_last_index _ _ _ (dr_repr _ _ _ _ _ Hd)) as E. rewrite (repr_last_index _ _ _ (dr_repr _ _ _ _ _ Hd')) in E.
    unfold g_len in E. lia. }
  destruct (al_lead _ _ Hle _ _ _ HL) as (L1 & HL1 & _). rewrite Et, HL1 in HL'. injection HL' as <- <-.
  rewrite (ai_lead_log _ _ Ha _ _ _ HL eq_refl), (ai_lead_log _ _ Ha' _ _ _ HL1 Et') in El.
  pose proof (contiguous_lookup _ _ _ _ (ai_lead_tidy _ _ Ha' _ _ _ HL1) Hk). apply lookup_lt_Some in Hk. lia.
Qed.

Lemma rejected_unmade tr ys w a G s ch e :
  charted sm0 nodes ids cfg tr ys w a G → plain_command (e_command e) → rejected tr s ch → ¬ made tr ys s ch e.
Proof.
  intros Hch Hc (st & err & Hst & Hans) (st' & x & b & x' & b' & Hst' & Hin & Hb & Hb' & Hn & Hp).
  rewrite Hst in Hst'. injection Hst' as <-.
  destruct (ch_points _ _ _ _ _ _ _ _ _ Hch _ _ _ Hb) as (Hw & _), (ch_points _ _ _ _ _ _ _ _ _ Hch _ _ _ Hb') as (Hw' & _).
  destruct (ch_steps _ _ _ _ _ _ _ _ _ Hch _ _ _ _ _ _ Hst Hb Hb') as ((n & out & r & Hi & _ & Hstep & _ & Ex') & Hle%a_any_le).
  assert (w_nodes x' !! st_node st = Some (st_state st)) as Hi' by (rewrite Ex'; apply lookup_insert_eq).
  rewrite Hin in Hstep. eapply unwritten; [apply Hw|apply Hw'|done|by apply (wr_nodes _ _ _ _ _ Hw)|by apply (wr_nodes _ _ _ _ _ Hw')| |done|done].
  by eapply rejected_storage.
Qed.
End unmade.

(** ** What the clients record *)
Section jepsen.
Context `{J : SerdeJson} `{!KvCodec} `{!KvCodecLaws}.
(** [json!] of a number and [as_u64]. *)
Context (of_u64 : N → Json) (as_u64 : Json → option N) (Hjson : ∀ v, as_u64 (of_u64 v) = Some v).
Context (nodes ids : gset N) (cfg : NodeId → RaftConfig).
#[local] Abbreviation Run := (list (Step (SM := KvStore))).
Implicit Types (tr : Run) (n : RaftNode KvStore) (e : LogEntry) (r : Recorded).

Definition write_command (key : string) (kind : WriteKind) : Command :=
  match kind with WPut v => Put key (of_u64 v) None | WDelete => Delete key None end.

(** A call of a client: the step that took it and, for a read, how far the
    store it looked at had been applied. *)
Record Call := MkCall { c_step : nat; c_seen : nat }.
Implicit Types c : Call.

(** The client was told that its write was superseded. *)
Definition answered_false tr (ch : N) : Prop :=
  ∃ s' st, tr !! s' = Some st ∧ Committed ch false ∈ st_effects st.

(** [clock s] is the time of step [s]. A call is invoked before the step that
    takes it and returns after the step that answers it. A write is recorded
    as failed if it was rejected or answered with [false], and may always have
    timed out. *)
Inductive tells tr (clock : nat → N) c r : Prop :=
| tells_write ch kind outcome pos :
    r_op r = OpWrite kind outcome pos →
    proposes tr (c_step c) ch (write_command (r_key r) kind) →
    r_invoked_us r ≤ clock (c_step c) →
    match outcome with
    | OutcomeOk => ∃ s', acks tr s' ch ∧ clock s' ≤ r_returned_us r
    | OutcomeFail => rejected tr (c_step c) ch ∨ answered_false tr ch
    | OutcomeUnknown => True
    end → tells tr clock c r
| tells_read ch i s' n :
    r_op r = OpRead (store_get (n_state_machine n) (r_key r) ≫= as_u64) →
    asks tr (c_step c) i ch → reads tr ch s' n → n_last_applied n = N.of_nat (c_seen c) →
    r_invoked_us r ≤ clock (c_step c) → clock s' ≤ r_returned_us r → tells tr clock c r.

(** The history of a run: every call is recorded once, every write is
    recorded, and nobody else writes. *)
Record history_of tr (clock : nat → N) (cs : list Call) (h : list Recorded) : Prop := {
  ho_clock s s' : (s ≤ s')%nat → clock s ≤ clock s';
  ho_calls : Forall2 (tells tr clock) cs h;
  ho_once : NoDup (c_step <$> cs);
  ho_writes s ch key kind : proposes tr s ch (write_command key kind) → s ∈ c_step <$> cs;
  ho_others s ch cmd : proposes tr s ch cmd →
    cmd = Noop ∨ (∃ ms, cmd = ConfigChange ms) ∨ ∃ key kind, cmd = write_command key kind;
}.

(** ** One key *)

(** The register of a key after the first [k] entries. *)
Definition reg_value (G : list LogEntry) (key : string) (k : nat) : option N :=
  store_get (sm_apply_all (take k G) store_new) key ≫= as_u64.

Definition written_by (kind : WriteKind) : option N := match kind with WPut v => Some v | WDelete => None end.

Lemma write_command_inj key kind key' kind' :
  write_command key kind = write_command key' kind' → key = key' ∧ written_by kind = written_by kind'.
Proof.
  destruct kind as [v|], kind' as [v'|]; simpl; intros E; [|discriminate E..|by injection E as ->].
  injection E as -> E. split; [done|].
  apply (f_equal as_u64) in E. by rewrite !Hjson in E.
Qed.

Lemma register_step G key k e :
  G !! k = Some e → reg_value G key (S k) =
    store_get (store_apply e (sm_apply_all (take k G) store_new)) key ≫= as_u64.
Proof. intros Hk. unfold reg_value. by rewrite (take_S_r _ _ _ Hk), sm_apply_all_app. Qed.
Lemma register_write G key k e kind :
  G !! k = Some e → e_command e = write_command key kind → reg_value G key (S k) = written_by kind.
Proof.
  intros Hk He. rewrite (register_step _ _ _ _ Hk). unfold store_apply. rewrite He.
  destruct kind as [v|]; simpl; unfold store_get; simpl.
  - rewrite lookup_insert_eq. apply Hjson.
  - by rewrite lookup_delete_eq.
Qed.
Lemma register_other G key k e :
  G !! k = Some e →
  e_command e = Noop ∨ (∃ ms, e_command e = ConfigChange ms) ∨
    (∃ key' kind, e_command e = write_command key' kind ∧ key' ≠ key) →
  reg_value G key (S k) = reg_value G key k.
Proof.
  intros Hk He. rewrite (register_step _ _ _ _ Hk). unfold store_apply, reg_value, store_get.
  destruct He as [->|[[ms ->]|(key' & [v|] & -> & Hne)]]; simpl; try done.
  - by rewrite lookup_insert_ne.
  - by rewrite lookup_delete_ne.
Qed.

Section key.
Context (tr : Run) (clock : nat → N) (cs : list Call) (h : list Recorded) (key : string).
Context (Hh : history_of tr clock cs h) (Hok : Forall recorded_ok h).
Context (G : list LogEntry) (at_ : nat → nat → Prop) (Hlin : linearized store_new tr G at_).
Context (Hrej : ∀ s p ch k kind, proposes tr s ch (write_command k kind) → rejected tr s ch → ¬ at_ s p).
Context (Hsup : ∀ s ch k kind, proposes tr s ch (write_command k kind) → ¬ answered_false tr ch).
#[local] Abbreviation ops := (omap op_entry (of_key key h)).

(** The operations on the key with the calls they stand for. *)
Definition called (x : Call * Recorded) : option (Call * Entry) :=
  if decide (r_key x.2 = key) then pair x.1 <$> op_entry x.2 else None.
Definition items : list (Call * Entry) := omap called (zip cs h).

Lemma items_ops : items.*2 = ops.
Proof.
  unfold items, of_key. pose proof (ho_calls _ _ _ _ Hh) as Hc. clear Hh Hok. induction Hc as [|c r cs' h' _ _ IH]; [done|].
  csimpl. rewrite filter_cons. unfold called at 1. csimpl. case_decide; csimpl; [|exact IH].
  destruct (op_entry r); csimpl; congruence.
Qed.
Lemma items_once : NoDup (c_step <$> items.*1).
Proof.
  assert (items.*1 `sublist_of` cs) as Hsub.
  { unfold items. pose proof (ho_calls _ _ _ _ Hh) as Hc. clear Hh Hok. induction Hc as [|c r cs' h' _ _ IH]; [done|]. csimpl.
    destruct (called (c, r)) as [x|] eqn:Hx; csimpl; [|by constructor].
    unfold called in Hx. case_decide; [|done]. destruct (op_entry _); simplify_eq/=. by constructor. }
  eapply sublist_NoDup; [apply (ho_once _ _ _ _ Hh)|]. by apply (fmap_sublist c_step).
Qed.

(** What an operation on the key says about the run. *)
Inductive item (c : Call) (en : Entry) : Prop :=
| item_read ch i s' n :
    en_action en = AExpect (reg_value G key (c_seen c)) → (c_seen c ≤ length G)%nat →
    asks tr (c_step c) i ch → reads tr ch s' n → n_last_applied n = N.of_nat (c_seen c) →
    en_inv en ≤ clock (c_step c) → clock s' ≤ en_ret en → item c en
| item_write ch kind :
    en_action en = ASet (written_by kind) → proposes tr (c_step c) ch (write_command key kind) →
    en_inv en ≤ clock (c_step c) →
    (en_required en = true → ∃ s', acks tr s' ch ∧ clock s' ≤ en_ret en) →
    (en_required en = false → en_ret en = u64_max) → item c en.

Lemma tells_item c r en : tells tr clock c r → r_key r = key → op_entry r = Some en → item c en.
Proof.
  intros Ht Hk Hen. unfold op_entry in Hen. destruct Ht as [ch kind outcome pos Ho Hp Hinv Hout|ch i s' n Ho Hask Hrd Hseen Hinv Hret].
  - rewrite Ho in Hen. rewrite Hk in Hp.
    destruct outcome; try done; injection Hen as <-; eapply item_write; try done; by destruct kind.
  - rewrite Ho in Hen. injection Hen as <-. destruct (lz_read _ _ _ _ Hlin _ _ _ Hrd) as (Hlen & Hsm & _).
    rewrite Hseen in Hlen, Hsm. rewrite Nat2N.id in Hsm.
    eapply item_read; try done; [|lia]. simpl. unfold reg_value. by rewrite Hsm, Hk.
Qed.
Lemma told c r : (c, r) ∈ zip cs h → tells tr clock c r ∧ r ∈ h.
Proof.
  intros (i & (? & ? & [= <- <-] & Hc & Hr)%lookup_zip_with_Some)%list_elem_of_lookup. split.
  - by eapply (Forall2_lookup_lr _ _ _ _ _ _ (ho_calls _ _ _ _ Hh)).
  - by eapply list_elem_of_lookup_2.
Qed.
Lemma items_item i c en : items !! i = Some (c, en) → item c en.
Proof.
  intros ([c' r] & [Ht _]%told & Hx)%list_elem_of_lookup_2%list_elem_of_omap. unfold called in Hx.
  case_decide as Hk; [|done]. destruct (op_entry _) as [en'|] eqn:Hen; simplify_eq/=. by eapply tells_item.
Qed.
Lemma items_timed i c en : items !! i = Some (c, en) → en_inv en ≤ en_ret en ∧ en_inv en ≤ u64_max.
Proof.
  intros Hi. eapply (inv_bound ops); [apply entries_timed, of_key_ok, Hok|].
  rewrite <-items_ops, list_lookup_fmap, Hi. done.
Qed.

(** *** The writer of every position *)
Lemma owners_exist : ∃ os : list (option nat), length os = length G ∧
  ∀ p e, G !! p = Some e → ∃ o, os !! p = Some o ∧ match o with Some s => at_ s p | None => e_command e = Noop end.
Proof.
  assert (∀ k, (k ≤ length G)%nat → ∃ os : list (option nat), length os = k ∧ ∀ p e, (p < k)%nat → G !! p = Some e →
    ∃ o, os !! p = Some o ∧ match o with Some s => at_ s p | None => e_command e = Noop end) as Hall.
  { induction k as [|k IH]; intros Hk; [exists []; split; [done|lia]|]. destruct IH as (os & Hos & Ho); [lia|].
    destruct (lookup_lt_is_Some_2 G k) as [e He]; [lia|].
    assert (∃ o, match o with Some s => at_ s k | None => e_command e = Noop end) as [o Hok'].
    { assert (e_command e = Noop ∨ e_command e ≠ Noop) as [?|Hc] by (destruct (e_command e); auto); [by exists None|].
      destruct (lz_complete _ _ _ _ Hlin k e He Hc) as [s Hs]. by exists (Some s). }
    exists (os ++ [o]). split; [rewrite length_app; simpl; lia|]. intros p e' Hp He'.
    destruct (decide (p = k)) as [->|Hne].
    - exists o. rewrite He in He'. injection He' as <-. split; [|done]. rewrite <-Hos. by apply list_lookup_middle.
    - destruct (Ho p e') as (o' & ? & ?); [lia|done|]. exists o'. split; [|done]. by apply lookup_app_l_Some. }
  destruct (Hall (length G)) as (os & Hos & Ho); [lia|]. exists os. split; [done|]. intros p e He. apply Ho; [|done].
  by eapply lookup_lt_Some.
Qed.

(** *** The order *)
Section order.
Context (os : list (option nat)) (Hlen : length os = length G).
Context (Hos : ∀ p e, G !! p = Some e →
  ∃ o, os !! p = Some o ∧ match o with Some s => at_ s p | None => e_command e = Noop end).

(** Where an operation comes: a write right behind its position, a read that
    has seen [k] entries right before position [k]. *)
Definition rank (x : Call * Entry) : option nat :=
  match en_action x.2 with
  | AExpect _ => Some (2 * c_seen x.1)%nat
  | ASet _ => (λ y, 2 * y.1 + 1)%nat <$> list_find (λ o, o = Some (c_step x.1)) os
  end.

Lemma rank_write c en v k : en_action en = ASet v → rank (c, en) = Some k → ∃ p, k = (2 * p + 1)%nat ∧ at_ (c_step c) p.
Proof.
  unfold rank. simpl. intros -> ([p o] & (Ho & -> & _)%list_find_Some & ->)%fmap_Some. exists p. split; [done|].
  destruct (lookup_lt_is_Some_2 G p) as [e He]; [rewrite <-Hlen; by eapply lookup_lt_Some|].
  destruct (Hos _ _ He) as (o & Ho' & Hat). rewrite Ho in Ho'. by injection Ho' as <-.
Qed.
Lemma rank_placed c en v p ch kind :
  en_action en = ASet v → proposes tr (c_step c) ch (write_command key kind) → at_ (c_step c) p →
  rank (c, en) = Some (2 * p + 1)%nat.
Proof.
  intros Ha (st & Hst & Hin) Hat.
  assert (os !! p = Some (Some (c_step c))) as Hp.
  { destruct (lz_place _ _ _ _ Hlin _ _ Hat) as (ch' & cmd & e & (st' & Hst' & Hin') & He & Hcmd).
    rewrite Hst in Hst'. injection Hst' as <-. rewrite Hin in Hin'. injection Hin' as <- <-.
    destruct (Hos _ _ He) as ([s|] & Ho & Hs); [|rewrite Hcmd in Hs; by destruct kind].
    by rewrite (lz_own _ _ _ _ Hlin _ _ _ Hat Hs). }
  assert (∃ p', rank (c, en) = Some (2 * p' + 1)%nat) as [p' Hr].
  { unfold rank. simpl. rewrite Ha. destruct (list_find _ os) as [[p' o]|] eqn:Hf; [by exists p'|].
    apply list_find_None in Hf. rewrite Forall_forall in Hf. by destruct (Hf _ (list_elem_of_lookup_2 _ _ _ Hp)). }
  destruct (rank_write _ _ _ _ Ha Hr) as (q & Eq & Hq). assert (q = p') as -> by lia.
  by rewrite Hr, (lz_once _ _ _ _ Hlin _ _ _ Hq Hat).
Qed.

(** What had completed when an operation was asked for does not come later. *)
Definition completed c en (s' : nat) : Prop :=
  (∃ ch i n, asks tr (c_step c) i ch ∧ reads tr ch s' n ∧ n_last_applied n = N.of_nat (c_seen c) ∧
    ∃ v, en_action en = AExpect v) ∨
  (∃ ch kind, proposes tr (c_step c) ch (write_command key kind) ∧ acks tr s' ch ∧ en_action en = ASet (written_by kind)).

Lemma rank_order c en s' k c2 en2 k2 :
  completed c en s' → (s' < c_step c2)%nat → item c2 en2 → rank (c, en) = Some k → rank (c2, en2) = Some k2 → (k ≤ k2)%nat.
Proof.
  intros Hc Hlt Hi2 Hr Hr2.
  destruct Hc as [(ch & i & n & Hask & Hrd & Hseen & v & Ha)|(ch & kind & Hp & Hack & Ha)],
    Hi2 as [ch2 i2 s2' n2 Ha2 _ Hask2 Hrd2 Hseen2 _ _|ch2 kind2 Ha2 Hp2 _ _ _].
  - pose proof (lz_read_read _ _ _ _ Hlin _ _ _ _ _ _ _ _ Hrd Hlt Hask2 Hrd2).
    unfold rank in Hr, Hr2. simpl in *. rewrite Ha in Hr. rewrite Ha2 in Hr2. simplify_eq. lia.
  - destruct (rank_write _ _ _ _ Ha2 Hr2) as (p & -> & Hat).
    pose proof (lz_read_write _ _ _ _ Hlin _ _ _ _ _ Hrd Hlt Hat).
    unfold rank in Hr. simpl in *. rewrite Ha in Hr. simplify_eq. lia.
  - destruct (rank_write _ _ _ _ Ha Hr) as (p & -> & Hat).
    pose proof (lz_write_read _ _ _ _ Hlin _ _ _ _ _ _ _ _ _ _ Hp Hack Hat Hlt Hask2 Hrd2).
    unfold rank in Hr2. simpl in *. rewrite Ha2 in Hr2. simplify_eq. lia.
  - destruct (rank_write _ _ _ _ Ha Hr) as (p & -> & Hat). destruct (rank_write _ _ _ _ Ha2 Hr2) as (q & -> & Hat2).
    pose proof (lz_write_write _ _ _ _ Hlin _ _ _ _ _ _ _ Hp Hack Hat Hlt Hat2). lia.
Qed.

(** Operations by rank, ties by their invocation. *)
Definition sort_key (i : nat) : nat * N :=
  match items !! i with Some x => (default 0%nat (rank x), en_inv x.2) | None => (0%nat, 0) end.
Definition before (i j : nat) : Prop :=
  ((sort_key i).1 < (sort_key j).1)%nat ∨ (sort_key i).1 = (sort_key j).1 ∧ (sort_key i).2 ≤ (sort_key j).2.
#[local] Instance before_dec : RelDecision before.
Proof. intros i j. unfold before. apply _. Defined.
#[local] Instance before_total : Total before.
Proof. intros i j. unfold before. lia. Qed.
#[local] Instance before_trans : Transitive before.
Proof. intros i j k. unfold before. lia. Qed.

Definition ranked : list nat := filter (λ i, is_Some (items !! i ≫= rank)) (seq 0 (length items)).
Definition order : list nat := merge_sort before ranked.

Lemma elem_of_order i : i ∈ order ↔ ∃ x k, items !! i = Some x ∧ rank x = Some k.
Proof.
  unfold order, ranked. rewrite merge_sort_Permutation, list_elem_of_filter, elem_of_seq. split.
  - intros [[k (x & ? & ?)%bind_Some] _]. eauto.
  - intros (x & k & Hx & Hk). rewrite Hx. simpl. split; [by exists k|]. apply lookup_lt_Some in Hx. lia.
Qed.
Lemma order_nodup : NoDup order.
Proof. unfold order. rewrite merge_sort_Permutation. apply NoDup_filter, NoDup_seq. Qed.
Lemma order_sorted : StronglySorted before order.
Proof. apply Sorted_StronglySorted; [apply _|]. apply Sorted_merge_sort, _. Qed.

(** Every write of the key that took effect is among the operations. *)
Lemma write_recorded s p e kind :
  at_ s p → G !! p = Some e → e_command e = write_command key kind →
  ∃ i x, items !! i = Some x ∧ rank x = Some (2 * p + 1)%nat.
Proof.
  intros Hat He Hc. destruct (lz_place _ _ _ _ Hlin _ _ Hat) as (ch & cmd & e' & Hp & He' & Hcmd).
  rewrite He in He'. injection He' as <-. rewrite Hc in Hcmd. subst cmd. pose proof Hp as (st & Hst & Hin).
  pose proof (ho_writes _ _ _ _ Hh _ _ _ _ Hp) as (c & -> & (j & Hj)%list_elem_of_lookup)%list_elem_of_fmap.
  destruct (Forall2_lookup_l _ _ _ _ _ (ho_calls _ _ _ _ Hh) Hj) as (r & Hr & Ht).
  assert ((c, r) ∈ zip cs h) as Hz by (apply (list_elem_of_lookup_2 _ j), lookup_zip_with_Some; eauto).
  destruct Ht as [ch' kind' outcome pos Ho Hp' Hinv Hout|ch' i s' n Ho (st' & Hst' & _ & Hin') _ _ _ _].
  2: { rewrite Hst in Hst'. injection Hst' as <-. congruence. }
  pose proof Hp' as (st' & Hst' & Hin'). rewrite Hst in Hst'. injection Hst' as <-.
  assert (write_command (r_key r) kind' = write_command key kind) as [Hk _]%write_command_inj by congruence.
  assert (∃ en v, op_entry r = Some en ∧ en_action en = ASet v) as (en & v & Hen & Ha).
  { unfold op_entry. rewrite Ho. destruct outcome; [by eexists _, _| |by eexists _, _].
    destruct Hout as [Hout|Hout]; [by destruct (Hrej _ _ _ _ _ Hp' Hout Hat)|by destruct (Hsup _ _ _ _ Hp' Hout)]. }
  assert ((c, en) ∈ items) as (i & Hi)%list_elem_of_lookup.
  { apply list_elem_of_omap. exists (c, r). split; [done|]. unfold called. simpl. rewrite decide_True by done. by rewrite Hen. }
  exists i, (c, en). split; [done|]. eapply rank_placed; [done|exact Hp|done].
Qed.

(** Between the writes the register does not change. *)
Lemma register_gap k m :
  (k ≤ m ≤ length G)%nat →
  (∀ p i x, (k ≤ p < m)%nat → items !! i = Some x → rank x ≠ Some (2 * p + 1)%nat) →
  reg_value G key m = reg_value G key k.
Proof.
  intros [Hkm Hm] Hno. revert Hm Hno. induction Hkm as [|m Hkm IH]; intros Hm Hno; [done|].
  destruct (lookup_lt_is_Some_2 G m) as [e He]; [lia|].
  rewrite <-IH; [|lia|intros p i x Hp; apply Hno; lia]. apply (register_other _ _ _ e He).
  destruct (Hos _ _ He) as ([s|] & _ & Hs); [|by left].
  destruct (lz_place _ _ _ _ Hlin _ _ Hs) as (ch & cmd & e' & Hp & He' & Hcmd). rewrite He in He'. injection He' as <-.
  destruct (ho_others _ _ _ _ Hh _ _ _ Hp) as [->|[[ms ->]|(key' & kind & ->)]]; [by left|right; left; by exists ms|right; right].
  exists key', kind. split; [done|]. intros ->. destruct (write_recorded _ _ _ _ Hs He Hcmd) as (i & x & Hi & Hx).
  exact (Hno m i x ltac:(lia) Hi Hx).
Qed.

(** The order explains every read. *)
Definition rank_from (k i : nat) : Prop := ∃ x (r : nat), items !! i = Some x ∧ rank x = Some r ∧ (2 * k ≤ r)%nat.

Lemma same_rank i j x y p :
  items !! i = Some x → items !! j = Some y → rank x = Some (2 * p + 1)%nat → rank y = Some (2 * p + 1)%nat → i = j.
Proof.
  destruct x as [c en], y as [c' en']. intros Hi Hj Hr Hr'.
  assert (∀ c en, rank (c, en) = Some (2 * p + 1)%nat → at_ (c_step c) p) as Hat.
  { intros c0 en0 Hr0. destruct (en_action en0) eqn:Ha; [|unfold rank in Hr0; simpl in Hr0; rewrite Ha in Hr0; injection Hr0; lia].
    destruct (rank_write _ _ _ _ Ha Hr0) as (q & ? & ?). by replace p with q by lia. }
  eapply (NoDup_lookup _ i j (c_step c) items_once); [by rewrite !list_lookup_fmap, Hi|].
  rewrite !list_lookup_fmap, Hj. simpl. f_equal. symmetry. exact (lz_own _ _ _ _ Hlin _ _ _ (Hat _ _ Hr) (Hat _ _ Hr')).
Qed.

Lemma order_explains l k :
  StronglySorted before l → NoDup l → Forall (rank_from k) l →
  (∀ p i x, (k ≤ p)%nat → items !! i = Some x → rank x = Some (2 * p + 1)%nat → i ∈ l) →
  explains ops l (reg_value G key k).
Proof.
  revert k. induction l as [|i l IH]; intros k Hs Hnd Hk Hall; [done|].
  apply StronglySorted_cons in Hs as [Hb Hs]. apply NoDup_cons in Hnd as [Hni Hnd].
  apply Forall_cons in Hk as [([c en] & r & Hi & Hr & Hkr) Hk].
  assert (ops !! i = Some en) as Hen by (by rewrite <-items_ops, list_lookup_fmap, Hi).
  assert (∀ j, j ∈ l → ∃ x (r' : nat), items !! j = Some x ∧ rank x = Some r' ∧ (r ≤ r')%nat) as Hlater.
  { intros j Hj. rewrite Forall_forall in Hk, Hb. destruct (Hk j Hj) as (x & r' & Hx & Hr' & _). exists x, r'. do 2 (split; [done|]).
    specialize (Hb j Hj). unfold before, sort_key in Hb. rewrite Hi, Hx, Hr, Hr' in Hb. simpl in Hb. lia. }
  assert (∀ m, (k ≤ m ≤ length G)%nat → (2 * m ≤ r)%nat → reg_value G key m = reg_value G key k) as Hgap.
  { intros m Hm Hmr. apply register_gap; [done|]. intros p j x Hp Hj Hx.
    assert (j ∈ i :: l) as [->|Hjl]%elem_of_cons by (eapply Hall; [|done..]; lia).
    - rewrite Hi in Hj. injection Hj as <-. rewrite Hr in Hx. injection Hx. lia.
    - destruct (Hlater j Hjl) as (x' & r' & ? & ? & ?). simplify_eq. lia. }
  destruct (items_item _ _ _ Hi) as [ch v s' n Ha Hlenm _ _ _ _ _|ch kind Ha Hp _ _ _].
  - (* a read *)
    assert (r = 2 * c_seen c)%nat as -> by (unfold rank in Hr; cbn [fst snd] in Hr; rewrite Ha in Hr; by injection Hr).
    exists en, (reg_value G key (c_seen c)). split; [done|]. rewrite Ha. simpl. rewrite (Hgap (c_seen c)) by lia.
    rewrite decide_True by done. split; [done|]. rewrite <-(Hgap (c_seen c)) by lia. apply IH; [done|done| |].
    + apply Forall_forall. intros j (x & r' & ? & ? & ?)%Hlater. by exists x, r'.
    + intros p j x Hp Hj Hx. assert (j ∈ i :: l) as [->|?]%elem_of_cons by (eapply Hall; [|done..]; lia); [|done].
      rewrite Hi in Hj. injection Hj as <-. rewrite Hr in Hx. injection Hx. lia.
  - (* a write *)
    destruct (rank_write _ _ _ _ Ha Hr) as (p & -> & Hat).
    destruct (lz_place _ _ _ _ Hlin _ _ Hat) as (ch' & cmd & e & (st' & Hst' & Hin') & He & Hcmd).
    destruct Hp as (st & Hst & Hin). rewrite Hst in Hst'. injection Hst' as <-. rewrite Hin in Hin'. injection Hin' as <- <-.
    exists en, (written_by kind). split; [done|]. split; [by rewrite Ha|]. rewrite <-(register_write _ _ _ _ _ He Hcmd).
    apply IH; [done|done| |].
    + apply Forall_forall. intros j Hj. destruct (Hlater j Hj) as (x & r' & Hx & Hr' & Hle). exists x, r'.
      do 2 (split; [done|]). assert (r' ≠ 2 * p + 1)%nat; [|lia]. intros ->.
      by rewrite (same_rank _ _ _ _ _ Hi Hx Hr Hr') in Hni.
    + intros q j x Hq Hj Hx. assert (j ∈ i :: l) as [->|?]%elem_of_cons by (eapply Hall; [|done..]; lia); [|done].
      rewrite Hi in Hj. injection Hj as <-. rewrite Hr in Hx. injection Hx. lia.
Qed.

(** It respects real time. *)
Lemma order_real_time i j : before i j → i ∈ order → j ∈ order →
  ∀ ei ej, ops !! i = Some ei → ops !! j = Some ej → en_inv ei ≤ en_ret ej.
Proof.
  intros Hb ([ci eni] & ri & Hi & Hri)%elem_of_order ([cj enj] & rj & Hj & Hrj)%elem_of_order ei ej.
  rewrite <-items_ops, !list_lookup_fmap, Hi, Hj. intros [= <-] [= <-]. simpl.
  unfold before, sort_key in Hb. rewrite Hi, Hj, Hri, Hrj in Hb. simpl in Hb.
  destruct (items_timed _ _ _ Hi) as [_ Hmax], (items_timed _ _ _ Hj) as [Htj _].
  destruct (N.le_gt_cases (en_inv eni) (en_ret enj)) as [?|Hgt]; [done|exfalso].
  assert (∃ s', completed cj enj s' ∧ clock s' ≤ en_ret enj) as (s' & Hc & Hs').
  { destruct (items_item _ _ _ Hj) as [ch v s' n Ha _ Hask Hrd Hseen _ Hret|ch kind Ha Hp _ Hreq Hopt].
    - exists s'. split; [|done]. left. exists ch, v, n. eauto.
    - destruct (en_required enj); [|rewrite Hopt in Hgt by done; lia].
      destruct Hreq as (s' & Hack & ?); [done|]. exists s'. split; [|done]. right. by exists ch, kind. }
  assert (en_inv eni ≤ clock (c_step ci)) as Hinv by (by destruct (items_item _ _ _ Hi)).
  assert (s' < c_step ci)%nat as Hlt.
  { destruct (decide (s' < c_step ci)%nat) as [|Hge]; [done|]. pose proof (ho_clock _ _ _ _ Hh (c_step ci) s'). lia. }
  pose proof (rank_order _ _ _ _ _ _ _ Hc Hlt (items_item _ _ _ Hi) Hrj Hri). lia.
Qed.

Lemma order_linearization : linearization ops order.
Proof.
  split.
  - apply order_nodup.
  - intros i en Hen Hreq. rewrite <-items_ops, list_lookup_fmap in Hen. apply fmap_Some in Hen as ([c en'] & Hi & ->). simpl in Hreq.
    apply elem_of_order. exists (c, en'). destruct (items_item _ _ _ Hi) as [ch v s' n Ha _ _ _ _ _ _|ch kind Ha Hp _ Hack _].
    + eexists. split; [done|]. unfold rank. simpl. by rewrite Ha.
    + destruct (Hack Hreq) as (s' & Hs' & _). destruct (lz_acked _ _ _ _ Hlin _ _ _ _ Hp Hs') as [p Hat].
      eexists. split; [done|]. by eapply rank_placed.
  - apply (order_explains order 0); [apply order_sorted|apply order_nodup| |].
    + apply Forall_forall. intros i (x & k & ? & ?)%elem_of_order. exists x, k. do 2 (split; [done|]). lia.
    + intros p i x _ Hi Hx. apply elem_of_order. eauto.
  - intros p q i j ei ej Hpq Hi Hj. apply order_real_time; [|by eapply list_elem_of_lookup_2..].
    pose proof order_sorted as Hs. rewrite <-(take_drop q order) in Hs. eapply StronglySorted_app_1_elem_of; [exact Hs|..].
    + apply (list_elem_of_lookup_2 _ p). by rewrite lookup_take_lt.
    + apply (list_elem_of_lookup_2 _ 0). by rewrite lookup_drop, Nat.add_0_r.
Qed.
End order.

Lemma key_linearizable : linearizable ops.
Proof. destruct owners_exist as (os & Hlen & Hos). exists (order os). by apply order_linearization. Qed.
End key.

(** [C2] The recorded histories of the fault-injection tests are accepted.
    Take any run of a cluster of stores, through changes of membership,
    crashes and deposed leaders; let clients write without session tokens and
    read linearizably, and record every write, as acknowledged, rejected
    before it was appended, or of unknown outcome, and any of the reads, with
    times between which the call was made and answered. Then the tests'
    checker accepts the history, if no key has more operations than fit its
    mask and no write was answered as superseded (the clients record those as
    failed, see [superseded_history_rejected]). *)
Theorem recorded_history_accepted tr w clock cs h :
  cluster_config nodes ids cfg → configs_ok (nodes := nodes) cfg → run store_new nodes cfg tr w →
  history_of tr clock cs h → Forall recorded_ok h →
  (∀ s ch key kind, proposes tr s ch (write_command key kind) → ¬ answered_false tr ch) →
  (∀ key, length (omap op_entry (of_key key h)) ≤ 63)%nat →
  check_linearizable h = Some (Ok ()).
Proof.
  intros Hcfg Hok Hrun Hh Hrec Hsup Hsize.
  destruct (run_linearized store_new nodes ids cfg tr w Hcfg Hok Hrun) as (ys & a & G & Hch & Hlin).
  apply check_accepts; [done|done|]. intros key. eapply (key_linearizable tr clock cs h key Hh Hrec G _ Hlin); [|exact Hsup].
  intros s p ch k kind (st & Hst & Hin) Hrej (ch' & e & Hm & _).
  pose proof (made_input _ _ _ _ _ Hm) as (st' & Hst' & Hin'). rewrite Hst in Hst'. injection Hst' as <-.
  rewrite Hin in Hin'. injection Hin' as Ee <-.
  eapply (rejected_unmade store_new nodes ids cfg); [exact Hch| |exact Hrej|exact Hm]. rewrite <-Ee. by destruct kind.
Qed.
End jepsen.

(** ** The history of a concrete run *)
Section concrete.
#[local] Existing Instance numeric_json.

(** Snapshots as numbers. *)
#[local] Instance numeric_codec : KvCodec := {|
  to_value s := jv (Npos (encode ((ks_map s : gmap string N), (λ st, (max_seq st, recent st)) <$> ks_sessions s)));
  from_value v :=
    match (v : N) with
    | 0 => None
    | Npos p =>
        '(m, ss) ← (decode p : option (gmap string N * gmap N (N * N)));
        Some (MkKvSnapshot (m : gmap string (@Types.Value numeric_json)) ((λ x, MkSessionState x.1 x.2) <$> ss))
    end;
|}.
#[local] Instance numeric_codec_laws : KvCodecLaws.
Proof.
  intros [m ss]. cbn. rewrite decode_encode. simpl. f_equal. f_equal. rewrite <-map_fmap_compose.
  rewrite <-(map_fmap_id ss) at 2. apply map_fmap_ext. by intros i [] _.
Qed.

(** The run of [recorded] with stores for state machines; then a write to a
    follower and one to the old leader, which was removed but does not know. *)
Definition kv_boot : World (SM := KvStore) := boot store_new cfg4 blank_storage [1; 2; 3; 4].
Definition kv_actions : list Action := the_actions ++
  [ALocal (from_millis 1340) 3 (InPropose (Put "k" (jv 6) None) 101);
   ALocal (from_millis 1341) 1 (InPropose (Delete "k" None) 102)].
Definition kv_run : list (Step (SM := KvStore)) * World (SM := KvStore) :=
  default ([], kv_boot) (observes kv_boot kv_actions).
Definition kv_calls : list Call := [MkCall 40 0; MkCall 43 5; MkCall 46 0; MkCall 47 0].
Definition kv_history : list Recorded :=
  [MkRecorded 1 "k" (OpWrite (WPut 5) OutcomeOk None) 39 42;
   MkRecorded 2 "k" (OpRead (Some 5)) 43 46;
   MkRecorded 1 "k" (OpWrite (WPut 6) OutcomeFail None) 44 46;
   MkRecorded 1 "k" (OpWrite WDelete OutcomeUnknown None) 47 u64_max].

Lemma kv_run_run : run store_new nodes4 cfg4 kv_run.1 kv_run.2.
Proof.
  refine (recorded_from store_new nodes4 cfg4 kv_boot kv_actions ([], kv_boot) (run_start store_new nodes4 cfg4 kv_boot _) _ _).
  - apply boot_init. intros i Hi. repeat (apply elem_of_cons in Hi as [->|Hi]; [eexists; vm_compute; reflexivity|]).
    by apply elem_of_nil in Hi.
  - vm_compute. reflexivity.
  - refine (bool_decide_eq_true_1 _ _). vm_compute. reflexivity.
Qed.

(** The proposals of a run. *)
Definition proposals (tr : list (Step (SM := KvStore))) : list (nat * (N * Command)) :=
  omap (λ x, match st_input x.2 with InPropose cmd ch => Some (x.1, (ch, cmd)) | _ => None end) (imap pair tr).
Lemma proposes_elem tr s ch cmd : proposes tr s ch cmd → (s, (ch, cmd)) ∈ proposals tr.
Proof.
  intros (st & Hst & Hin). apply list_elem_of_omap. exists (s, st). simpl. rewrite Hin. split; [|done].
  apply (list_elem_of_lookup_2 _ s). by rewrite list_lookup_imap, Hst.
Qed.
Lemma kv_proposals s ch cmd : proposes kv_run.1 s ch cmd →
  (s, (ch, cmd)) ∈ [(13%nat, (9, ConfigChange (with_ids [1; 2; 3; 4]))); (35%nat, (10, ConfigChange (with_ids [2; 3; 4])));
    (40%nat, (100, the_write)); (46%nat, (101, Put "k" (jv 6) None)); (47%nat, (102, Delete "k" None))].
Proof.
  intros Hp%proposes_elem.
  assert (proposals kv_run.1 = [(13%nat, (9, ConfigChange (with_ids [1; 2; 3; 4]))); (35%nat, (10, ConfigChange (with_ids [2; 3; 4])));
    (40%nat, (100, the_write)); (46%nat, (101, Put "k" (jv 6) None)); (47%nat, (102, Delete "k" None))]) as <-
    by (vm_compute; reflexivity). exact Hp.
Qed.

(** A read recorded right at its grant. *)
Lemma told_granted tr s g i ch key v seen inv ret st :
  asks tr s i ch → tr !! g = Some st → st_node st = i → st_alive st = true → ReadGranted ch ∈ st_effects st →
  n_last_applied (st_state st) = N.of_nat seen → store_get (n_state_machine (st_state st)) key = Some (jv v) →
  inv ≤ N.of_nat s → N.of_nat g ≤ ret →
  tells jv Some tr N.of_nat (MkCall s seen) (MkRecorded 2 key (OpRead (Some v)) inv ret).
Proof.
  intros Hask Hst <- Hal Hg Hap Hget Hinv Hret. eapply tells_read; [|exact Hask| |exact Hap|done|exact Hret].
  - cbn [r_op r_key]. by rewrite Hget.
  - exists g, st. split; [done|]. split; [by exists st|]. do 2 (split; [done|]). intros k st' Hk.
    assert (k = g) as -> by lia. rewrite Hst. by intros [= <-].
Qed.

(** The write, the read, the rejected write and the one nobody answers. *)
#[local] Abbreviation told_of c r := (tells jv Some kv_run.1 N.of_nat c r).
Lemma told_write : told_of (MkCall 40 0) (MkRecorded 1 "k" (OpWrite (WPut 5) OutcomeOk None) 39 42).
Proof.
  refine (tells_write _ _ _ _ _ _ 100 (WPut 5) OutcomeOk None _ _ _ _); [reflexivity|..].
  - eexists; split; vm_compute; reflexivity.
  - vm_compute; discriminate.
  - exists 42%nat. split; [eexists; split; [vm_compute; reflexivity|vm_compute; right; left]|vm_compute; discriminate].
Qed.
Lemma told_read : told_of (MkCall 43 5) (MkRecorded 2 "k" (OpRead (Some 5)) 43 46).
Proof.
  eapply (told_granted kv_run.1 43 45 4 500 "k" 5 5); [|vm_compute; reflexivity|..].
  - eexists; split; [vm_compute; reflexivity|split; vm_compute; reflexivity].
  - vm_compute; reflexivity.
  - vm_compute; reflexivity.
  - vm_compute; left.
  - vm_compute; reflexivity.
  - vm_compute; reflexivity.
  - vm_compute; discriminate.
  - vm_compute; discriminate.
Qed.
Lemma told_rejected : told_of (MkCall 46 0) (MkRecorded 1 "k" (OpWrite (WPut 6) OutcomeFail None) 44 46).
Proof.
  refine (tells_write _ _ _ _ _ _ 101 (WPut 6) OutcomeFail None _ _ _ _); [reflexivity|..].
  - eexists; split; vm_compute; reflexivity.
  - vm_compute; discriminate.
  - left. eexists _, _. split; vm_compute; reflexivity.
Qed.
Lemma told_unknown : told_of (MkCall 47 0) (MkRecorded 1 "k" (OpWrite WDelete OutcomeUnknown None) 47 u64_max).
Proof.
  refine (tells_write _ _ _ _ _ _ 102 WDelete OutcomeUnknown None _ _ _ _); [reflexivity|..].
  - eexists; split; vm_compute; reflexivity.
  - vm_compute; discriminate.
  - exact I.
Qed.

Lemma kv_history_of : history_of jv Some kv_run.1 N.of_nat kv_calls kv_history.
Proof.
  split.
  - intros s s' ?. lia.
  - apply Forall2_cons; split; [exact told_write|]. apply Forall2_cons; split; [exact told_read|].
    apply Forall2_cons; split; [exact told_rejected|]. apply Forall2_cons; split; [exact told_unknown|constructor].
  - refine (bool_decide_eq_true_1 _ _). vm_compute. reflexivity.
  - intros s ch key kind Hp%kv_proposals. clear -Hp. destruct kind as [v|]; simpl in Hp; set_solver.
  - intros s ch cmd Hp%kv_proposals. repeat (apply elem_of_cons in Hp as [[= -> -> ->]|Hp]); [by eauto..| | | |by apply elem_of_nil in Hp].
    + right. right. by exists "k", (WPut 5).
    + right. right. by exists "k", (WPut 6).
    + right. right. by exists "k", WDelete.
Qed.

(** No write of the run is answered as superseded. *)
Definition answers_false (tr : list (Step (SM := KvStore))) : list N :=
  tr ≫= λ st, omap (λ x, match x with Committed ch false => Some ch | _ => None end) (st_effects st).
Lemma answered_false_elem tr ch : answered_false tr ch → ch ∈ answers_false tr.
Proof.
  intros (s & st & Hst & Hin). apply list_elem_of_bind. exists st. split; [|by eapply list_elem_of_lookup_2].
  apply list_elem_of_omap. by exists (Committed ch false).
Qed.
Lemma kv_none_false ch : ¬ answered_false kv_run.1 ch.
Proof.
  intros Hin%answered_false_elem. assert (answers_false kv_run.1 = []) as E by (vm_compute; reflexivity).
  rewrite E in Hin. by apply elem_of_nil in Hin.
Qed.

Example recorded_history_accepted_witness : check_linearizable kv_history = Some (Ok ()).
Proof.
  refine (recorded_history_accepted jv Some (λ v, eq_refl) nodes4 ids3 cfg4 kv_run.1 kv_run.2 N.of_nat kv_calls kv_history
    cfg4_cluster cfg4_ok kv_run_run kv_history_of _ (λ _ ch _ _ _, kv_none_false ch) _).
  - repeat constructor; vm_compute; discriminate.
  - intros key. pose proof (ops_length key kv_history). change (length kv_history) with 4%nat in H. lia.
Defined.

(** *** A write recorded as failed that took effect *)

(** The run of [superseded_write_commits]; then the leader that committed the
    write serves a read. *)
Definition sup_boot : World (SM := KvStore) := boot store_new cfg5 blank_storage five.
Definition sup_actions : list Action := superseded ++ committed_after ++
  [ALocal (from_millis 1620) 2 (InRead 500)] ++ round 1621 2 4 ++ round 1621 2 5.
Definition sup_run : list (Step (SM := KvStore)) * World (SM := KvStore) :=
  default ([], sup_boot) (observes sup_boot sup_actions).
Definition sup_calls : list Call := [MkCall 13 0; MkCall 45 3].
Definition sup_history : list Recorded :=
  [MkRecorded 1 "k" (OpWrite (WPut 5) OutcomeFail None) 13 24; MkRecorded 2 "k" (OpRead (Some 5)) 45 50].

Lemma sup_run_run : run store_new ids5 cfg5 sup_run.1 sup_run.2.
Proof.
  refine (recorded_from store_new ids5 cfg5 sup_boot sup_actions ([], sup_boot) (run_start store_new ids5 cfg5 sup_boot _) _ _).
  - apply boot_init. intros i Hi. repeat (apply elem_of_cons in Hi as [->|Hi]; [eexists; vm_compute; reflexivity|]).
    by apply elem_of_nil in Hi.
  - vm_compute. reflexivity.
  - refine (bool_decide_eq_true_1 _ _). vm_compute. reflexivity.
Qed.
Lemma sup_write : tells jv Some sup_run.1 N.of_nat (MkCall 13 0) (MkRecorded 1 "k" (OpWrite (WPut 5) OutcomeFail None) 13 24).
Proof.
  refine (tells_write _ _ _ _ _ _ 100 (WPut 5) OutcomeFail None _ _ _ _); [reflexivity|..].
  - eexists; split; vm_compute; reflexivity.
  - vm_compute; discriminate.
  - right. exists 24%nat. eexists. split; [vm_compute; reflexivity|vm_compute; do 3 right; left].
Qed.
Lemma sup_read : tells jv Some sup_run.1 N.of_nat (MkCall 45 3) (MkRecorded 2 "k" (OpRead (Some 5)) 45 50).
Proof.
  eapply (told_granted sup_run.1 45 49 2 500 "k" 5 3); [|vm_compute; reflexivity|..].
  - eexists; split; [vm_compute; reflexivity|split; vm_compute; reflexivity].
  - vm_compute; reflexivity.
  - vm_compute; reflexivity.
  - vm_compute; left.
  - vm_compute; reflexivity.
  - vm_compute; reflexivity.
  - vm_compute; discriminate.
  - vm_compute; discriminate.
Qed.
Lemma sup_proposals s ch cmd : proposes sup_run.1 s ch cmd → (s, (ch, cmd)) ∈ [(13%nat, (100, the_write))].
Proof.
  intros Hp%proposes_elem. assert (proposals sup_run.1 = [(13%nat, (100, the_write))]) as <- by (vm_compute; reflexivity). exact Hp.
Qed.
Lemma sup_history_of : history_of jv Some sup_run.1 N.of_nat sup_calls sup_history.
Proof.
  split.
  - intros s s' ?. lia.
  - apply Forall2_cons; split; [exact sup_write|]. apply Forall2_cons; split; [exact sup_read|constructor].
  - refine (bool_decide_eq_true_1 _ _). vm_compute. reflexivity.
  - intros s ch key kind Hp%sup_proposals. clear -Hp. destruct kind as [v|]; simpl in Hp; set_solver.
  - intros s ch cmd Hp%sup_proposals. apply list_elem_of_singleton in Hp as [= -> -> ->]. right. right. by exists "k", (WPut 5).
Qed.

(** [C28] A superseded write is not a failed one. The clients record a write
    that was answered with [false] as failed, which the checker leaves out as
    having definitely never happened. There is a run of five nodes in which
    such a write is committed by a later leader and seen by a read: the
    checker rejects the history recorded of it, although the run is
    linearizable. *)
Theorem superseded_history_rejected :
  ∃ tr w cs h, run store_new ids5 cfg5 tr w ∧ history_of jv Some tr N.of_nat cs h ∧ Forall recorded_ok h ∧
    check_linearizable h = Some (Err ("k", NoLinearization)).
Proof.
  exists sup_run.1, sup_run.2, sup_calls, sup_history. split; [exact sup_run_run|]. split; [exact sup_history_of|].
  split; [repeat constructor; vm_compute; discriminate|]. vm_compute. reflexivity.
Qed.
End concrete.
