(* ===== verification/Drive.v ===== *)
(** * Driving a cluster

    The schedules of [Runs] as a means to get somewhere: in every reachable
    world the next action of a schedule can be taken, because no node
    panics, so it is enough to say what each iteration does. [eventually]
    composes such steps: a schedule without crashes, on a group of nodes
    only, whose clock never runs backwards. *)
From stdpp Require Import functions.
From S2P Require Import Prelude Types Rng Storage Node NodeSteps NodeLife NodeInv NodeThm Elections Cluster Runs Raft LogRepr Refine Safety.
Open Scope N_scope.

(** ** Schedules on a group of nodes *)
Section schedules.
Context `{J : SerdeJson} {SM : Type} `{!StateMachine SM} (sm0 : SM).
Implicit Types (w : World (SM := SM)) (P : Instant → World (SM := SM) → Prop).

Definition action_time (a : Action) : Instant :=
  match a with ALocal t _ _ | ARequest t _ _ | AResponse t _ _ | ARestart t _ => t end.

(** Both ends of the action are in the group, and nobody crashes. *)
Definition within (Q : gset N) (a : Action) : Prop :=
  match a with
  | ALocal _ i _ => i ∈ Q
  | ARequest _ from to | AResponse _ from to => from ∈ Q ∧ to ∈ Q
  | ARestart _ _ => False
  end.

(** From instant [t] on, a schedule of the group [Q] can lead to [P]. *)
Inductive eventually (Q : gset N) P : Instant → World (SM := SM) → Prop :=
| ev_now t t' w : t ≤ t' → P t' w → eventually Q P t w
| ev_act t w a w' :
    t ≤ action_time a → within Q a → act sm0 w a = Some w' →
    eventually Q P (action_time a) w' → eventually Q P t w.

Lemma eventually_wait Q P t t' w : t ≤ t' → eventually Q P t' w → eventually Q P t w.
Proof.
  destruct 2; [eapply ev_now; [|done]|eapply ev_act; [|done..]]; lia.
Qed.
Lemma eventually_bind Q P R t w :
  eventually Q P t w → (∀ t' w', t ≤ t' → P t' w' → eventually Q R t' w') → eventually Q R t w.
Proof.
  induction 1 as [t t' w Ht HP|t w a w' Ht Ha Hact _ IH]; intros HR.
  - eapply eventually_wait; [done|by apply HR].
  - eapply ev_act; [done..|]. apply IH. intros t' w'' ?. apply HR. lia.
Qed.
Lemma eventually_mono Q P R t w :
  eventually Q P t w → (∀ t' w', t ≤ t' → P t' w' → R t' w') → eventually Q R t w.
Proof. intros Hev HR. eapply eventually_bind; [exact Hev|]. intros. eapply ev_now; [done|]. by apply HR. Qed.

(** The schedule itself, with a clock that never runs backwards. *)
Fixpoint timed (t : Instant) (l : list Action) : Prop :=
  match l with
  | [] => True
  | a :: l => t ≤ action_time a ∧ timed (action_time a) l
  end.

Lemma timed_app t t' l l' :
  timed t l → t ≤ t' → Forall (λ a, action_time a ≤ t') l → timed t' l' → timed t (l ++ l').
Proof.
  revert t. induction l as [|a l IH]; intros t Hl Ht Hb Hl'; simpl.
  - destruct l' as [|a l']; [done|]. destruct Hl'. split; [lia|done].
  - destruct Hl as [? ?]. apply Forall_cons in Hb as [? ?]. split; [done|]. by apply IH.
Qed.

Lemma eventually_schedule Q P t w :
  eventually Q P t w → ∃ l t' w', timed t l ∧ t ≤ t' ∧ Forall (λ a, action_time a ≤ t') l ∧
    Forall (within Q) l ∧ acts sm0 w l = Some w' ∧ P t' w'.
Proof.
  induction 1 as [t t' w Ht HP|t w a w' Ht Ha Hact _ (l & t' & w'' & Hl & Hle & Hb & Hw & Hacts & HP)].
  - exists [], t', w. done.
  - exists (a :: l), t', w''. split; [done|]. split; [lia|]. split; [by constructor|].
    split; [by constructor|]. cbn [acts]. by rewrite Hact.
Qed.
Lemma acts_app w l1 l2 : acts sm0 w (l1 ++ l2) = acts sm0 w l1 ≫= λ w', acts sm0 w' l2.
Proof.
  revert w. induction l1 as [|a l1 IH]; intros w; simpl; [done|]. destruct (act sm0 w a); simpl; [apply IH|done].
Qed.

(** ** The last message between two nodes *)
Definition sends_to (j : NodeId) (e : Effect) : Prop :=
  match e with SendRpc p _ _ => p = j | _ => False end.

Lemma last_request_quiet w i n' es out j :
  (∀ e, e ∈ es → ¬ sends_to j e) → last_request (after w i n' es out) i j = last_request w i j.
Proof.
  intros Hq. unfold last_request. cbn [w_requests after]. rewrite filter_app.
  rewrite (filter_none _ (omap (send_of i) es)), app_nil_r; [done|].
  intros rq (e & He & Hs)%list_elem_of_omap [_ E]. destruct e; simplify_eq/=. exact (Hq _ He eq_refl).
Qed.
Lemma last_request_sent w i n' es es1 es2 out j req tag :
  es = es1 ++ SendRpc j req tag :: es2 → (∀ e, e ∈ es2 → ¬ sends_to j e) →
  last_request (after w i n' es out) i j = Some (MkRequest i j req tag).
Proof.
  intros -> Hq. unfold last_request. cbn [w_requests after].
  rewrite omap_app, !filter_app. change (omap (send_of i) (SendRpc j req tag :: es2)) with
    (MkRequest i j req tag :: omap (send_of i) es2).
  rewrite filter_cons_True by done.
  rewrite (filter_none _ (omap (send_of i) es2)), !last_app; [done|].
  intros rq (e & He & Hs)%list_elem_of_omap [_ E]. destruct e; simplify_eq/=. exact (Hq _ He eq_refl).
Qed.
Lemma last_request_other w k n' es out i j :
  k ≠ i → last_request (after w k n' es out) i j = last_request w i j.
Proof.
  intros Hk. unfold last_request. cbn [w_requests after]. rewrite filter_app.
  rewrite (filter_none _ (omap (send_of k) es)), app_nil_r; [done|].
  intros rq (e & He & Hs)%list_elem_of_omap [E _]. destruct e; by simplify_eq/=.
Qed.
Lemma last_response_answer w i n' es j tag resp :
  last_response (after w i n' es [MkResponse i j tag resp]) i j = Some (MkResponse i j tag resp).
Proof.
  unfold last_response. cbn [w_responses after]. rewrite filter_app, (filter_cons_True _ (MkResponse i j tag resp)) by done.
  by rewrite last_app.
Qed.
End schedules.

(** ** Iterations of sound worlds *)
Section sound.
Context `{J : SerdeJson} {SM : Type} `{!StateMachine SM} {Laws : StateMachineLaws} (sm0 : SM).
Context (ids : gset N) (cfg : NodeId → RaftConfig).
Context (Hcfg : static_config ids cfg) (Hok : configs_ok (nodes := ids) cfg).
Implicit Types (w : World (SM := SM)) (n : RaftNode SM) (a : Abs).

(** What holds of every reachable world. *)
Record sound w : Prop := {
  so_dom : dom (w_nodes w) = ids;
  so_rel : ∃ a, world_rel (nodes := ids) sm0 ids cfg w a;
  so_elec : election_inv ids cfg w;
  so_wf : all_wf sm0 w;
}.

Lemma sound_node w i : sound w → i ∈ ids → ∃ n, w_nodes w !! i = Some n.
Proof. intros Hs Hi. rewrite <-(so_dom _ Hs) in Hi. by apply elem_of_dom. Qed.

(** The members of every node are the initial ones. *)
Lemma sound_members w i n : sound w → w_nodes w !! i = Some n → dom (n_members n) = ids.
Proof. intros Hs Hi. apply (el_members _ _ _ (ei_elec _ _ _ (so_elec _ Hs) _ _ Hi)). Qed.

Lemma sound_step w w' : sound w → w_step sm0 static_client w w' → sound w'.
Proof.
  intros [Hd [a Ha] He Hwf] Hs. split.
  - destruct Hs as [w i n inp out r es n' Hi _ _]. cbn [w_nodes after]. rewrite dom_insert_lookup_L; [done|by eexists].
  - destruct (step_rel _ _ _ _ _ _ (static_cluster _ _ Hcfg) Ha Hs) as (a' & _ & ?). by exists a'.
  - by eapply step_inv.
  - eapply step_all_wf; [by apply static_cluster|done..].
Qed.

Lemma sound_reachable w : reachable_world sm0 static_client cfg ids fresh_storage w → sound w.
Proof.
  intros Hr. pose proof (reachable_wf _ _ _ _ (static_cluster _ _ Hcfg) Hok Hr) as [Ha Hwf].
  split; [|done| |done].
  2: { eapply (reachable_inv sm0 ids cfg fresh_storage); [done| |done|done]. split; [by intros e ?%elem_of_nil|done]. }
  destruct Hr as (w0 & Hinit & Hsteps). destruct Hinit as [<- _].
  clear -Hsteps. induction Hsteps as [|w1 w2 w3 Hs _ IH]; [done|]. rewrite IH.
  destruct Hs as [w i n inp out r es n' Hi _ _]. cbn [w_nodes after]. rewrite dom_insert_lookup_L; [done|by eexists].
Qed.

(** The next iteration of any node returns, with what is known of its
    handler, and leaves a sound world. *)
Lemma run_total w i n inp out t Q :
  sound w → w_nodes w !! i = Some n → delivers static_client w i inp out → enabled t inp n = true →
  wlp (loop_step t inp) Q (set_effects [] n) →
  ∃ r n', run_node w t i inp out = Some (after w i n' (n_effects n') (out r)) ∧ Q r n' ∧
    sound (after w i n' (n_effects n') (out r)).
Proof.
  intros Hs Hi Hdel He HQ. destruct (so_rel _ Hs) as [a Hw].
  pose proof (delivers_input_ok _ _ _ _ _ _ _ _ _ Hw Hi Hdel) as Hin.
  pose proof (so_wf _ Hs _ _ Hi) as Hwf.
  assert (node_wf sm0 (set_effects [] n)) as Hn by (eapply wf_frame; [exact Hwf|reflexivity..|apply Hwf]).
  pose proof (loop_step_wf sm0 t inp _ Hn Hin) as Hw0. unfold wpp in Hw0, HQ. unfold run_node. rewrite Hi. simpl.
  rewrite He. destruct (loop_step t inp (set_effects [] n)) as [[r n']|] eqn:Hl; [|done].
  exists r, n'. split; [done|]. split; [done|]. eapply sound_step; [done|].
  by eapply world_step; [| |eapply step_run].
Qed.

(** How an iteration starts. *)
Definition begun (t : Instant) n n1 : Prop :=
  ∃ st es, (∀ e, e ∈ es → ∃ s, e = StatusChanged s) ∧
    n1 = set_now t (set_status_tx st (set_effects es n)).

Lemma loop_step_begin t inp Q n :
  (∀ n1, begun t n n1 → wlp (dispatch inp) Q n1) → wlp (loop_step t inp) Q (set_effects [] n).
Proof.
  intros HQ. unfold loop_step, publish_status, emit. do 3 walk_step. walk_step.
  - walk_step. walk_step. walk_step. walk_step. walk_step. apply HQ.
    eexists _, _. split; [|reflexivity]. intros e. nsimpl. intros ->%list_elem_of_singleton. by eexists.
  - walk_step. walk_step. apply HQ. exists (n_status_tx n), []. split; [by intros e ?%elem_of_nil|]. by destruct n.
Qed.

(** *** The actions *)
Lemma act_local w i n inp t Q :
  sound w → w_nodes w !! i = Some n → is_local inp = true → enabled t inp n = true →
  (∀ n1, begun t n n1 → wlp (dispatch inp) Q n1) →
  ∃ r n', act sm0 w (ALocal t i inp) = Some (after w i n' (n_effects n') []) ∧ Q r n' ∧
    sound (after w i n' (n_effects n') []).
Proof.
  intros Hs Hi Hl He HQ. simpl. rewrite Hl.
  eapply (run_total w i n inp (λ _, []) t Q); [done|done| |done|by apply loop_step_begin].
  constructor. by destruct inp as [[]| | | | |].
Qed.

Lemma act_request w i j n req tag t Q :
  sound w → w_nodes w !! j = Some n → last_request w i j = Some (MkRequest i j req tag) →
  (∀ n1, begun t n n1 → wlp (handle_inbound req) (λ resp, Q resp) n1) →
  ∃ resp n', act sm0 w (ARequest t i j) = Some (after w j n' (n_effects n') [MkResponse j i tag resp]) ∧
    Q resp n' ∧ sound (after w j n' (n_effects n') [MkResponse j i tag resp]).
Proof.
  intros Hs Hj Hl HQ. simpl. rewrite Hl. simpl. pose proof (last_filter_elem _ _ _ Hl) as [_ Hin].
  edestruct (run_total w j n (InRpc i req)
    (λ r, match r with Some resp => [MkResponse j i tag resp] | None => [] end) t
    (λ r n', ∃ resp, r = Some resp ∧ Q resp n')) as (r & n' & Hrun & (resp & -> & HQ') & Hs').
  - done.
  - done.
  - by apply (deliver_request _ _ _ (MkRequest i j req tag)).
  - done.
  - apply loop_step_begin. intros n1 Hn1. simpl. apply wpp_bind. eapply wpp_mono; [by apply HQ|].
    intros resp n' HQ'. apply wpp_ret. by exists resp.
  - exists resp, n'. done.
Qed.

Lemma act_response w i j n tag resp t Q :
  sound w → w_nodes w !! i = Some n → last_response w j i = Some (MkResponse j i tag resp) →
  (∀ n1, begun t n n1 → wlp (handle_event (event_of tag j (Ok resp))) (λ _, Q) n1) →
  ∃ n', act sm0 w (AResponse t j i) = Some (after w i n' (n_effects n') []) ∧
    Q n' ∧ sound (after w i n' (n_effects n') []).
Proof.
  intros Hs Hi Hl HQ. simpl. rewrite Hl. simpl. pose proof (last_filter_elem _ _ _ Hl) as [_ Hin].
  edestruct (run_total w i n (InEvent (event_of tag j (Ok resp))) (λ _, []) t (λ _, Q))
    as (r & n' & Hrun & HQ' & Hs').
  - done.
  - done.
  - by apply (deliver_response _ _ _ (MkResponse j i tag resp)).
  - done.
  - apply loop_step_begin. intros n1 Hn1. simpl. apply wpp_bind. eapply wpp_mono; [by apply HQ|].
    intros u n' HQ'. by apply wpp_ret.
  - exists n'. done.
Qed.
End sound.
