(* ===== verification/Replicate.v ===== *)
(** * Replication terminates

    What one leader and one follower do when they get to talk. The follower
    accepts an AppendEntries exactly when it holds the entry before the
    batch; otherwise the leader steps back one index and tries again, or
    ships its snapshot. [replication_terminates] bounds the exchanges: after
    at most linearly many round trips the leader knows the follower to hold
    its whole log. *)
From stdpp Require Import functions.
From S2P Require Import Prelude Types Rng Storage Node NodeSteps NodeLife NodeInv NodeThm Elections Cluster Runs Raft LogRepr Refine Safety Serve Reads Drive.
Open Scope N_scope.

(** ** What a leader sends *)
Section sending.
Context `{J : SerdeJson} {SM : Type} `{!StateMachine SM}.
Implicit Types (n : RaftNode SM) (l : LeaderState).

Definition next_of n l (j : NodeId) : LogIndex := default (last_index (n_storage n) + 1) (next_index l !! j).
Definition match_of l (j : NodeId) : LogIndex := default 0 (match_index l !! j).

Lemma member_ids (ids : gset N) n k : dom (n_members n) = ids → is_member n k = true ↔ k ∈ ids.
Proof. intros <-. unfold is_member. by rewrite bool_decide_eq_true, elem_of_dom. Qed.
Lemma peers_ids (ids : gset N) n j : dom (n_members n) = ids → j ∈ ids → j ≠ self n → j ∈ peer_ids n.
Proof. intros <- Hj Hne. apply list_elem_of_filter. split; [done|]. apply elem_of_btree_keys. by apply elem_of_dom. Qed.

(** The request that brings [j] up to date, as [send_append] makes it. *)
Definition replication n l (j : NodeId) : option (RpcRequest * SentTag) :=
  let s := n_storage n in
  let next := next_of n l j in
  if bool_decide (next ≤ snapshot_index s) then
    snap ← st_snapshot s;
    Some (InstallSnapshot (MkInstallSnapshotArgs (cur_term n) (self n) snap),
          TagSnapshot (cur_term n) (last_included_index snap))
  else
    prev_term ← term s (next - 1);
    let es := entries_from s next in
    Some (AppendEntries (MkAppendEntriesArgs (cur_term n) (self n) (next - 1) prev_term es (n_commit_index n)),
          TagAppend (cur_term n) (next - 1) (N.of_nat (length es)) (heartbeat_seq l)).

Lemma send_append_exact n l p :
  n_role n = Leader l → is_member n p = true →
  wlp (send_append p) (λ _ n', ∃ req tag, replication n l p = Some (req, tag) ∧
    n' = set_effects (n_effects n ++ [SendRpc p req tag]) n) n.
Proof.
  intros Hl Hm. unfold send_append. do 2 walk_step. rewrite Hm, Hl. simpl. fold (next_of n l p).
  unfold replication. case_bool_decide as Hn.
  - unfold send_install_snapshot, emit. walk; [|done].
    match goal with H : st_snapshot _ = Some _ |- _ => rewrite H end. by eexists _, _.
  - unfold emit, checked_sub. rewrite decide_True by lia. walk; [|done|done].
    simplify_eq. match goal with H : term _ _ = Some _ |- _ => rewrite H end. by eexists _, _.
Qed.

(** Every peer gets its request, and nothing else changes. *)
Lemma send_appends_exact n l ps :
  n_role n = Leader l → (∀ p, p ∈ ps → is_member n p = true) →
  wlp (for_each ps send_append) (λ _ n', ∃ es, n' = set_effects (n_effects n ++ es) n ∧
    Forall2 (λ p e, ∃ req tag, replication n l p = Some (req, tag) ∧ e = SendRpc p req tag) ps es) n.
Proof.
  revert n. induction ps as [|p ps IH]; intros n Hl Hm; simpl.
  { apply wpp_ret. exists []. split; [by rewrite app_nil_r; destruct n|constructor]. }
  apply wpp_bind. eapply wpp_mono; [apply send_append_exact; [done|apply Hm; left]|].
  intros [] n1 (req & tag & Hr & ->).
  eapply wpp_mono; [apply IH; [done|intros q Hq; apply Hm; by right]|].
  intros [] n2 (es & -> & Hes). exists (SendRpc p req tag :: es). split.
  { nsimpl. by rewrite <-app_assoc. }
  constructor; [by eauto|]. eapply Forall2_impl; [exact Hes|]. intros q e (req' & tag' & ? & ?). by exists req', tag'.
Qed.

(** The one for [j] among them. *)
Lemma sent_to_one n l ps es j :
  Forall2 (λ p e, ∃ req tag, replication n l p = Some (req, tag) ∧ e = SendRpc p req tag) ps es →
  NoDup ps → j ∈ ps →
  ∃ req tag es1 es2, replication n l j = Some (req, tag) ∧ es = es1 ++ SendRpc j req tag :: es2 ∧
    ∀ e, e ∈ es2 → ¬ sends_to j e.
Proof.
  induction 1 as [|p e ps es (req & tag & Hr & ->) Hes IH]; intros Hnd Hj; [by apply elem_of_nil in Hj|].
  apply NoDup_cons in Hnd as [Hp Hnd]. apply elem_of_cons in Hj as [->|Hj].
  - exists req, tag, [], es. split; [done|]. split; [done|]. intros e He Hs.
    apply list_elem_of_lookup in He as [k Hk]. destruct (Forall2_lookup_r _ _ _ _ _ Hes Hk) as (q & Hq & ? & ? & _ & ->).
    simpl in Hs. subst q. apply Hp. by eapply list_elem_of_lookup_2.
  - destruct (IH Hnd Hj) as (req' & tag' & es1 & es2 & ? & -> & ?).
    exists req', tag', (SendRpc p req tag :: es1), es2. done.
Qed.

(** ** A leader keeps presiding *)

(** The proposal's client has been told that it is committed, and it is. *)
Definition acknowledged (p : PendingProposal) n : Prop :=
  Committed (pp_committed p) true ∈ n_effects n ∧ pp_index p ≤ n_commit_index n.

(** From [n] to [n'], the node leads on with the same bookkeeping [l]
    (waiting reads aside), and a proposal that was waiting still waits or
    has been acknowledged. *)
Record presides l n n' : Prop := {
  ps_config : n_config n' = n_config n;
  ps_members : n_members n' = n_members n;
  ps_hard : hs n' = hs n;
  ps_last : last_index (n_storage n') = last_index (n_storage n);
  ps_snap : snapshot_index (n_storage n) ≤ snapshot_index (n_storage n');
  ps_now : n_now n' = n_now n;
  ps_role : ∃ rs, n_role n' = Leader (set_pending_reads rs l);
  ps_effects : ∃ es, n_effects n' = n_effects n ++ es;
  ps_pending p : p ∈ n_pending n → term (n_storage n) (pp_index p) = Some (pp_term p) →
    p ∈ n_pending n' ∨ acknowledged p n';
}.

Lemma presides_refl l n : n_role n = Leader l → presides l n n.
Proof.
  intros Hl. split; try done; [by exists (pending_reads l); destruct l|exists []; by rewrite app_nil_r|by left].
Qed.

(** A later change that leaves the waiting proposals alone. *)
Lemma presides_then l n1 n2 n3 rs es :
  presides l n1 n2 → n_config n3 = n_config n2 → n_members n3 = n_members n2 → hs n3 = hs n2 →
  last_index (n_storage n3) = last_index (n_storage n2) →
  snapshot_index (n_storage n2) ≤ snapshot_index (n_storage n3) → n_now n3 = n_now n2 →
  n_role n3 = Leader (set_pending_reads rs l) → n_effects n3 = n_effects n2 ++ es →
  n_pending n3 = n_pending n2 → n_commit_index n3 = n_commit_index n2 → presides l n1 n3.
Proof.
  intros [] E1 E2 E3 E4 E5 E9 E6 E7 E8 E10. split; rewrite ?E1, ?E2, ?E3, ?E4, ?E6, ?E7, ?E8, ?E9; try done.
  - lia.
  - by eexists.
  - destruct ps_effects0 as [es0 ->]. exists (es0 ++ es). by rewrite app_assoc.
  - intros p Hp Ht. destruct (ps_pending0 p Hp Ht) as [|[? ?]]; [by left|right].
    split; [rewrite E7; set_solver|by rewrite E10].
Qed.
End sending.

Section presiding.
Context `{J : SerdeJson} {SM : Type} `{!StateMachine SM} {Laws : StateMachineLaws}.
Implicit Types (n : RaftNode SM) (l : LeaderState).

Lemma apply_loop_frame fuel n :
  wlp (apply_loop fuel) (λ _ n', ∃ sm la, n' = set_state_machine sm (set_last_applied la n)) n.
Proof.
  revert n. induction fuel as [|fuel IH]; intros n; simpl.
  { walk. exists (n_state_machine n), (n_last_applied n). by destruct n. }
  walk; [|done|exists (n_state_machine n), (n_last_applied n); by destruct n].
  match goal with H : ∃ sm la, _ |- _ => destruct H as (sm & la & ->) end. by eexists _, _.
Qed.

Lemma resolve_pending_presides l n :
  n_role n = Leader l → wlp resolve_pending (λ _, presides l n) n.
Proof.
  intros Hl. unfold resolve_pending, emits. walk. split; nsimpl; try done.
  - by exists (pending_reads l); destruct l.
  - by eexists.
  - intros p Hp Ht. destruct (verdict n p) as [b|] eqn:Hv; [right|left; by apply list_elem_of_filter].
    unfold verdict in Hv. rewrite bool_decide_eq_false_2 in Hv by (intros Hc; by apply Hc).
    case_bool_decide as Hci; [|done]. split; [|done]. nsimpl.
    apply elem_of_app. right. apply list_elem_of_omap. exists p. split; [done|].
    unfold verdict. rewrite bool_decide_eq_false_2 by (intros Hc; by apply Hc). by rewrite bool_decide_eq_true_2.
Qed.

Lemma resolve_reads_presides l n0 n :
  presides l n0 n → wlp resolve_reads (λ _, presides l n0) n.
Proof.
  intros Hp. destruct (ps_role _ _ _ Hp) as [rs Hr]. unfold resolve_reads, set_leader, emits.
  do 2 walk_step. rewrite Hr. walk. by eapply presides_then; [exact Hp|..].
Qed.

Lemma maybe_compact_presides l n0 n :
  presides l n0 n → wlp maybe_compact (λ _, presides l n0) n.
Proof.
  intros Hp. destruct (ps_role _ _ _ Hp) as [rs Hr]. unfold maybe_compact, storage_op, emit. walk; try done.
  all: try match goal with H : compact_to _ _ _ _ = Ok _ |- _ =>
    pose proof (last_index_compact _ _ _ _ _ H); pose proof (compact_hard_state _ _ _ _ _ H);
    pose proof (compact_to_snapshot_index _ _ _ _ _ H); pose proof (compact_to_range _ _ _ _ _ H) end.
  all: eapply presides_then; [exact Hp|nsimpl; first [done|lia|idtac]..].
  all: first [exact Hr|by rewrite app_nil_r|idtac].
Qed.
Lemma apply_committed_presides l n :
  n_role n = Leader l → wlp apply_committed (λ _, presides l n) n.
Proof.
  intros Hl. unfold apply_committed. do 3 walk_step. eapply wpp_mono; [apply apply_loop_frame|].
  intros [] n1 (sm & la & ->). walk_step. eapply wpp_mono; [by apply resolve_pending_presides|].
  intros [] n2 Hp. walk_step. eapply wpp_mono; [apply (resolve_reads_presides l n)|].
  - by destruct Hp.
  - intros [] n3 Hp3. by apply maybe_compact_presides.
Qed.

Lemma maybe_advance_commit_presides l n :
  n_role n = Leader l → is_member n (self n) = true → wlp maybe_advance_commit (λ _, presides l n) n.
Proof.
  intros Hl Hm. unfold maybe_advance_commit. do 2 walk_step. rewrite Hl.
  walk_step; [by apply wpp_ret, presides_refl|]. apply wpp_bind, wpp_expect; [|done]. intros c _.
  apply wpp_bind. eapply (wpp_mono _ _ (λ _, presides l n)).
  - walk_step; [|by apply presides_refl]. walk_step. walk_step.
    eapply wpp_mono; [by apply apply_committed_presides|]. intros [] n1 []. done.
  - intros [] n1 Hp. do 2 walk_step.
    assert (is_member n1 (self n1) = true) as Hm1.
    { unfold is_member, self in *. by rewrite (ps_members _ _ _ Hp), (ps_config _ _ _ Hp). }
    rewrite Hm1, andb_false_r. exact Hp.
Qed.

(** ** The handlers of the leader *)

(** The last thing sent to [j] is what the present state asks for. *)
Definition sent_last n l (j : NodeId) : Prop :=
  ∃ req tag es1 es2, replication n l j = Some (req, tag) ∧
    n_effects n = es1 ++ SendRpc j req tag :: es2 ∧ ∀ e, e ∈ es2 → ¬ sends_to j e.

(** Asking for a read sends every peer what it lacks. *)
Lemma handle_read_sends l n reply :
  n_role n = Leader l →
  wlp (handle_read reply) (λ _ n', ∃ l', (next_index l' = next_index l ∧ match_index l' = match_index l) ∧
    presides l' (set_role (Leader l') n) n' ∧ n_storage n' = n_storage n ∧
    ∀ j, j ∈ peer_ids n → sent_last n' l' j) n.
Proof.
  intros Hl. unfold handle_read. do 2 walk_step. rewrite Hl. unfold set_leader, emit. do 7 walk_step.
  match goal with |- context [set_role (Leader ?x) n] => set (l' := x) end.
  set (n1 := set_effects _ _).
  eapply wpp_mono; [apply (send_appends_exact n1 l'); [done|]|].
  { intros p [_ Hp%elem_of_btree_keys]%list_elem_of_filter. apply bool_decide_eq_true. exact Hp. }
  intros [] n2 (es & -> & Hes). unfold resolve_reads, set_leader, emits. walk_step. walk_step.
  change (n_role (set_effects (n_effects n1 ++ es) n1)) with (Leader l'). cbv iota. do 3 walk_step.
  exists l'. split; [done|]. split; [|split; [done|]].
  - split; nsimpl; try done; [by eexists|unfold n1; nsimpl; eexists; by rewrite <-!app_assoc|by left].
  - intros j Hj.
    destruct (sent_to_one n1 l' _ _ j Hes) as (req & tag & es1 & es2 & Hr & -> & Hno).
    { apply NoDup_filter, NoDup_btree_keys. }
    { exact Hj. }
    eexists req, tag, (n_effects n1 ++ es1), (es2 ++ _). split; [exact Hr|]. split.
    + nsimpl. rewrite <-!app_assoc. reflexivity.
    + intros e [He|He]%elem_of_app; [by apply Hno|]. apply list_elem_of_fmap in He as (r & -> & _). by intros [].
Qed.

(** Once a majority holds the whole log, and its last entry is of the
    leader's term, everything is committed. *)
Definition commits_all l n n' : Prop :=
  term (n_storage n) (last_index (n_storage n)) = Some (cur_term n) →
  (majority n ≤ holders n l (last_index (n_storage n)))%nat →
  last_index (n_storage n) ≤ n_commit_index n'.

Lemma maybe_advance_commit_all l n :
  n_role n = Leader l → (∀ p k, match_index l !! p = Some k → k ≤ last_index (n_storage n)) →
  wlp maybe_advance_commit (λ _, commits_all l n) n.
Proof.
  intros Hl Hmatch. eapply wpp_mono; [by apply maybe_advance_commit_rule|].
  intros [] n' Hr Ht Hm. set (last := last_index (n_storage n)) in *.
  destruct Hr as [(c & [Hc Hmax] & ->)|[Hno _]]; [|specialize (Hno last); lia].
  assert (last ≤ c) as Hle by (apply N.le_ngt; intros Hlt%Hmax; lia).
  assert (c ≤ last) as Hge.
  { apply N.le_ngt. intros Hlt. unfold holders in Hc. rewrite count_if_none in Hc.
    { unfold majority, majority_of in Hc. lia. }
    intros x _. unfold holds. fold last. case_bool_decide; apply bool_decide_eq_false; [lia|].
    destruct (match_index l !! x) as [k|] eqn:E; simpl; [apply Hmatch in E; lia|lia]. }
  assert (c = last) as -> by lia. rewrite Ht, (bool_decide_eq_true_2 (Some _ = _)), andb_true_r by done.
  case_bool_decide; lia.
Qed.

(** A rejection steps back, at most to the entry before the batch, and tries
    again. *)
Lemma on_append_reply_back l n j prev cnt seq r :
  n_role n = Leader l → is_member n j = true → aer_term r ≤ cur_term n → aer_success r = false →
  wlp (on_append_reply (cur_term n) j prev cnt seq r) (λ _ n', ∃ l',
    match_index l' = match_index l ∧
    next_index l' = <[j := N.min (default 1 (next_index l !! j)) (N.max prev 1)]> (next_index l) ∧
    presides l' (set_role (Leader l') n) n' ∧ n_storage n' = n_storage n ∧ sent_last n' l' j) n.
Proof.
  intros Hl Hm Ht Hf. unfold on_append_reply. do 2 walk_step.
  rewrite bool_decide_eq_false_2, (bool_decide_eq_false_2 (_ ≠ _)) by (lia || naive_solver).
  rewrite Hl, Hf. unfold note_append_reply. cbv beta iota zeta.
  match goal with |- context [set_leader ?x] => set (l' := x) end. unfold set_leader, when. cbv iota.
  do 7 walk_step. set (n1 := set_role (Leader l') n).
  eapply wpp_mono; [by apply (send_append_exact n1 l')|]. intros [] n2 (req & tag & Hr & ->).
  unfold resolve_reads, set_leader, emits. do 2 walk_step.
  change (n_role (set_effects (n_effects n1 ++ [SendRpc j req tag]) n1)) with (Leader l'). cbv iota. do 3 walk_step.
  exists l'. split; [done|]. split; [done|]. split; [|split; [done|]].
  - split; nsimpl; try done; [by eexists|unfold n1; nsimpl; eexists; by rewrite <-!app_assoc|by left].
  - eexists req, tag, (n_effects n1), _. split; [exact Hr|]. split; [nsimpl; by rewrite <-app_assoc|].
    intros e He. apply list_elem_of_fmap in He as (x & -> & _). by intros [].
Qed.

(** A publication of the membership changes nothing here. *)
Lemma publish_membership_frame n :
  wlp publish_membership (λ _ n', ∃ v es, n' = set_effects (n_effects n ++ es) (set_membership_tx v n)) n.
Proof.
  unfold publish_membership, emit. walk.
  - by eexists _, _.
  - exists (n_membership_tx n), []. rewrite app_nil_r. by destruct n.
Qed.
Lemma publish_when_frame b n :
  wlp (when b publish_membership)
    (λ _ n', ∃ v es, n' = set_effects (n_effects n ++ es) (set_membership_tx v n)) n.
Proof.
  destruct b; [apply publish_membership_frame|]. apply wpp_ret. exists (n_membership_tx n), [].
  rewrite app_nil_r. by destruct n.
Qed.

(** The bookkeeping after new progress: the leader counts again. *)
Lemma recount l n :
  n_role n = Leader l → is_member n (self n) = true →
  (∀ p k, match_index l !! p = Some k → k ≤ last_index (n_storage n)) →
  wlp maybe_advance_commit (λ _ n', presides l n n' ∧ commits_all l n n') n.
Proof.
  intros Hl Hm Hmatch. pose proof (maybe_advance_commit_presides l n Hl Hm) as H1.
  pose proof (maybe_advance_commit_all l n Hl Hmatch) as H2. unfold wpp in *.
  by destruct (maybe_advance_commit n) as [[[] n']|].
Qed.

(** A success is recorded. *)
Lemma on_append_reply_success l n j prev cnt seq r :
  n_role n = Leader l → is_member n j = true → is_member n (self n) = true →
  (∀ p k, match_index l !! p = Some k → k ≤ last_index (n_storage n)) →
  prev + cnt ≤ last_index (n_storage n) →
  aer_term r ≤ cur_term n → aer_success r = true →
  wlp (on_append_reply (cur_term n) j prev cnt seq r) (λ _ n', ∃ l' held,
    match_index l' = <[j := held]> (match_index l) ∧ prev + cnt ≤ held ≤ last_index (n_storage n) ∧
    presides l' (set_role (Leader l') n) n' ∧ commits_all l' (set_role (Leader l') n) n') n.
Proof.
  intros Hl Hm Hself Hmatch Hbound Ht Hf. unfold on_append_reply. do 2 walk_step.
  rewrite bool_decide_eq_false_2, (bool_decide_eq_false_2 (_ ≠ _)) by (lia || naive_solver).
  rewrite Hl, Hf. destruct (note_append_reply n l j prev cnt seq true) as [[l' resend] departed] eqn:Hnote.
  assert (∃ held, match_index l' = <[j := held]> (match_index l) ∧ prev + cnt ≤ held ≤ last_index (n_storage n))
    as (held & Em & Hheld).
  { unfold note_append_reply in Hnote. exists (if bool_decide (default 0 (match_index l !! j) < prev + cnt)
      then prev + cnt else default 0 (match_index l !! j)).
    assert (default 0 (match_index l !! j) ≤ last_index (n_storage n)).
    { destruct (match_index l !! j) as [k|] eqn:E; simpl; [by eapply Hmatch|lia]. }
    split; [by case_match; simplify_eq/=|]. case_bool_decide; lia. }
  assert (∀ p k, match_index l' !! p = Some k → k ≤ last_index (n_storage n)) as Hmatch'.
  { intros p k. rewrite Em, lookup_insert_Some. intros [[_ <-]|[_ ?]]; [lia|by eapply Hmatch]. }
  unfold set_leader. do 2 walk_step. set (n1 := set_role (Leader l') n). walk_step.
  eapply wpp_mono; [apply publish_when_frame|]. intros [] n2 (v & es & ->). simpl. walk_step.
  eapply wpp_mono; [by apply (recount l')|]. intros [] n3 [Hp Hc]. walk_step.
  apply (wpp_mono _ _ (λ _ n4, presides l' n1 n4 ∧ commits_all l' n1 n4)).
  - assert (presides l' n1 n3) as Hp3.
    { destruct Hp as [? ? ? ? ? ? ? [es' E] Hpend]. split; try done. nsimpl. rewrite E. eexists. by rewrite <-app_assoc. }
    destruct (ps_role _ _ _ Hp3) as [rs Hr3]. destruct resend; [|by apply wpp_ret].
    eapply wpp_mono; [apply (send_append_exact n3 (set_pending_reads rs l')); [exact Hr3|]|].
    { unfold is_member. by rewrite (ps_members _ _ _ Hp3). }
    intros [] n4 (req & tag & _ & ->). split; [by eapply presides_then; [exact Hp3|..]|exact Hc].
  - intros [] n4 [Hp4 Hc4]. pose proof (resolve_reads_presides l' n1 n4 Hp4) as Hw.
    assert (wlp resolve_reads (λ _ n', n_commit_index n' = n_commit_index n4) n4) as Hw2.
    { unfold resolve_reads, set_leader, emits. by walk. }
    unfold wpp in *. destruct (resolve_reads n4) as [[[] n5]|]; [|done].
    exists l', held. split; [done|]. split; [done|]. split; [done|].
    intros H1 H2. rewrite Hw2. by apply Hc4.
Qed.

(** A snapshot that has arrived is recorded, and the rest of the log sent. *)
Lemma on_snapshot_reply_next l n j lii r :
  n_role n = Leader l → is_member n j = true → is_member n (self n) = true →
  (∀ p k, match_index l !! p = Some k → k ≤ last_index (n_storage n)) →
  lii ≤ last_index (n_storage n) → isr_term r ≤ cur_term n →
  wlp (on_snapshot_reply (cur_term n) j lii r) (λ _ n', ∃ l',
    match_index l' = <[j := N.max (default 0 (match_index l !! j)) lii]> (match_index l) ∧
    next_index l' = <[j := N.max (default 1 (next_index l !! j)) (lii + 1)]> (next_index l) ∧
    presides l' (set_role (Leader l') n) n' ∧ commits_all l' (set_role (Leader l') n) n' ∧
    (lii < last_index (n_storage n) → sent_last n' l' j)) n.
Proof.
  intros Hl Hm Hself Hmatch Hbound Ht. unfold on_snapshot_reply. do 2 walk_step.
  rewrite bool_decide_eq_false_2, (bool_decide_eq_false_2 (_ ≠ _)) by (lia || naive_solver).
  rewrite Hl. destruct (note_snapshot_reply n l j lii) as [l' departed] eqn:Hnote.
  assert (match_index l' = <[j := N.max (default 0 (match_index l !! j)) lii]> (match_index l) ∧
    next_index l' = <[j := N.max (default 1 (next_index l !! j)) (lii + 1)]> (next_index l)) as [Em En].
  { unfold note_snapshot_reply in Hnote. by injection Hnote as <- _. }
  assert (∀ p k, match_index l' !! p = Some k → k ≤ last_index (n_storage n)) as Hmatch'.
  { intros p k. rewrite Em, lookup_insert_Some. intros [[_ <-]|[_ ?]]; [|by eapply Hmatch].
    destruct (match_index l !! j) as [q|] eqn:E; simpl; [apply Hmatch in E|]; lia. }
  unfold set_leader. do 2 walk_step. set (n1 := set_role (Leader l') n). walk_step.
  eapply wpp_mono; [apply publish_when_frame|]. intros [] n2 (v & es & ->). walk_step.
  eapply wpp_mono; [by apply (recount l')|]. intros [] n3 [Hp Hc].
  assert (presides l' n1 n3) as Hp3.
  { destruct Hp as [? ? ? ? ? ? ? [es' E] Hpend]. split; try done. nsimpl. rewrite E. eexists. by rewrite <-app_assoc. }
  destruct (ps_role _ _ _ Hp3) as [rs Hr3]. case_bool_decide as Hlast; simpl.
  - eapply wpp_mono; [apply (send_append_exact n3 (set_pending_reads rs l')); [exact Hr3|]|].
    { unfold is_member. by rewrite (ps_members _ _ _ Hp3). }
    intros [] n4 (req & tag & Hreq & ->). exists l'. do 2 (split; [done|]).
    split; [by eapply presides_then; [exact Hp3|..]|]. split; [exact Hc|]. intros _.
    exists req, tag, (n_effects n3), []. split; [exact Hreq|]. split; [done|]. by intros e ?%elem_of_nil.
  - apply wpp_ret. exists l'. by do 4 (split; [done|]).
Qed.
End presiding.

(** ** The handlers of the follower *)
Section following.
Context `{J : SerdeJson} {SM : Type} `{!StateMachine SM}.
Implicit Types n : RaftNode SM.

(** Only [become_follower] writes the hard state here. *)
Section hard_state.
Context (h : HardState).
#[local] Abbreviation keeps m := (∀ n, hs n = h → wlp m (λ _ n', hs n' = h) n).
#[local] Ltac hs_walk := intros; unfold hs in *; walk; try done.

Lemma storage_op_hs op :
  (∀ s s', op s = Ok s' → st_hard_state s' = st_hard_state s) → keeps (storage_op op).
Proof.
  intros Hop n Hn. unfold storage_op, emit. walk; [|done].
  match goal with H : op _ = Ok _ |- _ => unfold hs in *; nsimpl; by rewrite (Hop _ _ H) end.
Qed.
Lemma append_hs es : keeps (storage_op (append es)).
Proof. apply storage_op_hs. intros s s'. apply append_hard_state. Qed.
Lemma truncate_hs k : keeps (storage_op (truncate_from k)).
Proof. apply storage_op_hs. intros s s'. apply truncate_hard_state. Qed.
Lemma compact_hs k v ms : keeps (storage_op (compact_to k v ms)).
Proof. apply storage_op_hs. intros s s'. apply compact_hard_state. Qed.
Lemma install_hs snap : keeps (storage_op (install_snapshot snap)).
Proof. apply storage_op_hs. intros s s'. apply install_hard_state. Qed.
Lemma resolve_pending_hs : keeps resolve_pending.
Proof. unfold resolve_pending, emits. by hs_walk. Qed.
Lemma publish_membership_hs : keeps publish_membership.
Proof. unfold publish_membership, emit. by hs_walk. Qed.
#[local] Hint Resolve append_hs truncate_hs compact_hs install_hs resolve_pending_hs publish_membership_hs : handlers.
Lemma adopt_membership_hs ms k : keeps (adopt_membership ms k).
Proof. intros n Hn. unfold adopt_membership, set_leader. by walk. Qed.
#[local] Hint Resolve adopt_membership_hs : handlers.
Lemma rescan_membership_hs : keeps rescan_membership.
Proof. intros n Hn. unfold rescan_membership. by walk. Qed.
Lemma maybe_compact_hs : keeps maybe_compact.
Proof. intros n Hn. unfold maybe_compact. by walk. Qed.
Lemma resolve_reads_hs : keeps resolve_reads.
Proof. intros n Hn. unfold resolve_reads, set_leader, emits. by walk. Qed.
#[local] Hint Resolve rescan_membership_hs maybe_compact_hs resolve_reads_hs : handlers.
Lemma apply_committed_hs : keeps apply_committed.
Proof.
  intros n Hn. unfold apply_committed. do 3 walk_step. eapply wpp_mono; [apply apply_loop_frame|].
  intros [] n1 (sm & la & ->). assert (hs (set_state_machine sm (set_last_applied la n)) = h) by done. by walk.
Qed.
Lemma walk_entries_hs es : keeps (walk_entries es).
Proof. induction es as [|e es IH]; intros n Hn; simpl; by walk. Qed.
#[local] Hint Resolve apply_committed_hs walk_entries_hs : handlers.
Lemma accept_entries_hs args : keeps (accept_entries args).
Proof. intros n Hn. unfold accept_entries. by walk. Qed.
End hard_state.

Lemma prev_matches_stored n n' args h :
  n_storage n' = save_hard_state h (n_storage n) → prev_matches n' args = prev_matches n args.
Proof. intros E. unfold prev_matches. by rewrite E. Qed.

Lemma stepped_down_saves t ldr n n' :
  stepped_down t ldr n n' → cur_term n ≤ t →
  cur_term n' = t ∧ ∃ h, n_storage n' = save_hard_state h (n_storage n).
Proof.
  intros [_ Es _ _ _ _ _ _ _ _ _ _ _ _] Ht. unfold cur_term in *. rewrite Es. case_bool_decide; simpl.
  - split; [done|by eexists].
  - split; [lia|]. exists (st_hard_state (n_storage n)). by destruct (n_storage n).
Qed.

(** A batch from a leader that is not behind is accepted exactly when the
    entry before it matches. *)
Lemma handle_append_entries_answer n args :
  cur_term n ≤ ae_term args →
  wlp (handle_append_entries args) (λ r n', cur_term n' = ae_term args ∧
    r = MkAppendEntriesReply (ae_term args) (prev_matches n args)) n.
Proof.
  intros Ht. unfold handle_append_entries. do 2 walk_step. rewrite bool_decide_eq_false_2 by lia. walk_step.
  eapply wpp_mono; [by apply become_follower_wp|]. intros [] n1 Hs.
  destruct (stepped_down_saves _ _ _ _ Hs Ht) as (Et & h & Es). do 4 walk_step.
  rewrite (prev_matches_stored n _ args h) by exact Es. rewrite <-Et.
  destruct (prev_matches n args); simpl; [|by apply wpp_ret]. walk_step.
  eapply wpp_mono; [by apply (accept_entries_hs (hs n1))|]. intros [] n2 Hh. do 3 walk_step.
  apply (wpp_mono _ _ (λ _ n3, hs n3 = hs n1)); [|intros [] n3 E; apply wpp_ret; unfold cur_term; unfold hs in E; by rewrite E].
  walk_step; [|done]. do 2 walk_step. by apply apply_committed_hs.
Qed.

Lemma handle_install_snapshot_answer n args :
  cur_term n ≤ is_term args →
  wlp (handle_install_snapshot args) (λ r n', cur_term n' = is_term args ∧
    r = MkInstallSnapshotReply (is_term args)) n.
Proof.
  intros Ht. unfold handle_install_snapshot. do 2 walk_step. rewrite bool_decide_eq_false_2 by lia. walk_step.
  eapply wpp_mono; [by apply become_follower_wp|]. intros [] n1 Hs.
  destruct (stepped_down_saves _ _ _ _ Hs Ht) as (Et & h & Es). rewrite <-Et.
  do 4 walk_step. walk_step; [by apply wpp_ret|].
  walk_step. eapply wpp_mono; [by apply (install_hs (hs n1))|]. intros [] n2 Hh. walk_step. walk_step; [|done].
  do 5 walk_step. do 2 walk_step. eapply wpp_mono; [by apply (rescan_membership_hs (hs n1))|].
  intros [] n3 Hh3. unfold emits. do 7 walk_step. eapply wpp_mono; [by apply (resolve_pending_hs (hs n1))|].
  intros [] n4 Hh4. apply wpp_ret. unfold cur_term. unfold hs in Hh4. by rewrite Hh4.
Qed.
End following.

(** ** Rounds between a leader and a follower *)
Section rounds.
Context `{J : SerdeJson} {SM : Type} `{!StateMachine SM} {Laws : StateMachineLaws} (sm0 : SM).
Context (ids : gset N) (cfg : NodeId → RaftConfig).
Context (Hcfg : static_config ids cfg) (Hok : configs_ok (nodes := ids) cfg).
Implicit Types (w : World (SM := SM)) (n : RaftNode SM) (l : LeaderState) (a : Abs).
#[local] Abbreviation sound := (sound sm0 ids cfg).

Lemma node_ids w i n : sound w → w_nodes w !! i = Some n → i ∈ ids ∧ self n = i ∧ dom (n_members n) = ids.
Proof.
  intros Hs Hi. destruct (so_rel _ _ _ _ Hs) as [a Hw]. pose proof (wr_nodes _ _ _ _ _ Hw _ _ Hi) as Hr.
  split; [exact (wr_ids _ _ _ _ _ Hw _ _ Hi)|]. split; [apply Hr|by eapply sound_members].
Qed.
(** What a leader's books say is true of the log. *)
Record books n l : Prop := {
  bk_next p k : next_index l !! p = Some k → 1 ≤ k ≤ last_index (n_storage n) + 1;
  bk_match p k : match_index l !! p = Some k → k ≤ last_index (n_storage n);
  bk_last_term : term (n_storage n) (last_index (n_storage n)) = Some (cur_term n);
  bk_bounds : snapshot_index (n_storage n) ≤ last_index (n_storage n);
}.

Lemma leader_books w i n l :
  sound w → w_nodes w !! i = Some n → n_role n = Leader l → books n l.
Proof.
  intros [_ [a Hw] _ Hwf] Hi Hl. pose proof (wr_nodes _ _ _ _ _ Hw _ _ Hi) as Hr.
  pose proof (core_role _ _ (wf_core _ _ (Hwf _ _ Hi))) as Hok'. rewrite Hl in Hok'. destruct Hok' as [Hn Hm Hs].
  split; [done|done| |unfold last_index; lia].
  pose proof (dr_repr _ _ _ _ _ (nr_durable _ _ _ _ _ Hr)) as Hrepr.
  pose proof (nr_role _ _ _ _ _ Hr) as Hrole. rewrite Hl in Hrole. destruct Hrole as (_ & _ & _ & Hone & Hown).
  rewrite (repr_term _ _ _ _ Hrepr) by (unfold last_index; lia).
  rewrite (repr_last_index _ _ _ Hrepr) in *. rewrite g_term_pos by lia.
  destruct (lookup_lt_is_Some_2 (a_log a i) (N.to_nat (g_len (a_log a i) - 1))) as [e He]; [unfold g_len in *; lia|].
  rewrite He. simpl. f_equal. eapply Hown; [exact He|]. lia.
Qed.

(** The length of the batch. *)
Lemma entries_from_length s next :
  snapshot_index s < next → next ≤ last_index s + 1 →
  next - 1 + N.of_nat (length (entries_from s next)) = last_index s.
Proof.
  intros H1 H2. unfold entries_from. rewrite length_drop. destruct (pos s next) as [p|] eqn:E; simpl.
  - apply pos_Some in E. unfold last_index in *. lia.
  - apply pos_None in E. lia.
Qed.

(** A follower that is not ahead has what the leader knows it to have. *)
Lemma known_prev_matches w i j n l nj args tag :
  sound w → w_nodes w !! i = Some n → n_role n = Leader l → w_nodes w !! j = Some nj →
  cur_term nj ≤ cur_term n → replication n l j = Some (AppendEntries args, tag) →
  ae_prev_log_index args ≤ match_of l j → prev_matches nj args = true.
Proof.
  intros Hs Hi Hl Hj Ht Hrep Hle. destruct (so_rel _ _ _ _ Hs) as [a Hw].
  pose proof (wr_inv _ _ _ _ _ Hw) as Ha.
  pose proof (wr_nodes _ _ _ _ _ Hw _ _ Hi) as Hr. pose proof (wr_nodes _ _ _ _ _ Hw _ _ Hj) as Hrj.
  pose proof (dr_repr _ _ _ _ _ (nr_durable _ _ _ _ _ Hr)) as Hrepr.
  pose proof (dr_repr _ _ _ _ _ (nr_durable _ _ _ _ _ Hrj)) as Hreprj.
  pose proof (nr_role _ _ _ _ _ Hr) as Hrole. rewrite Hl in Hrole. destruct Hrole as (HL & _ & Hm & _).
  assert (acked a j (cur_term n) (match_of l j)) as Hack.
  { unfold match_of. destruct (match_index l !! j) eqn:E; [by apply Hm|by left]. }
  unfold replication in Hrep. case_bool_decide as Hn; [by destruct (st_snapshot _)|].
  destruct (term (n_storage n) (next_of n l j - 1)) as [pt|] eqn:Hpt; [|done]. injection Hrep as <- <-.
  unfold prev_matches. simpl in *. set (prev := next_of n l j - 1) in *.
  rewrite (repr_term _ _ _ _ Hrepr) in Hpt by lia.
  assert (g_term (a_log a j) prev = Some pt) as Hg.
  { destruct (acked_le _ _ _ _ _ Hle Hack) as [E|(p & HA & Hk)]; [by rewrite E in *|].
    destruct (ai_ack_lead _ _ Ha _ HA) as (c & L & HL' & Hp). simpl in *. rewrite HL in HL'. injection HL' as <- <-.
    pose proof (ai_ack_kept _ _ Ha _ HA p) as [Hpj|(T & c' & L' & HT & _)]; [done| |].
    - simpl in Hpj. rewrite (g_term_prefix _ _ _ Hpj Hk), <-(g_term_prefix _ _ _ Hp Hk). exact Hpt.
    - simpl in HT. rewrite (dr_term _ _ _ _ _ (nr_durable _ _ _ _ _ Hrj)) in HT. unfold cur_term in *. lia. }
  destruct (decide (snapshot_index (n_storage nj) ≤ prev)).
  - rewrite (repr_term _ _ _ _ Hreprj), Hg by done. by apply bool_decide_eq_true.
  - assert (term (n_storage nj) prev = None) as -> by (apply term_None; lia). apply bool_decide_eq_true. lia.
Qed.

(** *** Sessions *)

(** Node [i] leads with the books [l], and [j] is not ahead of it. *)
Record session w i j n l : Prop := {
  se_leader : w_nodes w !! i = Some n;
  se_role : n_role n = Leader l;
  se_peer : ∃ nj, w_nodes w !! j = Some nj ∧ cur_term nj ≤ cur_term n;
  se_other : j ≠ i;
}.

(** [j] is being brought up to date: the last request to it is the one the
    leader's present state asks for. *)
Definition pumping w i j n l : Prop :=
  session w i j n l ∧
  ∃ req tag, replication n l j = Some (req, tag) ∧ last_request w i j = Some (MkRequest i j req tag).

(** What a round changes and what it does not. *)
Record carries i j w n l w' n' l' : Prop := {
  av_sound : sound w';
  av_session : session w' i j n' l';
  av_term : cur_term n' = cur_term n;
  av_last : last_index (n_storage n') = last_index (n_storage n);
  av_match k : k ≠ j → match_index l' !! k = match_index l !! k;
  av_others k : k ≠ i → k ≠ j → w_nodes w' !! k = w_nodes w !! k;
}.
Lemma carries_trans i j w n l w1 n1 l1 w2 n2 l2 :
  carries i j w n l w1 n1 l1 → carries i j w1 n1 l1 w2 n2 l2 → carries i j w n l w2 n2 l2.
Proof.
  intros [_ _ Et El Em Eo] [Hs Hse Et' El' Em' Eo']. split; [done|done|congruence|congruence| |].
  - intros k Hk. by rewrite Em', Em.
  - intros k ? ?. by rewrite Eo', Eo.
Qed.

(** A waiting proposal still waits, or is acknowledged in this iteration. *)
Definition waiting n n' : Prop := ∀ p, p ∈ n_pending n → p ∈ n_pending n' ∨ acknowledged p n'.
Definition advances i j w n l w' n' l' : Prop := carries i j w n l w' n' l' ∧ waiting n n'.

(** Everything is committed if a majority is known to hold it. *)
Definition all_commit i l n : Prop := ∀ Q, quorum ids Q → i ∈ Q →
  (∀ k, k ∈ Q → k ≠ i → last_index (n_storage n) ≤ match_of l k) →
  last_index (n_storage n) ≤ n_commit_index n.

Lemma quorum_holders i l n Q k :
  dom (n_members n) = ids → self n = i → quorum ids Q → i ∈ Q →
  k ≤ last_index (n_storage n) → (∀ p, p ∈ Q → p ≠ i → k ≤ match_of l p) →
  (majority n ≤ holders n l k)%nat.
Proof.
  intros Hd Hself [HQ Hsz] Hi Hlast Hm. unfold majority, majority_of, holders.
  replace (size (n_members n)) with (size ids) by (rewrite <-Hd; apply size_dom).
  etrans; [exact Hsz|]. rewrite count_keys. apply subseteq_size. intros p Hp.
  apply elem_of_filter. rewrite Hd. split; [|by apply HQ]. unfold holds. rewrite Hself.
  case_bool_decide as E; apply bool_decide_eq_true; [done|by apply Hm].
Qed.

(** One answer reaches the leader. *)
Lemma reply_advances w i j n l tag resp t (R : RaftNode SM → LeaderState → RaftNode SM → Prop) :
  sound w → session w i j n l → last_response w j i = Some (MkResponse j i tag resp) →
  (∀ n1, begun t n n1 → wlp (handle_event (event_of tag j (Ok resp))) (λ _ n', ∃ l',
     (∀ k, k ≠ j → match_index l' !! k = match_index l !! k) ∧
     presides l' (set_role (Leader l') n1) n' ∧ R n1 l' n') n1) →
  ∃ n1 n' l' rs, begun t n n1 ∧ R n1 l' n' ∧ presides l' (set_role (Leader l') n1) n' ∧
    act sm0 w (AResponse t j i) = Some (after w i n' (n_effects n') []) ∧
    advances i j w n l (after w i n' (n_effects n') []) n' (set_pending_reads rs l').
Proof.
  intros Hs [Hi Hl (nj & Hj & Ht) Hne] Hresp Hspec.
  destruct (act_response sm0 ids cfg Hcfg Hok w i j n tag resp t (λ n', ∃ n1 l', begun t n n1 ∧
    (∀ k, k ≠ j → match_index l' !! k = match_index l !! k) ∧
    presides l' (set_role (Leader l') n1) n' ∧ R n1 l' n') Hs Hi Hresp) as (n' & Hact & (n1 & l' & Hb & Hm & Hp & HR) & Hs').
  { intros n1 Hb. eapply wpp_mono; [by apply Hspec|]. intros _ n' (l' & ?). by exists n1, l'. }
  destruct (ps_role _ _ _ Hp) as [rs Hr]. exists n1, n', l', rs. do 4 (split; [done|]).
  destruct Hb as (st & es & _ & ->). destruct Hp as [? ? Hhs Hlast _ _ _ _ Hpend]. nsimpl.
  assert (cur_term n' = cur_term n) as Et by (unfold cur_term; unfold hs in Hhs; by rewrite Hhs).
  split; [split; [done| |done|done|done|]|].
  - split; [cbn [w_nodes after]; apply lookup_insert_eq|done| |done].
    exists nj. cbn [w_nodes after]. rewrite lookup_insert_ne, Et by done. done.
  - intros k Hk _. cbn [w_nodes after]. by rewrite lookup_insert_ne.
  - intros p Hp. apply Hpend; [done|]. by apply (wf_pending _ _ (so_wf _ _ _ _ Hs _ _ Hi)).
Qed.

(** *** The measure *)
Definition distance n l (j : NodeId) : N :=
  2 * (last_index (n_storage n) - snapshot_index (n_storage n)) +
  2 * (next_of n l j - (match_of l j + 1)) +
  (if bool_decide (next_of n l j ≤ snapshot_index (n_storage n)) then 1 else 0).

(** A round is over when the follower is known to hold everything. *)
Definition round_done i j n l : Prop :=
  match_index l !! j = Some (last_index (n_storage n)) ∧ all_commit i l n.

Lemma commits_all_commit w i n n1 t l' n' :
  sound w → w_nodes w !! i = Some n → (∃ l, n_role n = Leader l) → begun t n n1 →
  presides l' (set_role (Leader l') n1) n' → commits_all l' (set_role (Leader l') n1) n' →
  all_commit i l' n'.
Proof.
  intros Hs Hi [l Hl] (st & es & _ & ->) Hp Hc Q HQ HiQ Hm.
  destruct (node_ids _ _ _ Hs Hi) as (Hin & Hself & Hdom). pose proof (leader_books _ _ _ _ Hs Hi Hl) as Hb.
  pose proof (ps_last _ _ _ Hp) as Hlast. nsimpl. rewrite Hlast in *. apply Hc; [apply Hb|].
  apply (quorum_holders i l' _ Q); [exact Hdom|exact Hself|done|done|done|exact Hm].
Qed.

(** The request is answered at the leader's term. *)
Lemma request_answered w i j n l req tag t :
  sound w → session w i j n l → last_request w i j = Some (MkRequest i j req tag) →
  (∀ nj n1, w_nodes w !! j = Some nj → begun t nj n1 →
     wlp (handle_inbound req) (λ resp n', cur_term n' = cur_term n) n1) →
  ∀ Q, (∀ nj n1, w_nodes w !! j = Some nj → begun t nj n1 → wlp (handle_inbound req) (λ resp _, Q nj resp) n1) →
  ∃ nj resp w1, w_nodes w !! j = Some nj ∧ Q nj resp ∧ act sm0 w (ARequest t i j) = Some w1 ∧
    sound w1 ∧ session w1 i j n l ∧ last_response w1 j i = Some (MkResponse j i tag resp) ∧
    (∀ k, k ≠ j → w_nodes w1 !! k = w_nodes w !! k).
Proof.
  intros Hs [Hi Hl (nj & Hj & Ht) Hne] Hreq Hterm Q HQ.
  destruct (act_request sm0 ids cfg Hcfg Hok w i j nj req tag t
    (λ resp n', cur_term n' = cur_term n ∧ Q nj resp) Hs Hj Hreq) as (resp & n' & Hact & [Et HQ'] & Hs').
  { intros n1 Hb. specialize (Hterm nj n1 Hj Hb). specialize (HQ nj n1 Hj Hb). unfold wpp in *.
    by destruct (handle_inbound req n1) as [[]|]. }
  eexists nj, resp, _. split; [done|]. split; [done|]. split; [exact Hact|]. split; [done|]. split.
  - split; [cbn [w_nodes after]; by rewrite lookup_insert_ne|done| |done].
    exists n'. cbn [w_nodes after]. rewrite lookup_insert_eq. split; [done|lia].
  - split; [apply last_response_answer|]. intros k Hk. cbn [w_nodes after]. by rewrite lookup_insert_ne.
Qed.

(** What one round trip achieves. *)
Definition round_trip t i j w n l : Prop :=
  ∃ w1 w2 n' l', act sm0 w (ARequest t i j) = Some w1 ∧ act sm0 w1 (AResponse t j i) = Some w2 ∧
    advances i j w n l w2 n' l' ∧
    (round_done i j n' l' ∨ pumping w2 i j n' l' ∧ distance n' l' j < distance n l j).

Lemma advances_from i j w w1 n l w' n' l' :
  (∀ k, k ≠ j → w_nodes w1 !! k = w_nodes w !! k) → advances i j w1 n l w' n' l' → advances i j w n l w' n' l'.
Proof. intros Hk [[] Hw]. split; [|done]. split; try done. intros k ? ?. rewrite <-Hk by done. auto. Qed.

(** After the leader has sent its last word, [j] is being served. *)
Lemma pumping_after w i j n n' l l' rs :
  advances i j w n l (after w i n' (n_effects n') []) n' (set_pending_reads rs l') → sent_last n' l' j →
  pumping (after w i n' (n_effects n') []) i j n' (set_pending_reads rs l').
Proof.
  intros Hav (req & tag & es1 & es2 & Hr & He & Hno). split; [apply (proj1 Hav)|].
  exists req, tag. split; [exact Hr|]. by eapply last_request_sent.
Qed.

(** *** The three answers *)
Definition reply_leads t i j w n l (P : World (SM := SM) → RaftNode SM → LeaderState → Prop) : Prop :=
  ∃ w' n' l', act sm0 w (AResponse t j i) = Some w' ∧ advances i j w n l w' n' l' ∧ P w' n' l'.
Definition closer i j n l w' n' l' : Prop :=
  round_done i j n' l' ∨ pumping w' i j n' l' ∧ distance n' l' j < distance n l j.

Lemma session_members w i j n l :
  sound w → session w i j n l → is_member n i = true ∧ is_member n j = true ∧ self n = i.
Proof.
  intros Hs [Hi _ (nj & Hj & _) _]. destruct (node_ids _ _ _ Hs Hi) as (Hin & Hself & Hdom).
  destruct (node_ids _ _ _ Hs Hj) as (Hjin & _). by rewrite !(member_ids _ _ _ Hdom).
Qed.

Lemma reply_success w i j n l prev cnt seq t :
  sound w → session w i j n l → prev + cnt = last_index (n_storage n) →
  last_response w j i = Some (MkResponse j i (TagAppend (cur_term n) prev cnt seq)
    (AppendEntriesResp (MkAppendEntriesReply (cur_term n) true))) →
  reply_leads t i j w n l (λ w', closer i j n l w').
Proof.
  intros Hs Hse Hlen Hresp. pose proof (se_leader _ _ _ _ _ Hse) as Hi. pose proof (se_role _ _ _ _ _ Hse) as Hl.
  pose proof (leader_books _ _ _ _ Hs Hi Hl) as Hbk. destruct (session_members _ _ _ _ _ Hs Hse) as (Hmi & Hmj & Hself).
  destruct (reply_advances w i j n l _ _ t (λ n1 l' n', match_index l' !! j = Some (last_index (n_storage n)) ∧
    commits_all l' (set_role (Leader l') n1) n') Hs Hse Hresp)
    as (n1 & n' & l' & rs & Hb & [Hm Hc] & Hp & Hact & Hav).
  { intros n1 (st & es & _ & ->). simpl. eapply wpp_mono.
    - apply (on_append_reply_success l (set_now t (set_status_tx st (set_effects es n))));
        [exact Hl|exact Hmj|unfold self; nsimpl; by rewrite <-Hself in Hmi| |nsimpl; lia|done|done].
      intros p k Hk. exact (bk_match _ _ Hbk p k Hk).
    - intros [] n' (l' & held & Em & Hheld & Hp & Hc). nsimpl. exists l'. rewrite Em.
      split; [intros k Hk; by rewrite lookup_insert_ne|]. split; [done|].
      split; [rewrite lookup_insert_eq; f_equal; lia|done]. }
  eexists _, n', _. split; [exact Hact|]. split; [done|]. left.
  split; [rewrite (av_last _ _ _ _ _ _ _ _ (proj1 Hav)); exact Hm|].
  exact (commits_all_commit w i n n1 t l' n' Hs Hi (ex_intro _ l Hl) Hb Hp Hc).
Qed.

Lemma reply_back w i j n l cnt seq t :
  sound w → session w i j n l → snapshot_index (n_storage n) < next_of n l j →
  match_of l j < next_of n l j - 1 →
  last_response w j i = Some (MkResponse j i (TagAppend (cur_term n) (next_of n l j - 1) cnt seq)
    (AppendEntriesResp (MkAppendEntriesReply (cur_term n) false))) →
  reply_leads t i j w n l (λ w', closer i j n l w').
Proof.
  intros Hs Hse Hsn Hfar Hresp. pose proof (se_role _ _ _ _ _ Hse) as Hl.
  destruct (session_members _ _ _ _ _ Hs Hse) as (Hmi & Hmj & Hself).
  destruct (reply_advances w i j n l _ _ t (λ n1 l' n', match_index l' = match_index l ∧
    next_index l' = <[j := N.min (default 1 (next_index l !! j)) (N.max (next_of n l j - 1) 1)]> (next_index l) ∧
    n_storage n' = n_storage n ∧ sent_last n' l' j) Hs Hse Hresp)
    as (n1 & n' & l' & rs & Hb & (Em & En & Est & Hsent) & Hp & Hact & Hav).
  { intros n1 (st & es & _ & ->). simpl. eapply wpp_mono.
    - apply (on_append_reply_back l (set_now t (set_status_tx st (set_effects es n))));
        [exact Hl|exact Hmj|done|done].
    - intros [] n' (l' & Em & En & Hp & Est & Hsent). exists l'. by rewrite Em. }
  eexists _, n', _. split; [exact Hact|]. split; [done|]. right. split; [by eapply pumping_after|].
  unfold distance. rewrite Est. unfold match_of, next_of in *. simpl. rewrite Em, En, lookup_insert_eq. simpl.
  rewrite (bool_decide_eq_false_2 (default _ _ ≤ _)) by lia. case_bool_decide; lia.
Qed.

Lemma reply_snapshot w i j n l t :
  sound w → session w i j n l → next_of n l j ≤ snapshot_index (n_storage n) →
  last_response w j i = Some (MkResponse j i (TagSnapshot (cur_term n) (snapshot_index (n_storage n)))
    (InstallSnapshotResp (MkInstallSnapshotReply (cur_term n)))) →
  reply_leads t i j w n l (λ w', closer i j n l w').
Proof.
  intros Hs Hse Hsn Hresp. pose proof (se_leader _ _ _ _ _ Hse) as Hi. pose proof (se_role _ _ _ _ _ Hse) as Hl.
  pose proof (leader_books _ _ _ _ Hs Hi Hl) as Hbk. destruct (session_members _ _ _ _ _ Hs Hse) as (Hmi & Hmj & Hself).
  pose proof (bk_bounds _ _ Hbk) as Hbd. set (k := snapshot_index (n_storage n)) in *.
  destruct (reply_advances w i j n l _ _ t (λ n1 l' n',
    match_index l' = <[j := N.max (default 0 (match_index l !! j)) k]> (match_index l) ∧
    next_index l' = <[j := N.max (default 1 (next_index l !! j)) (k + 1)]> (next_index l) ∧
    commits_all l' (set_role (Leader l') n1) n' ∧
    (k < last_index (n_storage n) → sent_last n' l' j)) Hs Hse Hresp)
    as (n1 & n' & l' & rs & Hb & (Em & En & Hc & Hsent) & Hp & Hact & Hav).
  { intros n1 (st & es & _ & ->). simpl. eapply wpp_mono.
    - apply (on_snapshot_reply_next l (set_now t (set_status_tx st (set_effects es n))));
        [exact Hl|exact Hmj|unfold self; nsimpl; by rewrite <-Hself in Hmi| |exact Hbd|done].
      intros p q Hq. exact (bk_match _ _ Hbk p q Hq).
    - intros [] n' (l' & Em & En & Hp & Hc & Hsent). exists l'. rewrite Em.
      split; [intros q Hq; by rewrite lookup_insert_ne|done]. }
  eexists _, n', _. split; [exact Hact|]. split; [done|].
  assert (last_index (n_storage n') = last_index (n_storage n)) as Elast by exact (av_last _ _ _ _ _ _ _ _ (proj1 Hav)).
  assert (default 0 (match_index l !! j) ≤ last_index (n_storage n)) as Hml.
  { destruct (match_index l !! j) as [q|] eqn:E; simpl; [by apply (bk_match _ _ Hbk j)|lia]. }
  destruct (decide (k < last_index (n_storage n))) as [Hlt|Hge].
  - right. split; [by eapply pumping_after; [|apply Hsent]|].
    pose proof (bk_bounds _ _ (leader_books _ _ _ _ (av_sound _ _ _ _ _ _ _ _ (proj1 Hav))
      (se_leader _ _ _ _ _ (av_session _ _ _ _ _ _ _ _ (proj1 Hav))) (se_role _ _ _ _ _ (av_session _ _ _ _ _ _ _ _ (proj1 Hav))))) as Hbd'.
    pose proof (ps_snap _ _ _ Hp) as Hgrow. destruct Hb as (st & es & _ & ->). nsimpl. fold k in Hgrow.
    unfold distance. fold k. rewrite (bool_decide_eq_true_2 (next_of n l j ≤ k)), Elast in * by done.
    unfold match_of, next_of in *. simpl. rewrite Em, En, !lookup_insert_eq. simpl.
    assert (default 1 (next_index l !! j) ≤ k) by (destruct (next_index l !! j); simpl in *; lia).
    case_bool_decide; lia.
  - left. split; [simpl; rewrite Em, lookup_insert_eq; f_equal; lia|].
    exact (commits_all_commit w i n n1 t l' n' Hs Hi (ex_intro _ l Hl) Hb Hp Hc).
Qed.

(** *** A round trip *)
Lemma round_trip_append w i j n l args tag t :
  sound w → session w i j n l → replication n l j = Some (AppendEntries args, tag) →
  last_request w i j = Some (MkRequest i j (AppendEntries args) tag) → round_trip t i j w n l.
Proof.
  intros Hs Hse Hrep Hreq. pose proof Hse as [Hi Hl (nj & Hj & Ht) Hne].
  pose proof (leader_books _ _ _ _ Hs Hi Hl) as Hbk. pose proof Hrep as Hrep'.
  unfold replication in Hrep'. case_bool_decide as Hsn; [by destruct (st_snapshot _)|].
  destruct (term (n_storage n) (next_of n l j - 1)) as [pt|]; [|done]. injection Hrep' as <- <-.
  set (args := MkAppendEntriesArgs _ _ _ _ _ _) in *.
  assert (next_of n l j ≤ last_index (n_storage n) + 1) as Hnext.
  { unfold next_of. destruct (next_index l !! j) as [k|] eqn:E; simpl; [apply (bk_next _ _ Hbk) in E|]; lia. }
  pose proof (entries_from_length (n_storage n) (next_of n l j) ltac:(lia) Hnext) as Hlen.
  assert (∀ m n1, w_nodes w !! j = Some m → begun t m n1 → wlp (handle_inbound (AppendEntries args))
    (λ resp n', cur_term n' = cur_term n ∧
       resp = AppendEntriesResp (MkAppendEntriesReply (cur_term n) (prev_matches m args))) n1) as Hspec.
  { intros m n1 Hm (st & es & _ & ->). assert (m = nj) as -> by congruence. simpl. apply wpp_bind.
    eapply wpp_mono; [by apply handle_append_entries_answer|]. intros r n' [E ->]. by apply wpp_ret. }
  destruct (request_answered w i j n l _ _ t Hs Hse Hreq) with
    (Q := λ (m : RaftNode SM) resp, resp = AppendEntriesResp (MkAppendEntriesReply (cur_term n) (prev_matches m args)))
    as (nj' & resp & w1 & Hj' & -> & Hact1 & Hs1 & Hse1 & Hresp & Hsame).
  { intros m n1 Hm Hb. eapply wpp_mono; [by apply Hspec|]. by intros ? ? []. }
  { intros m n1 Hm Hb. eapply wpp_mono; [by apply Hspec|]. by intros ? ? []. }
  assert (nj' = nj) as -> by congruence.
  assert (reply_leads t i j w1 n l (λ w', closer i j n l w')) as (w2 & n' & l' & Hact2 & Hav & Hcl).
  { destruct (prev_matches nj args) eqn:Hprev; [by eapply reply_success|]. eapply reply_back; [done|done|lia| |done].
    apply N.lt_nge. intros Hle. pose proof (known_prev_matches _ _ _ _ _ _ _ _ Hs Hi Hl Hj Ht Hrep Hle). congruence. }
  exists w1, w2, n', l'. split; [done|]. split; [done|]. split; [by eapply advances_from|done].
Qed.

Lemma round_trip_snapshot w i j n l args tag t :
  sound w → session w i j n l → replication n l j = Some (InstallSnapshot args, tag) →
  last_request w i j = Some (MkRequest i j (InstallSnapshot args) tag) → round_trip t i j w n l.
Proof.
  intros Hs Hse Hrep Hreq. pose proof Hse as [Hi Hl (nj & Hj & Ht) Hne].
  unfold replication in Hrep. case_bool_decide as Hsn; [|by destruct (term _ _)].
  destruct (st_snapshot (n_storage n)) as [snap|] eqn:Esn; [|done]. injection Hrep as <- <-.
  assert (last_included_index snap = snapshot_index (n_storage n)) as Ek by (unfold snapshot_index; by rewrite Esn).
  set (args := MkInstallSnapshotArgs _ _ _) in *.
  assert (∀ m n1, w_nodes w !! j = Some m → begun t m n1 → wlp (handle_inbound (InstallSnapshot args))
    (λ resp n', cur_term n' = cur_term n ∧
       resp = InstallSnapshotResp (MkInstallSnapshotReply (cur_term n))) n1) as Hspec.
  { intros m n1 Hm (st & es & _ & ->). assert (m = nj) as -> by congruence. simpl. apply wpp_bind.
    eapply wpp_mono; [by apply handle_install_snapshot_answer|]. intros r n' [E ->]. by apply wpp_ret. }
  destruct (request_answered w i j n l _ _ t Hs Hse Hreq) with
    (Q := λ (m : RaftNode SM) resp, resp = InstallSnapshotResp (MkInstallSnapshotReply (cur_term n)))
    as (nj' & resp & w1 & Hj' & -> & Hact1 & Hs1 & Hse1 & Hresp & Hsame).
  { intros m n1 Hm Hb. eapply wpp_mono; [by apply (Hspec m)|]. by intros ? ? []. }
  { intros m n1 Hm Hb. eapply wpp_mono; [by apply (Hspec m)|]. by intros ? ? []. }
  rewrite Ek in Hresp. destruct (reply_snapshot w1 i j n l t Hs1 Hse1 Hsn Hresp) as (w2 & n' & l' & Hact2 & Hav & Hcl).
  exists w1, w2, n', l'. split; [done|]. split; [done|]. split; [by eapply advances_from|done].
Qed.

Lemma exchange w i j n l t : sound w → pumping w i j n l → round_trip t i j w n l.
Proof.
  intros Hs (Hse & req & tag & Hrep & Hreq). pose proof Hrep as Hrep'. unfold replication in Hrep'. case_bool_decide.
  - destruct (st_snapshot _); [|done]. simplify_eq/=. by eapply round_trip_snapshot.
  - destruct (term _ _); [|done]. simplify_eq/=. by eapply round_trip_append.
Qed.

(** *** Round trips until the follower has everything *)
Definition exchanges (t : Instant) (i j : NodeId) (k : nat) : list Action :=
  concat (replicate k [ARequest t i j; AResponse t j i]).

Lemma exchanges_S t i j k w w1 w2 :
  act sm0 w (ARequest t i j) = Some w1 → act sm0 w1 (AResponse t j i) = Some w2 →
  acts sm0 w (exchanges t i j (S k)) = acts sm0 w2 (exchanges t i j k).
Proof.
  intros H1 H2. change (exchanges t i j (S k)) with (ARequest t i j :: AResponse t j i :: exchanges t i j k).
  cbn [acts]. rewrite H1. cbn [mbind option_bind]. by rewrite H2.
Qed.

Lemma pump_terminates t i j w n l :
  sound w → pumping w i j n l →
  ∃ k w' n' l', (k ≤ S (N.to_nat (distance n l j)))%nat ∧ acts sm0 w (exchanges t i j k) = Some w' ∧
    carries i j w n l w' n' l' ∧ round_done i j n' l'.
Proof.
  remember (distance n l j) as d eqn:Hd. revert w n l Hd.
  induction d as [d IH] using (well_founded_induction N.lt_wf_0). intros w n l -> Hs Hp.
  destruct (exchange w i j n l t Hs Hp) as (w1 & w2 & n' & l' & Ha1 & Ha2 & [Hc _] & Hcase).
  destruct Hcase as [Hdone|[Hp2 Hlt]].
  - exists 1%nat, w2, n', l'. split; [lia|]. split; [by rewrite (exchanges_S _ _ _ _ _ _ _ Ha1 Ha2)|done].
  - destruct (IH _ Hlt w2 n' l' eq_refl (av_sound _ _ _ _ _ _ _ _ Hc) Hp2) as (k & w3 & n3 & l3 & Hk & Ha3 & Hc3 & Hdone).
    exists (S k), w3, n3, l3. split; [lia|]. split.
    + by rewrite (exchanges_S _ _ _ _ _ _ _ Ha1 Ha2).
    + split; [by eapply carries_trans|done].
Qed.

(** A read starts it. *)
Lemma read_pumps t i j w n l ch :
  sound w → session w i j n l →
  ∃ w' n' l', act sm0 w (ALocal t i (InRead ch)) = Some w' ∧ advances i j w n l w' n' l' ∧
    pumping w' i j n' l' ∧ distance n' l' j = distance n l j.
Proof.
  intros Hs Hse. pose proof Hse as [Hi Hl (nj & Hj & Ht) Hne].
  destruct (node_ids _ _ _ Hs Hi) as (Hin & Hself & Hdom). destruct (node_ids _ _ _ Hs Hj) as (Hjin & _).
  destruct (act_local sm0 ids cfg Hcfg Hok w i n (InRead ch) t (λ _ n', ∃ n1 l', begun t n n1 ∧
    (next_index l' = next_index l ∧ match_index l' = match_index l) ∧
    presides l' (set_role (Leader l') n1) n' ∧ n_storage n' = n_storage n ∧ sent_last n' l' j) Hs Hi)
    as (r & n' & Hact & (n1 & l' & Hb & [En Em] & Hp & Est & Hsent) & Hs'); [done|done| |].
  { intros n1 Hb. simpl. apply wpp_bind. pose proof Hb as (st & es & _ & ->).
    eapply wpp_mono; [by apply (handle_read_sends l)|]. intros [] n' (l' & Hnm & Hp & Est & Hsent). apply wpp_ret.
    eexists _, l'. split; [done|]. split; [done|]. split; [done|]. split; [done|].
    apply Hsent. unfold peer_ids. apply (peers_ids ids n); [done|done|]. by rewrite Hself. }
  destruct (ps_role _ _ _ Hp) as [rs Hr]. destruct Hb as (st & es & _ & ->). destruct Hp as [? ? Hhs Hlast _ _ _ _ Hpend]. nsimpl.
  assert (advances i j w n l (after w i n' (n_effects n') []) n' (set_pending_reads rs l')) as Hav.
  { split; [split; [done| |unfold cur_term; by rewrite Est|done| |]|].
    - split; [cbn [w_nodes after]; apply lookup_insert_eq|done| |done].
      exists nj. cbn [w_nodes after]. rewrite lookup_insert_ne by done. split; [done|]. unfold cur_term in *. by rewrite Est.
    - intros k _. simpl. by rewrite Em.
    - intros k Hk _. cbn [w_nodes after]. by rewrite lookup_insert_ne.
    - intros p Hp. apply Hpend; [done|]. by apply (wf_pending _ _ (so_wf _ _ _ _ Hs _ _ Hi)). }
  eexists _, n', _. split; [exact Hact|]. split; [exact Hav|]. split; [by eapply pumping_after|].
  unfold distance, next_of, match_of. simpl. by rewrite Est, En, Em.
Qed.

(** The follower's log contains the leader's. *)
Definition holds_log n (m : RaftNode SM) : Prop :=
  last_index (n_storage n) ≤ last_index (n_storage m) ∧
  ∀ k e, entry (n_storage n) k = Some e → snapshot_index (n_storage m) < k → entry (n_storage m) k = Some e.

Lemma match_holds w i j n l m :
  sound w → w_nodes w !! i = Some n → n_role n = Leader l → w_nodes w !! j = Some m →
  cur_term m ≤ cur_term n → match_index l !! j = Some (last_index (n_storage n)) → holds_log n m.
Proof.
  intros Hs Hi Hl Hj Ht Hm. destruct (so_rel _ _ _ _ Hs) as [a Hw]. pose proof (wr_inv _ _ _ _ _ Hw) as Ha.
  pose proof (wr_nodes _ _ _ _ _ Hw _ _ Hi) as Hr. pose proof (wr_nodes _ _ _ _ _ Hw _ _ Hj) as Hrj.
  pose proof (dr_repr _ _ _ _ _ (nr_durable _ _ _ _ _ Hr)) as Hrepr.
  pose proof (dr_repr _ _ _ _ _ (nr_durable _ _ _ _ _ Hrj)) as Hreprj.
  pose proof (nr_role _ _ _ _ _ Hr) as Hrole. rewrite Hl in Hrole. destruct Hrole as (HL & _ & Hack & _).
  assert (a_log a i `prefix_of` a_log a j) as Hp.
  { rewrite (repr_last_index _ _ _ Hrepr) in Hm. apply Hack in Hm as [E|(p & HA & Hk)].
    { destruct (a_log a i); [by apply prefix_nil|]. unfold g_len in E. simpl in E. lia. }
    destruct (ai_ack_lead _ _ Ha _ HA) as (c & L & HL' & Hp). simpl in *. rewrite HL in HL'. injection HL' as <- <-.
    assert (p = a_log a i) as -> by (apply prefix_length_eq; [done|unfold g_len in Hk; lia]).
    pose proof (ai_ack_kept _ _ Ha _ HA (a_log a i)) as [Hpj|(T & c' & L' & HT & _)]; [done|done|].
    simpl in HT. rewrite (dr_term _ _ _ _ _ (nr_durable _ _ _ _ _ Hrj)) in HT. unfold cur_term in *. lia. }
  split.
  - rewrite (repr_last_index _ _ _ Hrepr), (repr_last_index _ _ _ Hreprj).
    apply prefix_length in Hp. unfold g_len. lia.
  - intros k e He Hk. assert (snapshot_index (n_storage n) < k) as Hkn by (apply entry_is_Some; eauto).
    rewrite (repr_entry _ _ _ _ Hrepr) in He by done. rewrite (repr_entry _ _ _ _ Hreprj) by done.
    by eapply prefix_lookup_Some.
Qed.

(** [C12] Bringing a follower up to date terminates. In every reachable world,
    once the leader of a term talks to a member that is not ahead of it
    (starting with the requests a read makes it send), at most
    [4 * last_index + 2] round trips later it knows the member to hold its
    whole log, and the member does hold it: however far their logs have
    diverged, and whether or not the log is compacted on the way. Nothing
    but these two nodes has to move, and the clock need not advance. *)
Theorem replication_terminates w i j n l m t ch :
  reachable_world sm0 static_client cfg ids fresh_storage w →
  w_nodes w !! i = Some n → n_role n = Leader l → j ≠ i →
  w_nodes w !! j = Some m → cur_term m ≤ cur_term n →
  ∃ k w' n' l' m', (k ≤ 4 * N.to_nat (last_index (n_storage n)) + 2)%nat ∧
    acts sm0 w (ALocal t i (InRead ch) :: exchanges t i j k) = Some w' ∧
    w_nodes w' !! i = Some n' ∧ n_role n' = Leader l' ∧ cur_term n' = cur_term n ∧
    last_index (n_storage n') = last_index (n_storage n) ∧
    match_index l' !! j = Some (last_index (n_storage n)) ∧
    w_nodes w' !! j = Some m' ∧ holds_log n' m'.
Proof.
  intros Hs%(sound_reachable _ _ _ Hcfg Hok) Hi Hl Hne Hj Ht.
  assert (session w i j n l) as Hse by (split; [done|done|by exists m|done]).
  pose proof (leader_books _ _ _ _ Hs Hi Hl) as Hbk.
  destruct (read_pumps t i j w n l ch Hs Hse) as (w1 & n1 & l1 & Ha & [Hc1 _] & Hp & Hd).
  destruct (pump_terminates t i j w1 n1 l1 (av_sound _ _ _ _ _ _ _ _ Hc1) Hp) as (k & w2 & n2 & l2 & Hk & Hacts & Hc2 & [Hm _]).
  pose proof (carries_trans _ _ _ _ _ _ _ _ _ _ _ Hc1 Hc2) as [Hs2 [Hi2 Hl2 (m2 & Hj2 & Ht2) _] Et El _ _].
  exists k, w2, n2, l2, m2. split.
  - assert (next_of n l j ≤ last_index (n_storage n) + 1).
    { unfold next_of. destruct (next_index l !! j) as [q|] eqn:E; simpl; [apply (bk_next _ _ Hbk) in E|]; lia. }
    rewrite Hd in Hk. unfold distance in Hk. case_bool_decide; lia.
  - split; [cbn [acts]; rewrite Ha; exact Hacts|]. do 4 (split; [done|]). split; [by rewrite <-El|].
    split; [done|]. eapply match_holds; [exact Hs2|done..].
Qed.
End rounds.

(** ** On five nodes *)
Section five_nodes.
#[local] Existing Instances numeric_json counter_sm counter_laws.

(** Node 1 has just been elected; node 4 has heard nothing. *)
Definition elected : World (SM := N) := world_after (campaign 400 1 2 3).

Example replication_terminates_witness :
  ∃ k w', acts 0 elected (ALocal (from_millis 410) 1 (InRead 7) :: exchanges (from_millis 410) 1 4 k) = Some w' ∧
    holds_log (node_of w' 1) (node_of w' 4).
Proof.
  destruct (n_role (node_of elected 1)) as [| | |l] eqn:Hl; [vm_compute in Hl; discriminate Hl..|].
  destruct (replication_terminates 0 ids5 cfg5 cfg5_static cfg5_ok elected 1 4 (node_of elected 1) l
    (node_of elected 4) (from_millis 410) 7) as (k & w' & n' & l' & m' & _ & Hacts & Hi & _ & _ & _ & _ & Hj & Hh).
  - apply (acts_reachable (campaign 400 1 2 3)). vm_compute. reflexivity.
  - vm_compute. reflexivity.
  - exact Hl.
  - discriminate.
  - vm_compute. reflexivity.
  - vm_compute. discriminate.
  - exists k, w'. split; [exact Hacts|]. unfold node_of. rewrite Hi, Hj. exact Hh.
Defined.
End five_nodes.
