(* ===== verification/Elect.v ===== *)
(** * A majority can elect a leader

    From every reachable world of a static cluster, any majority of the
    nodes can elect a leader among themselves, without a crash and without
    the other nodes. Old leaders that no longer hear from anybody step down
    ([on_heartbeat_tick]'s CheckQuorum); the node with the most up-to-date
    log learns the highest term from a refused pre-vote; then pre-votes and
    votes of the group come in one by one. *)
From stdpp Require Import functions.
From S2P Require Import Prelude Types Rng Storage Node NodeSteps NodeLife NodeInv NodeThm Elections Cluster Runs Raft LogRepr Refine Safety Serve Reads Drive Replicate.
Open Scope N_scope.

(** ** The iterations of an election *)
Section iterations.
Context `{J : SerdeJson} {SM : Type} `{!StateMachine SM} {Laws : StateMachineLaws}.
Implicit Types (n : RaftNode SM) (l : LeaderState).

(** A leader that has heard from nobody within the window steps down. *)
Lemma heartbeat_steps_down n l :
  n_role n = Leader l → (2 ≤ size (n_members n))%nat →
  (∀ k x, last_contact l !! k = Some x → x + c_election_timeout_max (n_config n) ≤ n_now n) →
  wlp on_heartbeat_tick (λ _, stepped_down (cur_term n) None n) n.
Proof.
  intros Hl Hsz Hquiet. unfold on_heartbeat_tick. do 2 walk_step. rewrite Hl.
  rewrite bool_decide_eq_true_2; [by apply become_follower_wp|].
  unfold heard. rewrite count_if_none.
  - unfold majority, majority_of. pose proof (Nat.Div0.div_le_mono 2 (size (n_members n)) 2 Hsz) as Hd.
    change (2 / 2)%nat with 1%nat in Hd. case_match; lia.
  - intros k _. unfold heard_within. destruct (last_contact l !! k) as [x|] eqn:E; [|done].
    apply bool_decide_eq_false. unfold elapsed. specialize (Hquiet k x E). lia.
Qed.

(** The same request to every peer. *)
Lemma sent_to_peers ps req tag j :
  NoDup ps → j ∈ ps → ∃ es1 es2 : list Effect,
    ((λ p, SendRpc p req tag) <$> ps) = es1 ++ SendRpc j req tag :: es2 ∧ ∀ e, e ∈ es2 → ¬ sends_to j e.
Proof.
  intros Hnd (l1 & l2 & ->)%list_elem_of_split. rewrite fmap_app. simpl. eexists _, _. split; [reflexivity|].
  intros e (p & -> & Hp)%list_elem_of_fmap Hs. simpl in Hs. subst p.
  apply NoDup_app in Hnd as (_ & _ & [Hnd _]%NoDup_cons). done.
Qed.

(** What an election leaves alone. *)
Record same_log n n' : Prop := {
  sl_config : n_config n' = n_config n;
  sl_members : n_members n' = n_members n;
  sl_index : last_index (n_storage n') = last_index (n_storage n);
  sl_term : last_term (n_storage n') = last_term (n_storage n);
  sl_contact : n_last_leader_contact n' = n_last_leader_contact n;
}.

(** A role that is won when the votes suffice. *)
Definition leads_term n : Prop := ∃ l, n_role n = Leader l.

Lemma heard_all n l :
  n_role n = Leader l → is_member n (self n) = true → 0 < c_election_timeout_max (n_config n) →
  (∀ p, p ∈ peer_ids n → last_contact l !! p = Some (n_now n)) → (majority n ≤ heard n l)%nat.
Proof.
  intros Hl Hm Hpos Hc. unfold heard. rewrite Hm, count_if_all.
  - pose proof (Permutation_length (members_split n)) as Hp. rewrite Hm, length_app, length_btree_keys in Hp. simpl in Hp.
    unfold majority, majority_of. pose proof (Nat.div_mod_eq (size (n_members n)) 2).
    pose proof (Nat.mod_upper_bound (size (n_members n)) 2). lia.
  - intros p Hp. unfold heard_within. rewrite (Hc p Hp). apply bool_decide_eq_true. unfold elapsed. lia.
Qed.

Lemma maybe_become_leader_wins n votes :
  n_role n = Candidate votes → is_member n (self n) = true → 0 < c_election_timeout_max (n_config n) →
  wlp maybe_become_leader (λ _ n',
    if bool_decide (count_member_votes n votes < majority n)%nat then n' = n
    else leads_term n' ∧ cur_term n' = cur_term n) n.
Proof.
  intros Hr Hm Hpos. unfold maybe_become_leader. do 2 walk_step. rewrite Hr.
  case_bool_decide as Hc; [by apply wpp_ret|].
  unfold set_leader. match goal with |- context [set_role (Leader ?x)] => set (l := x) end. do 4 walk_step.
  walk_step. eapply (wpp_mono _ _ (λ _ n1, n_role n1 = Leader l ∧ n_config n1 = n_config n ∧
    n_members n1 = n_members n ∧ n_now n1 = n_now n ∧ hs n1 = hs n)).
  { unfold storage_op, emit. walk; [|done]. do 4 (split; [done|]). unfold hs. nsimpl. by eapply append_hard_state. }
  intros [] n1 (Hl & Ec & Em & En & Eh). walk_step.
  eapply wpp_mono; [apply (maybe_advance_commit_presides l); [done|]|].
  { unfold is_member, self in *. by rewrite Ec, Em. }
  intros [] n2 Hp. destruct (ps_role _ _ _ Hp) as [rs Hl2].
  assert (n_config n2 = n_config n) as Ec2 by (by rewrite (ps_config _ _ _ Hp)).
  assert (n_members n2 = n_members n) as Em2 by (by rewrite (ps_members _ _ _ Hp)).
  assert (peer_ids n2 = peer_ids n) as Ep2 by (unfold peer_ids, self; by rewrite Ec2, Em2).
  assert (∀ x, is_member n2 x = is_member n x) as Emem by (intros; unfold is_member; by rewrite Em2).
  assert (self n2 = self n) as Es2 by (unfold self; by rewrite Ec2).
  unfold on_heartbeat_tick. do 2 walk_step. rewrite Hl2.
  rewrite bool_decide_eq_false_2.
  - unfold replication_targets. rewrite Hl2. change (departing (set_pending_reads rs l)) with (departing l).
    unfold l at 1. simpl. rewrite app_nil_r. walk_step.
    eapply wpp_mono; [apply (send_appends_exact _ _ _ Hl2)|].
    { intros p [_ Hk%elem_of_btree_keys]%list_elem_of_filter. by apply bool_decide_eq_true. }
    intros [] n3 (es & -> & _). walk_step. split; [by eexists|].
    unfold cur_term. nsimpl. pose proof (ps_hard _ _ _ Hp) as Eh2. unfold hs in *. by rewrite Eh2, Eh.
  - apply Nat.le_ngt, heard_all; [done|by rewrite Emem, Es2|by rewrite Ec2|].
    intros p Hpe. rewrite Ep2 in Hpe. unfold l. simpl. rewrite (ps_now _ _ _ Hp), En.
    apply lookup_gset_to_gmap_Some. split; [by apply elem_of_list_to_set|done].
Qed.

(** The last thing every peer was sent is [req]. *)
Definition asked n (req : RpcRequest) (tag : SentTag) : Prop := ∀ j, j ∈ peer_ids n →
  ∃ es1 es2, n_effects n = es1 ++ SendRpc j req tag :: es2 ∧ ∀ e, e ∈ es2 → ¬ sends_to j e.

(** Waiting for votes, or for pre-votes: the ones it has do not suffice. *)
Definition short n (votes : gset N) : Prop := self n ∈ votes ∧ (count_member_votes n votes < majority n)%nat.
Definition candidate n (votes : gset N) : Prop := n_role n = Candidate votes ∧ short n votes.
Definition pre_candidate n (votes : gset N) : Prop := n_role n = PreCandidate votes ∧ short n votes.

(** The outcome of starting an election. *)
Definition started n n' : Prop :=
  cur_term n' = cur_term n + 1 ∧
  (leads_term n' ∨
   same_log n n' ∧ candidate n' {[self n]} ∧
   asked n' (RequestVote (vote_args n' (cur_term n'))) (TagVote (cur_term n'))).

Lemma asked_all n req tag :
  asked (set_effects (n_effects n ++ ((λ p, SendRpc p req tag) <$> peer_ids n)) n) req tag.
Proof.
  intros j Hj. destruct (sent_to_peers (peer_ids n) req tag j) as (es1 & es2 & E & Hno).
  - apply NoDup_filter, NoDup_btree_keys.
  - exact Hj.
  - exists (n_effects n ++ es1), es2. split; [nsimpl; by rewrite E, app_assoc|done].
Qed.

Lemma start_election_starts n :
  is_member n (self n) = true → 0 < c_election_timeout_max (n_config n) →
  wlp start_election (λ _, started n) n.
Proof.
  intros Hm Hpos. unfold start_election, save_hs, storage_op, emit, emits. do 7 walk_step; [|done].
  match goal with H : Ok _ = Ok _ |- _ => injection H as <- end.
  do 8 walk_step. eapply wpp_mono; [by apply reset_election_timer_wp|].
  intros [] n1 (r & d & -> & _). do 4 walk_step.
  match goal with |- wpp _ maybe_become_leader _ ?x => set (n2 := x) end.
  assert (same_log n n2) as Hsame by (split; done).
  assert (cur_term n2 = cur_term n + 1) as Et by done.
  eapply wpp_mono; [apply (maybe_become_leader_wins n2 {[self n]}); [done|exact Hm|exact Hpos]|].
  intros [] n3. case_bool_decide as Hc.
  - intros ->. split; [done|]. right. split; [done|]. split.
    + split; [done|]. split; [|done]. apply elem_of_singleton. done.
    + apply asked_all.
  - intros [Hl Ht]. split; [by rewrite Ht|by left].
Qed.

Lemma maybe_start_election_starts n votes :
  n_role n = PreCandidate votes → is_member n (self n) = true → 0 < c_election_timeout_max (n_config n) →
  wlp maybe_start_election (λ _ n',
    if bool_decide (majority n ≤ count_member_votes n votes)%nat then started n n' else n' = n) n.
Proof.
  intros Hr Hm Hpos. unfold maybe_start_election. do 2 walk_step. rewrite Hr.
  case_bool_decide; [by apply start_election_starts|by apply wpp_ret].
Qed.

(** An election timeout. *)
Definition canvasses n n' : Prop :=
  same_log n n' ∧ cur_term n' = cur_term n ∧ pre_candidate n' {[self n]} ∧
  asked n' (PreVote (vote_args n' (cur_term n' + 1))) (TagPreVote (cur_term n' + 1)).

Lemma started_from n n1 n' :
  same_log n n1 → cur_term n1 = cur_term n → started n1 n' → started n n'.
Proof.
  intros [Ec Em Ei El Ek] Et [Ht [Hl|([] & Hc & Ha)]]; (split; [congruence|]); [by left|right].
  split; [split; congruence|]. split; [|done]. unfold self in *. by rewrite <-Ec.
Qed.

Lemma on_election_timeout_canvasses n :
  is_member n (self n) = true → 0 < c_election_timeout_max (n_config n) →
  wlp on_election_timeout (λ _ n', canvasses n n' ∨ started n n' ∧ (majority n ≤ 1)%nat) n.
Proof.
  intros Hm Hpos. unfold on_election_timeout, emits. do 2 walk_step. rewrite Hm. simpl. do 5 walk_step.
  eapply wpp_mono; [by apply reset_election_timer_wp|]. intros [] n1 (r & d & -> & _). do 4 walk_step.
  match goal with |- wpp _ maybe_start_election _ ?x => set (n2 := x) end.
  assert (same_log n n2) as Hsame by (split; done).
  assert (cur_term n2 = cur_term n) as Et by done.
  eapply wpp_mono; [apply (maybe_start_election_starts n2 {[self n]}); [done|exact Hm|exact Hpos]|].
  intros [] n3. case_bool_decide as Hc.
  - intros Hst. right. split; [by eapply started_from|]. etrans; [exact Hc|]. unfold count_member_votes.
    rewrite <-(size_singleton (C := gset N) (self n)). apply subseteq_size. set_solver.
  - intros ->. left. split; [done|]. split; [done|]. split; [|apply asked_all].
    split; [done|]. split; [by apply elem_of_singleton|]. unfold n2 in *. lia.
Qed.

(** The answers. *)
Lemma same_log_role r n : same_log n (set_role r n).
Proof. by split. Qed.

Lemma on_pre_vote_reply_higher n sent from r :
  cur_term n < rvr_term r →
  wlp (on_pre_vote_reply sent from r) (λ _, stepped_down (rvr_term r) None n) n.
Proof.
  intros Ht. unfold on_pre_vote_reply. do 2 walk_step. rewrite bool_decide_eq_true_2 by done.
  by apply become_follower_wp.
Qed.

(** One more vote, which does not suffice either. *)
Definition counts n n' : Prop := same_log n n' ∧ cur_term n' = cur_term n ∧ n_effects n' = n_effects n.

Lemma on_pre_vote_reply_granted n votes from r :
  pre_candidate n votes → is_member n (self n) = true → 0 < c_election_timeout_max (n_config n) →
  rvr_term r ≤ cur_term n → rvr_vote_granted r = true →
  wlp (on_pre_vote_reply (cur_term n + 1) from r) (λ _ n',
    counts n n' ∧ pre_candidate n' ({[from]} ∪ votes) ∨ started n n') n.
Proof.
  intros [Hr [Hself Hsh]] Hm Hpos Ht Hg. unfold on_pre_vote_reply. do 2 walk_step.
  rewrite bool_decide_eq_false_2, Hg, (bool_decide_eq_false_2 (_ ≠ _)), Hr by (lia || naive_solver). simpl.
  do 2 walk_step. set (n1 := set_role _ n).
  eapply wpp_mono; [by apply (maybe_start_election_starts n1 ({[from]} ∪ votes))|].
  intros [] n2. case_bool_decide as Hc.
  - intros Hst. right. by apply (started_from n n1); [apply same_log_role|..].
  - intros ->. left. split; [split; [apply same_log_role|done]|]. split; [done|]. unfold n1 in *.
    split; [by apply elem_of_union_r|lia].
Qed.

Lemma on_vote_reply_granted n votes from r :
  candidate n votes → is_member n (self n) = true → 0 < c_election_timeout_max (n_config n) →
  rvr_term r ≤ cur_term n → rvr_vote_granted r = true →
  wlp (on_vote_reply (cur_term n) from r) (λ _ n',
    counts n n' ∧ candidate n' ({[from]} ∪ votes) ∨ leads_term n' ∧ cur_term n' = cur_term n) n.
Proof.
  intros [Hr [Hself Hsh]] Hm Hpos Ht Hg. unfold on_vote_reply. do 2 walk_step.
  rewrite bool_decide_eq_false_2, Hg, (bool_decide_eq_false_2 (_ ≠ _)), Hr by (lia || naive_solver). simpl.
  do 2 walk_step. set (n1 := set_role _ n).
  eapply wpp_mono; [by apply (maybe_become_leader_wins n1 ({[from]} ∪ votes))|].
  intros [] n2. case_bool_decide as Hc.
  - intros ->. left. split; [split; [apply same_log_role|done]|]. split; [done|].
    split; [by apply elem_of_union_r|done].
  - intros [? ?]. by right.
Qed.

(** ** The order on logs *)
Definition log_le n n' : Prop :=
  last_term (n_storage n) < last_term (n_storage n') ∨
  last_term (n_storage n') = last_term (n_storage n) ∧ last_index (n_storage n) ≤ last_index (n_storage n').

#[export] Instance log_le_preorder : PreOrder log_le.
Proof. split; unfold log_le; [intros n|intros n1 n2 n3]; lia. Qed.
Lemma log_le_total n n' : log_le n n' ∨ log_le n' n.
Proof. unfold log_le. lia. Qed.
Definition term_le n n' : Prop := cur_term n ≤ cur_term n'.
#[export] Instance term_le_preorder : PreOrder term_le.
Proof. split; unfold term_le; [intros n|intros n1 n2 n3]; lia. Qed.
Lemma log_le_args n n' t : log_le n n' → log_up_to_date n (vote_args n' t) = true.
Proof. intros H. by apply log_up_to_date_spec. Qed.
Lemma log_le_same n n' m : same_log n n' → log_le m n → log_le m n'.
Proof. intros [_ _ Ei Et _]. unfold log_le. by rewrite Ei, Et. Qed.
Lemma vote_args_same n n' t : same_log n n' → vote_args n' t = vote_args n t.
Proof. intros [Ec _ Ei Et _]. unfold vote_args, self. by rewrite Ec, Ei, Et. Qed.
End iterations.

(** ** Campaigns in a cluster *)
Section campaigns.
Context `{J : SerdeJson} {SM : Type} `{!StateMachine SM} {Laws : StateMachineLaws} (sm0 : SM).
Context (ids : gset N) (cfg : NodeId → RaftConfig).
Context (Hcfg : static_config ids cfg) (Hok : configs_ok (nodes := ids) cfg).
Context (Hpos : ∀ i, i ∈ ids → 0 < c_election_timeout_max (cfg i)).
Context (Q : gset N) (HQ : quorum ids Q).
Implicit Types (w : World (SM := SM)) (n nb nj m : RaftNode SM) (l : LeaderState) (b j : NodeId) (T t : N).
#[local] Abbreviation sound := (sound sm0 ids cfg).

Lemma node_able w i n :
  sound w → w_nodes w !! i = Some n →
  is_member n (self n) = true ∧ 0 < c_election_timeout_max (n_config n) ∧ self n = i ∧ dom (n_members n) = ids.
Proof.
  intros Hs Hi. destruct (node_ids _ _ _ _ _ _ Hs Hi) as (Hin & Hself & Hdom).
  rewrite (member_ids ids) by done. rewrite Hself. split; [done|]. split; [|done].
  destruct (so_rel _ _ _ _ Hs) as [a Hw]. rewrite (wr_config _ _ _ _ _ Hw _ _ Hi). by apply Hpos.
Qed.

(** The votes of the group suffice. *)
Lemma group_suffices n votes : dom (n_members n) = ids → Q ⊆ votes → ¬ short n votes.
Proof.
  intros Hd Hv [_ Hsh]. destruct HQ as [HQi Hsz]. apply Nat.lt_nge in Hsh. apply Hsh.
  unfold majority, majority_of, count_member_votes.
  replace (size (n_members n)) with (size ids) by (rewrite <-Hd; apply size_dom).
  etrans; [exact Hsz|]. apply subseteq_size. intros q Hq. apply elem_of_filter.
  split; [apply elem_of_dom; rewrite Hd; by apply HQi|by apply Hv].
Qed.

(** Some member of the group leads, and none of the group is ahead of it. *)
Definition won w : Prop := sound w ∧ ∃ b n, b ∈ Q ∧ w_nodes w !! b = Some n ∧ leads_term n ∧
  ∀ j, j ∈ Q → ∃ m, w_nodes w !! j = Some m ∧ cur_term m ≤ cur_term n.

(** [nj] would vote for [nb] in a term beyond [T], and from [t0] on also
    says so in a pre-vote. *)
Record rival t0 T nb nj : Prop := {
  rv_term : cur_term nj ≤ T;
  rv_log : log_le nj nb;
  rv_follower : is_leader nj = false;
  rv_quiet x : n_last_leader_contact nj = Some x → x + c_election_timeout_min (n_config nj) ≤ t0;
}.
Definition rivals t0 T b nb w : Prop := ∀ j, j ∈ Q → j ≠ b → ∃ nj, w_nodes w !! j = Some nj ∧ rival t0 T nb nj.

(** The candidate still needs the votes of [js], and has asked for them. *)
Record poll b T w nb votes (js : list N) : Prop := {
  pl_sound : sound w;
  pl_group : b ∈ Q;
  pl_node : w_nodes w !! b = Some nb;
  pl_term : cur_term nb = T;
  pl_role : candidate nb votes;
  pl_open j : j ∈ js → j ≠ b ∧ (∃ nj, w_nodes w !! j = Some nj ∧ cur_term nj < T ∧ log_le nj nb) ∧
    last_request w b j = Some (MkRequest b j (RequestVote (vote_args nb T)) (TagVote T));
  pl_rest j : j ∈ Q → ∃ nj, w_nodes w !! j = Some nj ∧ cur_term nj ≤ T;
  pl_votes q : q ∈ Q → q ∈ votes ∨ q ∈ js;
}.

(** The same for pre-votes. *)
Record canvass t0 b T w nb votes (js : list N) : Prop := {
  cv_sound : sound w;
  cv_group : b ∈ Q;
  cv_node : w_nodes w !! b = Some nb;
  cv_term : cur_term nb = T;
  cv_role : pre_candidate nb votes;
  cv_rivals : rivals t0 T b nb w;
  cv_open j : j ∈ js → j ∈ Q ∧ j ≠ b ∧
    last_request w b j = Some (MkRequest b j (PreVote (vote_args nb (T + 1))) (TagPreVote (T + 1)));
  cv_votes q : q ∈ Q → q ∈ votes ∨ q ∈ js;
}.

(** Quiet effects. *)
Lemma status_quiet (es : list Effect) j : (∀ e, e ∈ es → ∃ s, e = StatusChanged s) → ∀ e, e ∈ es → ¬ sends_to j e.
Proof. intros Hes e He. destruct (Hes e He) as [s ->]. by intros []. Qed.

(** What every peer was asked is the last request to it. *)
Lemma asked_request w b n n' req tag k :
  asked n' req tag → same_log n n' → self n = b → dom (n_members n) = ids → k ∈ Q → k ≠ b →
  last_request (after w b n' (n_effects n') []) b k = Some (MkRequest b k req tag).
Proof.
  intros Ha Hsame Hself Hdom Hk Hne. destruct (Ha k) as (es1 & es2 & E & Hno); [|by eapply last_request_sent].
  destruct Hsame. apply (peers_ids ids); [by rewrite sl_members0|by apply HQ|].
  unfold self in *. by rewrite sl_config0, Hself.
Qed.

(** When an election starts, everybody in the group has been asked. *)
Lemma started_polls t0 T b w nb n' :
  sound (after w b n' (n_effects n') []) → b ∈ Q → self nb = b → cur_term nb = T → dom (n_members nb) = ids →
  rivals t0 T b nb w → started nb n' →
  won (after w b n' (n_effects n') []) ∨
  ∃ js, poll b (T + 1) (after w b n' (n_effects n') []) n' {[b]} js ∧ NoDup js ∧ ∀ j, j ∈ js → j ∈ Q.
Proof.
  intros Hs Hb Hself Ht Hdom Hr [Ht' Hcase]. rewrite Ht in Ht'. set (w' := after _ _ _ _ _) in *.
  assert (w_nodes w' !! b = Some n') as Hn' by apply lookup_insert_eq.
  assert (∀ j, j ≠ b → w_nodes w' !! j = w_nodes w !! j) as Ho by (intros; by apply lookup_insert_ne).
  assert (∀ j, j ∈ Q → ∃ nj, w_nodes w' !! j = Some nj ∧ cur_term nj ≤ T + 1) as Hrest.
  { intros j Hj. destruct (decide (j = b)) as [->|Hne]; [exists n'; split; [done|lia]|].
    destruct (Hr j Hj Hne) as (nj & ? & []). exists nj. rewrite Ho by done. split; [done|lia]. }
  destruct Hcase as [Hl|(Hsame & Hc & Ha)].
  - left. split; [done|]. exists b, n'. rewrite Ht'. done.
  - right. exists (elements (Q ∖ {[b]})). rewrite Hself in Hc.
    split; [|split; [apply NoDup_elements|set_solver]]. split; [done|done|done|done|done| |done|].
    + intros j [Hj Hne%not_elem_of_singleton]%elem_of_elements%elem_of_difference. split; [done|]. split.
      * destruct (Hr j Hj Hne) as (nj & ? & []). exists nj. rewrite Ho by done. split; [done|].
        split; [lia|by eapply log_le_same].
      * rewrite Ht' in Ha. by eapply asked_request.
    + intros q Hq. destruct (decide (q = b)) as [->|]; [left; by apply elem_of_singleton|right]. set_solver.
Qed.

(** *** Votes *)

(** [j] grants its vote. *)
Lemma vote_granted b T w nb votes j js t :
  poll b T w nb votes (j :: js) → ∃ w1 m, act sm0 w (ARequest t b j) = Some w1 ∧ sound w1 ∧
    w_nodes w1 = <[j := m]> (w_nodes w) ∧ cur_term m = T ∧ (∀ k, last_request w1 b k = last_request w b k) ∧
    last_response w1 j b = Some (MkResponse j b (TagVote T) (RequestVoteResp (MkRequestVoteReply T true))).
Proof.
  intros Hp. destruct (pl_open _ _ _ _ _ _ Hp j) as (Hne & (nj & Hj & Ht & Hlog) & Hreq); [left|].
  destruct (act_request sm0 ids cfg Hcfg Hok w b j nj _ _ t (λ resp n', cur_term n' = T ∧
    resp = RequestVoteResp (MkRequestVoteReply T true)) (pl_sound _ _ _ _ _ _ Hp) Hj Hreq)
    as (resp & m & Hact & [Et ->] & Hs).
  { intros n1 (st & es & _ & ->). simpl. apply wpp_bind.
    eapply wpp_mono; [by apply handle_request_vote_wp|]. intros r n' (-> & Es & _ & _). apply wpp_ret.
    unfold cur_term at 1. rewrite Es. unfold vote_after, grants. nsimpl. simpl.
    change (cur_term (set_now t (set_status_tx st (set_effects es nj)))) with (cur_term nj).
    rewrite (bool_decide_eq_true_2 (cur_term nj ≤ T)), (bool_decide_eq_true_2 (cur_term nj < T)) by lia. simpl.
    change (log_up_to_date (set_now t (set_status_tx st (set_effects es nj)))) with (log_up_to_date nj).
    rewrite (log_le_args nj nb T Hlog). simpl. split; [done|]. do 2 f_equal. lia. }
  eexists _, m. split; [exact Hact|]. split; [exact Hs|]. split; [done|]. split; [done|].
  split; [|apply last_response_answer]. intros k. by apply last_request_other.
Qed.

Lemma poll_step b T w nb votes j js t :
  poll b T w nb votes (j :: js) → NoDup (j :: js) →
  ∃ w1 w2, act sm0 w (ARequest t b j) = Some w1 ∧ act sm0 w1 (AResponse t j b) = Some w2 ∧
    (won w2 ∨ ∃ nb', poll b T w2 nb' ({[j]} ∪ votes) js).
Proof.
  intros Hp [Hj Hnd]%NoDup_cons. destruct (vote_granted _ _ _ _ _ _ _ t Hp) as (w1 & m & Ha1 & Hs1 & Hw1 & Hm & Hrq & Hresp).
  destruct Hp as [Hs Hb Hn Ht Hc Hopen Hrest Hv]. destruct (Hopen j) as (Hne & _); [left|].
  assert (w_nodes w1 !! b = Some nb) as Hn1 by (by rewrite Hw1, lookup_insert_ne).
  destruct (node_able _ _ _ Hs1 Hn1) as (Hmem & Hp1 & Hself & Hdom).
  destruct (act_response sm0 ids cfg Hcfg Hok w1 b j nb _ _ t (λ n', ∃ n1, begun t nb n1 ∧
    (counts n1 n' ∧ candidate n' ({[j]} ∪ votes) ∨ leads_term n' ∧ cur_term n' = cur_term n1)) Hs1 Hn1 Hresp)
    as (n' & Ha2 & (n1 & (st & es & Hes & ->) & Hcase) & Hs2).
  { intros n1 Hbg. pose proof Hbg as (st & es & _ & ->). simpl. rewrite <-Ht.
    eapply wpp_mono; [apply (on_vote_reply_granted (set_now t (set_status_tx st (set_effects es nb))) votes);
      [exact Hc|exact Hmem|exact Hp1|done|done]|]. intros [] n' Hcase. eexists. split; [exact Hbg|exact Hcase]. }
  exists w1. eexists. split; [exact Ha1|]. split; [exact Ha2|]. set (w2 := after _ _ _ _ _) in *.
  assert (w_nodes w2 !! b = Some n') as Hn2 by apply lookup_insert_eq.
  assert (∀ k, k ≠ b → w_nodes w2 !! k = w_nodes w1 !! k) as Ho by (intros; by apply lookup_insert_ne).
  assert (cur_term n' = T) as Ht' by (destruct Hcase as [[(_ & E & _) _]|[_ E]]; rewrite E; exact Ht).
  assert (∀ k, k ∈ Q → ∃ nk, w_nodes w2 !! k = Some nk ∧ cur_term nk ≤ T) as Hrest'.
  { intros k Hk. destruct (decide (k = b)) as [->|Hkb]; [exists n'; split; [done|lia]|]. rewrite Ho, Hw1 by done.
    destruct (decide (k = j)) as [->|]; [exists m; rewrite lookup_insert_eq; split; [done|lia]|].
    rewrite lookup_insert_ne by done. by apply Hrest. }
  destruct Hcase as [[(Hsame & _ & Eeff) Hc']|[Hl _]].
  - right. exists n'. split; [done|done|done|done|done| |done|].
    + intros k Hk. destruct (Hopen k) as (Hkb & (nk & Hnk & ? & ?) & Hreq); [by right|].
      split; [done|]. split.
      * exists nk. rewrite Ho, Hw1, lookup_insert_ne by (done || by intros ->). split; [done|]. split; [done|].
        by eapply log_le_same.
      * unfold w2. rewrite last_request_quiet, Hrq, Hreq; [by rewrite (vote_args_same _ _ _ Hsame)|].
        rewrite Eeff. by apply status_quiet.
    + intros q Hq. destruct (Hv q Hq) as [?|[->|?]%elem_of_cons]; set_solver.
  - left. split; [done|]. exists b, n'. rewrite Ht'. done.
Qed.

Lemma poll_wins b T js w nb votes t :
  poll b T w nb votes js → NoDup js → (∀ j, j ∈ js → j ∈ Q) → eventually sm0 Q (λ _, won) t w.
Proof.
  revert w nb votes t. induction js as [|j js IH]; intros w nb votes t Hp Hnd HjQ.
  { exfalso. destruct (node_able _ _ _ (pl_sound _ _ _ _ _ _ Hp) (pl_node _ _ _ _ _ _ Hp)) as (_ & _ & _ & Hdom).
    apply (group_suffices nb votes Hdom); [|by destruct (pl_role _ _ _ _ _ _ Hp)].
    intros q Hq. destruct (pl_votes _ _ _ _ _ _ Hp q Hq) as [?|?%elem_of_nil]; done. }
  destruct (poll_step b T w nb votes j js t Hp Hnd) as (w1 & w2 & Ha1 & Ha2 & Hcase).
  pose proof (pl_group _ _ _ _ _ _ Hp) as Hb. assert (j ∈ Q) as Hj by (apply HjQ; left).
  eapply (ev_act _ _ _ t _ (ARequest t b j)); [done|by split|exact Ha1|].
  eapply (ev_act _ _ _ _ _ (AResponse t j b)); [done|by split|exact Ha2|].
  destruct Hcase as [Hw|[nb' Hp']]; [by eapply ev_now|].
  apply NoDup_cons in Hnd as [_ Hnd]. eapply IH; [exact Hp'|done|]. intros k Hk. apply HjQ. by right.
Qed.

Lemma started_wins t0 T b w nb n' t :
  sound (after w b n' (n_effects n') []) → b ∈ Q → self nb = b → cur_term nb = T → dom (n_members nb) = ids →
  rivals t0 T b nb w → started nb n' → eventually sm0 Q (λ _, won) t (after w b n' (n_effects n') []).
Proof.
  intros Hs Hb Hself Ht Hdom Hr Hst.
  destruct (started_polls _ _ _ _ _ _ Hs Hb Hself Ht Hdom Hr Hst) as [?|(js & Hp & Hnd & Hjs)]; [by eapply ev_now|].
  by eapply poll_wins.
Qed.

(** *** Pre-votes *)

(** [j] says it would vote. *)
Lemma pre_vote_granted t0 b T w nb votes j js t :
  canvass t0 b T w nb votes (j :: js) → t0 ≤ t →
  ∃ w1 nj m, act sm0 w (ARequest t b j) = Some w1 ∧ sound w1 ∧ w_nodes w !! j = Some nj ∧
    w_nodes w1 = <[j := m]> (w_nodes w) ∧ begun t nj m ∧ (∀ k, last_request w1 b k = last_request w b k) ∧
    last_response w1 j b = Some (MkResponse j b (TagPreVote (T + 1)) (PreVoteResp (MkRequestVoteReply (cur_term nj) true))).
Proof.
  intros Hc Ht0. destruct (cv_open _ _ _ _ _ _ _ Hc j) as (HjQ & Hne & Hreq); [left|].
  destruct (cv_rivals _ _ _ _ _ _ _ Hc j HjQ Hne) as (nj & Hj & [Ht Hlog Hf Hq]).
  destruct (act_request sm0 ids cfg Hcfg Hok w b j nj _ _ t (λ resp n', begun t nj n' ∧
    resp = PreVoteResp (MkRequestVoteReply (cur_term nj) true)) (cv_sound _ _ _ _ _ _ _ Hc) Hj Hreq)
    as (resp & m & Hact & [Hbg ->] & Hs).
  { intros n1 Hbg. simpl. apply wpp_bind. unfold handle_pre_vote. do 3 walk_step. walk_step. split; [done|].
    destruct Hbg as (st & es & _ & ->). nsimpl. do 2 f_equal.
    change (cur_term (set_now t (set_status_tx st (set_effects es nj)))) with (cur_term nj).
    change (log_up_to_date (set_now t (set_status_tx st (set_effects es nj)))) with (log_up_to_date nj).
    rewrite (log_le_args nj nb _ Hlog), bool_decide_eq_true_2 by (simpl; lia). simpl.
    unfold leader_is_live, is_leader in *. nsimpl. rewrite Hf. simpl. apply negb_true_iff.
    destruct (n_last_leader_contact nj) as [x|]; [|done]. apply bool_decide_eq_false. unfold elapsed.
    specialize (Hq x eq_refl). lia. }
  eexists _, nj, m. split; [exact Hact|]. split; [exact Hs|]. split; [done|]. split; [done|]. split; [done|].
  split; [|apply last_response_answer]. intros k. by apply last_request_other.
Qed.

Lemma rival_begun t0 T nb nj t m : begun t nj m → rival t0 T nb nj → rival t0 T nb m.
Proof. intros (st & es & _ & ->) []. by split. Qed.
Lemma rivals_same t0 T b nb nb' w : same_log nb nb' → rivals t0 T b nb w → rivals t0 T b nb' w.
Proof.
  intros Hs Hr j Hj Hne. destruct (Hr j Hj Hne) as (nj & ? & []). exists nj. split; [done|].
  split; [done|by eapply log_le_same|done|done].
Qed.
(** Rivals stay rivals while only [b] changes, or one of them goes through an
    iteration that leaves it as it was. *)
Lemma rivals_nodes t0 T b nb w w' :
  (∀ k nk, k ≠ b → w_nodes w !! k = Some nk → ∃ nk', w_nodes w' !! k = Some nk' ∧ (nk' = nk ∨ ∃ t, begun t nk nk')) →
  rivals t0 T b nb w → rivals t0 T b nb w'.
Proof.
  intros Hk Hr j Hj Hne. destruct (Hr j Hj Hne) as (nj & Hnj & Hrv).
  destruct (Hk j nj Hne Hnj) as (nj' & Hnj' & [->|[t Hbg]]); eexists; (split; [exact Hnj'|]); [done|].
  by eapply rival_begun.
Qed.

Lemma begun_same t n n1 : begun t n n1 → same_log n n1 ∧ cur_term n1 = cur_term n.
Proof. intros (st & es & _ & ->). by repeat split. Qed.

(** The answer either leaves the canvass open for the rest, or starts the
    election. *)
Lemma canvass_step t0 b T w nb votes j js t :
  canvass t0 b T w nb votes (j :: js) → NoDup (j :: js) → t0 ≤ t →
  ∃ w1 w2, act sm0 w (ARequest t b j) = Some w1 ∧ act sm0 w1 (AResponse t j b) = Some w2 ∧
    ((∃ nb', canvass t0 b T w2 nb' ({[j]} ∪ votes) js) ∨ eventually sm0 Q (λ _, won) t w2).
Proof.
  intros Hc [Hj Hnd]%NoDup_cons Ht0.
  destruct (pre_vote_granted _ _ _ _ _ _ _ _ t Hc Ht0) as (w1 & nj & m & Ha1 & Hs1 & Hnj & Hw1 & Hbm & Hrq & Hresp).
  destruct Hc as [Hs Hb Hn Ht Hrole Hriv Hopen Hv]. destruct (Hopen j) as (HjQ & Hne & _); [left|].
  assert (w_nodes w1 !! b = Some nb) as Hn1 by (by rewrite Hw1, lookup_insert_ne).
  destruct (node_able _ _ _ Hs1 Hn1) as (Hmem & Hp1 & Hself & Hdom).
  assert (rivals t0 T b nb w1) as Hriv1.
  { eapply rivals_nodes; [|exact Hriv]. intros k nk Hk Hnk. rewrite Hw1. destruct (decide (k = j)) as [->|].
    - exists m. rewrite lookup_insert_eq. split; [done|]. right. exists t. congruence.
    - exists nk. rewrite lookup_insert_ne by done. split; [done|by left]. }
  destruct (Hriv j HjQ Hne) as (nj' & Hnj' & Hrj). assert (nj' = nj) as -> by congruence.
  destruct (act_response sm0 ids cfg Hcfg Hok w1 b j nb _ _ t (λ n', ∃ n1, begun t nb n1 ∧
    (counts n1 n' ∧ pre_candidate n' ({[j]} ∪ votes) ∨ started n1 n')) Hs1 Hn1 Hresp)
    as (n' & Ha2 & (n1 & Hbg & Hcase) & Hs2).
  { intros n1 Hbg. pose proof Hbg as (st & es & _ & ->). simpl. rewrite <-Ht.
    eapply wpp_mono; [apply (on_pre_vote_reply_granted (set_now t (set_status_tx st (set_effects es nb))) votes);
      [exact Hrole|exact Hmem|exact Hp1| |done]|].
    - simpl. pose proof (rv_term _ _ _ _ Hrj). change (cur_term nj ≤ cur_term nb). lia.
    - intros [] n' Hcase. eexists. split; [exact Hbg|exact Hcase]. }
  exists w1. eexists. split; [exact Ha1|]. split; [exact Ha2|]. destruct (begun_same _ _ _ Hbg) as [Hsame1 Et1].
  destruct Hcase as [[(Hsame & Et & Eeff) Hpre]|Hst].
  - left. exists n'. set (w2 := after _ _ _ _ _) in *.
    assert (same_log nb n') as Hsame' by (destruct Hsame1, Hsame; split; congruence).
    assert (∀ k, k ≠ b → w_nodes w2 !! k = w_nodes w1 !! k) as Ho by (intros; by apply lookup_insert_ne).
    split; [done|done|apply lookup_insert_eq|by rewrite Et, Et1|done| | |].
    + eapply rivals_same; [exact Hsame'|]. eapply rivals_nodes; [|exact Hriv1]. intros k nk Hk Hnk.
      exists nk. rewrite Ho by done. split; [done|by left].
    + intros k Hk. destruct (Hopen k) as (? & ? & Hreq); [by right|]. split; [done|]. split; [done|].
      unfold w2. rewrite last_request_quiet, Hrq, Hreq; [by rewrite (vote_args_same _ _ _ Hsame')|].
      rewrite Eeff. destruct Hbg as (st & es & Hes & ->). by apply status_quiet.
    + intros q Hq. destruct (Hv q Hq) as [?|[->|?]%elem_of_cons]; set_solver.
  - right. eapply (started_wins t0 T b w1 n1); [done|done| |by rewrite Et1| | |done].
    + destruct Hbg as (st & es & _ & ->). exact Hself.
    + destruct Hbg as (st & es & _ & ->). exact Hdom.
    + by eapply rivals_same.
Qed.

Lemma canvass_wins t0 b T js w nb votes t :
  canvass t0 b T w nb votes js → NoDup js → t0 ≤ t → eventually sm0 Q (λ _, won) t w.
Proof.
  revert w nb votes. induction js as [|j js IH]; intros w nb votes Hc Hnd Ht0.
  { exfalso. destruct (node_able _ _ _ (cv_sound _ _ _ _ _ _ _ Hc) (cv_node _ _ _ _ _ _ _ Hc)) as (_ & _ & _ & Hdom).
    apply (group_suffices nb votes Hdom); [|by destruct (cv_role _ _ _ _ _ _ _ Hc)].
    intros q Hq. destruct (cv_votes _ _ _ _ _ _ _ Hc q Hq) as [?|?%elem_of_nil]; done. }
  destruct (canvass_step t0 b T w nb votes j js t Hc Hnd Ht0) as (w1 & w2 & Ha1 & Ha2 & Hcase).
  pose proof (cv_group _ _ _ _ _ _ _ Hc) as Hb. destruct (cv_open _ _ _ _ _ _ _ Hc j) as (HjQ & _); [left|].
  eapply (ev_act _ _ _ t _ (ARequest t b j)); [done|by split|exact Ha1|].
  eapply (ev_act _ _ _ _ _ (AResponse t j b)); [done|by split|exact Ha2|].
  destruct Hcase as [[nb' Hc']|Hev]; [|exact Hev]. apply NoDup_cons in Hnd as [_ Hnd]. by eapply IH.
Qed.

(** *** A timeout *)
Lemma timeout_step b w nb t :
  sound w → w_nodes w !! b = Some nb → is_leader nb = false → n_election_deadline nb ≤ t →
  ∃ n1 n', act sm0 w (ALocal t b InElectionTimeout) = Some (after w b n' (n_effects n') []) ∧
    sound (after w b n' (n_effects n') []) ∧ begun t nb n1 ∧ self n1 = b ∧ dom (n_members n1) = ids ∧
    same_log nb n1 ∧ cur_term n1 = cur_term nb ∧
    (canvasses n1 n' ∨ started n1 n' ∧ (majority nb ≤ 1)%nat).
Proof.
  intros Hs Hn Hl Hdl. destruct (node_able _ _ _ Hs Hn) as (Hmem & Hp1 & Hself & Hdom).
  destruct (act_local sm0 ids cfg Hcfg Hok w b nb InElectionTimeout t (λ _ n', ∃ n1, begun t nb n1 ∧
    (canvasses n1 n' ∨ started n1 n' ∧ (majority nb ≤ 1)%nat)) Hs Hn)
    as (r & n' & Ha & (n1 & Hbg & Hcase) & Hs'); [done| | |].
  { simpl. rewrite Hl, bool_decide_eq_true_2 by done. done. }
  { intros n1 Hbg. pose proof Hbg as (st & es & _ & ->). simpl. apply wpp_bind.
    eapply wpp_mono; [by apply (on_election_timeout_canvasses (set_now t (set_status_tx st (set_effects es nb))))|].
    intros [] n' Hcase. apply wpp_ret. eexists. split; [exact Hbg|exact Hcase]. }
  exists n1, n'. destruct (begun_same _ _ _ Hbg). do 3 (split; [done|]).
  destruct Hbg as (st & es & _ & ->). done.
Qed.

(** The right node wins. *)
Lemma timeout_wins t0 T b w nb t :
  sound w → b ∈ Q → w_nodes w !! b = Some nb → cur_term nb = T → is_leader nb = false →
  rivals t0 T b nb w → t0 ≤ t → n_election_deadline nb ≤ t → eventually sm0 Q (λ _, won) t w.
Proof.
  intros Hs Hb Hn Ht Hl Hriv Ht0 Hdl.
  destruct (timeout_step b w nb t Hs Hn Hl Hdl) as (n1 & n' & Ha & Hs' & _ & Hself1 & Hdom1 & Hsame1 & Et1 & Hcase).
  eapply (ev_act _ _ _ _ _ (ALocal t b InElectionTimeout)); [done|done|exact Ha|].
  destruct Hcase as [(Hsame & Et & Hpre & Hask)|[Hst _]].
  - assert (same_log nb n') as Hsame' by (destruct Hsame1, Hsame; split; congruence).
    rewrite Hself1 in Hpre. assert (cur_term n' = T) as Et' by congruence. rewrite Et' in Hask.
    eapply (canvass_wins t0 b T (elements (Q ∖ {[b]})) _ n' {[b]}); [|apply NoDup_elements|done].
    split; [done|done|apply lookup_insert_eq|done|done| | |].
    + eapply rivals_same; [exact Hsame'|]. eapply rivals_nodes; [|exact Hriv]. intros k nk Hk Hnk.
      exists nk. cbn [w_nodes after]. rewrite lookup_insert_ne by done. split; [done|by left].
    + intros j [Hj Hne%not_elem_of_singleton]%elem_of_elements%elem_of_difference. split; [done|]. split; [done|].
      exact (asked_request w b n1 n' _ _ j Hask Hsame Hself1 Hdom1 Hj Hne).
    + intros q Hq. destruct (decide (q = b)) as [->|]; [left; by apply elem_of_singleton|right]. set_solver.
  - eapply (started_wins t0 T b w n1); [done|done|done|congruence|done| |done]. by eapply rivals_same.
Qed.

(** *** Learning the term *)

(** What the others look like afterwards: as before. *)
Definition untouched b w w' : Prop := ∀ k nk, k ≠ b → w_nodes w !! k = Some nk →
  ∃ nk', w_nodes w' !! k = Some nk' ∧ (nk' = nk ∨ ∃ t, begun t nk nk').

Lemma two_majority w b k nb :
  sound w → w_nodes w !! b = Some nb → b ∈ Q → k ∈ Q → k ≠ b → (2 ≤ majority nb)%nat.
Proof.
  intros Hs Hn Hb Hk Hne. destruct (node_able _ _ _ Hs Hn) as (_ & _ & _ & Hdom).
  unfold majority, majority_of. rewrite <-(size_dom (D := gset N)), Hdom.
  assert (size ({[b; k]} : gset N) ≤ size ids)%nat as Hsz by (apply subseteq_size; destruct HQ; set_solver).
  rewrite size_union, !size_singleton in Hsz by set_solver.
  pose proof (Nat.Div0.div_le_mono 2 (size ids) 2 Hsz). change (2 / 2)%nat with 1%nat in *. lia.
Qed.

Lemma catch_up b k w nb nk t :
  sound w → b ∈ Q → k ∈ Q → k ≠ b → w_nodes w !! b = Some nb → w_nodes w !! k = Some nk →
  is_leader nb = false → cur_term nb < cur_term nk → n_election_deadline nb ≤ t →
  eventually sm0 Q (λ _ w', sound w' ∧ untouched b w w' ∧ ∃ nb', w_nodes w' !! b = Some nb' ∧
    same_log nb nb' ∧ cur_term nb' = cur_term nk ∧ is_leader nb' = false) t w.
Proof.
  intros Hs Hb Hk Hne Hn Hnk Hl Hlt Hdl. pose proof (two_majority _ _ _ _ Hs Hn Hb Hk Hne) as Hmaj.
  destruct (timeout_step b w nb t Hs Hn Hl Hdl) as (n1 & n' & Ha & Hs1 & _ & Hself1 & Hdom1 & Hsame1 & Et1 & Hcase).
  destruct Hcase as [(Hsame & Et & Hpre & Hask)|[_ ?]]; [|lia].
  eapply (ev_act _ _ _ _ _ (ALocal t b InElectionTimeout)); [done|done|exact Ha|].
  pose proof (asked_request w b n1 n' _ _ k Hask Hsame Hself1 Hdom1 Hk Hne) as Hreq.
  set (w1 := after _ _ _ _ _) in *.
  assert (w_nodes w1 !! k = Some nk) as Hk1 by (unfold w1; cbn [w_nodes after]; by rewrite lookup_insert_ne).
  destruct (act_request sm0 ids cfg Hcfg Hok w1 b k nk _ _ t (λ resp m, begun t nk m ∧
    ∃ g, resp = PreVoteResp (MkRequestVoteReply (cur_term nk) g)) Hs1 Hk1 Hreq) as (resp & m & Ha2 & [Hbm [g ->]] & Hs2).
  { intros m Hbm. simpl. apply wpp_bind. unfold handle_pre_vote. do 4 walk_step. split; [done|].
    destruct Hbm as (st & es & _ & ->). by eexists. }
  eapply (ev_act _ _ _ _ _ (ARequest t b k)); [done|done|exact Ha2|]. set (w2 := after w1 _ _ _ _) in *.
  assert (w_nodes w2 !! b = Some n') as Hn2.
  { unfold w2, w1. cbn [w_nodes after]. by rewrite lookup_insert_ne, lookup_insert_eq. }
  destruct (act_response sm0 ids cfg Hcfg Hok w2 b k n' _ _ t (λ n2, ∃ n1', begun t n' n1' ∧
    stepped_down (cur_term nk) None n1' n2) Hs2 Hn2 (last_response_answer _ _ _ _ _ _ _))
    as (n2 & Ha3 & (n1' & Hbg' & Hsd) & Hs3).
  { intros n1' Hbg'. simpl. pose proof Hbg' as (st & es & _ & ->). eapply wpp_mono.
    - apply on_pre_vote_reply_higher. simpl. change (cur_term n' < cur_term nk). rewrite Et, Et1. exact Hlt.
    - intros [] n2 Hsd. eexists. split; [exact Hbg'|exact Hsd]. }
  eapply (ev_act _ _ _ _ _ (AResponse t k b)); [done|done|exact Ha3|].
  eapply ev_now; [done|]. split; [done|]. split.
  - intros q nq Hq Hnq. unfold w2, w1. cbn [w_nodes after]. rewrite lookup_insert_ne by done.
    destruct (decide (q = k)) as [->|].
    + exists m. rewrite lookup_insert_eq. split; [done|]. right. exists t. congruence.
    + exists nq. rewrite !lookup_insert_ne by done. split; [done|by left].
  - exists n2. split; [apply lookup_insert_eq|]. destruct (begun_same _ _ _ Hbg') as [Hsame' Et'].
    destruct (stepped_down_saves _ _ _ _ Hsd) as (Et2 & h & Est); [lia|]. destruct Hsd.
    split; [|split; [done|unfold is_leader; by rewrite sd_role]].
    destruct Hsame1, Hsame, Hsame'. split; [congruence..| | |congruence]; rewrite Est; simpl.
    + change (last_index (save_hard_state h (n_storage n1'))) with (last_index (n_storage n1')). congruence.
    + change (last_term (save_hard_state h (n_storage n1'))) with (last_term (n_storage n1')). congruence.
Qed.

(** *** Old leaders step down *)
Definition quiet_at w j : Prop := ∃ n, w_nodes w !! j = Some n ∧ is_leader n = false.

Lemma map_bound (x : gmap N N) : ∃ B, ∀ k v, x !! k = Some v → v ≤ B.
Proof.
  induction x as [|k v x Hk [B HB]] using map_ind; [exists 0; by intros k v ?%lookup_empty_Some|].
  exists (N.max v B). intros k' v' [[_ <-]|[_ H]]%lookup_insert_Some; [lia|]. specialize (HB _ _ H). lia.
Qed.

Lemma step_down j w t :
  sound w → (2 ≤ size ids)%nat → j ∈ Q →
  eventually sm0 Q (λ _ w', sound w' ∧ quiet_at w' j ∧ ∀ k, k ≠ j → w_nodes w' !! k = w_nodes w !! k) t w.
Proof.
  intros Hs Hsz Hj. destruct (sound_node _ _ _ _ j Hs) as [n Hn]; [by apply HQ|].
  destruct (is_leader n) eqn:Hl; [|by eapply ev_now; [|split; [|split; [exists n|]]]].
  unfold is_leader in Hl. destruct (n_role n) as [| | |l] eqn:Hr; try done. clear Hl.
  destruct (map_bound (last_contact l)) as [B HB]. destruct (node_able _ _ _ Hs Hn) as (_ & _ & _ & Hdom).
  set (t' := t + n_next_heartbeat n + B + c_election_timeout_max (n_config n)).
  destruct (act_local sm0 ids cfg Hcfg Hok w j n InHeartbeat t' (λ _ n', n_role n' = Follower) Hs Hn)
    as (r & n' & Ha & Hrole & Hs'); [done| | |].
  { simpl. unfold is_leader. rewrite Hr, bool_decide_eq_true_2 by lia. done. }
  { intros n1 (st & es & _ & ->). simpl. apply wpp_bind. eapply wpp_mono.
    - apply (heartbeat_steps_down (set_now t' (set_status_tx st (set_effects es n))) l); [done| |].
      + nsimpl. by rewrite <-(size_dom (D := gset N)), Hdom.
      + intros k x Hk. nsimpl. specialize (HB k x Hk). lia.
    - intros [] n' []. by apply wpp_ret. }
  eapply (ev_act _ _ _ _ _ (ALocal t' j InHeartbeat)); [simpl; lia|done|exact Ha|].
  eapply ev_now; [done|]. split; [done|]. split.
  - exists n'. split; [apply lookup_insert_eq|]. unfold is_leader. by rewrite Hrole.
  - intros k Hk. cbn [w_nodes after]. by rewrite lookup_insert_ne.
Qed.

Lemma all_step_down (js : list N) w t :
  sound w → (2 ≤ size ids)%nat → (∀ j, j ∈ js → j ∈ Q) → (∀ j, j ∈ Q → j ∈ js ∨ quiet_at w j) →
  eventually sm0 Q (λ _ w', sound w' ∧ ∀ j, j ∈ Q → quiet_at w' j) t w.
Proof.
  revert w t. induction js as [|j js IH]; intros w t Hs Hsz Hjs Hq.
  { eapply ev_now; [done|]. split; [done|]. intros j Hj. by destruct (Hq j Hj) as [?%elem_of_nil|]. }
  eapply eventually_bind; [apply (step_down j); [done|done|apply Hjs; left]|].
  intros t' w' _ (Hs' & Hqj & Ho). apply IH; [done|done|intros k Hk; apply Hjs; by right|].
  intros k Hk. destruct (decide (k = j)) as [->|Hne]; [by right|].
  destruct (Hq k Hk) as [[->|?]%elem_of_cons|(nk & Hnk & ?)]; [done|by left|right].
  exists nk. by rewrite Ho.
Qed.

(** *** Choosing the candidate *)
Lemma list_max {A} (R : relation A) `{!PreOrder R} (x : list A) :
  (∀ y z, R y z ∨ R z y) → x ≠ [] → ∃ y, y ∈ x ∧ ∀ z, z ∈ x → R z y.
Proof.
  intros Htot. induction x as [|a x IH]; intros Hne; [done|]. destruct (decide (x = [])) as [->|Hx].
  { exists a. split; [left|]. by intros z ->%list_elem_of_singleton. }
  destruct (IH Hx) as (y & Hy & Hmax). destruct (Htot a y) as [Hay|Hya].
  - exists y. split; [by right|]. intros z [->|Hz]%elem_of_cons; [done|by apply Hmax].
  - exists a. split; [left|]. intros z [->|Hz]%elem_of_cons; [done|]. etrans; [by apply Hmax|done].
Qed.

(** The group, with its most up-to-date log, its highest term, and a time by
    which nobody counts on a leader any more. *)
Lemma group_nodes w :
  sound w → (∀ j, j ∈ Q → quiet_at w j) →
  ∃ b nb k nk t0, b ∈ Q ∧ k ∈ Q ∧ w_nodes w !! b = Some nb ∧ w_nodes w !! k = Some nk ∧ is_leader nb = false ∧
    cur_term nb ≤ cur_term nk ∧ rivals t0 (cur_term nk) b nb w.
Proof.
  intros Hs Hq. set (ns := omap (λ j, w_nodes w !! j) (elements Q)).
  assert (∀ n, n ∈ ns ↔ ∃ j, j ∈ Q ∧ w_nodes w !! j = Some n) as Hns.
  { intros n. unfold ns. rewrite list_elem_of_omap. by setoid_rewrite elem_of_elements. }
  assert (ns ≠ []) as Hne.
  { destruct HQ as [_ Hsz]. destruct (set_choose_L Q) as [j Hj]; [intros ->; rewrite size_empty in Hsz; lia|].
    destruct (Hq j Hj) as (n & Hn & _). intros E. apply (elem_of_nil (A := RaftNode SM) n). rewrite <-E. apply Hns. eauto. }
  destruct (list_max log_le ns) as (nb & (b & Hb & Hnb)%Hns & Hlog); [apply log_le_total|done|].
  destruct (list_max term_le ns) as (nk & (k & Hk & Hnk)%Hns & Hterm); [unfold term_le; lia|done|].
  assert (∃ t0, ∀ n, n ∈ ns → ∀ x, n_last_leader_contact n = Some x → x + c_election_timeout_min (n_config n) ≤ t0)
    as [t0 Ht0].
  { clear. induction ns as [|n ns [t0 IH]]; [exists 0; by intros n ?%elem_of_nil|].
    exists (N.max t0 (default 0 (n_last_leader_contact n) + c_election_timeout_min (n_config n))).
    intros n' [->|Hn']%elem_of_cons x Hx; [rewrite Hx; simpl; lia|]. specialize (IH n' Hn' x Hx). lia. }
  exists b, nb, k, nk, t0. destruct (Hq b Hb) as (nb' & Hnb' & Hlb). assert (nb' = nb) as -> by congruence.
  do 5 (split; [done|]). split; [apply Hterm, Hns; eauto|].
  intros j Hj _. destruct (Hq j Hj) as (nj & Hnj & Hlj). assert (nj ∈ ns) as Hin by (apply Hns; eauto).
  exists nj. split; [done|]. split; [by apply Hterm|by apply Hlog|done|by apply Ht0].
Qed.

Lemma group_wins w t :
  sound w → (∀ j, j ∈ Q → quiet_at w j) → eventually sm0 Q (λ _, won) t w.
Proof.
  intros Hs Hq. destruct (group_nodes w Hs Hq) as (b & nb & k & nk & t0 & Hb & Hk & Hnb & Hnk & Hl & Hle & Hriv).
  destruct (decide (cur_term nb = cur_term nk)) as [Et|Hlt].
  - apply (eventually_wait _ _ _ _ (t + t0 + n_election_deadline nb)); [lia|].
    eapply (timeout_wins t0 _ b); [done..|lia|lia].
  - assert (k ≠ b) as Hne by congruence.
    apply (eventually_wait _ _ _ _ (t + n_election_deadline nb)); [lia|].
    eapply eventually_bind; [eapply (catch_up b k w nb nk); [done..|lia|lia]|].
    intros t' w' _ (Hs' & Hun & nb' & Hnb' & Hsame & Et & Hl').
    apply (eventually_wait _ _ _ _ (t' + t0 + n_election_deadline nb')); [lia|].
    eapply (timeout_wins t0 (cur_term nk) b); [done..| |lia|lia].
    eapply rivals_same; [exact Hsame|]. by eapply rivals_nodes.
Qed.

(** From every sound world. *)
Lemma elects w t : sound w → eventually sm0 Q (λ _, won) t w.
Proof.
  intros Hs. destruct (decide (2 ≤ size ids)%nat) as [Hsz|Hsz].
  - eapply eventually_bind; [apply (all_step_down (elements Q)); [done|done|set_solver|]|].
    + intros j Hj. left. by apply elem_of_elements.
    + intros t' w' _ [Hs' Hq]. by apply group_wins.
  - destruct HQ as [HQi HQs]. assert (size Q = 1)%nat as H1.
    { pose proof (subseteq_size _ _ HQi). lia. }
    apply size_1_elem_of in H1 as [b HQb]. assert (b ∈ Q) as Hb by set_solver.
    destruct (sound_node _ _ _ _ b Hs) as [n Hn]; [by apply HQi|].
    assert (∀ j, j ∈ Q → j = b) as Hone by set_solver.
    destruct (is_leader n) eqn:Hl.
    + eapply ev_now; [done|]. split; [done|]. exists b, n. split; [done|]. split; [done|]. split.
      * unfold is_leader in Hl. destruct (n_role n) eqn:Hr; try done. by eexists.
      * intros j ->%Hone. by exists n.
    + apply group_wins; [done|]. intros j ->%Hone. by exists n.
Qed.

(** [C13] Any majority can elect a leader. From every reachable world of a static
    cluster, whatever messages, crashes and elections led there, and from
    any instant on, there is a schedule of the nodes of the group [Q] alone,
    with no crash and a clock that never runs backwards, after which a node
    of [Q] is the leader of a term that no node of [Q] is beyond. (Election
    timeouts have to be positive: with an empty window a leader steps down
    as soon as it is elected.) *)
Theorem majority_elects w t :
  reachable_world sm0 static_client cfg ids fresh_storage w →
  ∃ sched w' b n l, timed t sched ∧ Forall (within Q) sched ∧ acts sm0 w sched = Some w' ∧
    b ∈ Q ∧ w_nodes w' !! b = Some n ∧ n_role n = Leader l ∧
    ∀ j, j ∈ Q → ∃ m, w_nodes w' !! j = Some m ∧ cur_term m ≤ cur_term n.
Proof.
  intros Hs%(sound_reachable _ _ _ Hcfg Hok).
  destruct (eventually_schedule _ _ _ _ _ (elects w t Hs)) as (l & t' & w' & Ht & _ & _ & Hin & Ha & _ & b & n & Hb & Hn & [ll Hl] & Hle).
  by exists l, w', b, n, ll.
Qed.
End campaigns.

(** ** On five nodes *)
Section five_nodes.
#[local] Existing Instances numeric_json counter_sm counter_laws.

Definition group : gset N := {[1; 2; 4]}.

Lemma group_quorum : quorum ids5 group.
Proof. split; [|vm_compute; lia]. intros x. unfold group, ids5, five. set_solver. Qed.
Lemma cfg5_pos i : i ∈ ids5 → 0 < c_election_timeout_max (cfg5 i).
Proof. intros _. reflexivity. Qed.

(** Node 1 led term 1, node 3 leads term 2 and is now out of reach. *)
Example majority_elects_witness :
  ∃ sched w' b, Forall (within group) sched ∧ acts 0 early_run sched = Some w' ∧ b ∈ group ∧
    is_leader (node_of w' b) = true.
Proof.
  destruct (majority_elects 0 ids5 cfg5 cfg5_static cfg5_ok cfg5_pos group group_quorum early_run (from_millis 900)
    early_run_reachable) as (sched & w' & b & n & l & _ & Hin & Ha & Hb & Hn & Hl & _).
  exists sched, w', b. do 3 (split; [done|]). unfold node_of. rewrite Hn. simpl. unfold is_leader. by rewrite Hl.
Defined.
End five_nodes.
