(* ===== verification/Available.v ===== *)
(** * A majority is enough

    A leader whose term no member of a majority is beyond gets a client's
    command committed and acknowledged with that majority alone: it brings
    its followers up to date one after the other ([Replicate]), and the
    commit rule does the rest. With [Elect], every reachable world has such
    a continuation, whatever has happened before. *)
From stdpp Require Import functions.
From S2P Require Import Prelude Types Rng Storage Node NodeSteps NodeLife NodeInv NodeThm Elections Cluster Runs Raft LogRepr Refine Safety Serve Reads Drive Replicate Elect.
Open Scope N_scope.

(** ** Proposing *)
Section proposing.
Context `{J : SerdeJson} {SM : Type} `{!StateMachine SM} {Laws : StateMachineLaws}.
Implicit Types (n : RaftNode SM) (l : LeaderState).

Lemma send_append_frame p n :
  wlp (send_append p) (λ _ n', ∃ es, n' = set_effects (n_effects n ++ es) n) n.
Proof.
  unfold send_append, send_install_snapshot, emit. walk; try done; try by eexists.
  all: exists []; rewrite app_nil_r; by destruct n.
Qed.
Lemma send_appends_frame ps n :
  wlp (for_each ps send_append) (λ _ n', ∃ es, n' = set_effects (n_effects n ++ es) n) n.
Proof.
  apply wpp_for_each; [exists []; rewrite app_nil_r; by destruct n|]. intros p n1 _ [es ->].
  eapply wpp_mono; [apply send_append_frame|]. intros [] n2 [es' ->]. exists (es ++ es'). nsimpl. by rewrite app_assoc.
Qed.

(** The proposal for the next index. *)
Definition next_proposal n ch : PendingProposal :=
  MkPendingProposal (cur_term n) (last_index (n_storage n) + 1) ch.

(** Leader [n] has taken the command, which left it as [n1], and then
    counted: the client has term and index, and the proposal waits. *)
Record takes l n cmd ch n1 n' : Prop := {
  tk_role : n_role n1 = Leader l;
  tk_config : n_config n1 = n_config n;
  tk_members : n_members n1 = n_members n;
  tk_term : cur_term n1 = cur_term n;
  tk_last : last_index (n_storage n1) = last_index (n_storage n) + 1;
  tk_own : term (n_storage n1) (last_index (n_storage n) + 1) = Some (cur_term n);
  tk_reply : ProposeReply ch (Ok (MkProposal (cur_term n) (last_index (n_storage n) + 1))) ∈ n_effects n1;
  tk_durable : ∃ s, Persisted s ∈ n_effects n1 ∧ entry s (last_index (n_storage n) + 1) =
    Some (MkLogEntry (cur_term n) (last_index (n_storage n) + 1) cmd);
  tk_waits : next_proposal n ch ∈ n_pending n1;
  tk_presides : presides l n1 n';
  tk_commits : commits_all l n1 n';
}.

Lemma handle_propose_takes l n cmd ch :
  n_role n = Leader l → is_member n (self n) = true → (∀ ms, cmd ≠ ConfigChange ms) →
  (∀ p k, match_index l !! p = Some k → k ≤ last_index (n_storage n)) →
  wlp (handle_propose cmd ch) (λ _ n', ∃ n1, takes l n cmd ch n1 n') n.
Proof.
  intros Hl Hm Hcmd Hmatch. unfold handle_propose. do 2 walk_step.
  unfold is_leader. rewrite Hl. simpl. walk_step.
  assert (check_command (SM := SM) cmd = mret (Ok None)) as -> by (destruct cmd; try done; by destruct (Hcmd members)).
  walk_step. walk_step.
  eapply (wpp_mono _ _ (λ _ n1, ∃ s, append [MkLogEntry (cur_term n) (last_index (n_storage n) + 1) cmd] (n_storage n) = Ok s ∧
    n1 = set_effects (n_effects n ++ [Persisted s]) (set_storage s n))).
  { unfold storage_op, emit. walk; [|done]. by eexists. }
  intros [] n1 (s & Happ & ->). unfold emit. do 7 walk_step.
  match goal with |- wpp _ maybe_advance_commit _ ?x => set (n1 := x) end.
  pose proof (last_index_append _ _ _ Happ) as Hlast. simpl in Hlast.
  assert (cur_term n1 = cur_term n) as Et by (unfold cur_term, n1; nsimpl; by rewrite (append_hard_state _ _ _ Happ)).
  set (k := last_index (n_storage n) + 1) in *.
  assert (entry s k = Some (MkLogEntry (cur_term n) k cmd)) as Hentry.
  { rewrite (entry_append _ _ _ _ Happ), bool_decide_eq_false_2 by lia. by replace (k - _ - 1) with 0 by lia. }
  assert (term s k = Some (cur_term n)) as Hterm.
  { assert (snapshot_index s = snapshot_index (n_storage n)) as Es by (by apply append_Ok in Happ as [_ ->]).
    rewrite term_above by (rewrite Es; unfold k, last_index; lia). by rewrite Hentry. }
  eapply wpp_mono; [apply (recount l n1)|]; [done|done| |].
  { intros q x Hx. unfold n1. nsimpl. rewrite Hlast. specialize (Hmatch q x Hx). lia. }
  intros [] n2 [Hp Hc]. do 2 walk_step. eapply wpp_mono; [apply send_appends_frame|].
  intros [] n3 [es ->]. destruct (ps_role _ _ _ Hp) as [rs Hr]. exists n1.
  split; [done|done|done|done|unfold n1; nsimpl; lia|exact Hterm|unfold n1; nsimpl; set_solver| | | |exact Hc].
  - exists s. split; [unfold n1; nsimpl; set_solver|exact Hentry].
  - unfold n1; nsimpl; set_solver.
  - by eapply presides_then; [exact Hp|..].
Qed.
End proposing.

(** ** Committing with a majority *)
Section availability.
Context `{J : SerdeJson} {SM : Type} `{!StateMachine SM} {Laws : StateMachineLaws} (sm0 : SM).
Context (ids : gset N) (cfg : NodeId → RaftConfig).
Context (Hcfg : static_config ids cfg) (Hok : configs_ok (nodes := ids) cfg).
Context (Q : gset N) (HQ : quorum ids Q).
Implicit Types (w : World (SM := SM)) (n m : RaftNode SM) (l : LeaderState) (i j : NodeId) (T t : N).
Implicit Types (p : PendingProposal).
#[local] Abbreviation sound := (sound sm0 ids cfg).

(** The leader [i] of term [T] has acknowledged [p]. *)
Definition settled i T p w : Prop :=
  sound w ∧ ∃ n l, w_nodes w !! i = Some n ∧ n_role n = Leader l ∧ cur_term n = T ∧ acknowledged p n.

(** Bringing one follower up to date, while [p] waits. *)
Lemma pump_settles i j w n l p t :
  i ∈ Q → j ∈ Q → sound w → pumping w i j n l → p ∈ n_pending n →
  eventually sm0 Q (λ _ w', settled i (cur_term n) p w' ∨ ∃ n' l',
    carries sm0 ids cfg i j w n l w' n' l' ∧ round_done ids i j n' l' ∧ p ∈ n_pending n') t w.
Proof.
  intros Hi Hj. remember (distance n l j) as d eqn:Hd. revert w n l Hd.
  induction d as [d IH] using (well_founded_induction N.lt_wf_0). intros w n l -> Hs Hp Hpend.
  destruct (exchange sm0 ids cfg Hcfg Hok w i j n l t Hs Hp) as (w1 & w2 & n' & l' & Ha1 & Ha2 & [Hc Hwait] & Hcase).
  eapply (ev_act _ _ _ t _ (ARequest t i j)); [done|by split|exact Ha1|].
  eapply (ev_act _ _ _ _ _ (AResponse t j i)); [done|by split|exact Ha2|]. simpl.
  pose proof (av_session _ _ _ _ _ _ _ _ _ _ _ Hc) as Hse.
  destruct (Hwait p Hpend) as [Hpend'|Hack].
  2:{ eapply ev_now; [done|]. left. split; [apply Hc|]. exists n', l'. split; [apply Hse|]. split; [apply Hse|].
      split; [apply Hc|done]. }
  destruct Hcase as [Hdone|[Hp2 Hlt]]; [eapply ev_now; [done|]; right; by exists n', l'|].
  eapply eventually_mono; [exact (IH _ Hlt w2 n' l' eq_refl (av_sound _ _ _ _ _ _ _ _ _ _ _ Hc) Hp2 Hpend')|].
  intros t' w' _ [Hst|(n'' & l'' & Hc' & ?)].
  - left. by rewrite <-(av_term _ _ _ _ _ _ _ _ _ _ _ Hc).
  - right. exists n'', l''. split; [by eapply carries_trans|done].
Qed.

(** The leader [i] serves [p]; the members [js] of the group are left. *)
Record serving i w n l p (js : list N) : Prop := {
  sg_sound : sound w;
  sg_node : w_nodes w !! i = Some n;
  sg_role : n_role n = Leader l;
  sg_behind j : j ∈ Q → ∃ m, w_nodes w !! j = Some m ∧ cur_term m ≤ cur_term n;
  sg_pending : p ∈ n_pending n;
  sg_commit : all_commit ids i l n;
  sg_match j : j ∈ Q → j ≠ i → j ∈ js ∨ match_index l !! j = Some (last_index (n_storage n));
}.

Lemma serving_not_done i w n l p : i ∈ Q → ¬ serving i w n l p [].
Proof.
  intros Hi [Hs Hn Hl _ Hp Hc Hm]. destruct (wf_pending _ _ (so_wf _ _ _ _ Hs _ _ Hn) p Hp) as [Hlt Ht].
  assert (pp_index p ≤ last_index (n_storage n)) by (apply term_is_Some; eauto).
  assert (last_index (n_storage n) ≤ n_commit_index n); [|lia]. apply (Hc Q HQ Hi). intros k Hk Hne.
  unfold match_of. destruct (Hm k Hk Hne) as [?%elem_of_nil| ->]; [done|]. simpl. lia.
Qed.

(** One more follower. *)
Lemma serving_carries i j w n l p js w' n' l' :
  i ∈ Q → serving i w n l p (j :: js) → carries sm0 ids cfg i j w n l w' n' l' →
  round_done ids i j n' l' → p ∈ n_pending n' → serving i w' n' l' p js.
Proof.
  intros Hi [Hs Hn Hl Hb _ _ Hm] [Hs' [Hn' Hl' (m & Hj & Htj) Hne] Et El Em Eo] [Hdone Hc] Hp.
  split; [done|done|done| |done|done|].
  - intros k Hk. destruct (decide (k = i)) as [->|]; [by exists n'|]. destruct (decide (k = j)) as [->|]; [by exists m|].
    destruct (Hb k Hk) as (mk & ? & ?). exists mk. by rewrite Eo, Et.
  - intros k Hk Hki. destruct (decide (k = j)) as [->|Hkj]; [by right|].
    destruct (Hm k Hk Hki) as [[->|?]%elem_of_cons|E]; [done|by left|right]. by rewrite Em, El.
Qed.

Lemma serve_settles i js w n l p t :
  i ∈ Q → (∀ j, j ∈ js → j ∈ Q ∧ j ≠ i) → serving i w n l p js → eventually sm0 Q (λ _, settled i (cur_term n) p) t w.
Proof.
  intros Hi. revert w n l t. induction js as [|j js IH]; intros w n l t Hjs Hsv; [by destruct (serving_not_done i w n l p Hi)|].
  destruct (Hjs j) as [HjQ Hne]; [left|]. pose proof Hsv as [Hs Hn Hl Hb Hp _ _].
  assert (session w i j n l) as Hse by (split; [done|done|by apply Hb|done]).
  destruct (read_pumps sm0 ids cfg Hcfg Hok t i j w n l 0 Hs Hse) as (w1 & n1 & l1 & Ha & [Hc1 Hwait] & Hp1 & _).
  eapply (ev_act _ _ _ t _ (ALocal t i (InRead 0))); [done|done|exact Ha|]. simpl.
  pose proof Hc1 as [Hs1 Hse1 Et1 _ _ _].
  destruct (Hwait p Hp) as [Hpend|Hack].
  2:{ eapply ev_now; [done|]. split; [done|]. exists n1, l1. split; [apply Hse1|]. split; [apply Hse1|done]. }
  eapply eventually_bind; [by apply (pump_settles i j w1 n1 l1 p)|].
  intros t' w' _ [Hst|(n' & l' & Hc' & Hdone & Hpend')]; [eapply ev_now; [done|]; by rewrite <-Et1|].
  pose proof (carries_trans _ _ _ _ _ _ _ _ _ _ _ _ _ _ Hc1 Hc') as Hcc. rewrite <-(av_term _ _ _ _ _ _ _ _ _ _ _ Hcc).
  eapply IH; [intros k Hk; apply Hjs; by right|]. by eapply serving_carries.
Qed.

(** *** What the client sees *)

(** Node [b] has just taken the command: it is durable at index [k] of its
    log in term [T], and the client knows term and index. *)
Definition accepted b T (k : LogIndex) cmd ch w : Prop := ∃ n, w_nodes w !! b = Some n ∧
  ProposeReply ch (Ok (MkProposal T k)) ∈ n_effects n ∧
  ∃ s, Persisted s ∈ n_effects n ∧ entry s k = Some (MkLogEntry T k cmd).

(** Node [b], still the leader of term [T], has just told the client that
    the command is committed, and has applied it. *)
Definition confirmed b T (k : LogIndex) ch w : Prop := ∃ n, w_nodes w !! b = Some n ∧
  is_leader n = true ∧ cur_term n = T ∧ Committed ch true ∈ n_effects n ∧ k ≤ n_last_applied n.

Lemma settled_confirms b T p w : settled b T p w → confirmed b T (pp_index p) (pp_committed p) w.
Proof.
  intros (Hs & n & l & Hn & Hl & Ht & Hc & Hk). exists n. split; [done|].
  split; [unfold is_leader; by rewrite Hl|]. split; [done|]. split; [done|].
  by rewrite (wf_applied _ _ (so_wf _ _ _ _ Hs _ _ Hn)).
Qed.

(** From a leader that nobody in the group is beyond. *)
Lemma propose_settles i w n l cmd ch t :
  sound w → i ∈ Q → w_nodes w !! i = Some n → n_role n = Leader l →
  (∀ j, j ∈ Q → ∃ m, w_nodes w !! j = Some m ∧ cur_term m ≤ cur_term n) → (∀ ms, cmd ≠ ConfigChange ms) →
  ∃ w1 k, act sm0 w (ALocal t i (InPropose cmd ch)) = Some w1 ∧ accepted i (cur_term n) k cmd ch w1 ∧
    eventually sm0 Q (λ _, confirmed i (cur_term n) k ch) t w1.
Proof.
  intros Hs Hi Hn Hl Hb Hcmd. pose proof (leader_books _ _ _ _ _ _ _ Hs Hn Hl) as Hbk.
  destruct (node_ids _ _ _ _ _ _ Hs Hn) as (Hin & Hself & Hdom). set (T := cur_term n) in *.
  set (k := last_index (n_storage n) + 1). set (p := next_proposal n ch).
  destruct (act_local sm0 ids cfg Hcfg Hok w i n (InPropose cmd ch) t
    (λ _ n', ∃ n1, takes l n cmd ch n1 n') Hs Hn) as (r & n' & Ha & (n1 & Hk) & Hs1); [|done| |].
  { destruct cmd; try done. by destruct (Hcmd members). }
  { intros n1 (st & es & _ & ->). simpl. apply wpp_bind.
    eapply wpp_mono; [apply (handle_propose_takes l (set_now t (set_status_tx st (set_effects es n)))); [done| |done|]|].
    - unfold self. nsimpl. change (c_id (n_config n)) with (self n). rewrite Hself. by apply (member_ids ids n).
    - exact (bk_match _ _ Hbk).
    - intros [] n' [n1 []]. apply wpp_ret. by exists n1. }
  destruct Hk as [Hl1 Ec Em Et El Hown Hrep (s & Hper & Hent) Hpe Hpr Hcm].
  destruct (ps_role _ _ _ Hpr) as [rs Hr]. destruct (ps_effects _ _ _ Hpr) as [es Ees].
  assert (cur_term n' = T) as Et'.
  { unfold T. rewrite <-Et. unfold cur_term. pose proof (ps_hard _ _ _ Hpr) as Hh. unfold hs in Hh. by rewrite Hh. }
  eexists _, k. split; [exact Ha|]. set (w1 := after _ _ _ _ _) in *.
  assert (w_nodes w1 !! i = Some n') as Hn1 by apply lookup_insert_eq. split.
  { exists n'. rewrite Ees. split; [done|]. split; [set_solver|]. exists s. split; [set_solver|done]. }
  apply (eventually_mono _ _ (λ _, settled i T p)); [|intros t' w' _ Hst; exact (settled_confirms _ _ _ _ Hst)].
  destruct (ps_pending _ _ _ Hpr p Hpe Hown) as [Hpend|Hack].
  2:{ eapply ev_now; [done|]. split; [done|]. by exists n', (set_pending_reads rs l). }
  rewrite <-Et'. apply (serve_settles i (elements (Q ∖ {[i]})) w1 n' (set_pending_reads rs l)); [done|set_solver|].
  split; [done|done|done| |done| |].
  - intros j Hj. rewrite Et'. destruct (decide (j = i)) as [->|Hne]; [exists n'; split; [done|lia]|].
    destruct (Hb j Hj) as (m & ? & ?). exists m. unfold w1. cbn [w_nodes after]. by rewrite lookup_insert_ne.
  - intros Q' HQ' Hi' Hm'. pose proof (ps_last _ _ _ Hpr) as Elast. rewrite Elast in *.
    apply Hcm; [by rewrite El, Et|].
    apply (quorum_holders ids i l n1 Q'); [by rewrite Em|unfold self in *; by rewrite Ec|done|done|done|exact Hm'].
  - intros j Hj Hne. left. set_solver.
Qed.

(** [C14] A leader with a majority behind it gets every command committed. In every
    reachable world, if no node of the majority [Q] is beyond the term of
    the leader [i] of [Q], and a client hands [i] any command (but a
    membership change), then [i] takes it, durably and with the term and
    index in its answer, and there is a schedule of the nodes of [Q] alone,
    with no crash and no election, after which [i], still the leader of the
    same term, has applied the command and told the client that it is
    committed. (The schedule lets clients ask the leader for reads, which
    make it send without waiting for its next heartbeat.) *)
Theorem leader_commits w i n l cmd ch t :
  reachable_world sm0 static_client cfg ids fresh_storage w →
  i ∈ Q → w_nodes w !! i = Some n → n_role n = Leader l →
  (∀ j, j ∈ Q → ∃ m, w_nodes w !! j = Some m ∧ cur_term m ≤ cur_term n) → (∀ ms, cmd ≠ ConfigChange ms) →
  ∃ sched w1 w2 k, act sm0 w (ALocal t i (InPropose cmd ch)) = Some w1 ∧ accepted i (cur_term n) k cmd ch w1 ∧
    timed t sched ∧ Forall (within Q) sched ∧ acts sm0 w1 sched = Some w2 ∧ confirmed i (cur_term n) k ch w2.
Proof.
  intros Hs%(sound_reachable _ _ _ Hcfg Hok) Hi Hn Hl Hb Hcmd.
  destruct (propose_settles i w n l cmd ch t Hs Hi Hn Hl Hb Hcmd) as (w1 & k & Ha & Hacc & Hev).
  destruct (eventually_schedule _ _ _ _ _ Hev) as (sched & t' & w2 & Ht & _ & _ & Hin & Hacts & Hc).
  by exists sched, w1, w2, k.
Qed.

(** [C8] The cluster is available with any majority. From every reachable world,
    whatever messages, crashes and elections led there, and from any instant
    on, any command (but a membership change) can be written through any
    majority [Q]: there is a schedule of the nodes of [Q] alone, with no
    crash and a clock that never runs backwards, in which a node of [Q]
    becomes or is the leader, takes the command, and, still the leader of
    that term, has it applied and acknowledged as committed. No reachable
    state is a dead end. (The schedule may ask the leader for reads,
    which make it send at once.) *)
Theorem majority_available w cmd ch t :
  (∀ i, i ∈ ids → 0 < c_election_timeout_max (cfg i)) →
  reachable_world sm0 static_client cfg ids fresh_storage w → (∀ ms, cmd ≠ ConfigChange ms) →
  ∃ before after w1 w2 b T k, timed t (before ++ after) ∧ Forall (within Q) (before ++ after) ∧
    b ∈ Q ∧ acts sm0 w before = Some w1 ∧ accepted b T k cmd ch w1 ∧
    acts sm0 w1 after = Some w2 ∧ confirmed b T k ch w2.
Proof.
  intros Hpos Hs%(sound_reachable _ _ _ Hcfg Hok) Hcmd.
  destruct (eventually_schedule _ _ _ _ _ (elects sm0 ids cfg Hcfg Hok Hpos Q HQ w t Hs))
    as (s0 & t0 & w0 & Ht0 & Hle0 & Hb0 & Hin0 & Ha0 & Hs0 & b & n & Hb & Hn & [l Hl] & Hbeh).
  destruct (propose_settles b w0 n l cmd ch t0 Hs0 Hb Hn Hl Hbeh Hcmd) as (w1 & k & Ha & Hacc & Hev).
  destruct (eventually_schedule _ _ _ _ _ Hev) as (s2 & t' & w2 & Ht2 & _ & _ & Hin2 & Ha2 & Hc).
  exists (s0 ++ [ALocal t0 b (InPropose cmd ch)]), s2, w1, w2, b, (cur_term n), k.
  assert (acts sm0 w (s0 ++ [ALocal t0 b (InPropose cmd ch)]) = Some w1) as Ha1.
  { rewrite acts_app, Ha0. cbn [mbind option_bind acts]. by rewrite Ha. }
  split; [|split; [|done]].
  - rewrite <-app_assoc. by eapply timed_app.
  - apply Forall_app. split; [|done]. apply Forall_app. split; [done|]. by constructor.
Qed.
End availability.

(** ** On five nodes *)
Section five_nodes.
#[local] Existing Instances numeric_json counter_sm counter_laws.

(** Nodes 2 and 3 are enough for node 1, just elected. *)
Definition voters : gset N := {[1; 2; 3]}.
Lemma voters_quorum : quorum ids5 voters.
Proof. split; [|vm_compute; lia]. intros x. unfold voters, ids5, five. set_solver. Qed.

Lemma voters_behind j :
  j ∈ voters → ∃ m, w_nodes elected !! j = Some m ∧ cur_term m ≤ cur_term (node_of elected 1).
Proof.
  intros Hj. exists (node_of elected j). unfold voters in Hj.
  assert (j = 1 ∨ j = 2 ∨ j = 3) as [->|[->| ->]] by set_solver.
  all: (split; [vm_compute; reflexivity|vm_compute; discriminate]).
Qed.

Example leader_commits_witness :
  ∃ sched w1 w2 k, act 0 elected (ALocal (from_millis 410) 1 (InPropose the_write 100)) = Some w1 ∧
    Forall (within voters) sched ∧ acts 0 w1 sched = Some w2 ∧ confirmed 1 (cur_term (node_of elected 1)) k 100 w2.
Proof.
  destruct (n_role (node_of elected 1)) as [| | |l] eqn:Hl; [vm_compute in Hl; discriminate Hl..|].
  destruct (leader_commits 0 ids5 cfg5 cfg5_static cfg5_ok voters voters_quorum elected 1 (node_of elected 1) l
    the_write 100 (from_millis 410)) as (sched & w1 & w2 & k & Ha & _ & _ & Hin & Hacts & Hc).
  - apply (acts_reachable (campaign 400 1 2 3)). vm_compute. reflexivity.
  - unfold voters. set_solver.
  - vm_compute. reflexivity.
  - exact Hl.
  - exact voters_behind.
  - discriminate.
  - exists sched, w1, w2, k. exact (conj Ha (conj Hin (conj Hacts Hc))).
Defined.

Example majority_available_witness :
  ∃ before after w1 w2 b T k, Forall (within group) (before ++ after) ∧ b ∈ group ∧
    acts 0 early_run before = Some w1 ∧ accepted b T k the_write 200 w1 ∧
    acts 0 w1 after = Some w2 ∧ confirmed b T k 200 w2.
Proof.
  destruct (majority_available 0 ids5 cfg5 cfg5_static cfg5_ok group group_quorum early_run the_write 200 (from_millis 900)
    cfg5_pos early_run_reachable) as (s1 & s2 & w1 & w2 & b & T & k & _ & Hin & Hb & Ha1 & Hacc & Ha2 & Hc); [discriminate|].
  exists s1, s2, w1, w2, b, T, k. exact (conj Hin (conj Hb (conj Ha1 (conj Hacc (conj Ha2 Hc))))).
Defined.
End five_nodes.
