(* ===== verification/Main.v ===== *)
(** * Process wiring ([src/main.rs])

    How the binary turns an accepted environment into the configuration of
    its Raft node, and how the task that follows the membership watch keeps
    the transport's address book and the API's redirect book. Listeners,
    signal handling and tracing are not modelled.

    The theorems close two gaps: nodes whose environments list each other,
    and nodes started to join them, form a cluster to which the safety
    theorems apply, under the addresses they advertise; and a departing peer
    stays reachable while clients are no longer sent to it. *)
From S2P Require Import Prelude Text Types Rng Storage Config Node NodeSteps NodeLife NodeInv.
From S2P Require Import Elections Cluster Http.
Open Scope N_scope.

Definition WRITE_TIMEOUT : Duration := from_millis 5000.

(** [config.peers.keys()], sorted. *)
Definition config_peer_ids (c : NodeConfig) : list NodeId := btree_keys (nc_peers c).

Definition bootstrap_addrs (c : NodeConfig) : Membership :=
  <[nc_id c := MkMemberAddr (to_string (nc_advertise_raft_addr c)) (to_string (nc_advertise_client_url c))]>
    (map_imap (λ id raft_addr, Some (MkMemberAddr (to_string raft_addr)
       (to_string (default [] (nc_peer_client_urls c !! id))))) (nc_peers c)).

Definition raft_config (c : NodeConfig) : RaftConfig :=
  let rc := RaftConfig_new (nc_id c) (config_peer_ids c) in
  MkRaftConfig (c_id rc) (c_peers rc) (c_election_timeout_min rc) (c_election_timeout_max rc)
    (c_heartbeat_interval rc) (c_timeout_seed rc) (nc_snapshot_threshold c) (nc_snapshot_trailing c)
    (bootstrap_addrs c) (nc_join c) (c_test_disable_reconfig_gates rc).

(** The entries of a membership that pass the filter: another node's, with
    an address. *)
Definition address_book (self_id : NodeId) (addr : MemberAddr → string) (ms : Membership) : gmap N string :=
  omap (λ a, if bool_decide (addr a = "") then None else Some (addr a)) (delete self_id ms).

(** The address books a membership view stands for: [chain] puts departing
    peers last, so that those that pass the filter win in the collected map. *)
Definition raft_addrs (self_id : NodeId) (view : MembershipView) : gmap N string :=
  address_book self_id m_raft (view_departing view) ∪ address_book self_id m_raft (view_members view).
Definition client_urls (self_id : NodeId) (view : MembershipView) : gmap N string :=
  address_book self_id m_client (view_members view).

(** One round of the task. *)
Definition follow_membership (self_id : NodeId) (view : MembershipView)
    (x : HttpTransport * gmap N string) : HttpTransport * gmap N string :=
  (set_peers (raft_addrs self_id view) x.1, client_urls self_id view).

(** ** The bootstrap membership *)
Lemma foldl_insert_lookup (f : N → MemberAddr) l m k :
  foldl (λ (ms : Membership) id, <[id := f id]> ms) m l !! k =
  if bool_decide (k ∈ l) then Some (f k) else m !! k.
Proof.
  revert m. induction l as [|i l IH]; intros m; simpl; [done|]. rewrite IH.
  destruct (decide (k ∈ l)) as [Hin|Hni].
  - rewrite !bool_decide_eq_true_2 by set_solver. done.
  - rewrite (bool_decide_eq_false_2 (k ∈ l)) by done. destruct (decide (k = i)) as [->|Hne].
    + rewrite lookup_insert_eq. by rewrite bool_decide_eq_true_2 by left.
    + rewrite lookup_insert_ne by done. by rewrite bool_decide_eq_false_2 by set_solver.
Qed.

Lemma bootstrap_raft_config c : bootstrap_members (raft_config c) = bootstrap_addrs c.
Proof.
  apply map_eq. intros k. unfold bootstrap_members.
  rewrite (foldl_insert_lookup (λ id, default MemberAddr_default (c_bootstrap_addrs (raft_config c) !! id))).
  change (c_peers (raft_config c)) with (config_peer_ids c).
  change (c_id (raft_config c)) with (nc_id c).
  change (c_bootstrap_addrs (raft_config c)) with (bootstrap_addrs c).
  assert (is_Some (bootstrap_addrs c !! k) ↔ k ∈ config_peer_ids c ++ [nc_id c]) as Hk.
  { unfold bootstrap_addrs, config_peer_ids.
    rewrite elem_of_app, list_elem_of_singleton, elem_of_btree_keys, lookup_insert_is_Some', map_lookup_imap.
    destruct (nc_peers c !! k); simpl; split.
    - intros _. left. eauto.
    - intros _. right. eauto.
    - intros [->|[? ?]]; [by right|done].
    - intros [[? ?]| ->]; [done|by left]. }
  case_bool_decide as Hin.
  - apply Hk in Hin as [a ->]. done.
  - rewrite <-Hk in Hin. apply eq_None_not_Some in Hin. by rewrite Hin.
Qed.

Lemma dom_bootstrap_addrs c : dom (bootstrap_addrs c) = {[nc_id c]} ∪ dom (nc_peers c).
Proof.
  apply set_eq. intros k. unfold bootstrap_addrs. rewrite elem_of_union, elem_of_singleton, !elem_of_dom.
  rewrite lookup_insert_is_Some', map_lookup_imap. destruct (nc_peers c !! k); simpl; naive_solver.
Qed.

Lemma lookup_bootstrap_addrs c k :
  bootstrap_addrs c !! k =
  if decide (k = nc_id c)
  then Some (MkMemberAddr (to_string (nc_advertise_raft_addr c)) (to_string (nc_advertise_client_url c)))
  else (λ raft, MkMemberAddr (to_string raft) (to_string (default [] (nc_peer_client_urls c !! k)))) <$>
         nc_peers c !! k.
Proof.
  unfold bootstrap_addrs. case_decide as Hk; [by rewrite Hk, lookup_insert_eq|].
  rewrite lookup_insert_ne by done. rewrite map_lookup_imap. by destruct (nc_peers c !! k).
Qed.

(** [C39] Environments that describe one cluster make one. If every node of a set
    is started from an accepted environment as itself, either to join or with
    the members [ids], itself among them, then the Raft configurations the
    binary builds form the cluster that the safety theorems assume, and,
    if nobody is started to join, the static one of the liveness theorems.
    The bootstrap membership of a node, in effect unless it is started to
    join, is what its environment says: under its own id the advertised raft
    address and client URL, which are the [RUSTKV_ADVERTISE_*] variables,
    else the listen addresses, else the defaults, never the bind address when
    another is advertised; under every other id the address [RUSTKV_PEERS]
    gives it, with the client URL of [RUSTKV_PEER_CLIENT_URLS] or none;
    nobody else. A node is not its own peer. *)
Theorem boot_cluster (nodes ids : gset N) (env : N → string → option str) (c : N → NodeConfig) :
  (∀ i, i ∈ nodes → from_vars (env i) = Ok (c i) ∧ nc_id (c i) = i ∧
     (nc_join (c i) = false → ids = {[i]} ∪ dom (nc_peers (c i)))) →
  cluster_config nodes ids (λ i, raft_config (c i)) ∧
  (nodes = ids → (∀ i, i ∈ ids → nc_join (c i) = false) → static_config ids (λ i, raft_config (c i))) ∧
  ∀ i, i ∈ nodes → cfg_ok (raft_config (c i)) ∧ (i ∉ c_peers (raft_config (c i))) ∧
    ∃ peers urls,
      parse_peer_map (default [] (env i "RUSTKV_PEERS"%string)) = Ok peers ∧
      parse_peer_map (default [] (env i "RUSTKV_PEER_CLIENT_URLS"%string)) = Ok urls ∧
      ∀ k, bootstrap_members (raft_config (c i)) !! k =
        if decide (k = i)
        then Some (MkMemberAddr (to_string (advertised_raft (env i))) (to_string (advertised_client (env i))))
        else (λ raft, MkMemberAddr (to_string raft) (to_string (default [] (urls !! k)))) <$> peers !! k.
Proof.
  intros Henv.
  assert (∀ i, i ∈ nodes → nc_join (c i) = false → dom (bootstrap_members (raft_config (c i))) = ids) as Hdom.
  { intros i Hi Hj. destruct (Henv i Hi) as (_ & Hid & ->); [|done].
    by rewrite bootstrap_raft_config, dom_bootstrap_addrs, Hid. }
  split; [|split].
  - intros i Hi. split; [apply Henv, Hi|]. split; [done|by apply Hdom].
  - intros <- Hj i Hi. split; [apply Henv, Hi|]. split; [by apply Hj|]. split; [by apply Hdom, Hj|done].
  - intros i Hi. destruct (Henv i Hi) as ([Hself _ _ Hraft Hurl Hp Hu _]%from_vars_ok & Hid & _).
    split; [by vm_compute|]. split.
    + change (i ∉ config_peer_ids (c i)). unfold config_peer_ids. rewrite elem_of_btree_keys.
      rewrite Hid in Hself. rewrite Hself. by intros [? ?].
    + exists (nc_peers (c i)), (nc_peer_client_urls (c i)). split; [done|]. split; [done|]. intros k.
      by rewrite bootstrap_raft_config, lookup_bootstrap_addrs, Hid, Hraft, Hurl.
Qed.

(** Three nodes that bind every interface and advertise a name, and a
    fourth that is started to join. *)
Definition local_env (i : N) (name : string) : option str :=
  (list_to_map (("RUSTKV_NODE_ID"%string, print_uint i) ::
     ("RUSTKV_RAFT_LISTEN"%string, lit "0.0.0.0:9080") ::
     ("RUSTKV_ADVERTISE_RAFT_ADDR"%string, lit "n" ++ print_uint i ++ lit ":9080") ::
     if bool_decide (i = 4) then [("RUSTKV_JOIN"%string, lit "true")]
     else [("RUSTKV_PEERS"%string, print_peers (filter (λ x, x.1 ≠ i)
            [(1, lit "n1:9080"); (2, lit "n2:9080"); (3, lit "n3:9080")]))]) : gmap string str) !! name.
Definition local_config (i : N) : NodeConfig :=
  match from_vars (local_env i) with
  | Ok c => c
  | Err _ => MkNodeConfig 0 [] [] [] ∅ ∅ None 0 false 0 [] []
  end.
Definition local_ids : gset N := {[1; 2; 3]}.
Definition local_nodes : gset N := {[1; 2; 3; 4]}.

Example boot_cluster_witness :
  cluster_config local_nodes local_ids (λ i, raft_config (local_config i)) ∧
  nc_join (local_config 4) = true ∧
  bootstrap_members (raft_config (local_config 2)) !! 2 =
    Some (MkMemberAddr "n2:9080" "http://127.0.0.1:8080") ∧
  bootstrap_members (raft_config (local_config 2)) !! 3 = Some (MkMemberAddr "n3:9080" "").
Proof.
  destruct (boot_cluster local_nodes local_ids local_env local_config) as (Hc & _ & Hb).
  { intros i Hi. unfold local_nodes in Hi. rewrite !elem_of_union, !elem_of_singleton in Hi.
    destruct Hi as [[[->| ->]| ->]| ->]; (split; [vm_compute; reflexivity|]);
      (split; [vm_compute; reflexivity|]); vm_compute; intros Hj; first [discriminate Hj|reflexivity]. }
  split; [exact Hc|]. split; [vm_compute; reflexivity|].
  assert (2 ∈ local_nodes) as H2 by (unfold local_nodes; rewrite !elem_of_union, !elem_of_singleton; auto).
  destruct (Hb 2 H2) as (_ & _ & peers & urls & Hp & Hu & Hk).
  vm_compute in Hp, Hu. injection Hp as <-. injection Hu as <-.
  split; rewrite Hk; vm_compute; reflexivity.
Defined.

(** ** Following the membership *)
Lemma lookup_address_book self_id addr ms id x :
  address_book self_id addr ms !! id = Some x ↔
  id ≠ self_id ∧ x ≠ ""%string ∧ ∃ a, addr a = x ∧ ms !! id = Some a.
Proof.
  unfold address_book. rewrite lookup_omap, bind_Some. setoid_rewrite lookup_delete_Some. split.
  - intros (a & [Hne Ha] & Hb). case_bool_decide; [done|]. injection Hb as <-. naive_solver.
  - intros (Hne & Hnz & a & <- & Ha). exists a. split; [naive_solver|]. by rewrite bool_decide_eq_false_2.
Qed.

(** The books follow the membership. After a round on a view whose
    departing peers are no members, the transport can reach exactly the
    members and departing peers with a raft address (itself excepted), it
    keeps idle connections to those addresses only, and clients are
    redirected to members only. *)
Theorem follow_membership_books self_id view x id :
  view_members view ##ₘ view_departing view →
  let '(t, urls) := follow_membership self_id view x in
  (∀ addr, t_peers t !! id = Some addr ↔ id ≠ self_id ∧ addr ≠ ""%string ∧
     ∃ a, m_raft a = addr ∧ (view_members view !! id = Some a ∨ view_departing view !! id = Some a)) ∧
  (∀ addr idle, t_pool t !! addr = Some idle →
     t_pool x.1 !! addr = Some idle ∧ ∃ k, t_peers t !! k = Some addr) ∧
  (∀ url, urls !! id = Some url ↔ id ≠ self_id ∧ url ≠ ""%string ∧
     ∃ a, m_client a = url ∧ view_members view !! id = Some a).
Proof.
  intros Hdisj. unfold follow_membership, set_peers, raft_addrs, client_urls. simpl. split; [|split].
  - intros addr. rewrite lookup_union_Some, !lookup_address_book; [naive_solver|].
    apply map_disjoint_spec. intros k a b (_ & _ & ? & _ & Ha)%lookup_address_book (_ & _ & ? & _ & Hb)%lookup_address_book.
    by eapply map_disjoint_spec.
  - intros addr idle [Hi Hb]%map_lookup_filter_Some. split; [done|].
    simpl in Hb. unfold in_book in Hb. apply Exists_exists in Hb as ([k a] & Hk & <-).
    exists k. by apply elem_of_map_to_list in Hk.
  - intros url. apply lookup_address_book.
Qed.

Definition parting_view : MembershipView :=
  MkMembershipView {[1 := MkMemberAddr "n1:9080" "http://n1"; 2 := MkMemberAddr "n2:9080" "http://n2"]}
    {[3 := MkMemberAddr "n3:9080" "http://n3"]}.

Example follow_membership_books_witness :
  t_peers (follow_membership 1 parting_view (transport0, ∅)).1 !! 3 = Some "n3:9080"%string ∧
  (follow_membership 1 parting_view (transport0, ∅)).2 !! 3 = None.
Proof.
  assert (view_members parting_view ##ₘ view_departing parting_view) as Hd.
  { apply map_disjoint_spec. intros i a b Ha Hb. simpl in Hb. apply lookup_singleton_Some in Hb as [<- _].
    vm_compute in Ha. discriminate Ha. }
  destruct (follow_membership_books 1 parting_view (transport0, ∅) 3 Hd) as (Hp & _ & Hu). split.
  - apply Hp. split; [done|]. split; [done|]. exists (MkMemberAddr "n3:9080" "http://n3").
    split; [done|]. right. vm_compute. reflexivity.
  - apply eq_None_not_Some. intros [url Hurl]. apply Hu in Hurl as (_ & _ & a & _ & Ha).
    vm_compute in Ha. discriminate Ha.
Defined.
